(* ===== verification/_CoqProject ===== *)
-Q . S2P
Prelude.v
Endian.v
Intset.v
Util.v
Glob.v
Dict.v
DictScan.v
Listpack.v
Sds.v
Skiplist.v
Reply.v
Resp.v
Repl.v
Bitmap.v
Bitops.v
Lzf.v
