(* ===== verification/Prelude.v ===== *)
(** * Verification of the core of Redis 6.2.5

    The program is the Redis server under
    src/docs/notes/Redis/redis-6.2.5/src/; every file name below is relative
    to that directory.  The development covers the data structures of the
    server and the path of the bytes of a client through it: parsing of
    requests, output buffers, the bitmap commands, and the stream of commands
    from a master to its replicas.

    ** The program and the files that model it

    Bytes and numbers.
    - Prelude.v (this file): blocks of memory as lists of bytes, machine
      integers with their wrap-around, the shared tactics, hint databases and
      lemmas on lists.
    - Endian.v (endianconv.c): byte order conversions.
    - Util.v (the number conversions of util.c) and Glob.v (stringmatchlen of
      util.c).
    - Lzf.v (lzf_c.c, lzf_d.c, lzfP.h): compression of strings.
    - Bitmap.v (the low level bit functions of bitops.c).

    Data structures.
    - Intset.v (intset.c) and Listpack.v (listpack.c): containers packed in one
      block of memory, on the bytes of the block.
    - Sds.v (sds.c, sds.h): dynamic strings, on the bytes of the allocation.
    - Dict.v (dict.c, dict.h) and DictScan.v (dictScan): the hash table with
      incremental rehashing, and its cursor.
    - Skiplist.v (the zsl functions of t_zset.c): the skiplist of sorted sets,
      on a heap of nodes.

    The path of a command.
    - Resp.v (networking.c): the query buffer of a client and the parsers, from
      readQueryFromClient to processCommandAndResetClient.
    - Reply.v (networking.c): the output buffers of a client, from the addReply
      functions to writeToClient.
    - Bitops.v (bitops.c): SETBIT, GETBIT, BITOP, BITCOUNT, BITPOS, BITFIELD,
      from the arguments to the replies.
    - Repl.v (replication.c): the backlog, the stream to the replicas and
      partial resynchronization.

    The components meet in a few places.  The parsers of Resp.v use string2ll
    of Util.v and sdssplitargs of Sds.v.  Reply.v prints numbers with Util.v.
    Bitops.v calls Bitmap.v, and its replies are those of Reply.v.  Repl.v
    queues what it sends with Reply.v, and its main theorem feeds that output,
    cut in any way, to the parser of Resp.v, which executes the commands that
    were propagated.  Intset.v stores its fields with Endian.v; Listpack.v
    recognises integers with a copy of string2ll, proved to be the same
    function.  DictScan.v continues Dict.v.  The class [ScoreOrder] of
    Skiplist.v states what the skiplist needs of the comparison of doubles.

    ** How the code is modelled

    A C function is a function of the same name on the state it reads and
    writes; parts of a long function (the body of a loop, a branch) are
    definitions of their own.  [None] is undefined behaviour or a failed
    assertion: an access outside a block ([mload], [mstore], [mget]), a NULL or
    stale pointer; so a theorem that a result is [Some] is also one of memory
    safety.  The errors the code reports are ordinary values.  Memory is a list
    of bytes or a finite map from addresses to nodes.  Integers are [Z],
    reduced explicitly ([u8], [u32], [u64], [s16], ...) where the width of the
    C type matters; where a sum of sizes is not reduced the theorem has the
    bound that makes the difference vanish.  In checkSignedBitfieldOverflow the
    signed subtractions, undefined in C beyond 64 bits, wrap around as they do
    on the machine.

    What the environment decides is a parameter, and a theorem holds for each
    of its values or under a named hypothesis: the byte order of the host
    ([be]), the content of new or uninitialised memory ([fresh], [uninit],
    [garbage], [zmalloc]), the usable size of an allocation ([usable], at least
    the size asked for), addresses, the random level of a skiplist node, the
    hash function and comparison of a dictionary, the sizes a socket takes, the
    configuration and the clock, and the execution of a command
    ([processCommand] in Resp.v, with the gopher reply).  Of the commands,
    [hostile_input_safe] assumes only what the comment of processCommand says
    (C_ERR only for a client that is destroyed or is to be closed); the
    theorems on streams of requests assume commands that do not block, close or
    destroy the client ([calm_command]), since otherwise the rest of the stream
    is not executed.

    Loops whose recursion is not structural take fuel, computed from the input
    (the length of a buffer, the number of buckets, the number of pending
    bytes, the bits of a cursor); the theorems state that the result is [Some],
    hence that the fuel is enough, and [dictRehash_terminates],
    [dictScan_exact] and [writeToClient_sends_pending] bound the steps.

    ** What the theorems show

    - Refinement: a whole sequence of operations on the concrete state does
      what the same sequence does on an abstract one: finite maps (dict), sets
      (intset), lists (listpack), sorted lists (skiplist), byte strings (sds),
      trees of replies (output buffers), lists of bits (BITFIELD), the commands
      of a master (replica).  The invariants ([dict_wf], [zsl_inv], [lp_repr],
      [intset_rep], [sds_rep], [out_wf], [backlog_ok]) are preserved and imply
      that no operation fails.
    - Round trips: requests cut into reads in any way; numbers and their
      decimal notation; compressed blocks; quoted and split strings; bitfields;
      the elements of a listpack.
    - Equivalence of fast code with a reference: population count and bit
      search by words, BITOP, glob matching, the two integer parsers.
    - Safety: a scan misses no key that stays; the parser is defined on hostile
      input; the integrity checks read only inside the payload.
    - Replication: the backlog holds exactly the end of the history and drops
      nothing early, an accepted PSYNC sends exactly the missing bytes.
    - Where the code departs from its comments: the deep check of listpacks
      refuses valid ones ([lpValidateIntegrity_miscounts]), zslGetRank ignores
      the score ([zslGetRank_ignores_score]), BITFIELD saturates to the wrong
      end for extreme values ([signed_set_extreme_saturates_high]).
    - What lies beyond the bounds of the theorems above, as theorems of its
      own: [dictExpand_overflow] (more than 2^60 buckets), [intsetAdd_overflow]
      and [intsetValidate_index_wraps] (blocks of 2^32 bytes, more than 2^31
      elements), [lpEncodeGetType_truncates] (elements of 2^32 - 5 bytes and
      more), [lzf_compress_one_byte].

    ** Not modelled

    Parts of the server left out for their size: adlist.c, ziplist.c,
    quicklist.c, rax.c, hyperloglog.c, geo.c, the commands of the data types
    (t_string.c, t_list.c, t_hash.c, t_set.c, t_stream.c, the rest of
    t_zset.c, sort.c), db.c, multi.c, pubsub.c, aof.c, rdb.c, rio.c, expire.c,
    evict.c, blocked.c, acl.c, tracking.c, config.c, cluster.c, sentinel.c,
    module.c, scripting.c, the replica side of replication.c, and the rest of
    server.c and networking.c (accepting, closing and listing clients, I/O
    threads).  In dict.c the iterators and the random sampling are left out, in
    processMultibulkBuffer the enlargement of the query buffer for a big
    argument (it changes its capacity, not its content).  The printf and scanf
    of floating point numbers (ld2string, addReplyDouble) are left out because
    the C library defines them.  Input and output and the operating system
    (ae.c, anet.c, connection.c, tls.c, bio.c, zmalloc.c) and the command line
    tools have no state of their own worth a theorem here.  The manifest lists
    every part with the reason. *)

From Stdlib Require Export ZArith Lia.
From stdpp Require Export gmap sorting strings.
From stdpp Require Export prelude list numbers.
Export list_basics.list list_relations.list list_monad.list list_misc.list list_numbers.list.

#[global] Open Scope Z_scope.

(** ** Byte memory *)

Declare Scope redis_scope.
Delimit Scope redis_scope with redis.

(** A block of memory: the bytes of one allocation, each in [0, 256). *)
Abbreviation bytes := (list Z).

Definition zlen {A} (l : list A) : Z := Z.of_nat (length l).

Definition is_byte (b : Z) : Prop := 0 <= b < 256.

#[global] Instance is_byte_dec b : Decision (is_byte b).
Proof. unfold is_byte. apply _. Defined.

(** [p[0..n)] read at offset [off]; [None] outside the allocation. *)
Definition mload (m : bytes) (off n : Z) : option bytes :=
  if bool_decide (0 <= off /\ 0 <= n /\ off + n <= zlen m)
  then Some (take (Z.to_nat n) (drop (Z.to_nat off) m)) else None.

(** Write the bytes [bs] at offset [off]; [None] outside the allocation. *)
Definition mstore (m : bytes) (off : Z) (bs : bytes) : option bytes :=
  if bool_decide (0 <= off /\ off + zlen bs <= zlen m)
  then Some (take (Z.to_nat off) m ++ bs ++ drop (Z.to_nat off + length bs) m) else None.

(** One byte. *)
Definition mget (m : bytes) (off : Z) : option Z :=
  if bool_decide (0 <= off) then m !! Z.to_nat off else None.

(** memmove(m+dst, m+src, n): the source is read whole before the destination
    is written, so the ranges may overlap. *)
Definition memmove (m : bytes) (dst src n : Z) : option bytes :=
  mload m src n ≫= mstore m dst.

(** realloc to [n] bytes: the common prefix is kept, what is added has
    unspecified content [fresh i]. *)
Definition zrealloc (fresh : nat -> Z) (m : bytes) (n : Z) : bytes :=
  take (Z.to_nat n) m ++ (fresh <$> seq (length m) (Z.to_nat n - length m)).

(** ** Machine integers *)

(** Conversion to an unsigned integer of [w] bits. *)
Definition uint (w v : Z) : Z := v mod 2 ^ w.

(** Conversion to a signed integer of [w] bits (two's complement). *)
Definition sint (w v : Z) : Z := (v + 2 ^ (w - 1)) mod 2 ^ w - 2 ^ (w - 1).

Abbreviation u8 := (uint 8).
Abbreviation u16 := (uint 16).
Abbreviation u32 := (uint 32).
Abbreviation u64 := (uint 64).
Abbreviation s8 := (sint 8).
Abbreviation s16 := (sint 16).
Abbreviation s32 := (sint 32).
Abbreviation s64 := (sint 64).

Notation "b .[ i ]" := (mget b i) (at level 1, format "b .[ i ]") : redis_scope.

Abbreviation in_s w v := (- 2 ^ (w - 1) <= v < 2 ^ (w - 1)).
Abbreviation in_u w v := (0 <= v < 2 ^ w).

(** Little-endian byte strings. *)
Fixpoint le_encode (n : nat) (v : Z) : bytes :=
  match n with
  | O => []
  | S n => v mod 256 :: le_encode n (v / 256)
  end.

Fixpoint le_decode (bs : bytes) : Z :=
  match bs with
  | [] => 0
  | b :: bs => b + 256 * le_decode bs
  end.

(** ** Tactics *)

(** Case analysis on the integer comparisons of the goal. *)
Ltac case_ints :=
  repeat match goal with
  | |- context [Z.gtb ?a ?b] => rewrite (Z.gtb_ltb a b)
  | |- context [Z.geb ?a ?b] => rewrite (Z.geb_leb a b)
  | |- context [Z.ltb ?a ?b] => destruct (Z.ltb_spec a b)
  | |- context [Z.leb ?a ?b] => destruct (Z.leb_spec a b)
  | |- context [Z.eqb ?a ?b] => destruct (Z.eqb_spec a b)
  end.

Ltac case_ints_in H :=
  repeat match type of H with
  | context [Z.gtb ?a ?b] => rewrite (Z.gtb_ltb a b) in H
  | context [Z.geb ?a ?b] => rewrite (Z.geb_leb a b) in H
  | context [Z.ltb ?a ?b] => destruct (Z.ltb_spec a b)
  | context [Z.leb ?a ?b] => destruct (Z.leb_spec a b)
  | context [Z.eqb ?a ?b] => destruct (Z.eqb_spec a b)
  end.

(** Euclidean division facts for [lia]. *)
Ltac lia_div := Z.div_mod_to_equations; lia.

Create HintDb redis.
Create Rewrite HintDb zlen.

Lemma zlen_app {A} (l k : list A) : zlen (l ++ k) = zlen l + zlen k.
Proof. unfold zlen. rewrite length_app. lia. Qed.

Lemma zlen_nonneg {A} (l : list A) : 0 <= zlen l.
Proof. unfold zlen. lia. Qed.

Lemma zlen_0_inv {A} (l : list A) : zlen l = 0 -> l = [].
Proof. destruct l; [done|]. unfold zlen. simpl. lia. Qed.
#[export] Instance zlen_Permutation {A} : Proper ((≡ₚ) ==> eq) (@zlen A).
Proof. intros l k Hp. unfold zlen. by rewrite Hp. Qed.
Lemma zlen_nil {A} : zlen (@nil A) = 0.
Proof. done. Qed.

Lemma zlen_cons {A} (x : A) l : zlen (x :: l) = 1 + zlen l.
Proof. unfold zlen. simpl. lia. Qed.

Lemma zlen_fmap {A B} (f : A -> B) l : zlen (f <$> l) = zlen l.
Proof. unfold zlen. by rewrite length_fmap. Qed.

Lemma zlen_take_min {A} (k : nat) (l : list A) : zlen (take k l) = Z.min (Z.of_nat k) (zlen l).
Proof. unfold zlen. rewrite length_take. lia. Qed.

Lemma zlen_drop_max {A} (k : nat) (l : list A) : zlen (drop k l) = Z.max 0 (zlen l - Z.of_nat k).
Proof. unfold zlen. rewrite length_drop. lia. Qed.

#[export] Hint Rewrite @zlen_app @zlen_nil @zlen_cons @zlen_fmap : zlen.
#[export] Hint Resolve zlen_nonneg : redis.

Ltac zlen := autorewrite with zlen in *; unfold zlen in *.

(** ** Byte memory: reads and writes on a block split at the offset *)

Lemma mload_out m off n : ~ (0 <= off /\ 0 <= n /\ off + n <= zlen m) -> mload m off n = None.
Proof. intros Hn. unfold mload. by rewrite bool_decide_eq_false_2. Qed.

Lemma mstore_out m off bs : ~ (0 <= off /\ off + zlen bs <= zlen m) -> mstore m off bs = None.
Proof. intros Hn. unfold mstore. by rewrite bool_decide_eq_false_2. Qed.

Lemma mload_app (a b c : bytes) off n :
  off = zlen a -> n = zlen b -> mload (a ++ b ++ c) off n = Some b.
Proof.
  intros -> ->. unfold mload. rewrite bool_decide_eq_true_2 by (zlen; lia).
  unfold zlen. rewrite !Nat2Z.id, drop_app_length, take_app_length. done.
Qed.

Lemma mload_app' (a b : bytes) off n :
  off = zlen a -> n = zlen b -> mload (a ++ b) off n = Some b.
Proof. intros ??. rewrite <-(app_nil_r b) at 1. by apply mload_app. Qed.

Lemma mstore_app (a b b' c : bytes) off :
  off = zlen a -> length b' = length b -> mstore (a ++ b ++ c) off b' = Some (a ++ b' ++ c).
Proof.
  intros -> Hb. unfold mstore. rewrite bool_decide_eq_true_2 by (zlen; lia).
  unfold zlen. rewrite Nat2Z.id, take_app_length. do 3 f_equal.
  rewrite <-drop_drop, drop_app_length, Hb, drop_app_length. done.
Qed.

Lemma mget_app (a : bytes) b c off : off = zlen a -> mget (a ++ b :: c) off = Some b.
Proof.
  intros ->. unfold mget. rewrite bool_decide_eq_true_2 by (zlen; lia).
  unfold zlen. rewrite Nat2Z.id, lookup_app_r, Nat.sub_diag by done. done.
Qed.

Lemma mload_Some (m : bytes) off n bs :
  mload m off n = Some bs ->
  exists a c, m = a ++ bs ++ c /\ off = zlen a /\ n = zlen bs.
Proof.
  unfold mload. case_bool_decide as H; [|done]. intros [= <-].
  exists (take (Z.to_nat off) m), (drop (Z.to_nat n) (drop (Z.to_nat off) m)).
  rewrite !take_drop. split; [done|].
  unfold zlen in *. rewrite !length_take, ?length_drop. lia.
Qed.

Lemma mstore_length (m : bytes) off bs m' : mstore m off bs = Some m' -> length m' = length m.
Proof.
  unfold mstore. case_bool_decide as H; [|done]. intros [= <-]. unfold zlen in *.
  rewrite !length_app, length_take, length_drop. lia.
Qed.

(** Shifting the tail [b] up by [zlen t] into the room [t] at the end. *)
Lemma memmove_up (a b t : bytes) dst src n :
  src = zlen a -> dst = zlen a + zlen t -> n = zlen b ->
  memmove (a ++ b ++ t) dst src n = Some (a ++ take (length t) (b ++ t) ++ b).
Proof.
  intros -> -> ->. unfold memmove. rewrite mload_app by done. simpl.
  set (k := length t).
  replace (a ++ b ++ t) with ((a ++ take k (b ++ t)) ++ drop k (b ++ t) ++ [])
    by (by rewrite app_nil_r, <-app_assoc, take_drop).
  rewrite mstore_app.
  - by rewrite app_nil_r, <-app_assoc.
  - rewrite zlen_app. f_equal. unfold zlen. rewrite length_take, length_app. lia.
  - rewrite length_drop, length_app. lia.
Qed.

(** Shifting the tail [b] down over [x]. *)
Lemma memmove_down (a x b : bytes) dst src n :
  dst = zlen a -> src = zlen a + zlen x -> n = zlen b ->
  memmove (a ++ x ++ b) dst src n = Some (a ++ b ++ drop (length b) (x ++ b)).
Proof.
  intros -> -> ->. unfold memmove.
  assert (mload (a ++ x ++ b) (zlen a + zlen x) (zlen b) = Some b) as ->.
  { rewrite app_assoc. apply mload_app'; [by rewrite zlen_app|done]. }
  simpl.
  rewrite <-(take_drop (length b) (x ++ b)) at 1. apply mstore_app; [done|].
  rewrite length_take, length_app. lia.
Qed.

Lemma zrealloc_grow fresh m n :
  zlen m <= n -> exists t, zrealloc fresh m n = m ++ t /\ zlen t = n - zlen m.
Proof.
  intros H. unfold zrealloc. rewrite take_ge by (unfold zlen in *; lia).
  eexists. split; [done|]. rewrite zlen_fmap. unfold zlen in *. rewrite length_seq. lia.
Qed.

Lemma zrealloc_shrink fresh (a b : bytes) n : n = zlen a -> zrealloc fresh (a ++ b) n = a.
Proof.
  intros ->. unfold zrealloc. unfold zlen. rewrite Nat2Z.id, take_app_length, length_app.
  replace (length a - (length a + length b))%nat with 0%nat by lia. simpl. by rewrite app_nil_r.
Qed.

(** ** Conversions *)

Lemma uint_small w v : in_u w v -> uint w v = v.
Proof. apply Z.mod_small. Qed.

Lemma uint_range w v : 0 <= w -> in_u w (uint w v).
Proof. intros. apply Z.mod_pos_bound. by apply Z.pow_pos_nonneg. Qed.

Lemma sint_small w v : in_s w v -> 0 < w -> sint w v = v.
Proof.
  intros H Hw. unfold sint.
  assert (2 ^ w = 2 * 2 ^ (w - 1)) as E
    by (rewrite <-Z.pow_succ_r by lia; f_equal; lia).
  rewrite Z.mod_small by lia. lia.
Qed.

Lemma sint_range w v : 0 < w -> in_s w (sint w v).
Proof.
  intros Hw. unfold sint.
  assert (2 ^ w = 2 * 2 ^ (w - 1)) as E
    by (rewrite <-Z.pow_succ_r by lia; f_equal; lia).
  pose proof (Z.mod_pos_bound (v + 2 ^ (w - 1)) (2 ^ w) ltac:(lia)). lia.
Qed.

Lemma sint_uint w v : 0 < w -> sint w (uint w v) = sint w v.
Proof.
  intros Hw. unfold sint, uint. f_equal. rewrite Zplus_mod_idemp_l. done.
Qed.

Lemma uint_sint w v : 0 < w -> uint w (sint w v) = uint w v.
Proof.
  intros Hw. unfold sint, uint. rewrite Zminus_mod_idemp_l. f_equal. lia.
Qed.

(** ** Bit fields *)

(** Bits or-ed above a field are added. *)
Lemma lor_add a b k : 0 <= k -> 0 <= a < 2 ^ k -> Z.lor a (Z.shiftl b k) = a + b * 2 ^ k.
Proof.
  intros Hk Ha. rewrite <-Z.shiftl_mul_pow2 by done.
  assert (Z.land a (Z.shiftl b k) = 0) as H0.
  { apply Z.bits_inj'. intros i Hi. rewrite Z.land_spec, Z.bits_0. destruct (decide (i < k)).
    - by rewrite Z.shiftl_spec_low, andb_false_r by lia.
    - by rewrite <-(Z.mod_small a (2 ^ k)), Z.mod_pow2_bits_high by lia. }
  by rewrite (Z.add_nocarry_lxor _ _ H0), Z.lxor_lor.
Qed.

(** A mask of low ones is a remainder. *)
Lemma land_low v n : 0 <= n -> Z.land v (2 ^ n - 1) = v mod 2 ^ n.
Proof. intros Hn. rewrite <-Z.land_ones, Z.ones_equiv by done. done. Qed.

(** ** Little-endian encoding *)

Lemma length_le_encode n v : length (le_encode n v) = n.
Proof. revert v. induction n; intros v; simpl; [done|]. by rewrite IHn. Qed.

Lemma zlen_le_encode n v : zlen (le_encode n v) = Z.of_nat n.
Proof. unfold zlen. by rewrite length_le_encode. Qed.

#[export] Hint Rewrite zlen_le_encode : zlen.

Lemma le_encode_bytes n v : Forall is_byte (le_encode n v).
Proof.
  revert v. induction n; intros v; simpl; constructor; [|done].
  apply Z.mod_pos_bound. lia.
Qed.

Lemma le_decode_encode n v : le_decode (le_encode n v) = uint (8 * Z.of_nat n) v.
Proof.
  revert v. induction n as [|n IH]; intros v; [unfold uint; simpl; by rewrite Z.mod_1_r|].
  simpl le_encode. simpl le_decode. rewrite IH. unfold uint.
  replace (8 * Z.of_nat (S n)) with (8 + 8 * Z.of_nat n) by lia.
  rewrite Z.pow_add_r by lia. change (2 ^ 8) with 256.
  rewrite Z.rem_mul_r by lia. lia.
Qed.

Lemma le_decode_range bs : Forall is_byte bs -> in_u (8 * zlen bs) (le_decode bs).
Proof.
  induction 1 as [|b bs Hb H IH]; [zlen; simpl; lia|].
  rewrite zlen_cons. replace (8 * (1 + zlen bs)) with (8 + 8 * zlen bs) by lia.
  pose proof (zlen_nonneg bs). rewrite Z.pow_add_r by lia. change (2 ^ 8) with 256.
  unfold is_byte in Hb. simpl. nia.
Qed.

Lemma le_encode_decode bs : Forall is_byte bs -> le_encode (length bs) (le_decode bs) = bs.
Proof.
  induction 1 as [|b bs Hb H IH]; [done|]. simpl. unfold is_byte in Hb.
  rewrite (Z.mul_comm 256), Z.mod_add, Z.div_add, (Z.mod_small b), (Z.div_small b) by lia.
  by rewrite Z.add_0_l, IH.
Qed.

Lemma le_encode_uint n v : le_encode n (uint (8 * Z.of_nat n) v) = le_encode n v.
Proof.
  rewrite <-le_decode_encode.
  rewrite <-(length_le_encode n v) at 1. apply le_encode_decode, le_encode_bytes.
Qed.

(** A signed value survives being stored in [n] bytes and read back signed. *)
Lemma le_signed_roundtrip n v :
  (0 < n)%nat -> in_s (8 * Z.of_nat n) v ->
  sint (8 * Z.of_nat n) (le_decode (le_encode n v)) = v.
Proof.
  intros Hn Hv. rewrite le_decode_encode, sint_uint, sint_small by lia. done.
Qed.

#[global] Arguments le_encode : simpl never.
#[global] Arguments le_decode : simpl never.

(** ** Strings *)

(** The bytes of a string literal of the source. *)
Definition str (s : string) : bytes :=
  (fun c => Z.of_nat (Ascii.nat_of_ascii c)) <$> String.list_ascii_of_string s.
