(* ===== verification/Endian.v ===== *)
(** * endianconv.c: byte-order conversion

    The [memrevN] functions reverse an integer of N bits in place; the
    [...ifbe] macros of endianconv.h apply them on big-endian hosts only.  The
    byte order of the host is the variable [be]; everything stored through
    these macros is little endian on either kind of host. *)

From S2P Require Import Prelude.

(** memrev16/32/64: the swaps of the source, byte by byte. *)
Definition memrev16 (x : bytes) : bytes :=
  match x with [x0; x1] => [x1; x0] | _ => x end.

Definition memrev32 (x : bytes) : bytes :=
  match x with [x0; x1; x2; x3] => [x3; x2; x1; x0] | _ => x end.

Definition memrev64 (x : bytes) : bytes :=
  match x with
  | [x0; x1; x2; x3; x4; x5; x6; x7] => [x7; x6; x5; x4; x3; x2; x1; x0]
  | _ => x
  end.

(** An integer of [n] bytes as it lies in the memory of the host. *)
Definition host_encode (be : bool) (n : nat) (v : Z) : bytes :=
  if be then reverse (le_encode n v) else le_encode n v.

Definition host_decode (be : bool) (bs : bytes) : Z :=
  le_decode (if be then reverse bs else bs).

(** intrev16/32/64: reverse the bytes of the argument. *)
Definition intrev16 (be : bool) (v : Z) : Z := host_decode be (memrev16 (host_encode be 2 v)).
Definition intrev32 (be : bool) (v : Z) : Z := host_decode be (memrev32 (host_encode be 4 v)).
Definition intrev64 (be : bool) (v : Z) : Z := host_decode be (memrev64 (host_encode be 8 v)).

(** The conditional variants of endianconv.h. *)
Definition memrev16ifbe (be : bool) (x : bytes) : bytes := if be then memrev16 x else x.
Definition memrev32ifbe (be : bool) (x : bytes) : bytes := if be then memrev32 x else x.
Definition memrev64ifbe (be : bool) (x : bytes) : bytes := if be then memrev64 x else x.
Definition intrev16ifbe (be : bool) (v : Z) : Z := if be then intrev16 be v else v.
Definition intrev32ifbe (be : bool) (v : Z) : Z := if be then intrev32 be v else v.
Definition intrev64ifbe (be : bool) (v : Z) : Z := if be then intrev64 be v else v.

(** htonu64 / ntohu64: network order is big endian. *)
Definition htonu64 (be : bool) (v : Z) : Z := if be then v else intrev64 be v.
Definition ntohu64 (be : bool) (v : Z) : Z := if be then v else intrev64 be v.

Lemma length_host_encode be n v : length (host_encode be n v) = n.
Proof.
  destruct be; unfold host_encode; rewrite ?length_reverse; apply length_le_encode.
Qed.

Lemma host_decode_encode be n v : host_decode be (host_encode be n v) = uint (8 * Z.of_nat n) v.
Proof.
  destruct be; unfold host_decode, host_encode;
    rewrite ?reverse_involutive; apply le_decode_encode.
Qed.

Lemma memrev16_reverse x : length x = 2%nat -> memrev16 x = reverse x.
Proof. by destruct x as [|? [|? [|]]]. Qed.

Lemma memrev32_reverse x : length x = 4%nat -> memrev32 x = reverse x.
Proof. by destruct x as [|? [|? [|? [|? [|]]]]]. Qed.

Lemma memrev64_reverse x : length x = 8%nat -> memrev64 x = reverse x.
Proof. by destruct x as [|? [|? [|? [|? [|? [|? [|? [|? [|]]]]]]]]]. Qed.

(** The stored bytes are little endian whatever the host. *)
Lemma memrev16ifbe_host be v : memrev16ifbe be (host_encode be 2 v) = le_encode 2 v.
Proof. destruct be; [|done]. unfold memrev16ifbe. rewrite memrev16_reverse; done. Qed.

Lemma memrev32ifbe_host be v : memrev32ifbe be (host_encode be 4 v) = le_encode 4 v.
Proof. destruct be; [|done]. unfold memrev32ifbe. rewrite memrev32_reverse; done. Qed.

Lemma memrev64ifbe_host be v : memrev64ifbe be (host_encode be 8 v) = le_encode 8 v.
Proof. destruct be; [|done]. unfold memrev64ifbe. rewrite memrev64_reverse; done. Qed.

(** Reading back: reversing stored little-endian bytes gives host order. *)
Lemma host_decode_memrev16ifbe be x :
  length x = 2%nat -> host_decode be (memrev16ifbe be x) = le_decode x.
Proof.
  intros H. destruct be; [|done]. unfold memrev16ifbe, host_decode.
  by rewrite memrev16_reverse, reverse_involutive.
Qed.

Lemma host_decode_memrev32ifbe be x :
  length x = 4%nat -> host_decode be (memrev32ifbe be x) = le_decode x.
Proof.
  intros H. destruct be; [|done]. unfold memrev32ifbe, host_decode.
  by rewrite memrev32_reverse, reverse_involutive.
Qed.

Lemma host_decode_memrev64ifbe be x :
  length x = 8%nat -> host_decode be (memrev64ifbe be x) = le_decode x.
Proof.
  intros H. destruct be; [|done]. unfold memrev64ifbe, host_decode.
  by rewrite memrev64_reverse, reverse_involutive.
Qed.

Lemma host_encode_bytes be n v : Forall is_byte (host_encode be n v).
Proof.
  destruct be; unfold host_encode; [apply Forall_reverse|]; apply le_encode_bytes.
Qed.

Lemma host_encode_decode be bs :
  Forall is_byte bs -> host_encode be (length bs) (host_decode be bs) = bs.
Proof.
  intros H. destruct be; unfold host_encode, host_decode; [|by apply le_encode_decode].
  rewrite <-length_reverse, le_encode_decode by (by apply Forall_reverse).
  apply reverse_involutive.
Qed.

Lemma intrev32_involutive be v : in_u 32 v -> intrev32 be (intrev32 be v) = v.
Proof.
  intros Hv. unfold intrev32.
  pose proof (length_host_encode be 4 v) as L.
  rewrite (memrev32_reverse (host_encode be 4 v)) by done.
  assert (length (reverse (host_encode be 4 v)) = 4%nat) as L' by (by rewrite length_reverse).
  rewrite <-L' at 1. rewrite host_encode_decode by (apply Forall_reverse, host_encode_bytes).
  rewrite memrev32_reverse, reverse_involutive, host_decode_encode by done.
  by apply uint_small.
Qed.

Lemma intrev32_range be v : in_u 32 (intrev32 be v).
Proof.
  unfold intrev32. rewrite memrev32_reverse by apply length_host_encode.
  unfold host_decode.
  set (x := if be then _ else _).
  assert (Forall is_byte x /\ length x = 4%nat) as [Hx L].
  { subst x. split; destruct be; rewrite ?reverse_involutive, ?length_reverse;
      try apply length_host_encode; [|apply Forall_reverse]; apply host_encode_bytes. }
  pose proof (le_decode_range x Hx) as H. unfold zlen in H. by rewrite L in H.
Qed.

Lemma intrev32ifbe_involutive be v : in_u 32 v -> intrev32ifbe be (intrev32ifbe be v) = v.
Proof. destruct be; [|done]. apply intrev32_involutive. Qed.

Lemma intrev32ifbe_range be v : in_u 32 v -> in_u 32 (intrev32ifbe be v).
Proof. destruct be; [intros; apply intrev32_range|done]. Qed.

(** C: reversing the bytes of a 64-bit integer to network order and back gives
    the integer, and in network order the most significant byte comes first. *)
Lemma htonu64_roundtrip be v :
  in_u 64 v ->
  ntohu64 be (htonu64 be v) = v /\
  host_encode be 8 (htonu64 be v) = reverse (le_encode 8 v).
Proof.
  intros Hv. destruct be; unfold htonu64, ntohu64; [done|].
  unfold intrev64, host_encode, host_decode.
  set (x := le_encode 8 v).
  assert (length x = 8%nat) as L by apply length_le_encode.
  assert (length (reverse x) = 8%nat) as L' by (by rewrite length_reverse).
  assert (Forall is_byte (reverse x)) as B by apply Forall_reverse, le_encode_bytes.
  pose proof (le_encode_decode (reverse x) B) as E. rewrite L' in E.
  rewrite (memrev64_reverse x), E by done. split; [|done].
  rewrite memrev64_reverse, reverse_involutive by done. subst x.
  rewrite le_decode_encode. by apply uint_small.
Qed.
