(* ===== verification/Intset.v ===== *)
(** * intset.c: sorted sets of integers in one block of memory

    The structure is a header (encoding, length) followed by the elements, in
    increasing order, each stored little endian in 2, 4 or 8 bytes.  Every
    operation of intset.c is translated over the bytes; a result [None] stands
    for a memory access outside the block or a failed assertion.  The
    abstraction relation [intset_rep s l] says that the block holds exactly
    the strictly increasing list [l]; the theorems show that the operations
    implement the operations of a finite set of 64-bit integers, up to the
    2^32 bytes the code can count, and what happens beyond. *)

From S2P Require Import Prelude Endian.

Record intset := mk_intset {
  is_encoding : Z;      (** uint32_t, through intrev32ifbe *)
  is_length : Z;        (** uint32_t, through intrev32ifbe *)
  is_contents : bytes;
}.

Definition INTSET_ENC_INT16 : Z := 2.
Definition INTSET_ENC_INT32 : Z := 4.
Definition INTSET_ENC_INT64 : Z := 8.

Definition set_encoding (s : intset) (e : Z) : intset :=
  mk_intset e (is_length s) (is_contents s).
Definition set_length (s : intset) (n : Z) : intset :=
  mk_intset (is_encoding s) n (is_contents s).
Definition set_contents (s : intset) (m : bytes) : intset :=
  mk_intset (is_encoding s) (is_length s) m.

Definition _intsetValueEncoding (v : Z) : Z :=
  if (v <? - 2 ^ 31) || (v >? 2 ^ 31 - 1) then INTSET_ENC_INT64
  else if (v <? - 2 ^ 15) || (v >? 2 ^ 15 - 1) then INTSET_ENC_INT32
  else INTSET_ENC_INT16.

Section intset.
Context (be : bool) (fresh : nat -> Z).

Definition _intsetGetEncoded (s : intset) (pos enc : Z) : option Z :=
  if enc =? INTSET_ENC_INT64 then
    v64 ← mload (is_contents s) (pos * 8) 8;
    Some (s64 (host_decode be (memrev64ifbe be v64)))
  else if enc =? INTSET_ENC_INT32 then
    v32 ← mload (is_contents s) (pos * 4) 4;
    Some (s32 (host_decode be (memrev32ifbe be v32)))
  else
    v16 ← mload (is_contents s) (pos * 2) 2;
    Some (s16 (host_decode be (memrev16ifbe be v16))).

Definition _intsetGet (s : intset) (pos : Z) : option Z :=
  _intsetGetEncoded s pos (u8 (intrev32ifbe be (is_encoding s))).

Definition _intsetSet (s : intset) (pos value : Z) : option intset :=
  let encoding := intrev32ifbe be (is_encoding s) in
  if encoding =? INTSET_ENC_INT64 then
    m ← mstore (is_contents s) (pos * 8) (host_encode be 8 value);
    x ← mload m (pos * 8) 8;
    set_contents s <$> mstore m (pos * 8) (memrev64ifbe be x)
  else if encoding =? INTSET_ENC_INT32 then
    m ← mstore (is_contents s) (pos * 4) (host_encode be 4 value);
    x ← mload m (pos * 4) 4;
    set_contents s <$> mstore m (pos * 4) (memrev32ifbe be x)
  else
    m ← mstore (is_contents s) (pos * 2) (host_encode be 2 value);
    x ← mload m (pos * 2) 2;
    set_contents s <$> mstore m (pos * 2) (memrev16ifbe be x).

Definition intsetNew : intset :=
  mk_intset (intrev32ifbe be INTSET_ENC_INT16) 0 [].

Definition intsetResize (s : intset) (len : Z) : intset :=
  let size := u32 (len * intrev32ifbe be (is_encoding s)) in
  set_contents s (zrealloc fresh (is_contents s) size).

(** The loop of intsetSearch; returns [(min, mid, cur)] at its exit. *)
Fixpoint intsetSearch_loop (fuel : nat) (s : intset) (value min max mid cur : Z)
    : option (Z * Z * Z) :=
  match fuel with
  | O => None
  | S fuel =>
    if max >=? min then
      let mid := s32 (Z.shiftr (u32 (u32 min + u32 max)) 1) in
      cur ← _intsetGet s mid;
      if value >? cur then intsetSearch_loop fuel s value (mid + 1) max mid cur
      else if value <? cur then intsetSearch_loop fuel s value min (mid - 1) mid cur
      else Some (min, mid, cur)
    else Some (min, mid, cur)
  end.

(** Returns the result of the function and the value stored in [*pos]. *)
Definition intsetSearch (s : intset) (value : Z) : option (bool * Z) :=
  let min := 0 in
  let max := s32 (intrev32ifbe be (is_length s) - 1) in
  if intrev32ifbe be (is_length s) =? 0 then Some (false, 0)
  else
    last ← _intsetGet s max;
    if value >? last then Some (false, intrev32ifbe be (is_length s))
    else
      first ← _intsetGet s 0;
      if value <? first then Some (false, 0)
      else
        '(min, mid, cur) ←
          intsetSearch_loop (Z.to_nat (max - min) + 2) s value min max (-1) (-1);
        if value =? cur then Some (true, u32 mid) else Some (false, u32 min).

(** [while(length--) _intsetSet(is,length+prepend,_intsetGetEncoded(is,length,curenc))] *)
Fixpoint intsetUpgrade_loop (length : nat) (s : intset) (prepend curenc : Z)
    : option intset :=
  match length with
  | O => Some s
  | S length =>
    v ← _intsetGetEncoded s (Z.of_nat length) curenc;
    s ← _intsetSet s (Z.of_nat length + prepend) v;
    intsetUpgrade_loop length s prepend curenc
  end.

Definition intsetUpgradeAndAdd (s : intset) (value : Z) : option intset :=
  let curenc := u8 (intrev32ifbe be (is_encoding s)) in
  let newenc := _intsetValueEncoding value in
  let length := s32 (intrev32ifbe be (is_length s)) in
  let prepend := if value <? 0 then 1 else 0 in
  let s := set_encoding s (intrev32ifbe be newenc) in
  let s := intsetResize s (u32 (intrev32ifbe be (is_length s) + 1)) in
  if length <? 0 then None else
  s ← intsetUpgrade_loop (Z.to_nat length) s prepend curenc;
  s ← (if prepend =? 1 then _intsetSet s 0 value
        else _intsetSet s (s32 (intrev32ifbe be (is_length s))) value);
  Some (set_length s (intrev32ifbe be (u32 (intrev32ifbe be (is_length s) + 1)))).

Definition intsetMoveTail (s : intset) (from to : Z) : option intset :=
  let bytes := u32 (intrev32ifbe be (is_length s) - from) in
  let encoding := intrev32ifbe be (is_encoding s) in
  let sz := if encoding =? INTSET_ENC_INT64 then 8
            else if encoding =? INTSET_ENC_INT32 then 4 else 2 in
  set_contents s <$> memmove (is_contents s) (to * sz) (from * sz) (u32 (bytes * sz)).

(** Returns the new block and the value stored in [*success]. *)
Definition intsetAdd (s : intset) (value : Z) : option (intset * bool) :=
  let valenc := _intsetValueEncoding value in
  if valenc >? intrev32ifbe be (is_encoding s) then
    s ← intsetUpgradeAndAdd s value; Some (s, true)
  else
    '(found, pos) ← intsetSearch s value;
    if found : bool then Some (s, false)
    else
      let s := intsetResize s (u32 (intrev32ifbe be (is_length s) + 1)) in
      s ← (if pos <? intrev32ifbe be (is_length s)
            then intsetMoveTail s pos (u32 (pos + 1)) else Some s);
      s ← _intsetSet s (s32 pos) value;
      Some (set_length s (intrev32ifbe be (u32 (intrev32ifbe be (is_length s) + 1))), true).

Definition intsetRemove (s : intset) (value : Z) : option (intset * bool) :=
  let valenc := _intsetValueEncoding value in
  if valenc <=? intrev32ifbe be (is_encoding s) then
    '(found, pos) ← intsetSearch s value;
    if found : bool then
      let len := intrev32ifbe be (is_length s) in
      s ← (if pos <? u32 (len - 1) then intsetMoveTail s (u32 (pos + 1)) pos else Some s);
      let s := intsetResize s (u32 (len - 1)) in
      Some (set_length s (intrev32ifbe be (u32 (len - 1))), true)
    else Some (s, false)
  else Some (s, false).

Definition intsetFind (s : intset) (value : Z) : option bool :=
  let valenc := _intsetValueEncoding value in
  if valenc <=? intrev32ifbe be (is_encoding s)
  then fst <$> intsetSearch s value else Some false.

(** [rnd] is the value rand() returns. *)
Definition intsetRandom (s : intset) (rnd : Z) : option Z :=
  let len := intrev32ifbe be (is_length s) in
  if len =? 0 then None else _intsetGet s (s32 (rnd mod len)).

(** [Some None] when the function returns 0. *)
Definition intsetGet (s : intset) (pos : Z) : option (option Z) :=
  if pos <? intrev32ifbe be (is_length s)
  then Some <$> _intsetGet s (s32 pos) else Some None.

Definition intsetLen (s : intset) : Z := intrev32ifbe be (is_length s).

Definition intsetBlobLen (s : intset) : Z :=
  8 + intrev32ifbe be (is_length s) * intrev32ifbe be (is_encoding s).

(** A serialized intset read as the C struct. *)
Definition intset_of_blob (p : bytes) : intset :=
  mk_intset (host_decode be (take 4 p)) (host_decode be (take 4 (drop 4 p))) (drop 8 p).

Fixpoint intsetValidate_loop (n : nat) (s : intset) (i prev : Z) : option bool :=
  match n with
  | O => Some true
  | S n =>
    cur ← _intsetGet s (s32 i);
    if cur <=? prev then Some false else intsetValidate_loop n s (i + 1) cur
  end.

Definition intsetValidateIntegrity (p : bytes) (size : Z) (deep : bool) : option bool :=
  if size <? 8 then Some false
  else
    let s := intset_of_blob p in
    let encoding := intrev32ifbe be (is_encoding s) in
    if negb ((encoding =? INTSET_ENC_INT64) || (encoding =? INTSET_ENC_INT32)
             || (encoding =? INTSET_ENC_INT16)) then Some false
    else
      let record_size := encoding in
      let count := intrev32ifbe be (is_length s) in
      if negb (8 + count * record_size =? size) then Some false
      else if count =? 0 then Some false
      else if negb deep then Some true
      else
        prev ← _intsetGet s 0;
        intsetValidate_loop (Z.to_nat (count - 1)) s 1 prev.

(** ** Abstraction *)

(** The elements [l] stored one after the other in [n] bytes each. *)
Definition enc_all (n : nat) (l : list Z) : bytes := concat (le_encode n <$> l).

Definition valid_enc (e : Z) : Prop := e = 2 \/ e = 4 \/ e = 8.

(** [s] is a well-formed block holding the strictly increasing list [l]. *)
Record intset_rep (s : intset) (l : list Z) : Prop := {
  rep_enc_valid : valid_enc (intrev32ifbe be (is_encoding s));
  rep_enc_range : in_u 32 (is_encoding s);
  rep_length : is_length s = intrev32ifbe be (zlen l);
  rep_size : zlen l * intrev32ifbe be (is_encoding s) < 2 ^ 32;
  rep_contents : is_contents s = enc_all (Z.to_nat (intrev32ifbe be (is_encoding s))) l;
  rep_fits : Forall (fun v => in_s (8 * intrev32ifbe be (is_encoding s)) v) l;
  rep_sorted : StronglySorted Z.lt l;
}.

(** One more element, at the widest encoding, keeps the 32-bit size in range. *)
Definition has_room (l : list Z) : Prop := (zlen l + 1) * 8 < 2 ^ 32.

Lemma rep_len_range s l : intset_rep s l -> zlen l < 2 ^ 31.
Proof. intros [[E|[E|E]] _ _ H _ _ _]; rewrite E in H; pose proof (zlen_nonneg l); lia. Qed.

Lemma enc_all_app n l k : enc_all n (l ++ k) = enc_all n l ++ enc_all n k.
Proof. unfold enc_all. by rewrite fmap_app, concat_app. Qed.

Lemma enc_all_cons n x l : enc_all n (x :: l) = le_encode n x ++ enc_all n l.
Proof. done. Qed.

Lemma length_enc_all n l : length (enc_all n l) = (n * length l)%nat.
Proof.
  induction l as [|x l IH]; [simpl; lia|].
  rewrite enc_all_cons, length_app, IH, length_le_encode. simpl. lia.
Qed.

Lemma zlen_enc_all n l : zlen (enc_all n l) = Z.of_nat n * zlen l.
Proof. unfold zlen. rewrite length_enc_all. lia. Qed.

Lemma enc_all_split n l (i : nat) x :
  l !! i = Some x ->
  enc_all n l = enc_all n (take i l) ++ le_encode n x ++ enc_all n (drop (S i) l).
Proof.
  intros H. rewrite <-(take_drop_middle l i x H) at 1.
  by rewrite enc_all_app, enc_all_cons.
Qed.

Lemma zlen_take {A} (l : list A) i : (i <= length l)%nat -> zlen (take i l) = Z.of_nat i.
Proof. intros. unfold zlen. rewrite length_take. lia. Qed.

(** Reading a stored element, in terms of the width [e]. *)
Lemma getEncoded_le s (a c : bytes) pos e v :
  valid_enc e -> in_s (8 * e) v ->
  is_contents s = a ++ le_encode (Z.to_nat e) v ++ c ->
  pos * e = zlen a ->
  _intsetGetEncoded s pos e = Some v.
Proof.
  intros He Hv Hc Hp. unfold _intsetGetEncoded, INTSET_ENC_INT64, INTSET_ENC_INT32.
  destruct He as [-> | [-> | ->]]; simpl; rewrite Hc, (mload_app a) by (zlen; lia || done);
    simpl; f_equal.
  - rewrite host_decode_memrev16ifbe by apply length_le_encode.
    apply (le_signed_roundtrip 2); [lia|done].
  - rewrite host_decode_memrev32ifbe by apply length_le_encode.
    apply (le_signed_roundtrip 4); [lia|done].
  - rewrite host_decode_memrev64ifbe by apply length_le_encode.
    apply (le_signed_roundtrip 8); [lia|done].
Qed.

(** Writing an element: the bytes at the position are replaced. *)
Lemma intsetSet_le s (a b c : bytes) pos v :
  valid_enc (intrev32ifbe be (is_encoding s)) ->
  is_contents s = a ++ b ++ c ->
  zlen b = intrev32ifbe be (is_encoding s) ->
  pos * intrev32ifbe be (is_encoding s) = zlen a ->
  _intsetSet s pos v =
    Some (set_contents s (a ++ le_encode (Z.to_nat (intrev32ifbe be (is_encoding s))) v ++ c)).
Proof.
  intros He Hc Hb Hp. unfold _intsetSet, INTSET_ENC_INT64, INTSET_ENC_INT32.
  assert (forall n : nat, length (host_encode be n v) = n) as L by (intros; apply length_host_encode).
  destruct He as [E | [E | E]]; rewrite E in *; simpl;
    rewrite Hc, (mstore_app a b) by (rewrite ?L; unfold zlen in *; lia); simpl;
    rewrite (mload_app a) by (unfold zlen; rewrite ?L; unfold zlen in *; lia); simpl;
    rewrite ?memrev16ifbe_host, ?memrev32ifbe_host, ?memrev64ifbe_host, (mstore_app a)
      by (rewrite ?L, ?length_le_encode; unfold zlen in *; lia); done.
Qed.

(** The position [pos] splits [l] around [v]: what is before is smaller; it
    holds [v] when [found], otherwise what is from there on is greater. *)
Definition search_result (l : list Z) (v : Z) (found : bool) (pos : Z) : Prop :=
  exists l1 l2, l = l1 ++ l2 /\ pos = zlen l1 /\ Forall (fun x => x < v) l1 /\
    if found then head l2 = Some v else Forall (fun x => v < x) l2.

Lemma get_at s l (i : nat) x pos :
  let e := intrev32ifbe be (is_encoding s) in
  valid_enc e -> is_contents s = enc_all (Z.to_nat e) l ->
  Forall (fun v => in_s (8 * e) v) l ->
  l !! i = Some x -> pos = Z.of_nat i -> _intsetGet s pos = Some x.
Proof.
  intros e He Hc F Hi ->. unfold _intsetGet. fold e.
  rewrite uint_small by (destruct He as [->|[->| ->]]; lia).
  pose proof (lookup_lt_Some _ _ _ Hi) as Hlt.
  eapply getEncoded_le; [done| | |].
  - rewrite Forall_lookup in F. eauto.
  - rewrite Hc. by apply enc_all_split.
  - rewrite zlen_enc_all, zlen_take by lia. destruct He as [->|[->| ->]]; lia.
Qed.

Section rep_facts.
Context {s : intset} {l : list Z} (R : intset_rep s l).

Lemma rep_len : intrev32ifbe be (is_length s) = zlen l.
Proof.
  rewrite (rep_length _ _ R). apply intrev32ifbe_involutive.
  pose proof (rep_len_range _ _ R). pose proof (zlen_nonneg l). lia.
Qed.

Lemma rep_get_at (i : nat) x pos :
  l !! i = Some x -> pos = Z.of_nat i -> _intsetGet s pos = Some x.
Proof.
  eapply get_at; [apply (rep_enc_valid _ _ R)|apply (rep_contents _ _ R)|apply (rep_fits _ _ R)].
Qed.

Lemma search_result_at v (i : nat) (found : bool) :
  (i <= length l)%nat ->
  (forall (j : nat) x, l !! j = Some x -> (j < i)%nat -> x < v) ->
  (if found then l !! i = Some v
   else forall (j : nat) x, l !! j = Some x -> (i <= j)%nat -> v < x) ->
  search_result l v found (Z.of_nat i).
Proof.
  intros Hi Hlo Hhi. exists (take i l), (drop i l). split_and!.
  - by rewrite take_drop.
  - by rewrite zlen_take.
  - apply Forall_lookup. intros j x [Hj ?]%lookup_take_Some. eauto.
  - destruct found; [by rewrite head_lookup, lookup_drop, Nat.add_0_r|].
    apply Forall_lookup. intros j x Hj. rewrite lookup_drop in Hj. eapply Hhi; [done|lia].
Qed.

Lemma sorted_lookup_lt (i j : nat) x y :
  l !! i = Some x -> l !! j = Some y -> (i < j)%nat -> x < y.
Proof.
  intros Hx Hy Hij. pose proof (rep_sorted _ _ R) as Hs.
  rewrite <-(take_drop (S i) l) in Hs.
  eapply (StronglySorted_app_1_elem_of _ _ _ _ _ Hs).
  - apply list_elem_of_lookup. exists i. by rewrite lookup_take_lt by lia.
  - apply list_elem_of_lookup. exists (j - S i)%nat. rewrite lookup_drop, <-Hy. f_equal. lia.
Qed.

Lemma search_loop_spec fuel v min max mid cur :
  0 <= min <= max + 1 -> max < zlen l -> (max - min + 1 < Z.of_nat fuel) ->
  (forall (j : nat) x, l !! j = Some x -> Z.of_nat j < min -> x < v) ->
  (forall (j : nat) x, l !! j = Some x -> max < Z.of_nat j -> v < x) ->
  (min <= max \/ cur <> v) ->
  exists min' mid' cur',
    intsetSearch_loop fuel s v min max mid cur = Some (min', mid', cur') /\
    search_result l v (v =? cur') (if v =? cur' then mid' else min').
Proof.
  revert min max mid cur.
  induction fuel as [|fuel IH]; intros min max mid cur Hmin Hmax Hfuel Hlo Hhi Hcur; [lia|].
  pose proof (rep_len_range _ _ R) as HL. simpl. case_ints.
  2:{ assert (min = max + 1) as -> by lia. exists (max + 1), mid, cur. split; [done|].
      case_ints; [lia|]. replace (max + 1) with (Z.of_nat (Z.to_nat (max + 1))) by lia.
      apply (search_result_at v _ false); [unfold zlen in *; lia| |].
      - intros j x Hj ?. eapply Hlo; [done|lia].
      - intros j x Hj ?. eapply Hhi; [done|lia]. }
  rewrite (uint_small 32 min), (uint_small 32 max), (uint_small 32 (min + max)) by lia.
  rewrite Z.shiftr_div_pow2 by lia. change (2 ^ 1) with 2.
  assert (min <= (min + max) / 2 <= max) as Hmid by lia_div.
  set (m := (min + max) / 2) in *. rewrite sint_small by lia.
  destruct (lookup_lt_is_Some_2 l (Z.to_nat m)) as [c Hc]; [unfold zlen in *; lia|].
  rewrite (rep_get_at _ _ m Hc) by lia. simpl. case_ints; try lia.
  - apply IH; try lia; [|done].
    intros j x Hj ?. destruct (decide (j = Z.to_nat m)) as [->|]; [congruence|].
    assert (x < c) by (eapply (sorted_lookup_lt j (Z.to_nat m)); [done..|lia]). lia.
  - apply IH; try lia; [done|].
    intros j x Hj ?. destruct (decide (j = Z.to_nat m)) as [->|]; [congruence|].
    assert (c < x) by (eapply (sorted_lookup_lt (Z.to_nat m) j); [done..|lia]). lia.
  - assert (v = c) as -> by lia. exists min, m, c. split; [done|].
    rewrite Z.eqb_refl. replace m with (Z.of_nat (Z.to_nat m)) by lia.
    apply (search_result_at c _ true); [unfold zlen in *; lia| |done].
    intros j x Hj ?. by eapply (sorted_lookup_lt j (Z.to_nat m)).
Qed.

Lemma intsetSearch_spec v :
  exists found pos, intsetSearch s v = Some (found, pos) /\ search_result l v found pos.
Proof.
  unfold intsetSearch. rewrite rep_len. pose proof (rep_len_range _ _ R) as HL.
  case_ints.
  { assert (l = []) as El by (destruct l; [done|zlen; simpl in *; lia]).
    exists false, 0. split; [done|]. exists [], []. rewrite El. split_and!; done. }
  pose proof (zlen_nonneg l). rewrite sint_small by lia.
  destruct (lookup_lt_is_Some_2 l (Z.to_nat (zlen l - 1))) as [lst Hl]; [unfold zlen in *; lia|].
  destruct (lookup_lt_is_Some_2 l 0%nat) as [fst Hf]; [unfold zlen in *; lia|].
  rewrite (rep_get_at _ _ (zlen l - 1) Hl) by lia. simpl. case_ints.
  { exists false, (zlen l). split; [done|]. apply (search_result_at v (length l) false); [lia| |].
    - intros j x Hj ?. destruct (decide (j = Z.to_nat (zlen l - 1))) as [->|]; [congruence|].
      assert (x < lst) by (eapply (sorted_lookup_lt j); [done..|unfold zlen in *; lia]). lia.
    - intros j x Hj%lookup_lt_Some ?. lia. }
  rewrite (rep_get_at _ _ 0 Hf) by lia. simpl. case_ints.
  { exists false, 0. split; [done|]. apply (search_result_at v 0 false); [lia|lia|].
    intros j x Hj ?. destruct (decide (j = 0%nat)) as [->|]; [congruence|].
    assert (fst < x) by (eapply (sorted_lookup_lt 0 j); [done..|lia]). lia. }
  destruct (search_loop_spec (Z.to_nat (zlen l - 1) + 2) v 0 (zlen l - 1) (-1) (-1))
    as (min' & mid' & cur' & E & Hr); try lia.
  { intros j x Hj%lookup_lt_Some ?. unfold zlen in *. lia. }
  rewrite Z.sub_0_r, E. simpl.
  assert (forall found pos, search_result l v found pos -> u32 pos = pos) as Hpos.
  { intros found pos (l1 & l2 & Hl' & -> & _). apply uint_small.
    apply (f_equal zlen) in Hl'. zlen. lia. }
  destruct (v =? cur'); eexists _, _; (split; [done|]); by erewrite Hpos.
Qed.

End rep_facts.

(** ** Upgrading the encoding in place *)

Lemma upgrade_loop_spec (l : list Z) c p n s mid rest :
  let w := intrev32ifbe be (is_encoding s) in
  valid_enc c -> valid_enc w -> c <= w -> 0 <= p ->
  Forall (fun v => in_s (8 * c) v) l -> (n <= length l)%nat ->
  is_contents s = enc_all (Z.to_nat c) (take n l) ++ mid ++ rest ->
  zlen (enc_all (Z.to_nat c) (take n l) ++ mid) = (Z.of_nat n + p) * w ->
  exists mid', zlen mid' = p * w /\
    intsetUpgrade_loop n s p c =
      Some (set_contents s (mid' ++ enc_all (Z.to_nat w) (take n l) ++ rest)).
Proof.
  intros w Hc Hw Hcw Hp Hl. subst w. revert s mid rest Hw Hcw.
  induction n as [|n IH]; intros s mid rest Hw Hcw Hn Hm Hz.
  { exists mid. rewrite take_0 in *. split; [zlen; simpl in *; lia|].
    simpl in *. rewrite <-Hm. by destruct s. }
  destruct (lookup_lt_is_Some_2 l n) as [x Hx]; [lia|].
  rewrite (take_S_r _ _ _ Hx) in *. rewrite enc_all_app in *.
  set (w := intrev32ifbe be (is_encoding s)) in *.
  assert (in_s (8 * c) x) as Hxr by (rewrite Forall_lookup in Hl; eauto).
  change (enc_all ?k [x]) with (le_encode k x ++ []) in *. rewrite app_nil_r in *.
  set (a := enc_all (Z.to_nat c) (take n l)) in *.
  assert (zlen a = c * Z.of_nat n) as Ha.
  { subst a. rewrite zlen_enc_all, zlen_take by lia. destruct Hc as [->|[->| ->]]; lia. }
  cbn [intsetUpgrade_loop].
  rewrite (getEncoded_le s a (mid ++ rest) _ c x) by (rewrite ?Hm, <-?app_assoc; lia || done).
  simpl.
  set (k := Z.to_nat ((Z.of_nat n + p) * w)).
  set (b := le_encode (Z.to_nat c) x ++ mid) in *.
  assert (zlen (a ++ b) = (Z.of_nat (S n) + p) * w) as Hab
    by (subst b; by rewrite app_assoc).
  assert (0 < w) by (destruct Hw as [->|[->| ->]]; lia).
  assert (0 <= (Z.of_nat n + p) * w) as Hk by nia.
  rewrite (intsetSet_le s (take k (a ++ b)) (drop k (a ++ b)) rest);
    [|done|by rewrite Hm, (app_assoc (take _ _)), take_drop; subst b; rewrite <-!app_assoc| |].
  2:{ unfold zlen in *. rewrite length_drop. subst k. lia. }
  2:{ unfold zlen in *. rewrite length_take. subst k. fold w. lia. }
  simpl. fold w.
  rewrite take_app_ge by (subst k; unfold zlen in *; nia).
  match goal with |- context [intsetUpgrade_loop n ?s' p c] =>
    destruct (IH s' (take (k - length a) b) (le_encode (Z.to_nat w) x ++ rest))
      as (mid' & Hmid & E); [done|done|lia|simpl; by rewrite <-app_assoc| |]
  end.
  { simpl. fold w. unfold zlen in *. rewrite length_app, length_take in *. subst k. nia. }
  exists mid'. split; [done|]. rewrite E. unfold set_contents. simpl. fold w.
  by rewrite <-app_assoc.
Qed.

Lemma valueEncoding_valid v : valid_enc (_intsetValueEncoding v).
Proof.
  unfold _intsetValueEncoding, valid_enc, INTSET_ENC_INT16, INTSET_ENC_INT32, INTSET_ENC_INT64.
  destruct (_ || _); [auto|]. destruct (_ || _); auto.
Qed.

(** An encoding holds [v] exactly when it is at least the one chosen for [v]. *)
Lemma valueEncoding_fits e v :
  in_s 64 v -> valid_enc e -> in_s (8 * e) v <-> _intsetValueEncoding v <= e.
Proof.
  intros Hv He. unfold _intsetValueEncoding, INTSET_ENC_INT16, INTSET_ENC_INT32, INTSET_ENC_INT64.
  case_ints; simpl; destruct He as [->|[->| ->]]; simpl; lia.
Qed.

(** Assembling the representation of a new block. *)
Lemma rep_intro e m l :
  valid_enc e -> zlen l * e < 2 ^ 32 -> m = enc_all (Z.to_nat e) l ->
  Forall (fun v => in_s (8 * e) v) l -> StronglySorted Z.lt l ->
  intset_rep (mk_intset (intrev32ifbe be e) (intrev32ifbe be (zlen l)) m) l.
Proof.
  intros He Hl -> Hf Hs.
  assert (in_u 32 e) as Hr by (destruct He as [->|[->| ->]]; lia).
  assert (intrev32ifbe be (intrev32ifbe be e) = e) as E by (by apply intrev32ifbe_involutive).
  split; simpl; rewrite ?E; try done. by apply intrev32ifbe_range.
Qed.

Lemma rep_eta s l : intset_rep s l ->
  s = mk_intset (intrev32ifbe be (intrev32ifbe be (is_encoding s)))
        (intrev32ifbe be (zlen l)) (is_contents s).
Proof.
  intros [_ Hr Hl _ _ _ _]. rewrite intrev32ifbe_involutive, <-Hl by done. by destruct s.
Qed.

Lemma fits_weaken e e' v : in_s (8 * e) v -> valid_enc e -> e <= e' -> in_s (8 * e') v.
Proof.
  intros Hv He Hle. assert (2 ^ (8 * e - 1) <= 2 ^ (8 * e' - 1)).
  { apply Z.pow_le_mono_r; [lia|]. destruct He as [->|[->| ->]]; lia. }
  lia.
Qed.

Lemma upgrade_sorted e v l :
  in_s 64 v -> valid_enc e -> _intsetValueEncoding v > e ->
  Forall (fun v => in_s (8 * e) v) l -> StronglySorted Z.lt l ->
  StronglySorted Z.lt (if v <? 0 then v :: l else l ++ [v]).
Proof.
  intros Hv He Hgt Hf Hs.
  assert (~ in_s (8 * e) v) as Hn by (rewrite valueEncoding_fits by done; lia).
  assert (0 < 2 ^ (8 * e - 1)) by (destruct He as [->|[->| ->]]; lia).
  case_ints.
  - constructor; [done|]. rewrite Forall_forall in *. intros x Hx%Hf. lia.
  - apply StronglySorted_app_2; [|done|repeat constructor].
    intros x y Hx ->%list_elem_of_singleton. rewrite Forall_forall in Hf.
    apply Hf in Hx. lia.
Qed.

Lemma intsetUpgradeAndAdd_spec s l v :
  intset_rep s l -> has_room l -> in_s 64 v ->
  _intsetValueEncoding v > intrev32ifbe be (is_encoding s) ->
  let l' := if v <? 0 then v :: l else l ++ [v] in
  exists s', intsetUpgradeAndAdd s v = Some s' /\ intset_rep s' l' /\
    intrev32ifbe be (is_encoding s') = _intsetValueEncoding v.
Proof.
  intros R Hroom Hv Hgt l'. unfold has_room in Hroom.
  pose proof (upgrade_sorted _ v l Hv (rep_enc_valid _ _ R) Hgt (rep_fits _ _ R) (rep_sorted _ _ R))
    as Hsorted.
  pose proof (rep_enc_valid _ _ R) as He. pose proof (valueEncoding_valid v) as Hw.
  set (e := intrev32ifbe be (is_encoding s)) in *. set (w := _intsetValueEncoding v) in *.
  pose proof (zlen_nonneg l). assert (0 < e <= 8 /\ 0 < w <= 8) as Hew
    by (destruct He as [->|[->| ->]], Hw as [->|[->| ->]]; lia).
  assert (intrev32ifbe be (intrev32ifbe be w) = w) as Ew
    by (apply intrev32ifbe_involutive; lia).
  unfold intsetUpgradeAndAdd. fold e w. rewrite (uint_small 8 e) by lia.
  unfold intsetResize. simpl. rewrite Ew, (rep_len R), (uint_small 32 (zlen l + 1)),
    (uint_small 32 ((zlen l + 1) * w)), sint_small by nia.
  rewrite (proj2 (Z.ltb_ge _ _)) by lia.
  rewrite (rep_contents _ _ R). fold e.
  assert (zlen (enc_all (Z.to_nat e) l) = e * zlen l) as Hz by (rewrite zlen_enc_all; lia).
  destruct (zrealloc_grow fresh (enc_all (Z.to_nat e) l) ((zlen l + 1) * w)) as (t & -> & Ht); [nia|].
  set (p := if v <? 0 then 1 else 0). set (r := Z.to_nat ((1 - p) * w)).
  assert (0 <= p <= 1) as Hp by (subst p; case_ints; lia).
  set (x := enc_all (Z.to_nat e) l ++ t).
  set (k := Z.to_nat ((zlen l + p) * w)).
  assert (Z.to_nat (zlen l) = length l) as Ell by (unfold zlen; lia).
  assert (zlen x = (zlen l + 1) * w) as Hx by (subst x; rewrite zlen_app; lia).
  destruct (upgrade_loop_spec l e p (length l) (set_contents (set_encoding s (intrev32ifbe be w)) x)
    (take (k - length (enc_all (Z.to_nat e) l)) t) (drop (k - length (enc_all (Z.to_nat e) l)) t))
    as (mid & Hmid & E); simpl; rewrite ?Ew; try done; try lia.
  { apply (rep_fits _ _ R). }
  { by rewrite firstn_all, take_drop. }
  { rewrite firstn_all. unfold zlen in *. rewrite length_app, length_take in *. subst k. nia. }
  simpl in Hmid, E. rewrite Ew in Hmid. rewrite firstn_all, Ew in E. rewrite Ell. unfold set_contents, set_encoding in *. simpl in *.
  fold x. rewrite E. simpl. set (d := drop _ t) in *.
  assert (zlen d = (1 - p) * w) as Hd.
  { subst d k x. unfold zlen in *. rewrite length_drop, length_app in *. nia. }
  assert (zlen l' = zlen l + 1) as Hl' by (subst l'; case_ints; zlen; lia).
  exists (mk_intset (intrev32ifbe be w) (intrev32ifbe be (zlen l')) (enc_all (Z.to_nat w) l')).
  split; [|split; [apply rep_intro; try done; [nia|]|done]].
  - rewrite Hl'. subst l' p. destruct (Z.ltb_spec v 0); simpl.
    + rewrite (intsetSet_le _ [] mid (enc_all (Z.to_nat w) l ++ d)); simpl; rewrite ?Ew; try done; [|lia].
      simpl. rewrite (rep_len R), uint_small by lia. unfold set_length, set_contents. simpl.
      assert (d = []) as -> by (destruct d; [done|zlen; simpl in *; lia]).
      by rewrite app_nil_r.
    + assert (mid = []) as -> by (destruct mid; [done|zlen; simpl in *; lia]).
      rewrite (rep_len R), sint_small by lia.
      rewrite (intsetSet_le _ (enc_all (Z.to_nat w) l) d []); simpl; rewrite ?Ew; try done.
      * simpl. rewrite (rep_len R), uint_small by lia. unfold set_length, set_contents. simpl.
        by rewrite enc_all_app.
      * by rewrite app_nil_r.
      * lia.
      * rewrite zlen_enc_all. lia.
  - assert (in_s (8 * w) v) by (apply valueEncoding_fits; [done..|lia]).
    assert (Forall (fun v => in_s (8 * w) v) l) as Hf.
    { eapply Forall_impl; [apply (rep_fits _ _ R)|]. simpl. intros y Hy.
      eapply fits_weaken; [done|done|lia]. }
    subst l'. case_ints; [by constructor|]. apply Forall_app_2; [done|by apply Forall_singleton].
Qed.

(** ** Insertion *)

Lemma sorted_insert l1 l2 v :
  StronglySorted Z.lt (l1 ++ l2) -> Forall (fun x => x < v) l1 -> Forall (fun x => v < x) l2 ->
  StronglySorted Z.lt (l1 ++ v :: l2).
Proof.
  rewrite !StronglySorted_app, StronglySorted_cons, !Forall_forall.
  intros (H & H1 & H2) F1 F2. split_and!; try done.
  intros x y Hx. rewrite elem_of_cons. intros [->|Hy]; eauto.
Qed.

(** The part of intsetAdd after an unsuccessful search. *)
Lemma insert_at_spec s l1 l2 v :
  intset_rep s (l1 ++ l2) -> has_room (l1 ++ l2) -> in_s 64 v ->
  _intsetValueEncoding v <= intrev32ifbe be (is_encoding s) ->
  Forall (fun x => x < v) l1 -> Forall (fun x => v < x) l2 ->
  exists s',
    (let s := intsetResize s (u32 (intrev32ifbe be (is_length s) + 1)) in
     s ← (if zlen l1 <? intrev32ifbe be (is_length s)
          then intsetMoveTail s (zlen l1) (u32 (zlen l1 + 1)) else Some s);
     s ← _intsetSet s (s32 (zlen l1)) v;
     Some (set_length s (intrev32ifbe be (u32 (intrev32ifbe be (is_length s) + 1))), true))
    = Some (s', true) /\ intset_rep s' (l1 ++ v :: l2) /\
    is_encoding s' = is_encoding s.
Proof.
  intros R Hroom Hv Hle F1 F2. unfold has_room in Hroom.
  pose proof (rep_enc_valid _ _ R) as He. pose proof (rep_len R) as HL.
  pose proof (zlen_nonneg l1). pose proof (zlen_nonneg l2).
  assert (zlen (l1 ++ l2) = zlen l1 + zlen l2) as Ha by apply zlen_app.
  set (e := intrev32ifbe be (is_encoding s)) in *. cbv zeta. unfold intsetResize.
  assert (e = 2 \/ e = 4 \/ e = 8) as He' by done.
  fold e. simpl. rewrite HL, (uint_small 32 (zlen (l1 ++ l2) + 1)) by lia.
  assert (0 < e <= 8) as Hle8 by lia.
  rewrite (uint_small 32 (_ * e)) by nia. rewrite (rep_contents _ _ R). fold e.
  rewrite enc_all_app. set (a := enc_all (Z.to_nat e) l1). set (b := enc_all (Z.to_nat e) l2).
  assert (zlen a = e * zlen l1 /\ zlen b = e * zlen l2) as [Za Zb]
    by (subst a b; rewrite !zlen_enc_all; lia).
  destruct (zrealloc_grow fresh (a ++ b) ((zlen (l1 ++ l2) + 1) * e)) as (t & -> & Ht);
    [rewrite (zlen_app a); nia|]. rewrite (zlen_app a), Ha, Za, Zb in Ht. assert (zlen t = e) as Et by nia.
  set (hole := take (length t) (b ++ t)).
  assert (zlen hole = e) as Zh.
  { subst hole. unfold zlen in *. rewrite length_take, length_app. lia. }
  assert ((if zlen l1 <? zlen (l1 ++ l2)
           then intsetMoveTail (set_contents s ((a ++ b) ++ t)) (zlen l1) (u32 (zlen l1 + 1))
           else Some (set_contents s ((a ++ b) ++ t)))
          = Some (set_contents s (a ++ hole ++ b))) as ->.
  { case_ints.
    - unfold intsetMoveTail, INTSET_ENC_INT64, INTSET_ENC_INT32. simpl. fold e. rewrite HL.
      assert ((if e =? 8 then 8 else if e =? 4 then 4 else 2) = e) as -> by (case_ints; lia).
      rewrite <-app_assoc, !uint_small by (rewrite ?uint_small; nia).
      rewrite memmove_up by nia. done.
    - assert (l2 = []) as -> by (destruct l2; [done|zlen; simpl in *; lia]).
      subst hole. simpl. by rewrite take_ge, !app_nil_r by done. }
  simpl. rewrite sint_small by lia.
  rewrite (intsetSet_le _ a hole b); simpl; fold e; try done; [|lia].
  rewrite HL, uint_small by lia. eexists. split; [done|]. split; [|done].
  unfold set_length, set_contents. simpl. rewrite (rep_eta _ _ R). simpl. fold e.
  replace (zlen (l1 ++ l2) + 1) with (zlen (l1 ++ v :: l2)) by (zlen; lia).
  apply rep_intro; [done|rewrite zlen_app, zlen_cons; nia|by rewrite enc_all_app, enc_all_cons| |].
  - apply Forall_app. pose proof (rep_fits _ _ R) as [? ?]%Forall_app. split; [done|].
    constructor; [|done]. by apply valueEncoding_fits.
  - apply sorted_insert; [apply (rep_sorted _ _ R)|done..].
Qed.

Lemma search_result_mem l v found pos :
  StronglySorted Z.lt l -> search_result l v found pos -> found = bool_decide (v ∈ l).
Proof.
  intros Hs (l1 & l2 & -> & -> & F1 & H). rewrite Forall_forall in F1.
  destruct found; symmetry; [apply bool_decide_eq_true_2|apply bool_decide_eq_false_2].
  - destruct l2; simplify_eq/=. set_solver.
  - rewrite Forall_forall in H. rewrite elem_of_app. intros [Hx|Hx]; [apply F1 in Hx|apply H in Hx]; lia.
Qed.

(** A value the block cannot encode is not in it. *)
Lemma rep_not_mem s l v :
  intset_rep s l -> in_s 64 v -> _intsetValueEncoding v > intrev32ifbe be (is_encoding s) -> v ∉ l.
Proof.
  intros R Hv Hgt Hin. pose proof (rep_fits _ _ R) as F. rewrite Forall_forall in F.
  apply F, valueEncoding_fits in Hin; [lia|done|apply (rep_enc_valid _ _ R)].
Qed.

Lemma intsetAdd_rep s l v :
  intset_rep s l -> has_room l -> in_s 64 v ->
  exists s' l', intsetAdd s v = Some (s', bool_decide (v ∉ l)) /\ intset_rep s' l' /\
    (list_to_set l' : gset Z) = {[ v ]} ∪ list_to_set l /\
    intrev32ifbe be (is_encoding s') =
      Z.max (intrev32ifbe be (is_encoding s)) (if bool_decide (v ∈ l) then 0 else _intsetValueEncoding v).
Proof.
  intros R Hroom Hv. unfold intsetAdd. pose proof (rep_enc_valid _ _ R) as He.
  assert (0 < intrev32ifbe be (is_encoding s)) by (destruct He as [->|[->| ->]]; lia).
  case_ints.
  { destruct (intsetUpgradeAndAdd_spec s l v) as (s' & -> & R' & E'); [done|done|done|lia|].
    assert (v ∉ l) as Hn by (eapply rep_not_mem; [done|done|lia]).
    eexists s', _. rewrite bool_decide_eq_true_2, bool_decide_eq_false_2 by done.
    split; [done|]. split; [done|]. rewrite E'. split; [|lia].
    case_ints; rewrite ?list_to_set_app_L; set_solver. }
  destruct (intsetSearch_spec R v) as (found & pos & -> & Hr). simpl.
  pose proof (search_result_mem _ _ _ _ (rep_sorted _ _ R) Hr) as Hf.
  destruct Hr as (l1 & l2 & -> & -> & F1 & H2). destruct found.
  - symmetry in Hf. apply bool_decide_eq_true in Hf as Hin. exists s, (l1 ++ l2).
    rewrite bool_decide_eq_false_2, Hf by auto. split; [done|]. split; [done|].
    split; [|lia]. set_solver.
  - symmetry in Hf. apply bool_decide_eq_false in Hf as Hin.
    destruct (insert_at_spec s l1 l2 v) as (s' & E & R' & E'); [done..|].
    cbv zeta in E. exists s', (l1 ++ v :: l2). rewrite bool_decide_eq_true_2, Hf by done.
    split; [done|]. split; [done|]. rewrite E'. split; [|lia].
    rewrite !list_to_set_app_L. set_solver.
Qed.

(** The number of bytes is computed in 32 bits: at 2^32 it wraps around to 0
    and the element that needed the room is stored outside the block. *)
Lemma intsetAdd_full s l v :
  intset_rep s l -> intrev32ifbe be (is_encoding s) = INTSET_ENC_INT64 ->
  (zlen l + 1) * 8 = 2 ^ 32 -> v ∉ l -> intsetAdd s v = None.
Proof.
  intros R He Hfull Hn. unfold intsetAdd. rewrite He.
  assert (_intsetValueEncoding v <= 8) by (unfold _intsetValueEncoding; repeat case_match; done).
  unfold INTSET_ENC_INT64 in *. rewrite Z.gtb_ltb, (proj2 (Z.ltb_ge _ _)) by done.
  destruct (intsetSearch_spec R v) as (found & pos & -> & Hr). simpl.
  rewrite (search_result_mem _ _ _ _ (rep_sorted _ _ R) Hr), bool_decide_eq_false_2 by done.
  destruct Hr as (l1 & l2 & -> & -> & _ & _). rewrite zlen_app in Hfull.
  pose proof (zlen_nonneg l1). pose proof (zlen_nonneg l2).
  assert (intsetResize s (u32 (intrev32ifbe be (is_length s) + 1)) = set_contents s []) as ->.
  { unfold intsetResize. rewrite (rep_len R), He, zlen_app, (uint_small 32 (_ + 1)) by lia. by rewrite Hfull. }
  change (is_length (set_contents s [])) with (is_length s). rewrite (rep_len R), zlen_app. case_ints.
  - unfold intsetMoveTail. simpl. rewrite (rep_len R), He, zlen_app. simpl.
    replace (zlen l1 + zlen l2 - zlen l1) with (zlen l2) by lia.
    rewrite (uint_small 32 (zlen l2)), (uint_small 32 (zlen l2 * 8)) by lia. unfold memmove.
    by rewrite mload_out by (change (zlen (@nil Z)) with 0; lia).
  - cbn [mbind option_bind]. unfold _intsetSet. change (is_encoding (set_contents s [])) with (is_encoding s).
    rewrite He, sint_small by lia. cbn [Z.eqb Pos.eqb INTSET_ENC_INT64 is_contents set_contents].
    rewrite mstore_out; [done|]. change (zlen (@nil Z)) with 0.
    pose proof (zlen_nonneg (host_encode be 8 v)). pose proof (length_host_encode be 8 v).
    unfold zlen in *. lia.
Qed.

(** ** Deletion and queries *)

(** The part of intsetRemove after a successful search. *)
Lemma remove_at_spec s l1 v l2 :
  intset_rep s (l1 ++ v :: l2) ->
  let len := intrev32ifbe be (is_length s) in
  exists s1,
    (if zlen l1 <? u32 (len - 1) then intsetMoveTail s (u32 (zlen l1 + 1)) (zlen l1) else Some s)
      = Some s1 /\
    let s' := set_length (intsetResize s1 (u32 (len - 1))) (intrev32ifbe be (u32 (len - 1))) in
    intset_rep s' (l1 ++ l2) /\ is_encoding s' = is_encoding s.
Proof.
  intros R len. subst len. rewrite (rep_len R).
  pose proof (rep_enc_valid _ _ R) as He. pose proof (rep_size _ _ R) as Hsz.
  set (e := intrev32ifbe be (is_encoding s)) in *.
  assert (0 < e <= 8 /\ (if e =? 8 then 8 else if e =? 4 then 4 else 2) = e) as [He8 Esz]
    by (destruct He as [->|[->| ->]]; done).
  assert (zlen (l1 ++ v :: l2) = zlen l1 + zlen l2 + 1) as Ha by (zlen; lia).
  pose proof (zlen_nonneg l1). pose proof (zlen_nonneg l2). pose proof (rep_len_range _ _ R).
  rewrite uint_small by lia. rewrite Ha in *.
  set (a := enc_all (Z.to_nat e) l1). set (b := enc_all (Z.to_nat e) l2).
  set (x := le_encode (Z.to_nat e) v).
  assert (zlen a = e * zlen l1 /\ zlen b = e * zlen l2 /\ zlen x = e) as (Za & Zb & Zx)
    by (subst a b x; rewrite !zlen_enc_all, zlen_le_encode; lia).
  assert (is_contents s = a ++ x ++ b) as Hc
    by (rewrite (rep_contents _ _ R), enc_all_app, enc_all_cons; done).
  assert (exists t, (if zlen l1 <? zlen l1 + zlen l2 + 1 - 1
            then intsetMoveTail s (u32 (zlen l1 + 1)) (zlen l1) else Some s)
            = Some (set_contents s ((a ++ b) ++ t))) as [t Ht].
  { case_ints.
    - unfold intsetMoveTail, INTSET_ENC_INT64, INTSET_ENC_INT32. fold e.
      rewrite Esz, (rep_len R), Ha, Hc, (uint_small 32 (zlen l1 + 1)), !uint_small
        by (rewrite ?uint_small; nia).
      rewrite memmove_down by nia. eexists. simpl. by rewrite (app_assoc a).
    - assert (l2 = []) as -> by (destruct l2; [done|zlen; simpl in *; lia]).
      exists x. rewrite <-app_assoc. replace (a ++ b ++ x) with (is_contents s);
        [by destruct s|]. rewrite Hc. subst b. simpl. by rewrite app_nil_r. }
  exists (set_contents s ((a ++ b) ++ t)). split; [done|]. simpl. split; [|done].
  unfold intsetResize, set_length, set_contents. simpl. fold e.
  rewrite uint_small, zrealloc_shrink by (rewrite ?zlen_app; nia).
  replace (zlen l1 + zlen l2 + 1 - 1) with (zlen (l1 ++ l2)) by (zlen; lia).
  rewrite (rep_eta _ _ R). simpl. fold e.
  apply rep_intro; [done|rewrite zlen_app; nia|by rewrite enc_all_app| |].
  - pose proof (rep_fits _ _ R) as F. rewrite Forall_app, Forall_cons in F.
    rewrite Forall_app. naive_solver.
  - pose proof (rep_sorted _ _ R) as S. rewrite StronglySorted_app, StronglySorted_cons in S.
    rewrite StronglySorted_app. destruct S as (S1 & S2 & S3 & S4). split_and!; [|done..].
    intros y z Hy Hz. apply S1; [done|]. by apply list_elem_of_further.
Qed.

Lemma sorted_NoDup l : StronglySorted Z.lt l -> NoDup l.
Proof.
  induction 1 as [|x l Hs IH Hx]; constructor; [|done].
  rewrite Forall_forall in Hx. intros Hin%Hx. lia.
Qed.

Lemma intsetRemove_rep s l v :
  intset_rep s l -> in_s 64 v ->
  exists s' l', intsetRemove s v = Some (s', bool_decide (v ∈ l)) /\ intset_rep s' l' /\
    (list_to_set l' : gset Z) = list_to_set l ∖ {[ v ]} /\ is_encoding s' = is_encoding s.
Proof.
  intros R Hv. unfold intsetRemove. case_ints.
  2:{ assert (v ∉ l) by (eapply rep_not_mem; [done|done|lia]).
      exists s, l. rewrite bool_decide_eq_false_2 by done. split_and!; set_solver. }
  destruct (intsetSearch_spec R v) as (found & pos & -> & Hr). simpl.
  pose proof (search_result_mem _ _ _ _ (rep_sorted _ _ R) Hr) as Hf. symmetry in Hf.
  destruct Hr as (l1 & l2 & El & -> & F1 & H2). destruct found.
  - destruct l2 as [|v' l2]; simplify_eq/=.
    destruct (remove_at_spec s l1 v l2 R) as (s1 & -> & R' & E').
    eexists _, (l1 ++ l2). rewrite Hf. split; [done|]. split; [done|]. split; [|done].
    pose proof (sorted_NoDup _ (rep_sorted _ _ R)) as Hnd.
    apply NoDup_app in Hnd as (_ & D1 & D2%NoDup_cons). destruct D2 as [D2 _].
    rewrite !list_to_set_app_L. set_solver.
  - exists s, l. rewrite Hf. apply bool_decide_eq_false in Hf. split_and!; set_solver.
Qed.

Lemma intsetFind_rep s l v :
  intset_rep s l -> in_s 64 v -> intsetFind s v = Some (bool_decide (v ∈ l)).
Proof.
  intros R Hv. unfold intsetFind. case_ints.
  - destruct (intsetSearch_spec R v) as (found & pos & -> & Hr). simpl. f_equal.
    eapply search_result_mem; [apply (rep_sorted _ _ R)|done].
  - rewrite bool_decide_eq_false_2; [done|]. eapply rep_not_mem; [done|done|lia].
Qed.

Lemma intsetGet_rep s l pos :
  intset_rep s l -> in_u 32 pos -> intsetGet s pos = Some (l !! Z.to_nat pos).
Proof.
  intros R Hp. unfold intsetGet. rewrite (rep_len R). pose proof (rep_len_range _ _ R).
  case_ints.
  - destruct (lookup_lt_is_Some_2 l (Z.to_nat pos)) as [x Hx]; [unfold zlen in *; lia|].
    rewrite sint_small by lia. rewrite (rep_get_at R _ _ pos Hx) by lia. by rewrite Hx.
  - by rewrite lookup_ge_None_2 by (unfold zlen in *; lia).
Qed.

(** ** Serialized intsets *)

Lemma le_encode_sint n v : (0 < n)%nat -> le_encode n (sint (8 * Z.of_nat n) v) = le_encode n v.
Proof. intros. rewrite <-le_encode_uint, uint_sint, le_encode_uint by lia. done. Qed.

(** Any block of the right size holds some list of elements. *)
Lemma enc_all_onto e n c :
  valid_enc e -> Forall is_byte c -> length c = (Z.to_nat e * n)%nat ->
  exists l, length l = n /\ c = enc_all (Z.to_nat e) l /\ Forall (fun v => in_s (8 * e) v) l.
Proof.
  intros He. revert c. induction n as [|n IH]; intros c Hb Hl.
  { exists []. split; [done|]. split; [|by constructor]. apply length_zero_iff_nil. lia. }
  assert (Z.of_nat (Z.to_nat e) = e /\ 0 < e) as [Ez Hpos] by (destruct He as [->|[->| ->]]; lia).
  rewrite <-(take_drop (Z.to_nat e) c) in Hb. apply Forall_app in Hb as [Hb1 Hb2].
  destruct (IH (drop (Z.to_nat e) c)) as (l & Hll & Hc & HF); [done|rewrite length_drop; lia|].
  set (x := take (Z.to_nat e) c) in *.
  assert (length x = Z.to_nat e) as Hx by (subst x; rewrite length_take; lia).
  exists (sint (8 * e) (le_decode x) :: l). split; [simpl; lia|]. split.
  - rewrite enc_all_cons, <-Hc. rewrite <-Ez at 2. rewrite le_encode_sint by lia.
    pose proof (le_encode_decode x Hb1) as E. rewrite Hx in E. rewrite E. subst x.
    by rewrite take_drop.
  - constructor; [|done]. apply sint_range. lia.
Qed.

Lemma validate_loop_spec s l n i prev :
  let e := intrev32ifbe be (is_encoding s) in
  valid_enc e -> is_contents s = enc_all (Z.to_nat e) l ->
  Forall (fun v => in_s (8 * e) v) l -> zlen l <= 2 ^ 31 ->
  (i + n = length l)%nat ->
  exists b, intsetValidate_loop n s (Z.of_nat i) prev = Some b /\
    (b = true <-> Sorted Z.lt (prev :: drop i l)).
Proof.
  intros e He Hc HF Hlen. revert i prev. induction n as [|n IH]; intros i prev Hi; simpl.
  { exists true. split; [done|]. rewrite drop_ge by lia. split; [repeat constructor|done]. }
  destruct (lookup_lt_is_Some_2 l i) as [x Hx]; [lia|].
  rewrite sint_small by (unfold zlen in *; lia).
  rewrite (get_at s l i x) by done. simpl. rewrite (drop_S _ _ _ Hx). case_ints.
  - exists false. split; [done|]. split; [done|].
    intros [_ Hd]%Sorted_inv. apply HdRel_inv in Hd. lia.
  - destruct (IH (S i) x) as (b & E & Hb); [lia|]. exists b.
    split; [rewrite <-E; f_equal; lia|]. rewrite Hb. split.
    + intros H1. constructor; [done|]. by constructor.
    + by intros [? _]%Sorted_inv.
Qed.

Lemma host_decode_range p : Forall is_byte p -> length p = 4%nat -> in_u 32 (host_decode be p).
Proof.
  intros Hp Hl. unfold host_decode. set (x := if be then reverse p else p).
  assert (Forall is_byte x /\ length x = 4%nat) as [Hx HL].
  { subst x. destruct be; [|done]. split; [by apply Forall_reverse|by rewrite length_reverse]. }
  pose proof (le_decode_range x Hx) as H. unfold zlen in H. by rewrite HL in H.
Qed.

Lemma enc_all_inj e l l' :
  valid_enc e -> Forall (fun v => in_s (8 * e) v) l -> Forall (fun v => in_s (8 * e) v) l' ->
  enc_all (Z.to_nat e) l = enc_all (Z.to_nat e) l' -> l = l'.
Proof.
  intros He F. revert l'.
  assert (0 < e /\ Z.of_nat (Z.to_nat e) = e) as [H0 Ez] by (destruct He as [->|[->| ->]]; lia).
  induction F as [|x l Hx F IH]; intros [|y l'] F' E; [done| | |].
  - apply (f_equal length) in E. rewrite !length_enc_all in E. simpl in E. lia.
  - apply (f_equal length) in E. rewrite !length_enc_all in E. simpl in E. lia.
  - rewrite !enc_all_cons in E. apply app_inj_1 in E as [E1 E2]; [|by rewrite !length_le_encode].
    apply Forall_cons in F' as [Hy F']. f_equal; [|by apply IH].
    apply (f_equal (fun b => sint (8 * e) (le_decode b))) in E1.
    rewrite <-Ez in E1 at 1 3. rewrite !le_signed_roundtrip in E1 by (rewrite ?Ez; done || lia).
    done.
Qed.

(** What the header checks of intsetValidateIntegrity establish. *)
Definition blob_header_ok (p : bytes) : Prop :=
  let s := intset_of_blob p in
  valid_enc (intrev32ifbe be (is_encoding s)) /\
  8 + intrev32ifbe be (is_length s) * intrev32ifbe be (is_encoding s) = zlen p.

Lemma blob_fields p :
  Forall is_byte p -> 8 <= zlen p ->
  in_u 32 (is_encoding (intset_of_blob p)) /\ in_u 32 (is_length (intset_of_blob p)) /\
  zlen (is_contents (intset_of_blob p)) = zlen p - 8.
Proof.
  intros Hp H8. unfold zlen in *.
  split; [apply host_decode_range|split; [apply host_decode_range|]].
  - by apply Forall_take.
  - rewrite length_take. lia.
  - by apply Forall_take, Forall_drop.
  - rewrite length_take, length_drop. lia.
  - simpl. rewrite length_drop. lia.
Qed.

Lemma blob_decodes p :
  Forall is_byte p -> 8 <= zlen p -> blob_header_ok p ->
  exists l, intrev32ifbe be (is_length (intset_of_blob p)) = zlen l /\
    is_contents (intset_of_blob p) =
      enc_all (Z.to_nat (intrev32ifbe be (is_encoding (intset_of_blob p)))) l /\
    Forall (fun v => in_s (8 * intrev32ifbe be (is_encoding (intset_of_blob p))) v) l.
Proof.
  intros Hp H8 [He Esz]. destruct (blob_fields p Hp H8) as (_ & Rl & Hzc).
  pose proof (intrev32ifbe_range be _ Rl) as Hcount.
  set (s := intset_of_blob p) in *. set (e := intrev32ifbe be (is_encoding s)) in *.
  set (count := intrev32ifbe be (is_length s)) in *.
  destruct (enc_all_onto e (Z.to_nat count) (is_contents s)) as (l & Hl & Hc & HF); [done| | |].
  - by apply Forall_drop.
  - unfold zlen in *. destruct He as [E|[E|E]]; rewrite E in *; lia.
  - exists l. split; [unfold zlen; lia|done].
Qed.

(** The payload [p] is an intset holding the strictly increasing list [l],
    of any length the header can express. *)
Record blob_holds (p : bytes) (l : list Z) : Prop := {
  bh_enc : valid_enc (intrev32ifbe be (is_encoding (intset_of_blob p)));
  bh_length : intrev32ifbe be (is_length (intset_of_blob p)) = zlen l;
  bh_contents : is_contents (intset_of_blob p) =
    enc_all (Z.to_nat (intrev32ifbe be (is_encoding (intset_of_blob p)))) l;
  bh_fits : Forall (fun v => in_s (8 * intrev32ifbe be (is_encoding (intset_of_blob p))) v) l;
  bh_sorted : StronglySorted Z.lt l;
}.

(** Below 2^32 bytes this is the invariant of the operations. *)
Lemma blob_holds_rep p l :
  Forall is_byte p -> 8 <= zlen p -> zlen p < 2 ^ 32 ->
  blob_holds p l <-> intset_rep (intset_of_blob p) l.
Proof.
  intros Hp H8 Hlen. destruct (blob_fields p Hp H8) as (Re & Rl & Hzc). split.
  - intros [He Hl Hc HF HS]. split; try done.
    + by rewrite <-Hl, intrev32ifbe_involutive.
    + rewrite Hc, zlen_enc_all in Hzc. destruct He as [E|[E|E]]; rewrite E in *; lia.
  - intros R. split; try apply R. apply (rep_len R).
Qed.

(** Such a payload passes the header checks. *)
Lemma holds_header_ok p l :
  Forall is_byte p -> 8 <= zlen p -> blob_holds p l -> blob_header_ok p.
Proof.
  intros Hp H8 [He Hl Hc _ _]. split; [done|].
  destruct (blob_fields p Hp H8) as (_ & _ & Hzc). rewrite Hc, zlen_enc_all in Hzc. rewrite Hl.
  destruct He as [E|[E|E]]; rewrite E in *; lia.
Qed.

(** Once the header is consistent, the payload is an intset exactly when the
    elements it decodes to are strictly increasing. *)
Lemma holds_iff_sorted p l :
  blob_header_ok p -> intrev32ifbe be (is_length (intset_of_blob p)) = zlen l ->
  is_contents (intset_of_blob p) =
    enc_all (Z.to_nat (intrev32ifbe be (is_encoding (intset_of_blob p)))) l ->
  Forall (fun v => in_s (8 * intrev32ifbe be (is_encoding (intset_of_blob p))) v) l ->
  (exists l', l' <> [] /\ blob_holds p l') <-> l <> [] /\ Sorted Z.lt l.
Proof.
  intros [He Esz] Hl Hc HF. split.
  - intros (l' & Hne & R). enough (l' = l) as -> by
      (split; [done|apply StronglySorted_Sorted, (bh_sorted _ _ R)]).
    eapply enc_all_inj; [done|apply (bh_fits _ _ R)|done|]. by rewrite <-Hc, (bh_contents _ _ R).
  - intros [Hne HS]. exists l. split; [done|]. split; try done.
    by apply Sorted_StronglySorted; [intros ???; lia|].
Qed.

Lemma intsetValidate_spec p :
  Forall is_byte p -> intsetLen (intset_of_blob p) <= 2 ^ 31 ->
  exists b, intsetValidateIntegrity p (zlen p) true = Some b /\
    (b = true <-> 8 <= zlen p /\ exists l, l <> [] /\ blob_holds p l).
Proof.
  intros Hp Hcount. unfold intsetValidateIntegrity, INTSET_ENC_INT64, INTSET_ENC_INT32, INTSET_ENC_INT16.
  destruct (Z.ltb_spec (zlen p) 8); [exists false; split; [done|]; split; [done|lia]|].
  cbv zeta. set (s := intset_of_blob p) in *. set (e := intrev32ifbe be (is_encoding s)).
  destruct (negb _) eqn:Ev.
  { exists false. split; [done|]. split; [done|]. intros (_ & l & _ & R).
    pose proof (bh_enc _ _ R) as He. fold s e in He. destruct He as [E|[E|E]]; by rewrite E in Ev. }
  unfold intsetLen in Hcount. set (count := intrev32ifbe be (is_length s)) in *.
  destruct (Z.eqb_spec (8 + count * e) (zlen p)) as [Esz|Esz]; simpl.
  2:{ exists false. split; [done|]. split; [done|]. intros (_ & l & _ & R).
      by destruct (holds_header_ok p l Hp ltac:(lia) R). }
  assert (blob_header_ok p) as Hok by (split; [unfold valid_enc; fold s e; lia|done]).
  destruct (blob_decodes p) as (l & Hl & Hc & HF); [done|lia|done|]. fold s count e in Hl, Hc, HF.
  pose proof (holds_iff_sorted p l Hok Hl Hc HF) as Hiff. setoid_rewrite Hiff.
  destruct Hok as [He _]. fold s e in He.
  destruct l as [|x l]; [rewrite Hl; simpl; exists false; split; [done|]; naive_solver|].
  assert (zlen (x :: l) <= 2 ^ 31) by lia.
  rewrite zlen_cons in *. pose proof (zlen_nonneg l).
  destruct (Z.eqb_spec count 0); [lia|].
  rewrite (get_at s (x :: l) 0 x) by done. simpl.
  destruct (validate_loop_spec s (x :: l) (Z.to_nat (count - 1)) 1 x) as (b & E & Hb);
    [done..|by rewrite zlen_cons|unfold zlen in *; simpl; lia|].
  exists b. split; [done|]. rewrite Hb. simpl. rewrite drop_0. naive_solver lia.
Qed.

(** The loop on an increasing list of more than 2^31 elements: the index of 32
    bits becomes a negative int. *)
Lemma validate_loop_wraps s l n i prev :
  let e := intrev32ifbe be (is_encoding s) in
  valid_enc e -> is_contents s = enc_all (Z.to_nat e) l ->
  Forall (fun v => in_s (8 * e) v) l -> 2 ^ 31 < zlen l ->
  (i + n = length l)%nat -> Z.of_nat i <= 2 ^ 31 -> StronglySorted Z.lt (prev :: drop i l) ->
  intsetValidate_loop n s (Z.of_nat i) prev = None.
Proof.
  intros e He Hc HF Hlen. revert i prev. induction n as [|n IH]; intros i prev Hi Hle HS; [unfold zlen in *; lia|].
  simpl. destruct (decide (Z.of_nat i = 2 ^ 31)) as [->|Hne].
  { change (s32 (2 ^ 31)) with (- 2 ^ 31). unfold _intsetGet, _intsetGetEncoded.
    rewrite !mload_out by lia. by repeat case_match. }
  destruct (lookup_lt_is_Some_2 l i) as [x Hx]; [lia|].
  rewrite sint_small by lia. rewrite (get_at s l i x) by done. simpl.
  rewrite (drop_S _ _ _ Hx) in HS. apply StronglySorted_inv in HS as [HS [Hp _]%Forall_cons].
  rewrite (proj2 (Z.leb_gt _ _)) by done. replace (Z.of_nat i + 1) with (Z.of_nat (S i)) by lia.
  apply IH; [lia|lia|done].
Qed.

Lemma intsetValidate_wraps p l :
  Forall is_byte p -> 8 <= zlen p -> blob_holds p l -> 2 ^ 31 < zlen l ->
  intsetValidateIntegrity p (zlen p) true = None.
Proof.
  intros Hp H8 B Hl. destruct (holds_header_ok p l Hp H8 B) as [_ Esz]. destruct B as [He El Hc HF HS].
  unfold intsetValidateIntegrity, INTSET_ENC_INT64, INTSET_ENC_INT32, INTSET_ENC_INT16.
  rewrite (proj2 (Z.ltb_ge _ _)) by done. cbv zeta.
  destruct (negb (_ || _ || _)) eqn:Ev; [exfalso; destruct He as [E|[E|E]]; by rewrite E in Ev|].
  rewrite (proj2 (Z.eqb_eq _ _) Esz), El. simpl. rewrite (proj2 (Z.eqb_neq _ _)) by lia.
  destruct l as [|x l]; [by apply Z.lt_gt in Hl|].
  rewrite (get_at _ (x :: l) 0 x) by done. simpl.
  apply (validate_loop_wraps _ (x :: l) _ 1 x); try done. unfold zlen in *. simpl in *. lia.
Qed.

End intset.

(** ** Properties *)

(** The operations a client performs on an intset. *)
Inductive intset_op :=
  | IAdd (v : Z)
  | IRemove (v : Z).

Definition op_value (op : intset_op) : Z := match op with IAdd v | IRemove v => v end.

(** What they mean on a set of integers. *)
Definition set_step (S : gset Z) (op : intset_op) : gset Z :=
  match op with IAdd v => {[ v ]} ∪ S | IRemove v => S ∖ {[ v ]} end.

(** The same operations performed by the code. *)
Definition intset_step (be : bool) (fresh : nat -> Z) (s : intset) (op : intset_op) : option intset :=
  match op with
  | IAdd v => fst <$> intsetAdd be fresh s v
  | IRemove v => fst <$> intsetRemove be fresh s v
  end.

Fixpoint intset_run (be : bool) (fresh : nat -> Z) (s : intset) (ops : list intset_op)
    : option intset :=
  match ops with
  | [] => Some s
  | op :: ops => s ← intset_step be fresh s op; intset_run be fresh s ops
  end.

Lemma rep_new be : intset_rep be (intsetNew be) [].
Proof.
  assert (intsetNew be = mk_intset (intrev32ifbe be 2) (intrev32ifbe be (zlen (@nil Z))) []) as ->
    by (by destruct be).
  apply (rep_intro be 2 [] []); [by left|done|done|constructor|constructor].
Qed.

Lemma rep_size_set be s l :
  intset_rep be s l -> size (list_to_set l : gset Z) = length l.
Proof. intros R. apply size_list_to_set, sorted_NoDup, (rep_sorted _ _ _ R). Qed.

Lemma intset_step_rep be fresh s l op :
  intset_rep be s l -> has_room l -> in_s 64 (op_value op) ->
  exists s' l', intset_step be fresh s op = Some s' /\ intset_rep be s' l' /\
    (list_to_set l' : gset Z) = set_step (list_to_set l) op /\ zlen l' <= zlen l + 1.
Proof.
  intros R Hroom Hv. pose proof (rep_size_set _ _ _ R) as Hl. unfold zlen.
  destruct op as [v|v]; simpl in *.
  - destruct (intsetAdd_rep be fresh s l v) as (s' & l' & -> & R' & HS & _); [done..|].
    exists s', l'. split_and!; [done|done|done|].
    rewrite <-Hl, <-(rep_size_set _ _ _ R'), HS, size_union_alt.
    pose proof (size_singleton (C := gset Z) v).
    assert (size (list_to_set l ∖ {[ v ]} : gset Z) <= size (list_to_set l : gset Z))%nat
      by (apply subseteq_size; set_solver). lia.
  - destruct (intsetRemove_rep be fresh s l v) as (s' & l' & -> & R' & HS & _); [done..|].
    exists s', l'. split_and!; [done|done|done|].
    rewrite <-Hl, <-(rep_size_set _ _ _ R'), HS.
    assert (size (list_to_set l ∖ {[ v ]} : gset Z) <= size (list_to_set l : gset Z))%nat
      by (apply subseteq_size; set_solver). lia.
Qed.

(** A two-element block, used to instantiate the theorems. *)
Lemma sample_rep : intset_rep false (mk_intset 2 2 [1; 0; 3; 0]) [1; 3].
Proof.
  apply (rep_intro false 2 [1; 0; 3; 0] [1; 3]); [by left|done|done| |].
  - repeat (apply Forall_cons; split; [vm_compute; split; intros; discriminate || reflexivity|]).
    by apply Forall_nil.
  - repeat constructor; lia.
Qed.

(** C10: any sequence of insertions and deletions performed on a new intset
    succeeds without a memory error, and the block it leaves is well formed
    and holds, in increasing order, exactly the set the sequence denotes,
    whatever the byte order of the host and the content of fresh memory.  The
    number of calls is below 2^29 - 1, so that the bytes of the block can be
    counted in the 32 bits intsetResize uses; [intsetAdd_overflow] is what
    happens beyond. *)
Theorem intset_refines_set be fresh ops :
  Forall (fun op => in_s 64 (op_value op)) ops -> (zlen ops + 1) * 8 < 2 ^ 32 ->
  exists s l, intset_run be fresh (intsetNew be) ops = Some s /\ intset_rep be s l /\
    (list_to_set l : gset Z) = foldl set_step ∅ ops.
Proof.
  intros Hops Hroom.
  enough (forall s l (S : gset Z), intset_rep be s l -> list_to_set l = S ->
    (zlen l + zlen ops + 1) * 8 < 2 ^ 32 ->
    exists s' l', intset_run be fresh s ops = Some s' /\ intset_rep be s' l' /\
      list_to_set l' = foldl set_step S ops) as H.
  { apply (H _ [] ∅ (rep_new be)); done. }
  clear Hroom. induction Hops as [|op ops Hop Hops IH]; intros s l S R HS Hroom.
  { exists s, l. done. }
  rewrite zlen_cons in Hroom. pose proof (zlen_nonneg ops).
  destruct (intset_step_rep be fresh s l op) as (s' & l' & E & R' & HS' & Hz);
    [done|unfold has_room; lia|done|].
  simpl. rewrite E. simpl. apply (IH s' l'); [done|by rewrite HS', HS|lia].
Qed.

Lemma intset_refines_set_witness :
  exists s l, intset_run true (fun _ => 7) (intsetNew true)
      [IAdd 5; IAdd 70000; IRemove 5; IAdd (-3000000000)] = Some s /\ intset_rep true s l /\
    (list_to_set l : gset Z) = foldl set_step ∅ [IAdd 5; IAdd 70000; IRemove 5; IAdd (-3000000000)].
Proof.
  apply intset_refines_set; [|vm_compute; reflexivity].
  repeat (apply Forall_cons; split; [vm_compute; split; intros; discriminate || reflexivity|]).
  apply Forall_nil. exact I.
Defined.

(** A block that holds 2^29 - 1 elements of 8 bytes cannot take another one:
    the size intsetResize computes wraps around to 0, and intsetAdd goes on to
    write outside the block it has left. *)
Theorem intsetAdd_overflow be fresh s l v :
  intset_rep be s l -> intrev32ifbe be (is_encoding s) = INTSET_ENC_INT64 ->
  (zlen l + 1) * 8 = 2 ^ 32 -> v ∉ l -> intsetAdd be fresh s v = None.
Proof. apply intsetAdd_full. Qed.

(** intsetAdd on a well-formed block always succeeds, reports whether the
    value was new, keeps the block well formed (sorted, no duplicates), adds
    exactly the value, and widens the encoding only as far as the value needs. *)
Theorem intsetAdd_correct be fresh s l v :
  intset_rep be s l -> has_room l -> in_s 64 v ->
  exists s' l', intsetAdd be fresh s v = Some (s', bool_decide (v ∉ l)) /\ intset_rep be s' l' /\
    (list_to_set l' : gset Z) = {[ v ]} ∪ list_to_set l /\
    intrev32ifbe be (is_encoding s') =
      Z.max (intrev32ifbe be (is_encoding s)) (if bool_decide (v ∈ l) then 0 else _intsetValueEncoding v).
Proof. apply intsetAdd_rep. Qed.

Lemma intsetAdd_correct_witness :
  exists s' l', intsetAdd false (fun _ => 0) (mk_intset 2 2 [1; 0; 3; 0]) 40000
      = Some (s', bool_decide (40000 ∉ [1; 3])) /\ intset_rep false s' l' /\
    (list_to_set l' : gset Z) = {[ 40000 ]} ∪ list_to_set [1; 3] /\
    intrev32ifbe false (is_encoding s') =
      Z.max (intrev32ifbe false (is_encoding (mk_intset 2 2 [1; 0; 3; 0])))
        (if bool_decide (40000 ∈ [1; 3]) then 0 else _intsetValueEncoding 40000).
Proof.
  apply intsetAdd_correct; [|vm_compute; reflexivity|vm_compute; split; intros; discriminate || reflexivity].
  apply sample_rep.
Defined.

(** intsetRemove on a well-formed block always succeeds, reports whether
    the value was present, removes exactly it and keeps the block well formed
    with the same encoding. *)
Theorem intsetRemove_correct be fresh s l v :
  intset_rep be s l -> in_s 64 v ->
  exists s' l', intsetRemove be fresh s v = Some (s', bool_decide (v ∈ l)) /\ intset_rep be s' l' /\
    (list_to_set l' : gset Z) = list_to_set l ∖ {[ v ]} /\ is_encoding s' = is_encoding s.
Proof. apply intsetRemove_rep. Qed.

Lemma intsetRemove_correct_witness :
  exists s' l', intsetRemove false (fun _ => 0) (mk_intset 2 2 [1; 0; 3; 0]) 1
      = Some (s', bool_decide (1 ∈ [1; 3])) /\ intset_rep false s' l' /\
    (list_to_set l' : gset Z) = list_to_set [1; 3] ∖ {[ 1 ]} /\ is_encoding s' = 2.
Proof.
  apply (intsetRemove_correct false (fun _ => 0) (mk_intset 2 2 [1; 0; 3; 0]) [1; 3]);
    [|vm_compute; split; intros; discriminate || reflexivity].
  apply sample_rep.
Defined.

(** C35: on a well-formed block the binary search behind intsetFind terminates
    with the membership of the value in the set, and intsetGet returns the
    element of a given rank, or nothing past the end. *)
Theorem intset_queries_correct be s l v pos :
  intset_rep be s l -> in_s 64 v -> in_u 32 pos ->
  intsetFind be s v = Some (bool_decide (v ∈ l)) /\
  intsetGet be s pos = Some (l !! Z.to_nat pos).
Proof. intros R Hv Hp. split; [by apply intsetFind_rep|by apply intsetGet_rep]. Qed.

Lemma intset_queries_correct_witness :
  intsetFind false (mk_intset 2 2 [1; 0; 3; 0]) 2 = Some (bool_decide (2 ∈ [1; 3])) /\
  intsetGet false (mk_intset 2 2 [1; 0; 3; 0]) 1 = Some ([1; 3] !! Z.to_nat 1).
Proof.
  apply intset_queries_correct; [|vm_compute; split; intros; discriminate || reflexivity..].
  apply sample_rep.
Defined.

(** C36: intsetValidateIntegrity with deep checking, on any payload whose header
    claims at most 2^31 elements: it never reads outside the payload and accepts
    it exactly when it is a non-empty intset, its elements strictly increasing
    and filling it exactly.  For a payload below 2^32 bytes that is the
    invariant of the operations.  [intsetValidate_index_wraps] is what happens
    beyond 2^31 elements. *)
Theorem intsetValidateIntegrity_correct be p :
  Forall is_byte p -> intsetLen be (intset_of_blob be p) <= 2 ^ 31 ->
  (exists b, intsetValidateIntegrity be p (zlen p) true = Some b /\
    (b = true <-> 8 <= zlen p /\ exists l, l <> [] /\ blob_holds be p l)) /\
  (8 <= zlen p < 2 ^ 32 -> forall l, blob_holds be p l <-> intset_rep be (intset_of_blob be p) l).
Proof.
  intros Hp Hc. split; [by apply intsetValidate_spec|]. intros [H8 H32] l. by apply blob_holds_rep.
Qed.

Lemma intsetValidateIntegrity_correct_witness :
  (exists b, intsetValidateIntegrity false [2; 0; 0; 0; 2; 0; 0; 0; 1; 0; 3; 0] 12 true = Some b /\
    (b = true <-> 8 <= zlen [2; 0; 0; 0; 2; 0; 0; 0; 1; 0; 3; 0] /\
      exists l, l <> [] /\ blob_holds false [2; 0; 0; 0; 2; 0; 0; 0; 1; 0; 3; 0] l)) /\
  intsetValidateIntegrity false [2; 0; 0; 0; 2; 0; 0; 0; 1; 0; 3; 0] 12 true = Some true.
Proof.
  split; [|vm_compute; reflexivity].
  apply (intsetValidateIntegrity_correct false [2; 0; 0; 0; 2; 0; 0; 0; 1; 0; 3; 0]);
    [|vm_compute; discriminate].
  repeat constructor; vm_compute; discriminate || reflexivity.
Defined.

(** On a payload that holds more than 2^31 increasing elements the index, an
    uint32_t, becomes a negative int and the check reads before the payload. *)
Theorem intsetValidate_index_wraps be p l :
  Forall is_byte p -> 8 <= zlen p -> blob_holds be p l -> 2 ^ 31 < zlen l ->
  intsetValidateIntegrity be p (zlen p) true = None.
Proof. apply intsetValidate_wraps. Qed.
