(* ===== verification/Util.v ===== *)
(** * util.c: conversions between integers and their decimal representation

    digits10, sdigits10, ll2string, string2ll, string2l, memtoll and the two
    buffer helpers mempbrk and memmapchars.  A C string of length [slen] is the
    list of its bytes.  [is_decimal s v] is the canonical decimal notation: the
    theorems show that ll2string writes it, that string2ll accepts exactly it
    and that the two functions are inverse to each other on 64-bit integers. *)

From S2P Require Import Prelude.

Definition ULLONG_MAX : Z := 2 ^ 64 - 1.
Definition LLONG_MAX : Z := 2 ^ 63 - 1.
Definition LLONG_MIN : Z := - 2 ^ 63.

(** digits10 calls itself on v / 10^12; two levels are enough for 64 bits. *)
Fixpoint digits10_rec (fuel : nat) (v : Z) : Z :=
  if v <? 10 then 1
  else if v <? 100 then 2
  else if v <? 1000 then 3
  else if v <? 1000000000000 then
    if v <? 100000000 then
      if v <? 1000000 then
        if v <? 10000 then 4 else 5 + Z.b2z (v >=? 100000)
      else 7 + Z.b2z (v >=? 10000000)
    else if v <? 10000000000 then 9 + Z.b2z (v >=? 1000000000)
    else 11 + Z.b2z (v >=? 100000000000)
  else match fuel with
       | O => 0
       | S fuel => 12 + digits10_rec fuel (v / 1000000000000)
       end.

Definition digits10 (v : Z) : Z := digits10_rec 2 v.

Definition sdigits10 (v : Z) : Z :=
  if v <? 0 then
    let uv := if negb (v =? LLONG_MIN) then u64 (- v) else u64 LLONG_MAX + 1 in
    digits10 uv + 1
  else digits10 v.

(** The table of two-digit numbers of ll2string. *)
Definition digits_table : bytes := Eval vm_compute in str
  ("0001020304050607080910111213141516171819" ++
   "2021222324252627282930313233343536373839" ++
   "4041424344454647484950515253545556575859" ++
   "6061626364656667686970717273747576777879" ++
   "8081828384858687888990919293949596979899")%string.

(** The loop that writes two digits at a time; stops below 100. *)
Fixpoint ll2string_loop (fuel : nat) (dst : bytes) (next value : Z) : option (bytes * Z * Z) :=
  match fuel with
  | O => None
  | S fuel =>
    if value >=? 100 then
      let i := value mod 100 * 2 in
      let value := value / 100 in
      d1 ← mget digits_table (i + 1);
      d0 ← mget digits_table i;
      dst ← mstore dst next [d1];
      dst ← mstore dst (u32 (next - 1)) [d0];
      ll2string_loop fuel dst (u32 (next - 2)) value
    else Some (dst, next, value)
  end.

(** [dst] is the buffer, of which the caller declares [dstlen] bytes; returns
    the buffer and the length written, 0 when it does not fit. *)
Definition ll2string (dst : bytes) (dstlen svalue : Z) : option (bytes * Z) :=
  let '(value, negative) :=
    if svalue <? 0 then
      (if negb (svalue =? LLONG_MIN) then u64 (- svalue) else u64 (LLONG_MAX + 1), 1)
    else (svalue, 0) in
  let length := u32 (digits10 value + negative) in
  if length >=? dstlen then Some (dst, 0)
  else
    let next := length in
    dst ← mstore dst next [0];
    let next := u32 (next - 1) in
    '(dst, next, value) ← ll2string_loop 11 dst next value;
    dst ← (if value <? 10 then mstore dst next [48 + value]
           else
             let i := value * 2 in
             d1 ← mget digits_table (i + 1);
             d0 ← mget digits_table i;
             dst ← mstore dst next [d1];
             mstore dst (u32 (next - 1)) [d0]);
    dst ← (if negative =? 1 then mstore dst 0 [45] else Some dst);
    Some (dst, length).

(** Digits after the first one, with the overflow checks; [None] is [return 0].
    Returns the value and what is left of the string. *)
Fixpoint string2ll_loop (p : bytes) (v : Z) : option (Z * bytes) :=
  match p with
  | c :: p' =>
    if (c >=? 48) && (c <=? 57) then
      if v >? ULLONG_MAX / 10 then None
      else
        let v := u64 (v * 10) in
        if v >? ULLONG_MAX - (c - 48) then None
        else string2ll_loop p' (u64 (v + (c - 48)))
    else Some (v, p)
  | [] => Some (v, [])
  end.

(** [None] when the function returns 0, [Some value] when it returns 1. *)
Definition string2ll (s : bytes) : option Z :=
  match s with
  | [] => None
  | c :: rest =>
    if (zlen s =? 1) && (c =? 48) then Some 0
    else
      let negative := c =? 45 in
      let p := if negative then rest else s in
      match p with
      | [] => None
      | c :: p =>
        if (c >=? 49) && (c <=? 57) then
          '(v, p) ← string2ll_loop p (c - 48);
          if negb (zlen p =? 0) then None
          else if negative then
            if v >? u64 (- (LLONG_MIN + 1)) + 1 then None else Some (s64 (u64 (- v)))
          else if v >? LLONG_MAX then None else Some v
        else None
      end
  end.

(** On the platforms considered [long] has 64 bits. *)
Definition string2l (s : bytes) : option Z :=
  llval ← string2ll s;
  if (llval <? LLONG_MIN) || (llval >? LLONG_MAX) then None else Some llval.

(** mempbrk: the position of the first byte of [s] that is one of [chars]. *)
Fixpoint mempbrk (s chars : bytes) : option nat :=
  match s with
  | [] => None
  | c :: s => if existsb (Z.eqb c) chars then Some O else S <$> mempbrk s chars
  end.

(** memmapchars: the inner loop looks a byte up in [from] and stops at its first
    occurrence. *)
Fixpoint mapchar (c : Z) (from to : bytes) : Z :=
  match from, to with
  | f :: from, t :: to => if c =? f then t else mapchar c from to
  | _, _ => c
  end.

Definition memmapchars (s from to : bytes) : bytes := (fun c => mapchar c from to) <$> s.

(** isdigit, tolower and strcasecmp of the C library, in the C locale. *)
Definition isdigit (c : Z) : bool := (48 <=? c) && (c <=? 57).
Definition tolower (c : Z) : Z := if (65 <=? c) && (c <=? 90) then c + 32 else c.
Definition strcasecmp_eq (a b : bytes) : bool := bool_decide (tolower <$> a = tolower <$> b).

Fixpoint span_digits (s : bytes) : bytes * bytes :=
  match s with
  | c :: s' => if isdigit c then let '(d, r) := span_digits s' in (c :: d, r) else ([], s)
  | [] => ([], [])
  end.

Definition digits_value (ds : bytes) : Z := foldl (fun a c => a * 10 + (c - 48)) 0 ds.

(** strtoll(s, &end, 10) on a string without leading spaces or plus sign: the
    value, clamped to the range of long long, and what [end] points to. *)
Definition strtoll (s : bytes) : Z * bytes :=
  let '(neg, p) := match s with 45 :: p => (true, p) | _ => (false, s) end in
  match span_digits p with
  | ([], _) => (0, s)
  | (ds, rest) =>
    let v := digits_value ds in
    (Z.max LLONG_MIN (Z.min LLONG_MAX (if neg : bool then - v else v)), rest)
  end.

(** memtoll: [None] when [*err] is set.  [val*mul] is an overflow, undefined in
    C, outside the range of long long; here it wraps. *)
Definition memtoll (p : bytes) : option Z :=
  let '(sign, q) := match p with 45 :: q => ([45], q) | _ => ([], p) end in
  let '(ds, u) := span_digits q in
  mul ← (if bool_decide (u = []) || strcasecmp_eq u (str "b") then Some 1
         else if strcasecmp_eq u (str "k") then Some 1000
         else if strcasecmp_eq u (str "kb") then Some 1024
         else if strcasecmp_eq u (str "m") then Some (1000 * 1000)
         else if strcasecmp_eq u (str "mb") then Some (1024 * 1024)
         else if strcasecmp_eq u (str "g") then Some (1000 * 1000 * 1000)
         else if strcasecmp_eq u (str "gb") then Some (1024 * 1024 * 1024)
         else None);
  let buf := sign ++ ds in
  if zlen buf >=? 128 then None
  else
    let '(val, endptr) := strtoll buf in
    if negb (zlen endptr =? 0) then None else Some (s64 (val * mul)).

(** ** Canonical decimal notation *)

Definition is_digit (c : Z) : Prop := 48 <= c <= 57.

Definition horner (ds : bytes) : Z := foldl (fun a c => a * 10 + (c - 48)) 0 ds.

(** [ds] is a non-empty string of digits without a leading zero, unless "0". *)
Definition canonical_digits (ds : bytes) : Prop :=
  ds <> [] /\ Forall is_digit ds /\ (head ds = Some 48 -> ds = [48]).

Definition is_decimal (s : bytes) (v : Z) : Prop :=
  if v <? 0 then exists ds, s = 45 :: ds /\ canonical_digits ds /\ horner ds = - v
  else canonical_digits s /\ horner s = v.

(** [v] has [d] decimal digits. *)
Definition has_digits (v d : Z) : Prop := 1 <= d /\ v < 10 ^ d /\ (10 ^ (d - 1) <= v \/ d = 1 /\ 0 <= v).

Lemma horner_from a ds : foldl (fun a c => a * 10 + (c - 48)) a ds = a * 10 ^ zlen ds + horner ds.
Proof.
  unfold horner. revert a. induction ds as [|c ds IH]; intros a; cbn [foldl]; [rewrite zlen_nil; lia|].
  rewrite IH, (IH (0 * 10 + (c - 48))), zlen_cons, Z.pow_add_r by (pose proof (zlen_nonneg ds); lia). lia.
Qed.

Lemma horner_cons c ds : horner (c :: ds) = (c - 48) * 10 ^ zlen ds + horner ds.
Proof. unfold horner at 1. cbn [foldl]. by rewrite horner_from. Qed.

Lemma horner_app a b : horner (a ++ b) = horner a * 10 ^ zlen b + horner b.
Proof. unfold horner at 1. rewrite foldl_app. apply horner_from. Qed.

Lemma horner_bound ds : Forall is_digit ds -> 0 <= horner ds < 10 ^ zlen ds.
Proof.
  induction 1 as [|c ds Hc Hds IH]; [done|]. unfold is_digit in Hc.
  pose proof (zlen_nonneg ds). rewrite horner_cons, zlen_cons, Z.pow_add_r by lia. nia.
Qed.

Lemma canonical_has_digits ds : canonical_digits ds -> has_digits (horner ds) (zlen ds).
Proof.
  intros (Hne & Hd & H0). pose proof (horner_bound ds Hd) as Hb.
  destruct ds as [|c ds]; [done|]. apply Forall_cons in Hd as [Hc Hds].
  pose proof (horner_bound ds Hds). pose proof (zlen_nonneg ds).
  split; [rewrite zlen_cons; lia|]. split; [lia|].
  destruct (decide (c = 48)) as [->|Hn].
  - right. rewrite H0 by done. done.
  - left. rewrite horner_cons, zlen_cons. unfold is_digit in Hc.
    replace (1 + zlen ds - 1) with (zlen ds) by lia. nia.
Qed.

Lemma has_digits_unique v d d' : has_digits v d -> has_digits v d' -> d = d'.
Proof.
  enough (forall d d', has_digits v d -> has_digits v d' -> d <= d') as H.
  { intros H1 H2. apply Z.le_antisymm; by apply H. }
  clear d d'. intros d d' (H1 & H2 & H3) (H4 & H5 & H6).
  destruct H3 as [H3|[-> _]]; [|lia]. destruct (decide (d <= d')); [done|].
  assert (10 ^ d' <= 10 ^ (d - 1)) by (apply Z.pow_le_mono_r; lia). lia.
Qed.

Lemma digits10_spec v : in_u 64 v -> has_digits v (digits10 v).
Proof.
  intros Hv. unfold digits10.
  assert (forall fuel w, 0 <= w < 1000000000000 -> has_digits w (digits10_rec fuel w)) as Hsmall.
  { intros fuel w Hw. unfold has_digits. destruct fuel; simpl; case_ints; simpl; lia. }
  destruct (decide (v < 1000000000000)); [apply Hsmall; lia|].
  assert (digits10_rec 2 v = 12 + digits10_rec 1 (v / 1000000000000)) as ->.
  { change (digits10_rec 2 v) with
      (if v <? 10 then 1 else if v <? 100 then 2 else if v <? 1000 then 3
       else if v <? 1000000000000 then
         (if v <? 100000000 then
            if v <? 1000000 then if v <? 10000 then 4 else 5 + Z.b2z (v >=? 100000)
            else 7 + Z.b2z (v >=? 10000000)
          else if v <? 10000000000 then 9 + Z.b2z (v >=? 1000000000)
          else 11 + Z.b2z (v >=? 100000000000))
       else 12 + digits10_rec 1 (v / 1000000000000)).
    rewrite !(proj2 (Z.ltb_ge v _)) by lia. done. }
  set (q := v / 1000000000000).
  assert (0 < q < 1000000000000) as Hq by (subst q; lia_div).
  destruct (Hsmall 1%nat q) as (D1 & D2 & D3); [lia|]. set (d := digits10_rec 1 q) in *.
  assert (10 ^ (12 + d) = 1000000000000 * 10 ^ d) as E1 by (rewrite Z.pow_add_r by lia; done).
  split; [lia|]. split; [subst q; rewrite E1; lia_div|]. left.
  destruct D3 as [D3|[-> _]]; [|simpl; lia].
  replace (12 + d - 1) with (12 + (d - 1)) by lia. rewrite Z.pow_add_r by lia.
  change (10 ^ 12) with 1000000000000. subst q. lia_div.
Qed.

(** ** ll2string *)

Lemma digits_table_spec k :
  0 <= k < 100 ->
  mget digits_table (k * 2 + 1) = Some (48 + k mod 10) /\
  mget digits_table (k * 2) = Some (48 + k / 10).
Proof.
  intros Hk.
  assert (Forall (fun k => mget digits_table (k * 2 + 1) = Some (48 + k mod 10) /\
    mget digits_table (k * 2) = Some (48 + k / 10)) (seqZ 0 100)) as H
    by (refine (bool_decide_eq_true_1 _ _); vm_compute; reflexivity).
  rewrite Forall_forall in H. apply H, elem_of_seqZ. lia.
Qed.

Lemma mstore_last (p : bytes) x y post off :
  off = zlen p -> mstore ((p ++ [x]) ++ post) off [y] = Some ((p ++ [y]) ++ post).
Proof. intros ->. rewrite <-!app_assoc. by apply mstore_app. Qed.

Lemma snoc_inv (p : bytes) : 0 < zlen p -> exists q x, p = q ++ [x] /\ zlen q = zlen p - 1.
Proof.
  intros H. destruct p as [|x q _] using rev_ind; [unfold zlen in H; simpl in H; lia|].
  exists q, x. split; [done|]. zlen. lia.
Qed.

(** Two digits written at the end of the prefix [pre]. *)
Lemma write_two (pre : bytes) post next k :
  2 <= zlen pre < 2 ^ 32 -> next = zlen pre - 1 -> 0 <= k < 100 ->
  exists q, zlen q = zlen pre - 2 /\
    (d1 ← mget digits_table (k * 2 + 1);
     d0 ← mget digits_table (k * 2);
     dst ← mstore (pre ++ post) next [d1];
     mstore dst (u32 (next - 1)) [d0])
    = Some (q ++ [48 + k / 10; 48 + k mod 10] ++ post).
Proof.
  intros Hp -> Hk. destruct (digits_table_spec k Hk) as [-> ->]. simpl.
  remember (zlen pre) as n eqn:En.
  destruct (snoc_inv pre) as (p & y & -> & Hq); [lia|].
  destruct (snoc_inv p) as (q & x & -> & Hq'); [lia|]. rewrite <-En in Hq. clear En.
  rewrite (mstore_last (q ++ [x])) by lia. simpl.
  rewrite uint_small, <-!app_assoc by lia.
  rewrite (mstore_app q [x] [48 + k / 10]) by (done || lia).
  exists q. split; [lia|]. done.
Qed.

Lemma has_digits_div100 v d : has_digits v d -> 100 <= v -> has_digits (v / 100) (d - 2) /\ 3 <= d.
Proof.
  intros (H1 & H2 & H3) Hv. destruct H3 as [H3|[-> _]]; [|simpl in *; lia].
  assert (3 <= d) as Hd.
  { destruct (decide (3 <= d)); [done|]. assert (d = 1 \/ d = 2) as [-> | ->] by lia; simpl in *; lia. }
  split; [|done].
  assert (10 ^ d = 100 * 10 ^ (d - 2)) as E by (rewrite <-(Z.pow_add_r 10 2) by lia; f_equal; lia).
  assert (10 ^ (d - 1) = 100 * 10 ^ (d - 2 - 1)) as E'
    by (rewrite <-(Z.pow_add_r 10 2) by lia; f_equal; lia).
  split; [lia|]. split; [lia_div|]. left. lia_div.
Qed.

Lemma ll2string_loop_S fuel dst next value :
  ll2string_loop (S fuel) dst next value =
    if value >=? 100 then
      d1 ← mget digits_table (value mod 100 * 2 + 1);
      d0 ← mget digits_table (value mod 100 * 2);
      dst ← mstore dst next [d1];
      dst ← mstore dst (u32 (next - 1)) [d0];
      ll2string_loop fuel dst (u32 (next - 2)) (value / 100)
    else Some (dst, next, value).
Proof. done. Qed.

#[local] Arguments ll2string_loop : simpl never.

Lemma ll2string_loop_spec fuel pre post next value d neg :
  0 <= value < 100 ^ Z.of_nat fuel -> has_digits value d -> 0 <= neg <= 1 ->
  zlen pre = d + neg -> zlen pre < 2 ^ 32 -> next = zlen pre - 1 ->
  exists pre' T value' d',
    ll2string_loop (S fuel) (pre ++ post) next value = Some (pre' ++ T ++ post, zlen pre' - 1, value') /\
    0 <= value' < 100 /\ has_digits value' d' /\ zlen pre' = d' + neg /\ zlen pre' <= zlen pre /\
    zlen pre' + zlen T = zlen pre /\
    Forall is_digit T /\ value = value' * 10 ^ zlen T + horner T /\ (T <> [] -> 1 <= value').
Proof.
  revert pre post next value d.
  induction fuel as [|fuel IH]; intros pre post next value d Hv Hd Hneg Hpre H32 ->;
    rewrite ll2string_loop_S; destruct (Z.geb_spec value 100) as [Hge|Hlt].
  1: { simpl in Hv. lia. }
  1, 3: exists pre, [], value, d; split_and!; try done; try lia;
    try apply Forall_nil_2; rewrite zlen_nil; unfold horner; simpl; lia.
  destruct (has_digits_div100 value d Hd Hge) as [Hd' Hd3].
  set (k := value mod 100). assert (0 <= k < 100) as Hk by (subst k; lia_div).
  destruct (write_two pre post (zlen pre - 1) k) as (q & Hq & E); [lia|done|done|].
  destruct (digits_table_spec k Hk) as [E1 E0]. rewrite E1, E0 in E |- *. simpl in E |- *.
  destruct (mstore (pre ++ post) (zlen pre - 1) [48 + k mod 10]) as [dst|]; [|done]. simpl in E |- *.
  rewrite E. simpl.
  destruct (IH q ([48 + k / 10; 48 + k mod 10] ++ post) (u32 (zlen pre - 1 - 2)) (value / 100) (d - 2))
    as (pre' & T & value' & d' & Hrun & Hv' & Hd'' & Hp' & Hle & Hlen & HT & Heq & Hpos); try done; try lia.
  { rewrite Nat2Z.inj_succ, Z.pow_succ_r in Hv by lia. lia_div. }
  { rewrite uint_small by lia. lia. }
  exists pre', (T ++ [48 + k / 10; 48 + k mod 10]), value', d'.
  simpl in Hrun. rewrite Hrun, <-app_assoc. split_and!; try done; try lia.
  - zlen. simpl in *. lia.
  - apply Forall_app_2; [done|]. repeat constructor; lia_div.
  - rewrite horner_app, zlen_app, Z.pow_add_r by (zlen; lia). zlen. simpl.
    unfold horner at 2. simpl. subst k. change (10 ^ Z.pos 2) with 100.
    change (Z.of_nat 2) with 2. change (10 ^ 2) with 100. lia_div.
  - intros _. destruct T as [|c T]; [|by apply Hpos]. simpl in Heq. rewrite zlen_nil in Heq.
    unfold horner in Heq. simpl in Heq. lia_div.
Qed.

(** The magnitude and sign ll2string works with. *)
Lemma magnitude_spec v :
  in_s 64 v ->
  (if v <? 0 then (if negb (v =? LLONG_MIN) then u64 (- v) else u64 (LLONG_MAX + 1), 1)
   else (v, 0)) = (Z.abs v, if v <? 0 then 1 else 0) /\ in_u 64 (Z.abs v).
Proof.
  intros Hv. unfold LLONG_MIN, LLONG_MAX. split; [|lia].
  case_ints; simpl; rewrite ?uint_small by lia; f_equal; lia.
Qed.

(** The last one or two digits, and the digits written by the loop. *)
Lemma canonical_split value T d k :
  k = [48 + value] /\ value < 10 \/ k = [48 + value / 10; 48 + value mod 10] /\ 10 <= value ->
  0 <= value < 100 -> has_digits value d -> Forall is_digit T -> (T <> [] -> 1 <= value) ->
  zlen k = d /\ canonical_digits (k ++ T) /\ horner (k ++ T) = value * 10 ^ zlen T + horner T.
Proof.
  intros Hk Hv Hd HT Hpos. rewrite horner_app.
  assert (Forall is_digit k /\ horner k = value /\ (head k = Some 48 -> value = 0 /\ k = [48])) as (K1 & K2 & K3).
  { unfold horner. destruct Hk as [[-> ?]|[-> ?]]; split_and!; simpl; try lia.
    - repeat constructor; lia.
    - intros [= E]. assert (value = 0) by lia. by subst.
    - repeat constructor; lia_div.
    - lia_div.
    - intros [= E]. lia_div. }
  assert (k <> []) as Hne by (by destruct Hk as [[-> _]|[-> _]]).
  assert (canonical_digits k) as Hck by (split_and!; [done|done|intros H; by apply K3]).
  split; [apply (has_digits_unique value); [rewrite <-K2; by apply canonical_has_digits|done]|].
  rewrite K2. split; [|done]. split; [by destruct k|]. split; [by apply Forall_app_2|].
  intros H. destruct T as [|t T]; [rewrite app_nil_r in *; by apply K3|].
  assert (head k = Some 48) as Hh by (destruct k; done). apply K3 in Hh as [-> _].
  assert (1 <= 0) by (by apply Hpos). lia.
Qed.

(** The one or two digits left by the loop. *)
Lemma write_last (pre rest : bytes) value d neg :
  zlen pre = d + neg -> zlen pre < 2 ^ 32 -> has_digits value d -> 0 <= value < 100 /\ 0 <= neg ->
  exists q, zlen q = neg /\
    (if value <? 10 then mstore (pre ++ rest) (zlen pre - 1) [48 + value]
     else d1 ← mget digits_table (value * 2 + 1); d0 ← mget digits_table (value * 2);
       dst ← mstore (pre ++ rest) (zlen pre - 1) [d1];
       mstore dst (u32 (zlen pre - 1 - 1)) [d0])
    = Some (q ++ (if value <? 10 then [48 + value] else [48 + value / 10; 48 + value mod 10]) ++ rest).
Proof.
  intros Hz H32 Hd [Hv Hneg]. destruct (Z.ltb_spec value 10).
  - assert (d = 1) as -> by (apply (has_digits_unique value); [done|split; simpl; lia]).
    destruct (snoc_inv pre) as (q & y & -> & Hq); [lia|].
    exists q. split; [lia|]. rewrite <-!app_assoc. apply mstore_app; [lia|done].
  - assert (d = 2) as -> by (apply (has_digits_unique value); [done|split; simpl; lia]).
    destruct (write_two pre rest (zlen pre - 1) value) as (q & Hq & E); try lia.
    exists q. split; [lia|]. exact E.
Qed.

Lemma ll2string_spec dst dstlen v :
  in_s 64 v -> dstlen <= zlen dst -> sdigits10 v < dstlen ->
  exists s post, ll2string dst dstlen v = Some (s ++ 0 :: post, zlen s) /\
    is_decimal s v /\ zlen s = sdigits10 v /\ post = drop (S (length s)) dst.
Proof.
  intros Hv Hdst Hfit. unfold ll2string. destruct (magnitude_spec v Hv) as [-> Hu].
  set (neg := if v <? 0 then 1 else 0). assert (0 <= neg <= 1) as Hneg by (subst neg; case_ints; lia).
  pose proof (digits10_spec _ Hu) as Hd. set (value := Z.abs v) in *. set (d := digits10 value) in *.
  assert (sdigits10 v = d + neg) as Esd.
  { unfold sdigits10, LLONG_MIN, LLONG_MAX. subst neg d value.
    case_ints; simpl; rewrite ?uint_small by lia; rewrite ?Z.add_0_r; do 2 f_equal; lia. }
  assert (d <= 20) as Hd20.
  { destruct (decide (d <= 20)); [done|]. destruct Hd as (_ & _ & [Hd|[? _]]); [|lia].
    assert (10 ^ 20 <= 10 ^ (d - 1)) by (apply Z.pow_le_mono_r; lia). lia. }
  assert (1 <= d) as Hd1 by apply Hd.
  rewrite uint_small by lia. rewrite Esd in *. destruct (Z.geb_spec (d + neg) dstlen); [lia|].
  set (n := Z.to_nat (d + neg)).
  destruct (lookup_lt_is_Some_2 dst n) as [x Hx]; [subst n; unfold zlen in *; lia|].
  set (pre := take n dst). set (post := drop (S n) dst).
  assert (zlen pre = d + neg) as Hpre by (subst pre; unfold zlen in *; rewrite length_take; lia).
  assert (dst = pre ++ [x] ++ post) as Edst by (symmetry; by apply take_drop_middle).
  assert (mstore dst (d + neg) [0] = Some (pre ++ 0 :: post)) as ->
    by (rewrite Edst; apply (mstore_app pre [x] [0]); done || lia). simpl.
  rewrite uint_small by lia.
  destruct (ll2string_loop_spec 10 pre (0 :: post) (d + neg - 1) value d neg)
    as (pre' & T & value' & d' & -> & Hv' & Hd' & Hp' & Hple & Hlen & HT & Heq & Hpos); try done; try lia.
  simpl.
  set (ds := (if value' <? 10 then [48 + value'] else [48 + value' / 10; 48 + value' mod 10])).
  destruct (canonical_split value' T d' ds) as (Hk & Hcan & Hhor); try done.
  { subst ds. case_ints; [left|right]; done. }
  destruct (write_last pre' (T ++ 0 :: post) value' d' neg) as (q & Hq & ->); [done|lia|done|lia|].
  fold ds.
  simpl. exists ((if v <? 0 then [45] else []) ++ ds ++ T), post.
  assert (zlen ((if v <? 0 then [45] else []) ++ ds ++ T) = d + neg) as Hz.
  { rewrite !zlen_app, Hk. subst neg. case_ints; rewrite ?zlen_cons, ?zlen_nil; lia. }
  rewrite Hz. split_and!; [|unfold is_decimal|done|subst post; do 2 f_equal; unfold zlen in Hz; lia].
  - subst neg. destruct (Z.ltb_spec v 0); simpl.
    + destruct q as [|y [|]]; unfold zlen in Hq; simpl in Hq; try lia.
      change ([y] ++ ds ++ T ++ 0 :: post) with ([] ++ [y] ++ ds ++ T ++ 0 :: post).
      rewrite (mstore_app [] [y] [45]) by done. simpl. do 3 f_equal. by rewrite <-app_assoc.
    + destruct q; [|unfold zlen in Hq; simpl in Hq; lia]. simpl. by rewrite <-app_assoc.
  - case_ints; simpl; [eexists; split; [done|]|]; rewrite Hhor, <-Heq; (split; [done|subst value; lia]).
Qed.

(** ** string2ll *)

Lemma string2ll_loop_digits ds v :
  Forall is_digit ds -> 0 <= v <= ULLONG_MAX ->
  string2ll_loop ds v =
    let r := v * 10 ^ zlen ds + horner ds in if r <=? ULLONG_MAX then Some (r, []) else None.
Proof.
  unfold ULLONG_MAX. intros Hds. revert v.
  induction Hds as [|c ds Hc Hds IH]; intros v Hv.
  { simpl. unfold horner. simpl. rewrite zlen_nil, Z.mul_1_r, Z.add_0_r. case_ints; [done|lia]. }
  unfold is_digit in Hc. pose proof (zlen_nonneg ds). pose proof (horner_bound ds Hds) as Hb.
  rewrite horner_cons, zlen_cons, Z.pow_add_r by lia. change (10 ^ 1) with 10.
  cbn [string2ll_loop]. unfold ULLONG_MAX.
  rewrite (proj2 (Z.geb_ge c 48)), (proj2 (Z.leb_le c 57)) by lia. cbn [andb].
  rewrite !Z.gtb_ltb. destruct (Z.ltb_spec ((2 ^ 64 - 1) / 10) v) as [Hov|Hov].
  { cbv zeta. destruct (Z.leb_spec (v * (10 * 10 ^ zlen ds) + ((c - 48) * 10 ^ zlen ds + horner ds)) (2 ^ 64 - 1));
      [|done]. assert (1 <= 10 ^ zlen ds) by lia. assert (2 ^ 64 - 1 < v * 10) by lia_div. nia. }
  assert (v * 10 <= 2 ^ 64 - 1) by lia_div. cbv zeta. rewrite (uint_small 64 (v * 10)) by lia.
  destruct (Z.ltb_spec (2 ^ 64 - 1 - (c - 48)) (v * 10)).
  { destruct (Z.leb_spec (v * (10 * 10 ^ zlen ds) + ((c - 48) * 10 ^ zlen ds + horner ds)) (2 ^ 64 - 1));
      [|done]. assert (1 <= 10 ^ zlen ds) by lia. nia. }
  rewrite uint_small, IH by lia. cbv zeta.
  replace ((v * 10 + (c - 48)) * 10 ^ zlen ds + horner ds)
    with (v * (10 * 10 ^ zlen ds) + ((c - 48) * 10 ^ zlen ds + horner ds)) by ring. done.
Qed.

Lemma string2ll_loop_all p v r : string2ll_loop p v = Some (r, []) -> Forall is_digit p.
Proof.
  revert v. induction p as [|c p IH]; intros v; [constructor|]. cbn [string2ll_loop].
  destruct ((c >=? 48) && (c <=? 57)) eqn:Ec; [|done]. rewrite !Z.gtb_ltb.
  destruct (_ <? _); [done|]. cbv zeta. destruct (_ <? _); [done|].
  intros H%IH. constructor; [unfold is_digit; lia|done].
Qed.

Lemma canonical_first c p :
  canonical_digits (c :: p) -> c :: p <> [48] -> 49 <= c <= 57 /\ Forall is_digit p.
Proof.
  intros (_ & [Hc Hp]%Forall_cons & H0) Hn. split; [|done]. unfold is_digit in Hc.
  destruct (decide (c = 48)) as [->|]; [by destruct Hn; apply H0|lia].
Qed.

Lemma first_canonical c p : 49 <= c <= 57 -> Forall is_digit p -> canonical_digits (c :: p).
Proof.
  intros Hc Hp. split; [done|]. split; [constructor; [unfold is_digit; lia|done]|].
  intros [= ->]. lia.
Qed.

(** The part of string2ll after the sign: a canonical number other than 0, at
    most [limit]. *)
Lemma string2ll_magnitude (p : bytes) limit (f : Z -> Z) r :
  limit <= ULLONG_MAX ->
  match p with
  | [] => None
  | c :: p =>
    if (c >=? 49) && (c <=? 57) then
      '(v, p) ← string2ll_loop p (c - 48);
      if negb (zlen p =? 0) then None else if v >? limit then None else Some (f v)
    else None
  end = Some r <->
  canonical_digits p /\ p <> [48] /\ horner p <= limit /\ r = f (horner p).
Proof.
  intros Hlim. destruct p as [|c p]; [split; [done|]; by intros ([? _] & _)|]. split.
  - destruct ((c >=? 49) && (c <=? 57)) eqn:Ec; [|done].
    destruct (string2ll_loop p (c - 48)) as [[v q]|] eqn:El; [|done]. simpl.
    destruct q as [|x q]; cycle 1.
    { rewrite zlen_cons. pose proof (zlen_nonneg q). by rewrite (proj2 (Z.eqb_neq _ _)) by lia. }
    pose proof (string2ll_loop_all _ _ _ El) as Hp.
    rewrite string2ll_loop_digits in El by (done || unfold ULLONG_MAX; lia).
    rewrite <-horner_cons in El. cbv zeta in El. case_ints_in El; [|done].
    injection El as <-. simpl. case_ints; [done|]. intros [= <-].
    split_and!; [apply first_canonical; [lia|done]|intros [= -> ->]; lia|lia|done].
  - intros (Hcan & Hne & Hle & ->). destruct (canonical_first c p Hcan Hne) as [Hc Hp].
    rewrite (proj2 (Z.geb_ge c 49)), (proj2 (Z.leb_le c 57)) by lia. cbn [andb].
    rewrite string2ll_loop_digits by (done || unfold ULLONG_MAX; lia).
    rewrite <-horner_cons. cbv zeta. rewrite (proj2 (Z.leb_le _ _)) by lia. simpl.
    rewrite Z.gtb_ltb, (proj2 (Z.ltb_ge _ _)) by lia. done.
Qed.

Lemma horner_pos p : canonical_digits p -> p <> [48] -> 0 < horner p.
Proof.
  destruct p as [|c p]; [by intros [? _]|]. intros Hcan Hne.
  destruct (canonical_first c p Hcan Hne) as [Hc Hp]. rewrite horner_cons.
  pose proof (horner_bound p Hp). pose proof (zlen_nonneg p). nia.
Qed.

(** A string that does not start with the sign denotes no negative number. *)
Lemma is_decimal_unsigned c s v :
  c <> 45 -> is_decimal (c :: s) v <-> canonical_digits (c :: s) /\ horner (c :: s) = v.
Proof.
  intros Hc. unfold is_decimal. split.
  - intros H. case_ints_in H; [|done]. destruct H as (ds & [= -> _] & _). done.
  - intros [Hcan Hh]. case_ints; [|done].
    assert (0 <= horner (c :: s)) by (apply horner_bound, Hcan). lia.
Qed.

Lemma is_decimal_signed s v :
  is_decimal (45 :: s) v <-> canonical_digits s /\ s <> [48] /\ v = - horner s.
Proof.
  unfold is_decimal. split.
  - intros H. case_ints_in H.
    + destruct H as (ds & [= <-] & Hcan & Hh). split_and!; [done| |lia].
      intros ->. unfold horner in Hh. simpl in Hh. lia.
    + destruct H as [(_ & [Hd _]%Forall_cons & _) _]. unfold is_digit in Hd. lia.
  - intros (Hcan & Hne & ->). pose proof (horner_pos s Hcan Hne). case_ints; [|lia].
    exists s. split_and!; [done|done|lia].
Qed.

Lemma is_decimal_zero v : is_decimal [48] v <-> v = 0.
Proof.
  rewrite is_decimal_unsigned by done. unfold horner. simpl. split; [by intros [_ <-]|].
  intros ->. split; [|done]. split; [done|]. split; [by repeat constructor|done].
Qed.

Lemma string2ll_iff s v : string2ll s = Some v <-> in_s 64 v /\ is_decimal s v.
Proof.
  destruct s as [|c rest].
  { split; [done|]. unfold is_decimal. intros [_ H].
    case_ints_in H; [by destruct H as (? & ? & _)|by destruct H as [[? _] _]]. }
  unfold string2ll. destruct (decide (c :: rest = [48])) as [[= -> ->]|Hn0].
  { rewrite is_decimal_zero. simpl. split; [intros [= <-]; lia|intros [_ ->]; done]. }
  assert ((zlen (c :: rest) =? 1) && (c =? 48) = false) as ->.
  { destruct rest as [|x rest].
    - rewrite zlen_cons, zlen_nil. simpl. apply Z.eqb_neq. congruence.
    - rewrite !zlen_cons. pose proof (zlen_nonneg rest). lia. }
  cbv zeta. unfold LLONG_MIN, LLONG_MAX. rewrite (uint_small 64 (- _)) by lia.
  destruct (Z.eqb_spec c 45) as [->|Hc].
  - rewrite (string2ll_magnitude rest (- (- 2 ^ 63 + 1) + 1) (fun v => s64 (u64 (- v))))
      by (unfold ULLONG_MAX; lia). rewrite is_decimal_signed. split.
    + intros (Hcan & Hne & Hle & ->). pose proof (horner_pos _ Hcan Hne).
      rewrite sint_uint, sint_small by lia. split; [lia|done].
    + intros (Hv & Hcan & Hne & ->). rewrite sint_uint, sint_small by lia. split_and!; done || lia.
  - rewrite (string2ll_magnitude (c :: rest) (2 ^ 63 - 1) (fun v => v)) by (unfold ULLONG_MAX; lia).
    rewrite is_decimal_unsigned by done. split.
    + intros (Hcan & Hne & Hle & ->). pose proof (horner_pos _ Hcan Hne). split; [lia|done].
    + intros (Hv & Hcan & <-). split_and!; done || lia.
Qed.

(** ** Round trips *)

Lemma horner_inj a b :
  Forall is_digit a -> Forall is_digit b -> length a = length b -> horner a = horner b -> a = b.
Proof.
  intros Ha. revert b. induction Ha as [|c a Hc Ha IH]; intros [|c' b] Hb Hl Hh; try done.
  apply Forall_cons in Hb as [Hc' Hb]. simpl in Hl. rewrite !horner_cons in Hh.
  pose proof (horner_bound a Ha) as Ba. pose proof (horner_bound b Hb) as Bb.
  assert (zlen a = zlen b) as E by (unfold zlen; lia). rewrite E in *.
  pose proof (zlen_nonneg b). assert (0 < 10 ^ zlen b) by lia.
  assert (c = c') as -> by nia. f_equal. apply IH; [done|lia|nia].
Qed.

Lemma canonical_inj a b : canonical_digits a -> canonical_digits b -> horner a = horner b -> a = b.
Proof.
  intros Ha Hb Hh. apply horner_inj; [apply Ha|apply Hb| |done].
  pose proof (canonical_has_digits a Ha) as Da. pose proof (canonical_has_digits b Hb) as Db.
  rewrite Hh in Da. pose proof (has_digits_unique _ _ _ Da Db). unfold zlen in *. lia.
Qed.

Lemma is_decimal_inj a b v : is_decimal a v -> is_decimal b v -> a = b.
Proof.
  unfold is_decimal. case_ints.
  - intros (x & -> & Hx & Ex) (y & -> & Hy & Ey). f_equal. apply canonical_inj; congruence.
  - intros [Ha Ea] [Hb Eb]. apply canonical_inj; congruence.
Qed.

(** C34: string2ll accepts a string, with value v, exactly when v is a 64-bit
    integer and the string is its canonical decimal notation: no spaces, no
    plus sign, no leading zeros, no "-0", no overflow. *)
Theorem string2ll_accepts_canonical s v :
  string2ll s = Some v <-> in_s 64 v /\ is_decimal s v.
Proof. apply string2ll_iff. Qed.

(** ll2string writes the canonical decimal notation of the value followed
    by a NUL and returns its length, which is sdigits10 of the value, leaving
    the rest of the buffer alone; when notation and NUL do not fit in dstlen
    bytes it returns 0 and writes nothing. *)
Theorem ll2string_correct dst dstlen v :
  in_s 64 v -> dstlen <= zlen dst ->
  if sdigits10 v <? dstlen then
    exists s, ll2string dst dstlen v = Some (s ++ 0 :: drop (S (length s)) dst, sdigits10 v) /\
      is_decimal s v /\ zlen s = sdigits10 v
  else ll2string dst dstlen v = Some (dst, 0).
Proof.
  intros Hv Hd. case_ints.
  - destruct (ll2string_spec dst dstlen v) as (s & post & E & Hs & Hz & ->); [done..|].
    exists s. by rewrite E, Hz.
  - unfold ll2string. destruct (magnitude_spec v Hv) as [-> Hu].
    unfold sdigits10, LLONG_MIN, LLONG_MAX in *.
    pose proof (digits10_spec _ Hu) as Hdig.
    assert (digits10 (Z.abs v) <= 20) as H20.
    { destruct (decide (digits10 (Z.abs v) <= 20)); [done|].
      destruct Hdig as (_ & _ & [Hdig|[? _]]); [|lia].
      assert (10 ^ 20 <= 10 ^ (digits10 (Z.abs v) - 1)) by (apply Z.pow_le_mono_r; lia). lia. }
    assert (1 <= digits10 (Z.abs v)) by apply Hdig.
    rewrite uint_small by (case_ints; lia).
    assert (dstlen <= digits10 (Z.abs v) + (if v <? 0 then 1 else 0)) as Hle.
    { etransitivity; [done|]. case_ints; simpl; rewrite ?uint_small by lia;
        rewrite ?Z.add_0_r; apply Z.eq_le_incl; repeat f_equal; lia. }
    rewrite Z.geb_leb, (proj2 (Z.leb_le _ _)) by done. done.
Qed.

Lemma ll2string_correct_witness :
  exists s, ll2string (replicate 32 170) 32 (-9223372036854775808)
      = Some (s ++ 0 :: drop (S (length s)) (replicate 32 170), sdigits10 (-9223372036854775808)) /\
    is_decimal s (-9223372036854775808) /\ zlen s = sdigits10 (-9223372036854775808).
Proof.
  apply (ll2string_correct (replicate 32 170) 32 (-9223372036854775808));
    vm_compute; repeat split; discriminate.
Defined.

(** C33: the two conversions are inverse to each other: parsing what ll2string
    wrote gives the value back, and printing what string2ll parsed gives back
    the very same string. *)
Theorem ll2string_string2ll_roundtrip dst dstlen v s :
  in_s 64 v -> sdigits10 v < dstlen <= zlen dst ->
  ll2string dst dstlen v = Some (s ++ 0 :: drop (S (length s)) dst, zlen s) <->
  string2ll s = Some v.
Proof.
  intros Hv [Hlt Hle]. rewrite string2ll_iff.
  destruct (ll2string_spec dst dstlen v) as (s' & post & -> & Hs' & Hz & ->); [done..|]. split.
  - intros [= E1 E2]. assert (s' = s) as <-; [|done].
    apply (f_equal (take (length s))) in E1.
    rewrite (take_app_length' s), (take_app_length' s') in E1 by (unfold zlen in *; lia). done.
  - intros [_ Hs]. by rewrite (is_decimal_inj s s' v).
Qed.

Lemma ll2string_string2ll_roundtrip_witness :
  ll2string (replicate 8 7) 8 (-42) = Some (str "-42" ++ 0 :: drop 4 (replicate 8 7), 3) <->
  string2ll (str "-42") = Some (-42).
Proof.
  apply (ll2string_string2ll_roundtrip (replicate 8 7) 8 (-42) (str "-42"));
    vm_compute; repeat split; discriminate.
Defined.

(** ** memtoll *)

(** The unit suffixes, lower case, with their multipliers. *)
Definition memory_units : list (bytes * Z) := Eval vm_compute in
  [([], 1); (str "b", 1); (str "k", 1000); (str "kb", 1024); (str "m", 1000000);
   (str "mb", 1048576); (str "g", 1000000000); (str "gb", 1073741824)].

Lemma span_digits_app ds u :
  Forall is_digit ds -> (forall c, head u = Some c -> ~ is_digit c) -> span_digits (ds ++ u) = (ds, u).
Proof.
  intros Hds Hu. induction Hds as [|c ds Hc Hds IH]; simpl.
  - destruct u as [|c u]; [done|]. simpl. unfold isdigit.
    specialize (Hu c eq_refl). unfold is_digit in Hu. by replace ((48 <=? c) && (c <=? 57)) with false by lia.
  - unfold isdigit. unfold is_digit in Hc. replace ((48 <=? c) && (c <=? 57)) with true by lia.
    by rewrite IH.
Qed.

Lemma decimal_length_bound s n : in_s 64 n -> is_decimal s n -> zlen s < 128.
Proof.
  intros Hn Hs. enough (forall ds, canonical_digits ds -> horner ds <= 2 ^ 63 -> zlen ds < 100) as H.
  { unfold is_decimal in Hs. case_ints_in Hs.
    - destruct Hs as (ds & -> & Hc & Hh). rewrite zlen_cons. specialize (H ds Hc). lia.
    - destruct Hs as [Hc Hh]. specialize (H s Hc). lia. }
  intros ds Hc Hh. destruct (canonical_has_digits ds Hc) as (_ & _ & [H|[-> _]]); [|lia].
  destruct (decide (zlen ds < 100)); [done|].
  assert (10 ^ 99 <= 10 ^ (zlen ds - 1)) by (apply Z.pow_le_mono_r; lia). lia.
Qed.

Lemma strtoll_decimal s n : in_s 64 n -> is_decimal s n -> strtoll s = (n, []).
Proof.
  intros Hn Hs. unfold is_decimal in Hs.
  assert (forall ds, Forall is_digit ds -> span_digits ds = (ds, [])) as Hsp.
  { intros ds Hd. rewrite <-(app_nil_r ds) at 1. by apply span_digits_app. }
  unfold strtoll, LLONG_MIN, LLONG_MAX. case_ints_in Hs.
  - destruct Hs as (ds & -> & Hc & Hh). rewrite Hsp by apply Hc.
    destruct ds as [|d ds]; [by destruct Hc|].
    change (digits_value (d :: ds)) with (horner (d :: ds)). rewrite Hh. f_equal. lia.
  - destruct Hs as [Hc Hh].
    assert (match s with 45 :: p => (true, p) | _ => (false, s) end = (false, s)) as ->.
    { destruct s as [|c s]; [done|]. destruct Hc as (_ & [Hd _]%Forall_cons & _).
      unfold is_digit in Hd. destruct (decide (c = 45)); [lia|].
      repeat (case_match; try done; try lia). }
    rewrite Hsp by apply Hc. destruct s as [|d ds]; [by destruct Hc|].
    change (digits_value (d :: ds)) with (horner (d :: ds)). rewrite Hh. f_equal. lia.
Qed.

Lemma memtoll_split s u n :
  is_decimal s n -> (forall c, head u = Some c -> ~ is_digit c) ->
  exists sign ds, s = sign ++ ds /\
    (let '(sign, q) := match s ++ u with 45 :: q => ([45], q) | _ => ([], s ++ u) end in
     (sign, span_digits q)) = (sign, (ds, u)).
Proof.
  intros Hs Hu. unfold is_decimal in Hs. case_ints_in Hs.
  - destruct Hs as (ds & -> & Hc & _). exists [45], ds. split; [done|]. simpl.
    by rewrite span_digits_app by (done || apply Hc).
  - destruct Hs as [Hc _]. exists [], s. split; [done|].
    assert (match s ++ u with 45 :: q => ([45], q) | _ => ([], s ++ u) end = ([], s ++ u)) as ->.
    { destruct s as [|c s]; [by destruct Hc|]. destruct Hc as (_ & [Hd _]%Forall_cons & _).
      unfold is_digit in Hd. simpl. repeat (case_match; try done; try lia). }
    by rewrite span_digits_app by (done || apply Hc).
Qed.

(** memtoll reads a decimal number followed by one of the units b, k, kb,
    m, mb, g, gb in either case, or by nothing, as the number times the
    multiplier of the unit. *)
Theorem memtoll_correct s n u m :
  is_decimal s n -> (tolower <$> u, m) ∈ memory_units -> in_s 64 (n * m) ->
  memtoll (s ++ u) = Some (n * m).
Proof.
  intros Hs Hu Hr.
  assert (in_s 64 n /\ 0 < m) as [Hn Hm].
  { unfold memory_units in Hu. rewrite !elem_of_cons in Hu.
    destruct_or! Hu; try (injection Hu as _ ->; lia). by apply elem_of_nil in Hu. }
  assert (forall c, head u = Some c -> ~ is_digit c) as Hhd.
  { intros c Hc. destruct u as [|c' u]; [done|]. injection Hc as ->. unfold is_digit. intros Hd.
    rewrite fmap_cons in Hu. unfold tolower at 1 in Hu.
    replace ((65 <=? c) && (c <=? 90)) with false in Hu by lia.
    unfold memory_units in Hu. rewrite !elem_of_cons in Hu.
    destruct_or! Hu; try (injection Hu as Hu; lia); try done. by apply elem_of_nil in Hu. }
  unfold memtoll. destruct (memtoll_split s u n Hs Hhd) as (sign & ds & Es & E).
  destruct (match s ++ u with 45 :: q => ([45], q) | _ => ([], s ++ u) end) as [sg q].
  injection E as -> ->.
  assert ((if bool_decide (u = []) || strcasecmp_eq u (str "b") then Some 1
         else if strcasecmp_eq u (str "k") then Some 1000
         else if strcasecmp_eq u (str "kb") then Some 1024
         else if strcasecmp_eq u (str "m") then Some (1000 * 1000)
         else if strcasecmp_eq u (str "mb") then Some (1024 * 1024)
         else if strcasecmp_eq u (str "g") then Some (1000 * 1000 * 1000)
         else if strcasecmp_eq u (str "gb") then Some (1024 * 1024 * 1024)
         else None) = Some m) as ->.
  { unfold strcasecmp_eq, memory_units in *. rewrite !elem_of_cons in Hu.
    assert (u = [] <-> tolower <$> u = []) as Hnil by (destruct u; done).
    rewrite (bool_decide_ext _ _ Hnil). destruct_or! Hu; try (injection Hu as -> ->; reflexivity).
    by apply elem_of_nil in Hu. }
  simpl. rewrite <-Es, Z.geb_leb, (proj2 (Z.leb_gt _ _)) by (by apply (decimal_length_bound s n)).
  rewrite (strtoll_decimal s n) by done. simpl. by rewrite sint_small.
Qed.

Lemma memtoll_correct_witness : memtoll (str "64" ++ str "Mb") = Some (64 * 1048576).
Proof.
  apply (memtoll_correct (str "64") 64 (str "Mb") 1048576).
  - apply string2ll_iff. vm_compute. reflexivity.
  - vm_compute. do 5 constructor 2. constructor 1.
  - vm_compute. repeat split; discriminate.
Defined.

(** ** Printing integers *)

(** [%lld] of printf. *)
Fixpoint print_digits (fuel : nat) (v : Z) (acc : bytes) : bytes :=
  match fuel with
  | O => acc
  | S fuel =>
    let acc := (48 + v mod 10) :: acc in
    if v <? 10 then acc else print_digits fuel (v / 10) acc
  end.
Definition print_lld (v : Z) : bytes :=
  if v <? 0 then 45 :: print_digits 20 (- v) [] else print_digits 20 v [].

Lemma print_digits_spec fuel v acc :
  0 <= v < 10 ^ Z.of_nat fuel -> (0 < fuel)%nat ->
  exists ds, print_digits fuel v acc = ds ++ acc /\ canonical_digits ds /\ horner ds = v.
Proof.
  revert v acc. induction fuel as [|fuel IH]; intros v acc Hv Hf; [lia|]. cbn [print_digits].
  pose proof (Z.mod_pos_bound v 10 ltac:(lia)) as Hm. pose proof (Z.div_mod v 10 ltac:(lia)) as Hd.
  destruct (Z.ltb_spec v 10).
  - rewrite Z.mod_small by lia. exists [48 + v]. split; [done|]. unfold canonical_digits, is_digit, horner. simpl.
    split; [|lia]. split; [done|]. split; [|by intros [= ->]]. constructor; [lia|done].
  - assert (10 ^ Z.of_nat (S fuel) = 10 * 10 ^ Z.of_nat fuel) as E by (rewrite Nat2Z.inj_succ, Z.pow_succ_r; lia).
    destruct fuel as [|fuel]; [change (10 ^ Z.of_nat 1) with 10 in Hv; lia|].
    destruct (IH (v / 10) ((48 + v mod 10) :: acc)) as (ds & -> & (Hne & Hds & H0) & Hh); [lia|lia|].
    exists (ds ++ [48 + v mod 10]). rewrite <-app_assoc. split; [done|].
    rewrite horner_app, Hh. change (horner [48 + v mod 10]) with (48 + v mod 10 - 48).
    change (zlen [48 + v mod 10]) with 1. split; [|lia]. split_and!.
    + by destruct ds.
    + apply Forall_app. split; [done|]. constructor; [unfold is_digit; lia|done].
    + destruct ds as [|d ds]; [done|]. simpl. intros [= ->]. specialize (H0 eq_refl).
      injection H0 as ->. change (horner [48]) with 0 in Hh. lia.
Qed.

Lemma print_lld_decimal v : in_s 64 v -> is_decimal (print_lld v) v.
Proof.
  intros Hv. unfold print_lld, is_decimal. destruct (Z.ltb_spec v 0).
  - destruct (print_digits_spec 20 (- v) []) as (ds & -> & Hc & Hh); [simpl; lia|lia|].
    rewrite app_nil_r. by exists ds.
  - destruct (print_digits_spec 20 v []) as (ds & -> & Hc & Hh); [simpl; lia|lia|].
    by rewrite app_nil_r.
Qed.

Lemma print_string2ll s v : string2ll s = Some v -> print_lld v = s /\ in_s 64 v.
Proof.
  intros [Hv Hd]%string2ll_iff. split; [|done]. eapply is_decimal_inj; [|done]. by apply print_lld_decimal.
Qed.


Lemma print_lld_string2ll v : in_s 64 v -> string2ll (print_lld v) = Some v.
Proof. intros Hv. apply string2ll_iff. split; [done|]. by apply print_lld_decimal. Qed.

Lemma print_digits_digits fuel v acc :
  Forall is_digit acc -> 0 <= v -> Forall is_digit (print_digits fuel v acc).
Proof.
  revert v acc. induction fuel as [|fuel IH]; intros v acc Ha Hv; [done|]. cbn [print_digits].
  pose proof (Z.mod_pos_bound v 10 ltac:(lia)). assert (Forall is_digit ((48 + v mod 10) :: acc)) as Ha'
    by (constructor; [unfold is_digit; lia|done]).
  destruct (v <? 10); [done|]. apply IH; [done|]. apply Z.div_pos; lia.
Qed.

(** The text ll2string writes into a buffer of [size] bytes. *)
Definition ll2string_text (size : nat) (v : Z) : option bytes :=
  '(dst, n) ← ll2string (replicate size 0) (Z.of_nat size) v; mload dst 0 n.

Lemma sdigits10_le v : in_s 64 v -> sdigits10 v <= 20.
Proof.
  intros Hv. assert (forall u, 0 <= u <= 2 ^ 63 -> digits10 u <= 19) as H19.
  { intros u Hu. destruct (decide (digits10 u <= 19)); [done|].
    destruct (digits10_spec u) as (_ & _ & [Hdig|[? _]]); [lia| |lia].
    assert (10 ^ 19 <= 10 ^ (digits10 u - 1)) by (apply Z.pow_le_mono_r; lia). lia. }
  unfold sdigits10, LLONG_MIN, LLONG_MAX. case_ints; simpl; rewrite ?uint_small by lia.
  - pose proof (H19 (2 ^ 63 - 1 + 1)). lia.
  - pose proof (H19 (- v)). lia.
  - pose proof (H19 v). lia.
Qed.

Lemma print_lld_length v : in_s 64 v -> zlen (print_lld v) = sdigits10 v.
Proof.
  intros Hv. pose proof (sdigits10_le v Hv).
  destruct (ll2string_spec (replicate 32 0) 32 v) as (s & post & _ & Hdec & <- & _); [done|done|lia|].
  f_equal. eapply is_decimal_inj; [|exact Hdec]. by apply print_lld_decimal.
Qed.

Lemma ll2string_text_spec size v : (21 <= size)%nat -> in_s 64 v -> ll2string_text size v = Some (print_lld v).
Proof.
  intros Hs Hv. unfold ll2string_text. pose proof (sdigits10_le v Hv) as Hd.
  destruct (ll2string_spec (replicate size 0) (Z.of_nat size) v) as (s & post & -> & Hdec & _); [done| |lia|].
  { unfold zlen. rewrite length_replicate. done. }
  cbn [mbind option_bind]. replace (s ++ 0 :: post) with ([] ++ s ++ 0 :: post) by done.
  rewrite mload_app by done. f_equal. eapply is_decimal_inj; [exact Hdec|]. by apply print_lld_decimal.
Qed.
