(* ===== verification/Glob.v ===== *)
(** * util.c: glob-style pattern matching (stringmatchlen)

    The function behind KEYS, SCAN MATCH, PSUBSCRIBE and CONFIG GET.  Pattern
    and string are lists of bytes; the pattern is followed by a NUL byte, as
    every sds string is, which is what reads past its last byte return.  The
    relation [glob] defines the pattern language declaratively; the theorems
    show that the function terminates and decides it on non-empty strings. *)

From S2P Require Import Prelude Util.

(** A [char] as the signed integer it converts to. *)
Definition char_int (c : Z) : Z := s8 c.

(** Equality of two characters, up to case when [nocase]. *)
Definition char_eq (nocase : bool) (a c : Z) : bool :=
  if negb nocase then a =? c else tolower (char_int a) =? tolower (char_int c).

(** [c] in the range given by its two ends in either order. *)
Definition in_range (nocase : bool) (a b c : Z) : bool :=
  let start := char_int a in
  let stop := char_int b in
  let c := char_int c in
  let '(start, stop) := if start >? stop then (stop, start) else (start, stop) in
  let '(start, stop, c) :=
    if nocase then (tolower start, tolower stop, tolower c) else (start, stop, c) in
  (c >=? start) && (c <=? stop).

(** [while (patternLen && pattern[1] == '*')] *)
Fixpoint skip_stars (p : bytes) : bytes :=
  match p with
  | _ :: (q0 :: _) as q => if q0 =? 42 then skip_stars q else p
  | _ => p
  end.

(** [while( *pattern == '*')] *)
Fixpoint drop_stars (p : bytes) : bytes :=
  match p with
  | p0 :: q => if p0 =? 42 then drop_stars q else p
  | [] => []
  end.

(** The loop over the body of a bracket expression, for the character [c];
    returns the flag [match] and the pattern after the closing bracket (after
    its last byte when the bracket is not closed). *)
Fixpoint class_loop (fuel : nat) (nocase : bool) (p : bytes) (c : Z) (mtch : bool)
    : option (bool * bytes) :=
  match fuel with
  | O => None
  | S fuel =>
    let p0 := hd 0 p in
    if (p0 =? 92) && (zlen p >=? 2) then
      let p := tl p in
      class_loop fuel nocase (tl p) c (if hd 0 p =? c then true else mtch)
    else if p0 =? 93 then Some (mtch, tl p)
    else if zlen p =? 0 then Some (mtch, [])
    else if (zlen p >=? 3) && (hd 0 (tl p) =? 45) then
      class_loop fuel nocase (drop 3 p) c
        (if in_range nocase p0 (hd 0 (drop 2 p)) c then true else mtch)
    else
      class_loop fuel nocase (tl p) c (if char_eq nocase p0 c then true else mtch)
  end.

(** The inner loop of the '*' case: try every non-empty suffix. *)
Fixpoint star_loop (rec : bytes -> option bool) (s : bytes) : option bool :=
  match s with
  | [] => Some false
  | _ :: s' =>
    r ← rec s;
    if r : bool then Some true else star_loop rec s'
  end.

Fixpoint stringmatchlen_rec (fuel : nat) (nocase : bool) (p s : bytes) : option bool :=
  match fuel with
  | O => None
  | S fuel =>
    (* the end of the loop body, reached with [string] already advanced *)
    let next (p s : bytes) : option bool :=
      let p := tl p in
      if zlen s =? 0 then Some ((zlen (drop_stars p) =? 0) && (zlen s =? 0))
      else stringmatchlen_rec fuel nocase p s in
    match p, s with
    | p0 :: p1, c :: s1 =>
      if p0 =? 42 then
        let p := skip_stars p in
        if zlen p =? 1 then Some true
        else star_loop (stringmatchlen_rec fuel nocase (tl p)) s
      else if p0 =? 63 then next p s1
      else if p0 =? 91 then
        let not := hd 0 p1 =? 94 in
        let p := if not then tl p1 else p1 in
        '(mtch, rest) ← class_loop (S (length p)) nocase p c false;
        let mtch := if not then negb mtch else mtch in
        if negb mtch then Some false
        else next (0 :: rest) s1
      else
        let p := if (p0 =? 92) && (zlen p >=? 2) then p1 else p in
        if char_eq nocase (hd 0 p) c then next p s1 else Some false
    | _, _ => Some ((zlen p =? 0) && (zlen s =? 0))
    end
  end.

Definition stringmatchlen (p s : bytes) (nocase : bool) : option bool :=
  stringmatchlen_rec (S (length p)) nocase p s.

Definition stringmatch (p s : bytes) (nocase : bool) : option bool :=
  stringmatchlen p s nocase.

(** ** The pattern language *)

Inductive item :=
  | Exact (x : Z)      (** an escaped character *)
  | Range (a b : Z)
  | Char (a : Z).

Definition item_matches (nocase : bool) (c : Z) (i : item) : bool :=
  match i with
  | Exact x => x =? c
  | Range a b => in_range nocase a b c
  | Char a => char_eq nocase a c
  end.

(** [class_items p items rest]: the bracket body [p] lists [items] and ends
    before [rest]; the end of the pattern closes the bracket. *)
Inductive class_items : bytes -> list item -> bytes -> Prop :=
  | class_close rest : class_items (93 :: rest) [] rest
  | class_end : class_items [] [] []
  | class_esc x p items rest :
      class_items p items rest -> class_items (92 :: x :: p) (Exact x :: items) rest
  | class_range a b p items rest :
      a <> 92 -> a <> 93 -> class_items p items rest ->
      class_items (a :: 45 :: b :: p) (Range a b :: items) rest
  | class_char a p items rest :
      a <> 93 -> (a = 92 -> p = []) -> (forall b q, p <> 45 :: b :: q) ->
      class_items p items rest -> class_items (a :: p) (Char a :: items) rest.

(** [glob nocase p s]: the pattern [p] matches the whole of [s]. *)
Inductive glob (nocase : bool) : bytes -> bytes -> Prop :=
  | glob_nil : glob nocase [] []
  | glob_star_none p s : glob nocase p s -> glob nocase (42 :: p) s
  | glob_star_one p c s : glob nocase (42 :: p) s -> glob nocase (42 :: p) (c :: s)
  | glob_any p c s : glob nocase p s -> glob nocase (63 :: p) (c :: s)
  | glob_class p items rest c s :
      hd 0 p <> 94 -> class_items p items rest ->
      existsb (item_matches nocase c) items = true ->
      glob nocase rest s -> glob nocase (91 :: p) (c :: s)
  | glob_class_not p items rest c s :
      class_items p items rest -> existsb (item_matches nocase c) items = false ->
      glob nocase rest s -> glob nocase (91 :: 94 :: p) (c :: s)
  | glob_esc x p c s :
      char_eq nocase x c = true -> glob nocase p s -> glob nocase (92 :: x :: p) (c :: s)
  | glob_char a p c s :
      a <> 42 -> a <> 63 -> a <> 91 -> (a = 92 -> p = []) ->
      char_eq nocase a c = true -> glob nocase p s -> glob nocase (a :: p) (c :: s).

(** ** Bracket expressions *)

Lemma class_items_fun p i r i' r' : class_items p i r -> class_items p i' r' -> i = i' /\ r = r'.
Proof.
  intros H. revert i' r'.
  induction H as [rest| |x p items rest H IH|a b p items rest H1 H2 H IH|a p items rest H1 H2 H3 H IH];
    intros i' r' H'; inversion H'; simplify_eq; try done;
    try (match goal with H : 92 = 92 -> _ |- _ => by specialize (H eq_refl) end);
    try (match goal with H : forall b q, _ :: _ :: _ <> _ |- _ => by destruct (H _ _ eq_refl) end);
    match goal with H : class_items _ _ _ |- _ => apply IH in H as [-> ->] end; done.
Qed.

Lemma class_loop_spec fuel nocase p c m :
  (length p < fuel)%nat ->
  exists items rest, class_items p items rest /\ (length rest <= length p)%nat /\
    class_loop fuel nocase p c m = Some (m || existsb (item_matches nocase c) items, rest).
Proof.
  revert p m. induction fuel as [|fuel IH]; intros p m Hp; [lia|].
  destruct p as [|p0 p].
  { exists [], []. split; [constructor|]. split; [done|]. simpl. by rewrite orb_false_r. }
  cbn [class_loop hd tl]. cbv zeta.
  destruct (Z.eqb_spec p0 92) as [->|H92]; [destruct p as [|x p]|].
  - edestruct (IH [] (if char_eq nocase 92 c then true else m)) as (items & rest & Hi & Hr & E);
      [simpl in *; lia|]. exists (Char 92 :: items), rest. split; [by constructor|].
    split; [simpl in *; lia|]. simpl in E |- *. rewrite E.
    destruct (char_eq nocase 92 c), m; simpl; done.
  - edestruct (IH p (if x =? c then true else m)) as (items & rest & Hi & Hr & E); [simpl in *; lia|].
    exists (Exact x :: items), rest. split; [by constructor|]. split; [simpl; lia|].
    rewrite Z.geb_leb, (proj2 (Z.leb_le _ _)) by (rewrite !zlen_cons; pose proof (zlen_nonneg p); lia).
    simpl. rewrite E. destruct (x =? c), m; done.
  - rewrite andb_false_l. destruct (Z.eqb_spec p0 93) as [->|H93].
    { exists [], p. split; [constructor|]. split; [simpl; lia|]. simpl. by rewrite orb_false_r. }
    rewrite (proj2 (Z.eqb_neq (zlen _) 0)) by (rewrite zlen_cons; pose proof (zlen_nonneg p); lia).
    destruct ((zlen (p0 :: p) >=? 3) && (hd 0 p =? 45)) eqn:Er.
    + destruct p as [|x [|y p]]; [done|done|].
      apply andb_prop in Er as [_ Er]. simpl in Er. apply Z.eqb_eq in Er as ->.
      edestruct (IH p (if in_range nocase p0 y c then true else m)) as (items & rest & Hi & Hr & E);
        [simpl in *; lia|].
      exists (Range p0 y :: items), rest. split; [by constructor|]. split; [simpl; lia|].
      simpl. rewrite drop_0, E. destruct (in_range nocase p0 y c), m; done.
    + edestruct (IH p (if char_eq nocase p0 c then true else m)) as (items & rest & Hi & Hr & E);
        [simpl in *; lia|].
      exists (Char p0 :: items), rest. split.
      { constructor; [done|done| |done]. intros b q ->. rewrite !zlen_cons in Er.
        pose proof (zlen_nonneg q). simpl in Er. lia. }
      split; [simpl; lia|]. rewrite E. simpl. destruct (char_eq nocase p0 c), m; done.
Qed.

(** ** Stars *)

Section glob_facts.
Context (nocase : bool).
Implicit Types p s : bytes.

(** A leading star absorbs any prefix. *)
Lemma glob_star p s : glob nocase (42 :: p) s <-> exists s1 s2, s = s1 ++ s2 /\ glob nocase p s2.
Proof.
  split.
  - intros H. remember (42 :: p) as q eqn:Eq.
    induction H; simplify_eq; try done.
    + by exists [], s.
    + destruct (IHglob eq_refl) as (s1 & s2 & -> & Hg). by exists (c :: s1), s2.
  - intros (s1 & s2 & -> & Hg). induction s1; simpl; by constructor.
Qed.

Lemma glob_star_star p s : glob nocase (42 :: 42 :: p) s <-> glob nocase (42 :: p) s.
Proof.
  split; [|by constructor]. rewrite (glob_star (42 :: p)). intros (s1 & s2 & -> & Hg).
  apply glob_star in Hg as (s3 & s4 & -> & Hg). apply glob_star. exists (s1 ++ s3), s4.
  by rewrite app_assoc.
Qed.

Lemma skip_stars_spec p :
  exists q, skip_stars (42 :: p) = 42 :: q /\ hd 0 q <> 42 /\ (length q <= length p)%nat /\
    (forall s, glob nocase (42 :: p) s <-> glob nocase (42 :: q) s).
Proof.
  induction p as [|p0 p IH]; [by exists []|]. cbn [skip_stars].
  destruct (Z.eqb_spec p0 42) as [->|Hn].
  - destruct IH as (q & E & Hq & Hl & Hg). exists q. split; [done|]. split; [done|].
    split; [simpl; lia|]. intros s. rewrite glob_star_star. apply Hg.
  - exists (p0 :: p). done.
Qed.

(** On the empty string only stars match. *)
Lemma glob_empty p : glob nocase p [] <-> drop_stars p = [].
Proof.
  induction p as [|p0 p IH]; simpl; [split; [done|constructor]|].
  destruct (Z.eqb_spec p0 42) as [->|Hn].
  - rewrite <-IH. split; [inversion 1; by simplify_eq|by constructor].
  - split; [inversion 1; by simplify_eq|done].
Qed.

Lemma star_loop_spec (rec : bytes -> option bool) p s :
  (forall s', s' <> [] -> exists b, rec s' = Some b /\ (b = true <-> glob nocase p s')) ->
  exists b, star_loop rec s = Some b /\
    (b = true <-> exists s1 s2, s = s1 ++ s2 /\ s2 <> [] /\ glob nocase p s2).
Proof.
  intros Hrec. induction s as [|c s IH]; cbn [star_loop].
  { exists false. split; [done|]. split; [done|]. intros (s1 & s2 & E & Hne & _).
    symmetry in E. by apply app_nil in E as [_ ->]. }
  destruct (Hrec (c :: s)) as (b & -> & Hb); [done|]. simpl. destruct b.
  { exists true. split; [done|]. split; [|done]. intros _. exists [], (c :: s).
    split; [done|]. split; [done|]. by apply Hb. }
  destruct IH as (b & -> & Hb'). exists b. split; [done|]. rewrite Hb'. split.
  - intros (s1 & s2 & -> & Hne & Hg). by exists (c :: s1), s2.
  - intros ([|x s1] & s2 & E & Hne & Hg); simplify_eq/=; [apply Hb in Hg; done|eauto].
Qed.

(** What one step of the main loop leaves to match. *)
Lemma next_spec fuel p s :
  (s <> [] -> exists b, stringmatchlen_rec fuel nocase p s = Some b /\ (b = true <-> glob nocase p s)) ->
  exists b,
    (if zlen s =? 0 then Some ((zlen (drop_stars p) =? 0) && (zlen s =? 0))
     else stringmatchlen_rec fuel nocase p s) = Some b /\ (b = true <-> glob nocase p s).
Proof.
  intros H. destruct s as [|c s].
  - simpl. eexists. split; [done|]. rewrite glob_empty, andb_true_r.
    destruct (drop_stars p); [done|]. rewrite zlen_cons. split; [|done].
    pose proof (zlen_nonneg l). lia.
  - rewrite (proj2 (Z.eqb_neq _ _)) by (rewrite zlen_cons; pose proof (zlen_nonneg s); lia).
    by apply H.
Qed.

(** Inversion of [glob] on the first pattern character, following the code. *)
Lemma glob_any_inv p c s : glob nocase (63 :: p) (c :: s) <-> glob nocase p s.
Proof. split; [inversion 1; by simplify_eq|by constructor]. Qed.

Lemma glob_class_inv p c s items rest :
  class_items (if hd 0 p =? 94 then tl p else p) items rest ->
  glob nocase (91 :: p) (c :: s) <->
    (if hd 0 p =? 94 then negb (existsb (item_matches nocase c) items)
     else existsb (item_matches nocase c) items) = true /\ glob nocase rest s.
Proof.
  intros Hi. split.
  - inversion 1; simplify_eq; simpl in *.
    + rewrite (proj2 (Z.eqb_neq _ _)) in * by done.
      match goal with H : class_items p _ _ |- _ =>
        destruct (class_items_fun _ _ _ _ _ Hi H) as [-> ->] end; done.
    + match goal with H : class_items p0 _ _ |- _ =>
        destruct (class_items_fun _ _ _ _ _ Hi H) as [-> ->] end.
      split; [|done]. by apply negb_true_iff.
  - intros [Hm Hg]. destruct (Z.eqb_spec (hd 0 p) 94) as [E|E]; [|by eapply glob_class].
    destruct p as [|p0 p]; [done|]. simpl in E. subst p0. apply negb_true_iff in Hm.
    by eapply glob_class_not.
Qed.

Lemma glob_literal_inv (p0 : Z) p c s :
  p0 <> 42 -> p0 <> 63 -> p0 <> 91 ->
  let q := if (p0 =? 92) && (zlen (p0 :: p) >=? 2) then p else p0 :: p in
  glob nocase (p0 :: p) (c :: s) <-> char_eq nocase (hd 0 q) c = true /\ glob nocase (tl q) s.
Proof.
  intros H1 H2 H3 q. subst q. destruct (Z.eqb_spec p0 92) as [->|H4]; [destruct p as [|x p]|].
  - simpl. split; [inversion 1; by simplify_eq|]. intros [? ?]. by constructor.
  - rewrite Z.geb_leb, (proj2 (Z.leb_le _ _)) by (rewrite !zlen_cons; pose proof (zlen_nonneg p); lia).
    simpl. split; [|intros [? ?]; by constructor]. inversion 1; simplify_eq; [done|].
    by match goal with H : 92 = 92 -> _ |- _ => specialize (H eq_refl) end.
  - simpl. split; [inversion 1; by simplify_eq|]. intros [? ?]. by constructor.
Qed.

Lemma stringmatchlen_rec_spec fuel p s :
  (length p < fuel)%nat -> s <> [] ->
  exists b, stringmatchlen_rec fuel nocase p s = Some b /\ (b = true <-> glob nocase p s).
Proof.
  revert p s. induction fuel as [|fuel IH]; intros p s Hp Hs; [lia|].
  destruct s as [|c s]; [done|]. destruct p as [|p0 p].
  { exists false. split; [simpl; f_equal; rewrite zlen_cons; pose proof (zlen_nonneg s); lia|].
    split; [done|]. inversion 1. }
  simpl in Hp. cbn [stringmatchlen_rec]. cbv zeta.
  destruct (Z.eqb_spec p0 42) as [->|H42].
  { destruct (skip_stars_spec p) as (q & -> & Hq & Hl & Hg). setoid_rewrite Hg. cbn [tl].
    destruct q as [|q0 q].
    - exists true. split; [done|]. split; [|done]. intros _. apply glob_star.
      exists (c :: s), []. rewrite app_nil_r. split; [done|constructor].
    - rewrite (proj2 (Z.eqb_neq _ _)) by (rewrite !zlen_cons; pose proof (zlen_nonneg q); lia).
      destruct (star_loop_spec (stringmatchlen_rec fuel nocase (q0 :: q)) (q0 :: q) (c :: s))
        as (b & -> & Hb); [intros; apply IH; [lia|done]|].
      exists b. split; [done|]. rewrite Hb, glob_star. split; intros (s1 & s2 & H); exists s1, s2.
      + naive_solver.
      + destruct H as [E H]. split_and!; [done| |done]. intros ->. apply glob_empty in H.
        simpl in H, Hq. by rewrite (proj2 (Z.eqb_neq _ _)) in H. }
  destruct (Z.eqb_spec p0 63) as [->|H63].
  { setoid_rewrite glob_any_inv. apply next_spec. intros. apply IH; [lia|done]. }
  destruct (Z.eqb_spec p0 91) as [->|H91].
  { set (q := if hd 0 p =? 94 then tl p else p).
    assert (length q <= length p)%nat as Hql by (subst q; destruct p, (_ =? _); simpl; lia).
    destruct (class_loop_spec (S (length q)) nocase q c false) as (items & rest & Hi & Hr & ->); [lia|].
    setoid_rewrite (glob_class_inv p c s items rest Hi). simpl.
    destruct (if hd 0 p =? 94 then negb _ else _); simpl;
      [|exists false; split; [done|]; naive_solver].
    destruct (next_spec fuel rest s) as (b & E & Hb); [intros; apply IH; [lia|done]|].
    exists b. split; [exact E|]. rewrite Hb. naive_solver. }
  setoid_rewrite (glob_literal_inv p0 p c s); [|done..]. cbv zeta.
  set (q := if (p0 =? 92) && _ then p else _).
  assert (length (tl q) <= length p)%nat as Hql
    by (subst q; destruct (_ && _); [destruct p|]; simpl; lia).
  destruct (char_eq nocase (hd 0 q) c); [|by exists false; split; [done|]; naive_solver].
  destruct (next_spec fuel (tl q) s) as (b & E & Hb); [intros; apply IH; [lia|done]|].
  exists b. split; [exact E|]. rewrite Hb. naive_solver.
Qed.

End glob_facts.

(** ** Properties *)

(** C20: stringmatchlen terminates on every pattern and every non-empty string,
    and returns 1 exactly when the pattern language matches the string. *)
Theorem stringmatchlen_decides_glob p s nocase :
  s <> [] ->
  exists b, stringmatchlen p s nocase = Some b /\ (b = true <-> glob nocase p s).
Proof. intros Hs. apply stringmatchlen_rec_spec; [lia|done]. Qed.

Lemma stringmatchlen_decides_glob_witness :
  exists b, stringmatchlen (str "h[^a-c]l*\o") (str "hello") false = Some b /\
    (b = true <-> glob false (str "h[^a-c]l*\o") (str "hello")).
Proof. apply stringmatchlen_decides_glob. discriminate. Defined.

(** on the empty string stringmatchlen returns 1 for the empty pattern only:
    the pattern "*" does not match it, although the pattern language lets stars
    match an empty string. *)
Theorem stringmatchlen_empty_string nocase p :
  stringmatchlen p [] nocase = Some (bool_decide (p = [])) /\
  (glob nocase p [] <-> drop_stars p = []).
Proof.
  split; [|apply glob_empty]. unfold stringmatchlen. by destruct p.
Qed.

Example glob_ex1 : stringmatchlen (str "h[^a-c]l*\o") (str "hello") false = Some true.
Proof. vm_compute. reflexivity. Qed.
Example glob_ex2 : stringmatchlen (str "*") [] false = Some false.
Proof. vm_compute. reflexivity. Qed.
Example glob_ex3 : stringmatchlen (str "[^") (str "x") false = Some true.
Proof. vm_compute. reflexivity. Qed.
