(* ===== verification/Dict.v ===== *)
(** * dict.c: hash tables with incremental rehashing

    A dictionary is two hash tables; while it is rehashing, entries move bucket
    by bucket from the first to the second.  The callbacks of [dictType] are
    the variables of the section: the hash function, the key comparison and the
    optional expandAllowed; keys and values are not duplicated (keyDup and
    valDup are NULL).  A bucket is the list of its entries, head first.  A
    result [None] stands for a NULL dereference, an access outside a table or a
    failed assertion.  [dict_wf] is the invariant of the structure and [to_map]
    the finite map it implements; every operation is shown to preserve the one
    and to act on the other as its documentation says. *)

From S2P Require Import Prelude.

Definition DICT_HT_INITIAL_SIZE : Z := 4.
Definition LONG_MAX : Z := 2 ^ 63 - 1.
Definition dict_force_resize_ratio : Z := 5.

(** The size of a pointer to an entry. *)
Definition sizeof_dictEntryp : Z := 8.

Record dictht (K V : Type) := mk_ht {
  ht_table : option (list (list (K * V)));   (** [None] is NULL *)
  ht_size : Z;
  ht_sizemask : Z;
  ht_used : Z;
}.
Arguments mk_ht {K V}.
Arguments ht_table {K V}.
Arguments ht_size {K V}.
Arguments ht_sizemask {K V}.
Arguments ht_used {K V}.

Record dict (K V : Type) := mk_dict {
  ht0 : dictht K V;
  ht1 : dictht K V;
  rehashidx : Z;
  pauserehash : Z;
}.
Arguments mk_dict {K V}.
Arguments ht0 {K V}.
Arguments ht1 {K V}.
Arguments rehashidx {K V}.
Arguments pauserehash {K V}.

Section dict.
Context {K V : Type} `{Countable K}.

Abbreviation entry := (K * V)%type.

(** Field updates. *)
Definition set_table (t : dictht K V) (tb : list (list entry)) : dictht K V :=
  mk_ht (Some tb) (ht_size t) (ht_sizemask t) (ht_used t).
Definition add_used (t : dictht K V) (n : Z) : dictht K V :=
  mk_ht (ht_table t) (ht_size t) (ht_sizemask t) (u64 (ht_used t + n)).
Definition set_ht0 (d : dict K V) (t : dictht K V) : dict K V :=
  mk_dict t (ht1 d) (rehashidx d) (pauserehash d).
Definition set_ht1 (d : dict K V) (t : dictht K V) : dict K V :=
  mk_dict (ht0 d) t (rehashidx d) (pauserehash d).
Definition set_rehashidx (d : dict K V) (i : Z) : dict K V :=
  mk_dict (ht0 d) (ht1 d) i (pauserehash d).
Definition set_pauserehash (d : dict K V) (i : Z) : dict K V :=
  mk_dict (ht0 d) (ht1 d) (rehashidx d) i.

(** [d->ht[table]] *)
Definition get_ht (d : dict K V) (table : bool) : dictht K V := if table then ht1 d else ht0 d.
Definition set_ht (d : dict K V) (table : bool) (t : dictht K V) : dict K V :=
  if table then set_ht1 d t else set_ht0 d t.

(** [ht->table[idx]], read and written. *)
Definition bucket (t : dictht K V) (idx : Z) : option (list entry) :=
  tb ← ht_table t; if idx <? 0 then None else tb !! Z.to_nat idx.
Definition set_bucket (t : dictht K V) (idx : Z) (b : list entry) : option (dictht K V) :=
  tb ← ht_table t; _ ← bucket t idx; Some (set_table t (<[Z.to_nat idx := b]> tb)).

Definition _dictReset : dictht K V := mk_ht None 0 0 0.
Definition _dictInit : dict K V := mk_dict _dictReset _dictReset (-1) 0.
Definition dictCreate : dict K V := _dictInit.

Definition dictIsRehashing (d : dict K V) : bool := negb (rehashidx d =? -1).
Definition dictSize (d : dict K V) : Z := u64 (ht_used (ht0 d) + ht_used (ht1 d)).
Definition dictSlots (d : dict K V) : Z := u64 (ht_size (ht0 d) + ht_size (ht1 d)).
(** pauserehash is an int16_t. *)
Definition dictPauseRehashing (d : dict K V) : dict K V := set_pauserehash d (s16 (pauserehash d + 1)).
Definition dictResumeRehashing (d : dict K V) : dict K V := set_pauserehash d (s16 (pauserehash d - 1)).

(** The loop doubling [i] until it reaches [size]. *)
Fixpoint nextPower_loop (fuel : nat) (i size : Z) : Z :=
  match fuel with
  | O => i
  | S fuel => if i >=? size then i else nextPower_loop fuel (u64 (i * 2)) size
  end.

Definition _dictNextPower (size : Z) : Z :=
  if size >=? LONG_MAX then LONG_MAX + 1
  else nextPower_loop 64 DICT_HT_INITIAL_SIZE size.

(** [alloc] tells whether ztrycalloc succeeds; it is only consulted when
    [try] (malloc_failed is not NULL).  Returns the dictionary, whether DICT_OK
    was returned and the value of [*malloc_failed].  The product given to
    zcalloc is an unsigned long and wraps around: the table has as many buckets
    as there are pointers in that many bytes. *)
Definition _dictExpand (alloc : bool) (d : dict K V) (size : Z) (try : bool)
    : dict K V * bool * bool :=
  if dictIsRehashing d || (ht_used (ht0 d) >? size) then (d, false, false)
  else
    let realsize := _dictNextPower size in
    if realsize =? ht_size (ht0 d) then (d, false, false)
    else if try && negb alloc then (d, false, true)
    else
      let nbuckets := u64 (realsize * sizeof_dictEntryp) / sizeof_dictEntryp in
      let n := mk_ht (Some (replicate (Z.to_nat nbuckets) [])) realsize (u64 (realsize - 1)) 0 in
      match ht_table (ht0 d) with
      | None => (set_ht0 d n, true, false)
      | Some _ => (set_rehashidx (set_ht1 d n) 0, true, false)
      end.

Definition dictExpand (d : dict K V) (size : Z) : dict K V * bool :=
  let '(d, ok, _) := _dictExpand true d size false in (d, ok).

(** DICT_ERR only when the allocation failed. *)
Definition dictTryExpand (alloc : bool) (d : dict K V) (size : Z) : dict K V * bool :=
  let '(d, _, malloc_failed) := _dictExpand alloc d size true in (d, negb malloc_failed).

Definition dictResize (dict_can_resize : bool) (d : dict K V) : dict K V * bool :=
  if negb dict_can_resize || dictIsRehashing d then (d, false)
  else
    let minimal := ht_used (ht0 d) in
    let minimal := if minimal <? DICT_HT_INITIAL_SIZE then DICT_HT_INITIAL_SIZE else minimal in
    dictExpand d minimal.

Section callbacks.
Context (hashFunction : K -> Z).
Context (keyCompare : K -> K -> bool).
Context (expandAllowed : option (Z -> Z -> Z -> bool)).

(** [while(d->ht[0].table[d->rehashidx] == NULL)]; [inl d] is [return 1]. *)
Fixpoint skip_empty (fuel : nat) (d : dict K V) (empty_visits : Z)
    : option (dict K V + dict K V * Z) :=
  match fuel with
  | O => None
  | S fuel =>
    b ← bucket (ht0 d) (rehashidx d);
    match b with
    | [] =>
      let d := set_rehashidx d (rehashidx d + 1) in
      let empty_visits := empty_visits - 1 in
      if empty_visits =? 0 then Some (inl d) else skip_empty fuel d empty_visits
    | _ => Some (inr (d, empty_visits))
    end
  end.

(** Move the entries of one bucket to the second table. *)
Fixpoint move_bucket (de : list entry) (d : dict K V) : option (dict K V) :=
  match de with
  | [] => Some d
  | e :: nextde =>
    let h := Z.land (hashFunction e.1) (ht_sizemask (ht1 d)) in
    b ← bucket (ht1 d) h;
    t1 ← set_bucket (ht1 d) h (e :: b);
    let d := set_ht1 d (add_used t1 1) in
    let d := set_ht0 d (add_used (ht0 d) (-1)) in
    move_bucket nextde d
  end.

(** [while(n-- && d->ht[0].used != 0)]; the flag tells [return 1] inside. *)
Fixpoint rehash_loop (n : nat) (d : dict K V) (empty_visits : Z) : option (dict K V * bool) :=
  match n with
  | O => Some (d, false)
  | S n =>
    if ht_used (ht0 d) =? 0 then Some (d, false)
    else if negb (ht_size (ht0 d) >? u64 (rehashidx d)) then None
    else
      r ← skip_empty (S (Z.to_nat (ht_size (ht0 d)))) d empty_visits;
      match r with
      | inl d => Some (d, true)
      | inr (d, empty_visits) =>
        de ← bucket (ht0 d) (rehashidx d);
        d ← move_bucket de d;
        t0 ← set_bucket (ht0 d) (rehashidx d) [];
        rehash_loop n (set_rehashidx (set_ht0 d t0) (rehashidx d + 1)) empty_visits
      end
  end.

(** Returns 1 (true) when there are still keys to move. *)
Definition dictRehash (d : dict K V) (n : nat) : option (dict K V * bool) :=
  let empty_visits := s32 (Z.of_nat n * 10) in
  if negb (dictIsRehashing d) then Some (d, false)
  else
    '(d, early) ← rehash_loop n d empty_visits;
    if early : bool then Some (d, true)
    else if ht_used (ht0 d) =? 0 then
      Some (mk_dict (ht1 d) _dictReset (-1) (pauserehash d), false)
    else Some (d, true).

Definition _dictRehashStep (d : dict K V) : option (dict K V) :=
  if pauserehash d =? 0 then fst <$> dictRehash d 1 else Some d.

(** dictRehashMilliseconds: [elapsed] lists the readings of the clock after
    each round, relative to the start. *)
Fixpoint dictRehashMilliseconds_loop (elapsed : list Z) (d : dict K V) (ms rehashes : Z)
    : option (dict K V * Z) :=
  '(d, more) ← dictRehash d 100;
  if negb more then Some (d, rehashes)
  else match elapsed with
       | [] => Some (d, rehashes + 100)
       | t :: elapsed =>
         if t >? ms then Some (d, rehashes + 100)
         else dictRehashMilliseconds_loop elapsed d ms (rehashes + 100)
       end.

Definition dictRehashMilliseconds (elapsed : list Z) (d : dict K V) (ms : Z) : option (dict K V * Z) :=
  if pauserehash d >? 0 then Some (d, 0) else dictRehashMilliseconds_loop elapsed d ms 0.

Definition dictTypeExpandAllowed (d : dict K V) : bool :=
  match expandAllowed with
  | None => true
  | Some f => f (u64 (_dictNextPower (u64 (ht_used (ht0 d) + 1)) * sizeof_dictEntryp)) (ht_used (ht0 d)) (ht_size (ht0 d))
  end.

Definition _dictExpandIfNeeded (dict_can_resize : bool) (d : dict K V) : dict K V * bool :=
  if dictIsRehashing d then (d, true)
  else if ht_size (ht0 d) =? 0 then dictExpand d DICT_HT_INITIAL_SIZE
  else if (ht_used (ht0 d) >=? ht_size (ht0 d)) &&
          (dict_can_resize || (ht_used (ht0 d) / ht_size (ht0 d) >? dict_force_resize_ratio)) &&
          dictTypeExpandAllowed d
  then dictExpand d (u64 (ht_used (ht0 d) + 1))
  else (d, true).

(** Position of [key] in a chain: [key==he->key || dictCompareKeys(...)]. *)
Fixpoint chain_find (key : K) (he : list entry) : option (nat * V) :=
  match he with
  | [] => None
  | e :: next => if keyCompare key e.1 then Some (O, e.2) else prod_map S id <$> chain_find key next
  end.

(** Where an entry is: table, bucket, position in the chain. *)
Abbreviation loc := (bool * Z * nat)%type.

(** The search in one table: where the key is, if it is there, with its value. *)
Definition find_in (d : dict K V) (table : bool) (key : K) (hash : Z) : option (option (loc * V)) :=
  let idx := Z.land hash (ht_sizemask (get_ht d table)) in
  he ← bucket (get_ht d table) idx;
  Some ((fun '(n, v) => (table, idx, n, v)) <$> chain_find key he).

(** The loop over the two tables, shared by every lookup. *)
Definition find_loop (d : dict K V) (key : K) (hash : Z) : option (option (loc * V)) :=
  r ← find_in d false key hash;
  match r with
  | Some x => Some (Some x)
  | None => if negb (dictIsRehashing d) then Some None else find_in d true key hash
  end.

(** What _dictKeyIndex returns: an index, or -1 with [*existing]. *)
Inductive key_index :=
  | KeyIndex (idx : Z)
  | KeyExists (existing : loc)
  | KeyError.

Definition _dictKeyIndex (dict_can_resize : bool) (d : dict K V) (key : K) (hash : Z)
    : option (dict K V * key_index) :=
  let '(d, ok) := _dictExpandIfNeeded dict_can_resize d in
  if negb ok then Some (d, KeyError)
  else
    r ← find_loop d key hash;
    match r with
    | Some (l, _) => Some (d, KeyExists l)
    | None =>
      let table := dictIsRehashing d in
      Some (d, KeyIndex (Z.land hash (ht_sizemask (get_ht d table))))
    end.

(** dictAddRaw followed by dictSetVal on the entry it returns: [val] is the
    value the caller stores in the new entry. *)
Definition dictAddRaw (dict_can_resize : bool) (d : dict K V) (key : K) (val : V)
    : option (dict K V * key_index) :=
  d ← (if dictIsRehashing d then _dictRehashStep d else Some d);
  '(d, r) ← _dictKeyIndex dict_can_resize d key (hashFunction key);
  match r with
  | KeyIndex index =>
    let table := dictIsRehashing d in
    let ht := get_ht d table in
    b ← bucket ht index;
    ht ← set_bucket ht index ((key, val) :: b);
    Some (set_ht d table (add_used ht 1), r)
  | _ => Some (d, r)
  end.

Definition dictAdd (dict_can_resize : bool) (d : dict K V) (key : K) (val : V) : option (dict K V * bool) :=
  '(d, r) ← dictAddRaw dict_can_resize d key val;
  Some (d, match r with KeyIndex _ => true | _ => false end).

(** dictSetVal on an existing entry. *)
Definition set_val (d : dict K V) (l : loc) (val : V) : option (dict K V) :=
  let '(table, idx, n) := l in
  b ← bucket (get_ht d table) idx;
  e ← b !! n;
  t ← set_bucket (get_ht d table) idx (<[n := (e.1, val)]> b);
  Some (set_ht d table t).

(** [true] when the key was added from scratch. *)
Definition dictReplace (dict_can_resize : bool) (d : dict K V) (key : K) (val : V) : option (dict K V * bool) :=
  '(d, r) ← dictAddRaw dict_can_resize d key val;
  match r with
  | KeyIndex _ => Some (d, true)
  | KeyExists l => d ← set_val d l val; Some (d, false)
  | KeyError => None
  end.

(** The loop over the two tables of dictGenericDelete. *)
Definition delete_in (d : dict K V) (table : bool) (key : K) (h : Z) : option (dict K V * option entry) :=
  let idx := Z.land h (ht_sizemask (get_ht d table)) in
  he ← bucket (get_ht d table) idx;
  match chain_find key he with
  | Some (n, _) =>
    e ← he !! n;
    t ← set_bucket (get_ht d table) idx (take n he ++ drop (S n) he);
    Some (set_ht d table (add_used t (-1)), Some e)
  | None => Some (d, None)
  end.

Definition dictGenericDelete (d : dict K V) (key : K) : option (dict K V * option entry) :=
  if (ht_used (ht0 d) =? 0) && (ht_used (ht1 d) =? 0) then Some (d, None)
  else
    d ← (if dictIsRehashing d then _dictRehashStep d else Some d);
    let h := hashFunction key in
    '(d, r) ← delete_in d false key h;
    match r with
    | Some e => Some (d, Some e)
    | None => if negb (dictIsRehashing d) then Some (d, None) else delete_in d true key h
    end.

Definition dictDelete (d : dict K V) (key : K) : option (dict K V * bool) :=
  '(d, r) ← dictGenericDelete d key; Some (d, bool_decide (is_Some r)).

Definition dictUnlink (d : dict K V) (key : K) : option (dict K V * option entry) :=
  dictGenericDelete d key.

Definition dictFind (d : dict K V) (key : K) : option (dict K V * option (loc * V)) :=
  if dictSize d =? 0 then Some (d, None)
  else
    d ← (if dictIsRehashing d then _dictRehashStep d else Some d);
    r ← find_loop d key (hashFunction key);
    Some (d, r).

Definition dictFetchValue (d : dict K V) (key : K) : option (dict K V * option V) :=
  '(d, r) ← dictFind d key; Some (d, option_map snd r).

(** [for (i = 0; i < ht->size && ht->used > 0; i++)]: the entries freed, in
    order; the loop stops early once the count of entries reaches zero. *)
Fixpoint clear_loop (buckets : list (list entry)) (used : Z) : list entry :=
  match buckets with
  | [] => []
  | he :: buckets =>
    if used >? 0 then he ++ clear_loop buckets (u64 (used - zlen he)) else []
  end.

(** Returns the entries freed and the reset table. *)
Definition _dictClear (t : dictht K V) : list entry * dictht K V :=
  (clear_loop (default [] (ht_table t)) (ht_used t), _dictReset).

(** Returns the entries freed and the empty dictionary. *)
Definition dictEmpty (d : dict K V) : list entry * dict K V :=
  let '(f0, t0) := _dictClear (ht0 d) in
  let '(f1, t1) := _dictClear (ht1 d) in
  (f0 ++ f1, mk_dict t0 t1 (-1) 0).

(** The entries freed with the dictionary. *)
Definition dictRelease (d : dict K V) : list entry :=
  fst (_dictClear (ht0 d)) ++ fst (_dictClear (ht1 d)).

Definition dictGetHash (key : K) : Z := hashFunction key.

(** ** Invariant and abstraction *)

Definition buckets (t : dictht K V) : list (list entry) := default [] (ht_table t).
Definition entries (d : dict K V) : list entry := concat (buckets (ht0 d)) ++ concat (buckets (ht1 d)).
Definition to_map (d : dict K V) : gmap K V := list_to_map (entries d).

(** An allocated table: its size is a power of two, the counter counts its
    entries, and every entry is in the bucket its hash selects. *)
Record ht_ok (t : dictht K V) : Prop := {
  ok_table : is_Some (ht_table t);
  ok_size : exists k : nat, (2 <= k <= 63)%nat /\ ht_size t = 2 ^ Z.of_nat k;
  ok_length : zlen (buckets t) = ht_size t;
  ok_mask : ht_sizemask t = ht_size t - 1;
  ok_used : ht_used t = zlen (concat (buckets t));
  ok_hash : forall (i : nat) b e, buckets t !! i = Some b -> e ∈ b ->
    Z.land (hashFunction e.1) (ht_sizemask t) = Z.of_nat i;
}.

(** The dictionary: one table (or none), or two tables of which the first is
    empty below [rehashidx]; no key twice; fewer than 2^62 entries. *)
Record dict_wf (d : dict K V) : Prop := {
  wf_tables :
    if dictIsRehashing d then
      ht_ok (ht0 d) /\ ht_ok (ht1 d) /\ 0 <= rehashidx d < ht_size (ht0 d) /\
      (forall i : nat, Z.of_nat i < rehashidx d -> buckets (ht0 d) !! i = Some [])
    else ht1 d = _dictReset /\ (ht0 d = _dictReset \/ ht_ok (ht0 d));
  wf_nodup : NoDup (entries d).*1;
  wf_count : zlen (entries d) < 2 ^ 62;
}.

(** ** Buckets *)

Section facts.
Context (keyCompare_spec : forall a b, keyCompare a b = true <-> a = b).

Lemma concat_insert (tb : list (list entry)) (i : nat) b b' :
  tb !! i = Some b -> b ++ concat (<[i := b']> tb) ≡ₚ b' ++ concat tb.
Proof.
  intros Hi. rewrite insert_take_drop by (by eapply lookup_lt_Some).
  assert (concat tb = concat (take i tb) ++ b ++ concat (drop (S i) tb)) as ->
    by (by rewrite <-(take_drop_middle tb i b Hi) at 1; rewrite concat_app).
  rewrite concat_app. cbn [concat]. solve_Permutation.
Qed.

Lemma elem_of_concat (tb : list (list entry)) e :
  e ∈ concat tb <-> exists (i : nat) b, tb !! i = Some b /\ e ∈ b.
Proof.
  induction tb as [|b tb IH]; simpl.
  - rewrite elem_of_nil. split; [done|]. by intros (i & b & ? & _).
  - rewrite elem_of_app, IH. split.
    + intros [He|(i & b' & Hi & He)]; [by exists 0%nat, b|by exists (S i), b'].
    + intros ([|i] & b' & Hi & He); simplify_eq/=; [by left|right; eauto].
Qed.

Section table_facts.
Context {t : dictht K V} (T : ht_ok t).

Lemma ok_size_pos : 4 <= ht_size t /\ ht_size t <= 2 ^ 63.
Proof.
  destruct (ok_size _ T) as (k & Hk & ->). split.
  - change 4 with (2 ^ 2). apply Z.pow_le_mono_r; lia.
  - apply Z.pow_le_mono_r; lia.
Qed.

(** Masking a hash gives the remainder modulo the size, a valid index. *)
Lemma mask_mod h : Z.land h (ht_sizemask t) = h mod ht_size t.
Proof.
  rewrite (ok_mask _ T). destruct (ok_size _ T) as (k & _ & ->).
  rewrite <-Z.land_ones, Z.ones_equiv by lia. by rewrite Z.sub_1_r.
Qed.

Lemma mask_range h : 0 <= Z.land h (ht_sizemask t) < ht_size t.
Proof. rewrite mask_mod. apply Z.mod_pos_bound. pose proof ok_size_pos. lia. Qed.

Lemma bucket_lookup (i : nat) : bucket t (Z.of_nat i) = buckets t !! i.
Proof.
  unfold bucket, buckets. destruct (ok_table _ T) as [tb ->]. simpl.
  rewrite (proj2 (Z.ltb_ge _ _)) by lia. by rewrite Nat2Z.id.
Qed.

Lemma bucket_mask h :
  exists (i : nat) b, Z.land h (ht_sizemask t) = Z.of_nat i /\
    buckets t !! i = Some b /\ bucket t (Z.land h (ht_sizemask t)) = Some b.
Proof.
  pose proof (mask_range h) as Hr. set (x := Z.land _ _) in *.
  pose proof (ok_length _ T) as Hl.
  destruct (lookup_lt_is_Some_2 (buckets t) (Z.to_nat x)) as [b Hb]; [unfold zlen in *; lia|].
  exists (Z.to_nat x), b. split; [lia|]. split; [done|].
  rewrite <-Hb, <-bucket_lookup. f_equal. lia.
Qed.

(** Replacing a bucket by entries that belong to it. *)
Lemma set_bucket_ok (i : nat) b b' n :
  buckets t !! i = Some b ->
  (forall e, e ∈ b' -> Z.land (hashFunction e.1) (ht_sizemask t) = Z.of_nat i) ->
  ht_used t + n = zlen (concat (buckets t)) + zlen b' - zlen b ->
  0 <= ht_used t + n < 2 ^ 64 ->
  exists t', set_bucket t (Z.of_nat i) b' = Some t' /\ buckets t' = <[i := b']> (buckets t) /\
    ht_size t' = ht_size t /\ ht_sizemask t' = ht_sizemask t /\ ht_used t' = ht_used t /\
    ht_ok (add_used t' n).
Proof.
  intros Hb Hh Hn Hr. unfold set_bucket.
  assert (ht_table t = Some (buckets t)) as Et by (unfold buckets; by destruct (ok_table _ T) as [tb ->]).
  rewrite Et. simpl. rewrite bucket_lookup, Hb. simpl. rewrite Nat2Z.id.
  eexists. split; [done|]. split; [done|]. split_and!; try done.
  pose proof (concat_insert (buckets t) i b b' Hb) as Hp. apply Permutation_length in Hp.
  rewrite !length_app in Hp.
  split; simpl; try apply T; try done.
  - unfold buckets at 1. simpl. unfold zlen. rewrite length_insert. apply (ok_length _ T).
  - unfold buckets at 1. simpl. rewrite uint_small by lia. unfold zlen in *. lia.
  - intros j b0 e. unfold buckets at 1. simpl. rewrite list_lookup_insert_Some.
    intros [(-> & <- & _)|[_ Hj]] He; [by apply Hh|by eapply (ok_hash _ T)].
Qed.

(** Entries with the hash of a key are all in the bucket of the key. *)
Lemma key_in_bucket (i : nat) b k v :
  Z.land (hashFunction k) (ht_sizemask t) = Z.of_nat i -> buckets t !! i = Some b ->
  (k, v) ∈ concat (buckets t) <-> (k, v) ∈ b.
Proof.
  intros Hk Hb. rewrite elem_of_concat. split; [|eauto].
  intros (j & b' & Hj & He). pose proof (ok_hash _ T _ _ _ Hj He) as E. simpl in E.
  assert (i = j) as -> by lia. by simplify_eq.
Qed.

End table_facts.

Lemma chain_find_Some key he n v : chain_find key he = Some (n, v) -> he !! n = Some (key, v).
Proof.
  revert n. induction he as [|[k w] he IH]; intros n; simpl; [done|].
  destruct (keyCompare key k) eqn:E.
  - apply keyCompare_spec in E as <-. intros [= <- <-]. done.
  - destruct (chain_find key he) as [[m x]|]; [|done]. intros [= <- <-]. by apply IH.
Qed.

Lemma chain_find_None key he : chain_find key he = None <-> key ∉ he.*1.
Proof.
  induction he as [|[k w] he IH]; [simpl; split; [intros _; apply not_elem_of_nil|done]|].
  rewrite fmap_cons, not_elem_of_cons. simpl. destruct (keyCompare key k) eqn:E.
  - apply keyCompare_spec in E as <-. naive_solver.
  - assert (key <> k) by (intros ->; by rewrite (proj2 (keyCompare_spec k k)) in E).
    destruct (chain_find key he) as [[m x]|]; naive_solver.
Qed.

(** ** Rehashing *)

Lemma ok_used_nonneg t : ht_ok t -> 0 <= ht_used t.
Proof. intros T. rewrite (ok_used _ T). apply zlen_nonneg. Qed.

(** A table with entries has a non-empty bucket. *)
Lemma used_nonempty t :
  ht_ok t -> ht_used t <> 0 -> exists (j : nat) b, buckets t !! j = Some b /\ b <> [].
Proof.
  intros T Hu. rewrite (ok_used _ T) in Hu. destruct (concat (buckets t)) as [|e l] eqn:E; [done|].
  assert (e ∈ concat (buckets t)) as (j & b & Hj & He)%elem_of_concat by (rewrite E; left).
  exists j, b. split; [done|]. intros ->. by apply elem_of_nil in He.
Qed.

(** The state of a dictionary between two steps of the rehashing loop. *)
Record rehash_inv (d : dict K V) : Prop := {
  ri_ht0 : ht_ok (ht0 d);
  ri_ht1 : ht_ok (ht1 d);
  ri_idx : 0 <= rehashidx d;
  ri_empty : forall i : nat, Z.of_nat i < rehashidx d -> buckets (ht0 d) !! i = Some [];
  ri_count : ht_used (ht0 d) + ht_used (ht1 d) < 2 ^ 62;
}.

Lemma skip_empty_spec fuel d ev (j : nat) b :
  ht_ok (ht0 d) -> 0 <= rehashidx d <= Z.of_nat j ->
  buckets (ht0 d) !! j = Some b -> b <> [] -> Z.of_nat j - rehashidx d < Z.of_nat fuel ->
  1 <= ev ->
  exists i, rehashidx d <= i <= Z.of_nat j /\
    (forall m : nat, rehashidx d <= Z.of_nat m < i -> buckets (ht0 d) !! m = Some []) /\
    (skip_empty fuel d ev = Some (inl (set_rehashidx d i)) /\ rehashidx d < i \/
     exists ev' c, skip_empty fuel d ev = Some (inr (set_rehashidx d i, ev')) /\ 1 <= ev' /\
       buckets (ht0 d) !! Z.to_nat i = Some c /\ c <> []).
Proof.
  intros T. revert d ev T. induction fuel as [|fuel IH]; intros d ev T Hj Hb Hne Hf Hev; [lia|].
  destruct (lookup_lt_is_Some_2 (buckets (ht0 d)) (Z.to_nat (rehashidx d))) as [c Hc].
  { apply lookup_lt_Some in Hb. lia. }
  cbn [skip_empty]. assert (bucket (ht0 d) (rehashidx d) = Some c) as ->
    by (rewrite <-Hc, <-(bucket_lookup T); f_equal; lia). simpl. destruct c as [|e c].
  - assert (rehashidx d < Z.of_nat j) as Hlt.
    { destruct (decide (rehashidx d = Z.of_nat j)) as [E|]; [|lia]. rewrite E, Nat2Z.id in Hc. congruence. }
    assert (forall m : nat, rehashidx d <= Z.of_nat m < rehashidx d + 1 -> buckets (ht0 d) !! m = Some []) as Hm.
    { intros m Hm. by replace m with (Z.to_nat (rehashidx d)) by lia. }
    destruct (Z.eqb_spec (ev - 1) 0).
    + exists (rehashidx d + 1). split; [lia|]. split; [done|]. left. split; [done|lia].
    + destruct (IH (set_rehashidx d (rehashidx d + 1)) (ev - 1)) as (i & Hi & Hemp & Hr);
        simpl; [done|lia|done|done|lia|lia|]. simpl in Hi, Hemp, Hr.
      exists i. split; [lia|]. split.
      { intros m ?. destruct (decide (Z.of_nat m < rehashidx d + 1)); [apply Hm; lia|apply Hemp; lia]. }
      destruct Hr as [[E ?]|(ev' & c' & E & ? & ? & ?)]; [left; split; [done|lia]|right; eauto 10].
  - exists (rehashidx d). split; [lia|]. split; [intros; lia|]. right.
    exists ev, (e :: c). split_and!; [by destruct d|done..].
Qed.

Lemma move_bucket_spec de d :
  ht_ok (ht1 d) -> zlen de <= ht_used (ht0 d) -> ht_used (ht0 d) < 2 ^ 63 ->
  ht_used (ht1 d) + zlen de < 2 ^ 63 ->
  exists t1, move_bucket de d =
      Some (mk_dict (mk_ht (ht_table (ht0 d)) (ht_size (ht0 d)) (ht_sizemask (ht0 d))
                       (ht_used (ht0 d) - zlen de)) t1 (rehashidx d) (pauserehash d)) /\
    ht_ok t1 /\ ht_size t1 = ht_size (ht1 d) /\
    concat (buckets t1) ≡ₚ de ++ concat (buckets (ht1 d)).
Proof.
  revert d. induction de as [|e de IH]; intros d T1 H0 Hb H1.
  { exists (ht1 d). split; [|done]. simpl. rewrite zlen_nil, Z.sub_0_r. by destruct d as [[] ? ? ?]. }
  rewrite zlen_cons in *. pose proof (zlen_nonneg de). pose proof (ok_used_nonneg _ T1).
  destruct (bucket_mask T1 (hashFunction e.1)) as (i & b & Hi & Hb' & Hbk).
  cbn [move_bucket]. rewrite Hbk. simpl. rewrite Hi.
  destruct (set_bucket_ok T1 i b (e :: b) 1) as (t' & -> & Hbs & Hs & Hm & Hu & T'); [done| |
    rewrite zlen_cons, (ok_used _ T1); lia|lia|].
  { intros e' [->|He']%elem_of_cons; [done|by eapply (ok_hash _ T1)]. }
  simpl. set (d' := set_ht0 _ _).
  destruct (IH d') as (t1 & -> & T1' & Hsz & Hp); subst d'; simpl; [done| | | |].
  - unfold add_used. simpl. rewrite uint_small; lia.
  - unfold add_used. simpl. rewrite uint_small; lia.
  - rewrite Hu, uint_small; lia.
  - exists t1. split; [|split; [done|split; [by rewrite Hsz; simpl|]]].
    + rewrite uint_small by lia. by replace (ht_used (ht0 d) + -1 - zlen de) with (ht_used (ht0 d) - (1 + zlen de)) by lia.
    + rewrite Hp. unfold add_used, buckets at 1. simpl. fold (buckets t'). rewrite Hbs.
      pose proof (concat_insert (buckets (ht1 d)) i b (e :: b) Hb') as Hq.
      apply (Permutation_app_inv_l b). rewrite (Permutation_app_comm b), <-app_assoc.
      rewrite (Permutation_app_comm (concat _) b), Hq. solve_Permutation.
Qed.

(** One round of the loop on a bucket found non-empty at [i]. *)
Lemma rehash_round d i b :
  rehash_inv d -> 0 <= i -> rehashidx d <= i ->
  (forall m : nat, rehashidx d <= Z.of_nat m < i -> buckets (ht0 d) !! m = Some []) ->
  buckets (ht0 d) !! Z.to_nat i = Some b ->
  exists d1 t0, move_bucket b (set_rehashidx d i) = Some d1 /\
    set_bucket (ht0 d1) (rehashidx d1) [] = Some t0 /\
    let d' := set_rehashidx (set_ht0 d1 t0) (rehashidx d1 + 1) in
    rehash_inv d' /\ entries d' ≡ₚ entries d /\ pauserehash d' = pauserehash d /\
    rehashidx d' = i + 1 /\ ht_size (ht0 d') = ht_size (ht0 d).
Proof.
  intros [T0 T1 Hidx Hemp Hcnt] Hi0 Hi Hm Hb.
  pose proof (ok_used_nonneg _ T0). pose proof (ok_used_nonneg _ T1). pose proof (zlen_nonneg b).
  assert (zlen b <= ht_used (ht0 d)) as Hbl.
  { rewrite (ok_used _ T0), <-(take_drop_middle _ _ _ Hb), concat_app. cbn [concat].
    rewrite !zlen_app. pose proof (zlen_nonneg (concat (take (Z.to_nat i) (buckets (ht0 d))))).
    pose proof (zlen_nonneg (concat (drop (S (Z.to_nat i)) (buckets (ht0 d))))). lia. }
  destruct (move_bucket_spec b (set_rehashidx d i)) as (t1 & -> & T1' & Hs1 & Hp); simpl; try done; try lia.
  eexists _. simpl.
  destruct (set_bucket_ok T0 (Z.to_nat i) b [] (- zlen b)) as (t0 & Hset & Hbs & Hs & Hmk & Hu & T0');
    [done|by intros e ?%elem_of_nil|rewrite zlen_nil, (ok_used _ T0); lia|lia|].
  assert (set_bucket (mk_ht (ht_table (ht0 d)) (ht_size (ht0 d)) (ht_sizemask (ht0 d))
            (ht_used (ht0 d) - zlen b)) i [] = Some (add_used t0 (- zlen b))) as Hset'.
  { unfold set_bucket, bucket in *. simpl. rewrite Z2Nat.id in Hset by lia.
    destruct (ht_table (ht0 d)) as [tb|]; [|done]. simpl in *.
    destruct (if i <? 0 then None else tb !! Z.to_nat i); [|done]. simpl in *.
    injection Hset as <-. unfold add_used. simpl. rewrite uint_small by lia. done. }
  eexists. split; [done|]. split; [exact Hset'|]. simpl.
  assert (zlen (concat (buckets t1)) = zlen b + ht_used (ht1 d)) as Hlen1.
  { apply Permutation_length in Hp. rewrite length_app in Hp. simpl in Hp.
    rewrite (ok_used _ T1). unfold zlen. lia. }
  split; [split; simpl; try done; [lia| |]|].
  - intros m Hm'. unfold add_used, buckets at 1. simpl. fold (buckets t0). rewrite Hbs.
    apply list_lookup_insert_Some. destruct (decide (Z.of_nat m = i)).
    + left. split; [lia|]. split; [done|]. apply lookup_lt_Some in Hb. lia.
    + right. split; [lia|]. destruct (decide (Z.of_nat m < rehashidx d)); [by apply Hemp|apply Hm; lia].
  - rewrite Hu, uint_small, (ok_used _ T1') by lia. lia.
  - split; [|done]. unfold entries. simpl. rewrite Hp. unfold add_used, buckets at 1. simpl.
    fold (buckets t0). rewrite Hbs.
    pose proof (concat_insert (buckets (ht0 d)) (Z.to_nat i) b [] Hb) as Hq. simpl in Hq.
    rewrite app_assoc, (Permutation_app_comm _ b), Hq. done.
Qed.

(** What the loop establishes: the invariant, the same entries, and progress. *)
Record rehashed (n : nat) (d d' : dict K V) (early : bool) : Prop := {
  rd_inv : rehash_inv d';
  rd_entries : entries d' ≡ₚ entries d;
  rd_pause : pauserehash d' = pauserehash d;
  rd_size : ht_size (ht0 d') = ht_size (ht0 d);
  rd_idx : rehashidx d <= rehashidx d';
  rd_early : early = true -> ht_used (ht0 d') <> 0;
  rd_progress : (0 < n)%nat -> ht_used (ht0 d) <> 0 -> rehashidx d < rehashidx d';
  rd_done : ht_used (ht0 d) = 0 -> d' = d;
}.

Lemma rehash_loop_spec n d ev :
  rehash_inv d -> ((0 < n)%nat -> 1 <= ev) ->
  exists d' early, rehash_loop n d ev = Some (d', early) /\ rehashed n d d' early.
Proof.
  revert d ev. induction n as [|n IH]; intros d ev I Hev; cbn [rehash_loop].
  { exists d, false. split; [done|]. split; try done; lia. }
  destruct (Z.eqb_spec (ht_used (ht0 d)) 0) as [E0|E0].
  { exists d, false. split; [done|]. split; try done; lia. }
  specialize (Hev ltac:(lia)). destruct (used_nonempty _ (ri_ht0 _ I) E0) as (j & b & Hj & Hne).
  assert (rehashidx d <= Z.of_nat j) as Hij.
  { destruct (decide (rehashidx d <= Z.of_nat j)); [done|].
    rewrite (ri_empty _ I j) in Hj by lia. congruence. }
  pose proof (ri_idx _ I). pose proof (ok_length _ (ri_ht0 _ I)) as Hlen.
  pose proof (ok_size_pos (ri_ht0 _ I)). pose proof (lookup_lt_Some _ _ _ Hj) as Hjl.
  rewrite uint_small by (unfold zlen in *; lia).
  rewrite Z.gtb_ltb, (proj2 (Z.ltb_lt _ _)) by (unfold zlen in *; lia). cbn [negb].
  destruct (skip_empty_spec (S (Z.to_nat (ht_size (ht0 d)))) d ev j b) as (i & Hi & Hm & Hr);
    [apply I|lia|done|done|unfold zlen in *; lia|done|].
  destruct Hr as [[-> Hlt]|(ev' & c & -> & Hev' & Hc & Hcne)]; simpl.
  { exists (set_rehashidx d i), true. split; [done|]. split; simpl; try done; [|lia].
    split; simpl; try apply I; [lia|]. intros m Hm'.
    destruct (decide (Z.of_nat m < rehashidx d)); [by apply (ri_empty _ I)|apply Hm; lia]. }
  assert (bucket (ht0 d) i = Some c) as ->
    by (rewrite <-Hc, <-(bucket_lookup (ri_ht0 _ I)); f_equal; lia). simpl.
  destruct (rehash_round d i c) as (d1 & t0 & -> & E1 & I' & Hp & Hpa & Hri & Hsz); try done; [lia|lia|].
  simpl. rewrite E1. simpl.
  destruct (IH _ ev' I' (fun _ => Hev')) as (d' & early & -> & [I'' Hp' Hpa' Hsz' Hle Hearly _ _]).
  simpl in *. exists d', early. split; [done|]. split; try done; try congruence; try lia.
  by rewrite Hp'.
Qed.

(** Well-formedness is preserved when the entries are only permuted. *)
Lemma nodup_perm d d' : dict_wf d -> entries d' ≡ₚ entries d ->
  NoDup (entries d').*1 /\ zlen (entries d') < 2 ^ 62.
Proof.
  intros W Hp. split.
  - rewrite Hp. apply W.
  - apply Permutation_length in Hp. pose proof (wf_count _ W). unfold zlen in *. lia.
Qed.

Lemma wf_rehash_inv d : dict_wf d -> dictIsRehashing d = true -> rehash_inv d.
Proof.
  intros W Hr. pose proof (wf_tables _ W) as Ht. rewrite Hr in Ht.
  destruct Ht as (T0 & T1 & Hi & He). split; try done; [lia|].
  pose proof (wf_count _ W) as Hc. unfold entries in Hc. rewrite zlen_app in Hc.
  rewrite (ok_used _ T0), (ok_used _ T1). done.
Qed.

(** An unfinished rehashing leaves the index inside the first table. *)
Lemma rehash_inv_wf d :
  rehash_inv d -> ht_used (ht0 d) <> 0 -> NoDup (entries d).*1 -> zlen (entries d) < 2 ^ 62 ->
  dict_wf d /\ dictIsRehashing d = true.
Proof.
  intros I Hu Hnd Hct. destruct (used_nonempty _ (ri_ht0 _ I) Hu) as (j & b & Hj & Hne).
  pose proof (ri_idx _ I).
  assert (dictIsRehashing d = true) as Er by (unfold dictIsRehashing; lia).
  split; [|done]. split; [|done|done]. rewrite Er.
  split; [apply I|]. split; [apply I|]. split; [|apply I]. split; [done|].
  destruct (decide (rehashidx d <= Z.of_nat j)).
  - apply lookup_lt_Some in Hj. pose proof (ok_length _ (ri_ht0 _ I)). unfold zlen in *. lia.
  - rewrite (ri_empty _ I j) in Hj by lia. congruence.
Qed.

(** A finished one: the second table becomes the first. *)
Lemma rehash_inv_done d :
  rehash_inv d -> ht_used (ht0 d) = 0 ->
  let d' := mk_dict (ht1 d) _dictReset (-1) (pauserehash d) in
  entries d' = entries d /\ (NoDup (entries d).*1 -> zlen (entries d) < 2 ^ 62 -> dict_wf d').
Proof.
  intros I Hu d'. assert (entries d' = entries d) as He.
  { unfold d', entries. simpl. rewrite (ok_used _ (ri_ht0 _ I)) in Hu.
    apply zlen_0_inv in Hu. rewrite Hu. unfold buckets at 2. simpl. by rewrite app_nil_r. }
  split; [done|]. intros ? ?. split; [|by rewrite He..]. simpl. split; [done|]. right. apply I.
Qed.

(** dictRehash keeps the entries; it returns whether rehashing is unfinished,
    and an unfinished call has moved the index forward. *)
Lemma dictRehash_spec d n :
  dict_wf d -> Z.of_nat n * 10 < 2 ^ 31 ->
  exists d' more, dictRehash d n = Some (d', more) /\ dict_wf d' /\ entries d' ≡ₚ entries d /\
    more = dictIsRehashing d' /\ pauserehash d' = pauserehash d /\
    (dictIsRehashing d = false -> d' = d) /\
    ((0 < n)%nat -> dictIsRehashing d = true -> more = true ->
       rehashidx d < rehashidx d' /\ ht_size (ht0 d') = ht_size (ht0 d)).
Proof.
  intros W Hn. unfold dictRehash. destruct (dictIsRehashing d) eqn:Er; simpl; cycle 1.
  { exists d, false. split_and!; done || congruence. }
  destruct (rehash_loop_spec n d (s32 (Z.of_nat n * 10))) as (d' & early & -> & R);
    [by apply wf_rehash_inv|intros ?; rewrite sint_small; lia|]. simpl.
  destruct (nodup_perm d d' W (rd_entries _ _ _ _ R)) as [Hnd Hct].
  destruct (Z.eqb_spec (ht_used (ht0 d')) 0) as [E|E].
  - destruct early; [by destruct (rd_early _ _ _ _ R)|].
    destruct (rehash_inv_done d' (rd_inv _ _ _ _ R) E) as [He Hw].
    eexists _, false. split; [done|]. split; [by apply Hw|]. split; [rewrite He; apply R|].
    split_and!; try done. apply R.
  - destruct (rehash_inv_wf d' (rd_inv _ _ _ _ R) E Hnd Hct) as [W' Er'].
    exists d', true. split; [by destruct early|]. split; [done|]. split; [apply R|]. split; [done|].
    split; [apply R|]. split; [done|]. intros ? _ _. split; [|apply R].
    apply (rd_progress _ _ _ _ R); [done|]. intros E'. by rewrite (rd_done _ _ _ _ R E') in E.
Qed.

(** The dictionary [d'] holds the entries of [d], possibly elsewhere. *)
Record same_entries (d d' : dict K V) : Prop := {
  se_wf : dict_wf d';
  se_entries : entries d' ≡ₚ entries d;
  se_pause : pauserehash d' = pauserehash d;
}.

Lemma same_refl d : dict_wf d -> same_entries d d.
Proof. by split. Qed.

Lemma same_trans d1 d2 d3 : same_entries d1 d2 -> same_entries d2 d3 -> same_entries d1 d3.
Proof. intros [? E1 ?] [? E2 ?]. split; [done|by rewrite E2|congruence]. Qed.

Lemma to_map_perm d d' : dict_wf d' -> entries d' ≡ₚ entries d -> to_map d' = to_map d.
Proof. intros W Hp. unfold to_map. apply list_to_map_proper; [apply W|done]. Qed.

Lemma to_map_same d d' : same_entries d d' -> to_map d' = to_map d.
Proof. intros S. apply to_map_perm; apply S. Qed.

Lemma dictRehashStep_same d :
  dict_wf d -> exists d', _dictRehashStep d = Some d' /\ same_entries d d'.
Proof.
  intros W. unfold _dictRehashStep. destruct (pauserehash d =? 0); [|by eauto using same_refl].
  destruct (dictRehash_spec d 1 W) as (d' & more & -> & W' & Hp & _ & Hpa & _); [lia|].
  exists d'. by split.
Qed.

(** The step every access takes first. *)
Lemma maybe_step_same d :
  dict_wf d ->
  exists d', (if dictIsRehashing d then _dictRehashStep d else Some d) = Some d' /\ same_entries d d'.
Proof.
  intros W. destruct (dictIsRehashing d); [by apply dictRehashStep_same|by eauto using same_refl].
Qed.

(** A dictionary with entries has a first table. *)
Lemma wf_ht0_ok d : dict_wf d -> (entries d <> [] \/ ht_size (ht0 d) <> 0) -> ht_ok (ht0 d).
Proof.
  intros W Hne. pose proof (wf_tables _ W) as Ht. destruct (dictIsRehashing d); [by destruct Ht|].
  destruct Ht as [E1 [E0|?]]; [|done]. exfalso. unfold entries in Hne. rewrite E0, E1 in Hne.
  simpl in Hne. by destruct Hne.
Qed.

Lemma wf_ht1_ok d : dict_wf d -> dictIsRehashing d = true -> ht_ok (ht1 d).
Proof. intros W Hr. pose proof (wf_tables _ W) as Ht. rewrite Hr in Ht. by destruct Ht as (_ & ? & _). Qed.

Lemma wf_ht1_reset d : dict_wf d -> dictIsRehashing d = false -> ht1 d = _dictReset.
Proof. intros W Hr. pose proof (wf_tables _ W) as Ht. rewrite Hr in Ht. by destruct Ht. Qed.

(** The counters agree with the entries. *)
Lemma used_entries d : dict_wf d -> ht_used (ht0 d) + ht_used (ht1 d) = zlen (entries d) /\
  0 <= ht_used (ht0 d) /\ 0 <= ht_used (ht1 d).
Proof.
  intros W. unfold entries. rewrite zlen_app. pose proof (wf_tables _ W) as Ht.
  destruct (dictIsRehashing d).
  - destruct Ht as (T0 & T1 & _). rewrite (ok_used _ T0), (ok_used _ T1).
    split; [done|]. split; apply zlen_nonneg.
  - destruct Ht as [-> [->|T0]]; [done|]. rewrite (ok_used _ T0).
    assert (zlen (concat (buckets _dictReset)) = 0) as -> by done. simpl.
    pose proof (zlen_nonneg (concat (buckets (ht0 d)))). lia.
Qed.

Lemma dictSize_entries d : dict_wf d -> dictSize d = zlen (entries d).
Proof.
  intros W. pose proof (used_entries d W) as (E & _). pose proof (wf_count _ W). unfold dictSize.
  rewrite E. apply uint_small. pose proof (zlen_nonneg (entries d)). lia.
Qed.

(** ** Resizing *)

Lemma nextPower_loop_spec fuel (k : nat) size :
  (k <= 63)%nat -> size <= 2 ^ 63 -> (63 - k < fuel)%nat ->
  exists m : nat, (k <= m <= 63)%nat /\ nextPower_loop fuel (2 ^ Z.of_nat k) size = 2 ^ Z.of_nat m /\
    size <= 2 ^ Z.of_nat m /\ (m = k \/ 2 ^ (Z.of_nat m - 1) < size).
Proof.
  revert k. induction fuel as [|fuel IH]; intros k Hk Hs Hf; [lia|]. simpl.
  destruct (Z.geb_spec (2 ^ Z.of_nat k) size); [exists k; split_and!; lia|].
  assert (k <> 63)%nat by (intros ->; simpl in *; lia).
  assert (2 ^ Z.of_nat (S k) = 2 ^ Z.of_nat k * 2) as E by (rewrite Nat2Z.inj_succ, Z.pow_succ_r; lia).
  assert (2 ^ Z.of_nat (S k) <= 2 ^ 63) by (apply Z.pow_le_mono_r; lia).
  rewrite uint_small, <-E by lia. destruct (IH (S k)) as (m & Hm & -> & Hle & Hmin); [lia..|].
  exists m. split_and!; try lia. right. destruct Hmin as [->|]; [|done].
  replace (Z.of_nat (S k) - 1) with (Z.of_nat k) by lia. lia.
Qed.

(** The size chosen is a power of two, large enough and, above the initial
    size, the least one. *)
Lemma dictNextPower_spec size :
  size < LONG_MAX ->
  exists k : nat, (2 <= k <= 63)%nat /\ _dictNextPower size = 2 ^ Z.of_nat k /\
    size <= 2 ^ Z.of_nat k /\ (k = 2%nat \/ 2 ^ (Z.of_nat k - 1) < size).
Proof.
  unfold _dictNextPower, LONG_MAX. intros Hs.
  destruct (Z.geb_spec size (2 ^ 63 - 1)); [lia|].
  change DICT_HT_INITIAL_SIZE with (2 ^ Z.of_nat 2). apply nextPower_loop_spec; lia.
Qed.

Lemma dictNextPower_pow2 size :
  exists k : nat, (2 <= k <= 63)%nat /\ _dictNextPower size = 2 ^ Z.of_nat k.
Proof.
  destruct (decide (size < LONG_MAX)) as [Hs|Hs].
  - destruct (dictNextPower_spec size Hs) as (k & ? & ? & _). eauto.
  - unfold _dictNextPower. destruct (Z.geb_spec size LONG_MAX); [|lia]. exists 63%nat. split; [lia|done].
Qed.

Lemma concat_replicate_nil (n : nat) : concat (replicate n (@nil entry)) = [].
Proof. by induction n. Qed.

(** Up to 2^60 the number of bytes of the table does not wrap around. *)
Lemma dictNextPower_small size : size <= 2 ^ 60 -> 4 <= _dictNextPower size <= 2 ^ 60.
Proof.
  intros Hs. destruct (dictNextPower_spec size) as (k & Hk & -> & _ & Hmin); [unfold LONG_MAX; lia|].
  change 4 with (2 ^ 2). split; apply Z.pow_le_mono_r; try lia.
  destruct Hmin as [->|Hmin]; [lia|].
  assert (2 ^ (Z.of_nat k - 1) < 2 ^ 60) as Hlt by lia. apply Z.pow_lt_mono_r_iff in Hlt; lia.
Qed.

(** A table just allocated. *)
Lemma new_table_ok size :
  size <= 2 ^ 60 ->
  let realsize := _dictNextPower size in
  ht_ok (mk_ht (Some (replicate (Z.to_nat (u64 (realsize * sizeof_dictEntryp) / sizeof_dictEntryp)) []))
               realsize (u64 (realsize - 1)) 0).
Proof.
  intros Hsz realsize. destruct (dictNextPower_pow2 size) as (k & Hk & E).
  assert (4 <= realsize <= 2 ^ 60) by by apply dictNextPower_small.
  unfold sizeof_dictEntryp. rewrite uint_small, Z.div_mul by lia.
  split; unfold buckets; simpl; try done.
  - by exists k.
  - unfold zlen. rewrite length_replicate. lia.
  - apply uint_small. lia.
  - by rewrite concat_replicate_nil.
  - intros i b e [-> _]%lookup_replicate_1 He. by apply elem_of_nil in He.
Qed.

(** Expanding never loses an entry, and on success a table of the next power
    of two is in place. *)
Lemma dictExpand_gen alloc d size try :
  dict_wf d -> size <= 2 ^ 60 ->
  exists d' ok failed, _dictExpand alloc d size try = (d', ok, failed) /\ same_entries d d' /\
    (ok = false -> d' = d) /\ (ok = true -> ht_ok (ht0 d')) /\
    (alloc = true -> failed = false) /\
    (ok || failed = bool_decide (dictIsRehashing d = false /\ ht_used (ht0 d) <= size /\
                                 _dictNextPower size <> ht_size (ht0 d))).
Proof.
  intros W Hsz. unfold _dictExpand. destruct (dictIsRehashing d) eqn:Er; simpl.
  { exists d, false, false. split_and!; auto using same_refl; try done. }
  rewrite Z.gtb_ltb. destruct (Z.ltb_spec size (ht_used (ht0 d))).
  { exists d, false, false. split_and!; auto using same_refl; try done. case_bool_decide; [lia|done]. }
  destruct (Z.eqb_spec (_dictNextPower size) (ht_size (ht0 d))) as [?|Hneq].
  { exists d, false, false. split_and!; auto using same_refl; try done.
    by rewrite bool_decide_false by (intros (_ & _ & []); done). }
  rewrite bool_decide_true by done. destruct (try && negb alloc) eqn:Et.
  { exists d, false, true. split_and!; auto using same_refl; try done. destruct try, alloc; done. }
  pose proof (new_table_ok size Hsz) as T. cbv zeta in T. set (n := mk_ht _ _ _ _) in *.
  assert (concat (buckets n) = []) as Hn by apply concat_replicate_nil.
  pose proof (wf_ht1_reset d W Er) as E1. pose proof (wf_tables _ W) as Ht. rewrite Er in Ht.
  destruct Ht as [_ [E0|T0]].
  - rewrite E0. simpl. assert (entries (set_ht0 d n) = entries d) as He.
    { unfold entries. simpl. by rewrite Hn, E0, E1. }
    eexists _, true, false. split_and!; try done. split; [|by rewrite He|done].
    split; [|rewrite He; apply W..]. unfold dictIsRehashing in *. simpl. rewrite Er. auto.
  - destruct (ok_table _ T0) as [tb Etb]. rewrite Etb.
    assert (entries (set_rehashidx (set_ht1 d n) 0) = entries d) as He.
    { unfold entries. simpl. by rewrite Hn, E1. }
    eexists _, true, false. split_and!; try done. split; [|by rewrite He|done].
    split; [|rewrite He; apply W..]. simpl. pose proof (ok_size_pos T0).
    split_and!; try done; try lia.
Qed.

(** An insertion makes room first: it cannot fail, and a first table exists. *)
Lemma dictExpandIfNeeded_spec can d :
  dict_wf d -> zlen (entries d) < 2 ^ 60 ->
  exists d', _dictExpandIfNeeded can d = (d', true) /\ same_entries d d' /\ ht_ok (ht0 d').
Proof.
  intros W Hc. destruct (used_entries d W) as (Hu & H0 & H1).
  assert (forall size, size <= 2 ^ 60 -> dictIsRehashing d = false -> ht_used (ht0 d) <= size ->
            _dictNextPower size <> ht_size (ht0 d) ->
            exists d', dictExpand d size = (d', true) /\ same_entries d d' /\ ht_ok (ht0 d')) as Hex.
  { intros size ? ? ? ?. unfold dictExpand.
    destruct (dictExpand_gen true d size false W) as (d' & ok & f & -> & S & _ & Hok & Hf & Heq); [done|].
    rewrite bool_decide_true, (Hf eq_refl), orb_false_r in Heq by done. subst ok. eauto. }
  assert (forall P, (ht_size (ht0 d) <> 0 \/ dictIsRehashing d = true) ->
    (same_entries d d /\ ht_ok (ht0 d) -> P) -> P) as Hsame.
  { intros P Hor HP. apply HP. split; [by apply same_refl|].
    destruct Hor as [?|Hr]; [by apply wf_ht0_ok; auto|].
    pose proof (wf_tables _ W) as Ht. rewrite Hr in Ht. by destruct Ht. }
  unfold _dictExpandIfNeeded. destruct (dictIsRehashing d) eqn:Er.
  { apply Hsame; [auto|]. intros []. by exists d. }
  destruct (Z.eqb_spec (ht_size (ht0 d)) 0) as [E|E].
  { apply Hex; [done|done| |by rewrite E]. pose proof (wf_tables _ W) as Ht. rewrite Er in Ht.
    destruct Ht as [_ [->|T]]; [done|]. pose proof (ok_size_pos T). lia. }
  destruct (_ && _) eqn:Ec; [|apply Hsame; [auto|]; intros []; by exists d].
  rewrite uint_small by lia. apply Hex; [lia|done|lia|].
  destruct (dictNextPower_spec (ht_used (ht0 d) + 1)) as (k & _ & -> & ? & _); [unfold LONG_MAX; lia|].
  rewrite !andb_true_iff in Ec. lia.
Qed.

(** ** Lookup *)

(** The entry at a location: table, bucket and position in the chain. *)
Definition loc_at (d : dict K V) (l : loc) (e : entry) : Prop :=
  let '(table, idx, n) := l in
  ht_ok (get_ht d table) /\ (table = true -> dictIsRehashing d = true) /\
  exists (i : nat) b, idx = Z.of_nat i /\ buckets (get_ht d table) !! i = Some b /\ b !! n = Some e.

Lemma find_in_spec d (table : bool) key :
  ht_ok (get_ht d table) -> (table = true -> dictIsRehashing d = true) ->
  exists r, find_in d table key (hashFunction key) = Some r /\
    match r with
    | Some (l, v) => loc_at d l (key, v)
    | None => key ∉ (concat (buckets (get_ht d table))).*1
    end.
Proof.
  intros T Hr. unfold find_in. destruct (bucket_mask T (hashFunction key)) as (i & b & Hi & Hb & ->).
  simpl. eexists. split; [done|]. destruct (chain_find key b) as [[n v]|] eqn:E; simpl.
  - split; [done|]. split; [done|]. exists i, b. apply chain_find_Some in E. done.
  - apply chain_find_None in E. intros ([k v] & -> & Hkv)%list_elem_of_fmap. apply E.
    apply (key_in_bucket T i b k v Hi Hb) in Hkv. apply list_elem_of_fmap. by exists (k, v).
Qed.

Lemma find_loop_spec d key :
  dict_wf d -> ht_ok (ht0 d) ->
  exists r, find_loop d key (hashFunction key) = Some r /\
    match r with
    | Some (l, v) => loc_at d l (key, v)
    | None => key ∉ (entries d).*1
    end.
Proof.
  intros W T0. unfold find_loop. destruct (find_in_spec d false key) as (r & -> & Hr); [done..|]. simpl.
  destruct r as [[l v]|]; [by eexists|].
  assert (key ∉ (concat (buckets (ht1 d))).*1 -> key ∉ (entries d).*1) as Hn.
  { intros ?. unfold entries. rewrite fmap_app, not_elem_of_app. done. }
  destruct (dictIsRehashing d) eqn:Er; simpl.
  - destruct (find_in_spec d true key) as (r & -> & Hr'); [by apply wf_ht1_ok|done|].
    eexists. split; [done|]. destruct r as [[l v]|]; [done|by apply Hn].
  - exists None. split; [done|]. apply Hn. rewrite (wf_ht1_reset d W Er). apply not_elem_of_nil.
Qed.

Lemma loc_at_entries d l e : loc_at d l e -> e ∈ entries d.
Proof.
  destruct l as [[table idx] n]. intros (_ & _ & i & b & _ & Hb & He).
  assert (e ∈ concat (buckets (get_ht d table))) as Hin.
  { apply elem_of_concat. exists i, b. split; [done|]. by eapply list_elem_of_lookup_2. }
  unfold entries. apply elem_of_app. destruct table; auto.
Qed.

Lemma entries_lookup d k v : dict_wf d -> (k, v) ∈ entries d <-> to_map d !! k = Some v.
Proof. intros W. apply elem_of_list_to_map, W. Qed.

Lemma entries_lookup_None d k : k ∉ (entries d).*1 -> to_map d !! k = None.
Proof. apply not_elem_of_list_to_map. Qed.

(** ** Updating a bucket *)

Lemma update_bucket d (table : bool) (i : nat) b b' :
  dict_wf d -> ht_ok (get_ht d table) -> (table = true -> dictIsRehashing d = true) ->
  buckets (get_ht d table) !! i = Some b ->
  (forall e, e ∈ b' -> Z.land (hashFunction e.1) (ht_sizemask (get_ht d table)) = Z.of_nat i) ->
  (b = [] -> b' = [] \/ table = dictIsRehashing d) ->
  zlen b' <= zlen b + 1 ->
  exists t', set_bucket (get_ht d table) (Z.of_nat i) b' = Some t' /\
    let d' := set_ht d table (add_used t' (zlen b' - zlen b)) in
    b ++ entries d' ≡ₚ b' ++ entries d /\ pauserehash d' = pauserehash d /\
    ht_used t' = ht_used (get_ht d table) /\
    (NoDup (entries d').*1 -> zlen (entries d') < 2 ^ 62 -> dict_wf d').
Proof.
  intros W T Htb Hb Hh Hemp Hlen.
  pose proof (concat_insert _ _ _ b' Hb) as Hp. pose proof (Permutation_length Hp) as Hpl.
  rewrite !length_app in Hpl. pose proof (ok_used _ T) as Hu. pose proof (wf_count _ W) as Hc.
  assert (ht_used (get_ht d table) < 2 ^ 62).
  { pose proof (used_entries d W). destruct table; simpl in *; lia. }
  destruct (set_bucket_ok T i b b' (zlen b' - zlen b)) as (t' & E & Hbs & Hs & Hm & Hu' & T');
    [done..|lia|unfold zlen in *; lia|].
  exists t'. split; [done|]. simpl.
  assert (buckets (add_used t' (zlen b' - zlen b)) = <[i := b']> (buckets (get_ht d table))) as Hbs' by done.
  set (t2 := add_used t' _) in *. split; [|split; [by destruct table|split; [done|]]].
  - unfold entries. destruct table; simpl in *; rewrite Hbs'.
    + rewrite app_assoc, (Permutation_app_comm b), <-app_assoc, Hp. solve_Permutation.
    + by rewrite app_assoc, Hp, <-app_assoc.
  - intros Hnd Hct. split; [|done|done]. pose proof (wf_tables _ W) as Ht.
    destruct table; simpl in *.
    + rewrite Htb in Ht by done. unfold dictIsRehashing in *. simpl.
      rewrite Htb by done. destruct Ht as (? & _ & ? & ?). done.
    + unfold dictIsRehashing in *. simpl. destruct (negb (rehashidx d =? -1)) eqn:Er.
      * destruct Ht as (? & ? & ? & Hem). split; [done|]. split; [done|].
        split; [by rewrite <-Hs in *|]. intros j Hj. rewrite Hbs'.
        apply list_lookup_insert_Some. destruct (decide (i = j)) as [->|]; [left|right; auto].
        rewrite Hem in Hb by done. injection Hb as <-. split; [done|]. split; [|by eapply lookup_lt_Some, Hem].
        by destruct Hemp.
      * destruct Ht as [? _]. auto.
Qed.

(** ** The operations *)

Lemma dictFind_spec d key :
  dict_wf d ->
  exists d' r, dictFind d key = Some (d', r) /\ same_entries d d' /\
    match r with
    | Some (l, v) => to_map d !! key = Some v /\ loc_at d' l (key, v)
    | None => to_map d !! key = None
    end.
Proof.
  intros W. unfold dictFind. rewrite (dictSize_entries d W).
  destruct (Z.eqb_spec (zlen (entries d)) 0) as [E|E].
  { exists d, None. split; [done|]. split; [by apply same_refl|].
    unfold to_map. by rewrite (zlen_0_inv _ E). }
  destruct (maybe_step_same d W) as (d1 & -> & S). simpl.
  destruct (find_loop_spec d1 key (se_wf _ _ S)) as (r & -> & Hr).
  { apply wf_ht0_ok; [apply S|]. left. intros Hnil. pose proof (se_entries _ _ S) as Hp.
    rewrite Hnil in Hp. apply Permutation_length in Hp. unfold zlen in E. simpl in Hp. lia. }
  simpl. exists d1, r. split; [done|]. split; [done|]. rewrite <-(to_map_same _ _ S).
  destruct r as [[l v]|]; [|by apply entries_lookup_None].
  split; [|done]. apply entries_lookup; [apply S|]. by eapply loc_at_entries.
Qed.

(** Inserting a fresh key. *)
Lemma to_map_cons d d' k v :
  dict_wf d' -> entries d' ≡ₚ (k, v) :: entries d -> to_map d' = <[k := v]> (to_map d).
Proof.
  intros W' Hp. unfold to_map. change (<[k:=v]> (list_to_map (entries d))) with
    (list_to_map ((k, v) :: entries d) : gmap K V).
  apply list_to_map_proper; [apply W'|done].
Qed.

Lemma dictAddRaw_spec can d key val :
  dict_wf d -> zlen (entries d) < 2 ^ 60 ->
  exists d' r, dictAddRaw can d key val = Some (d', r) /\ dict_wf d' /\ pauserehash d' = pauserehash d /\
    match to_map d !! key with
    | Some v => (exists l, r = KeyExists l /\ loc_at d' l (key, v)) /\ entries d' ≡ₚ entries d
    | None => (exists idx, r = KeyIndex idx) /\ entries d' ≡ₚ (key, val) :: entries d
    end.
Proof.
  intros W Hc. unfold dictAddRaw. destruct (maybe_step_same d W) as (d1 & -> & S1). simpl.
  assert (zlen (entries d1) < 2 ^ 60) as Hc1.
  { by rewrite (se_entries _ _ S1). }
  unfold _dictKeyIndex.
  destruct (dictExpandIfNeeded_spec can d1 (se_wf _ _ S1) Hc1) as (d2 & -> & S2 & T0).
  pose proof (same_trans _ _ _ S1 S2) as S. destruct S as [W2 Hp Hpa]. simpl.
  destruct (find_loop_spec d2 key W2 T0) as (r & -> & Hr). simpl.
  rewrite <-(to_map_same d d2) by done. destruct r as [[l v]|]; simpl.
  { rewrite (proj1 (entries_lookup d2 key v W2)) by (by eapply loc_at_entries).
    exists d2, (KeyExists l). split_and!; eauto. }
  rewrite entries_lookup_None by done. set (table := dictIsRehashing d2).
  assert (ht_ok (get_ht d2 table)) as T.
  { destruct table eqn:Er; [by apply wf_ht1_ok|done]. }
  destruct (bucket_mask T (hashFunction key)) as (i & b & Hi & Hb & Hbk). rewrite Hbk. simpl. rewrite Hi.
  destruct (update_bucket d2 table i b ((key, val) :: b)) as (t' & -> & Hp' & Hpa' & _ & Hw); try done.
  { intros e [->|He]%elem_of_cons; [done|by eapply (ok_hash _ T)]. }
  { by right. }
  { rewrite zlen_cons. lia. }
  replace (zlen ((key, val) :: b) - zlen b) with 1 in * by (rewrite zlen_cons; lia).
  simpl. set (d' := set_ht _ _ _) in *.
  assert (entries d' ≡ₚ (key, val) :: entries d2) as He.
  { apply (Permutation_app_inv_l b). rewrite Hp'. solve_Permutation. }
  eexists d', _. split; [done|]. rewrite Hpa', He, Hp. split_and!; eauto.
  apply Hw; rewrite He.
  - rewrite fmap_cons, NoDup_cons. split; [done|apply W2].
  - rewrite zlen_cons, Hp. lia.
Qed.

(** Replacing the value of an entry in place. *)
Lemma set_val_spec d l key v val :
  dict_wf d -> loc_at d l (key, v) ->
  exists d', set_val d l val = Some d' /\ dict_wf d' /\ pauserehash d' = pauserehash d /\
    (key, v) :: entries d' ≡ₚ (key, val) :: entries d.
Proof.
  destruct l as [[table idx] n]. intros W (T & Htb & i & b & -> & Hb & Hn). unfold set_val.
  rewrite (bucket_lookup T), Hb. simpl. rewrite Hn. simpl.
  pose proof (delete_Permutation b n _ Hn) as Hd.
  assert (<[n := (key, val)]> b ≡ₚ (key, val) :: delete n b) as Hi.
  { rewrite insert_take_drop, delete_take_drop by (by eapply lookup_lt_Some). solve_Permutation. }
  destruct (update_bucket d table i b (<[n := (key, val)]> b)) as (t' & -> & Hp & Hpa & Hu & Hw); try done.
  { intros e He. rewrite Hi in He. apply elem_of_cons in He as [->|He].
    - apply (ok_hash _ T i b (key, v) Hb). by eapply list_elem_of_lookup_2.
    - apply (ok_hash _ T i b e Hb). rewrite Hd. by right. }
  { intros ->. done. }
  { unfold zlen. rewrite length_insert. lia. }
  assert (add_used t' (zlen (<[n := (key, val)]> b) - zlen b) = t') as Et.
  { unfold zlen. rewrite length_insert, Z.sub_diag. unfold add_used. rewrite Z.add_0_r, uint_small;
      [by destruct t'|]. rewrite Hu. pose proof (used_entries d W). pose proof (wf_count _ W).
    destruct table; simpl; lia. }
  rewrite Et in *. simpl. set (d' := set_ht _ _ _) in *. eexists d'. split; [done|].
  assert ((key, v) :: entries d' ≡ₚ (key, val) :: entries d) as He.
  { apply (Permutation_app_inv_l (delete n b)). rewrite <-!Permutation_middle.
    change ((key, v) :: delete n b ++ entries d') with (((key, v) :: delete n b) ++ entries d').
    change ((key, val) :: delete n b ++ entries d) with (((key, val) :: delete n b) ++ entries d).
    by rewrite <-Hd, <-Hi. }
  split_and!; [|done|done]. pose proof (Permutation_length He) as Hl. simpl in Hl.
  apply Hw; [|pose proof (wf_count _ W); unfold zlen in *; lia].
  assert ((entries d').*1 ≡ₚ (entries d).*1) as ->; [|apply W].
  apply (Permutation_cons_inv (a := key)). exact (fmap_Permutation fst _ _ He).
Qed.

Lemma delete_in_spec d (table : bool) key :
  dict_wf d -> ht_ok (get_ht d table) -> (table = true -> dictIsRehashing d = true) ->
  exists d' r, delete_in d table key (hashFunction key) = Some (d', r) /\
    match r with
    | Some e => dict_wf d' /\ pauserehash d' = pauserehash d /\ e.1 = key /\ e :: entries d' ≡ₚ entries d
    | None => d' = d /\ key ∉ (concat (buckets (get_ht d table))).*1
    end.
Proof.
  intros W T Htb. unfold delete_in.
  destruct (bucket_mask T (hashFunction key)) as (i & b & Hi & Hb & ->). simpl.
  destruct (chain_find key b) as [[n v]|] eqn:E; cycle 1.
  { eexists d, None. split; [done|]. split; [done|]. apply chain_find_None in E.
    intros ([k v] & -> & Hkv)%list_elem_of_fmap. apply E.
    apply (key_in_bucket T i b k v Hi Hb) in Hkv. apply list_elem_of_fmap. by exists (k, v). }
  apply chain_find_Some in E. rewrite E. simpl. rewrite Hi, <-delete_take_drop.
  pose proof (delete_Permutation b n _ E) as Hd.
  assert (zlen b = 1 + zlen (delete n b)) as Hl
    by (by rewrite <-(zlen_cons (key, v)), <-Hd).
  destruct (update_bucket d table i b (delete n b)) as (t' & -> & Hp & Hpa & _ & Hw); try done.
  { intros e He. apply (ok_hash _ T i b e Hb). rewrite Hd. by right. }
  { intros ->. done. }
  { lia. }
  replace (zlen (delete n b) - zlen b) with (-1) in * by lia. simpl. set (d' := set_ht _ _ _) in *.
  assert ((key, v) :: entries d' ≡ₚ entries d) as He.
  { apply (Permutation_app_inv_l (delete n b)). rewrite <-Hp, <-Permutation_middle.
    change (((key, v) :: delete n b) ++ entries d' ≡ₚ b ++ entries d'). by rewrite <-Hd. }
  eexists d', _. split; [done|]. split_and!; try done. apply Hw.
  - pose proof (wf_nodup _ W) as Hnd. rewrite <-He, fmap_cons in Hnd. by inversion Hnd.
  - pose proof (wf_count _ W) as Hc. rewrite <-He, zlen_cons in Hc. lia.
Qed.

(** Deleting returns the entry of the key, which is no longer in the table. *)
Lemma dictGenericDelete_spec d key :
  dict_wf d ->
  exists d' r, dictGenericDelete d key = Some (d', r) /\ dict_wf d' /\ pauserehash d' = pauserehash d /\
    match r with
    | Some e => e.1 = key /\ e :: entries d' ≡ₚ entries d
    | None => entries d' ≡ₚ entries d /\ key ∉ (entries d).*1
    end.
Proof.
  intros W. unfold dictGenericDelete. destruct (used_entries d W) as (Hu & H0 & H1).
  destruct (_ && _) eqn:Ec.
  { rewrite andb_true_iff in Ec. exists d, None. split_and!; try done.
    rewrite (zlen_0_inv (entries d)) by lia. apply not_elem_of_nil. }
  destruct (maybe_step_same d W) as (d1 & -> & [W1 Hp1 Hpa1]). simpl.
  assert (ht_ok (ht0 d1)) as T0.
  { apply wf_ht0_ok; [done|]. left. intros Hnil.
    rewrite Hnil in Hp1. symmetry in Hp1. apply Permutation_nil_r in Hp1.
    rewrite Hp1, zlen_nil in Hu. rewrite andb_false_iff in Ec. lia. }
  destruct (delete_in_spec d1 false key W1 T0) as (d2 & r & -> & Hr); [done|]. simpl.
  destruct r as [e|].
  { destruct Hr as (W2 & Hpa2 & Hk & Hp2). exists d2, (Some e). rewrite Hp2, Hp1. split_and!; done || congruence. }
  destruct Hr as [-> Hn]. destruct (dictIsRehashing d1) eqn:Er; simpl; cycle 1.
  { exists d1, None. split_and!; try done. rewrite <-Hp1. unfold entries.
    rewrite fmap_app, not_elem_of_app, (wf_ht1_reset d1 W1 Er). split; [done|apply not_elem_of_nil]. }
  destruct (delete_in_spec d1 true key W1 (wf_ht1_ok d1 W1 Er)) as (d2 & r & -> & Hr); [done|].
  exists d2, r. split; [done|]. destruct r as [e|].
  - destruct Hr as (W2 & Hpa2 & Hk & Hp2). rewrite Hp2, Hp1. split_and!; done || congruence.
  - destruct Hr as [-> Hn']. split_and!; try done. rewrite <-Hp1. unfold entries.
    by rewrite fmap_app, not_elem_of_app.
Qed.

Lemma to_map_delete d d' e :
  dict_wf d -> e :: entries d' ≡ₚ entries d ->
  to_map d !! e.1 = Some e.2 /\ to_map d' = delete e.1 (to_map d).
Proof.
  intros W Hp. destruct e as [k v]. simpl.
  assert (to_map d = <[k := v]> (to_map d')) as E.
  { symmetry. change (<[k := v]> (to_map d')) with (list_to_map ((k, v) :: entries d') : gmap K V).
    apply list_to_map_proper; [|done]. rewrite Hp. apply W. }
  rewrite E, lookup_insert_eq, delete_insert_id; [done|].
  apply not_elem_of_list_to_map. pose proof (wf_nodup _ W) as Hnd. rewrite <-Hp in Hnd.
  by inversion Hnd.
Qed.

(** Removing all entries. *)
Lemma clear_loop_all tb :
  zlen (concat tb) < 2 ^ 64 -> clear_loop tb (zlen (concat tb)) = concat tb.
Proof.
  induction tb as [|b tb IH]; intros Hl; [done|]. cbn [clear_loop concat] in *.
  rewrite zlen_app in *. pose proof (zlen_nonneg b). pose proof (zlen_nonneg (concat tb)).
  rewrite Z.gtb_ltb. destruct (Z.ltb_spec 0 (zlen b + zlen (concat tb))).
  - f_equal. rewrite uint_small, Z.add_simpl_l by lia. apply IH. lia.
  - by rewrite (zlen_0_inv b), (zlen_0_inv (concat tb)) by lia.
Qed.

Lemma dictClear_spec t : ht_ok t \/ t = _dictReset -> ht_used t < 2 ^ 64 ->
  _dictClear t = (concat (buckets t), _dictReset).
Proof.
  unfold _dictClear. intros [T| ->] Hu; [|done]. fold (buckets t). rewrite (ok_used _ T) in *.
  by rewrite clear_loop_all.
Qed.

(** ** Correctness of the operations *)

(** dictAdd on a well-formed dictionary (with room for one more entry)
    never fails internally: a key already present leaves the map unchanged and
    returns DICT_ERR; a new key is inserted with its value and DICT_OK is
    returned.  The dictionary stays well formed, whatever rehashing step or
    expansion the call triggered. *)
Theorem dictAdd_correct can d key val :
  dict_wf d -> zlen (entries d) < 2 ^ 60 ->
  exists d', dictAdd can d key val = Some (d', bool_decide (to_map d !! key = None)) /\ dict_wf d' /\
    to_map d' = match to_map d !! key with Some _ => to_map d | None => <[key := val]> (to_map d) end.
Proof.
  intros W Hc. unfold dictAdd.
  destruct (dictAddRaw_spec can d key val W Hc) as (d' & r & -> & W' & Hpa & Hr).
  simpl. exists d'. destruct (to_map d !! key) as [v|].
  - destruct Hr as ((l & -> & _) & Hp). split_and!; [done..|by apply to_map_perm].
  - destruct Hr as ((idx & ->) & Hp). split_and!; [done..|by apply to_map_cons].
Qed.

(** Replacing the value of a key. *)
Lemma to_map_update d d' k v w :
  dict_wf d -> dict_wf d' -> to_map d !! k = Some v ->
  (k, v) :: entries d' ≡ₚ (k, w) :: entries d -> to_map d' = <[k := w]> (to_map d).
Proof.
  intros W W' Hk Hp. apply entries_lookup, elem_of_Permutation in Hk as [l Hl]; [|done].
  assert (entries d' ≡ₚ (k, w) :: l) as Hl'.
  { apply (Permutation_cons_inv (a := (k, v))). rewrite Hp, Hl. apply Permutation_swap. }
  unfold to_map. rewrite (list_to_map_proper _ _ (wf_nodup _ W) Hl).
  rewrite (list_to_map_proper _ _ (wf_nodup _ W') Hl'). simpl. by rewrite insert_insert_eq.
Qed.

Lemma dictReplace_spec can d key val :
  dict_wf d -> zlen (entries d) < 2 ^ 60 ->
  exists d', dictReplace can d key val = Some (d', bool_decide (to_map d !! key = None)) /\ dict_wf d' /\
    to_map d' = <[key := val]> (to_map d) /\ zlen (entries d') <= zlen (entries d) + 1.
Proof.
  intros W Hc. unfold dictReplace.
  destruct (dictAddRaw_spec can d key val W Hc) as (d1 & r & -> & W1 & Hpa & Hr). simpl.
  destruct (to_map d !! key) as [v|] eqn:Ek.
  - destruct Hr as ((l & -> & Hl) & Hp). simpl.
    destruct (set_val_spec d1 l key v val W1 Hl) as (d2 & -> & W2 & _ & Hp2). simpl.
    exists d2. split; [done|]. split; [done|]. rewrite <-(to_map_perm d d1) in Ek |- * by done.
    split; [by eapply to_map_update|]. apply zlen_Permutation in Hp2. rewrite !zlen_cons, Hp in Hp2. lia.
  - destruct Hr as ((idx & ->) & Hp). exists d1. split; [done|]. split; [done|].
    split; [by apply to_map_cons|]. rewrite Hp, zlen_cons. lia.
Qed.

(** dictReplace stores the value under the key whether the key was there or
    not, and tells which of the two happened. *)
Theorem dictReplace_correct can d key val :
  dict_wf d -> zlen (entries d) < 2 ^ 60 ->
  exists d', dictReplace can d key val = Some (d', bool_decide (to_map d !! key = None)) /\ dict_wf d' /\
    to_map d' = <[key := val]> (to_map d).
Proof. intros W Hc. destruct (dictReplace_spec can d key val W Hc) as (d' & ? & ? & ? & _). eauto. Qed.

Lemma dictDelete_spec d key :
  dict_wf d ->
  exists d' r, dictGenericDelete d key = Some (d', r) /\ dict_wf d' /\
    r = (pair key) <$> to_map d !! key /\
    to_map d' = delete key (to_map d) /\ zlen (entries d') <= zlen (entries d).
Proof.
  intros W. destruct (dictGenericDelete_spec d key W) as (d' & r & -> & W' & _ & Hr).
  exists d', r. split; [done|]. split; [done|]. destruct r as [e|].
  - destruct Hr as [<- Hp]. destruct (to_map_delete d d' e W Hp) as [-> ->].
    split_and!; [by destruct e|done|]. rewrite <-Hp, zlen_cons. lia.
  - destruct Hr as [Hp Hn]. rewrite (entries_lookup_None d key Hn).
    split; [done|]. rewrite Hp, (to_map_perm d d') by done. split; [|done].
    by rewrite delete_id by by apply entries_lookup_None.
Qed.

(** dictGenericDelete (behind dictDelete and dictUnlink) returns the entry
    of the key exactly when the map has it, and the map afterwards is the map
    without the key. *)
Theorem dictDelete_correct d key :
  dict_wf d ->
  exists d', dictUnlink d key = Some (d', pair key <$> to_map d !! key) /\
    dictDelete d key = Some (d', bool_decide (is_Some (to_map d !! key))) /\ dict_wf d' /\
    to_map d' = delete key (to_map d).
Proof.
  intros W. unfold dictDelete, dictUnlink.
  destruct (dictDelete_spec d key W) as (d' & r & -> & W' & -> & Hm & _). exists d'. simpl.
  split_and!; try done. do 2 f_equal. apply bool_decide_ext. by rewrite fmap_is_Some.
Qed.

(** Clearing frees every entry once and leaves an empty dictionary. *)
Lemma dictEmpty_spec d :
  dict_wf d -> dictEmpty d = (entries d, dictCreate) /\ dictRelease d = entries d.
Proof.
  intros W. destruct (used_entries d W) as (Hu & H0 & H1). pose proof (wf_count _ W).
  assert ((ht_ok (ht0 d) \/ ht0 d = _dictReset) /\ (ht_ok (ht1 d) \/ ht1 d = _dictReset)) as [T0 T1].
  { pose proof (wf_tables _ W) as Ht. destruct (dictIsRehashing d); [|destruct Ht as [? []]; auto]. destruct Ht as (? & ? & _). auto. }
  unfold dictEmpty, dictRelease. rewrite !dictClear_spec by (done || lia). done.
Qed.

Lemma dictCreate_wf : dict_wf dictCreate.
Proof. split; simpl; [auto|constructor|done]. Qed.

(** ** Incremental rehashing terminates *)

(** [calls] calls of [dictRehash(d, n)], as a client in a loop makes them. *)
Fixpoint rehash_calls (calls n : nat) (d : dict K V) : option (dict K V) :=
  match calls with
  | O => Some d
  | S calls => '(d, more) ← dictRehash d n; rehash_calls calls n d
  end.

(** C18: incremental rehashing finishes: however small the step [n], as many
    calls as the first table has buckets left move every entry to the second
    table and make it the only one; no entry is lost, added or duplicated. *)
Theorem dictRehash_terminates calls n d :
  dict_wf d -> (0 < n)%nat -> Z.of_nat n * 10 < 2 ^ 31 ->
  ht_size (ht0 d) - rehashidx d <= Z.of_nat calls ->
  exists d', rehash_calls calls n d = Some d' /\ dictIsRehashing d' = false /\ dict_wf d' /\
    entries d' ≡ₚ entries d /\ to_map d' = to_map d.
Proof.
  intros W Hn Hn' Hc.
  assert (exists d', rehash_calls calls n d = Some d' /\ dictIsRehashing d' = false /\ same_entries d d')
    as (d' & ? & ? & S).
  { revert d W Hc. induction calls as [|calls IH]; intros d W Hc; cbn [rehash_calls].
    - exists d. split_and!; [done| |by apply same_refl]. pose proof (wf_tables _ W) as Ht.
      destruct (dictIsRehashing d); [lia|done].
    - destruct (dictRehash_spec d n W Hn') as (d1 & more & -> & W1 & Hp & Hm & Hpa & Hid & Hpr). simpl.
      assert (exists d', rehash_calls calls n d1 = Some d' /\ dictIsRehashing d' = false /\ same_entries d1 d')
        as (d' & ? & ? & S); [|exists d'; split_and!; try done; by eapply same_trans; [split|]].
      destruct (dictIsRehashing d1) eqn:Er.
      + apply IH; [done|]. destruct (dictIsRehashing d) eqn:Er0; [|rewrite Hid in Er; congruence].
        destruct Hpr as [? Hs]; [done..|]. lia.
      + clear -W1 Er Hn'. exists d1. split_and!; [|done|by apply same_refl].
        induction calls as [|calls IH]; [done|]. cbn [rehash_calls]. unfold dictRehash. by rewrite Er. }
  exists d'. split_and!; [done..|apply S|apply S|by apply to_map_same].
Qed.

(** ** Refinement: any sequence of operations behaves as on a finite map *)

Inductive op :=
  | OpAdd (k : K) (v : V)
  | OpReplace (k : K) (v : V)
  | OpDelete (k : K)
  | OpUnlink (k : K)
  | OpFetchValue (k : K)
  | OpSize
  | OpEmpty
  | OpExpand (size : Z)
  | OpTryExpand (alloc : bool) (size : Z)
  | OpResize
  | OpRehash (n : nat)
  | OpPauseRehashing
  | OpResumeRehashing.

Inductive result :=
  | RBool (b : bool)
  | RValue (v : option V)
  | REntry (e : option entry)
  | RSize (n : Z)
  | RNone.

(** One call on the dictionary; [can] is the current value of dict_can_resize.
    The outcomes of the calls that only rearrange the tables are not observed. *)
Definition dict_op (can : bool) (o : op) (d : dict K V) : option (dict K V * result) :=
  match o with
  | OpAdd k v => prod_map id RBool <$> dictAdd can d k v
  | OpReplace k v => prod_map id RBool <$> dictReplace can d k v
  | OpDelete k => prod_map id RBool <$> dictDelete d k
  | OpUnlink k => prod_map id REntry <$> dictUnlink d k
  | OpFetchValue k => prod_map id RValue <$> dictFetchValue d k
  | OpSize => Some (d, RSize (dictSize d))
  | OpEmpty => Some (snd (dictEmpty d), RNone)
  | OpExpand size => Some (fst (dictExpand d size), RNone)
  | OpTryExpand alloc size => Some (fst (dictTryExpand alloc d size), RNone)
  | OpResize => Some (fst (dictResize can d), RNone)
  | OpRehash n => prod_map id (fun _ => RNone) <$> dictRehash d n
  | OpPauseRehashing => Some (dictPauseRehashing d, RNone)
  | OpResumeRehashing => Some (dictResumeRehashing d, RNone)
  end.

(** The same call on the finite map. *)
Definition map_op (o : op) (m : gmap K V) : gmap K V * result :=
  match o with
  | OpAdd k v => (match m !! k with Some _ => m | None => <[k := v]> m end, RBool (bool_decide (m !! k = None)))
  | OpReplace k v => (<[k := v]> m, RBool (bool_decide (m !! k = None)))
  | OpDelete k => (delete k m, RBool (bool_decide (is_Some (m !! k))))
  | OpUnlink k => (delete k m, REntry (pair k <$> m !! k))
  | OpFetchValue k => (m, RValue (m !! k))
  | OpSize => (m, RSize (Z.of_nat (size m)))
  | OpEmpty => (∅, RNone)
  | _ => (m, RNone)
  end.

(** dictRehash multiplies its argument by ten in an int, and an expansion the
    number of buckets by the size of a pointer in an unsigned long: what happens
    above 2^60 is [dictExpand_overflow]. *)
Definition op_ok (o : op) : Prop :=
  match o with
  | OpRehash n => Z.of_nat n * 10 < 2 ^ 31
  | OpExpand size | OpTryExpand _ size => size <= 2 ^ 60
  | _ => True
  end.

Fixpoint dict_run (ops : list (bool * op)) (d : dict K V) : option (dict K V * list result) :=
  match ops with
  | [] => Some (d, [])
  | (can, o) :: ops => '(d, r) ← dict_op can o d; '(d, rs) ← dict_run ops d; Some (d, r :: rs)
  end.

Fixpoint map_run (ops : list (bool * op)) (m : gmap K V) : gmap K V * list result :=
  match ops with
  | [] => (m, [])
  | (_, o) :: ops => let '(m, r) := map_op o m in let '(m, rs) := map_run ops m in (m, r :: rs)
  end.

Lemma size_to_map d : dict_wf d -> Z.of_nat (size (to_map d)) = zlen (entries d).
Proof.
  intros W. rewrite <-length_map_to_list. unfold to_map.
  pose proof (map_to_list_to_map (M := gmap K) (entries d) (wf_nodup _ W)) as Hp. by rewrite Hp.
Qed.

Lemma expand_same alloc d size try :
  dict_wf d -> size <= 2 ^ 60 -> same_entries d (fst (fst (_dictExpand alloc d size try))).
Proof. intros W Hs. by destruct (dictExpand_gen alloc d size try W Hs) as (d' & ok & f & -> & S & _). Qed.

Lemma dictExpand_same d size : dict_wf d -> size <= 2 ^ 60 -> same_entries d (fst (dictExpand d size)).
Proof.
  intros W Hs. pose proof (expand_same true d size false W Hs) as S. unfold dictExpand.
  by destruct (_dictExpand true d size false) as [[d' ok] f].
Qed.

Lemma dictResize_same can d :
  dict_wf d -> zlen (entries d) < 2 ^ 60 -> same_entries d (fst (dictResize can d)).
Proof.
  intros W Hc. unfold dictResize. destruct (_ || _); [by apply same_refl|].
  apply dictExpand_same; [done|]. destruct (used_entries d W) as (? & ? & ?).
  unfold DICT_HT_INITIAL_SIZE. case_ints; lia.
Qed.

Lemma wf_set_pause d n : dict_wf d -> dict_wf (set_pauserehash d n).
Proof. intros W. split; [apply (wf_tables _ W)|apply (wf_nodup _ W)|apply (wf_count _ W)]. Qed.

(** One step: the dictionary and the map move together. *)
Definition op_refines (can : bool) (o : op) (d : dict K V) : Prop :=
  exists d' r, dict_op can o d = Some (d', r) /\ dict_wf d' /\ map_op o (to_map d) = (to_map d', r) /\
    zlen (entries d') <= zlen (entries d) + 1.

Lemma op_refines_same can o d d' r :
  dict_op can o d = Some (d', r) -> map_op o (to_map d) = (to_map d, r) -> same_entries d d' ->
  op_refines can o d.
Proof.
  intros E Hm S. exists d', r. split; [done|]. split; [apply S|].
  rewrite (to_map_same _ _ S), (se_entries _ _ S). split; [done|lia].
Qed.

Lemma update_refines can o d :
  match o with OpAdd _ _ | OpReplace _ _ | OpDelete _ | OpUnlink _ => True | _ => False end ->
  dict_wf d -> zlen (entries d) < 2 ^ 60 -> op_refines can o d.
Proof.
  intros Ho W Hc. unfold op_refines. destruct o as [k v|k v|k|k| | | | | | | | |]; try done; simpl.
  - unfold dictAdd. destruct (dictAddRaw_spec can d k v W Hc) as (d' & r & -> & W' & Hpa & Hr). simpl.
    exists d'. destruct (to_map d !! k) as [w|] eqn:Ek; destruct Hr as (Hr & Hp).
    + destruct Hr as (l & -> & _). eexists. split; [done|]. split; [done|].
      rewrite Hp, (to_map_perm d d') by done. split; [done|lia].
    + destruct Hr as (idx & ->). eexists. split; [done|]. split; [done|].
      rewrite (to_map_cons d d' k v), Hp, zlen_cons by done. split; [done|lia].
  - destruct (dictReplace_spec can d k v W Hc) as (d' & -> & W' & Hm & Hl). simpl.
    eexists _, _. rewrite Hm. eauto.
  - unfold dictDelete. destruct (dictDelete_spec d k W) as (d' & r & -> & W' & -> & Hm & Hl). simpl.
    eexists _, _. rewrite Hm. split; [done|]. split; [done|]. split; [|lia]. do 2 f_equal.
    apply bool_decide_ext. by rewrite fmap_is_Some.
  - unfold dictUnlink. destruct (dictDelete_spec d k W) as (d' & r & -> & W' & -> & Hm & Hl). simpl.
    eexists _, _. rewrite Hm. split; [done|]. split; [done|]. split; [done|lia].
Qed.

Lemma op_refines_all can o d :
  dict_wf d -> op_ok o -> zlen (entries d) < 2 ^ 60 -> op_refines can o d.
Proof.
  intros W Ho Hc. destruct o as [k v|k v|k|k|k| | |sz|al sz| |n| |]; try by apply update_refines.
  - destruct (dictFind_spec d k W) as (d' & r & E & S & Hr).
    eapply (op_refines_same _ _ _ d' (RValue (snd <$> r))); [| |done]; simpl.
    + unfold dictFetchValue. by rewrite E.
    + destruct r as [[l v]|]; [by destruct Hr as [-> _]|by rewrite Hr].
  - eapply op_refines_same; [done| |by apply same_refl]. simpl.
    by rewrite size_to_map, dictSize_entries.
  - exists dictCreate, RNone. cbn [dict_op map_op]. rewrite (proj1 (dictEmpty_spec d W)).
    split_and!; [done|apply dictCreate_wf|done|]. pose proof (zlen_nonneg (entries d)). simpl.
    change (zlen (entries dictCreate)) with 0. lia.
  - eapply op_refines_same; [done..|by apply dictExpand_same].
  - eapply op_refines_same; [done..|]. pose proof (expand_same al d sz true W Ho) as S.
    unfold dictTryExpand. by destruct (_dictExpand al d sz true) as [[d' ok] f].
  - eapply op_refines_same; [done..|by apply dictResize_same].
  - destruct (dictRehash_spec d n W Ho) as (d' & more & E & W' & Hp & _ & Hpa & _).
    eapply op_refines_same; [simpl; by rewrite E|done|by split].
  - eexists _, _. simpl. split; [done|]. split; [by apply wf_set_pause|]. split; [done|].
    change (entries (dictPauseRehashing d)) with (entries d). lia.
  - eexists _, _. simpl. split; [done|]. split; [by apply wf_set_pause|]. split; [done|].
    change (entries (dictResumeRehashing d)) with (entries d). lia.
Qed.

Lemma dict_run_refines ops d :
  Forall op_ok ops.*2 -> dict_wf d -> zlen (entries d) + zlen ops < 2 ^ 60 ->
  exists d' rs, dict_run ops d = Some (d', rs) /\ dict_wf d' /\ map_run ops (to_map d) = (to_map d', rs).
Proof.
  revert d. induction ops as [|[can o] ops IH]; intros d Ho W Hc.
  { exists d, []. done. }
  rewrite zlen_cons in Hc. rewrite fmap_cons in Ho. apply Forall_cons in Ho as [Ho Hos].
  pose proof (zlen_nonneg ops). cbn [dict_run map_run].
  destruct (op_refines_all can o d W Ho) as (d1 & r & -> & W1 & -> & Hl); [lia|]. simpl.
  destruct (IH d1 Hos W1) as (d2 & rs & -> & W2 & ->); [lia|]. simpl. eauto.
Qed.

(** C3: refinement of the hash table to a finite map: any sequence of calls
    from an empty dictionary - additions, replacements, deletions, lookups,
    sizes, clearing, explicit expansion and shrinking, incremental rehashing,
    pausing it, with resizing enabled or disabled at any time - succeeds and
    returns exactly what the same calls return on a finite map.  The sizes asked
    for and the number of calls stay below 2^60, so that the bytes of a table
    can be counted in an unsigned long, and dictRehash is called with at most
    2^31/10 steps. *)
Theorem dict_refines_map ops :
  Forall op_ok ops.*2 -> zlen ops < 2 ^ 60 ->
  exists d rs, dict_run ops dictCreate = Some (d, rs) /\ dict_wf d /\ map_run ops ∅ = (to_map d, rs).
Proof.
  intros Ho Hl. apply dict_run_refines; [done|apply dictCreate_wf|].
  change (zlen (entries dictCreate)) with 0. lia.
Qed.

(** Asked for more than 2^60 buckets, dictExpand reports success, but the
    number of bytes wraps around to zero: the table has its size and mask and
    not one bucket, and the first insertion reads outside it. *)
Theorem dictExpand_overflow can size key val :
  2 ^ 60 < size ->
  exists d', dictExpand dictCreate size = (d', true) /\ 2 ^ 61 <= ht_size (ht0 d') /\
    ht_table (ht0 d') = Some [] /\ dictAdd can d' key val = None.
Proof.
  intros Hs. assert (exists k : nat, (61 <= k <= 63)%nat /\ _dictNextPower size = 2 ^ Z.of_nat k) as (k & Hk & E).
  { destruct (decide (size < LONG_MAX)) as [Hl|Hl].
    - destruct (dictNextPower_spec size Hl) as (k & Hk & E & Hle & _). exists k. split; [|done].
      assert (2 ^ 60 < 2 ^ Z.of_nat k) as Hlt by lia. apply Z.pow_lt_mono_r_iff in Hlt; lia.
    - exists 63%nat. split; [lia|]. unfold _dictNextPower. destruct (Z.geb_spec size LONG_MAX); [done|lia]. }
  assert (2 ^ 61 <= 2 ^ Z.of_nat k) as Hge by (apply Z.pow_le_mono_r; lia).
  unfold dictExpand, _dictExpand. simpl. rewrite Z.gtb_ltb, (proj2 (Z.ltb_ge _ _)), E by lia.
  destruct (Z.eqb_spec (2 ^ Z.of_nat k) 0) as [?|_]; [lia|].
  assert (u64 (2 ^ Z.of_nat k * sizeof_dictEntryp) = 0) as ->.
  { unfold uint, sizeof_dictEntryp. change 8 with (2 ^ 3). rewrite <-Z.pow_add_r by lia.
    replace (Z.of_nat k + 3) with (Z.of_nat k - 61 + 64) by lia. rewrite Z.pow_add_r by lia. apply Z.mod_mul. lia. }
  eexists. split; [done|]. split; [done|]. split; [done|].
  unfold dictAdd, dictAddRaw, _dictKeyIndex, _dictExpandIfNeeded. simpl.
  destruct (Z.eqb_spec (2 ^ Z.of_nat k) 0) as [?|_]; [lia|].
  rewrite Z.geb_leb, (proj2 (Z.leb_gt _ _)) by lia. simpl. unfold find_loop, find_in, bucket. simpl.
  by destruct (_ <? 0).
Qed.

End facts.
End callbacks.
End dict.

(** ** Witnesses: integer keys hashed to themselves *)

Definition int_hash (k : Z) : Z := u64 k.

Lemma Zeqb_spec (a b : Z) : (a =? b) = true <-> a = b.
Proof. apply Z.eqb_eq. Qed.

(** Five insertions (the fifth starts a rehashing), then a mix of everything. *)
Definition sample_ops : list (bool * op) :=
  [(true, OpAdd 1 10); (true, OpAdd 5 50); (true, OpAdd 9 90); (true, OpAdd 2 20); (true, OpAdd 7 70);
   (true, OpAdd 5 51); (false, OpReplace 9 91); (true, OpFetchValue 9); (true, OpDelete 5);
   (true, OpUnlink 2); (true, OpSize); (true, OpRehash 3); (true, OpResize); (true, OpFetchValue 5)].

Lemma dict_refines_map_witness :
  exists d rs, dict_run int_hash Z.eqb None sample_ops dictCreate = Some (d, rs) /\ dict_wf int_hash d /\
    map_run sample_ops ∅ = (to_map d, rs) /\ length rs = 14%nat.
Proof.
  destruct (dict_refines_map int_hash Z.eqb None Zeqb_spec sample_ops) as (d & rs & E & W & M).
  - repeat constructor; simpl; lia.
  - reflexivity.
  - exists d, rs. split; [exact E|]. split; [exact W|]. split; [exact M|].
    assert (snd (map_run sample_ops ∅) = rs) as <- by (by rewrite M). reflexivity.
Defined.

Lemma dictAdd_correct_witness :
  exists d', dictAdd int_hash Z.eqb None true (@dictCreate Z Z) 3 30 = Some (d', true) /\
    to_map d' !! 3 = Some 30.
Proof.
  destruct (dictAdd_correct int_hash Z.eqb None Zeqb_spec true (@dictCreate Z Z) 3 30) as (d' & E & _ & M).
  - apply dictCreate_wf.
  - reflexivity.
  - exists d'. split; [exact E|]. rewrite M. reflexivity.
Defined.

Lemma dictReplace_correct_witness :
  exists d', dictReplace int_hash Z.eqb None true (@dictCreate Z Z) 3 30 = Some (d', true) /\
    to_map d' !! 3 = Some 30.
Proof.
  destruct (dictReplace_correct int_hash Z.eqb None Zeqb_spec true (@dictCreate Z Z) 3 30) as (d' & E & _ & M).
  - apply dictCreate_wf.
  - reflexivity.
  - exists d'. split; [exact E|]. rewrite M. reflexivity.
Defined.

(** A dictionary in the middle of a rehashing from 4 to 8 buckets. *)
Definition sample_dict : dict Z Z :=
  match dict_run int_hash Z.eqb None (take 5 sample_ops) dictCreate with
  | Some (d, _) => d
  | None => dictCreate
  end.

Lemma sample_dict_wf : dict_wf int_hash sample_dict.
Proof.
  destruct (dict_run_refines int_hash Z.eqb None Zeqb_spec (take 5 sample_ops) dictCreate)
    as (d & rs & E & W & _).
  - repeat constructor.
  - apply dictCreate_wf.
  - reflexivity.
  - unfold sample_dict. by rewrite E.
Qed.

Lemma dictDelete_correct_witness :
  exists d', dictDelete int_hash Z.eqb sample_dict 5 = Some (d', true) /\ to_map d' !! 5 = None /\
    dictIsRehashing sample_dict = true.
Proof.
  destruct (dictDelete_correct int_hash Z.eqb Zeqb_spec sample_dict 5 sample_dict_wf) as (d' & _ & E & _ & M).
  exists d'. split; [rewrite E; vm_compute; reflexivity|]. rewrite M. split; [apply lookup_delete_eq|].
  vm_compute. reflexivity.
Defined.

Lemma dictRehash_terminates_witness :
  exists d', rehash_calls int_hash 4 1 sample_dict = Some d' /\ dictIsRehashing d' = false /\
    to_map d' = to_map sample_dict.
Proof.
  destruct (dictRehash_terminates int_hash 4 1 sample_dict sample_dict_wf) as (d' & E & R & _ & _ & M).
  - lia.
  - reflexivity.
  - vm_compute. discriminate.
  - exists d'. split; [exact E|]. split; [exact R|exact M].
Defined.
