(* ===== verification/DictScan.v ===== *)
(** * dict.c: dictScan and its reversed binary cursor

    [rev] is the parallel bit reversal of dict.c and [dictScan] one call of the
    stateless iteration.  In reversed order a bucket of a table of size 2^k is
    an interval of 2^(64-k) consecutive reversed hashes, whatever k: this is
    why a scan may go on while the table is resized, and it is what the proofs
    below use.  [dictScan_complete] is the guarantee the comment above dictScan
    states. *)

From S2P Require Import Prelude Dict.

(** [while ((s >>= 1) > 0)]; [s] is the bit size before the shift. *)
Fixpoint rev_loop (fuel : nat) (s mask v : Z) : Z :=
  match fuel with
  | O => v
  | S fuel =>
    let s := Z.shiftr s 1 in
    if s >? 0 then
      let mask := Z.lxor mask (u64 (Z.shiftl mask s)) in
      let v := Z.lor (Z.land (Z.shiftr v s) mask) (Z.land (u64 (Z.shiftl v s)) (u64 (Z.lnot mask))) in
      rev_loop fuel s mask v
    else v
  end.

Definition rev (v : Z) : Z := rev_loop 7 64 (u64 (Z.lnot 0)) v.

(** [v |= ~m; v = rev(v); v++; v = rev(v);] *)
Definition scan_next (v m : Z) : Z := rev (u64 (rev (Z.lor v (u64 (Z.lnot m))) + 1)).

Section scan.
Context {K V : Type} `{Countable K}.

Abbreviation entry := (K * V)%type.

(** The do-while over the expansions of the cursor in the larger table. *)
Fixpoint scan_loop (fuel : nat) (t1 : dictht K V) (m0 m1 v : Z) : option (list entry * Z) :=
  match fuel with
  | O => None
  | S fuel =>
    de ← bucket t1 (Z.land v m1);
    let v := scan_next v m1 in
    if negb (Z.land v (Z.lxor m0 m1) =? 0) then
      '(es, v) ← scan_loop fuel t1 m0 m1 v; Some (de ++ es, v)
    else Some (de, v)
  end.

(** The entries passed to [fn], in order, and the next cursor. *)
Definition dictScan (d : dict K V) (v : Z) : option (dict K V * list entry * Z) :=
  if dictSize d =? 0 then Some (d, [], 0)
  else
    let d := dictPauseRehashing d in
    '(es, v) ←
      (if negb (dictIsRehashing d) then
        let t0 := ht0 d in
        let m0 := ht_sizemask t0 in
        de ← bucket t0 (Z.land v m0);
        Some (de, scan_next v m0)
      else
        let '(t0, t1) := if ht_size (ht0 d) >? ht_size (ht1 d) then (ht1 d, ht0 d) else (ht0 d, ht1 d) in
        let m0 := ht_sizemask t0 in
        let m1 := ht_sizemask t1 in
        de ← bucket t0 (Z.land v m0);
        '(es, v) ← scan_loop (S (Z.to_nat (ht_size t1))) t1 m0 m1 v;
        Some (de ++ es, v));
    Some (dictResumeRehashing d, es, v).

End scan.

(** ** Bit reversal *)

(** One round of the loop exchanges neighbouring groups of [s] bits. *)
Definition rev_step (s mask v : Z) : Z :=
  Z.lor (Z.land (Z.shiftr v s) mask) (Z.land (u64 (Z.shiftl v s)) (u64 (Z.lnot mask))).

Definition step_mask_ok (s mask : Z) : bool :=
  forallb (fun i => if Z.testbit mask i then Z.lxor i s =? i + s else (Z.lxor i s =? i - s) && (s <=? i))
          (Z.of_nat <$> seq 0 64).

Lemma in_bits i : 0 <= i < 64 -> In i (Z.of_nat <$> seq 0 64).
Proof.
  intros Hi. apply list_elem_of_In, list_elem_of_fmap. exists (Z.to_nat i).
  split; [lia|]. apply elem_of_seq. lia.
Qed.

Lemma u64_testbit x i : 0 <= i < 64 -> Z.testbit (u64 x) i = Z.testbit x i.
Proof. intros Hi. unfold uint. apply Z.mod_pow2_bits_low. lia. Qed.

Lemma rev_step_testbit s mask v i :
  step_mask_ok s mask = true -> 0 <= s -> 0 <= i < 64 ->
  Z.testbit (rev_step s mask v) i = Z.testbit v (Z.lxor i s).
Proof.
  intros Hm Hs Hi. unfold step_mask_ok in Hm. rewrite forallb_forall in Hm.
  specialize (Hm i (in_bits i Hi)). unfold rev_step.
  rewrite Z.lor_spec, !Z.land_spec, !u64_testbit, Z.lnot_spec, Z.shiftr_spec by lia.
  destruct (Z.testbit mask i).
  - apply Z.eqb_eq in Hm as ->. by rewrite andb_true_r, andb_false_r, orb_false_r.
  - apply andb_true_iff in Hm as [->%Z.eqb_eq Hle%Z.leb_le].
    by rewrite Z.shiftl_spec, andb_false_r, andb_true_r by lia.
Qed.

Lemma rev_steps v :
  rev v = rev_step 1 0x5555555555555555 (rev_step 2 0x3333333333333333 (rev_step 4 0x0f0f0f0f0f0f0f0f
            (rev_step 8 0x00ff00ff00ff00ff (rev_step 16 0x0000ffff0000ffff (rev_step 32 0xffffffff v))))).
Proof. reflexivity. Qed.

Lemma lxor_bits i s : 0 <= i < 64 -> 0 <= s < 64 -> 0 <= Z.lxor i s < 64.
Proof.
  intros Hi Hs. split; [apply Z.lxor_nonneg; lia|].
  destruct (Z.eq_dec (Z.lxor i s) 0) as [->|Hne]; [lia|].
  apply (Z.log2_lt_pow2 _ 6); [pose proof (proj2 (Z.lxor_nonneg i s)); lia|].
  pose proof (Z.log2_lxor i s ltac:(lia) ltac:(lia)).
  assert (Z.log2 i < 6) by (destruct (Z.eq_dec i 0) as [->|]; [done|apply (Z.log2_lt_pow2 i 6); lia]).
  assert (Z.log2 s < 6) by (destruct (Z.eq_dec s 0) as [->|]; [done|apply (Z.log2_lt_pow2 s 6); lia]). lia.
Qed.

(** [rev] reverses the 64 bits of a word. *)
Lemma rev_testbit v i : 0 <= i < 64 -> Z.testbit (rev v) i = Z.testbit v (63 - i).
Proof.
  intros Hi. rewrite rev_steps.
  rewrite !rev_step_testbit by (reflexivity || lia || (repeat apply lxor_bits; lia)).
  f_equal. assert (forallb (fun i => Z.lxor (Z.lxor (Z.lxor (Z.lxor (Z.lxor (Z.lxor i 1) 2) 4) 8) 16) 32 =? 63 - i)
    (Z.of_nat <$> seq 0 64) = true) as Hf by reflexivity.
  rewrite forallb_forall in Hf. by apply Z.eqb_eq, Hf, in_bits.
Qed.

(** Words are equal when their 64 bits are. *)
Lemma word_testbit_high x i : in_u 64 x -> 64 <= i -> Z.testbit x i = false.
Proof. intros Hx Hi. rewrite <-(uint_small 64 x) by done. apply Z.mod_pow2_bits_high. lia. Qed.

Lemma word_eq x y :
  in_u 64 x -> in_u 64 y -> (forall i, 0 <= i < 64 -> Z.testbit x i = Z.testbit y i) -> x = y.
Proof.
  intros Hx Hy Hb. apply Z.bits_inj'. intros i Hi. destruct (decide (i < 64)); [apply Hb; lia|].
  by rewrite !word_testbit_high by (done || lia).
Qed.

Lemma rev_step_range s mask v : in_u 64 mask -> in_u 64 (rev_step s mask v).
Proof.
  intros Hm. assert (u64 (rev_step s mask v) = rev_step s mask v) as <-; [|apply uint_range; lia].
  apply Z.bits_inj'. intros i Hi. destruct (decide (i < 64)); [apply u64_testbit; lia|].
  unfold uint at 1. rewrite Z.mod_pow2_bits_high by lia. unfold rev_step.
  rewrite Z.lor_spec, !Z.land_spec, (word_testbit_high mask) by (done || lia).
  rewrite (word_testbit_high (u64 (Z.lnot mask))) by (first [lia|apply uint_range; lia]).
  by rewrite !andb_false_r.
Qed.

Lemma rev_range v : in_u 64 (rev v).
Proof. rewrite rev_steps. apply rev_step_range. lia. Qed.

Lemma rev_involutive v : in_u 64 v -> rev (rev v) = v.
Proof.
  intros Hv. apply word_eq; [apply rev_range|done|]. intros i Hi.
  rewrite !rev_testbit by lia. f_equal. lia.
Qed.

Lemma rev_inj v w : in_u 64 v -> in_u 64 w -> rev v = rev w -> v = w.
Proof. intros Hv Hw E. by rewrite <-(rev_involutive v), <-(rev_involutive w), E. Qed.

(** ** The cursor in reversed order *)

(** In reversed order the bucket of a hash in a table of size 2^k is the block
    of 2^(64-k) words that contains it. *)
Lemma bucket_block (k : nat) h v :
  (k <= 64)%nat -> in_u 64 h -> in_u 64 v ->
  Z.land h (Z.ones (Z.of_nat k)) = Z.land v (Z.ones (Z.of_nat k)) <->
  rev h / 2 ^ (64 - Z.of_nat k) = rev v / 2 ^ (64 - Z.of_nat k).
Proof.
  intros Hk Hh Hv. rewrite <-!Z.shiftr_div_pow2 by lia.
  assert (Z.land h (Z.ones (Z.of_nat k)) = Z.land v (Z.ones (Z.of_nat k)) <->
            forall i, 0 <= i < Z.of_nat k -> Z.testbit h i = Z.testbit v i) as ->.
  { split.
    - intros E i Hi. apply (f_equal (fun x => Z.testbit x i)) in E.
      by rewrite !Z.land_spec, Z.ones_spec_low, !andb_true_r in E by lia.
    - intros E. apply Z.bits_inj'. intros i Hi. rewrite !Z.land_spec.
      destruct (decide (i < Z.of_nat k)); [by rewrite E by lia|].
      by rewrite Z.ones_spec_high, !andb_false_r by lia. }
  split.
  - intros E. apply Z.bits_inj'. intros i Hi. rewrite !Z.shiftr_spec by lia.
    destruct (decide (i < Z.of_nat k)).
    + rewrite !rev_testbit by lia. apply E. lia.
    + by rewrite !word_testbit_high by (apply rev_range || lia).
  - intros E i Hi. apply (f_equal (fun x => Z.testbit x (Z.of_nat k - 1 - i))) in E.
    rewrite !Z.shiftr_spec, !rev_testbit in E by lia.
    by replace (63 - (Z.of_nat k - 1 - i + (64 - Z.of_nat k))) with i in E by lia.
Qed.

Lemma lor_ones_succ r j : 0 <= j -> Z.lor r (Z.ones j) + 1 = (r / 2 ^ j + 1) * 2 ^ j.
Proof.
  intros Hj. assert (Z.lor r (Z.ones j) = Z.ldiff r (Z.ones j) + Z.ones j) as ->.
  { assert (Z.land (Z.ldiff r (Z.ones j)) (Z.ones j) = 0) as H0.
    { apply Z.bits_inj'. intros i _. rewrite Z.land_spec, Z.ldiff_spec, Z.bits_0. by destruct (Z.testbit r i), (Z.testbit _ i). }
    rewrite (Z.add_nocarry_lxor _ _ H0), Z.lxor_lor by done.
    apply Z.bits_inj'. intros i _. rewrite !Z.lor_spec, Z.ldiff_spec.
    by destruct (Z.testbit r i), (Z.testbit _ i). }
  rewrite Z.ldiff_ones_r, Z.shiftl_mul_pow2, Z.shiftr_div_pow2, Z.ones_equiv by lia. lia.
Qed.

(** The next cursor is, in reversed order, the start of the next block. *)
Lemma rev_scan_next (k : nat) v :
  (k <= 64)%nat -> in_u 64 v ->
  rev (scan_next v (Z.ones (Z.of_nat k))) =
  u64 ((rev v / 2 ^ (64 - Z.of_nat k) + 1) * 2 ^ (64 - Z.of_nat k)).
Proof.
  intros Hk Hv. unfold scan_next. rewrite rev_involutive by (apply uint_range; lia).
  rewrite <-lor_ones_succ by lia. do 2 f_equal.
  apply Z.bits_inj'. intros i Hi. rewrite Z.lor_spec. destruct (decide (i < 64)).
  - rewrite !rev_testbit, Z.lor_spec, u64_testbit, Z.lnot_spec by lia. f_equal.
    destruct (decide (i < 64 - Z.of_nat k)).
    + by rewrite Z.ones_spec_high, Z.ones_spec_low by lia.
    + by rewrite Z.ones_spec_low, Z.ones_spec_high by lia.
  - rewrite !word_testbit_high by (apply rev_range || lia). by rewrite Z.ones_spec_high by lia.
Qed.

Lemma scan_next_range v m : in_u 64 (scan_next v m).
Proof. apply rev_range. Qed.

Lemma mod_pow2_0 x j :
  0 <= j -> x mod 2 ^ j = 0 <-> forall i, 0 <= i < j -> Z.testbit x i = false.
Proof.
  intros Hj. split.
  - intros E i Hi. rewrite <-(Z.mod_pow2_bits_low x j) by lia. by rewrite E, Z.bits_0.
  - intros E. apply Z.bits_inj'. intros i Hi. rewrite Z.bits_0. destruct (decide (i < j)).
    + rewrite Z.mod_pow2_bits_low by lia. apply E. lia.
    + apply Z.mod_pow2_bits_high. lia.
Qed.

(** The loop over the larger table stops at the start of a block of the
    smaller one. *)
Lemma scan_loop_exit (k0 k1 : nat) v :
  (k0 <= k1 <= 64)%nat -> in_u 64 v -> rev v mod 2 ^ (64 - Z.of_nat k1) = 0 ->
  Z.land v (Z.lxor (Z.ones (Z.of_nat k0)) (Z.ones (Z.of_nat k1))) = 0 <->
  rev v mod 2 ^ (64 - Z.of_nat k0) = 0.
Proof.
  intros Hk Hv H1. rewrite mod_pow2_0 in * by lia. split.
  - intros E i Hi. destruct (decide (i < 64 - Z.of_nat k1)); [apply H1; lia|].
    apply (f_equal (fun x => Z.testbit x (63 - i))) in E. rewrite Z.land_spec, Z.lxor_spec, Z.bits_0 in E.
    rewrite Z.ones_spec_high, Z.ones_spec_low, andb_true_r in E by lia. by rewrite rev_testbit by lia.
  - intros E. apply Z.bits_inj'. intros i Hi. rewrite Z.land_spec, Z.lxor_spec, Z.bits_0.
    destruct (decide (i < Z.of_nat k0)); [by rewrite !Z.ones_spec_low, andb_false_r by lia|].
    destruct (decide (i < Z.of_nat k1)); [|by rewrite !Z.ones_spec_high, andb_false_r by lia].
    specialize (E (63 - i)). rewrite rev_testbit in E by lia.
    replace (63 - (63 - i)) with i in E by lia. by rewrite E by lia.
Qed.

(** ** One call *)

Section scan_facts.
Context {K V : Type} `{Countable K}.
Context (hashFunction : K -> Z).
Context (hash_range : forall k, in_u 64 (hashFunction k)).

Abbreviation dict_wf := (dict_wf (K := K) (V := V) hashFunction).
Abbreviation ht_ok := (ht_ok (K := K) (V := V) hashFunction).

(** The reversed hash of an entry. *)
Definition rhash (e : K * V) : Z := rev (hashFunction e.1).

(** A table of size 2^k. *)
Definition table_of (k : nat) (t : dictht K V) : Prop :=
  ht_ok t /\ (2 <= k <= 63)%nat /\ ht_size t = 2 ^ Z.of_nat k /\ ht_sizemask t = Z.ones (Z.of_nat k).

Lemma ok_table_of t : ht_ok t -> exists k, table_of k t.
Proof.
  intros T. destruct (ok_size _ _ T) as (k & Hk & Hs). exists k. split_and!; try done; try lia.
  rewrite (ok_mask _ _ T), Hs, Z.ones_equiv. lia.
Qed.

(** The bucket at the cursor holds exactly the entries of the cursor's block. *)
Lemma scan_bucket k t v :
  table_of k t -> in_u 64 v ->
  exists b, bucket t (Z.land v (ht_sizemask t)) = Some b /\
    forall e, e ∈ b <-> e ∈ concat (buckets t) /\
      rhash e / 2 ^ (64 - Z.of_nat k) = rev v / 2 ^ (64 - Z.of_nat k).
Proof.
  intros (T & Hk & Hs & Hm) Hv. destruct (bucket_mask hashFunction T v) as (i & b & Hi & Hb & Hbk).
  exists b. split; [done|]. intros e. unfold rhash.
  rewrite <-bucket_block, <-Hm, Hi by (done || lia || apply hash_range). split.
  - intros He. split; [apply elem_of_concat; eauto|by eapply (ok_hash _ _ T)].
  - intros [(j & b' & Hj & He)%elem_of_concat Hh]. rewrite (ok_hash _ _ T _ _ _ Hj He) in Hh.
    assert (i = j) as -> by lia. by simplify_eq.
Qed.

(** The end of the block of size [B] that contains [r]. *)
Definition block_end (B r : Z) : Z := (r / B + 1) * B.

Lemma block_end_bounds B r : 0 < B -> r < block_end B r <= r + B.
Proof. intros HB. unfold block_end. pose proof (Z.div_mod r B ltac:(lia)). pose proof (Z.mod_pos_bound r B). nia. Qed.

Lemma block_end_word k r :
  (k <= 64)%nat -> in_u 64 r -> block_end (2 ^ (64 - Z.of_nat k)) r <= 2 ^ 64.
Proof.
  intros Hk Hr. unfold block_end. set (B := 2 ^ (64 - Z.of_nat k)).
  assert (2 ^ 64 = 2 ^ Z.of_nat k * B) as E by (unfold B; rewrite <-Z.pow_add_r by lia; f_equal; lia).
  assert (0 < B) by (apply Z.pow_pos_nonneg; lia).
  assert (r / B < 2 ^ Z.of_nat k) by (apply Z.div_lt_upper_bound; lia). nia.
Qed.

Lemma same_block B r x : 0 < B -> r <= x < block_end B r -> x / B = r / B.
Proof.
  intros HB Hx. unfold block_end in Hx. symmetry. apply (Z.div_unique x B (r / B) (x - B * (r / B))); [|lia].
  pose proof (Z.div_mod r B ltac:(lia)). pose proof (Z.mod_pos_bound r B HB). lia.
Qed.

(** Blocks of the larger table inside a block of the smaller one. *)
Lemma block_end_step B0 B1 q r :
  0 < B1 -> 0 < q -> B0 = q * B1 ->
  let N := block_end B1 r in let E := block_end B0 r in
  N <= E /\ (N < E -> block_end B0 N = E /\ N mod B0 <> 0) /\ E mod B0 = 0 /\ N mod B1 = 0.
Proof.
  intros H1 Hq -> N E. assert (0 < q * B1) as H0 by nia.
  pose proof (block_end_bounds B1 r H1) as HN. pose proof (block_end_bounds (q * B1) r H0) as HE.
  fold N in HN. fold E in HE.
  assert (N <= E) as Hle.
  { unfold N, E, block_end. rewrite (Z.mul_comm q B1), <-Z.div_div by lia.
    pose proof (Z.div_mod (r / B1) q ltac:(lia)). pose proof (Z.mod_pos_bound (r / B1) q Hq).
    assert (r / B1 + 1 <= (r / B1 / q + 1) * q) by lia. nia. }
  split; [done|]. split; [|split; apply Z.mod_mul; lia].
  intros Hlt. assert (N / (q * B1) = r / (q * B1)) as Hd by (apply same_block; [done|fold E; lia]).
  split; [unfold E, block_end; by rewrite Hd|].
  intros Hm. pose proof (Z.div_mod N (q * B1) ltac:(lia)) as Hdm. rewrite Hm, Hd in Hdm.
  pose proof (Z.mul_div_le r (q * B1) H0). lia.
Qed.

Lemma scan_loop_spec fuel (k0 k1 : nat) t1 v :
  table_of k1 t1 -> (k0 <= k1)%nat -> in_u 64 v ->
  let r := rev v in let E := block_end (2 ^ (64 - Z.of_nat k0)) r in
  E - block_end (2 ^ (64 - Z.of_nat k1)) r < Z.of_nat fuel * 2 ^ (64 - Z.of_nat k1) ->
  exists es v', scan_loop fuel t1 (Z.ones (Z.of_nat k0)) (ht_sizemask t1) v = Some (es, v') /\
    in_u 64 v' /\ rev v' = u64 E /\
    (forall e, e ∈ concat (buckets t1) -> r <= rhash e < E -> e ∈ es) /\
    (forall e, e ∈ es -> e ∈ concat (buckets t1)).
Proof.
  intros T Hk. assert (k1 <= 63)%nat by apply T.
  revert v. induction fuel as [|fuel IH]; intros v Hv r E Hf.
  all: set (B0 := 2 ^ (64 - Z.of_nat k0)) in *; set (B1 := 2 ^ (64 - Z.of_nat k1)) in *.
  all: assert (0 < B1) as HB1 by (apply Z.pow_pos_nonneg; lia).
  all: destruct (block_end_step B0 B1 (2 ^ (Z.of_nat k1 - Z.of_nat k0)) r) as (HNE & Hlt & HE0 & HN0);
    [done|apply Z.pow_pos_nonneg; lia|unfold B0, B1; rewrite <-Z.pow_add_r by lia; f_equal; lia|].
  { unfold E in Hf. lia. }
  destruct (scan_bucket k1 t1 v T Hv) as (b & Hb & Hin). fold B1 in Hin.
  cbn [scan_loop]. rewrite Hb. cbn [mbind option_bind]. destruct T as (T & Hk1 & Hs & Hm).
  set (N := block_end B1 r) in *. fold E in HNE, Hlt, HE0.
  pose proof (rev_range v) as Hr. fold r in Hr.
  assert (E <= 2 ^ 64) as HE by (apply block_end_word; [lia|done]).
  pose proof (block_end_bounds B1 r HB1) as HNb. fold N in HNb.
  assert (rev (scan_next v (ht_sizemask t1)) = u64 N) as Hnext by (rewrite Hm; apply rev_scan_next; [lia|done]).
  set (v1 := scan_next v (ht_sizemask t1)) in *. assert (in_u 64 v1) as Hv1 by apply scan_next_range.
  assert (forall e, e ∈ concat (buckets t1) -> r <= rhash e < N -> e ∈ b) as Hemit.
  { intros e He Hre. apply Hin. split; [done|]. by apply same_block. }
  assert (u64 N mod B1 = 0) as Hn1.
  { destruct (decide (N = 2 ^ 64)) as [->|]; [done|]. by rewrite uint_small by lia. }
  pose proof (scan_loop_exit k0 k1 v1 ltac:(lia) Hv1) as Hex. rewrite Hnext in Hex. specialize (Hex Hn1).
  rewrite Hm. fold B0 in Hex. destruct (decide (N < E)) as [HltE|HeqE].
  - destruct (Hlt HltE) as [HEN HN']. rewrite uint_small in Hnext, Hex by lia.
    rewrite (proj2 (Z.eqb_neq _ _)) by (by rewrite Hex). cbn [negb].
    destruct (IH v1 Hv1) as (es & v' & Hl & Hv' & Hrv & Hall & Hsub).
    { rewrite Hnext. fold B0 B1. rewrite HEN. unfold block_end at 1. rewrite Z.mul_add_distr_r.
      pose proof (Z.div_mod N B1 ltac:(lia)). lia. }
    rewrite Hm in Hl. rewrite Hl. cbn [mbind option_bind]. exists (b ++ es), v'. rewrite Hnext in Hall, Hrv.
    fold B0 in Hall, Hrv. rewrite HEN in Hall, Hrv. split_and!; try (done || apply Hv').
    + intros e He Hre. apply elem_of_app. destruct (decide (rhash e < N)); [left; apply Hemit; [done|lia]|].
      right. apply Hall; [done|lia].
    + intros e [He|He]%elem_of_app; [by apply Hin|by apply Hsub].
  - assert (N = E) as HNE' by lia. rewrite HNE' in *.
    assert (u64 E mod B0 = 0) as HE1.
    { destruct (decide (E = 2 ^ 64)) as [->|]; [done|]. by rewrite uint_small by lia. }
    rewrite (proj2 (Z.eqb_eq _ _)) by (by apply Hex). cbn [negb].
    exists b, v1. split_and!; try (done || apply Hv1). intros e He. by apply Hin.
Qed.

(** The two tables of a rehashing, in either order of size. *)
Lemma scan_two_tables k0 k1 t0 t1 v :
  table_of k0 t0 -> table_of k1 t1 -> (k0 <= k1)%nat -> in_u 64 v ->
  exists es v' E,
    (de ← bucket t0 (Z.land v (ht_sizemask t0));
     '(es, v) ← scan_loop (S (Z.to_nat (ht_size t1))) t1 (ht_sizemask t0) (ht_sizemask t1) v;
     Some (de ++ es, v)) = Some (es, v') /\
    in_u 64 v' /\ rev v < E <= 2 ^ 64 /\ rev v' = u64 E /\
    (forall e, e ∈ concat (buckets t0) ++ concat (buckets t1) -> rev v <= rhash e < E -> e ∈ es) /\
    (forall e, e ∈ es -> e ∈ concat (buckets t0) ++ concat (buckets t1)).
Proof.
  intros T0 T1 Hk Hv. pose proof T0 as (_ & Hk0 & _ & Hm0). pose proof T1 as (_ & Hk1 & Hs1 & Hm1).
  destruct (scan_bucket k0 t0 v T0 Hv) as (b & -> & Hin). cbn [mbind option_bind]. rewrite Hm0.
  pose proof (rev_range v) as Hr. set (B0 := 2 ^ (64 - Z.of_nat k0)) in *.
  assert (0 < B0) as HB0 by (apply Z.pow_pos_nonneg; lia).
  pose proof (block_end_bounds B0 (rev v) HB0) as HEb.
  assert (block_end B0 (rev v) <= 2 ^ 64) as HE by (apply block_end_word; [lia|done]).
  assert (0 < 2 ^ (64 - Z.of_nat k1)) as HB1 by (apply Z.pow_pos_nonneg; lia).
  destruct (scan_loop_spec (S (Z.to_nat (ht_size t1))) k0 k1 t1 v T1 Hk Hv)
    as (es & v' & -> & Hv' & Hrv & Hall & Hsub).
  { rewrite Hs1. pose proof (block_end_bounds _ (rev v) HB1). fold B0.
    assert (0 < 2 ^ Z.of_nat k1) by (apply Z.pow_pos_nonneg; lia).
    rewrite Nat2Z.inj_succ, Z2Nat.id, Z.mul_succ_l, <-Z.pow_add_r by lia.
    replace (Z.of_nat k1 + (64 - Z.of_nat k1)) with 64 by lia. lia. }
  cbn [mbind option_bind]. exists (b ++ es), v', (block_end B0 (rev v)).
  split; [done|]. split; [done|]. split; [lia|]. split; [done|]. split.
  - intros e [He|He]%elem_of_app Hre; apply elem_of_app.
    + left. apply Hin. split; [done|]. by apply same_block.
    + right. by apply Hall.
  - intros e [He|He]%elem_of_app; apply elem_of_app; [left; by apply Hin|right; by apply Hsub].
Qed.

(** Pausing and resuming leaves the counter of 16 bits as it was. *)
Definition repaused (d : dict K V) : dict K V := set_pauserehash d (s16 (pauserehash d)).

Lemma resume_pause (d : dict K V) : dictResumeRehashing (dictPauseRehashing d) = repaused d.
Proof.
  unfold dictResumeRehashing, dictPauseRehashing, repaused, set_pauserehash. simpl. f_equal.
  unfold sint. set (m := (_ + 1 + _) mod _).
  replace (m - 2 ^ (16 - 1) - 1 + 2 ^ (16 - 1)) with (m - 1) by lia. unfold m.
  rewrite Zminus_mod_idemp_l. do 2 f_equal. lia.
Qed.

Lemma dictScan_one_table d v b :
  dict_wf d -> entries d <> [] -> dictIsRehashing d = false ->
  bucket (ht0 d) (Z.land v (ht_sizemask (ht0 d))) = Some b ->
  dictScan d v = Some (repaused d, b, scan_next v (ht_sizemask (ht0 d))).
Proof.
  intros W Hne Er Hb. unfold dictScan. rewrite (dictSize_entries hashFunction d W).
  destruct (Z.eqb_spec (zlen (entries d)) 0) as [E0|_]; [by apply zlen_0_inv in E0|].
  change (dictIsRehashing (dictPauseRehashing d)) with (dictIsRehashing d).
  change (ht0 (dictPauseRehashing d)) with (ht0 d). rewrite Er, Hb. cbn [negb mbind option_bind].
  by rewrite resume_pause.
Qed.

(** One call from cursor [v]: every entry whose reversed hash lies between the
    reversed cursor and the next one is emitted, and the reversed cursor grows
    (by at least the 1 that keeps the scan going) until it wraps to 0. *)
Lemma dictScan_spec d v :
  dict_wf d -> entries d <> [] -> in_u 64 v ->
  exists es v' E, dictScan d v = Some (repaused d, es, v') /\ in_u 64 v' /\
    rev v < E <= 2 ^ 64 /\ rev v' = u64 E /\
    (forall e, e ∈ entries d -> rev v <= rhash e < E -> e ∈ es) /\
    (forall e, e ∈ es -> e ∈ entries d).
Proof.
  intros W Hne Hv. destruct (dictIsRehashing d) eqn:Er.
  - unfold dictScan. rewrite (dictSize_entries hashFunction d W).
    destruct (Z.eqb_spec (zlen (entries d)) 0) as [E0|_]; [by apply zlen_0_inv in E0|].
    change (dictIsRehashing (dictPauseRehashing d)) with (dictIsRehashing d). rewrite Er. cbn [negb].
    change (ht0 (dictPauseRehashing d)) with (ht0 d). change (ht1 (dictPauseRehashing d)) with (ht1 d).
    pose proof (wf_tables _ _ W) as Ht. rewrite Er in Ht. destruct Ht as (T0 & T1 & _).
    destruct (ok_table_of _ T0) as (k0 & T0'), (ok_table_of _ T1) as (k1 & T1').
    pose proof T0' as (_ & Hk0 & Hs0 & _). pose proof T1' as (_ & Hk1 & Hs1 & _).
    rewrite Z.gtb_ltb. destruct (Z.ltb_spec (ht_size (ht1 d)) (ht_size (ht0 d))) as [Hlt|Hle].
    + assert (k1 <= k0)%nat as Hk by (rewrite Hs0, Hs1 in Hlt; apply Z.pow_lt_mono_r_iff in Hlt; lia).
      destruct (scan_two_tables k1 k0 _ _ v T1' T0' Hk Hv) as (es & v' & E & -> & ? & ? & ? & Hall & Hsub).
      cbn [mbind option_bind]. rewrite resume_pause. exists es, v', E. unfold entries.
      setoid_rewrite (Permutation_app_comm (concat (buckets (ht0 d)))). done.
    + assert (k0 <= k1)%nat as Hk by (rewrite Hs0, Hs1 in Hle; apply Z.pow_le_mono_r_iff in Hle; lia).
      destruct (scan_two_tables k0 k1 _ _ v T0' T1' Hk Hv) as (es & v' & E & -> & ? & ? & ? & Hall & Hsub).
      cbn [mbind option_bind]. rewrite resume_pause. by exists es, v', E.
  - pose proof (wf_ht0_ok hashFunction d W (or_introl Hne)) as T0.
    destruct (ok_table_of _ T0) as (k & T). pose proof T as (_ & Hk & Hs & Hm).
    destruct (scan_bucket k (ht0 d) v T Hv) as (b & Hb & Hin). pose proof (rev_range v) as Hr.
    assert (0 < 2 ^ (64 - Z.of_nat k)) as HB by (apply Z.pow_pos_nonneg; lia).
    assert (entries d = concat (buckets (ht0 d))) as He.
    { unfold entries. rewrite (wf_ht1_reset _ d W Er). apply app_nil_r. }
    exists b, (scan_next v (ht_sizemask (ht0 d))), (block_end (2 ^ (64 - Z.of_nat k)) (rev v)).
    split; [by apply dictScan_one_table|]. split; [apply scan_next_range|].
    split; [split; [by apply block_end_bounds|apply block_end_word; [lia|done]]|].
    split; [rewrite Hm; apply rev_scan_next; [lia|done]|]. rewrite He. split.
    + intros e Hin' Hre. apply Hin. split; [done|]. by apply same_block.
    + intros e Hin'. by apply Hin.
Qed.

(** ** A whole scan *)

(** The calls of a scan: [ds] are the dictionaries the calls find, one per
    call, since anything may happen to the dictionary between two calls. *)
Fixpoint scan_run (ds : list (dict K V)) (v : Z) : option (list (K * V) * Z) :=
  match ds with
  | [] => Some ([], v)
  | d :: ds =>
    '(_, es, v) ← dictScan d v;
    '(es', v) ← scan_run ds v;
    Some (es ++ es', v)
  end.

(** Keys whose reversed hash is at or above the cursor are still to come. *)
Lemma scan_run_covers ds k v :
  Forall dict_wf ds -> Forall (fun d => k ∈ (entries d).*1) ds -> in_u 64 v ->
  exists es v', scan_run ds v = Some (es, v') /\ in_u 64 v' /\
    (ds <> [] -> v' = 0 -> k ∈ es.*1 \/ rev (hashFunction k) < rev v).
Proof.
  intros Hwf Hk. revert v. induction Hwf as [|d ds W Hwf IH]; intros v Hv.
  { exists [], v. split; [done|]. by split. }
  apply Forall_cons in Hk as [Hkd Hk].
  destruct (dictScan_spec d v W) as (es & v1 & E & Hs & Hv1 & HE & Hrv & Hall & _); [|done|].
  { intros Hn. rewrite Hn in Hkd. by apply elem_of_nil in Hkd. }
  destruct (IH Hk v1 Hv1) as (es' & v2 & Hs' & Hv2 & Hdone).
  cbn [scan_run]. rewrite Hs. cbn [mbind option_bind]. rewrite Hs'. cbn [mbind option_bind].
  exists (es ++ es'), v2. split; [done|]. split; [done|]. rewrite fmap_app, elem_of_app.
  apply list_elem_of_fmap in Hkd as ([k' w] & -> & Hkw). simpl in *.
  assert (rev v <= rev (hashFunction k') < E -> k' ∈ es.*1) as Hemit.
  { intros Hr. apply list_elem_of_fmap. exists (k', w). split; [done|]. by apply Hall. }
  pose proof (rev_range (hashFunction k')) as Hrk. pose proof (rev_range v) as Hrv0.
  destruct (decide (E = 2 ^ 64)) as [->|HE64].
  { intros _ _. destruct (decide (rev v <= rev (hashFunction k'))); [left; left; apply Hemit; lia|right; lia]. }
  rewrite uint_small in Hrv by lia.
  intros _ ->. destruct (decide (rev v <= rev (hashFunction k') < E)); [auto|].
  destruct (decide (rev (hashFunction k') < rev v)); [auto|]. destruct ds as [|d' ds'].
  - cbn in Hs'. injection Hs' as <- ->. change (rev 0) with 0 in Hrv. lia.
  - destruct Hdone as [?|?]; [done..|auto|lia].
Qed.

(** C4: the guarantee of SCAN.  Take any scan that starts at cursor 0 and whose
    last call returns cursor 0, with the dictionary changed arbitrarily between
    the calls (entries added and removed, table grown, shrunk, in the middle of
    a rehashing or not).  Every call succeeds, and a key that is in the
    dictionary at every call is reported by at least one of them. *)
Theorem dictScan_complete ds k :
  ds <> [] -> Forall dict_wf ds -> Forall (fun d => k ∈ (entries d).*1) ds ->
  exists es v, scan_run ds 0 = Some (es, v) /\ (v = 0 -> k ∈ es.*1).
Proof.
  intros Hne Hwf Hk. destruct (scan_run_covers ds k 0 Hwf Hk) as (es & v & Hs & Hv & Hdone); [lia|].
  exists es, v. split; [done|]. intros E. destruct (Hdone Hne E) as [?|Hlt]; [done|].
  change (rev 0) with 0 in Hlt. pose proof (rev_range (hashFunction k)). lia.
Qed.

Lemma NoDup_concat_bucket (tb : list (list (K * V))) (i : nat) b :
  NoDup (concat tb) -> tb !! i = Some b -> NoDup b.
Proof.
  intros Hnd Hi. rewrite <-(take_drop_middle tb i b Hi), concat_app in Hnd. cbn [concat] in Hnd.
  apply NoDup_app in Hnd as (_ & _ & Hnd). by apply NoDup_app in Hnd as (? & _).
Qed.

(** The call at the [j]-th block of a single table. *)
Lemma scan_block k d v j :
  dict_wf d -> dictIsRehashing d = false -> entries d <> [] -> table_of k (ht0 d) -> in_u 64 v ->
  let B := 2 ^ (64 - Z.of_nat k) in
  rev v = j * B ->
  exists b v', dictScan d v = Some (repaused d, b, v') /\ in_u 64 v' /\ rev v' = u64 ((j + 1) * B) /\ NoDup b /\
    forall e, e ∈ b <-> e ∈ entries d /\ j * B <= rhash e < (j + 1) * B.
Proof.
  intros W Er Hne T Hv B Hrv. pose proof T as (T0 & Hk & Hs & Hm).
  assert (0 < B) as HB by (apply Z.pow_pos_nonneg; lia).
  destruct (scan_bucket k (ht0 d) v T Hv) as (b & Hb & Hin). fold B in Hin.
  assert (entries d = concat (buckets (ht0 d))) as He.
  { unfold entries. rewrite (wf_ht1_reset _ d W Er). apply app_nil_r. }
  assert (rev v / B = j) as Hq by (by rewrite Hrv, Z.div_mul by lia).
  exists b, (scan_next v (ht_sizemask (ht0 d))). split; [by apply dictScan_one_table|].
  split; [apply scan_next_range|]. split; [rewrite Hm, rev_scan_next by (done || lia); fold B; by rewrite Hq|].
  split.
  - destruct (bucket_mask hashFunction T0 v) as (i & b' & Hi & Hb' & Hbk). rewrite Hb in Hbk.
    injection Hbk as <-. eapply NoDup_concat_bucket; [|done]. rewrite <-He.
    apply (NoDup_fmap_1 fst), (wf_nodup _ _ W).
  - intros e. rewrite Hin, He, Hq. apply and_iff_compat_l. split.
    + intros <-. pose proof (Z.mul_div_le (rhash e) B HB). pose proof (block_end_bounds B (rhash e) HB).
      unfold block_end in *. lia.
    + intros Hre. rewrite <-Hq. apply same_block; [done|]. unfold block_end. rewrite Hq, Hrv. done.
Qed.

(** A scan of a table that does not change, from the start of a block, with
    [n] blocks to go. *)
Lemma scan_fixed k d n v :
  dict_wf d -> dictIsRehashing d = false -> entries d <> [] -> table_of k (ht0 d) -> in_u 64 v ->
  Z.of_nat n <= 2 ^ Z.of_nat k -> (0 < n)%nat ->
  rev v = (2 ^ Z.of_nat k - Z.of_nat n) * 2 ^ (64 - Z.of_nat k) ->
  exists es, scan_run (replicate n d) v = Some (es, 0) /\ NoDup es /\
    forall e, e ∈ es <-> e ∈ entries d /\ rev v <= rhash e.
Proof.
  intros W Er Hne T. revert v. induction n as [|n IH]; intros v Hv Hn Hpos Hrv; [lia|].
  destruct (scan_block k d v _ W Er Hne T Hv Hrv) as (b & v' & Hcall & Hv' & Hnext & Hnb & Hblock).
  rewrite Hrv. cbn [replicate scan_run]. rewrite Hcall. cbn [mbind option_bind].
  set (B := 2 ^ (64 - Z.of_nat k)) in *. assert (k <= 63)%nat as Hk by apply T.
  assert (2 ^ 64 = 2 ^ Z.of_nat k * B) as E64 by (unfold B; rewrite <-Z.pow_add_r by lia; f_equal; lia).
  assert (0 < B) as HB by (apply Z.pow_pos_nonneg; lia).
  replace (2 ^ Z.of_nat k - Z.of_nat (S n) + 1) with (2 ^ Z.of_nat k - Z.of_nat n) in * by lia.
  destruct n as [|n].
  - exists b. cbn [replicate scan_run mbind option_bind]. rewrite app_nil_r.
    rewrite Z.sub_0_r, <-E64 in Hnext. assert (v' = 0) as -> by (apply rev_inj; [done|lia|done]).
    split; [done|]. split; [done|]. intros e. rewrite Hblock, Z.sub_0_r, <-E64. apply and_iff_compat_l.
    pose proof (rev_range (hashFunction e.1)). unfold rhash. lia.
  - assert (0 <= (2 ^ Z.of_nat k - Z.of_nat (S n)) * B) by (apply Z.mul_nonneg_nonneg; lia).
    rewrite uint_small in Hnext by nia.
    destruct (IH v') as (es & -> & Hnd & Hes); [done|lia|lia|done|].
    cbn [mbind option_bind]. exists (b ++ es). split; [done|]. rewrite Hnext in Hes. split.
    + apply NoDup_app. split_and!; [done| |done]. intros e He1%Hblock He2%Hes. lia.
    + intros e. rewrite elem_of_app, Hblock, Hes. assert ((2 ^ Z.of_nat k - Z.of_nat (S (S n))) * B <=
        (2 ^ Z.of_nat k - Z.of_nat (S n)) * B) by nia.
      destruct (decide (rhash e < (2 ^ Z.of_nat k - Z.of_nat (S n)) * B)); intuition lia.
Qed.

(** C19: on a non-empty dictionary with a single table that does not change
    during the scan, the cursor returns to 0 after exactly as many calls as the
    table has buckets, and the entries reported are the entries of the
    dictionary, each exactly once. *)
Theorem dictScan_exact d :
  dict_wf d -> dictIsRehashing d = false -> entries d <> [] ->
  exists es, scan_run (replicate (Z.to_nat (ht_size (ht0 d))) d) 0 = Some (es, 0) /\ es ≡ₚ entries d.
Proof.
  intros W Er Hne. destruct (ok_table_of _ (wf_ht0_ok hashFunction d W (or_introl Hne))) as (k & T).
  pose proof T as (_ & Hk & Hs & _). assert (0 < 2 ^ Z.of_nat k) by (apply Z.pow_pos_nonneg; lia).
  destruct (scan_fixed k d (Z.to_nat (ht_size (ht0 d))) 0) as (es & Hrun & Hnd & Hes);
    try done; [lia..| |].
  { rewrite Z2Nat.id, Hs, Z.sub_diag by lia. done. }
  exists es. split; [done|]. apply NoDup_Permutation; [done|apply (NoDup_fmap_1 fst), (wf_nodup _ _ W)|].
  intros e. rewrite Hes. change (rev 0) with 0. pose proof (rev_range (hashFunction e.1)).
  unfold rhash. intuition lia.
Qed.

End scan_facts.

(** ** Witnesses *)

Lemma int_hash_range k : in_u 64 (int_hash k).
Proof. apply uint_range. lia. Qed.

(** [sample_dict], rehashing from 4 to 8 buckets, with its rehashing finished. *)
Definition sample_done : dict Z Z :=
  match dictRehash int_hash sample_dict 100 with Some (d, _) => d | None => sample_dict end.

Lemma sample_done_wf : Dict.dict_wf int_hash sample_done.
Proof.
  unfold sample_done.
  destruct (dictRehash_spec int_hash sample_dict 100 sample_dict_wf) as (d & m & -> & W & _); [lia|done].
Qed.

(** A scan during which the rehashing is finished. *)
Definition sample_scan : list (dict Z Z) :=
  [sample_dict; sample_dict; sample_done; sample_done; sample_done; sample_done].

Lemma sample_scan_wf : Forall (Dict.dict_wf int_hash) sample_scan.
Proof.
  unfold sample_scan. rewrite !Forall_cons, Forall_nil.
  pose proof sample_dict_wf. pose proof sample_done_wf. tauto.
Qed.

Lemma dictScan_complete_witness :
  exists es, scan_run sample_scan 0 = Some (es, 0) /\ 7 ∈ es.*1.
Proof.
  destruct (dictScan_complete int_hash int_hash_range sample_scan 7) as (es & v & E & Hin).
  - discriminate.
  - apply sample_scan_wf.
  - refine (bool_decide_eq_true_1 _ _). vm_compute. reflexivity.
  - assert (v = 0) as Hv.
    { assert (snd <$> scan_run sample_scan 0 = Some 0) as E0 by (vm_compute; reflexivity).
      rewrite E in E0. simpl in E0. by injection E0. }
    exists es. rewrite E, Hv. split; [reflexivity|]. by apply Hin.
Defined.

Lemma dictScan_exact_witness :
  exists es, scan_run (replicate 8 sample_done) 0 = Some (es, 0) /\ es ≡ₚ entries sample_done /\
    length es = 5%nat.
Proof.
  destruct (dictScan_exact int_hash int_hash_range sample_done) as (es & E & Hp).
  - apply sample_done_wf.
  - vm_compute. reflexivity.
  - vm_compute. discriminate.
  - exists es. split; [exact E|]. split; [exact Hp|]. rewrite Hp. vm_compute. reflexivity.
Defined.
