(* ===== verification/Listpack.v ===== *)
(** * listpack.c: lists of strings and integers packed in one block

    A listpack is its block of memory; pointers into it are offsets, NULL is
    [None].  The outer option of an operation is [None] for an access outside
    the block or a failed assertion.  The block may be larger than the listpack
    (lp_malloc_size is the length of the block).  [lp_repr lp es] says that the
    block holds the elements with the encodings [es]; the theorems show that
    every operation acts on the block as the corresponding list operation. *)

From S2P Require Import Prelude Util.
Open Scope redis_scope.

Definition LP_HDR_SIZE : Z := 6.
Definition LP_HDR_NUMELE_UNKNOWN : Z := 65535.
Definition UINT32_MAX : Z := 2 ^ 32 - 1.
Definition UINT64_MAX : Z := 2 ^ 64 - 1.
Definition INT64_MAX : Z := 2 ^ 63 - 1.
Definition INT64_MIN : Z := - 2 ^ 63.

Definition LP_ENCODING_IS_7BIT_UINT (b : Z) : bool := Z.land b 0x80 =? 0.
Definition LP_ENCODING_IS_6BIT_STR (b : Z) : bool := Z.land b 0xC0 =? 0x80.
Definition LP_ENCODING_IS_13BIT_INT (b : Z) : bool := Z.land b 0xE0 =? 0xC0.
Definition LP_ENCODING_IS_12BIT_STR (b : Z) : bool := Z.land b 0xF0 =? 0xE0.
Definition LP_ENCODING_IS_16BIT_INT (b : Z) : bool := Z.land b 0xFF =? 0xF1.
Definition LP_ENCODING_IS_24BIT_INT (b : Z) : bool := Z.land b 0xFF =? 0xF2.
Definition LP_ENCODING_IS_32BIT_INT (b : Z) : bool := Z.land b 0xFF =? 0xF3.
Definition LP_ENCODING_IS_64BIT_INT (b : Z) : bool := Z.land b 0xFF =? 0xF4.
Definition LP_ENCODING_IS_32BIT_STR (b : Z) : bool := Z.land b 0xFF =? 0xF0.
Definition LP_EOF : Z := 0xFF.

(** [(p)[0] | (p)[1]<<8 | ...] over the [n] bytes at [p], the first at weight
    [k]. *)
Fixpoint lp_read (n : nat) (lp : bytes) (p k : Z) : option Z :=
  match n with
  | O => Some 0
  | S n => b ← lp.[p]; r ← lp_read n lp (p + 1) (k + 8); Some (Z.lor (Z.shiftl b k) r)
  end.

Definition LP_ENCODING_6BIT_STR_LEN (b : Z) : Z := Z.land b 0x3F.
Definition LP_ENCODING_12BIT_STR_LEN (lp : bytes) (p : Z) : option Z :=
  b0 ← lp.[p]; b1 ← lp.[p + 1]; Some (Z.lor (Z.shiftl (Z.land b0 0xF) 8) b1).
Definition LP_ENCODING_32BIT_STR_LEN (lp : bytes) (p : Z) : option Z := lp_read 4 lp (p + 1) 0.

Definition lpGetTotalBytes (lp : bytes) : option Z := lp_read 4 lp 0 0.
Definition lpGetNumElements (lp : bytes) : option Z := lp_read 2 lp 4 0.

(** [(v>>k)&0xff] *)
Definition byte_of (v k : Z) : Z := Z.land (Z.shiftr v k) 0xff.

Definition lpSetTotalBytes (lp : bytes) (v : Z) : option bytes :=
  mstore lp 0 [byte_of v 0; byte_of v 8; byte_of v 16; byte_of v 24].
Definition lpSetNumElements (lp : bytes) (v : Z) : option bytes :=
  mstore lp 4 [byte_of v 0; byte_of v 8].

Definition ASSERT_INTEGRITY (lp : bytes) (p : Z) : option unit :=
  total ← lpGetTotalBytes lp;
  if (p >=? LP_HDR_SIZE) && (p <? total) then Some tt else None.
Definition ASSERT_INTEGRITY_LEN (lp : bytes) (p len : Z) : option unit :=
  total ← lpGetTotalBytes lp;
  if (p >=? LP_HDR_SIZE) && (p + len <? total) then Some tt else None.

Fixpoint lpStringToInt64_loop (p : bytes) (v : Z) : option (Z * bytes) :=
  match p with
  | c :: p' =>
    if (c >=? 48) && (c <=? 57) then
      if v >? UINT64_MAX / 10 then None
      else
        let v := u64 (v * 10) in
        if v >? UINT64_MAX - (c - 48) then None
        else lpStringToInt64_loop p' (u64 (v + (c - 48)))
    else Some (v, p)
  | [] => Some (v, [])
  end.

(** [None] when the function returns 0. *)
Definition lpStringToInt64 (s : bytes) : option Z :=
  match s with
  | [] => None
  | c :: rest =>
    if (zlen s =? 1) && (c =? 48) then Some 0
    else
      let negative := c =? 45 in
      let p := if negative then rest else s in
      match p with
      | [] => None
      | c :: p =>
        if (c >=? 49) && (c <=? 57) then
          '(v, p) ← lpStringToInt64_loop p (c - 48);
          if negb (zlen p =? 0) then None
          else if negative then
            if v >? u64 (- (INT64_MIN + 1)) + 1 then None else Some (s64 (u64 (- v)))
          else if v >? INT64_MAX then None else Some v
        else if (c =? 48) && (zlen s =? 1) then Some 0
        else None
      end
  end.

(** [capacity]: bytes to allocate at least; [fresh] is the content of the
    memory malloc returns. *)
Definition lpNew (fresh : nat -> Z) (capacity : Z) : option bytes :=
  let n := if capacity >? LP_HDR_SIZE + 1 then capacity else LP_HDR_SIZE + 1 in
  let lp := zrealloc fresh [] n in
  lp ← lpSetTotalBytes lp (LP_HDR_SIZE + 1);
  lp ← lpSetNumElements lp 0;
  mstore lp LP_HDR_SIZE [LP_EOF].

Definition lpShrinkToFit (fresh : nat -> Z) (lp : bytes) : option bytes :=
  size ← lpGetTotalBytes lp;
  Some (if size <? zlen lp then zrealloc fresh lp size else lp).

(** LP_ENCODING_INT with [intenc], or LP_ENCODING_STRING; and [*enclen]. *)
Definition lpEncodeGetType (ele : bytes) : option bytes * Z :=
  let size := zlen ele in
  match lpStringToInt64 ele with
  | Some v =>
    if (v >=? 0) && (v <=? 127) then (Some [u8 v], 1)
    else if (v >=? -4096) && (v <=? 4095) then
      let v := if v <? 0 then Z.shiftl 1 13 + v else v in
      (Some [u8 (Z.lor (Z.shiftr v 8) 0xC0); Z.land v 0xff], 2)
    else if (v >=? -32768) && (v <=? 32767) then
      let v := if v <? 0 then Z.shiftl 1 16 + v else v in
      (Some [0xF1; Z.land v 0xff; u8 (Z.shiftr v 8)], 3)
    else if (v >=? -8388608) && (v <=? 8388607) then
      let v := if v <? 0 then Z.shiftl 1 24 + v else v in
      (Some [0xF2; Z.land v 0xff; byte_of v 8; u8 (Z.shiftr v 16)], 4)
    else if (v >=? -2147483648) && (v <=? 2147483647) then
      let v := if v <? 0 then Z.shiftl 1 32 + v else v in
      (Some [0xF3; Z.land v 0xff; byte_of v 8; byte_of v 16; u8 (Z.shiftr v 24)], 5)
    else
      let uv := u64 v in
      (Some [0xF4; Z.land uv 0xff; byte_of uv 8; byte_of uv 16; byte_of uv 24;
             byte_of uv 32; byte_of uv 40; byte_of uv 48; u8 (Z.shiftr uv 56)], 9)
  | None =>
    (None, if size <? 64 then 1 + size else if size <? 4096 then 2 + size else u32 (5 + size))
  end.

(** The bytes stored in [buf]; the value returned is their number. *)
Definition lpEncodeBacklen (l : Z) : bytes :=
  let low k := Z.lor (Z.land (Z.shiftr l k) 127) 128 in
  if l <=? 127 then [u8 l]
  else if l <? 16383 then [u8 (Z.shiftr l 7); low 0]
  else if l <? 2097151 then [u8 (Z.shiftr l 14); low 7; low 0]
  else if l <? 268435455 then [u8 (Z.shiftr l 21); low 14; low 7; low 0]
  else [u8 (Z.shiftr l 28); low 21; low 14; low 7; low 0].

(** The do-while loop of lpDecodeBacklen: at most five bytes are read. *)
Fixpoint lpDecodeBacklen_loop (fuel : nat) (lp : bytes) (p val shift : Z) : option Z :=
  match fuel with
  | O => None
  | S fuel =>
    b ← lp.[p];
    let val := Z.lor val (u64 (Z.shiftl (Z.land b 127) shift)) in
    if Z.land b 128 =? 0 then Some val
    else
      let shift := shift + 7 in
      if shift >? 28 then Some UINT64_MAX
      else lpDecodeBacklen_loop fuel lp (p - 1) val shift
  end.

Definition lpDecodeBacklen (lp : bytes) (p : Z) : option Z := lpDecodeBacklen_loop 5 lp p 0 0.

(** Encode the string [s] at [buf]. *)
Definition lpEncodeString (lp : bytes) (buf : Z) (s : bytes) : option bytes :=
  let len := zlen s in
  if len <? 64 then
    lp ← mstore lp buf [u8 (Z.lor len 0x80)];
    mstore lp (buf + 1) s
  else if len <? 4096 then
    lp ← mstore lp buf [u8 (Z.lor (Z.shiftr len 8) 0xE0); Z.land len 0xff];
    mstore lp (buf + 2) s
  else
    lp ← mstore lp buf [0xF0; Z.land len 0xff; byte_of len 8; byte_of len 16; byte_of len 24];
    mstore lp (buf + 5) s.

Definition lpCurrentEncodedSizeUnsafe (lp : bytes) (p : Z) : option Z :=
  b ← lp.[p];
  if LP_ENCODING_IS_7BIT_UINT b then Some 1
  else if LP_ENCODING_IS_6BIT_STR b then Some (1 + LP_ENCODING_6BIT_STR_LEN b)
  else if LP_ENCODING_IS_13BIT_INT b then Some 2
  else if LP_ENCODING_IS_16BIT_INT b then Some 3
  else if LP_ENCODING_IS_24BIT_INT b then Some 4
  else if LP_ENCODING_IS_32BIT_INT b then Some 5
  else if LP_ENCODING_IS_64BIT_INT b then Some 9
  else if LP_ENCODING_IS_12BIT_STR b then n ← LP_ENCODING_12BIT_STR_LEN lp p; Some (2 + n)
  else if LP_ENCODING_IS_32BIT_STR b then n ← LP_ENCODING_32BIT_STR_LEN lp p; Some (u32 (5 + n))
  else if b =? LP_EOF then Some 1
  else Some 0.

Definition lpCurrentEncodedSizeBytes (b : Z) : Z :=
  if LP_ENCODING_IS_7BIT_UINT b then 1
  else if LP_ENCODING_IS_6BIT_STR b then 1
  else if LP_ENCODING_IS_13BIT_INT b then 1
  else if LP_ENCODING_IS_16BIT_INT b then 1
  else if LP_ENCODING_IS_24BIT_INT b then 1
  else if LP_ENCODING_IS_32BIT_INT b then 1
  else if LP_ENCODING_IS_64BIT_INT b then 1
  else if LP_ENCODING_IS_12BIT_STR b then 2
  else if LP_ENCODING_IS_32BIT_STR b then 5
  else if b =? LP_EOF then 1
  else 0.

Definition lpSkip (lp : bytes) (p : Z) : option Z :=
  entrylen ← lpCurrentEncodedSizeUnsafe lp p;
  Some (p + (entrylen + zlen (lpEncodeBacklen entrylen))).

Definition lpNext (lp : bytes) (p : Z) : option (option Z) :=
  p ← lpSkip lp p;
  _ ← ASSERT_INTEGRITY lp p;
  b ← lp.[p];
  Some (if b =? LP_EOF then None else Some p).

Definition lpPrev (lp : bytes) (p : Z) : option (option Z) :=
  if p =? LP_HDR_SIZE then Some None
  else
    let p := p - 1 in
    prevlen ← lpDecodeBacklen lp p;
    let prevlen := u64 (prevlen + zlen (lpEncodeBacklen prevlen)) in
    let p := p - (prevlen - 1) in
    _ ← ASSERT_INTEGRITY lp p;
    Some (Some p).

Definition lpFirst (lp : bytes) : option (option Z) :=
  b ← lp.[LP_HDR_SIZE];
  Some (if b =? LP_EOF then None else Some LP_HDR_SIZE).

Definition lpLast (lp : bytes) : option (option Z) :=
  total ← lpGetTotalBytes lp;
  lpPrev lp (total - 1).

(** [while(p)] of lpLength. *)
Fixpoint lpLength_loop (fuel : nat) (lp : bytes) (p : option Z) (count : Z) : option Z :=
  match p with
  | None => Some count
  | Some p =>
    match fuel with
    | O => None
    | S fuel => p ← lpNext lp p; lpLength_loop fuel lp p (u32 (count + 1))
    end
  end.

(** Returns the listpack, whose header may have been updated, and the count. *)
Definition lpLength (lp : bytes) : option (bytes * Z) :=
  numele ← lpGetNumElements lp;
  if negb (numele =? LP_HDR_NUMELE_UNKNOWN) then Some (lp, numele)
  else
    p ← lpFirst lp;
    count ← lpLength_loop (length lp) lp p 0;
    lp ← (if count <? LP_HDR_NUMELE_UNKNOWN then lpSetNumElements lp count else Some lp);
    Some (lp, count).

(** What lpGet returns: a string inside the listpack ([*count] is its length),
    an integer in [*count] when [intbuf] is NULL, its representation in
    [intbuf] otherwise. *)
Inductive lp_value :=
  | LpStr (p count : Z)
  | LpInt (count : Z)
  | LpBuf (intbuf : bytes).

(** The integer conversion at the end of lpGet. *)
Definition lp_signed (uval negstart negmax : Z) : Z :=
  if uval >=? negstart then
    let uval := u64 (negmax - uval) in
    let val := s64 uval in
    s64 (- val - 1)
  else s64 uval.

Definition lpGet (lp : bytes) (p : Z) (intbuf : bool) : option lp_value :=
  let int uval negstart negmax :=
    let val := lp_signed uval negstart negmax in
    Some (if intbuf then LpBuf (print_lld val) else LpInt val) in
  b ← lp.[p];
  if LP_ENCODING_IS_7BIT_UINT b then int (Z.land b 0x7f) UINT64_MAX 0
  else if LP_ENCODING_IS_6BIT_STR b then Some (LpStr (p + 1) (LP_ENCODING_6BIT_STR_LEN b))
  else if LP_ENCODING_IS_13BIT_INT b then
    b1 ← lp.[p + 1]; int (Z.lor (Z.shiftl (Z.land b 0x1f) 8) b1) (Z.shiftl 1 12) 8191
  else if LP_ENCODING_IS_16BIT_INT b then
    uval ← lp_read 2 lp (p + 1) 0; int uval (Z.shiftl 1 15) 65535
  else if LP_ENCODING_IS_24BIT_INT b then
    uval ← lp_read 3 lp (p + 1) 0; int uval (Z.shiftl 1 23) (Z.shiftr UINT32_MAX 8)
  else if LP_ENCODING_IS_32BIT_INT b then
    uval ← lp_read 4 lp (p + 1) 0; int uval (Z.shiftl 1 31) UINT32_MAX
  else if LP_ENCODING_IS_64BIT_INT b then
    uval ← lp_read 8 lp (p + 1) 0; int uval (Z.shiftl 1 63) UINT64_MAX
  else if LP_ENCODING_IS_12BIT_STR b then
    n ← LP_ENCODING_12BIT_STR_LEN lp p; Some (LpStr (p + 2) n)
  else if LP_ENCODING_IS_32BIT_STR b then
    n ← LP_ENCODING_32BIT_STR_LEN lp p; Some (LpStr (p + 5) n)
  else int (12345678900000000 + b) UINT64_MAX 0.

Inductive lp_where := LP_BEFORE | LP_AFTER | LP_REPLACE.

#[global] Instance lp_where_eq_dec : EqDecision lp_where.
Proof. solve_decision. Defined.

(** The reallocations and the move of lpInsert: the bytes from [dst] on make room
    for an entry of [entry_size] bytes instead of the [replaced_len] there. *)
Definition lpInsert_move (fresh : nat -> Z) (lp : bytes) (whr : lp_where)
    (dst entry_size replaced_len old_listpack_bytes new_listpack_bytes : Z) : option bytes :=
  let lp := if (new_listpack_bytes >? old_listpack_bytes) && (new_listpack_bytes >? zlen lp)
            then zrealloc fresh lp new_listpack_bytes else lp in
  lp ← (if bool_decide (whr = LP_BEFORE)
        then memmove lp (dst + entry_size) dst (old_listpack_bytes - dst)
        else let lendiff := entry_size - replaced_len in
             memmove lp (dst + replaced_len + lendiff) (dst + replaced_len)
               (old_listpack_bytes - dst - replaced_len));
  Some (if new_listpack_bytes <? old_listpack_bytes then zrealloc fresh lp new_listpack_bytes else lp).

(** Store the entry. *)
Definition lpInsert_store (lp : bytes) (ele : option bytes) (intenc : option bytes) (dst enclen : Z)
    (backlen : bytes) : option bytes :=
  match ele with
  | Some e =>
    lp ← match intenc with
         | Some i => mstore lp dst i
         | None => lpEncodeString lp dst e
         end;
    mstore lp (dst + enclen) backlen
  | None => Some lp
  end.

(** Update the header. *)
Definition lpInsert_header (lp : bytes) (whr : lp_where) (ele : option bytes) (new_listpack_bytes : Z)
    : option bytes :=
  lp ← (if bool_decide (whr <> LP_REPLACE) || bool_decide (ele = None) then
          num_elements ← lpGetNumElements lp;
          if negb (num_elements =? LP_HDR_NUMELE_UNKNOWN) then
            lpSetNumElements lp (u32 (match ele with Some _ => num_elements + 1 | None => num_elements - 1 end))
          else Some lp
        else Some lp);
  lpSetTotalBytes lp new_listpack_bytes.

(** [ele] is [None] for a deletion.  The result [Some None] is NULL: the size
    would exceed the limit.  [*newp] comes second. *)
Definition lpInsert (fresh : nat -> Z) (lp : bytes) (ele : option bytes) (p : Z) (whr : lp_where)
    : option (option (bytes * option Z)) :=
  let whr := match ele with None => LP_REPLACE | Some _ => whr end in
  '(p, whr) ← (if bool_decide (whr = LP_AFTER)
               then p ← lpSkip lp p; _ ← ASSERT_INTEGRITY lp p; Some (p, LP_BEFORE)
               else Some (p, whr));
  let poff := p in
  let '(intenc, enclen) := match ele with Some e => lpEncodeGetType e | None => (None, 0) end in
  let backlen := match ele with Some _ => lpEncodeBacklen enclen | None => [] end in
  let backlen_size := zlen backlen in
  old_listpack_bytes ← lpGetTotalBytes lp;
  replaced_len ← (if bool_decide (whr = LP_REPLACE)
                  then n ← lpCurrentEncodedSizeUnsafe lp p;
                       let n := u32 (n + zlen (lpEncodeBacklen n)) in
                       _ ← ASSERT_INTEGRITY_LEN lp p n; Some n
                  else Some 0);
  let new_listpack_bytes := u64 (old_listpack_bytes + enclen + backlen_size - replaced_len) in
  if new_listpack_bytes >? UINT32_MAX then Some None
  else
    let dst := poff in
    lp ← lpInsert_move fresh lp whr dst (enclen + backlen_size) replaced_len
           old_listpack_bytes new_listpack_bytes;
    newp ← match ele with
           | Some _ => Some (Some dst)
           | None => b ← lp.[dst]; Some (if b =? LP_EOF then None else Some dst)
           end;
    lp ← lpInsert_store lp ele intenc dst enclen backlen;
    lp ← lpInsert_header lp whr ele new_listpack_bytes;
    Some (Some (lp, newp)).

Definition lpAppend (fresh : nat -> Z) (lp ele : bytes) : option (option (bytes * option Z)) :=
  listpack_bytes ← lpGetTotalBytes lp;
  lpInsert fresh lp (Some ele) (listpack_bytes - 1) LP_BEFORE.

Definition lpDelete (fresh : nat -> Z) (lp : bytes) (p : Z) : option (option (bytes * option Z)) :=
  lpInsert fresh lp None p LP_REPLACE.

Definition lpBytes (lp : bytes) : option Z := lpGetTotalBytes lp.

(** [while (index > 0 && ele)] and [while (index < -1 && ele)] of lpSeek, with
    the number of steps left. *)
Fixpoint lpSeek_forward (n : nat) (lp : bytes) (ele : option Z) : option (option Z) :=
  match n, ele with
  | S n, Some p => ele ← lpNext lp p; lpSeek_forward n lp ele
  | _, _ => Some ele
  end.
Fixpoint lpSeek_backward (n : nat) (lp : bytes) (ele : option Z) : option (option Z) :=
  match n, ele with
  | S n, Some p => ele ← lpPrev lp p; lpSeek_backward n lp ele
  | _, _ => Some ele
  end.

(** The direction and the index after the tests on the header; [None] is
    [return NULL]. *)
Definition lpSeek_plan (numele index : Z) : option (bool * Z) :=
  if negb (numele =? LP_HDR_NUMELE_UNKNOWN) then
    let index := if index <? 0 then numele + index else index in
    if index <? 0 then None
    else if index >=? numele then None
    else if index >? numele / 2 then Some (false, index - numele)
    else Some (true, index)
  else Some (negb (index <? 0), index).

Definition lpSeek (lp : bytes) (index : Z) : option (option Z) :=
  numele ← lpGetNumElements lp;
  match lpSeek_plan numele index with
  | None => Some None
  | Some (forward, index) =>
    if forward : bool then
      ele ← lpFirst lp; lpSeek_forward (Z.to_nat index) lp ele
    else
      ele ← lpLast lp; lpSeek_backward (Z.to_nat (-1 - index)) lp ele
  end.

(** lpValidateNext: [inl] is [return 0], [inr p] is [return 1] with [*pp = p]. *)
Definition lpValidateNext (lp : bytes) (pp : option Z) (lpbytes : Z) : option (unit + option Z) :=
  let OUT_OF_RANGE p := (p <? LP_HDR_SIZE) || (p >? lpbytes - 1) in
  match pp with
  | None => Some (inl tt)
  | Some p =>
    b ← lp.[p];
    if b =? LP_EOF then Some (inr None)
    else
      let lenbytes := lpCurrentEncodedSizeBytes b in
      if lenbytes =? 0 then Some (inl tt)
      else if OUT_OF_RANGE (p + lenbytes) then Some (inl tt)
      else
        entrylen ← lpCurrentEncodedSizeUnsafe lp p;
        let encodedBacklen := zlen (lpEncodeBacklen entrylen) in
        let entrylen := entrylen + encodedBacklen in
        if OUT_OF_RANGE (p + entrylen) then Some (inl tt)
        else
          let p := p + entrylen in
          prevlen ← lpDecodeBacklen lp (p - 1);
          if negb (u64 (prevlen + encodedBacklen) =? entrylen) then Some (inl tt)
          else Some (inr (Some p))
  end.

(** [while(p)] of lpValidateIntegrity; [None] inside is [return 0]. *)
Fixpoint lpValidate_loop (fuel : nat) (lp : bytes) (p : option Z) (lpbytes count : Z) : option (option Z) :=
  match p with
  | None => Some (Some count)
  | Some _ =>
    match fuel with
    | O => None
    | S fuel =>
      r ← lpValidateNext lp p lpbytes;
      match r with
      | inl _ => Some None
      | inr p => lpValidate_loop fuel lp p lpbytes (u32 (count + 1))
      end
    end
  end.

Definition lpValidateIntegrity (lp : bytes) (size : Z) (deep : bool) : option bool :=
  if size <? LP_HDR_SIZE + 1 then Some false
  else
    bytes ← lpGetTotalBytes lp;
    if negb (bytes =? size) then Some false
    else
      b ← lp.[size - 1];
      if negb (b =? LP_EOF) then Some false
      else if negb deep then Some true
      else
        p ← lpFirst lp;
        r ← lpValidate_loop (S (length lp)) lp p bytes 0;
        match r with
        | None => Some false
        | Some count =>
          numele ← lpGetNumElements lp;
          if negb (numele =? LP_HDR_NUMELE_UNKNOWN) && negb (numele =? count) then Some false
          else Some true
        end.

(** ** Bytes and bits *)

Lemma byte_of_div v k : 0 <= k -> byte_of v k = v / 2 ^ k mod 256.
Proof. intros Hk. unfold byte_of. rewrite Z.shiftr_div_pow2 by done. apply (land_low _ 8). lia. Qed.

Lemma land_255 v : Z.land v 0xff = v mod 256.
Proof. apply (land_low _ 8). lia. Qed.

Lemma le_encode_S n v : le_encode (S n) v = v mod 256 :: le_encode n (v / 256).
Proof. done. Qed.

(** Storing the bytes one by one is the little-endian encoding. *)
Lemma set4_le v : [byte_of v 0; byte_of v 8; byte_of v 16; byte_of v 24] = le_encode 4 v.
Proof.
  rewrite !byte_of_div by lia. rewrite !le_encode_S, !Z.div_div by lia. simpl. by rewrite Z.div_1_r.
Qed.

Lemma set2_le v : [byte_of v 0; byte_of v 8] = le_encode 2 v.
Proof. rewrite !byte_of_div by lia. rewrite !le_encode_S. simpl. by rewrite Z.div_1_r. Qed.

(** ** Locality: what is read in a part of the block *)

Lemma mget_local (a e c : bytes) i x : e.[i] = Some x -> (a ++ e ++ c).[zlen a + i] = Some x.
Proof.
  unfold mget. case_bool_decide; [|done]. intros Hi. rewrite bool_decide_true by (zlen; lia).
  replace (Z.to_nat (zlen a + i)) with (length a + Z.to_nat i)%nat by (unfold zlen; lia).
  rewrite lookup_app_r, Nat.add_comm, Nat.add_sub by lia. by apply lookup_app_l_Some.
Qed.

Lemma lp_read_local (a e c : bytes) n i k x :
  lp_read n e i k = Some x -> lp_read n (a ++ e ++ c) (zlen a + i) k = Some x.
Proof.
  revert i k x. induction n as [|n IH]; intros i k x; [done|]. cbn [lp_read].
  destruct (e.[i]) as [b|] eqn:Hb; [|done]. simpl. rewrite (mget_local a e c i b Hb). simpl.
  destruct (lp_read n e (i + 1) (k + 8)) as [r|] eqn:Hr; [|done].
  replace (zlen a + i + 1) with (zlen a + (i + 1)) by lia. by rewrite (IH _ _ _ Hr).
Qed.

Lemma lp_read_spec (a bs c : bytes) p k :
  Forall is_byte bs -> 0 <= k -> p = zlen a ->
  lp_read (length bs) (a ++ bs ++ c) p k = Some (2 ^ k * le_decode bs).
Proof.
  intros Hbs. revert a p k. induction Hbs as [|b bs Hb Hbs IH]; intros a p k Hk ->.
  { change (le_decode []) with 0. cbn [lp_read length]. f_equal. lia. }
  cbn [lp_read length]. change ((b :: bs) ++ c) with (b :: bs ++ c). rewrite mget_app by done. simpl.
  rewrite (cons_middle b), app_assoc, IH by (rewrite ?zlen_app, ?zlen_cons, ?zlen_nil; lia).
  simpl. f_equal. change (le_decode (b :: bs)) with (b + 256 * le_decode bs).
  rewrite Z.shiftl_mul_pow2 by lia. unfold is_byte in Hb.
  replace (2 ^ (k + 8) * le_decode bs) with (Z.shiftl (le_decode bs) (k + 8))
    by (rewrite Z.shiftl_mul_pow2 by lia; lia).
  assert (2 ^ (k + 8) = 2 ^ k * 256) as E by (rewrite Z.pow_add_r by lia; done).
  assert (0 < 2 ^ k) by (apply Z.pow_pos_nonneg; lia).
  rewrite lor_add; [rewrite E; ring|lia|]. rewrite E. nia.
Qed.

Lemma lp_read_le (a c : bytes) n v p :
  p = zlen a -> lp_read n (a ++ le_encode n v ++ c) p 0 = Some (uint (8 * Z.of_nat n) v).
Proof.
  intros ->. pose proof (lp_read_spec a (le_encode n v) c (zlen a) 0 (le_encode_bytes n v)) as H.
  rewrite length_le_encode in H. rewrite H by lia. by rewrite le_decode_encode, Z.mul_1_l.
Qed.

Lemma read12_local (a e c : bytes) i x :
  LP_ENCODING_12BIT_STR_LEN e i = Some x -> LP_ENCODING_12BIT_STR_LEN (a ++ e ++ c) (zlen a + i) = Some x.
Proof.
  unfold LP_ENCODING_12BIT_STR_LEN. destruct (e.[i]) eqn:E0; [|done]. simpl.
  destruct (e.[i + 1]) eqn:E1; [|done]. simpl. intros <-.
  rewrite (mget_local _ _ _ _ _ E0), <-Z.add_assoc, (mget_local _ _ _ _ _ E1). done.
Qed.

Lemma read32_local (a e c : bytes) i x :
  LP_ENCODING_32BIT_STR_LEN e i = Some x -> LP_ENCODING_32BIT_STR_LEN (a ++ e ++ c) (zlen a + i) = Some x.
Proof. unfold LP_ENCODING_32BIT_STR_LEN. rewrite <-Z.add_assoc. apply lp_read_local. Qed.

(** The encoded size only depends on the bytes of the element. *)
Lemma size_local (a e c : bytes) i n :
  lpCurrentEncodedSizeUnsafe e i = Some n -> lpCurrentEncodedSizeUnsafe (a ++ e ++ c) (zlen a + i) = Some n.
Proof.
  unfold lpCurrentEncodedSizeUnsafe. destruct (e.[i]) as [b|] eqn:E; [|done].
  rewrite (mget_local _ _ _ _ _ E). cbn [mbind option_bind].
  repeat (destruct (_ : bool); [done|]).
  destruct (LP_ENCODING_IS_12BIT_STR b).
  { destruct (LP_ENCODING_12BIT_STR_LEN e i) eqn:E1; [|done]. by rewrite (read12_local _ _ _ _ _ E1). }
  destruct (LP_ENCODING_IS_32BIT_STR b); [|done].
  destruct (LP_ENCODING_32BIT_STR_LEN e i) eqn:E1; [|done]. by rewrite (read32_local _ _ _ _ _ E1).
Qed.

(** A value moved with the element that holds it. *)
Definition shift_value (o : Z) (v : lp_value) : lp_value :=
  match v with LpStr p n => LpStr (o + p) n | _ => v end.

Lemma get_local (a e c : bytes) i ib v :
  lpGet e i ib = Some v -> lpGet (a ++ e ++ c) (zlen a + i) ib = Some (shift_value (zlen a) v).
Proof.
  unfold lpGet. destruct (e.[i]) as [b|] eqn:E; [|done].
  rewrite (mget_local _ _ _ _ _ E). cbn [mbind option_bind]. rewrite <-!Z.add_assoc.
  destruct (LP_ENCODING_IS_7BIT_UINT b); [by destruct ib; intros [= <-]|].
  destruct (LP_ENCODING_IS_6BIT_STR b); [by intros [= <-]|].
  destruct (LP_ENCODING_IS_13BIT_INT b).
  { destruct (e.[i + 1]) eqn:E1; [|done]. rewrite (mget_local _ _ _ _ _ E1). by destruct ib; intros [= <-]. }
  destruct (LP_ENCODING_IS_16BIT_INT b).
  { destruct (lp_read 2 e (i + 1) 0) eqn:E1; [|done]. rewrite (lp_read_local _ _ _ _ _ _ _ E1). by destruct ib; intros [= <-]. }
  destruct (LP_ENCODING_IS_24BIT_INT b).
  { destruct (lp_read 3 e (i + 1) 0) eqn:E1; [|done]. rewrite (lp_read_local _ _ _ _ _ _ _ E1). by destruct ib; intros [= <-]. }
  destruct (LP_ENCODING_IS_32BIT_INT b).
  { destruct (lp_read 4 e (i + 1) 0) eqn:E1; [|done]. rewrite (lp_read_local _ _ _ _ _ _ _ E1). by destruct ib; intros [= <-]. }
  destruct (LP_ENCODING_IS_64BIT_INT b).
  { destruct (lp_read 8 e (i + 1) 0) eqn:E1; [|done]. rewrite (lp_read_local _ _ _ _ _ _ _ E1). by destruct ib; intros [= <-]. }
  destruct (LP_ENCODING_IS_12BIT_STR b).
  { destruct (LP_ENCODING_12BIT_STR_LEN e i) eqn:E1; [|done]. rewrite (read12_local _ _ _ _ _ E1). by intros [= <-]. }
  destruct (LP_ENCODING_IS_32BIT_STR b); [|by destruct ib; intros [= <-]].
  destruct (LP_ENCODING_32BIT_STR_LEN e i) eqn:E1; [|done]. rewrite (read32_local _ _ _ _ _ E1). by intros [= <-].
Qed.

(** ** Classification of the first byte *)

Definition class_table (b : Z) : bool :=
  Bool.eqb (LP_ENCODING_IS_7BIT_UINT b) (b <? 128) &&
  Bool.eqb (LP_ENCODING_IS_6BIT_STR b) ((128 <=? b) && (b <? 192)) &&
  Bool.eqb (LP_ENCODING_IS_13BIT_INT b) ((192 <=? b) && (b <? 224)) &&
  Bool.eqb (LP_ENCODING_IS_12BIT_STR b) ((224 <=? b) && (b <? 240)) &&
  Bool.eqb (LP_ENCODING_IS_32BIT_STR b) (b =? 240) && Bool.eqb (LP_ENCODING_IS_16BIT_INT b) (b =? 241) &&
  Bool.eqb (LP_ENCODING_IS_24BIT_INT b) (b =? 242) && Bool.eqb (LP_ENCODING_IS_32BIT_INT b) (b =? 243) &&
  Bool.eqb (LP_ENCODING_IS_64BIT_INT b) (b =? 244).

Lemma byte_class b :
  is_byte b ->
  LP_ENCODING_IS_7BIT_UINT b = (b <? 128) /\
  LP_ENCODING_IS_6BIT_STR b = ((128 <=? b) && (b <? 192)) /\
  LP_ENCODING_IS_13BIT_INT b = ((192 <=? b) && (b <? 224)) /\
  LP_ENCODING_IS_12BIT_STR b = ((224 <=? b) && (b <? 240)) /\
  LP_ENCODING_IS_32BIT_STR b = (b =? 240) /\ LP_ENCODING_IS_16BIT_INT b = (b =? 241) /\
  LP_ENCODING_IS_24BIT_INT b = (b =? 242) /\ LP_ENCODING_IS_32BIT_INT b = (b =? 243) /\
  LP_ENCODING_IS_64BIT_INT b = (b =? 244).
Proof.
  intros Hb. assert (forallb class_table (Z.of_nat <$> seq 0 256) = true) as Hf by (vm_compute; reflexivity).
  rewrite forallb_forall in Hf. specialize (Hf b). unfold class_table in Hf.
  rewrite !andb_true_iff, !eqb_true_iff in Hf. unfold is_byte in Hb. intuition apply Hf.
  all: apply list_elem_of_In, list_elem_of_fmap; exists (Z.to_nat b); split; [lia|]; apply elem_of_seq; lia.
Qed.

(** Rewrite the tests on the first byte into comparisons and decide them. *)
Ltac lp_class b :=
  let H := fresh in
  pose proof (byte_class b) as H; unfold is_byte in H;
  destruct H as (-> & -> & -> & -> & -> & -> & -> & -> & ->); [lia|].

(** ** The backward length *)

Lemma seven_bits d : 0 <= d < 128 ->
  Z.land (Z.lor d 128) 127 = d /\ Z.land (Z.lor d 128) 128 = 128 /\ Z.land d 127 = d /\ Z.land d 128 = 0.
Proof.
  intros Hd. assert (forallb (fun d => (Z.land (Z.lor d 128) 127 =? d) && (Z.land (Z.lor d 128) 128 =? 128) &&
    (Z.land d 127 =? d) && (Z.land d 128 =? 0)) (Z.of_nat <$> seq 0 128) = true) as Hf by (vm_compute; reflexivity).
  rewrite forallb_forall in Hf. specialize (Hf d). rewrite !andb_true_iff, !Z.eqb_eq in Hf. intuition apply Hf.
  all: apply list_elem_of_In, list_elem_of_fmap; exists (Z.to_nat d); split; [lia|]; apply elem_of_seq; lia.
Qed.

Lemma shifted_group d k : 0 <= d < 128 -> 0 <= k <= 28 -> u64 (Z.shiftl d k) = Z.shiftl d k.
Proof.
  intros Hd Hk. apply uint_small. rewrite Z.shiftl_mul_pow2 by lia.
  assert (0 < 2 ^ k <= 2 ^ 28) by (split; [apply Z.pow_pos_nonneg; lia|apply Z.pow_le_mono_r; lia]). nia.
Qed.

Lemma decode_loop_step fuel lp p val k d :
  lp.[p] = Some (Z.lor d 128) -> 0 <= d < 128 -> 0 <= val < 2 ^ k -> 0 <= k -> k + 7 <= 28 ->
  lpDecodeBacklen_loop (S fuel) lp p val k = lpDecodeBacklen_loop fuel lp (p - 1) (val + d * 2 ^ k) (k + 7).
Proof.
  intros Hp Hd Hv Hk Hk7. cbn [lpDecodeBacklen_loop]. rewrite Hp. cbn [mbind option_bind].
  destruct (seven_bits d Hd) as (-> & -> & _). rewrite shifted_group, lor_add by lia.
  rewrite Z.gtb_ltb, (proj2 (Z.ltb_ge _ _)) by lia. done.
Qed.

Lemma decode_loop_last fuel lp p val k d :
  lp.[p] = Some d -> 0 <= d < 128 -> 0 <= val < 2 ^ k -> 0 <= k <= 28 ->
  lpDecodeBacklen_loop (S fuel) lp p val k = Some (val + d * 2 ^ k).
Proof.
  intros Hp Hd Hv Hk. cbn [lpDecodeBacklen_loop]. rewrite Hp. cbn [mbind option_bind].
  destruct (seven_bits d Hd) as (_ & _ & -> & ->). by rewrite shifted_group, lor_add by lia.
Qed.

(** The groups of seven bits of a length. *)
Definition group (l k : Z) : Z := l / 2 ^ k mod 128.

Lemma group_range l k : 0 <= group l k < 128.
Proof. apply Z.mod_pos_bound. lia. Qed.

Lemma low_group l k : 0 <= k -> Z.land (Z.shiftr l k) 127 = group l k.
Proof. intros Hk. rewrite Z.shiftr_div_pow2 by done. apply (land_low _ 7). lia. Qed.

Lemma groups_lt l k : 0 <= k -> l mod 2 ^ k + group l k * 2 ^ k = l mod 2 ^ (k + 7) /\ 0 <= l mod 2 ^ k < 2 ^ k.
Proof.
  intros Hk. split; [|apply Z.mod_pos_bound, Z.pow_pos_nonneg; lia]. unfold group.
  rewrite Z.pow_add_r by lia. rewrite Z.rem_mul_r; [change (2 ^ 7) with 128; ring|..]; [|done].
  apply Z.pow_nonzero; lia.
Qed.

(** The highest group, stored without the continuation bit. *)
Lemma top_group l k : 0 <= k -> 0 <= l < 2 ^ (k + 7) ->
  u8 (Z.shiftr l k) = l / 2 ^ k /\ 0 <= l / 2 ^ k < 128 /\ l mod 2 ^ k + l / 2 ^ k * 2 ^ k = l.
Proof.
  intros Hk Hl. assert (0 < 2 ^ k) by (apply Z.pow_pos_nonneg; lia). rewrite Z.pow_add_r in Hl by lia.
  assert (0 <= l / 2 ^ k < 128).
  { split; [apply Z.div_pos; lia|]. apply Z.div_lt_upper_bound; [lia|]. change (2 ^ 7) with 128 in Hl. lia. }
  rewrite Z.shiftr_div_pow2, uint_small by lia. split; [done|]. split; [done|].
  pose proof (Z.div_mod l (2 ^ k)). lia.
Qed.

(** The number of groups stored. *)
Definition backlen_groups (l : Z) : nat :=
  if l <=? 127 then 0 else if l <? 16383 then 1 else if l <? 2097151 then 2 else if l <? 268435455 then 3 else 4.

Fixpoint backlen_low (n : nat) (l k : Z) : bytes :=
  match n with O => [] | S n => backlen_low n l (k + 7) ++ [Z.lor (group l k) 128] end.

Lemma lpEncodeBacklen_groups l :
  lpEncodeBacklen l =
  u8 (Z.shiftr l (7 * Z.of_nat (backlen_groups l))) :: backlen_low (backlen_groups l) l 0.
Proof.
  unfold lpEncodeBacklen, backlen_groups. rewrite !low_group by lia.
  destruct (l <=? 127); [done|]. destruct (l <? 16383); [done|]. destruct (l <? 2097151); [done|].
  by destruct (l <? 268435455).
Qed.

Lemma length_backlen_low n l k : length (backlen_low n l k) = n.
Proof. revert k. induction n; intros k; simpl; [done|]. rewrite length_app, IHn. simpl. lia. Qed.

Lemma zlen_backlen l : zlen (lpEncodeBacklen l) = 1 + Z.of_nat (backlen_groups l).
Proof. rewrite lpEncodeBacklen_groups, zlen_cons. unfold zlen. by rewrite length_backlen_low. Qed.

Lemma backlen_size l : 1 <= zlen (lpEncodeBacklen l) <= 5.
Proof. rewrite zlen_backlen. unfold backlen_groups. case_ints; simpl; lia. Qed.

Lemma backlen_low_decode n l k (a c : bytes) h fuel p :
  0 <= k -> k + 7 * Z.of_nat n <= 28 -> (n < fuel)%nat -> 0 <= h < 128 ->
  p = zlen a + Z.of_nat n ->
  lpDecodeBacklen_loop fuel (a ++ (h :: backlen_low n l k) ++ c) p (l mod 2 ^ k) k =
  Some (l mod 2 ^ (k + 7 * Z.of_nat n) + h * 2 ^ (k + 7 * Z.of_nat n)).
Proof.
  revert k c fuel p. induction n as [|n IH]; intros k c fuel p Hk Hk28 Hf Hh ->.
  - destruct fuel as [|fuel]; [lia|]. rewrite (decode_loop_last _ _ _ _ _ h); try lia.
    + by rewrite Z.mul_0_r, Z.add_0_r.
    + rewrite Z.add_0_r. by apply mget_app.
    + by apply groups_lt.
  - destruct fuel as [|fuel]; [lia|]. cbn [backlen_low].
    destruct (groups_lt l k Hk) as [E Hb].
    replace (a ++ (h :: backlen_low n l (k + 7) ++ [Z.lor (group l k) 128]) ++ c)
      with (a ++ (h :: backlen_low n l (k + 7)) ++ (Z.lor (group l k) 128 :: c))
      by (rewrite !app_comm_cons, <-!app_assoc; done).
    rewrite (decode_loop_step _ _ _ _ _ (group l k)); try lia; try apply group_range.
    + rewrite E, IH by lia. do 3 f_equal; f_equal; lia.
    + rewrite app_assoc. apply mget_app. zlen. rewrite length_backlen_low. lia.
Qed.

Lemma backlen_groups_bound l :
  0 <= l < 2 ^ 35 -> 0 <= l < 2 ^ (7 * Z.of_nat (backlen_groups l) + 7) /\ (backlen_groups l <= 4)%nat.
Proof. intros Hl. unfold backlen_groups. case_ints; simpl; lia. Qed.

(** Reading the length backwards from its last byte. *)
Lemma lpDecodeBacklen_spec (a c : bytes) l p :
  0 <= l < 2 ^ 35 -> p = zlen a + zlen (lpEncodeBacklen l) - 1 ->
  lpDecodeBacklen (a ++ lpEncodeBacklen l ++ c) p = Some l.
Proof.
  intros Hl ->. rewrite zlen_backlen, lpEncodeBacklen_groups.
  destruct (backlen_groups_bound l Hl) as [Hr Hn]. set (n := backlen_groups l) in *.
  destruct (top_group l (7 * Z.of_nat n) ltac:(lia) Hr) as (-> & Hh & E).
  pose proof (backlen_low_decode n l 0 a c (l / 2 ^ (7 * Z.of_nat n)) 5
    (zlen a + (1 + Z.of_nat n) - 1)) as D. rewrite Z.mod_1_r, !Z.add_0_l in D.
  unfold lpDecodeBacklen. rewrite D by lia. by rewrite E.
Qed.

Lemma lpEncodeBacklen_bytes l : 0 <= l < 2 ^ 35 -> Forall is_byte (lpEncodeBacklen l).
Proof.
  intros Hl. rewrite lpEncodeBacklen_groups. constructor; [apply (uint_range 8); lia|].
  generalize (backlen_groups l) 0. induction n as [|n IH]; intros k; simpl; [done|].
  apply Forall_app. split; [apply IH|]. constructor; [|done]. unfold is_byte.
  pose proof (group_range l k). replace 128 with (Z.shiftl 1 7) by done. rewrite lor_add; lia.
Qed.

(** ** Integers and their representation *)

(** lpStringToInt64 is the string2ll of util.c. *)
Lemma lpStringToInt64_string2ll s : lpStringToInt64 s = string2ll s.
Proof.
  unfold lpStringToInt64, string2ll. destruct s as [|c s]; [done|].
  assert (forall p v, lpStringToInt64_loop p v = string2ll_loop p v) as Hl by done.
  destruct ((zlen (c :: s) =? 1) && (c =? 48)) eqn:E1; [done|].
  destruct (if c =? 45 then s else c :: s) as [|c' p] eqn:Ep; [done|].
  assert ((c' =? 48) && (zlen (c :: s) =? 1) = false) as ->; [|done].
  destruct (Z.eqb_spec (zlen (c :: s)) 1) as [E|]; [|by rewrite andb_false_r].
  rewrite zlen_cons in E. assert (s = []) as -> by (apply zlen_0_inv; lia).
  destruct (c =? 45); [done|]. injection Ep as <- <-. simpl in E1. by rewrite E1.
Qed.

(** The sign conversion of lpGet is two's complement on [w] bits. *)
Lemma lp_signed_sint w u :
  0 < w <= 64 -> in_u w u -> lp_signed u (2 ^ (w - 1)) (2 ^ w - 1) = sint w u.
Proof.
  intros Hw Hu. assert (2 ^ w = 2 * 2 ^ (w - 1)) as E by (rewrite <-Z.pow_succ_r by lia; f_equal; lia).
  assert (0 < 2 ^ (w - 1) <= 2 ^ 63) as Hp by (split; [apply Z.pow_pos_nonneg; lia|apply Z.pow_le_mono_r; lia]).
  unfold lp_signed. rewrite Z.geb_leb. destruct (Z.leb_spec (2 ^ (w - 1)) u) as [Hle|Hlt].
  - rewrite uint_small by lia. rewrite (sint_small 64 (2 ^ w - 1 - u)), sint_small by (simpl; lia).
    unfold sint. replace (u + 2 ^ (w - 1)) with (u - 2 ^ (w - 1) + 1 * 2 ^ w) by lia.
    rewrite Z.mod_add, Z.mod_small by lia. lia.
  - rewrite !sint_small by (simpl; lia). done.
Qed.

(** ** Encoding and decoding one element *)

(** The encoding of an integer: the shortest form that holds it. *)
Definition int_payload (v : Z) : bytes :=
  if (0 <=? v) && (v <=? 127) then [v]
  else if (-4096 <=? v) && (v <=? 4095) then [192 + uint 13 v / 256; uint 13 v mod 256]
  else if (-32768 <=? v) && (v <=? 32767) then 0xF1 :: le_encode 2 v
  else if (-8388608 <=? v) && (v <=? 8388607) then 0xF2 :: le_encode 3 v
  else if (-2147483648 <=? v) && (v <=? 2147483647) then 0xF3 :: le_encode 4 v
  else 0xF4 :: le_encode 8 v.

(** The header of a string of [len] bytes. *)
Definition str_header (len : Z) : bytes :=
  if len <? 64 then [128 + len]
  else if len <? 4096 then [224 + len / 256; len mod 256]
  else 0xF0 :: le_encode 4 len.

(** The encoding lpInsert stores for the element [s]. *)
Definition lp_encode (s : bytes) : bytes :=
  match lpStringToInt64 s with Some v => int_payload v | None => str_header (zlen s) ++ s end.

(** Negative values are stored as their two's complement. *)
Lemma wrap_negative w v : 0 <= w -> - 2 ^ w <= v < 2 ^ w -> (if v <? 0 then Z.shiftl 1 w + v else v) = uint w v.
Proof.
  intros Hw Hv. rewrite Z.shiftl_1_l. unfold uint. destruct (Z.ltb_spec v 0).
  - rewrite <-(Z.mod_add v 1), Z.mod_small by lia. lia.
  - by rewrite Z.mod_small by lia.
Qed.

Lemma u8_div v k : 0 <= k -> u8 (Z.shiftr v k) = v / 2 ^ k mod 256.
Proof. intros Hk. unfold uint. by rewrite Z.shiftr_div_pow2. Qed.

(** The bytes of the 2, 3, 4 and 8-byte integers, written one by one. *)
Lemma le2_bytes v : [Z.land v 0xff; u8 (Z.shiftr v 8)] = le_encode 2 v.
Proof. by rewrite land_255, u8_div by lia. Qed.
Lemma le3_bytes v : [Z.land v 0xff; byte_of v 8; u8 (Z.shiftr v 16)] = le_encode 3 v.
Proof. rewrite land_255, byte_of_div, u8_div by lia. by rewrite !le_encode_S, !Z.div_div by lia. Qed.
Lemma le4_bytes v : [Z.land v 0xff; byte_of v 8; byte_of v 16; u8 (Z.shiftr v 24)] = le_encode 4 v.
Proof. rewrite land_255, !byte_of_div, u8_div by lia. by rewrite !le_encode_S, !Z.div_div by lia. Qed.
Lemma le8_bytes v :
  [Z.land v 0xff; byte_of v 8; byte_of v 16; byte_of v 24; byte_of v 32; byte_of v 40; byte_of v 48;
   u8 (Z.shiftr v 56)] = le_encode 8 v.
Proof. rewrite land_255, !byte_of_div, u8_div by lia. by rewrite !le_encode_S, !Z.div_div by lia. Qed.

Lemma lpEncodeGetType_int s v :
  lpStringToInt64 s = Some v -> in_s 64 v ->
  lpEncodeGetType s = (Some (int_payload v), zlen (int_payload v)).
Proof.
  intros Hs Hv. unfold lpEncodeGetType, int_payload. rewrite Hs. rewrite !(Z.geb_leb v).
  destruct ((0 <=? v) && (v <=? 127)) eqn:E1; [rewrite uint_small by lia; done|].
  destruct ((-4096 <=? v) && (v <=? 4095)) eqn:E2.
  { rewrite wrap_negative by lia. rewrite land_255. pose proof (uint_range 13 v ltac:(lia)).
    change 0xC0 with (Z.shiftl 3 6). rewrite Z.shiftr_div_pow2 by lia. change (2 ^ 8) with 256.
    rewrite lor_add, uint_small by lia_div. rewrite Z.add_comm. done. }
  destruct ((-32768 <=? v) && (v <=? 32767)) eqn:E3.
  { rewrite wrap_negative by lia. rewrite le2_bytes, (le_encode_uint 2). by rewrite zlen_cons, zlen_le_encode. }
  destruct ((-8388608 <=? v) && (v <=? 8388607)) eqn:E4.
  { rewrite wrap_negative by lia. rewrite le3_bytes, (le_encode_uint 3). by rewrite zlen_cons, zlen_le_encode. }
  destruct ((-2147483648 <=? v) && (v <=? 2147483647)) eqn:E5.
  { rewrite wrap_negative by lia. rewrite le4_bytes, (le_encode_uint 4). by rewrite zlen_cons, zlen_le_encode. }
  rewrite le8_bytes, (le_encode_uint 8). by rewrite zlen_cons, zlen_le_encode.
Qed.

(** What a payload is: bytes whose first byte announces their number and is
    not the terminator. *)
Record payload_ok (e : bytes) : Prop := {
  po_bytes : Forall is_byte e;
  po_size : lpCurrentEncodedSizeUnsafe e 0 = Some (zlen e);
  po_first : head e <> Some LP_EOF;
  po_len : 0 < zlen e < 2 ^ 32;
}.

Lemma lp_read_tail x n v :
  lp_read n (x :: le_encode n v) (0 + 1) 0 = Some (uint (8 * Z.of_nat n) v).
Proof.
  pose proof (lp_read_le [x] [] n v 1 eq_refl) as H. by rewrite app_nil_r in H.
Qed.

Lemma payload_F x n v : 0xF1 <= x <= 0xF4 -> Z.of_nat n + 1 = (if x =? 0xF4 then 9 else x - 238) ->
  payload_ok (x :: le_encode n v).
Proof.
  intros Hx Hn. split.
  - constructor; [unfold is_byte; lia|apply le_encode_bytes].
  - unfold lpCurrentEncodedSizeUnsafe. simpl. lp_class x. rewrite zlen_cons, zlen_le_encode.
    destruct (Z.eqb_spec x 0xF4); case_ints; simpl; f_equal; lia.
  - simpl. intros [= ->]. unfold LP_EOF in Hx. lia.
  - rewrite zlen_cons, zlen_le_encode. case_ints_in Hn; lia.
Qed.

(** Rewrite the sign conversion with an instance of its specification. *)
Ltac lp_sign H :=
  let E := fresh in
  pose proof (H eq_refl) as E;
  match type of E with ?l = _ =>
    match goal with |- context [lp_signed ?a ?b ?c] => change (lp_signed a b c) with l end
  end;
  rewrite E.

Lemma get_F x n v ib : 0xF1 <= x <= 0xF4 -> Z.of_nat n + 1 = (if x =? 0xF4 then 9 else x - 238) ->
  in_s (8 * Z.of_nat n) v ->
  lpGet (x :: le_encode n v) 0 ib = Some (if ib : bool then LpBuf (print_lld v) else LpInt v).
Proof.
  intros Hx Hn Hv. unfold lpGet. change ((x :: le_encode n v).[0]) with (Some x). cbn [mbind option_bind].
  lp_class x. rewrite (proj2 (Z.ltb_ge x 128)), (proj2 (Z.ltb_ge x 192)), (proj2 (Z.ltb_ge x 224)),
    (proj2 (Z.ltb_ge x 240)) by lia. rewrite !andb_false_r.
  assert (forall w, w = 8 * Z.of_nat n -> lp_signed (uint w v) (2 ^ (w - 1)) (2 ^ w - 1) = v) as Hs.
  { assert (0 < 8 * Z.of_nat n <= 64) by (destruct (Z.eqb_spec x 0xF4); lia).
    intros w ->. rewrite lp_signed_sint by (first [lia|apply uint_range; lia]).
    rewrite sint_uint, sint_small by lia. done. }
  destruct (Z.eqb_spec x 0xF1) as [->|]; [|destruct (Z.eqb_spec x 0xF2) as [->|];
    [|destruct (Z.eqb_spec x 0xF3) as [->|]; [|destruct (Z.eqb_spec x 0xF4) as [->|]; [|lia]]]];
    simpl in Hn.
  - replace n with 2%nat in * by lia. rewrite lp_read_tail. cbn [mbind option_bind].
    by lp_sign (Hs 16).
  - replace n with 3%nat in * by lia. rewrite lp_read_tail. cbn [mbind option_bind].
    by lp_sign (Hs 24).
  - replace n with 4%nat in * by lia. rewrite lp_read_tail. cbn [mbind option_bind].
    by lp_sign (Hs 32).
  - replace n with 8%nat in * by lia. rewrite lp_read_tail. cbn [mbind option_bind].
    by lp_sign (Hs 64).
Qed.

(** Tests on a first byte between constants. *)
Ltac lp_tests := repeat match goal with
  | |- context [?a <? ?b] => first [rewrite (proj2 (Z.ltb_ge a b)) by lia | rewrite (proj2 (Z.ltb_lt a b)) by lia]
  | |- context [?a <=? ?b] => first [rewrite (proj2 (Z.leb_gt a b)) by lia | rewrite (proj2 (Z.leb_le a b)) by lia]
  | |- context [?a =? ?b] => first [rewrite (proj2 (Z.eqb_neq a b)) by lia | rewrite (proj2 (Z.eqb_eq a b)) by lia]
  end; cbn [andb orb negb].

Lemma payload_13 v : -4096 <= v <= 4095 -> payload_ok [192 + uint 13 v / 256; uint 13 v mod 256] /\
  forall ib, lpGet [192 + uint 13 v / 256; uint 13 v mod 256] 0 ib =
    Some (if ib : bool then LpBuf (print_lld v) else LpInt v).
Proof.
  intros Hv. pose proof (uint_range 13 v ltac:(lia)) as Hu. pose proof (sint_uint 13 v ltac:(lia)) as Es.
  rewrite (sint_small 13 v) in Es by lia. set (u := uint 13 v) in *.
  pose proof (Z.div_mod u 256 ltac:(lia)) as Ed. pose proof (Z.mod_pos_bound u 256 ltac:(lia)).
  assert (0 <= u / 256 < 32) by lia_div. set (q := u / 256) in *. set (r := u mod 256) in *.
  split.
  - split; [|unfold lpCurrentEncodedSizeUnsafe; simpl; lp_class (192 + q); by lp_tests| |done].
    + rewrite !Forall_cons, Forall_nil. unfold is_byte. lia.
    + simpl. intros [= E]. unfold LP_EOF in E. lia.
  - intros ib. unfold lpGet. simpl. lp_class (192 + q). lp_tests.
    change ([192 + q; r].[1]) with (Some r). cbn [mbind option_bind].
    assert (Z.lor (Z.shiftl (Z.land (192 + q) 0x1f) 8) r = u) as ->.
    { rewrite (land_low _ 5), Z.lor_comm, lor_add by lia. change (2 ^ 5) with 32.
      replace (192 + q) with (q + 6 * 32) by lia. rewrite Z.mod_add, Z.mod_small by lia. lia. }
    pose proof (lp_signed_sint 13 u) as Hs. rewrite Es in Hs. by lp_sign (fun _ : 0 = 0 => Hs ltac:(lia) Hu).
Qed.

Lemma payload_7 v : 0 <= v <= 127 -> payload_ok [v] /\
  forall ib, lpGet [v] 0 ib = Some (if ib : bool then LpBuf (print_lld v) else LpInt v).
Proof.
  intros Hv. split.
  - split; [rewrite Forall_singleton; unfold is_byte; lia| | |done].
    + unfold lpCurrentEncodedSizeUnsafe. simpl. lp_class v. by lp_tests.
    + simpl. intros [= E]. unfold LP_EOF in E. lia.
  - intros ib. unfold lpGet. simpl. lp_class v. lp_tests. rewrite (land_low _ 7), Z.mod_small by lia.
    unfold lp_signed. rewrite Z.geb_leb, (proj2 (Z.leb_gt _ _)) by (unfold UINT64_MAX; lia).
    by rewrite sint_small by lia.
Qed.

(** Every 64-bit integer has a valid encoding, from which lpGet reads it. *)
Lemma int_payload_spec v :
  in_s 64 v -> payload_ok (int_payload v) /\
  forall ib, lpGet (int_payload v) 0 ib = Some (if ib : bool then LpBuf (print_lld v) else LpInt v).
Proof.
  intros Hv. unfold int_payload.
  destruct ((0 <=? v) && (v <=? 127)) eqn:E1; [apply payload_7; lia|].
  destruct ((-4096 <=? v) && (v <=? 4095)) eqn:E2; [apply payload_13; lia|].
  destruct ((-32768 <=? v) && (v <=? 32767)) eqn:E3;
    [split; [by apply payload_F|intros ib; apply get_F; simpl; lia]|].
  destruct ((-8388608 <=? v) && (v <=? 8388607)) eqn:E4;
    [split; [by apply payload_F|intros ib; apply get_F; simpl; lia]|].
  destruct ((-2147483648 <=? v) && (v <=? 2147483647)) eqn:E5;
    [split; [by apply payload_F|intros ib; apply get_F; simpl; lia]|].
  split; [by apply payload_F|intros ib; apply get_F; simpl; lia].
Qed.

(** The largest string whose encoded length fits 32 bits. *)
Definition LP_MAX_STR : Z := 2 ^ 32 - 6.

Lemma str_payload_spec s :
  Forall is_byte s -> zlen s <= LP_MAX_STR ->
  payload_ok (str_header (zlen s) ++ s) /\
  forall ib, lpGet (str_header (zlen s) ++ s) 0 ib = Some (LpStr (zlen (str_header (zlen s))) (zlen s)).
Proof.
  intros Hs Hl. unfold LP_MAX_STR in Hl. pose proof (zlen_nonneg s) as H0. unfold str_header.
  destruct (Z.ltb_spec (zlen s) 64); [|destruct (Z.ltb_spec (zlen s) 4096)].
  - assert (LP_ENCODING_6BIT_STR_LEN (128 + zlen s) = zlen s) as E.
    { unfold LP_ENCODING_6BIT_STR_LEN. rewrite (land_low _ 6) by lia. change (2 ^ 6) with 64.
      replace (128 + zlen s) with (zlen s + 2 * 64) by lia. by rewrite Z.mod_add, Z.mod_small by lia. }
    split; [split|intros ib].
    + constructor; [unfold is_byte; lia|done].
    + unfold lpCurrentEncodedSizeUnsafe. simpl. lp_class (128 + zlen s). lp_tests. by rewrite E, zlen_cons.
    + simpl. intros [= E']. unfold LP_EOF in E'. lia.
    + simpl. rewrite zlen_cons. lia.
    + unfold lpGet. simpl. lp_class (128 + zlen s). lp_tests. by rewrite E.
  - pose proof (Z.div_mod (zlen s) 256 ltac:(lia)). pose proof (Z.mod_pos_bound (zlen s) 256 ltac:(lia)).
    assert (0 <= zlen s / 256 < 16) by lia_div. set (q := zlen s / 256) in *. set (r := zlen s mod 256) in *.
    assert (LP_ENCODING_12BIT_STR_LEN (224 + q :: r :: s) 0 = Some (zlen s)) as E.
    { unfold LP_ENCODING_12BIT_STR_LEN. change ((224 + q :: r :: s).[0]) with (Some (224 + q)).
      change ((224 + q :: r :: s).[0 + 1]) with (Some r). cbn [mbind option_bind]. f_equal.
      rewrite (land_low _ 4), Z.lor_comm, lor_add by lia. change (2 ^ 4) with 16.
      replace (224 + q) with (q + 14 * 16) by lia. rewrite Z.mod_add, Z.mod_small by lia. lia. }
    split; [split|intros ib].
    + constructor; [unfold is_byte; lia|]. constructor; [unfold is_byte; lia|done].
    + unfold lpCurrentEncodedSizeUnsafe. cbn [app]. rewrite E. simpl. lp_class (224 + q). lp_tests. f_equal.
      rewrite !zlen_cons. lia.
    + simpl. intros [= E']. unfold LP_EOF in E'. lia.
    + simpl. rewrite !zlen_cons. lia.
    + unfold lpGet. cbn [app]. rewrite E. simpl. lp_class (224 + q). by lp_tests.
  - assert (LP_ENCODING_32BIT_STR_LEN ((0xF0 :: le_encode 4 (zlen s)) ++ s) 0 = Some (zlen s)) as E.
    { unfold LP_ENCODING_32BIT_STR_LEN. change ((0xF0 :: le_encode 4 (zlen s)) ++ s)
        with ([0xF0] ++ le_encode 4 (zlen s) ++ s). rewrite lp_read_le by done. by rewrite uint_small by (simpl; lia). }
    split; [split|intros ib].
    + apply Forall_app. split; [|done]. constructor; [unfold is_byte; lia|apply le_encode_bytes].
    + rewrite zlen_app, zlen_cons, zlen_le_encode. unfold lpCurrentEncodedSizeUnsafe. rewrite E. simpl.
      rewrite uint_small by lia. done.
    + done.
    + rewrite zlen_app, zlen_cons, zlen_le_encode. lia.
    + unfold lpGet. rewrite E. simpl. by rewrite zlen_cons, zlen_le_encode.
Qed.

(** ** The representation of a list of elements *)

(** An element with its backward length, and the elements one after the other. *)
Definition entry (e : bytes) : bytes := e ++ lpEncodeBacklen (zlen e).
Definition lp_body (es : list bytes) : bytes := concat (entry <$> es).
Definition lp_total (es : list bytes) : Z := LP_HDR_SIZE + zlen (lp_body es) + 1.

(** The offset of the [i]-th element; the terminator is at [length es]. *)
Definition lp_off (es : list bytes) (i : nat) : Z := LP_HDR_SIZE + zlen (lp_body (take i es)).

(** A pointer to the [i]-th element, NULL past the end. *)
Definition lp_ptr (es : list bytes) (i : nat) : option Z :=
  if bool_decide (i < length es)%nat then Some (lp_off es i) else None.

(** The count in the header: exact, or unknown. *)
Definition num_ok (num : Z) (n : nat) : Prop :=
  num = LP_HDR_NUMELE_UNKNOWN \/ (num = Z.of_nat n /\ num < LP_HDR_NUMELE_UNKNOWN).

Definition lp_layout (num : Z) (es : list bytes) (slack : bytes) : bytes :=
  le_encode 4 (lp_total es) ++ le_encode 2 num ++ lp_body es ++ LP_EOF :: slack.

Record lp_repr (lp : bytes) (num : Z) (es : list bytes) : Prop := {
  lr_layout : exists slack, lp = lp_layout num es slack;
  lr_payloads : Forall payload_ok es;
  lr_total : lp_total es < 2 ^ 32;
  lr_num : num_ok num (length es);
}.

Lemma lp_body_app es1 es2 : lp_body (es1 ++ es2) = lp_body es1 ++ lp_body es2.
Proof. unfold lp_body. by rewrite fmap_app, concat_app. Qed.

Lemma lp_body_cons e es : lp_body (e :: es) = entry e ++ lp_body es.
Proof. done. Qed.

Lemma zlen_entry e : zlen (entry e) = zlen e + zlen (lpEncodeBacklen (zlen e)).
Proof. unfold entry. apply zlen_app. Qed.

Lemma num_ok_range num n : num_ok num n -> 0 <= num <= 65535.
Proof. unfold num_ok, LP_HDR_NUMELE_UNKNOWN. lia. Qed.

Lemma lp_off_all es : lp_off es (length es) = lp_total es - 1.
Proof. unfold lp_off, lp_total. rewrite firstn_all. lia. Qed.

Lemma lp_off_S es i e : es !! i = Some e -> lp_off es (S i) = lp_off es i + zlen (entry e).
Proof.
  intros Hi. unfold lp_off. rewrite (take_S_r _ _ _ Hi), lp_body_app, zlen_app.
  rewrite lp_body_cons, app_nil_r. lia.
Qed.

Lemma lp_off_mono es i j : (i <= j)%nat -> lp_off es i <= lp_off es j.
Proof.
  intros Hij. unfold lp_off. rewrite <-(take_drop i (take j es)), take_take, Nat.min_l, lp_body_app, zlen_app by done.
  pose proof (zlen_nonneg (lp_body (drop i (take j es)))). lia.
Qed.

Section repr.
Context {lp : bytes} {num : Z} {es : list bytes} (R : lp_repr lp num es).

Lemma repr_total : lpGetTotalBytes lp = Some (lp_total es).
Proof.
  destruct (lr_layout _ _ _ R) as [slack ->]. unfold lpGetTotalBytes, lp_layout.
  pose proof (lp_read_le [] (le_encode 2 num ++ lp_body es ++ LP_EOF :: slack) 4 (lp_total es) 0 eq_refl) as H.
  rewrite app_nil_l in H. rewrite H, uint_small; [done|]. pose proof (lr_total _ _ _ R). unfold lp_total, LP_HDR_SIZE in *.
  pose proof (zlen_nonneg (lp_body es)). simpl. lia.
Qed.

Lemma repr_num : lpGetNumElements lp = Some num.
Proof.
  destruct (lr_layout _ _ _ R) as [slack ->]. unfold lpGetNumElements, lp_layout.
  rewrite lp_read_le by done. rewrite uint_small; [done|]. pose proof (num_ok_range _ _ (lr_num _ _ _ R)).
  simpl. lia.
Qed.

(** The block split at the [i]-th element. *)
Lemma repr_split i : (i <= length es)%nat ->
  exists a slack, lp = a ++ lp_body (drop i es) ++ LP_EOF :: slack /\ zlen a = lp_off es i.
Proof.
  intros Hi. destruct (lr_layout _ _ _ R) as [slack ->]. unfold lp_layout.
  exists (le_encode 4 (lp_total es) ++ le_encode 2 num ++ lp_body (take i es)), slack. split.
  - rewrite <-!app_assoc. do 2 f_equal. by rewrite app_assoc, <-lp_body_app, take_drop.
  - rewrite !zlen_app, !zlen_le_encode. unfold lp_off, LP_HDR_SIZE. lia.
Qed.

Lemma repr_split_entry i e : es !! i = Some e ->
  exists a c, lp = a ++ e ++ lpEncodeBacklen (zlen e) ++ c /\ zlen a = lp_off es i.
Proof.
  intros Hi. destruct (repr_split i) as (a & slack & -> & Ha); [by apply Nat.lt_le_incl, lookup_lt_is_Some|].
  rewrite (drop_S _ _ _ Hi), lp_body_cons. unfold entry. rewrite <-!app_assoc. eauto.
Qed.

Lemma repr_payload i e : es !! i = Some e -> payload_ok e.
Proof. intros Hi. pose proof (lr_payloads _ _ _ R) as H. by rewrite Forall_lookup in H; eapply H. Qed.

(** The byte at an element is the terminator exactly at the end. *)
Lemma repr_first_byte i : (i <= length es)%nat ->
  exists b, lp.[lp_off es i] = Some b /\ (b =? LP_EOF) = bool_decide (i = length es).
Proof.
  intros Hi. destruct (decide (i = length es)) as [->|Hne].
  - destruct (repr_split (length es)) as (a & slack & -> & <-); [done|]. rewrite drop_all.
    exists LP_EOF. split; [by apply mget_app|]. by rewrite bool_decide_true.
  - destruct (lookup_lt_is_Some_2 es i) as [e He]; [lia|].
    pose proof (repr_payload i e He) as [_ _ Hf Hl]. destruct (repr_split_entry i e He) as (a & c & -> & <-).
    destruct e as [|b e]; [unfold zlen in Hl; simpl in Hl; lia|]. exists b. split; [by apply mget_app|].
    rewrite bool_decide_false by done. apply Z.eqb_neq. simpl in Hf. congruence.
Qed.

Lemma repr_size i e : es !! i = Some e -> lpCurrentEncodedSizeUnsafe lp (lp_off es i) = Some (zlen e).
Proof.
  intros Hi. pose proof (repr_payload i e Hi) as P. destruct (repr_split_entry i e Hi) as (a & c & -> & <-).
  rewrite <-(Z.add_0_r (zlen a)). apply size_local, P.
Qed.

Lemma repr_skip i e : es !! i = Some e -> lpSkip lp (lp_off es i) = Some (lp_off es (S i)).
Proof. intros Hi. unfold lpSkip. by rewrite (repr_size i e Hi), (lp_off_S es i e Hi), zlen_entry. Qed.

Lemma lp_off_range i : (i <= length es)%nat -> LP_HDR_SIZE <= lp_off es i < lp_total es.
Proof.
  intros Hi. pose proof (lp_off_mono es i (length es) Hi) as Hm. rewrite lp_off_all in Hm.
  unfold lp_off in *. pose proof (zlen_nonneg (lp_body (take i es))). lia.
Qed.

Lemma repr_assert i : (i <= length es)%nat -> ASSERT_INTEGRITY lp (lp_off es i) = Some tt.
Proof.
  intros Hi. unfold ASSERT_INTEGRITY. rewrite repr_total. cbn [mbind option_bind].
  pose proof (lp_off_range i Hi). rewrite Z.geb_leb. lp_tests. done.
Qed.

Lemma ptr_of_byte b i : (b =? LP_EOF) = bool_decide (i = length es) -> (i <= length es)%nat ->
  (if b =? LP_EOF then None else Some (lp_off es i)) = lp_ptr es i.
Proof.
  intros -> Hi. unfold lp_ptr. destruct (decide (i = length es)).
  - by rewrite bool_decide_true, bool_decide_false by lia.
  - by rewrite bool_decide_false, bool_decide_true by lia.
Qed.

(** lpNext moves to the following element, or to NULL from the last. *)
Lemma repr_next i : (i < length es)%nat -> lpNext lp (lp_off es i) = Some (lp_ptr es (S i)).
Proof.
  intros Hi. destruct (lookup_lt_is_Some_2 es i Hi) as [e He]. unfold lpNext. rewrite (repr_skip i e He).
  cbn [mbind option_bind]. rewrite repr_assert by lia. cbn [mbind option_bind].
  destruct (repr_first_byte (S i)) as (b & -> & Hb); [lia|]. cbn [mbind option_bind]. f_equal.
  apply ptr_of_byte; [done|lia].
Qed.

Lemma repr_first : lpFirst lp = Some (lp_ptr es 0).
Proof.
  unfold lpFirst. destruct (repr_first_byte 0) as (b & Hb & Hf); [lia|].
  pose proof (ptr_of_byte b 0 Hf ltac:(lia)) as Hp. change (lp_off es 0) with LP_HDR_SIZE in *.
  rewrite Hb. cbn [mbind option_bind]. by rewrite Hp.
Qed.

(** lpPrev moves to the preceding element, or to NULL from the first. *)
Lemma repr_prev i : (i <= length es)%nat ->
  lpPrev lp (lp_off es i) = Some (if bool_decide (i = 0)%nat then None else Some (lp_off es (i - 1))).
Proof.
  intros Hi. unfold lpPrev. destruct i as [|i].
  { change (lp_off es 0) with LP_HDR_SIZE. by rewrite Z.eqb_refl. }
  destruct (lookup_lt_is_Some_2 es i Hi) as [e He]. pose proof (lp_off_S es i e He) as Ho.
  pose proof (lp_off_range i ltac:(lia)) as Hr. pose proof (zlen_entry e) as Hz.
  pose proof (backlen_size (zlen e)) as Hbl. destruct (repr_payload i e He) as [_ _ _ Hlen].
  rewrite (proj2 (Z.eqb_neq _ _)) by lia.
  assert (lpDecodeBacklen lp (lp_off es (S i) - 1) = Some (zlen e)) as ->.
  { destruct (repr_split_entry i e He) as (a & c & Hlp & Ha). rewrite Hlp, app_assoc.
    apply lpDecodeBacklen_spec; [lia|]. rewrite zlen_app. lia. }
  cbn [mbind option_bind]. rewrite uint_small by lia.
  replace (lp_off es (S i) - 1 - (zlen e + zlen (lpEncodeBacklen (zlen e)) - 1)) with (lp_off es i) by lia.
  rewrite repr_assert by lia. cbn [mbind option_bind]. rewrite bool_decide_false by lia.
  by replace (S i - 1)%nat with i by lia.
Qed.

Lemma repr_last :
  lpLast lp = Some (if bool_decide (es = []) then None else Some (lp_off es (length es - 1))).
Proof.
  unfold lpLast. rewrite repr_total. cbn [mbind option_bind]. rewrite <-lp_off_all, repr_prev by lia.
  destruct es; [done|]. by rewrite !bool_decide_false by (simpl; lia || done).
Qed.

(** ** Counting and seeking *)

Lemma body_length_ge l : Forall payload_ok l -> Z.of_nat (length l) <= zlen (lp_body l).
Proof.
  induction 1 as [|e l He Hl IH]; [done|]. rewrite lp_body_cons, zlen_app, zlen_entry.
  pose proof (po_len _ He). pose proof (backlen_size (zlen e)). cbn [length]. lia.
Qed.

Lemma repr_count : Z.of_nat (length es) < 2 ^ 32 /\ (length es < length lp)%nat.
Proof.
  pose proof (body_length_ge es (lr_payloads _ _ _ R)) as Hb. pose proof (lr_total _ _ _ R) as Ht.
  unfold lp_total, LP_HDR_SIZE in Ht. split; [lia|]. destruct (lr_layout _ _ _ R) as [slack ->].
  unfold lp_layout. rewrite !length_app, !length_le_encode. unfold zlen in Hb. lia.
Qed.

Lemma length_loop fuel i :
  (i <= length es)%nat -> (length es - i <= fuel)%nat ->
  lpLength_loop fuel lp (lp_ptr es i) (Z.of_nat i) = Some (Z.of_nat (length es)).
Proof.
  revert i. induction fuel as [|fuel IH]; intros i Hi Hf.
  - replace i with (length es) by lia. unfold lp_ptr. by rewrite bool_decide_false by lia.
  - unfold lp_ptr. case_bool_decide; [|by replace i with (length es) by lia].
    cbn [lpLength_loop]. rewrite repr_next by lia. cbn [mbind option_bind].
    pose proof (proj1 repr_count). rewrite uint_small by lia.
    replace (Z.of_nat i + 1) with (Z.of_nat (S i)) by lia. apply IH; lia.
Qed.

Lemma set_num num' slack :
  lpSetNumElements (lp_layout num es slack) num' = Some (lp_layout num' es slack).
Proof.
  unfold lpSetNumElements, lp_layout. rewrite set2_le. apply mstore_app; [done|by rewrite !length_le_encode].
Qed.

(** lpLength counts the elements; it may store the count it recomputed. *)
Lemma repr_lpLength :
  exists lp' num', lpLength lp = Some (lp', Z.of_nat (length es)) /\ lp_repr lp' num' es /\ length lp' = length lp.
Proof.
  unfold lpLength. rewrite repr_num. cbn [mbind option_bind]. pose proof (lr_num _ _ _ R) as Hn.
  destruct (Z.eqb_spec num LP_HDR_NUMELE_UNKNOWN) as [E|Hne]; cbn [negb].
  - rewrite repr_first. cbn [mbind option_bind]. pose proof repr_count.
    change 0 with (Z.of_nat 0). rewrite (length_loop (length lp) 0) by lia. cbn [mbind option_bind].
    destruct (Z.ltb_spec (Z.of_nat (length es)) LP_HDR_NUMELE_UNKNOWN).
    + destruct (lr_layout _ _ _ R) as [slack Hlp]. rewrite Hlp, set_num. cbn [mbind option_bind].
      eexists _, _. split; [done|]. split; [|unfold lp_layout; by rewrite !length_app, !length_le_encode].
      split; [by exists slack|apply R|apply R|by right].
    + exists lp, num. done.
  - destruct Hn as [?|[-> _]]; [done|]. exists lp, (Z.of_nat (length es)). done.
Qed.

Lemma seek_forward k i :
  (i <= length es)%nat -> lpSeek_forward k lp (lp_ptr es i) = Some (lp_ptr es (i + k)).
Proof.
  revert i. induction k as [|k IH]; intros i Hi; cbn [lpSeek_forward].
  - rewrite Nat.add_0_r. by destruct (lp_ptr es i).
  - unfold lp_ptr at 1. case_bool_decide.
    + rewrite repr_next by lia. cbn [mbind option_bind]. rewrite IH by lia. do 2 f_equal. lia.
    + unfold lp_ptr. by rewrite !bool_decide_false by lia.
Qed.

(** A pointer to the element of index [j], NULL below 0. *)
Definition back_ptr (j : Z) : option Z := if j <? 0 then None else Some (lp_off es (Z.to_nat j)).

Lemma seek_backward k j :
  j < Z.of_nat (length es) -> lpSeek_backward k lp (back_ptr j) = Some (back_ptr (j - Z.of_nat k)).
Proof.
  revert j. induction k as [|k IH]; intros j Hj; cbn [lpSeek_backward].
  - rewrite Z.sub_0_r. by destruct (back_ptr j).
  - unfold back_ptr at 1. destruct (Z.ltb_spec j 0).
    + unfold back_ptr. by rewrite !(proj2 (Z.ltb_lt _ _)) by lia.
    + rewrite repr_prev by lia. cbn [mbind option_bind].
      replace (if bool_decide (Z.to_nat j = 0%nat) then None else Some (lp_off es (Z.to_nat j - 1)))
        with (back_ptr (j - 1)).
      { rewrite IH by lia. do 2 f_equal. lia. }
      unfold back_ptr. destruct (Z.ltb_spec (j - 1) 0).
      * by rewrite bool_decide_true by lia.
      * rewrite bool_decide_false by lia. do 2 f_equal. lia.
Qed.

(** Where an index that may be negative points to. *)
Definition seek_ptr (index : Z) : option Z :=
  let j := if index <? 0 then Z.of_nat (length es) + index else index in
  if bool_decide (0 <= j < Z.of_nat (length es)) then Some (lp_off es (Z.to_nat j)) else None.

Lemma lp_ptr_seek index : 0 <= index -> lp_ptr es (Z.to_nat index) = seek_ptr index.
Proof.
  intros Hi. unfold lp_ptr, seek_ptr. rewrite (proj2 (Z.ltb_ge _ _)) by lia.
  destruct (decide (index < Z.of_nat (length es))).
  - by rewrite !bool_decide_true by lia.
  - by rewrite !bool_decide_false by lia.
Qed.

Lemma repr_lpSeek index : lpSeek lp index = Some (seek_ptr index).
Proof.
  unfold lpSeek. rewrite repr_num. cbn [mbind option_bind]. pose proof (lr_num _ _ _ R) as Hn.
  assert (forall k, (ele ← lpFirst lp; lpSeek_forward k lp ele) = Some (lp_ptr es k)) as Hfw.
  { intros k. rewrite repr_first. cbn [mbind option_bind]. by rewrite seek_forward by lia. }
  assert (forall k, (ele ← lpLast lp; lpSeek_backward k lp ele) =
            Some (back_ptr (Z.of_nat (length es) - 1 - Z.of_nat k))) as Hbw.
  { intros k. rewrite repr_last. cbn [mbind option_bind]. rewrite <-seek_backward by lia. f_equal.
    unfold back_ptr. destruct es; [done|]. rewrite bool_decide_false, (proj2 (Z.ltb_ge _ _)) by (done || simpl; lia).
    do 2 f_equal. lia. }
  unfold lpSeek_plan. destruct (Z.eqb_spec num LP_HDR_NUMELE_UNKNOWN) as [E|Hne]; cbn [negb].
  - destruct (Z.ltb_spec index 0); cbn [negb].
    + rewrite Hbw. f_equal. unfold back_ptr, seek_ptr. rewrite (proj2 (Z.ltb_lt index 0)) by done.
      destruct (Z.ltb_spec (Z.of_nat (length es) - 1 - Z.of_nat (Z.to_nat (-1 - index))) 0).
      * by rewrite bool_decide_false by lia.
      * rewrite bool_decide_true by lia. do 2 f_equal. lia.
    + rewrite Hfw. f_equal. by apply lp_ptr_seek.
  - destruct Hn as [?|[-> Hlt]]; [done|]. unfold seek_ptr. set (n := Z.of_nat (length es)) in *.
    set (j := if index <? 0 then n + index else index).
    destruct (Z.ltb_spec j 0); [by rewrite bool_decide_false by lia|].
    rewrite Z.geb_leb. destruct (Z.leb_spec n j); [by rewrite bool_decide_false by lia|].
    rewrite bool_decide_true by lia. rewrite Z.gtb_ltb. destruct (Z.ltb_spec (n / 2) j).
    + rewrite Hbw. unfold back_ptr. fold n. rewrite (proj2 (Z.ltb_ge _ _)) by lia. do 3 f_equal. lia.
    + rewrite Hfw. unfold lp_ptr. by rewrite bool_decide_true by lia.
Qed.

(** ** Reading the elements *)

(** The string a value of lpGet stands for. *)
Definition value_bytes (m : bytes) (v : lp_value) : option bytes :=
  match v with
  | LpStr p n => mload m p n
  | LpInt v => Some (print_lld v)
  | LpBuf b => Some b
  end.

(** Reading an element where it is stored. *)
Lemma get_embedded (a e c : bytes) ib v :
  lpGet e 0 ib = Some v ->
  lpGet (a ++ e ++ c) (zlen a) ib = Some (shift_value (zlen a) v) /\
  (forall s, value_bytes e v = Some s -> value_bytes (a ++ e ++ c) (shift_value (zlen a) v) = Some s).
Proof.
  intros Hg. split.
  - rewrite <-(Z.add_0_r (zlen a)) at 1. by apply get_local.
  - destruct v as [p n| |]; [|done..]. simpl. intros s (a' & c' & -> & -> & ->)%mload_Some.
    rewrite <-!app_assoc, app_assoc. by apply mload_app; [rewrite zlen_app|].
Qed.

Lemma repr_lpGet i e ib v :
  es !! i = Some e -> lpGet e 0 ib = Some v ->
  lpGet lp (lp_off es i) ib = Some (shift_value (lp_off es i) v) /\
  (forall s, value_bytes e v = Some s -> value_bytes lp (shift_value (lp_off es i) v) = Some s).
Proof. intros Hi Hg. destruct (repr_split_entry i e Hi) as (a & c & -> & <-). by apply get_embedded. Qed.

(** ** The integrity check *)

Lemma size_bytes_pos e b : payload_ok e -> head e = Some b -> 0 < lpCurrentEncodedSizeBytes b <= zlen e.
Proof.
  intros [Hb Hs Hf Hl] Hh. destruct e as [|b' e]; [done|]. injection Hh as ->.
  apply Forall_cons in Hb as [Hb He]. revert Hs. unfold lpCurrentEncodedSizeUnsafe, lpCurrentEncodedSizeBytes.
  change ((b :: e).[0]) with (Some b). cbn [mbind option_bind].
  repeat (destruct (_ : bool); [intros; lia|]).
  destruct (LP_ENCODING_IS_12BIT_STR b).
  { destruct (LP_ENCODING_12BIT_STR_LEN (b :: e) 0) as [n|] eqn:E; [|done].
    intros _. revert E. unfold LP_ENCODING_12BIT_STR_LEN. destruct e; [done|]. intros _. rewrite !zlen_cons.
    pose proof (zlen_nonneg e). lia. }
  destruct (LP_ENCODING_IS_32BIT_STR b).
  { destruct e as [|? [|? [|? [|? e]]]]; try done. intros _. rewrite !zlen_cons. pose proof (zlen_nonneg e). lia. }
  destruct (Z.eqb_spec b LP_EOF) as [->|]; [by destruct Hf|]. done.
Qed.

(** On a valid element lpValidateNext moves to the next; at the terminator it
    returns 1 once more, with [*pp] set to NULL. *)
Lemma repr_validate_next i : (i <= length es)%nat ->
  lpValidateNext lp (Some (lp_off es i)) (lp_total es) =
  Some (inr (if bool_decide (i = length es) then None else Some (lp_off es (S i)))).
Proof.
  intros Hi. unfold lpValidateNext. destruct (repr_first_byte i Hi) as (b & Hb & Hf). rewrite Hb.
  cbn [mbind option_bind]. rewrite Hf. case_bool_decide as Hd; [done|].
  destruct (lookup_lt_is_Some_2 es i) as [e He]; [lia|]. pose proof (repr_payload i e He) as P.
  pose proof (lp_off_range i Hi). pose proof (lp_off_range (S i) ltac:(lia)) as Hr.
  rewrite (lp_off_S es i e He), zlen_entry in Hr. pose proof (backlen_size (zlen e)) as Hbl.
  pose proof (po_len _ P) as Hl.
  assert (head e = Some b) as Hh.
  { destruct (repr_split_entry i e He) as (a & c & Hlp & Ha). rewrite Hlp, <-Ha in Hb.
    destruct e as [|b' e]; [unfold zlen in Hl; simpl in Hl; lia|]. simpl in Hb. rewrite mget_app in Hb by done. done. }
  pose proof (size_bytes_pos e b P Hh) as Hsz.
  rewrite (proj2 (Z.eqb_neq _ _)) by lia. rewrite !(Z.gtb_ltb _ (lp_total es - 1)). lp_tests.
  rewrite (repr_size i e He). cbn [mbind option_bind]. rewrite Z.gtb_ltb. lp_tests.
  assert (lpDecodeBacklen lp (lp_off es i + (zlen e + zlen (lpEncodeBacklen (zlen e))) - 1) = Some (zlen e)) as ->.
  { destruct (repr_split_entry i e He) as (a & c & Hlp & Ha). rewrite Hlp, app_assoc.
    apply lpDecodeBacklen_spec; [lia|]. rewrite zlen_app. lia. }
  cbn [mbind option_bind]. rewrite uint_small by lia. rewrite Z.eqb_refl. cbn [negb].
  by rewrite (lp_off_S es i e He), zlen_entry.
Qed.

Lemma repr_validate_loop fuel i count :
  (i <= length es)%nat -> (length es - i < fuel)%nat -> 0 <= count -> count + Z.of_nat (length es - i) + 1 < 2 ^ 32 ->
  lpValidate_loop fuel lp (Some (lp_off es i)) (lp_total es) count =
  Some (Some (count + Z.of_nat (length es - i) + 1)).
Proof.
  revert i count. induction fuel as [|fuel IH]; intros i count Hi Hf H0 Hc; [lia|].
  cbn [lpValidate_loop]. rewrite repr_validate_next by done. cbn [mbind option_bind].
  rewrite uint_small by lia. case_bool_decide.
  - destruct fuel; cbn [lpValidate_loop]; do 2 f_equal; lia.
  - rewrite IH by lia. do 2 f_equal. lia.
Qed.

(** The header and the terminator of a block without slack pass the check. *)
Lemma repr_validate_header deep :
  zlen lp = lp_total es ->
  lpValidateIntegrity lp (zlen lp) deep =
  if deep : bool then
    Some (bool_decide (num = LP_HDR_NUMELE_UNKNOWN \/ es = []))
  else Some true.
Proof.
  intros Hz. unfold lpValidateIntegrity. pose proof (lp_off_range 0 ltac:(lia)) as H0. rewrite Hz.
  rewrite (proj2 (Z.ltb_ge _ _)) by lia. rewrite repr_total. cbn [mbind option_bind].
  rewrite Z.eqb_refl. cbn [negb]. destruct (repr_first_byte (length es)) as (b & Hb & Hf); [done|].
  rewrite lp_off_all in Hb. rewrite Hb. cbn [mbind option_bind]. rewrite Hf, bool_decide_true by done. cbn [negb].
  destruct deep; [|done]. cbn [negb]. rewrite repr_first. cbn [mbind option_bind].
  rewrite repr_num. pose proof (lr_num _ _ _ R) as Hn. pose proof repr_count as [Hc Hl].
  unfold lp_ptr. destruct (decide (0 < length es)%nat) as [Hne|Hne];
    [rewrite (bool_decide_true (0 < _)%nat) by done|rewrite (bool_decide_false (0 < _)%nat) by done].
  - rewrite repr_validate_loop by (try lia; pose proof (body_length_ge es (lr_payloads _ _ _ R));
      pose proof (lr_total _ _ _ R); unfold lp_total, LP_HDR_SIZE in *; lia).
    cbn [mbind option_bind]. destruct (Z.eqb_spec num LP_HDR_NUMELE_UNKNOWN) as [E|E]; cbn [negb andb].
    + by rewrite bool_decide_true by auto.
    + destruct Hn as [|[-> _]]; [done|]. rewrite (proj2 (Z.eqb_neq _ _)) by lia.
      by rewrite bool_decide_false by (intros [?| ->]; [done|simpl in Hne; lia]).
  - assert (es = []) as -> by (destruct es; [done|simpl in Hne; lia]). cbn [lpValidate_loop mbind option_bind].
    rewrite bool_decide_true by auto. destruct (Z.eqb_spec num LP_HDR_NUMELE_UNKNOWN); [done|].
    destruct Hn as [|[-> _]]; done.
Qed.

End repr.

(** ** Insertion, replacement and deletion *)

(** memmove over a gap: the tail [B] goes from the end of [X] to [n] bytes after
    the end of [P]. *)
Lemma memmove_gap (P X B S : bytes) n dst src len :
  dst = zlen P + n -> src = zlen P + zlen X -> len = zlen B -> 0 <= n <= zlen X + zlen S ->
  exists Y S', memmove (P ++ X ++ B ++ S) dst src len = Some (P ++ Y ++ B ++ S') /\ zlen Y = n /\
    zlen S' = zlen X + zlen S - n.
Proof.
  intros -> -> -> Hn. set (m := P ++ X ++ B ++ S). unfold memmove.
  assert (mload m (zlen P + zlen X) (zlen B) = Some B) as ->.
  { unfold m. rewrite app_assoc. apply mload_app; [by rewrite zlen_app|done]. }
  simpl. unfold mstore. rewrite bool_decide_true by (unfold m; rewrite !zlen_app;
    pose proof (zlen_nonneg P); pose proof (zlen_nonneg B); lia).
  pose proof (zlen_nonneg P). exists (take (Z.to_nat n) (X ++ B ++ S)), (drop (Z.to_nat (zlen P + n) + length B) m).
  split; [|split].
  - rewrite (app_assoc P (take _ _)). do 2 f_equal. unfold m. rewrite take_app_ge by (unfold zlen; lia).
    by replace (Z.to_nat (zlen P + n) - length P)%nat with (Z.to_nat n) by (unfold zlen; lia).
  - unfold zlen in *. rewrite length_take, !length_app. lia.
  - unfold zlen in *. rewrite length_drop. unfold m. rewrite !length_app. lia.
Qed.

Lemma lpInsert_move_spec fresh (P X B S : bytes) whr n old new :
  old = zlen P + zlen X + zlen B -> new = zlen P + n + zlen B -> 0 <= n ->
  whr = LP_REPLACE \/ (whr = LP_BEFORE /\ X = []) ->
  exists Y S', lpInsert_move fresh (P ++ X ++ B ++ S) whr (zlen P) n (zlen X) old new = Some (P ++ Y ++ B ++ S') /\
    zlen Y = n.
Proof.
  intros Ho Hn H0 Hw. unfold lpInsert_move.
  assert (exists S1, (if (new >? old) && (new >? zlen (P ++ X ++ B ++ S))
            then zrealloc fresh (P ++ X ++ B ++ S) new else P ++ X ++ B ++ S) = P ++ X ++ B ++ S1 /\
            n <= zlen X + zlen S1) as (S1 & -> & Hs).
  { rewrite !Z.gtb_ltb, !zlen_app. pose proof (zlen_nonneg S).
    destruct (Z.ltb_spec old new); cbn [andb]; [|exists S; split; [done|lia]].
    destruct (Z.ltb_spec (zlen P + (zlen X + (zlen B + zlen S))) new); [|exists S; split; [done|lia]].
    destruct (zrealloc_grow fresh (P ++ X ++ B ++ S) new) as (t & -> & Ht); [rewrite !zlen_app; lia|].
    exists (S ++ t). rewrite <-!app_assoc. split; [done|]. rewrite !zlen_app in *. lia. }
  destruct (memmove_gap P X B S1 n (zlen P + n) (zlen P + zlen X) (zlen B)) as (Y & S' & Hm & HY & HS); try done.
  assert ((if bool_decide (whr = LP_BEFORE) then memmove (P ++ X ++ B ++ S1) (zlen P + n) (zlen P) (old - zlen P)
           else memmove (P ++ X ++ B ++ S1) (zlen P + zlen X + (n - zlen X)) (zlen P + zlen X) (old - zlen P - zlen X))
          = Some (P ++ Y ++ B ++ S')) as ->.
  { rewrite <-Hm. destruct Hw as [->|[-> ->]].
    - rewrite bool_decide_false by done. f_equal; lia.
    - rewrite bool_decide_true by done. rewrite zlen_nil in *. f_equal; lia. }
  cbn [mbind option_bind]. destruct (Z.ltb_spec new old); [|eauto].
  exists Y, []. split; [|done]. f_equal. rewrite app_nil_r.
  replace (P ++ Y ++ B ++ S') with ((P ++ Y ++ B) ++ S') by (by rewrite <-!app_assoc).
  apply zrealloc_shrink. rewrite !zlen_app. lia.
Qed.

(** Writing the first bytes of a room [Y]. *)
Lemma mstore_room (P Y Q b : bytes) off :
  off = zlen P -> zlen b <= zlen Y ->
  exists Y', mstore (P ++ Y ++ Q) off b = Some ((P ++ b) ++ Y' ++ Q) /\ zlen Y' = zlen Y - zlen b.
Proof.
  intros -> Hb. exists (drop (length b) Y). unfold zlen in Hb.
  rewrite <-(take_drop (length b) Y) at 1. rewrite <-!app_assoc. split.
  - apply mstore_app; [done|]. rewrite length_take. lia.
  - unfold zlen. rewrite length_drop. lia.
Qed.

Lemma mstore_fill (P Y Q b : bytes) off :
  off = zlen P -> zlen b = zlen Y -> mstore (P ++ Y ++ Q) off b = Some (P ++ b ++ Q).
Proof. intros -> Hb. apply mstore_app; [done|]. unfold zlen in Hb. lia. Qed.

(** The elements lpInsert accepts: byte strings whose encoded length fits. *)
Definition ele_ok (s : bytes) : Prop := Forall is_byte s /\ zlen s <= LP_MAX_STR.

#[global] Instance ele_ok_dec s : Decision (ele_ok s).
Proof. unfold ele_ok. apply _. Defined.

Lemma lpEncodeString_spec (P Y Q s : bytes) :
  ele_ok s -> zlen (str_header (zlen s) ++ s) <= zlen Y ->
  exists Y', lpEncodeString (P ++ Y ++ Q) (zlen P) s = Some ((P ++ str_header (zlen s) ++ s) ++ Y' ++ Q) /\
    zlen Y' = zlen Y - zlen (str_header (zlen s) ++ s).
Proof.
  intros [_ Hl] HY. pose proof (zlen_nonneg s) as H0. unfold LP_MAX_STR in Hl. rewrite zlen_app in HY.
  assert (forall h k, zlen h = k -> h = str_header (zlen s) ->
    exists Y', (lp ← mstore (P ++ Y ++ Q) (zlen P) h; mstore lp (zlen P + k) s) =
      Some ((P ++ str_header (zlen s) ++ s) ++ Y' ++ Q) /\
      zlen Y' = zlen Y - zlen (str_header (zlen s) ++ s)) as Hstore.
  { intros h k Hk ->. destruct (mstore_room P Y Q (str_header (zlen s)) (zlen P)) as (Y1 & -> & H1); [done|lia|].
    cbn [mbind option_bind]. destruct (mstore_room (P ++ str_header (zlen s)) Y1 Q s (zlen P + k)) as (Y2 & -> & H2);
      [rewrite zlen_app; lia|lia|].
    exists Y2. rewrite <-!app_assoc, zlen_app. split; [done|lia]. }
  unfold lpEncodeString. unfold str_header in *.
  destruct (Z.ltb_spec (zlen s) 64); [|destruct (Z.ltb_spec (zlen s) 4096)]; apply Hstore.
  - done.
  - pose proof (lor_add (zlen s) 2 6 ltac:(lia) ltac:(lia)) as E. change (Z.shiftl 2 6) with 0x80 in E.
    rewrite E, uint_small by lia. f_equal. lia.
  - done.
  - rewrite land_255, Z.shiftr_div_pow2 by lia. change (2 ^ 8) with 256.
    assert (0 <= zlen s / 256 < 16) by lia_div.
    pose proof (lor_add (zlen s / 256) 14 4 ltac:(lia) ltac:(lia)) as E. change (Z.shiftl 14 4) with 0xE0 in E.
    rewrite E, uint_small by lia. f_equal. lia.
  - done.
  - f_equal. rewrite <-set4_le. f_equal.
Qed.

Lemma lp_encode_ok s : ele_ok s -> payload_ok (lp_encode s).
Proof.
  intros [Hb Hl]. unfold lp_encode. destruct (lpStringToInt64 s) as [v|] eqn:E.
  - rewrite lpStringToInt64_string2ll in E. by apply int_payload_spec, (print_string2ll s v).
  - by apply str_payload_spec.
Qed.

(** Storing the entry in the room made for it. *)
Lemma lpInsert_store_spec (P Y Q s : bytes) intenc enclen :
  ele_ok s -> zlen Y = zlen (entry (lp_encode s)) -> lpEncodeGetType s = (intenc, enclen) ->
  enclen = zlen (lp_encode s) /\
  lpInsert_store (P ++ Y ++ Q) (Some s) intenc (zlen P) enclen (lpEncodeBacklen enclen) =
    Some (P ++ entry (lp_encode s) ++ Q).
Proof.
  intros Hs HY Ht. rewrite zlen_entry in HY. pose proof (backlen_size (zlen (lp_encode s))) as Hbl.
  assert (enclen = zlen (lp_encode s) /\ exists Y', match intenc with
      | Some i => mstore (P ++ Y ++ Q) (zlen P) i | None => lpEncodeString (P ++ Y ++ Q) (zlen P) s end =
      Some ((P ++ lp_encode s) ++ Y' ++ Q) /\ zlen Y' = zlen Y - zlen (lp_encode s)) as (-> & Y' & Hst & HY').
  { unfold lp_encode in *. destruct (lpStringToInt64 s) as [v|] eqn:E.
    - assert (in_s 64 v) by (rewrite lpStringToInt64_string2ll in E; by apply (print_string2ll s v)).
      rewrite (lpEncodeGetType_int s v E) in Ht by done. injection Ht as <- <-. split; [done|].
      apply mstore_room; [done|lia].
    - revert Ht. unfold lpEncodeGetType. rewrite E. intros [= <- <-]. split; [|apply lpEncodeString_spec; [done|lia]].
      destruct Hs as [_ Hl]. unfold LP_MAX_STR in Hl. pose proof (zlen_nonneg s). unfold str_header.
      destruct (zlen s <? 64); [|destruct (zlen s <? 4096)]; rewrite zlen_app; [done|done|].
      rewrite uint_small by lia. by rewrite zlen_cons, zlen_le_encode. }
  split; [done|]. unfold lpInsert_store. rewrite Hst. cbn [mbind option_bind].
  rewrite mstore_fill by (rewrite ?zlen_app; lia). unfold entry. by rewrite <-!app_assoc.
Qed.

(** The count after an insertion ([delta] = 1) or a deletion ([delta] = -1). *)
Definition new_num (num delta : Z) : Z :=
  if num =? LP_HDR_NUMELE_UNKNOWN then num else num + delta.

Lemma lpInsert_header_spec (tot num new : Z) rest whr ele (n n' : nat) :
  num_ok num n ->
  Z.of_nat n' = Z.of_nat n + (if bool_decide (whr <> LP_REPLACE) || bool_decide (ele = None)
                              then (if ele is Some _ then 1 else -1) else 0) ->
  exists num', lpInsert_header (le_encode 4 tot ++ le_encode 2 num ++ rest) whr ele new =
    Some (le_encode 4 new ++ le_encode 2 num' ++ rest) /\ num_ok num' n'.
Proof.
  intros Hn Hn'. pose proof (num_ok_range _ _ Hn) as Hr. unfold lpInsert_header.
  assert (forall num', lpSetTotalBytes (le_encode 4 tot ++ le_encode 2 num' ++ rest) new =
            Some (le_encode 4 new ++ le_encode 2 num' ++ rest)) as Hset.
  { intros num'. unfold lpSetTotalBytes. rewrite set4_le.
    apply (mstore_app [] (le_encode 4 tot)); [done|by rewrite !length_le_encode]. }
  destruct (_ || _); [|exists num; cbn [mbind option_bind]; rewrite Hset; by replace n' with n by lia].
  assert (lpGetNumElements (le_encode 4 tot ++ le_encode 2 num ++ rest) = Some num) as ->.
  { unfold lpGetNumElements. rewrite lp_read_le by done. by rewrite uint_small by (simpl; lia). }
  cbn [mbind option_bind]. destruct (Z.eqb_spec num LP_HDR_NUMELE_UNKNOWN) as [E|E]; cbn [negb].
  { exists num. cbn [mbind option_bind]. rewrite Hset. split; [done|by left]. }
  destruct Hn as [?|[-> Hlt]]; [done|]. unfold LP_HDR_NUMELE_UNKNOWN in *.
  set (delta := match ele with Some _ => 1 | None => -1 end) in *.
  assert ((match ele with Some _ => Z.of_nat n + 1 | None => Z.of_nat n - 1 end) = Z.of_nat n') as ->
    by (unfold delta in *; destruct ele; lia).
  rewrite uint_small by (unfold delta in *; destruct ele; lia). unfold lpSetNumElements. rewrite set2_le.
  rewrite mstore_app by (done || by rewrite !length_le_encode). cbn [mbind option_bind].
  exists (Z.of_nat n'). rewrite Hset. split; [done|]. unfold num_ok, LP_HDR_NUMELE_UNKNOWN.
  unfold delta in *. destruct ele; lia.
Qed.

(** What a call does at an element: the entries [lx] there are replaced by [ln]. *)
Inductive insert_case : option bytes -> lp_where -> list bytes -> list bytes -> Prop :=
  | ic_before s : ele_ok s -> insert_case (Some s) LP_BEFORE [] [lp_encode s]
  | ic_replace s x : ele_ok s -> insert_case (Some s) LP_REPLACE [x] [lp_encode s]
  | ic_delete x : insert_case None LP_REPLACE [x] [].

Lemma lp_body_single e : lp_body [e] = entry e.
Proof. unfold lp_body. simpl. apply app_nil_r. Qed.

(** The bytes replaced, as lpInsert computes them from the block. *)
Lemma replaced_len_spec lp num l1 lx l2 ele whr ln :
  lp_repr lp num (l1 ++ lx ++ l2) -> insert_case ele whr lx ln ->
  (if bool_decide (whr = LP_REPLACE)
   then n ← lpCurrentEncodedSizeUnsafe lp (LP_HDR_SIZE + zlen (lp_body l1));
        let n := u32 (n + zlen (lpEncodeBacklen n)) in
        _ ← ASSERT_INTEGRITY_LEN lp (LP_HDR_SIZE + zlen (lp_body l1)) n; Some n
   else Some 0) = Some (zlen (lp_body lx)).
Proof.
  intros R Hc. assert (forall x, lx = [x] -> whr = LP_REPLACE ->
    (n ← lpCurrentEncodedSizeUnsafe lp (LP_HDR_SIZE + zlen (lp_body l1));
     let n := u32 (n + zlen (lpEncodeBacklen n)) in
     _ ← ASSERT_INTEGRITY_LEN lp (LP_HDR_SIZE + zlen (lp_body l1)) n; Some n) = Some (zlen (lp_body lx))) as Hx.
  { intros x -> ->. set (es := l1 ++ [x] ++ l2) in *.
    assert (es !! length l1 = Some x) as Hi by (unfold es; by rewrite lookup_app_r, Nat.sub_diag).
    assert (lp_off es (length l1) = LP_HDR_SIZE + zlen (lp_body l1)) as Ho
      by (unfold lp_off, es; by rewrite take_app_length).
    rewrite <-Ho, (repr_size R _ _ Hi). cbn [mbind option_bind]. rewrite <-zlen_entry.
    assert (length l1 < length es)%nat as Hlt by (by apply lookup_lt_Some in Hi).
    pose proof (lp_off_range (es := es) (S (length l1)) Hlt) as Hr. rewrite (lp_off_S _ _ _ Hi) in Hr.
    pose proof (lp_off_range (es := es) (length l1) ltac:(lia)). pose proof (zlen_nonneg (entry x)).
    pose proof (lr_total _ _ _ R). unfold LP_HDR_SIZE in *. rewrite uint_small by lia.
    unfold ASSERT_INTEGRITY_LEN. rewrite (repr_total R). cbn [mbind option_bind].
    rewrite Z.geb_leb. unfold LP_HDR_SIZE. lp_tests. cbn [mbind option_bind]. by rewrite lp_body_single. }
  destruct Hc as [s|s x|x]; [done|rewrite bool_decide_true by done; by apply (Hx x)..].
Qed.

(** The entry to insert: its encoding, its size. *)
Lemma encode_case ele whr lx ln :
  insert_case ele whr lx ln ->
  exists intenc enclen, match ele with Some e => lpEncodeGetType e | None => (None, 0) end = (intenc, enclen) /\
    enclen + zlen (match ele with Some _ => lpEncodeBacklen enclen | None => [] end) = zlen (lp_body ln) /\
    zlen (lp_body ln) < 2 ^ 33 /\ Forall payload_ok ln /\
    forall P Y Q, zlen Y = zlen (lp_body ln) ->
      lpInsert_store (P ++ Y ++ Q) ele intenc (zlen P) enclen
        (match ele with Some _ => lpEncodeBacklen enclen | None => [] end) = Some (P ++ lp_body ln ++ Q).
Proof.
  assert (forall s, ele_ok s -> exists intenc enclen, lpEncodeGetType s = (intenc, enclen) /\
    enclen + zlen (lpEncodeBacklen enclen) = zlen (lp_body [lp_encode s]) /\ zlen (lp_body [lp_encode s]) < 2 ^ 33 /\
    Forall payload_ok [lp_encode s] /\ forall P Y Q, zlen Y = zlen (lp_body [lp_encode s]) ->
      lpInsert_store (P ++ Y ++ Q) (Some s) intenc (zlen P) enclen (lpEncodeBacklen enclen) =
      Some (P ++ lp_body [lp_encode s] ++ Q)) as Hs.
  { intros s Hok. destruct (lpEncodeGetType s) as [intenc enclen] eqn:E. exists intenc, enclen.
    rewrite lp_body_single, zlen_entry.
    assert (enclen = zlen (lp_encode s)) as ->.
    { by apply (lpInsert_store_spec [] (entry (lp_encode s)) [] s intenc enclen). }
    pose proof (po_len _ (lp_encode_ok s Hok)). pose proof (backlen_size (zlen (lp_encode s))).
    split; [done|]. split; [done|]. split; [lia|]. split; [by apply Forall_singleton, lp_encode_ok|].
    intros P Y Q HY. apply lpInsert_store_spec; [done|by rewrite zlen_entry|done]. }
  intros [s Hok|s x Hok|x]; [by apply Hs..|].
  exists None, 0. split_and!; try done. intros P Y Q HY. change (zlen (lp_body [])) with 0 in HY.
  by rewrite (zlen_0_inv Y HY).
Qed.

(** After a deletion [*newp] is the element that follows, NULL at the end. *)
Lemma newp_spec (P Y B S' : bytes) num' l1 l2 :
  lp_repr (lp_layout num' (l1 ++ l2) S') num' (l1 ++ l2) -> zlen Y = 0 -> B = lp_body l2 ++ [LP_EOF] ->
  zlen P = LP_HDR_SIZE + zlen (lp_body l1) ->
  (b ← (P ++ Y ++ B ++ S').[zlen P]; Some (if b =? LP_EOF then None else Some (zlen P))) =
  Some (lp_ptr (l1 ++ l2) (length l1)).
Proof.
  intros R' HY -> HP. rewrite (zlen_0_inv Y HY). change ([] ++ ?x) with x.
  assert (lp_off (l1 ++ l2) (length l1) = zlen P) as Ho by (unfold lp_off; by rewrite take_app_length, HP).
  destruct (repr_first_byte R' (length l1)) as (b & Hb & Hf); [rewrite length_app; lia|].
  assert (exists c q, lp_body l2 ++ [LP_EOF] ++ S' = c :: q) as (c & q & Eq).
  { destruct (lp_body l2) as [|c q]; simpl; eauto. }
  rewrite <-app_assoc, Eq, mget_app by done. cbn [mbind option_bind].
  assert (c = b) as ->.
  { unfold lp_layout in Hb. rewrite lp_body_app, <-app_assoc in Hb.
    change (lp_body l2 ++ LP_EOF :: S') with (lp_body l2 ++ [LP_EOF] ++ S') in Hb. rewrite Eq, !app_assoc in Hb.
    rewrite mget_app in Hb; [by injection Hb|].
    rewrite Ho, HP, !zlen_app, !zlen_le_encode. unfold LP_HDR_SIZE. lia. }
  rewrite <-Ho. f_equal. apply ptr_of_byte; [done|rewrite length_app; lia].
Qed.

Lemma insert_core fresh lp num l1 lx l2 ele whr ln :
  lp_repr lp num (l1 ++ lx ++ l2) -> insert_case ele whr lx ln ->
  let es' := l1 ++ ln ++ l2 in
  let p := LP_HDR_SIZE + zlen (lp_body l1) in
  if bool_decide (lp_total es' < 2 ^ 32) then
    exists lp' num', lp_repr lp' num' es' /\
      lpInsert fresh lp ele p whr =
        Some (Some (lp', match ele with Some _ => Some p | None => lp_ptr es' (length l1) end))
  else lpInsert fresh lp ele p whr = Some None.
Proof.
  intros R Hc es' p. destruct (encode_case _ _ _ _ Hc) as (intenc & enclen & Henc & Hsz & Hmax & Hln & Hstore).
  pose proof (replaced_len_spec _ _ _ _ _ _ _ _ R Hc) as Hrep. fold p in Hrep. cbv zeta in Hrep.
  assert (whr <> LP_AFTER /\ match ele with None => LP_REPLACE | Some _ => whr end = whr) as [Hw Hw']
    by (by destruct Hc).
  unfold lpInsert. rewrite Hw', (bool_decide_false (whr = LP_AFTER)) by done. cbn [mbind option_bind].
  rewrite Henc, (repr_total R). cbn [mbind option_bind]. rewrite Hrep. cbn [mbind option_bind].
  set (backlen := match ele with Some _ => lpEncodeBacklen enclen | None => [] end) in *.
  pose proof (lr_total _ _ _ R) as Ht. pose proof (zlen_nonneg (lp_body l1)). pose proof (zlen_nonneg (lp_body l2)).
  pose proof (zlen_nonneg (lp_body lx)). pose proof (zlen_nonneg (lp_body ln)) as Hln0.
  assert (lp_total (l1 ++ lx ++ l2) + enclen + zlen backlen - zlen (lp_body lx) = lp_total es') as ->.
  { unfold lp_total, es'. rewrite !lp_body_app, !zlen_app. lia. }
  assert (0 <= lp_total es' < 2 ^ 64) as Hr.
  { unfold lp_total, es', LP_HDR_SIZE in *. rewrite !lp_body_app, !zlen_app in *. lia. }
  rewrite uint_small, Z.gtb_ltb by done. unfold UINT32_MAX.
  destruct (Z.ltb_spec (2 ^ 32 - 1) (lp_total es')) as [Hbig|Hfit];
    [by rewrite bool_decide_false by lia|rewrite bool_decide_true by lia].
  destruct (lr_layout _ _ _ R) as [slack Hlp].
  set (P := le_encode 4 (lp_total (l1 ++ lx ++ l2)) ++ le_encode 2 num ++ lp_body l1).
  set (B := lp_body l2 ++ [LP_EOF]).
  assert (lp = P ++ lp_body lx ++ B ++ slack) as ->.
  { rewrite Hlp. unfold lp_layout, P, B. rewrite !lp_body_app, <-!app_assoc. done. }
  assert (zlen P = p) as HP by (unfold P, p, LP_HDR_SIZE; rewrite !zlen_app, !zlen_le_encode; lia).
  destruct (lpInsert_move_spec fresh P (lp_body lx) B slack whr (zlen (lp_body ln))
    (lp_total (l1 ++ lx ++ l2)) (lp_total es')) as (Y & S' & Hmove & HY).
  { unfold B, lp_total, es'. rewrite !lp_body_app, !zlen_app, HP. unfold p. change (zlen [LP_EOF]) with 1. lia. }
  { unfold B, lp_total, es'. rewrite !lp_body_app, !zlen_app, HP. unfold p. change (zlen [LP_EOF]) with 1. lia. }
  { done. }
  { destruct Hc; auto. }
  rewrite Hsz, <-HP, Hmove. cbn [mbind option_bind].
  destruct (lpInsert_header_spec (lp_total (l1 ++ lx ++ l2)) num (lp_total es') (lp_body es' ++ LP_EOF :: S')
    whr ele (length (l1 ++ lx ++ l2)) (length es')) as (num' & Hhdr & Hnum); [apply R| |].
  { unfold es'. rewrite !length_app. destruct Hc; simpl; lia. }
  assert (lp_repr (lp_layout num' es' S') num' es') as R'.
  { split; [by exists S'| |lia|done]. pose proof (lr_payloads _ _ _ R) as Hp. unfold es'.
    rewrite !Forall_app in *. tauto. }
  exists (lp_layout num' es' S'), num'. split; [done|].
  assert (P ++ lp_body ln ++ B ++ S' =
    le_encode 4 (lp_total (l1 ++ lx ++ l2)) ++ le_encode 2 num ++ lp_body es' ++ LP_EOF :: S') as Hfin.
  { unfold P, B, es'. rewrite !lp_body_app, <-!app_assoc. done. }
  assert (match ele with Some _ => Some (Some (zlen P))
          | None => b ← (P ++ Y ++ B ++ S').[zlen P]; Some (if b =? LP_EOF then None else Some (zlen P)) end
    = Some (match ele with Some _ => Some (zlen P) | None => lp_ptr es' (length l1) end)) as ->.
  { destruct ele as [s|]; [done|]. assert (ln = []) as Eln by (by inversion Hc). subst ln.
    by apply (newp_spec P Y B S' num' l1 l2). }
  cbn [mbind option_bind]. rewrite Hstore by done. cbn [mbind option_bind].
  rewrite Hfin, Hhdr. cbn [mbind option_bind]. by rewrite HP.
Qed.

(** ** Theorems *)

(** The listpack holds the strings [ss]. *)
Definition lp_holds (lp : bytes) (ss : list bytes) : Prop :=
  Forall ele_ok ss /\ exists num, lp_repr lp num (lp_encode <$> ss).

(** The offset of an element, as a function of the strings. *)
Definition str_off (ss : list bytes) (i : nat) : Z := lp_off (lp_encode <$> ss) i.
Definition str_total (ss : list bytes) : Z := lp_total (lp_encode <$> ss).

(** The number of bytes of an element without its backward length: the
    shortest of the six integer encodings that holds it when it is the notation
    of an integer, otherwise a header of 1, 2 or 5 bytes and the string. *)
Definition element_size (s : bytes) : Z :=
  match string2ll s with
  | Some v =>
    if bool_decide (0 <= v < 2 ^ 7) then 1 else if bool_decide (in_s 13 v) then 2
    else if bool_decide (in_s 16 v) then 3 else if bool_decide (in_s 24 v) then 4
    else if bool_decide (in_s 32 v) then 5 else 9
  | None =>
    zlen s + (if bool_decide (zlen s < 2 ^ 6) then 1 else if bool_decide (zlen s < 2 ^ 12) then 2 else 5)
  end.

Lemma lp_encode_size s : zlen (lp_encode s) = element_size s.
Proof.
  unfold lp_encode, element_size. rewrite lpStringToInt64_string2ll. destruct (string2ll s) as [v|].
  - unfold int_payload.
    repeat (destruct (_ && _) eqn:E; [rewrite ?bool_decide_eq_true_2 by lia; rewrite ?zlen_cons, ?zlen_le_encode; done|
      rewrite bool_decide_eq_false_2 by lia; clear E || idtac]).
    rewrite zlen_cons, zlen_le_encode. done.
  - unfold str_header. rewrite zlen_app. case_ints.
    + rewrite bool_decide_eq_true_2 by lia. change (zlen [128 + zlen s]) with 1. lia.
    + rewrite bool_decide_eq_false_2, bool_decide_eq_true_2 by lia.
      change (zlen [224 + zlen s / 256; zlen s mod 256]) with 2. lia.
    + rewrite !bool_decide_eq_false_2 by lia. rewrite zlen_cons, zlen_le_encode. lia.
Qed.

(** Reading an element back from its encoding alone. *)
Lemma lp_encode_get s ib : ele_ok s ->
  exists v, lpGet (lp_encode s) 0 ib = Some v /\ value_bytes (lp_encode s) v = Some s /\
    (ib = false -> match string2ll s with Some n => v = LpInt n | None => exists p, v = LpStr p (zlen s) end).
Proof.
  intros [Hb Hl]. unfold lp_encode. rewrite lpStringToInt64_string2ll. destruct (string2ll s) as [n|] eqn:E.
  - destruct (print_string2ll s n E) as [Hp Hn]. destruct (int_payload_spec n Hn) as [_ Hg]. rewrite Hg.
    eexists. split; [done|]. split; [destruct ib; simpl; by rewrite Hp|]. by intros ->.
  - destruct (str_payload_spec s Hb Hl) as [_ Hg]. rewrite Hg.
    eexists. split; [done|]. split; [by apply mload_app'|]. eauto.
Qed.

(** C31: every element of up to 2^32 - 6 bytes survives being stored.  The
    length lpEncodeGetType announces is that of the shortest of the nine
    encodings, an integer one exactly when the string is the canonical notation
    of a 64-bit integer.  Stored the way lpInsert does in a room of that size
    anywhere in a block, the element leaves the rest of the block as it was;
    lpGet returns the string, or the integer when it is one, the encoded size
    is read from the first byte and the backward length from the last. *)
Theorem lp_element_roundtrip (P Y Q s : bytes) intenc enclen :
  ele_ok s -> lpEncodeGetType s = (intenc, enclen) -> zlen Y = enclen + zlen (lpEncodeBacklen enclen) ->
  enclen = element_size s /\ (is_Some intenc <-> is_Some (string2ll s)) /\
  exists lp v w, lpInsert_store (P ++ Y ++ Q) (Some s) intenc (zlen P) enclen (lpEncodeBacklen enclen) = Some lp /\
    (exists E, lp = P ++ E ++ Q /\ zlen E = zlen Y) /\
    lpGet lp (zlen P) true = Some v /\ value_bytes lp v = Some s /\
    lpGet lp (zlen P) false = Some w /\
    match string2ll s with Some n => w = LpInt n | None => exists p, w = LpStr p (zlen s) end /\
    lpCurrentEncodedSizeUnsafe lp (zlen P) = Some enclen /\
    lpDecodeBacklen lp (zlen P + zlen Y - 1) = Some enclen.
Proof.
  intros Hok Ht HY. pose proof (lp_encode_ok s Hok) as Hpay.
  destruct (lpInsert_store_spec [] (entry (lp_encode s)) [] s intenc enclen Hok eq_refl Ht) as [E _].
  rewrite <-lp_encode_size. split; [done|]. split.
  { revert Ht. unfold lpEncodeGetType. rewrite lpStringToInt64_string2ll.
    destruct (string2ll s); [|by intros [= <- <-]]. repeat destruct (_ && _); by intros [= <- <-]. }
  assert (zlen Y = zlen (entry (lp_encode s))) as HY' by (by rewrite zlen_entry, <-E).
  destruct (lpInsert_store_spec P Y Q s intenc enclen Hok HY' Ht) as [_ ->].
  destruct (lp_encode_get s true Hok) as (v & Hv & Hvb & _), (lp_encode_get s false Hok) as (w & Hw & _ & Hwv).
  eexists _, (shift_value (zlen P) v), (shift_value (zlen P) w). split; [done|]. split; [by eexists|].
  unfold entry. rewrite <-!app_assoc, <-E.
  destruct (get_embedded P (lp_encode s) (lpEncodeBacklen enclen ++ Q) true v Hv) as [-> Hb].
  destruct (get_embedded P (lp_encode s) (lpEncodeBacklen enclen ++ Q) false w Hw) as [-> _].
  split; [done|]. split; [by apply Hb|]. split; [done|]. split.
  { specialize (Hwv eq_refl). destruct (string2ll s); [by subst w|]. destruct Hwv as [p ->]. simpl. eauto. }
  split; [rewrite <-(Z.add_0_r (zlen P)), E; by apply size_local, po_size|].
  rewrite app_assoc. apply lpDecodeBacklen_spec; [pose proof (po_len _ Hpay); lia|rewrite zlen_app; lia].
Qed.

(** C32: the copy of string2ll in listpack.c computes the same function as
    string2ll of util.c, its extra branch included. *)
Theorem lpStringToInt64_equals_string2ll s : lpStringToInt64 s = string2ll s.
Proof. apply lpStringToInt64_string2ll. Qed.

(** the backward length of an element is read back from its last byte,
    whatever surrounds it, for every length an entry can have. *)
Theorem lpBacklen_roundtrip (a c : bytes) l :
  0 <= l < 2 ^ 35 ->
  lpDecodeBacklen (a ++ lpEncodeBacklen l ++ c) (zlen a + zlen (lpEncodeBacklen l) - 1) = Some l /\
  1 <= zlen (lpEncodeBacklen l) <= 5.
Proof. intros Hl. split; [by apply lpDecodeBacklen_spec|apply backlen_size]. Qed.

Lemma holds_new fresh capacity : exists lp, lpNew fresh capacity = Some lp /\ lp_holds lp [].
Proof.
  unfold lpNew. set (n := if capacity >? LP_HDR_SIZE + 1 then capacity else LP_HDR_SIZE + 1).
  assert (7 <= n) as Hn by (unfold n, LP_HDR_SIZE; rewrite Z.gtb_ltb; destruct (Z.ltb_spec (6 + 1) capacity); lia).
  destruct (zrealloc_grow fresh [] n) as (t & -> & Ht); [rewrite zlen_nil; lia|]. rewrite zlen_nil in Ht. simpl.
  assert (exists a b c d, t = a ++ b ++ [c] ++ d /\ zlen a = 4 /\ zlen b = 2) as (a & b & c & d & -> & Ha & Hb).
  { unfold zlen in Ht. destruct t as [|x0 [|x1 [|x2 [|x3 [|x4 [|x5 [|x6 d]]]]]]]; simpl in Ht; try lia.
    by exists [x0; x1; x2; x3], [x4; x5], x6, d. }
  unfold lpSetTotalBytes. rewrite set4_le.
  change (a ++ b ++ [c] ++ d) with ([] ++ a ++ b ++ [c] ++ d).
  rewrite (mstore_fill [] a) by (done || by rewrite zlen_le_encode). cbn [mbind option_bind]. rewrite app_nil_l.
  unfold lpSetNumElements. rewrite set2_le.
  rewrite (mstore_fill (le_encode 4 (LP_HDR_SIZE + 1)) b) by (done || by rewrite zlen_le_encode).
  cbn [mbind option_bind]. rewrite app_assoc.
  rewrite (mstore_fill _ [c] d) by (done || by rewrite zlen_app, !zlen_le_encode).
  eexists. split; [done|]. split; [done|]. exists 0.
  split; [exists d; by rewrite <-app_assoc|done|done|right; done].
Qed.

Lemma holds_get lp ss i s ib :
  lp_holds lp ss -> ss !! i = Some s ->
  exists v, lpGet lp (str_off ss i) ib = Some v /\ value_bytes lp v = Some s.
Proof.
  intros [Hok [num R]] Hi. assert ((lp_encode <$> ss) !! i = Some (lp_encode s)) as He by (by rewrite list_lookup_fmap, Hi).
  assert (ele_ok s) as Hs by (rewrite Forall_lookup in Hok; eauto).
  destruct (lp_encode_get s ib Hs) as (v & Hg & Hv & _).
  destruct (repr_lpGet R i _ ib v He Hg) as [Hget Hval]. eauto.
Qed.

(** C30: walking a listpack: lpFirst, lpNext, lpPrev and lpLast visit the
    elements in order, lpSeek goes to the element of any index (negative ones
    count from the end) and to NULL out of range, and lpGet reads there the
    string that was stored. *)
Theorem lp_traversal lp ss :
  lp_holds lp ss ->
  lpFirst lp = Some (if bool_decide (ss = []) then None else Some (str_off ss 0)) /\
  lpLast lp = Some (if bool_decide (ss = []) then None else Some (str_off ss (length ss - 1))) /\
  (forall i, (i < length ss)%nat ->
     lpNext lp (str_off ss i) = Some (if bool_decide (S i < length ss)%nat then Some (str_off ss (S i)) else None) /\
     lpPrev lp (str_off ss i) = Some (if bool_decide (i = 0)%nat then None else Some (str_off ss (i - 1)))) /\
  (forall index, let j := if index <? 0 then Z.of_nat (length ss) + index else index in
     lpSeek lp index =
       Some (if bool_decide (0 <= j < Z.of_nat (length ss)) then Some (str_off ss (Z.to_nat j)) else None)) /\
  (forall i s ib, ss !! i = Some s ->
     exists v, lpGet lp (str_off ss i) ib = Some v /\ value_bytes lp v = Some s).
Proof.
  intros Hh. pose proof Hh as [Hok [num R]]. assert (length (lp_encode <$> ss) = length ss) as El by apply length_fmap.
  unfold str_off. split_and!.
  - rewrite (repr_first R). unfold lp_ptr. rewrite El. destruct ss; [done|].
    rewrite bool_decide_true, bool_decide_false by (done || simpl; lia). done.
  - rewrite (repr_last R), El. by destruct ss.
  - intros i Hi. rewrite <-El in Hi. rewrite (repr_next R) by done. rewrite (repr_prev R) by lia.
    unfold lp_ptr. by rewrite El.
  - intros index. rewrite (repr_lpSeek R). unfold seek_ptr. by rewrite El.
  - intros i s ib Hi. by apply holds_get.
Qed.

(** The list after a call of lpInsert at the [i]-th element. *)
Definition list_insert (ss : list bytes) (i : nat) (ele : option bytes) (whr : lp_where) : list bytes :=
  match ele, whr with
  | None, _ => take i ss ++ drop (S i) ss
  | Some s, LP_BEFORE => take i ss ++ s :: drop i ss
  | Some s, LP_AFTER => take (S i) ss ++ s :: drop (S i) ss
  | Some s, LP_REPLACE => take i ss ++ s :: drop (S i) ss
  end.

(** The positions lpInsert may be called at: elements, and the terminator for
    an insertion before it. *)
Definition insert_pos_ok (ss : list bytes) (i : nat) (ele : option bytes) (whr : lp_where) : Prop :=
  match ele, whr with
  | Some _, LP_BEFORE => (i <= length ss)%nat
  | _, _ => (i < length ss)%nat
  end.

(** [*newp]. *)
Definition insert_newp (ss : list bytes) (i : nat) (ele : option bytes) (whr : lp_where) : option Z :=
  let ss' := list_insert ss i ele whr in
  match ele, whr with
  | Some _, LP_AFTER => Some (str_off ss' (S i))
  | Some _, _ => Some (str_off ss' i)
  | None, _ => if bool_decide (i < length ss')%nat then Some (str_off ss' i) else None
  end.

(** What a call must do. *)
Definition insert_spec (fresh : nat -> Z) (lp : bytes) (ss : list bytes) (i : nat) (ele : option bytes)
    (whr : lp_where) : Prop :=
  let ss' := list_insert ss i ele whr in
  if bool_decide (str_total ss' < 2 ^ 32) then
    exists lp', lpInsert fresh lp ele (str_off ss i) whr = Some (Some (lp', insert_newp ss i ele whr)) /\ lp_holds lp' ss'
  else lpInsert fresh lp ele (str_off ss i) whr = Some None.

Lemma str_off_take ss i : str_off ss i = LP_HDR_SIZE + zlen (lp_body (lp_encode <$> take i ss)).
Proof. unfold str_off, lp_off. by rewrite fmap_take. Qed.

Lemma insert_at fresh lp l1 (lx : list bytes) l2 ele whr (ln : list bytes) :
  lp_holds lp (l1 ++ lx ++ l2) -> insert_case ele whr (lp_encode <$> lx) (lp_encode <$> ln) -> Forall ele_ok ln ->
  let p := LP_HDR_SIZE + zlen (lp_body (lp_encode <$> l1)) in
  if bool_decide (str_total (l1 ++ ln ++ l2) < 2 ^ 32) then
    exists lp', lpInsert fresh lp ele p whr =
      Some (Some (lp', match ele with Some _ => Some p | None =>
        if bool_decide (length l1 < length (l1 ++ ln ++ l2))%nat then Some (str_off (l1 ++ ln ++ l2) (length l1)) else None
        end)) /\ lp_holds lp' (l1 ++ ln ++ l2)
  else lpInsert fresh lp ele p whr = Some None.
Proof.
  intros [Hok [num R]] Hc Hln p. rewrite !fmap_app in R.
  pose proof (insert_core fresh lp num _ _ _ ele whr _ R Hc) as Hi. cbv zeta in Hi. fold p in Hi.
  unfold str_total. rewrite !fmap_app. case_bool_decide; [|done].
  destruct Hi as (lp' & num' & R' & ->). exists lp'. split.
  - unfold lp_ptr, str_off. rewrite <-!fmap_app, !length_fmap. done.
  - split; [rewrite !Forall_app in *; tauto|]. exists num'. by rewrite !fmap_app.
Qed.

Lemma insert_before fresh lp ss i s :
  lp_holds lp ss -> (i <= length ss)%nat -> ele_ok s -> insert_spec fresh lp ss i (Some s) LP_BEFORE.
Proof.
  intros Hh Hi Hs. unfold insert_spec, insert_newp. simpl.
  pose proof (insert_at fresh lp (take i ss) [] (drop i ss) (Some s) LP_BEFORE [s]) as H. simpl in H.
  rewrite take_drop in H. specialize (H Hh (ic_before s Hs) ltac:(by apply Forall_singleton)).
  rewrite <-str_off_take in H. case_bool_decide; [|done]. destruct H as (lp' & -> & Hh'). exists lp'.
  split; [|done]. do 4 f_equal. rewrite !str_off_take.
  by rewrite take_app_le, take_take, Nat.min_id by (rewrite length_take; lia).
Qed.

Lemma insert_after fresh lp ss i s :
  lp_holds lp ss -> (i < length ss)%nat -> ele_ok s -> insert_spec fresh lp ss i (Some s) LP_AFTER.
Proof.
  intros Hh Hi Hs. pose proof Hh as [Hok [num R]]. destruct (lookup_lt_is_Some_2 ss i Hi) as [x Hx].
  assert (lpInsert fresh lp (Some s) (str_off ss i) LP_AFTER = lpInsert fresh lp (Some s) (str_off ss (S i)) LP_BEFORE) as E.
  { unfold lpInsert at 1. rewrite bool_decide_true by done. unfold str_off at 1.
    rewrite (repr_skip R i (lp_encode x)) by (by rewrite list_lookup_fmap, Hx). cbn [mbind option_bind].
    rewrite (repr_assert R) by (rewrite length_fmap; lia). done. }
  unfold insert_spec. rewrite E. exact (insert_before fresh lp ss (S i) s Hh Hi Hs).
Qed.

Lemma insert_replace fresh lp ss i ele :
  lp_holds lp ss -> (i < length ss)%nat -> (forall s, ele = Some s -> ele_ok s) ->
  insert_spec fresh lp ss i ele LP_REPLACE.
Proof.
  intros Hh Hi Hs. destruct (lookup_lt_is_Some_2 ss i Hi) as [x Hx]. pose proof (take_drop_middle ss i x Hx) as Ess.
  assert (length (take i ss) = i) as Hl by (rewrite length_take; lia).
  set (ln := match ele with Some s => [s] | None => [] end).
  assert (insert_case ele LP_REPLACE (lp_encode <$> [x]) (lp_encode <$> ln)) as Hc.
  { destruct ele; constructor. by apply Hs. }
  pose proof (insert_at fresh lp (take i ss) [x] (drop (S i) ss) ele LP_REPLACE ln) as H. cbv zeta in H.
  change ([x] ++ drop (S i) ss) with (x :: drop (S i) ss) in H. rewrite Ess in H.
  specialize (H Hh Hc ltac:(destruct ele; simpl; [apply Forall_singleton; by apply Hs|done])).
  rewrite <-str_off_take in H. unfold insert_spec, insert_newp.
  assert (list_insert ss i ele LP_REPLACE = take i ss ++ ln ++ drop (S i) ss) as -> by (by destruct ele).
  case_bool_decide; [|done]. destruct H as (lp' & -> & Hh'). exists lp'. split; [|done]. rewrite Hl. do 3 f_equal.
  destruct ele; [|done]. f_equal. rewrite !str_off_take.
  by rewrite take_app_le, take_take, Nat.min_id by lia.
Qed.

Lemma insert_all fresh lp ss i ele whr :
  lp_holds lp ss -> insert_pos_ok ss i ele whr -> (forall s, ele = Some s -> ele_ok s) ->
  insert_spec fresh lp ss i ele whr.
Proof.
  intros Hh Hi Hs. destruct ele as [s|]; [|by apply (insert_replace fresh lp ss i None)].
  destruct whr; [apply insert_before|apply insert_after|apply insert_replace]; auto.
Qed.

(** C29: lpInsert of an element of at most 2^32 - 6 bytes (the five larger sizes
    are [lpEncodeGetType_truncates]), for every position and mode (before,
    after, replace, and deletion when no element is given): the result is NULL
    exactly when the new listpack would not fit 32 bits, otherwise it holds the
    list with the element inserted, replaced or removed, and [*newp] points to
    the new element, or to the element after the deleted one (NULL at the end).
    This holds whatever the allocator leaves in the memory it adds. *)
Theorem lpInsert_correct fresh lp ss i ele whr :
  lp_holds lp ss -> insert_pos_ok ss i ele whr -> (forall s, ele = Some s -> ele_ok s) ->
  let ss' := list_insert ss i ele whr in
  if bool_decide (str_total ss' < 2 ^ 32) then
    exists lp', lpInsert fresh lp ele (str_off ss i) whr = Some (Some (lp', insert_newp ss i ele whr)) /\ lp_holds lp' ss'
  else lpInsert fresh lp ele (str_off ss i) whr = Some None.
Proof. apply insert_all. Qed.

(** *** Refinement: sequences of operations behave as on a list of strings *)

Inductive lp_op :=
  | OAppend (s : bytes)
  | OInsert (index : Z) (s : bytes) (whr : lp_where)
  | ODelete (index : Z)
  | OGet (index : Z)
  | OLength
  | OShrink.

Inductive lp_result :=
  | RDone                      (** the listpack was changed *)
  | RTooBig                    (** NULL: the listpack would not fit *)
  | RNoElement                 (** lpSeek returned NULL *)
  | RString (s : bytes)
  | RCount (n : Z).

(** The callers of lpInsert and lpDelete: the old listpack is kept on NULL. *)
Definition keep_on_null (lp : bytes) (r : option (bytes * option Z)) : bytes * lp_result :=
  match r with Some (lp', _) => (lp', RDone) | None => (lp, RTooBig) end.

Definition lp_step (fresh : nat -> Z) (o : lp_op) (lp : bytes) : option (bytes * lp_result) :=
  match o with
  | OAppend s => keep_on_null lp <$> lpAppend fresh lp s
  | OInsert index s whr =>
    p ← lpSeek lp index;
    match p with Some p => keep_on_null lp <$> lpInsert fresh lp (Some s) p whr | None => Some (lp, RNoElement) end
  | ODelete index =>
    p ← lpSeek lp index;
    match p with Some p => keep_on_null lp <$> lpDelete fresh lp p | None => Some (lp, RNoElement) end
  | OGet index =>
    p ← lpSeek lp index;
    match p with
    | Some p => v ← lpGet lp p true; s ← value_bytes lp v; Some (lp, RString s)
    | None => Some (lp, RNoElement)
    end
  | OLength => '(lp, n) ← lpLength lp; Some (lp, RCount n)
  | OShrink => lp ← lpShrinkToFit fresh lp; Some (lp, RDone)
  end.

(** The same on the list: [change] is refused when it does not fit. *)
Definition list_change (ss ss' : list bytes) : list bytes * lp_result :=
  if bool_decide (str_total ss' < 2 ^ 32) then (ss', RDone) else (ss, RTooBig).

Definition list_index (ss : list bytes) (index : Z) : option nat :=
  let j := if index <? 0 then Z.of_nat (length ss) + index else index in
  if bool_decide (0 <= j < Z.of_nat (length ss)) then Some (Z.to_nat j) else None.

Definition list_step (o : lp_op) (ss : list bytes) : list bytes * lp_result :=
  match o with
  | OAppend s => list_change ss (ss ++ [s])
  | OInsert index s whr =>
    match list_index ss index with
    | Some i => list_change ss (list_insert ss i (Some s) whr)
    | None => (ss, RNoElement)
    end
  | ODelete index =>
    match list_index ss index with
    | Some i => list_change ss (list_insert ss i None LP_REPLACE)
    | None => (ss, RNoElement)
    end
  | OGet index =>
    (ss, match list_index ss index ≫= (fun i => ss !! i) with Some s => RString s | None => RNoElement end)
  | OLength => (ss, RCount (Z.of_nat (length ss)))
  | OShrink => (ss, RDone)
  end.

Definition lp_op_ok (o : lp_op) : Prop :=
  match o with OAppend s | OInsert _ s _ => ele_ok s | _ => True end.

#[global] Instance lp_op_ok_dec o : Decision (lp_op_ok o).
Proof. destruct o; simpl; apply _. Defined.

Lemma holds_seek lp ss index :
  lp_holds lp ss -> lpSeek lp index = Some (str_off ss <$> list_index ss index).
Proof.
  intros [_ [num R]]. rewrite (repr_lpSeek R). unfold seek_ptr, list_index. rewrite length_fmap. f_equal.
  by case_bool_decide.
Qed.

Lemma list_index_lt ss index i : list_index ss index = Some i -> (i < length ss)%nat.
Proof. unfold list_index. case_bool_decide; intros [= <-]. lia. Qed.

(** A call of lpInsert and the change of the list agree. *)
Lemma insert_step fresh lp ss i ele whr :
  lp_holds lp ss -> insert_pos_ok ss i ele whr -> (forall s, ele = Some s -> ele_ok s) ->
  exists lp' r, keep_on_null lp <$> lpInsert fresh lp ele (str_off ss i) whr = Some (lp', r) /\
    exists ss', list_change ss (list_insert ss i ele whr) = (ss', r) /\ lp_holds lp' ss'.
Proof.
  intros Hh Hi Hs. pose proof (insert_all fresh lp ss i ele whr Hh Hi Hs) as H. unfold insert_spec in H.
  unfold list_change. case_bool_decide.
  - destruct H as (lp' & -> & Hh'). simpl. eauto 10.
  - rewrite H. simpl. eauto 10.
Qed.

Lemma lp_step_refines fresh o lp ss :
  lp_holds lp ss -> lp_op_ok o ->
  exists lp' r, lp_step fresh o lp = Some (lp', r) /\
    exists ss', list_step o ss = (ss', r) /\ lp_holds lp' ss'.
Proof.
  intros Hh Ho. destruct o as [s|index s whr|index|index| |]; cbn [lp_step list_step].
  - destruct (insert_step fresh lp ss (length ss) (Some s) LP_BEFORE Hh) as (lp' & r & E & ss' & E' & Hh');
      [simpl; lia|by intros ? [= <-]|].
    exists lp', r. split; [|exists ss'; simpl in E'; rewrite firstn_all, drop_all in E'; done].
    rewrite <-E. f_equal. unfold lpAppend. destruct Hh as [_ [num R]]. rewrite (repr_total R). cbn [mbind option_bind].
    f_equal. unfold str_off. rewrite <-(length_fmap lp_encode ss). by rewrite lp_off_all.
  - rewrite (holds_seek lp ss index Hh). cbn [mbind option_bind].
    destruct (list_index ss index) as [i|] eqn:Ei; simpl; [|eauto 10].
    apply insert_step; [done| |by intros ? [= <-]]. apply list_index_lt in Ei. destruct whr; simpl; lia.
  - rewrite (holds_seek lp ss index Hh). cbn [mbind option_bind].
    destruct (list_index ss index) as [i|] eqn:Ei; simpl; [|eauto 10].
    apply (insert_step fresh lp ss i None LP_REPLACE); [done| |done]. by apply list_index_lt in Ei.
  - rewrite (holds_seek lp ss index Hh). cbn [mbind option_bind].
    destruct (list_index ss index) as [i|] eqn:Ei; simpl; [|eauto 10].
    destruct (lookup_lt_is_Some_2 ss i) as [s Hs]; [by apply list_index_lt in Ei|]. rewrite Hs.
    destruct (holds_get lp ss i s true Hh Hs) as (v & -> & Hv). cbn [mbind option_bind]. rewrite Hv. simpl. eauto 10.
  - destruct Hh as [Hok [num R]]. destruct (repr_lpLength R) as (lp' & num' & -> & R' & _). simpl.
    rewrite length_fmap. eexists _, _. split; [done|]. eexists. split; [done|]. split; eauto.
  - destruct Hh as [Hok [num R]]. unfold lpShrinkToFit. rewrite (repr_total R). simpl.
    eexists _, _. split; [done|]. exists ss. split; [done|]. split; [done|]. exists num.
    destruct (lr_layout _ _ _ R) as [slack ->]. split; [|apply R..].
    destruct (Z.ltb_spec (lp_total (lp_encode <$> ss)) (zlen (lp_layout num (lp_encode <$> ss) slack)));
      [exists []|by exists slack].
    replace (lp_layout num (lp_encode <$> ss) slack) with (lp_layout num (lp_encode <$> ss) [] ++ slack)
      by (unfold lp_layout; rewrite <-!app_assoc; done).
    apply zrealloc_shrink. unfold lp_layout, lp_total, LP_HDR_SIZE. rewrite !zlen_app, !zlen_le_encode.
    change (zlen [LP_EOF]) with 1. lia.
Qed.

Fixpoint lp_run (fresh : nat -> Z) (ops : list lp_op) (lp : bytes) : option (bytes * list lp_result) :=
  match ops with
  | [] => Some (lp, [])
  | o :: ops => '(lp, r) ← lp_step fresh o lp; '(lp, rs) ← lp_run fresh ops lp; Some (lp, r :: rs)
  end.

Fixpoint list_run (ops : list lp_op) (ss : list bytes) : list bytes * list lp_result :=
  match ops with
  | [] => (ss, [])
  | o :: ops => let '(ss, r) := list_step o ss in let '(ss, rs) := list_run ops ss in (ss, r :: rs)
  end.

(** C6: refinement of the listpack to a list of strings: any sequence of
    appends, insertions before, after or over the element of an index,
    deletions, reads, counts and shrinkings on a new listpack succeeds without
    an access outside the block or a failed assertion, returns what the same
    operations return on a list of strings, and leaves a well-formed listpack
    that holds that list. *)
Theorem lp_refines_list fresh capacity ops :
  Forall lp_op_ok ops ->
  exists lp0 lp rs, lpNew fresh capacity = Some lp0 /\ lp_run fresh ops lp0 = Some (lp, rs) /\
    exists ss, list_run ops [] = (ss, rs) /\ lp_holds lp ss.
Proof.
  intros Ho. destruct (holds_new fresh capacity) as (lp0 & E0 & H0).
  assert (forall ss lp, lp_holds lp ss -> exists lp' rs, lp_run fresh ops lp = Some (lp', rs) /\
    exists ss', list_run ops ss = (ss', rs) /\ lp_holds lp' ss') as Hrun.
  { clear E0 H0. induction Ho as [|o ops Ho Hos IH]; intros ss lp Hh; cbn [lp_run list_run]; [eauto 10|].
    destruct (lp_step_refines fresh o lp ss Hh Ho) as (lp1 & r & -> & ss1 & -> & Hh1). cbn [mbind option_bind].
    destruct (IH ss1 lp1 Hh1) as (lp2 & rs & -> & ss2 & -> & Hh2). simpl. eauto 10. }
  destruct (Hrun [] lp0 H0) as (lp & rs & Er & ss & Es & Hh). eauto 10.
Qed.

(** C40: the integrity check on a well-formed listpack that fills its block.
    The shallow check accepts it.  The deep check counts the terminator as an
    element, so that it accepts only the empty listpack and listpacks whose
    header does not know the count: every other valid listpack is refused. *)
Theorem lpValidateIntegrity_miscounts lp num es :
  lp_repr lp num es -> zlen lp = lp_total es ->
  lpValidateIntegrity lp (zlen lp) false = Some true /\
  lpValidateIntegrity lp (zlen lp) true = Some (bool_decide (num = LP_HDR_NUMELE_UNKNOWN \/ es = [])).
Proof. intros R Hz. by rewrite !(repr_validate_header R) by done. Qed.

(** the encoded length of a string is computed in 32 bits: for the five
    largest sizes a uint32_t can hold it wraps, and lpInsert then reserves less
    than the string it copies instead of returning NULL. *)
Theorem lpEncodeGetType_truncates s :
  2 ^ 32 - 5 <= zlen s < 2 ^ 32 -> string2ll s = None ->
  lpEncodeGetType s = (None, zlen s + 5 - 2 ^ 32) /\ snd (lpEncodeGetType s) < zlen s.
Proof.
  intros Hl Hs. unfold lpEncodeGetType. rewrite lpStringToInt64_string2ll, Hs.
  rewrite !(proj2 (Z.ltb_ge _ _)) by lia.
  assert (u32 (5 + zlen s) = zlen s + 5 - 2 ^ 32) as E.
  { unfold uint. replace (5 + zlen s) with (zlen s + 5 - 2 ^ 32 + 1 * 2 ^ 32) by lia.
    rewrite Z.mod_add, Z.mod_small by lia. done. }
  rewrite E. split; [done|]. cbn [snd]. lia.
Qed.

(** ** Witnesses *)

Definition sample_fresh (n : nat) : Z := 170.

Definition sample_lp_ops : list lp_op :=
  [OAppend (str "hello"); OAppend (str "-70000"); OInsert 0 (str "12") LP_AFTER; OGet 1; ODelete (-1);
   OInsert (-1) (str "world") LP_REPLACE; OLength; OGet (-1); OGet 5; OShrink].

Lemma sample_lp_ops_ok : Forall lp_op_ok sample_lp_ops.
Proof. refine (bool_decide_eq_true_1 _ _). vm_compute. reflexivity. Qed.

Lemma lp_refines_list_witness :
  exists lp0 lp rs, lpNew sample_fresh 0 = Some lp0 /\ lp_run sample_fresh sample_lp_ops lp0 = Some (lp, rs) /\
    lp_holds lp [str "hello"; str "world"] /\ rs !! 7%nat = Some (RString (str "world")).
Proof.
  destruct (lp_refines_list sample_fresh 0 sample_lp_ops sample_lp_ops_ok) as (lp0 & lp & rs & E0 & E & ss & Es & Hh).
  vm_compute in Es. injection Es as <- <-. exists lp0, lp. eexists. split; [exact E0|]. split; [exact E|].
  split; [exact Hh|reflexivity].
Defined.

Lemma hello_ok : ele_ok (str "hello").
Proof. refine (bool_decide_eq_true_1 _ _). vm_compute. reflexivity. Qed.

(** One element for each of the nine encodings. *)
Definition sample_elements : list bytes :=
  [str "5"; str "-5"; str "30000"; str "-70000"; str "2000000000"; str "-9000000000"; str "hello";
   replicate 100 97; replicate 5000 97].

Lemma lp_element_roundtrip_witness :
  element_size <$> sample_elements = [1; 2; 3; 4; 5; 9; 6; 102; 5005] /\
  Forall (fun s => exists intenc enclen lp v, lpEncodeGetType s = (intenc, enclen) /\
    lpInsert_store (7 :: replicate (Z.to_nat (enclen + zlen (lpEncodeBacklen enclen))) 0 ++ [255]) (Some s) intenc 1 enclen
      (lpEncodeBacklen enclen) = Some lp /\ lpGet lp 1 true = Some v /\ value_bytes lp v = Some s) sample_elements.
Proof.
  split; [vm_compute; reflexivity|].
  assert (Forall ele_ok sample_elements) as Hok by (refine (bool_decide_eq_true_1 _ _); vm_compute; reflexivity).
  refine (Forall_impl _ _ _ Hok _). intros s Hs. destruct (lpEncodeGetType s) as [intenc enclen] eqn:Et.
  exists intenc, enclen. set (Y := replicate _ 0).
  destruct (lp_element_roundtrip [7] Y [255] s intenc enclen Hs Et) as (Hn & _ & lp & v & w & E & _ & Hg & Hv & _).
  - unfold Y, zlen at 1. rewrite length_replicate. pose proof (zlen_nonneg (lpEncodeBacklen enclen)).
    destruct (lpInsert_store_spec [] (entry (lp_encode s)) [] s intenc enclen Hs eq_refl Et) as [-> _].
    pose proof (zlen_nonneg (lp_encode s)). lia.
  - exists lp, v. split; [reflexivity|]. split; [exact E|]. split; [exact Hg|exact Hv].
Defined.

Lemma lpBacklen_roundtrip_witness :
  lpDecodeBacklen ([1; 2] ++ lpEncodeBacklen 300 ++ [255]) 3 = Some 300.
Proof. apply (lpBacklen_roundtrip [1; 2] [255] 300). lia. Defined.

(** A listpack of two elements, and what it holds. *)
Definition sample_lp : bytes := lp_layout 2 [lp_encode (str "hello"); lp_encode (str "-70000")] [].

Lemma sample_lp_repr : lp_repr sample_lp 2 [lp_encode (str "hello"); lp_encode (str "-70000")].
Proof.
  split; [by exists []| |vm_compute; reflexivity|right; split; [reflexivity|vm_compute; reflexivity]].
  rewrite !Forall_cons, Forall_nil. split_and!; [| |done];
    apply lp_encode_ok; refine (bool_decide_eq_true_1 _ _); vm_compute; reflexivity.
Qed.

Lemma sample_lp_holds : lp_holds sample_lp [str "hello"; str "-70000"].
Proof.
  split; [refine (bool_decide_eq_true_1 _ _); vm_compute; reflexivity|]. exists 2. exact sample_lp_repr.
Qed.

Lemma lp_traversal_witness :
  lpSeek sample_lp (-1) = Some (Some 13) /\ lpNext sample_lp 6 = Some (Some 13) /\
  exists v, lpGet sample_lp 13 true = Some v /\ value_bytes sample_lp v = Some (str "-70000").
Proof.
  destruct (lp_traversal sample_lp [str "hello"; str "-70000"] sample_lp_holds) as (_ & _ & Hstep & Hseek & Hget).
  split; [exact (Hseek (-1))|]. split; [exact (proj1 (Hstep 0%nat ltac:(simpl; lia)))|].
  exact (Hget 1%nat (str "-70000") true eq_refl).
Defined.

Lemma lpInsert_correct_witness :
  exists lp', lpInsert sample_fresh sample_lp (Some (str "hello")) 13 LP_BEFORE = Some (Some (lp', Some 13)) /\
    lp_holds lp' [str "hello"; str "hello"; str "-70000"].
Proof.
  exact (lpInsert_correct sample_fresh sample_lp [str "hello"; str "-70000"] 1 (Some (str "hello")) LP_BEFORE
    sample_lp_holds ltac:(simpl; lia) ltac:(intros s E; injection E as <-; exact hello_ok)).
Defined.

Lemma lpValidateIntegrity_miscounts_witness :
  lpValidateIntegrity sample_lp 19 false = Some true /\ lpValidateIntegrity sample_lp 19 true = Some false.
Proof. exact (lpValidateIntegrity_miscounts sample_lp 2 _ sample_lp_repr eq_refl). Defined.

Lemma string2ll_letters n : string2ll (replicate (S n) 65) = None.
Proof. simpl. destruct (_ && _) eqn:E; [|done]. by rewrite andb_false_r in E. Qed.

Lemma lpEncodeGetType_truncates_witness :
  exists s, zlen s = 2 ^ 32 - 5 /\ lpEncodeGetType s = (None, 0).
Proof.
  exists (replicate (S (Z.to_nat (2 ^ 32 - 6))) 65).
  assert (zlen (replicate (S (Z.to_nat (2 ^ 32 - 6))) 65) = 2 ^ 32 - 5) as Hl.
  { unfold zlen. rewrite length_replicate. lia. }
  split; [exact Hl|].
  destruct (lpEncodeGetType_truncates (replicate (S (Z.to_nat (2 ^ 32 - 6))) 65)) as [E _].
  - rewrite Hl. lia.
  - apply string2ll_letters.
  - rewrite Hl in E. exact E.
Defined.
