(* ===== verification/Sds.v ===== *)
(** * sds.c and sds.h: dynamic strings

    An sds is a header (type and, for type 5, the length in the flags byte; the
    two fields of 8 to 64 bits [len] and [alloc] otherwise) and the memory from the
    string on.  [usable n] is the usable size of an allocation of [n] bytes and
    [fresh] the content of new memory; [None] is a failed assertion or an
    access outside of the allocation.  [sds_rep s c]: the header and the memory
    of [s] represent the byte string [c].

    The functions that build new strings (splitting, joining, the quoted
    representation and its parser) are given on the contents of their
    arguments; a C string is the list of the bytes before its terminator. *)

From S2P Require Import Prelude Util.

Definition SDS_MAX_PREALLOC : Z := 1024 * 1024.
Definition SDS_TYPE_5 : Z := 0.
Definition SDS_TYPE_8 : Z := 1.
Definition SDS_TYPE_16 : Z := 2.
Definition SDS_TYPE_32 : Z := 3.
Definition SDS_TYPE_64 : Z := 4.
Definition SDS_TYPE_MASK : Z := 7.
Definition SDS_TYPE_BITS : Z := 3.

(** The flags byte, the two fields of sdshdr8 ... sdshdr64 and the memory
    from [buf] to the end of the allocation. *)
Record sds := mk_sds { flags : Z; len : Z; alloc : Z; buf : bytes }.

Definition sdsHdrSize (type : Z) : Z :=
  let t := Z.land type SDS_TYPE_MASK in
  if t =? SDS_TYPE_5 then 1 else if t =? SDS_TYPE_8 then 3 else if t =? SDS_TYPE_16 then 5
  else if t =? SDS_TYPE_32 then 9 else if t =? SDS_TYPE_64 then 17 else 0.

Definition sdsReqType (string_size : Z) : Z :=
  if string_size <? Z.shiftl 1 5 then SDS_TYPE_5
  else if string_size <? Z.shiftl 1 8 then SDS_TYPE_8
  else if string_size <? Z.shiftl 1 16 then SDS_TYPE_16
  else if string_size <? Z.shiftl 1 32 then SDS_TYPE_32
  else SDS_TYPE_64.

Definition sdsTypeMaxSize (type : Z) : Z :=
  if type =? SDS_TYPE_5 then Z.shiftl 1 5 - 1
  else if type =? SDS_TYPE_8 then Z.shiftl 1 8 - 1
  else if type =? SDS_TYPE_16 then Z.shiftl 1 16 - 1
  else if type =? SDS_TYPE_32 then Z.shiftl 1 32 - 1
  else u64 (-1).

(** The width of the fields of a header. *)
Definition hdr_width (type : Z) : Z :=
  if type =? SDS_TYPE_8 then 8 else if type =? SDS_TYPE_16 then 16 else if type =? SDS_TYPE_32 then 32 else 64.

(** [s[-1]&SDS_TYPE_MASK] *)
Definition sdstype (s : sds) : Z := Z.land (flags s) SDS_TYPE_MASK.

Definition SDS_TYPE_5_LEN (f : Z) : Z := Z.shiftr f SDS_TYPE_BITS.

(** ** The inline functions of sds.h *)

Definition sdslen (s : sds) : Z :=
  if sdstype s =? SDS_TYPE_5 then SDS_TYPE_5_LEN (flags s) else if sdstype s <=? SDS_TYPE_64 then len s else 0.

(** The subtraction is done in int for the small headers, in the width of the
    fields for the large ones. *)
Definition sdsavail (s : sds) : Z :=
  if sdstype s =? SDS_TYPE_5 then 0
  else if sdstype s =? SDS_TYPE_32 then u32 (alloc s - len s)
  else if sdstype s <=? SDS_TYPE_64 then u64 (alloc s - len s) else 0.

Definition sdssetlen (s : sds) (newlen : Z) : sds :=
  if sdstype s =? SDS_TYPE_5 then mk_sds (u8 (Z.lor SDS_TYPE_5 (Z.shiftl newlen SDS_TYPE_BITS))) (len s) (alloc s) (buf s)
  else if sdstype s <=? SDS_TYPE_64 then mk_sds (flags s) (uint (hdr_width (sdstype s)) newlen) (alloc s) (buf s) else s.

Definition sdsinclen (s : sds) (inc : Z) : sds :=
  if sdstype s =? SDS_TYPE_5 then
    let newlen := u8 (SDS_TYPE_5_LEN (flags s) + inc) in
    mk_sds (u8 (Z.lor SDS_TYPE_5 (Z.shiftl newlen SDS_TYPE_BITS))) (len s) (alloc s) (buf s)
  else if sdstype s <=? SDS_TYPE_64 then mk_sds (flags s) (uint (hdr_width (sdstype s)) (len s + inc)) (alloc s) (buf s) else s.

Definition sdsalloc (s : sds) : Z :=
  if sdstype s =? SDS_TYPE_5 then SDS_TYPE_5_LEN (flags s) else if sdstype s <=? SDS_TYPE_64 then alloc s else 0.

Definition sdssetalloc (s : sds) (newlen : Z) : sds :=
  if sdstype s =? SDS_TYPE_5 then s
  else if sdstype s <=? SDS_TYPE_64 then mk_sds (flags s) (len s) (uint (hdr_width (sdstype s)) newlen) (buf s) else s.

Definition set_buf (s : sds) (m : bytes) : sds := mk_sds (flags s) (len s) (alloc s) m.

(** [memcpy(s+off, bs, n)], [s[off] = b] *)
Definition sds_write (s : sds) (off : Z) (bs : bytes) : option sds := set_buf s <$> mstore (buf s) off bs.

Section sds.
Context (usable : Z -> Z) (fresh : nat -> Z).

(** The memory after the header in a new allocation of [n] bytes. *)
Definition new_buf (hdrlen n : Z) : bytes := fresh <$> seq 0 (Z.to_nat (usable n - hdrlen)).

(** [if (usable > sdsTypeMaxSize(type)) usable = sdsTypeMaxSize(type)] *)
Definition clamp_usable (type n : Z) : Z := if n >? sdsTypeMaxSize type then sdsTypeMaxSize type else n.

(** The [init] argument of _sdsnewlen. *)
Inductive sds_init := SDS_NOINIT | SDS_NULL | SDS_INIT (bs : bytes).

Definition _sdsnewlen (init : sds_init) (initlen : Z) : option sds :=
  let type := sdsReqType initlen in
  let type := if (type =? SDS_TYPE_5) && (initlen =? 0) then SDS_TYPE_8 else type in
  let hdrlen := sdsHdrSize type in
  if negb (u64 (initlen + hdrlen + 1) >? initlen) then None
  else
    let b := new_buf hdrlen (hdrlen + initlen + 1) in
    b ← (match init with SDS_NULL => mstore b 0 (replicate (Z.to_nat (initlen + 1)) 0) | _ => Some b end);
    let us := clamp_usable type (usable (hdrlen + initlen + 1) - hdrlen - 1) in
    let s := if type =? SDS_TYPE_5 then mk_sds (u8 (Z.lor type (Z.shiftl initlen SDS_TYPE_BITS))) 0 0 b
             else mk_sds type (uint (hdr_width type) initlen) (uint (hdr_width type) us) b in
    s ← (match init with SDS_INIT bs => sds_write s 0 bs | _ => Some s end);
    sds_write s initlen [0].

(** [init] has [initlen] bytes. *)
Definition sdsnewlen (bs : bytes) : option sds := _sdsnewlen (SDS_INIT bs) (zlen bs).
Definition sdsempty : option sds := sdsnewlen [].
Definition sdsnew (init : bytes) : option sds := sdsnewlen init.

(** The bytes of the string. *)
Definition sds_content (s : sds) : bytes := take (Z.to_nat (sdslen s)) (buf s).

Definition sdsdup (s : sds) : option sds := sdsnewlen (sds_content s).

(** strlen *)
Fixpoint strlen (m : bytes) : Z :=
  match m with
  | [] => 0
  | b :: m => if b =? 0 then 0 else 1 + strlen m
  end.

Definition sdsupdatelen (s : sds) : sds := sdssetlen s (strlen (buf s)).

Definition sdsclear (s : sds) : option sds := sds_write (sdssetlen s 0) 0 [0].

Definition sdsMakeRoomFor (s : sds) (addlen : Z) : option sds :=
  let oldtype := sdstype s in
  if sdsavail s >=? addlen then Some s
  else
    let l := sdslen s in
    let newlen := u64 (l + addlen) in
    if negb (newlen >? l) then None
    else
      let newlen := u64 (if newlen <? SDS_MAX_PREALLOC then newlen * 2 else newlen + SDS_MAX_PREALLOC) in
      let type := sdsReqType newlen in
      let type := if type =? SDS_TYPE_5 then SDS_TYPE_8 else type in
      let hdrlen := sdsHdrSize type in
      if negb (u64 (hdrlen + newlen + 1) >? l) then None
      else
        s ← (if oldtype =? type then
               Some (set_buf s (zrealloc fresh (buf s) (usable (hdrlen + newlen + 1) - hdrlen)))
             else
               old ← mload (buf s) 0 (l + 1);
               b ← mstore (new_buf hdrlen (hdrlen + newlen + 1)) 0 old;
               Some (sdssetlen (mk_sds type 0 0 b) l));
        Some (sdssetalloc s (clamp_usable type (usable (hdrlen + newlen + 1) - hdrlen - 1))).

Definition sdsRemoveFreeSpace (s : sds) : option sds :=
  let oldtype := sdstype s in
  let oldhdrlen := sdsHdrSize oldtype in
  let l := sdslen s in
  if sdsavail s =? 0 then Some s
  else
    let type := sdsReqType l in
    let hdrlen := sdsHdrSize type in
    s ← (if (oldtype =? type) || (type >? SDS_TYPE_8) then
           Some (set_buf s (zrealloc fresh (buf s) (usable (oldhdrlen + l + 1) - oldhdrlen)))
         else
           old ← mload (buf s) 0 (l + 1);
           b ← mstore (new_buf hdrlen (hdrlen + l + 1)) 0 old;
           Some (sdssetlen (mk_sds type 0 0 b) l));
    Some (sdssetalloc s l).

Definition sdsAllocSize (s : sds) : Z := sdsHdrSize (flags s) + sdsalloc s + 1.

(** The assertions of the cases of sdsIncrLen. *)
Definition incr_ok (s : sds) (incr : Z) : bool :=
  if sdstype s =? SDS_TYPE_5 then
    ((incr >? 0) && (sdslen s + incr <? 32)) || ((incr <? 0) && (sdslen s >=? u32 (- incr)))
  else if sdstype s =? SDS_TYPE_64 then
    ((incr >=? 0) && (u64 (alloc s - len s) >=? incr)) || ((incr <? 0) && (len s >=? u64 (- incr)))
  else if sdstype s =? SDS_TYPE_32 then
    ((incr >=? 0) && (u32 (alloc s - len s) >=? u32 incr)) || ((incr <? 0) && (len s >=? u32 (- incr)))
  else
    ((incr >=? 0) && (alloc s - len s >=? incr)) || ((incr <? 0) && (len s >=? u32 (- incr))).

Definition sdsIncrLen (s : sds) (incr : Z) : option sds :=
  if negb (incr_ok s incr) then None
  else
    let s := sdssetlen s (sdslen s + incr) in
    sds_write s (sdslen s) [0].

Definition sdsgrowzero (s : sds) (newlen : Z) : option sds :=
  let curlen := sdslen s in
  if newlen <=? curlen then Some s
  else
    s ← sdsMakeRoomFor s (newlen - curlen);
    s ← sds_write s curlen (replicate (Z.to_nat (newlen - curlen + 1)) 0);
    Some (sdssetlen s newlen).

(** [t] has [len] bytes. *)
Definition sdscatlen (s : sds) (t : bytes) : option sds :=
  let curlen := sdslen s in
  s ← sdsMakeRoomFor s (zlen t);
  s ← sds_write s curlen t;
  sds_write (sdssetlen s (curlen + zlen t)) (curlen + zlen t) [0].

Definition sdscat (s : sds) (t : bytes) : option sds := sdscatlen s t.
Definition sdscatsds (s t : sds) : option sds := sdscatlen s (sds_content t).

Definition sdscpylen (s : sds) (t : bytes) : option sds :=
  s ← (if sdsalloc s <? zlen t then sdsMakeRoomFor s (zlen t - sdslen s) else Some s);
  s ← sds_write s 0 t;
  s ← sds_write s (zlen t) [0];
  Some (sdssetlen s (zlen t)).

Definition sdscpy (s : sds) (t : bytes) : option sds := sdscpylen s t.

(** [strchr(cset, c)]: the terminator of [cset] counts as one of its
    characters. *)
Definition strchr_set (cset : bytes) (c : Z) : bool := (c =? 0) || existsb (Z.eqb c) cset.

(** [while(sp <= end && strchr(cset, *sp)) sp++] *)
Fixpoint trim_left (fuel : nat) (m cset : bytes) (sp last : Z) : option Z :=
  match fuel with
  | O => None
  | S fuel =>
    if sp <=? last then
      c ← mget m sp; if strchr_set cset c then trim_left fuel m cset (sp + 1) last else Some sp
    else Some sp
  end.

(** [while(ep > sp && strchr(cset, *ep)) ep--] *)
Fixpoint trim_right (fuel : nat) (m cset : bytes) (sp ep : Z) : option Z :=
  match fuel with
  | O => None
  | S fuel =>
    if ep >? sp then
      c ← mget m ep; if strchr_set cset c then trim_right fuel m cset sp (ep - 1) else Some ep
    else Some ep
  end.

Definition sdstrim (s : sds) (cset : bytes) : option sds :=
  let last := sdslen s - 1 in
  let fuel := S (Z.to_nat (sdslen s)) in
  sp ← trim_left fuel (buf s) cset 0 last;
  ep ← trim_right fuel (buf s) cset sp last;
  let l := if sp >? ep then 0 else ep - sp + 1 in
  b ← (if negb (sp =? 0) then memmove (buf s) 0 sp l else Some (buf s));
  s ← sds_write (set_buf s b) l [0];
  Some (sdssetlen s l).

(** [start] and [l] are of type size_t. *)
Definition sdssubstr (s : sds) (start l : Z) : option sds :=
  let oldlen := sdslen s in
  let '(start, l) := if start >=? oldlen then (0, 0) else (start, l) in
  let l := if l >? oldlen - start then oldlen - start else l in
  b ← (if negb (l =? 0) then memmove (buf s) 0 start l else Some (buf s));
  s ← sds_write (set_buf s b) l [0];
  Some (sdssetlen s l).

(** [start] and [end] are of type ssize_t. *)
Definition sdsrange (s : sds) (start last : Z) : option sds :=
  let l := sdslen s in
  if l =? 0 then Some s
  else
    let start := if start <? 0 then s64 (l + start) else start in
    let last := if last <? 0 then s64 (l + last) else last in
    let newlen := if start >? last then 0 else u64 (last - start + 1) in
    sdssubstr s (u64 start) newlen.

Definition toupper (c : Z) : Z := if (97 <=? c) && (c <=? 122) then c - 32 else c.

(** Apply a function to the bytes of the string. *)
Definition sds_map (f : Z -> Z) (s : sds) : sds :=
  set_buf s ((f <$> take (Z.to_nat (sdslen s)) (buf s)) ++ drop (Z.to_nat (sdslen s)) (buf s)).

Definition sdstolower (s : sds) : sds := sds_map tolower s.
Definition sdstoupper (s : sds) : sds := sds_map toupper s.
Definition sdsmapchars (s : sds) (from to : bytes) : sds := sds_map (fun c => mapchar c from to) s.

(** ** Representation *)

(** The header says [n] bytes. *)
Definition hdr_ok (s : sds) (n : Z) : Prop :=
  0 <= n < 2 ^ 62 /\
  ((flags s = n * 8 /\ n < 32) \/
   (1 <= flags s <= 4 /\ len s = n /\ n <= alloc s < 2 ^ hdr_width (flags s) /\ alloc s + 1 <= zlen (buf s))).

Definition sds_rep (s : sds) (c : bytes) : Prop :=
  hdr_ok s (zlen c) /\ exists rest, buf s = c ++ 0 :: rest.

(** The string can hold [n] bytes. *)
Definition room (s : sds) (n : Z) : Prop :=
  0 <= n < 2 ^ 62 /\ n + 1 <= zlen (buf s) /\
  ((sdstype s = 0 /\ n < 32) \/ (1 <= flags s <= 4 /\ n <= alloc s < 2 ^ hdr_width (flags s) /\ alloc s + 1 <= zlen (buf s))).

Lemma type_cases (P : Z -> Prop) t : P 1 -> P 2 -> P 3 -> P 4 -> 1 <= t <= 4 -> P t.
Proof. intros. assert (t = 1 \/ t = 2 \/ t = 3 \/ t = 4) as [->|[->|[->| ->]]] by lia; done. Qed.

Lemma sdstype_small s : 1 <= flags s <= 4 -> sdstype s = flags s.
Proof. unfold sdstype. generalize (flags s). intros t Ht. by apply (type_cases (fun t => Z.land t 7 = t)). Qed.

Lemma sdstype_5 s n : flags s = n * 8 -> sdstype s = 0.
Proof.
  intros E. unfold sdstype, SDS_TYPE_MASK. rewrite E. change 7 with (2 ^ 3 - 1). rewrite land_low by lia.
  change (2 ^ 3) with 8. by rewrite Z.mod_mul.
Qed.

Lemma type_5_flags n : 0 <= n < 32 -> u8 (Z.lor SDS_TYPE_5 (Z.shiftl n SDS_TYPE_BITS)) = n * 8.
Proof.
  intros Hn. unfold SDS_TYPE_5, SDS_TYPE_BITS. rewrite Z.lor_0_l, Z.shiftl_mul_pow2 by lia.
  change (2 ^ 3) with 8. apply uint_small. lia.
Qed.

Lemma sdslen_ok s n : hdr_ok s n -> sdslen s = n.
Proof.
  intros [Hn [[Hf _]|(Hf & Hl & _)]]; unfold sdslen.
  - rewrite (sdstype_5 s n Hf). simpl. unfold SDS_TYPE_5_LEN, SDS_TYPE_BITS. rewrite Hf.
    rewrite Z.shiftr_div_pow2 by lia. change (2 ^ 3) with 8. by rewrite Z.div_mul.
  - rewrite sdstype_small by done. unfold SDS_TYPE_5, SDS_TYPE_64. case_ints; lia.
Qed.

Lemma hdr_width_range t : 1 <= t <= 4 -> 8 <= hdr_width t <= 64.
Proof. intros Ht. apply (type_cases (fun t => 8 <= hdr_width t <= 64)); vm_compute; done || (try lia). Qed.

Lemma sdssetlen_ok s n : room s n -> hdr_ok (sdssetlen s n) n /\ buf (sdssetlen s n) = buf s.
Proof.
  intros (Hn & Hb & [[Ht H32]|(Hf & Ha & Hb2)]); unfold sdssetlen.
  - rewrite Ht. simpl. split; [|done]. split; [done|]. left. simpl. rewrite type_5_flags by lia. done.
  - rewrite sdstype_small by done. unfold SDS_TYPE_5, SDS_TYPE_64.
    destruct (Z.eqb_spec (flags s) 0); [lia|]. destruct (Z.leb_spec (flags s) 4); [|lia]. split; [|done].
    split; [done|]. right. simpl. rewrite uint_small by lia. done.
Qed.

(** A string holds its own length, and less. *)
Lemma rep_room s c n : sds_rep s c -> 0 <= n <= zlen c -> room s n.
Proof.
  intros [[Hn Hh] [rest Hb]] Hle. assert (zlen c + 1 <= zlen (buf s)) as Hlen.
  { rewrite Hb, zlen_app, zlen_cons. pose proof (zlen_nonneg rest). lia. }
  split; [lia|]. split; [lia|]. destruct Hh as [[Hf H32]|(Hf & Hl & Ha & Hb2)].
  - left. rewrite (sdstype_5 s _ Hf). lia.
  - right. lia.
Qed.

Lemma set_buf_room s m n : room s n -> zlen m = zlen (buf s) -> room (set_buf s m) n.
Proof. unfold room, sdstype. simpl. by intros H ->. Qed.

(** Setting the length after the bytes are in place. *)
Lemma rep_setlen s c rest : room s (zlen c) -> buf s = c ++ 0 :: rest -> sds_rep (sdssetlen s (zlen c)) c.
Proof. intros Hr Hb. destruct (sdssetlen_ok s _ Hr) as [Hh Hb']. split; [done|]. rewrite Hb'. eauto. Qed.

Lemma mstore_split (a r bs : bytes) off :
  off = zlen a -> zlen bs <= zlen r -> mstore (a ++ r) off bs = Some (a ++ bs ++ drop (length bs) r).
Proof.
  intros -> Hl. rewrite <-(take_drop (length bs) r) at 1. apply mstore_app; [done|].
  unfold zlen in Hl. rewrite length_take. lia.
Qed.

(** Bytes written after the string and a terminator after them. *)
Lemma append_write s c t rest :
  buf s = c ++ rest -> zlen t + 1 <= zlen rest ->
  exists s1 s2 rest', sds_write s (zlen c) t = Some s1 /\ sds_write s1 (zlen c + zlen t) [0] = Some s2 /\
    s1 = set_buf s (c ++ t ++ drop (length t) rest) /\ s2 = set_buf s ((c ++ t) ++ 0 :: rest') /\
    zlen (buf s1) = zlen (buf s) /\ zlen (buf s2) = zlen (buf s).
Proof.
  intros Hb Hl. unfold sds_write. rewrite Hb, mstore_split by (done || lia). cbn [fmap option_fmap option_map].
  eexists. rewrite (app_assoc c t).
  assert (exists d rest', drop (length t) rest = d :: rest') as (d & rest' & Ed).
  { destruct (drop (length t) rest) as [|d r] eqn:E; [|eauto]. apply (f_equal length) in E.
    rewrite length_drop in E. unfold zlen in Hl. simpl in E. lia. }
  exists (set_buf s ((c ++ t) ++ 0 :: rest')), rest'. split; [done|]. cbn [buf set_buf].
  assert (zlen rest = zlen t + 1 + zlen rest') as Hz.
  { apply (f_equal length) in Ed. rewrite length_drop in Ed. simpl in Ed. unfold zlen in *. lia. }
  split; [|split; [done|split; [done|]]].
  - rewrite mstore_split; [|by rewrite zlen_app|rewrite Ed, !zlen_cons; pose proof (zlen_nonneg rest'); rewrite zlen_nil; lia].
    cbn [fmap option_fmap option_map]. rewrite Ed. done.
  - rewrite Ed, !zlen_app, !zlen_cons. lia.
Qed.

Lemma sds_rep_content s c : sds_rep s c -> sds_content s = c.
Proof.
  intros [Hh [rest Hb]]. unfold sds_content. rewrite (sdslen_ok s _ Hh), Hb. unfold zlen.
  by rewrite Nat2Z.id, take_app_length.
Qed.

(** ** Allocation *)

Context (usable_ge : forall n, n <= usable n).

Lemma hdr_size_range t : 1 <= t <= 4 -> 3 <= sdsHdrSize t <= 17.
Proof. intros Ht. apply (type_cases (fun t => 3 <= sdsHdrSize t <= 17)); [unfold sdsHdrSize; simpl; lia..|done]. Qed.

Lemma type_max t : 1 <= t <= 4 -> sdsTypeMaxSize t = 2 ^ hdr_width t - 1.
Proof. intros Ht. by apply (type_cases (fun t => sdsTypeMaxSize t = 2 ^ hdr_width t - 1)). Qed.

Lemma req_type n :
  0 <= n < 2 ^ 64 -> 0 <= sdsReqType n <= 4 /\ (sdsReqType n = 0 -> n < 32) /\
  (1 <= sdsReqType n -> n < 2 ^ hdr_width (sdsReqType n)).
Proof.
  intros Hn. unfold sdsReqType, SDS_TYPE_5, SDS_TYPE_8, SDS_TYPE_16, SDS_TYPE_32, SDS_TYPE_64.
  rewrite !Z.shiftl_1_l. case_ints; (split; [lia|]); (split; [lia|]); intros _; unfold hdr_width; simpl; lia.
Qed.

(** The type used when a string grows: never type 5. *)
Lemma grow_type n :
  0 <= n < 2 ^ 64 -> let t := if sdsReqType n =? SDS_TYPE_5 then SDS_TYPE_8 else sdsReqType n in
  1 <= t <= 4 /\ n < 2 ^ hdr_width t.
Proof.
  intros Hn t. destruct (req_type n Hn) as (H1 & H2 & H3). subst t. unfold SDS_TYPE_5, SDS_TYPE_8.
  destruct (Z.eqb_spec (sdsReqType n) 0).
  - split; [lia|]. unfold hdr_width. simpl. lia.
  - split; [lia|]. apply H3. lia.
Qed.

Lemma clamp_range t n k : 1 <= t <= 4 -> 0 <= k <= n -> k < 2 ^ hdr_width t ->
  k <= clamp_usable t n < 2 ^ hdr_width t /\ clamp_usable t n <= n.
Proof. intros Ht Hk Hw. unfold clamp_usable. rewrite type_max by done. case_ints; lia. Qed.

Lemma zlen_new_buf h n : h <= usable n -> zlen (new_buf h n) = usable n - h.
Proof. intros Hh. unfold new_buf, zlen. rewrite length_fmap, length_seq. lia. Qed.

Lemma sdssetalloc_small s a : 1 <= flags s <= 4 -> in_u (hdr_width (flags s)) a ->
  sdssetalloc s a = mk_sds (flags s) (len s) a (buf s).
Proof.
  intros Hf Ha. unfold sdssetalloc. rewrite sdstype_small by done. unfold SDS_TYPE_5, SDS_TYPE_64.
  destruct (Z.eqb_spec (flags s) 0); [lia|]. destruct (Z.leb_spec (flags s) 4); [|lia]. by rewrite uint_small.
Qed.

Lemma sdssetlen_small s n : 1 <= flags s <= 4 -> in_u (hdr_width (flags s)) n ->
  sdssetlen s n = mk_sds (flags s) n (alloc s) (buf s).
Proof.
  intros Hf Ha. unfold sdssetlen. rewrite sdstype_small by done. unfold SDS_TYPE_5, SDS_TYPE_64.
  destruct (Z.eqb_spec (flags s) 0); [lia|]. destruct (Z.leb_spec (flags s) 4); [|lia]. by rewrite uint_small.
Qed.

(** A header of a given type over a block that starts with the string. *)
Lemma rep_mk t a c b rest :
  1 <= t <= 4 -> zlen c < 2 ^ 62 -> zlen c <= a < 2 ^ hdr_width t -> a + 1 <= zlen b -> b = c ++ 0 :: rest ->
  sds_rep (mk_sds t (zlen c) a b) c /\ forall n, 0 <= n <= a -> n < 2 ^ 62 -> room (mk_sds t (zlen c) a b) n.
Proof.
  intros Ht Hc Ha Hb Eb. pose proof (zlen_nonneg c). split.
  - split; [|by eexists]. split; [lia|]. right. simpl. lia.
  - intros n Hn Hn2. split; [lia|]. simpl. split; [lia|]. right. lia.
Qed.

(** Moving the string to a new block. *)
Lemma move_string s c rest h n :
  buf s = c ++ 0 :: rest -> h + zlen c + 1 <= n ->
  exists b rest', mload (buf s) 0 (zlen c + 1) = Some (c ++ [0]) /\
    mstore (new_buf h n) 0 (c ++ [0]) = Some b /\ b = c ++ 0 :: rest' /\ zlen b = usable n - h.
Proof.
  intros Hb Hn. pose proof (usable_ge n). pose proof (zlen_nonneg c).
  set (r := new_buf h n). assert (zlen r = usable n - h) as Hr by (apply zlen_new_buf; lia).
  exists (c ++ 0 :: drop (length (c ++ [0])) r), (drop (length (c ++ [0])) r).
  split; [|split; [|split; [done|]]].
  - rewrite Hb. replace (c ++ 0 :: rest) with ([] ++ (c ++ [0]) ++ rest) by (by rewrite <-app_assoc).
    apply mload_app; [done|]. rewrite zlen_app. done.
  - rewrite <-(app_nil_l r) at 1. rewrite mstore_split; [|done|rewrite zlen_app, zlen_cons, zlen_nil; lia].
    rewrite app_nil_l. by rewrite <-app_assoc.
  - rewrite zlen_app, zlen_cons. unfold zlen in *. rewrite length_drop, length_app. simpl. lia.
Qed.

(** Growing the block in place. *)
Lemma realloc_string s c rest n :
  buf s = c ++ 0 :: rest -> zlen c + 1 <= n ->
  exists rest', zrealloc fresh (buf s) n = c ++ 0 :: rest' /\ zlen (zrealloc fresh (buf s) n) = n.
Proof.
  intros Hb Hn. unfold zrealloc. set (f := fresh <$> seq _ _). exists (take (Z.to_nat n - length c - 1) rest ++ f).
  assert (take (Z.to_nat n) (buf s) = c ++ 0 :: take (Z.to_nat n - length c - 1) rest) as E.
  { rewrite Hb, take_app, take_ge by (unfold zlen in Hn; lia). f_equal.
    assert (Z.to_nat n - length c = S (Z.to_nat n - length c - 1))%nat as E1 by (unfold zlen in Hn; lia).
    by rewrite E1 at 1. }
  split; [by rewrite E, <-app_assoc|]. subst f. pose proof (zlen_nonneg c). unfold zlen at 1. rewrite length_app, length_take, length_fmap, length_seq. lia.
Qed.

(** sdsMakeRoomFor keeps the string and makes room for [addlen] bytes more. *)
Lemma sdsMakeRoomFor_spec s c addlen :
  sds_rep s c -> 0 <= addlen -> zlen c + addlen < 2 ^ 62 ->
  exists s', sdsMakeRoomFor s addlen = Some s' /\ sds_rep s' c /\ room s' (zlen c + addlen).
Proof.
  intros R Ha Hn. pose proof R as [Hh [rest Hb]]. unfold sdsMakeRoomFor. rewrite (sdslen_ok s _ Hh).
  pose proof (zlen_nonneg c) as Hc0. rewrite Z.geb_leb. destruct (Z.leb_spec addlen (sdsavail s)) as [Hav|Hav].
  { exists s. split; [done|]. split; [done|]. destruct (decide (addlen = 0)) as [->|].
    { rewrite Z.add_0_r. apply (rep_room s c); [done|lia]. }
    destruct Hh as [_ [[Hf H32]|(Hf & Hl & Hal & Hb2)]].
    - unfold sdsavail in Hav. rewrite (sdstype_5 s _ Hf) in Hav. simpl in Hav. lia.
    - assert (sdsavail s <= alloc s - len s) as Hle.
      { unfold sdsavail. unfold SDS_TYPE_5, SDS_TYPE_32, SDS_TYPE_64.
        assert (forall w, 0 <= w -> uint w (alloc s - len s) <= alloc s - len s) as Hu.
        { intros w Hw. apply Z.mod_le; [lia|]. by apply Z.pow_pos_nonneg. }
        case_ints; try apply Hu; lia. }
      split; [lia|]. split; [lia|]. right. lia. }
  assert (addlen <> 0) as Hne by (intros ->; unfold sdsavail in Hav; pose proof (uint_range 32 (alloc s - len s));
    pose proof (uint_range 64 (alloc s - len s)); revert Hav; case_ints; lia).
  rewrite (uint_small 64 (zlen c + addlen)) by lia. rewrite (Z.gtb_ltb (zlen c + addlen)).
  rewrite (proj2 (Z.ltb_lt _ _)) by lia. cbn [negb].
  set (nl := if zlen c + addlen <? SDS_MAX_PREALLOC then _ else _).
  assert (zlen c + addlen <= nl < 2 ^ 63) as Hnl.
  { subst nl. unfold SDS_MAX_PREALLOC. case_ints; lia. }
  rewrite (uint_small 64 nl) by lia. destruct (grow_type nl) as [Ht Hw]; [lia|].
  set (t := if sdsReqType nl =? SDS_TYPE_5 then SDS_TYPE_8 else sdsReqType nl) in *.
  pose proof (hdr_size_range t Ht) as Hhs. rewrite (uint_small 64 (sdsHdrSize t + nl + 1)) by lia.
  rewrite (Z.gtb_ltb (sdsHdrSize t + nl + 1)), (proj2 (Z.ltb_lt _ _)) by lia. cbn [negb].
  pose proof (usable_ge (sdsHdrSize t + nl + 1)) as Hu. set (u := usable (sdsHdrSize t + nl + 1)) in *.
  destruct (clamp_range t (u - sdsHdrSize t - 1) nl Ht) as [Hcl Hcl2]; [lia|done|].
  set (a := clamp_usable t (u - sdsHdrSize t - 1)) in *.
  destruct (Z.eqb_spec (sdstype s) t) as [Et|Et].
  - destruct Hh as [Hz [[Hf H32]|(Hf & Hl & Hal & Hb2)]]; [rewrite (sdstype_5 s _ Hf) in Et; lia|].
    rewrite sdstype_small in Et by done. cbn [mbind option_bind].
    destruct (realloc_string s c rest (u - sdsHdrSize t) Hb) as (rest' & Er & Hr); [lia|].
    rewrite sdssetalloc_small; cbn [flags set_buf len buf]; [|done|rewrite Et; lia]. rewrite Et, Hl.
    destruct (rep_mk t a c (zrealloc fresh (buf s) (u - sdsHdrSize t)) rest' Ht) as [R' Rm]; try done; try lia.
    eexists. split; [done|]. split; [done|]. apply Rm; lia.
  - destruct (move_string s c rest (sdsHdrSize t) (sdsHdrSize t + nl + 1) Hb) as (b & rest' & -> & Hst & Eb & Hzb); [lia|].
    cbn [mbind option_bind]. rewrite Hst. cbn [mbind option_bind].
    rewrite sdssetlen_small, sdssetalloc_small; cbn [flags len alloc buf]; try done; try lia.
    destruct (rep_mk t a c b rest' Ht) as [R' Rm]; try done; try lia.
    eexists. split; [done|]. split; [done|]. apply Rm; lia.
Qed.

(** A new string. *)
Lemma sdsnewlen_spec bs : zlen bs < 2 ^ 62 -> exists s, sdsnewlen bs = Some s /\ sds_rep s bs.
Proof.
  intros Hn. unfold sdsnewlen, _sdsnewlen. pose proof (zlen_nonneg bs) as H0.
  destruct (req_type (zlen bs)) as (H1 & H2 & H3); [lia|].
  set (t := if (sdsReqType (zlen bs) =? SDS_TYPE_5) && (zlen bs =? 0) then SDS_TYPE_8 else sdsReqType (zlen bs)).
  assert ((t = 0 /\ zlen bs < 32) \/ (1 <= t <= 4 /\ zlen bs < 2 ^ hdr_width t)) as Ht.
  { subst t. unfold SDS_TYPE_5, SDS_TYPE_8. destruct (Z.eqb_spec (sdsReqType (zlen bs)) 0), (Z.eqb_spec (zlen bs) 0); simpl.
    - right. split; [lia|]. unfold hdr_width. simpl. lia.
    - left. lia.
    - right. split; [lia|]. apply H3. lia.
    - right. split; [lia|]. apply H3. lia. }
  assert (1 <= sdsHdrSize t <= 17) as Hh.
  { destruct Ht as [[-> _]|[Ht _]]; [unfold sdsHdrSize; simpl; lia|]. pose proof (hdr_size_range t Ht). lia. }
  rewrite (uint_small 64 (zlen bs + sdsHdrSize t + 1)), Z.gtb_ltb by lia. rewrite (proj2 (Z.ltb_lt _ _)) by lia.
  cbn [negb mbind option_bind]. set (n := sdsHdrSize t + zlen bs + 1). pose proof (usable_ge n) as Hu.
  set (s := if t =? SDS_TYPE_5 then _ else _).
  assert (buf s = [] ++ new_buf (sdsHdrSize t) n) as Hb by (subst s; by destruct (t =? SDS_TYPE_5)).
  destruct (append_write s [] bs _ Hb) as (s1 & s2 & rest' & E1 & E2 & _ & -> & _ & Hz).
  { rewrite zlen_new_buf by lia. lia. }
  change (zlen []) with 0 in E1, E2. rewrite Z.add_0_l in E2. rewrite E1. cbn [mbind option_bind]. rewrite E2.
  eexists. split; [done|]. split; [|by exists rest']. split; [lia|]. cbn [flags len alloc buf set_buf].
  destruct Ht as [[Ht H32]|[Ht Hw]].
  - left. subst s. rewrite Ht. simpl. split; [|done]. by apply type_5_flags.
  - right. assert (s = mk_sds t (uint (hdr_width t) (zlen bs))
        (uint (hdr_width t) (clamp_usable t (usable n - sdsHdrSize t - 1))) (new_buf (sdsHdrSize t) n)) as Es.
    { subst s. unfold SDS_TYPE_5. destruct (Z.eqb_spec t 0); [lia|done]. }
    destruct (clamp_range t (usable n - sdsHdrSize t - 1) (zlen bs) Ht) as [Hc Hc2]; [lia|done|].
    cbn [buf set_buf] in Hz. rewrite Hz, Es. cbn [flags len alloc buf]. rewrite !uint_small by lia.
    rewrite zlen_new_buf by lia. lia.
Qed.

(** Appending. *)
Lemma sdscatlen_spec s c t :
  sds_rep s c -> zlen c + zlen t < 2 ^ 62 -> exists s', sdscatlen s t = Some s' /\ sds_rep s' (c ++ t).
Proof.
  intros R Hn. pose proof R as [Hh _]. unfold sdscatlen. rewrite (sdslen_ok s _ Hh).
  destruct (sdsMakeRoomFor_spec s c (zlen t) R (zlen_nonneg t) Hn) as (s1 & -> & [Hh1 [rest Hb]] & Hr).
  cbn [mbind option_bind]. pose proof Hr as (_ & Hlen & _). rewrite Hb, zlen_app in Hlen.
  destruct (append_write s1 c t (0 :: rest) Hb) as (s2 & s3 & rest' & -> & E2 & Es2 & -> & Hz2 & Hz3); [lia|].
  cbn [mbind option_bind]. rewrite <-(zlen_app c t) in *.
  assert (room s2 (zlen (c ++ t))) as Hr2 by (rewrite Es2; apply set_buf_room; [done|by rewrite Es2 in Hz2]).
  destruct (sdssetlen_ok s2 _ Hr2) as [Hh2 Hb2]. unfold sds_write in *. rewrite Hb2.
  destruct (mstore (buf s2) (zlen (c ++ t)) [0]) as [m|] eqn:Em; [|done]. simpl in *.
  eexists. split; [done|]. injection E2 as _ _ _ ->. split; [|by exists rest'].
  destruct Hh2 as [Hn2 Hh2]. split; [done|]. cbn [flags len alloc buf set_buf].
  assert (zlen ((c ++ t) ++ 0 :: rest') = zlen (buf (sdssetlen s2 (zlen (c ++ t))))) as ->; [|done].
  rewrite Hb2, Hz2. done.
Qed.

(** Bytes written over the whole string, the length set afterwards. *)
Lemma rewrite_spec s c :
  room s (zlen c) -> exists s1 s2, sds_write s 0 c = Some s1 /\ sds_write s1 (zlen c) [0] = Some s2 /\
    sds_rep (sdssetlen s2 (zlen c)) c.
Proof.
  intros Hr. pose proof Hr as (_ & Hlen & _).
  destruct (append_write s [] c (buf s) eq_refl) as (s1 & s2 & rest' & E1 & E2 & _ & Es2 & _ & Hz2); [lia|].
  change (zlen []) with 0 in E1, E2. rewrite Z.add_0_l in E2.
  exists s1, s2. split; [done|]. split; [done|]. apply (rep_setlen s2 c rest'); rewrite Es2 in *; [|done].
  by apply set_buf_room.
Qed.

Lemma sdscpylen_spec s c t :
  sds_rep s c -> zlen t < 2 ^ 62 -> exists s', sdscpylen s t = Some s' /\ sds_rep s' t.
Proof.
  intros R Hn. pose proof R as [Hh [rest0 Hb0]]. unfold sdscpylen. rewrite (sdslen_ok s _ Hh).
  pose proof (zlen_nonneg t). pose proof (zlen_nonneg c).
  assert (exists s1, (if sdsalloc s <? zlen t then sdsMakeRoomFor s (zlen t - zlen c) else Some s) = Some s1 /\
    room s1 (zlen t)) as (s1 & -> & Hr).
  { assert (zlen c <= sdsalloc s /\ (zlen t <= sdsalloc s -> room s (zlen t))) as [Hc Hok].
    { destruct Hh as [Hz [[Hf H32]|(Hf & Hl & Hal & Hb2)]]; unfold sdsalloc.
      - rewrite (sdstype_5 s _ Hf). simpl. unfold SDS_TYPE_5_LEN, SDS_TYPE_BITS. rewrite Hf, Z.shiftr_div_pow2 by lia.
        change (2 ^ 3) with 8. rewrite Z.div_mul by lia. split; [done|]. intros Hle. by apply (rep_room s c).
      - rewrite sdstype_small by done. unfold SDS_TYPE_5, SDS_TYPE_64.
        destruct (Z.eqb_spec (flags s) 0); [lia|]. destruct (Z.leb_spec (flags s) 4); [|lia].
        split; [lia|]. intros Hle. split; [lia|]. split; [lia|]. right. lia. }
    destruct (Z.ltb_spec (sdsalloc s) (zlen t)).
    - destruct (sdsMakeRoomFor_spec s c (zlen t - zlen c) R) as (s1 & -> & _ & Hr); [lia|lia|].
      exists s1. split; [done|]. by replace (zlen c + (zlen t - zlen c)) with (zlen t) in Hr by lia.
    - exists s. split; [done|]. by apply Hok. }
  cbn [mbind option_bind]. destruct (rewrite_spec s1 t Hr) as (s2 & s3 & -> & E3 & R3). cbn [mbind option_bind].
  rewrite E3. cbn [mbind option_bind]. eauto.
Qed.

(** Growing with zeros. *)
Lemma sdsgrowzero_spec s c n :
  sds_rep s c -> n < 2 ^ 62 ->
  exists s', sdsgrowzero s n = Some s' /\ sds_rep s' (c ++ replicate (Z.to_nat (n - zlen c)) 0).
Proof.
  intros R Hn. pose proof R as [Hh _]. unfold sdsgrowzero. rewrite (sdslen_ok s _ Hh).
  destruct (Z.leb_spec n (zlen c)).
  { exists s. split; [done|]. replace (Z.to_nat (n - zlen c)) with 0%nat by lia. by rewrite app_nil_r. }
  destruct (sdsMakeRoomFor_spec s c (n - zlen c) R) as (s1 & -> & [Hh1 [rest Hb]] & Hr); [lia|lia|].
  replace (zlen c + (n - zlen c)) with n in Hr by lia. cbn [mbind option_bind].
  pose proof Hr as (_ & Hlen & _). rewrite Hb, zlen_app, zlen_cons in Hlen.
  set (z := replicate (Z.to_nat (n - zlen c)) 0).
  assert (replicate (Z.to_nat (n - zlen c + 1)) 0 = z ++ [0]) as ->.
  { subst z. replace (Z.to_nat (n - zlen c + 1)) with (Z.to_nat (n - zlen c) + 1)%nat by lia.
    by rewrite replicate_add. }
  assert (zlen z = n - zlen c) as Hz by (subst z; unfold zlen at 1; rewrite length_replicate; lia).
  unfold sds_write. rewrite Hb, mstore_split by (rewrite ?zlen_app, ?zlen_cons, ?zlen_nil; done || lia).
  cbn [fmap option_fmap option_map mbind option_bind]. eexists. split; [done|].
  assert (n = zlen (c ++ z)) as En by (rewrite zlen_app; lia). rewrite En.
  apply (rep_setlen _ _ (drop (length (z ++ [0])) (0 :: rest))); [|simpl; by rewrite <-!app_assoc].
  apply set_buf_room; [by rewrite <-En|]. rewrite Hb, !zlen_app, !zlen_cons, !zlen_nil in *.
  unfold zlen in *. rewrite length_drop, length_app. simpl in *. lia.
Qed.

(** ** Substrings *)

Lemma memmove_front (m : bytes) start l :
  0 <= start -> 0 <= l -> start + l <= zlen m ->
  memmove m 0 start l = Some (take (Z.to_nat l) (drop (Z.to_nat start) m) ++ drop (Z.to_nat l) m).
Proof.
  intros Hs Hl Hm. unfold memmove, mload. rewrite bool_decide_true by lia. cbn [mbind option_bind].
  set (t := take (Z.to_nat l) (drop (Z.to_nat start) m)).
  assert (length t = Z.to_nat l) as Ht by (subst t; rewrite length_take, length_drop; unfold zlen in Hm; lia).
  rewrite <-(app_nil_l m) at 1. rewrite mstore_split; [|done|unfold zlen in *; lia]. by rewrite Ht.
Qed.

(** The length is set to that of a prefix of the memory. *)
Lemma shrink_spec s c c' m :
  sds_rep s c -> zlen m = zlen (buf s) -> zlen c' <= zlen c -> (exists r, m = c' ++ r) ->
  exists s1, sds_write (set_buf s m) (zlen c') [0] = Some s1 /\ sds_rep (sdssetlen s1 (zlen c')) c'.
Proof.
  intros R Hm Hle [r Er]. pose proof (rep_room s c (zlen c') R ltac:(pose proof (zlen_nonneg c'); lia)) as Hr.
  pose proof Hr as (_ & Hlen & _). unfold sds_write. cbn [buf set_buf].
  assert (1 <= zlen r) as Hr1 by (rewrite <-Hm, Er, zlen_app in Hlen; lia).
  rewrite Er, mstore_split by (done || rewrite zlen_cons, zlen_nil; lia).
  cbn [fmap option_fmap option_map]. eexists. split; [done|]. apply (rep_setlen _ _ (drop 1 r)); [|done].
  apply (set_buf_room (set_buf s m)); [by apply set_buf_room|]. cbn [buf set_buf]. rewrite Er, !zlen_app, zlen_cons, zlen_nil.
  unfold zlen in *. rewrite length_drop. simpl. lia.
Qed.

Lemma sdssubstr_spec s c start l :
  sds_rep s c -> 0 <= start -> 0 <= l ->
  exists s', sdssubstr s start l = Some s' /\ sds_rep s' (take (Z.to_nat l) (drop (Z.to_nat start) c)).
Proof.
  intros R Hs Hl. pose proof R as [Hh [rest Hb]]. unfold sdssubstr. rewrite (sdslen_ok s _ Hh).
  set (c' := take (Z.to_nat l) (drop (Z.to_nat start) c)).
  assert (exists start' l', (let '(start, l) := if start >=? zlen c then (0, 0) else (start, l) in
      (start, if l >? zlen c - start then zlen c - start else l)) = (start', l') /\
      0 <= start' /\ 0 <= l' /\ start' + l' <= zlen c /\ c' = take (Z.to_nat l') (drop (Z.to_nat start') c))
    as (st & l' & E & Hst & Hl' & Hle & Ec).
  { rewrite Z.geb_leb. destruct (Z.leb_spec (zlen c) start); rewrite Z.gtb_ltb.
    - rewrite (proj2 (Z.ltb_ge _ _)) by (pose proof (zlen_nonneg c); lia). exists 0, 0.
      pose proof (zlen_nonneg c). split_and!; try done; try lia. subst c'. unfold zlen in *.
      rewrite (drop_ge c) by lia. by rewrite take_nil.
    - destruct (Z.ltb_spec (zlen c - start) l); eexists _, _; (split; [done|]); split_and!; try done; try lia.
      subst c'. unfold zlen in *. rewrite !take_ge by (rewrite length_drop; lia). done. }
  destruct (if start >=? zlen c then (0, 0) else (start, l)) as [s0 l0] eqn:Es0.
  injection E as -> ->.
  assert (zlen c' = l') as Hc' by (rewrite Ec; unfold zlen in *; rewrite length_take, length_drop; lia).
  assert (exists m, (if negb (l' =? 0) then memmove (buf s) 0 st l' else Some (buf s)) = Some m /\
      zlen m = zlen (buf s) /\ exists r, m = c' ++ r) as (m & -> & Hm & Er).
  { assert (zlen (buf s) = zlen c + 1 + zlen rest) as Hz by (rewrite Hb, zlen_app, zlen_cons; lia).
    pose proof (zlen_nonneg rest). destruct (Z.eqb_spec l' 0) as [->|Hne]; cbn [negb].
    - exists (buf s). split; [done|]. split; [done|]. exists (buf s). by rewrite (zlen_0_inv c' Hc').
    - rewrite memmove_front by lia.
      assert (take (Z.to_nat l') (drop (Z.to_nat st) (buf s)) = c') as Et.
      { rewrite Hb, Ec. rewrite drop_app_le, take_app_le by (rewrite ?length_drop; unfold zlen in *; lia). done. }
      rewrite Et. eexists. split; [done|]. split; [|eauto]. rewrite zlen_app, Hc'. unfold zlen in *.
      rewrite length_drop. lia. }
  cbn [mbind option_bind]. rewrite <-Hc'. destruct (shrink_spec s c c' m R Hm) as (s1 & -> & R1); [lia|done|].
  cbn [mbind option_bind]. eauto.
Qed.

(** What sdsrange keeps: the interval [start..end] of the string, counted from
    its end when negative; nothing when [start] lies before the string. *)
Definition range_of (c : bytes) (start last : Z) : bytes :=
  let st := if start <? 0 then zlen c + start else start in
  let en := if last <? 0 then zlen c + last else last in
  if (st <? 0) || (st >? en) then [] else take (Z.to_nat (en - st + 1)) (drop (Z.to_nat st) c).

Lemma sdsrange_spec s c start last :
  sds_rep s c -> in_s 64 start -> in_s 64 last ->
  exists s', sdsrange s start last = Some s' /\ sds_rep s' (range_of c start last).
Proof.
  intros R Hs Hl. pose proof R as [Hh _]. unfold sdsrange. rewrite (sdslen_ok s _ Hh).
  pose proof (zlen_nonneg c) as H0. destruct Hh as [[_ Hc] _].
  destruct (Z.eqb_spec (zlen c) 0) as [E|E].
  { exists s. split; [done|]. apply zlen_0_inv in E as ->. unfold range_of. destruct (_ || _); [done|].
    rewrite drop_nil, take_nil. done. }
  unfold range_of.
  assert ((if start <? 0 then s64 (zlen c + start) else start) = if start <? 0 then zlen c + start else start) as ->.
  { case_ints; [|done]. apply sint_small; lia. }
  assert ((if last <? 0 then s64 (zlen c + last) else last) = if last <? 0 then zlen c + last else last) as ->.
  { case_ints; [|done]. apply sint_small; lia. }
  set (st := if start <? 0 then _ else _). set (en := if last <? 0 then _ else _).
  assert (- 2 ^ 63 <= st < 2 ^ 63 /\ - 2 ^ 63 <= en < 2 ^ 63) as [Hst Hen].
  { subst st en. case_ints; lia. }
  rewrite Z.gtb_ltb. destruct (Z.ltb_spec st 0) as [Hneg|Hpos]; cbn [orb].
  - assert (u64 st = st + 2 ^ 64) as Hu by (unfold uint; rewrite <-(Z.mod_add st 1), Z.mod_small by lia; lia).
    set (n := if en <? st then 0 else _). assert (0 <= n) as Hn.
    { subst n. case_ints; [lia|]. pose proof (uint_range 64 (en - st + 1)). lia. }
    destruct (sdssubstr_spec s c (u64 st) n R) as (s' & -> & R'); [lia|done|].
    exists s'. split; [done|]. rewrite drop_ge, take_nil in R' by (rewrite Hu; unfold zlen in *; lia). done.
  - rewrite (uint_small 64 st) by lia. destruct (Z.ltb_spec en st).
    + destruct (sdssubstr_spec s c st 0 R) as (s' & -> & R'); [lia|lia|]. exists s'. split; [done|]. by rewrite take_0 in R'.
    + rewrite uint_small by lia. apply sdssubstr_spec; [done|lia|lia].
Qed.

Lemma sdsclear_spec s c : sds_rep s c -> exists s', sdsclear s = Some s' /\ sds_rep s' [].
Proof.
  intros R. pose proof R as [Hh [rest Hb]].
  pose proof (rep_room s c 0 R ltac:(pose proof (zlen_nonneg c); lia)) as Hr.
  destruct (sdssetlen_ok s 0 Hr) as [[Hn Hok] Hb']. unfold sdsclear, sds_write. rewrite Hb'.
  pose proof Hr as (_ & Hlen & _). 
  pose proof (mstore_split [] (buf s) [0] 0 eq_refl ltac:(rewrite zlen_cons, zlen_nil; lia)) as Hst.
  rewrite app_nil_l in Hst. rewrite Hst.
  cbn [fmap option_fmap option_map]. eexists. split; [done|]. rewrite app_nil_l. split; [|by eexists]. split; [done|]. cbn [flags len alloc buf set_buf].
  replace (zlen ([0] ++ drop (length [0]) (buf s))) with (zlen (buf (sdssetlen s 0))); [done|].
  rewrite Hb', zlen_app, zlen_cons, zlen_nil. unfold zlen in *. rewrite length_drop. simpl. lia.
Qed.

Lemma sds_map_spec f s c : sds_rep s c -> sds_rep (sds_map f s) (f <$> c).
Proof.
  intros R. pose proof R as [Hh [rest Hb]]. unfold sds_map. rewrite (sdslen_ok s _ Hh), Hb.
  unfold zlen. rewrite Nat2Z.id, take_app_length, drop_app_length. split; [|by exists rest].
  rewrite zlen_fmap. destruct Hh as [Hn Hh]. split; [done|]. cbn [flags len alloc buf set_buf].
  replace (zlen ((f <$> c) ++ 0 :: rest)) with (zlen (buf s)); [done|]. by rewrite Hb, !zlen_app, zlen_fmap.
Qed.

(** ** Trimming *)

Fixpoint drop_while (p : Z -> bool) (l : bytes) : bytes :=
  match l with
  | [] => []
  | x :: l => if p x then drop_while p l else x :: l
  end.

(** What sdstrim keeps. *)
Definition trimmed (cset c : bytes) : bytes :=
  reverse (drop_while (strchr_set cset) (reverse (drop_while (strchr_set cset) c))).

Lemma drop_while_split p l : exists a, l = a ++ drop_while p l /\ forallb p a = true /\
  (forall x r, drop_while p l = x :: r -> p x = false).
Proof.
  induction l as [|x l (a & E & Ha & Hh)]; [by exists []|]. simpl. destruct (p x) eqn:Ep.
  - exists (x :: a). split; [by rewrite E at 1|]. split; [simpl; by rewrite Ep|done].
  - exists []. split; [done|]. split; [done|]. by intros y r [= <- <-].
Qed.

Lemma trim_left_spec cset a m last fuel :
  forallb (strchr_set cset) a = true -> (exists rest, m = a ++ rest /\ zlen a <= last + 1 /\
    (zlen a <= last -> exists x r, rest = x :: r /\ strchr_set cset x = false)) ->
  forall k, (k <= length a)%nat -> (length a - k < fuel)%nat ->
  trim_left fuel m cset (Z.of_nat k) last = Some (zlen a).
Proof.
  intros Ha (rest & Em & Hlast & Hstop). induction fuel as [|fuel IH]; intros k Hk Hf; [lia|]. cbn [trim_left].
  destruct (decide (k = length a)) as [->|Hne].
  - change (Z.of_nat (length a)) with (zlen a). destruct (Z.leb_spec (zlen a) last); [|done].
    destruct Hstop as (x & r & -> & Hx); [done|]. rewrite Em, mget_app by done. cbn [mbind option_bind]. by rewrite Hx.
  - destruct (Z.leb_spec (Z.of_nat k) last); [|unfold zlen in *; lia].
    destruct (lookup_lt_is_Some_2 a k) as [x Hx]; [lia|].
    unfold mget. rewrite bool_decide_true, Nat2Z.id, Em, lookup_app_l, Hx by lia. cbn [mbind option_bind].
    rewrite forallb_forall in Ha. rewrite Ha by (apply list_elem_of_In; by eapply list_elem_of_lookup_2).
    rewrite <-Em. replace (Z.of_nat k + 1) with (Z.of_nat (S k)) by lia. apply IH; lia.
Qed.

(** [a] is dropped on the left, [z] on the right, and [y :: mid] starts with a
    byte that is kept. *)
Lemma trim_right_spec cset m a y mid z fuel :
  (exists rest, m = a ++ y :: mid ++ z ++ rest) -> forallb (strchr_set cset) z = true ->
  (forall r x, mid = r ++ [x] -> strchr_set cset x = false) ->
  forall k, (k <= length z)%nat -> (k < fuel)%nat ->
  trim_right fuel m cset (zlen a) (zlen a + zlen mid + Z.of_nat k) = Some (zlen a + zlen mid).
Proof.
  intros [rest Em] Hz Hstop. induction fuel as [|fuel IH]; intros k Hk Hf; [lia|]. cbn [trim_right].
  rewrite Z.gtb_ltb. pose proof (zlen_nonneg a). pose proof (zlen_nonneg mid). destruct k as [|k].
  - rewrite Z.add_0_r. destruct (Z.ltb_spec (zlen a) (zlen a + zlen mid)); [|done].
    destruct (decide (mid = [])) as [->|Hne]; [rewrite zlen_nil in *; lia|]. apply exists_last in Hne as (r & x & ->).
    rewrite Em. replace (a ++ y :: (r ++ [x]) ++ z ++ rest) with ((a ++ y :: r) ++ x :: z ++ rest) by (by rewrite <-!app_assoc).
    rewrite mget_app by (rewrite !zlen_app, !zlen_cons, zlen_nil; lia). cbn [mbind option_bind]. by rewrite (Hstop r x).
  - rewrite (proj2 (Z.ltb_lt _ _)) by lia. destruct (lookup_lt_is_Some_2 z k) as [x Hx]; [lia|].
    pose proof (take_drop_middle z k x Hx) as Ez.
    rewrite Em, <-Ez. replace (a ++ y :: mid ++ (take k z ++ x :: drop (S k) z) ++ rest) with
      ((a ++ y :: mid ++ take k z) ++ x :: drop (S k) z ++ rest) by (by rewrite <-!app_assoc; cbn; rewrite <-!app_assoc).
    rewrite mget_app.
    2:{ rewrite !zlen_app, zlen_cons, zlen_app. unfold zlen. rewrite length_take. lia. }
    cbn [mbind option_bind]. rewrite forallb_forall in Hz.
    rewrite Hz by (apply list_elem_of_In; by eapply list_elem_of_lookup_2).
    replace (zlen a + zlen mid + Z.of_nat (S k) - 1) with (zlen a + zlen mid + Z.of_nat k) by lia.
    replace ((a ++ y :: mid ++ take k z) ++ x :: drop (S k) z ++ rest) with m.
    2:{ rewrite Em. rewrite <-Ez at 1. by rewrite <-!app_assoc; cbn; rewrite <-!app_assoc. }
    apply IH; lia.
Qed.

Lemma forallb_reverse (p : Z -> bool) l : forallb p (reverse l) = forallb p l.
Proof. induction l as [|x l IH]; [done|]. rewrite reverse_cons, forallb_app, IH. simpl. by rewrite andb_true_r, andb_comm. Qed.

(** A string is what is trimmed on the left, what is kept, and what is trimmed
    on the right. *)
Lemma trimmed_split cset c :
  exists a z, c = a ++ trimmed cset c ++ z /\ forallb (strchr_set cset) a = true /\ forallb (strchr_set cset) z = true /\
    (trimmed cset c = [] -> z = []) /\
    (forall x r, trimmed cset c = x :: r -> strchr_set cset x = false) /\
    (forall x r, trimmed cset c = r ++ [x] -> strchr_set cset x = false).
Proof.
  unfold trimmed. set (p := strchr_set cset). destruct (drop_while_split p c) as (a & Ea & Ha & Hh).
  destruct (drop_while_split p (reverse (drop_while p c))) as (z & Ez & Hz & Hl).
  set (k := drop_while p (reverse (drop_while p c))) in *.
  assert (drop_while p c = reverse k ++ reverse z) as Ek.
  { rewrite <-(reverse_involutive (drop_while p c)), Ez, reverse_app. done. }
  assert (reverse k = [] -> z = []) as Hnil.
  { intros Ekn. rewrite Ekn in Ek. simpl in Ek. destruct (decide (z = [])) as [->|Hne]; [done|].
    apply exists_last in Hne as (z' & x & ->). rewrite reverse_snoc in Ek. specialize (Hh _ _ Ek).
    rewrite forallb_app in Hz. simpl in Hz. rewrite Hh in Hz. rewrite !andb_false_r in Hz. done. }
  exists a, (reverse z). split; [by rewrite <-Ek|]. split; [done|]. split; [by rewrite forallb_reverse|].
  split; [intros E; by rewrite (Hnil E)|]. split.
  - intros x r E. apply (Hh x (r ++ reverse z)). by rewrite Ek, E.
  - intros x r E. apply (Hl x (reverse r)). rewrite <-(reverse_involutive k), E, reverse_snoc. done.
Qed.

Lemma sdstrim_spec s c cset : sds_rep s c -> exists s', sdstrim s cset = Some s' /\ sds_rep s' (trimmed cset c).
Proof.
  intros R. pose proof R as [Hh [rest Hb]]. unfold sdstrim. rewrite (sdslen_ok s _ Hh).
  destruct (trimmed_split cset c) as (a & z & Ec & Ha & Hz & Hnil & Hf & Hl). set (k := trimmed cset c) in *.
  pose proof (zlen_nonneg a). pose proof (zlen_nonneg k). pose proof (zlen_nonneg z). pose proof (zlen_nonneg rest).
  assert (zlen c = zlen a + zlen k + zlen z) as Hc by (rewrite Ec, !zlen_app; lia).
  assert (trim_left (S (Z.to_nat (zlen c))) (buf s) cset 0 (zlen c - 1) = Some (zlen a)) as ->.
  { apply (trim_left_spec cset a (buf s) (zlen c - 1) (S (Z.to_nat (zlen c))) Ha) with (k := 0%nat);
      [|lia|unfold zlen in *; lia].
    exists (k ++ z ++ 0 :: rest). split; [by rewrite Hb, Ec, <-!app_assoc|]. split; [lia|]. intros Hle.
    destruct k as [|x r] eqn:Ek; [rewrite Hnil, !zlen_nil in * by done; lia|].
    exists x, (r ++ z ++ 0 :: rest). split; [done|by eapply Hf]. }
  cbn [mbind option_bind].
  assert (exists ep, trim_right (S (Z.to_nat (zlen c))) (buf s) cset (zlen a) (zlen c - 1) = Some ep /\
    (if zlen a >? ep then 0 else ep - zlen a + 1) = zlen k) as (ep & -> & Hlen).
  { destruct k as [|y mid] eqn:Ek.
    - rewrite Hnil, zlen_nil in Hc by done. exists (zlen c - 1). cbn [trim_right]. rewrite !Z.gtb_ltb.
      destruct (Z.ltb_spec (zlen a) (zlen c - 1)); [lia|]. split; [done|].
      rewrite (proj2 (Z.ltb_lt _ _)) by lia. done.
    - exists (zlen a + zlen mid). rewrite zlen_cons in *. pose proof (zlen_nonneg mid). split.
      + replace (zlen c - 1) with (zlen a + zlen mid + Z.of_nat (length z)) by (unfold zlen in *; lia).
        apply (trim_right_spec cset (buf s) a y mid z).
        * exists (0 :: rest). by rewrite Hb, Ec, <-!app_assoc.
        * done.
        * intros r x Em. apply (Hl x (y :: r)). by rewrite Em.
        * done.
        * unfold zlen in *. lia.
      + rewrite Z.gtb_ltb, (proj2 (Z.ltb_ge _ _)) by lia. lia. }
  cbn [mbind option_bind]. rewrite Hlen.
  assert (zlen (buf s) = zlen c + 1 + zlen rest) as Hzb by (rewrite Hb, zlen_app, zlen_cons; lia).
  assert (exists m, (if negb (zlen a =? 0) then memmove (buf s) 0 (zlen a) (zlen k) else Some (buf s)) = Some m /\
      zlen m = zlen (buf s) /\ exists r, m = k ++ r) as (m & -> & Hm & Er).
  { destruct (Z.eqb_spec (zlen a) 0) as [E0|E0]; cbn [negb].
    - exists (buf s). split; [done|]. split; [done|]. exists (z ++ 0 :: rest). apply zlen_0_inv in E0 as ->.
      by rewrite Hb, Ec, <-!app_assoc.
    - rewrite memmove_front by lia. eexists. split; [done|].
      assert (take (Z.to_nat (zlen k)) (drop (Z.to_nat (zlen a)) (buf s)) = k) as ->.
      { rewrite Hb, Ec. unfold zlen. rewrite !Nat2Z.id, <-!app_assoc, drop_app_length, take_app_length. done. }
      split; [|eauto]. rewrite zlen_app. unfold zlen in *. rewrite length_drop. lia. }
  cbn [mbind option_bind]. destruct (shrink_spec s c k m R Hm) as (s1 & -> & R1); [lia|done|].
  cbn [mbind option_bind]. eauto.
Qed.

(** ** Free space *)

Lemma sdsRemoveFreeSpace_spec s c :
  sds_rep s c -> exists s', sdsRemoveFreeSpace s = Some s' /\ sds_rep s' c /\ sdsavail s' = 0.
Proof.
  intros R. pose proof R as [Hh [rest Hb]]. unfold sdsRemoveFreeSpace. rewrite (sdslen_ok s _ Hh).
  destruct (Z.eqb_spec (sdsavail s) 0) as [Hav|Hav]; [by exists s|]. pose proof (zlen_nonneg c) as H0.
  destruct Hh as [Hn [[Hf H32]|(Hf & Hl & Hal & Hb2)]].
  { unfold sdsavail in Hav. by rewrite (sdstype_5 s _ Hf) in Hav. }
  rewrite sdstype_small by done. destruct (req_type (zlen c)) as (Hr1 & Hr2 & Hr3); [lia|].
  set (t := sdsReqType (zlen c)) in *.
  assert (forall x, sdstype x = 0 -> sdsavail x = 0) as Hav0 by (intros x Hx; unfold sdsavail; by rewrite Hx).
  assert (forall f b, 1 <= f <= 4 -> sdsavail (mk_sds f (zlen c) (zlen c) b) = 0) as Hav1.
  { intros f b Hf1. unfold sdsavail. cbn [alloc len]. rewrite Z.sub_diag. by repeat case_match. }
  destruct ((flags s =? t) || (t >? SDS_TYPE_8)) eqn:Et; cbn [mbind option_bind].
  - pose proof (usable_ge (sdsHdrSize (flags s) + zlen c + 1)).
    destruct (realloc_string s c rest (usable (sdsHdrSize (flags s) + zlen c + 1) - sdsHdrSize (flags s)) Hb) as (rest' & Er & Hr); [lia|].
    rewrite sdssetalloc_small; cbn [flags set_buf len buf]; [|done|lia]. rewrite Hl.
    eexists. split; [done|]. split; [|by apply Hav1]. eapply (rep_mk (flags s) (zlen c) c); try done; lia.
  - apply orb_false_iff in Et as [Et1 Et2]. rewrite Z.gtb_ltb in Et2. unfold SDS_TYPE_8 in Et2.
    apply Z.ltb_ge in Et2. apply Z.eqb_neq in Et1.
    destruct (move_string s c rest (sdsHdrSize t) (sdsHdrSize t + zlen c + 1) Hb) as (b & rest' & -> & Hst & Eb & Hzb); [lia|].
    cbn [mbind option_bind]. rewrite Hst. cbn [mbind option_bind]. pose proof (usable_ge (sdsHdrSize t + zlen c + 1)).
    assert (t = 0 \/ t = 1) as [Et|Et] by lia.
    + rewrite Et. specialize (Hr2 Et). eexists. split; [done|].
      change (sdssetlen (mk_sds 0 0 0 b) (zlen c)) with
        (mk_sds (u8 (Z.lor SDS_TYPE_5 (Z.shiftl (zlen c) SDS_TYPE_BITS))) 0 0 b). rewrite type_5_flags by lia.
      assert (sdstype (mk_sds (zlen c * 8) 0 0 b) = 0) as Hty by (by apply (sdstype_5 _ (zlen c))).
      unfold sdssetalloc. rewrite Hty. simpl Z.eqb. cbv iota. split; [|by apply Hav0].
      split; [|by exists rest']. split; [lia|]. left. done.
    + rewrite Et in *. rewrite sdssetlen_small, sdssetalloc_small; cbn [flags len alloc buf]; try lia.
      eexists. split; [done|]. split; [|by apply Hav1]. eapply (rep_mk 1 (zlen c) c); try done; lia.
Qed.

(** sdsIncrLen takes over bytes written after the string, or drops its last
    ones. *)
Lemma sdsIncrLen_spec s n incr :
  hdr_ok s n -> room s (n + incr) -> (incr = 0 -> 1 <= flags s <= 4) ->
  exists s', sdsIncrLen s incr = Some s' /\ sds_rep s' (take (Z.to_nat (n + incr)) (buf s)).
Proof.
  intros Hh Hr H0. unfold sdsIncrLen. pose proof (sdslen_ok s n Hh) as Hlen.
  assert (incr_ok s incr = true) as ->.
  { unfold incr_ok. rewrite Hlen. destruct Hh as [Hn [[Hf H32]|(Hf & Hl & Hal & Hb2)]].
    - rewrite (sdstype_5 s n Hf). simpl. destruct Hr as (? & ? & [[_ Hr]|[Hr _]]); [|lia].
      assert (incr <> 0) as Hne by (intros ->; specialize (H0 eq_refl); lia).
      destruct (decide (0 < incr)).
      + rewrite Z.gtb_ltb, !(proj2 (Z.ltb_lt _ _)) by lia. done.
      + rewrite (proj2 (Z.ltb_lt incr 0)), uint_small, (proj2 (Z.geb_le _ _)) by lia. by rewrite orb_true_r.
    - destruct Hr as (? & ? & [[Ht _]|(_ & Hr & _)]); [rewrite sdstype_small in Ht by done; lia|].
      rewrite sdstype_small by done. rewrite Hl. revert Hf Hr Hal. generalize (flags s). intros t Hf Hr Hal.
      unfold SDS_TYPE_5, SDS_TYPE_64, SDS_TYPE_32.
      assert (t = 1 \/ t = 2 \/ t = 3 \/ t = 4) as [->|[->|[->| ->]]] by lia;
        unfold hdr_width in *; simpl in *; (destruct (decide (0 <= incr)) as [Hi|Hi];
        [rewrite ?uint_small by lia; rewrite !(proj2 (Z.geb_le _ _)) by lia; done
        |rewrite (proj2 (Z.ltb_lt incr 0)) by lia; rewrite (uint_small _ (- incr)) by lia;
         rewrite (proj2 (Z.geb_le n (- incr))) by lia; by rewrite orb_true_r]). }
  cbn [negb]. rewrite Hlen. set (w := take (Z.to_nat (n + incr)) (buf s)).
  pose proof Hr as (Hn1 & Hb1 & _). assert (zlen w = n + incr) as Hw.
  { subst w. unfold zlen in *. rewrite length_take. lia. }
  destruct (sdssetlen_ok s _ Hr) as [Hh' Hb']. rewrite (sdslen_ok _ _ Hh'). unfold sds_write. rewrite Hb'.
  rewrite <-(take_drop (Z.to_nat (n + incr)) (buf s)). fold w. set (r := drop (Z.to_nat (n + incr)) (buf s)).
  assert (zlen r = zlen (buf s) - (n + incr)) as Hrl by (subst r; unfold zlen in *; rewrite length_drop; lia).
  rewrite mstore_split; [|done|rewrite zlen_cons, zlen_nil; lia]. cbn [fmap option_fmap option_map].
  eexists. split; [done|]. split; [|by eexists]. rewrite Hw. destruct Hh' as [Hz Hh']. split; [done|].
  cbn [flags len alloc buf set_buf].
  replace (zlen (w ++ [0] ++ drop (length [0]) r)) with (zlen (buf (sdssetlen s (n + incr)))); [done|].
  rewrite Hb', !zlen_app, zlen_cons, zlen_nil. unfold zlen in *. rewrite length_drop. simpl. lia.
Qed.

(** ** Sequences of operations *)

Inductive sds_op :=
  | OCatLen (t : bytes) | OGrowZero (n : Z) | OClear | OCpyLen (t : bytes) | OMakeRoomFor (n : Z) | ORemoveFreeSpace
  | ORange (start last : Z) | OSubstr (start l : Z) | OTrim (cset : bytes) | OToLower | OToUpper
  | OMapChars (from to : bytes) | ODup | ORead (t : bytes).

(** [ORead t]: sdsMakeRoomFor, a write of [t] after the string, sdsIncrLen, as
    in the usage example of sdsIncrLen. *)
Definition sds_read (s : sds) (t : bytes) : option sds :=
  let oldlen := sdslen s in
  s ← sdsMakeRoomFor s (zlen t);
  s ← sds_write s oldlen t;
  sdsIncrLen s (zlen t).

Definition sds_step (s : sds) (o : sds_op) : option sds :=
  match o with
  | OCatLen t => sdscatlen s t
  | OGrowZero n => sdsgrowzero s n
  | OClear => sdsclear s
  | OCpyLen t => sdscpylen s t
  | OMakeRoomFor n => sdsMakeRoomFor s n
  | ORemoveFreeSpace => sdsRemoveFreeSpace s
  | ORange a b => sdsrange s a b
  | OSubstr a n => sdssubstr s a n
  | OTrim cset => sdstrim s cset
  | OToLower => Some (sdstolower s)
  | OToUpper => Some (sdstoupper s)
  | OMapChars from to => Some (sdsmapchars s from to)
  | ODup => sdsdup s
  | ORead t => sds_read s t
  end.

Definition sds_spec (c : bytes) (o : sds_op) : bytes :=
  match o with
  | OCatLen t | ORead t => c ++ t
  | OGrowZero n => c ++ replicate (Z.to_nat (n - zlen c)) 0
  | OClear => []
  | OCpyLen t => t
  | OMakeRoomFor _ | ORemoveFreeSpace | ODup => c
  | ORange a b => range_of c a b
  | OSubstr a n => take (Z.to_nat n) (drop (Z.to_nat a) c)
  | OTrim cset => trimmed cset c
  | OToLower => tolower <$> c
  | OToUpper => toupper <$> c
  | OMapChars from to => memmapchars c from to
  end.

(** The sizes stay below 2^62 and the arguments have their C type; what is read
    from the kernel is not empty. *)
Definition sds_op_ok (c : bytes) (o : sds_op) : Prop :=
  match o with
  | OCatLen t => zlen c + zlen t < 2 ^ 62
  | ORead t => t <> [] /\ zlen c + zlen t < 2 ^ 62
  | OGrowZero n => n < 2 ^ 62
  | OCpyLen t => zlen t < 2 ^ 62
  | OMakeRoomFor n => 0 <= n /\ zlen c + n < 2 ^ 62
  | ORange a b => in_s 64 a /\ in_s 64 b
  | OSubstr a n => 0 <= a /\ 0 <= n
  | _ => True
  end.

Lemma sds_read_spec s c t :
  sds_rep s c -> t <> [] -> zlen c + zlen t < 2 ^ 62 -> exists s', sds_read s t = Some s' /\ sds_rep s' (c ++ t).
Proof.
  intros R Ht Hn. pose proof R as [Hh _]. unfold sds_read. rewrite (sdslen_ok s _ Hh).
  destruct (sdsMakeRoomFor_spec s c (zlen t) R (zlen_nonneg t) Hn) as (s1 & -> & [Hh1 [rest Hb]] & Hr).
  cbn [mbind option_bind]. pose proof Hr as (_ & Hlen & _). rewrite Hb, zlen_app in Hlen.
  destruct (append_write s1 c t (0 :: rest) Hb) as (s2 & s3 & rest' & -> & _ & Es2 & _ & Hz2 & _); [lia|].
  cbn [mbind option_bind]. rewrite Es2 in *. cbn [buf set_buf] in Hz2.
  assert (hdr_ok (set_buf s1 (c ++ t ++ drop (length t) (0 :: rest))) (zlen c)) as Hh2.
  { destruct Hh1 as [? ?]. split; [done|]. cbn [flags len alloc buf set_buf]. by rewrite Hz2. }
  destruct (sdsIncrLen_spec _ _ (zlen t) Hh2) as (s' & E & R').
  - by apply set_buf_room.
  - intros E. by apply zlen_0_inv in E.
  - exists s'. split; [done|]. cbn [buf set_buf] in R'. rewrite app_assoc, <-zlen_app in R'.
    unfold zlen in R'. by rewrite Nat2Z.id, take_app_length in R'.
Qed.

Lemma sds_step_spec s c o :
  sds_rep s c -> sds_op_ok c o -> exists s', sds_step s o = Some s' /\ sds_rep s' (sds_spec c o).
Proof.
  intros R Hok. destruct o as [t|n| |t|n| |a b|a n|cset| | |from to| |t]; cbn [sds_step sds_spec]; simpl in Hok.
  - by apply sdscatlen_spec.
  - by apply sdsgrowzero_spec.
  - by apply (sdsclear_spec s c).
  - by apply (sdscpylen_spec s c).
  - destruct (sdsMakeRoomFor_spec s c n R) as (s' & ? & ? & _); [tauto..|]. eauto.
  - destruct (sdsRemoveFreeSpace_spec s c R) as (s' & ? & ? & _). eauto.
  - apply sdsrange_spec; tauto.
  - apply sdssubstr_spec; tauto.
  - by apply sdstrim_spec.
  - eexists. split; [done|]. by apply sds_map_spec.
  - eexists. split; [done|]. by apply sds_map_spec.
  - eexists. split; [done|]. by apply sds_map_spec.
  - unfold sdsdup. rewrite (sds_rep_content s c R). apply sdsnewlen_spec. destruct R as [[[_ ?] _] _]. done.
  - apply sds_read_spec; tauto.
Qed.

Definition sds_run (s : sds) (ops : list sds_op) : option sds := foldl (fun s o => s ≫= fun s => sds_step s o) (Some s) ops.

Fixpoint sds_ops_ok (c : bytes) (ops : list sds_op) : Prop :=
  match ops with
  | [] => True
  | o :: ops => sds_op_ok c o /\ sds_ops_ok (sds_spec c o) ops
  end.

Lemma sds_run_spec ops : forall s c, sds_rep s c -> sds_ops_ok c ops ->
  exists s', sds_run s ops = Some s' /\ sds_rep s' (foldl sds_spec c ops).
Proof.
  induction ops as [|o ops IH]; intros s c R Hok; [by exists s|]. destruct Hok as [Ho Hok].
  destruct (sds_step_spec s c o R Ho) as (s1 & E & R1). unfold sds_run. cbn [foldl mbind option_bind]. rewrite E.
  by apply IH.
Qed.

(** C9: Any sequence of string operations on a new sds (appending, growing,
    copying over, making room, removing free space, ranges, substrings,
    trimming, case and character mapping, duplication, reading into the free
    space) succeeds without a failed assertion or an access outside of the
    allocation and leaves a string whose header, whatever its type, and whose
    memory stand for the byte string the operations denote, terminated by a
    zero. *)
Theorem sds_refines_bytes init ops :
  zlen init < 2 ^ 62 -> sds_ops_ok init ops ->
  exists s0 s, sdsnewlen init = Some s0 /\ sds_run s0 ops = Some s /\ sds_rep s (foldl sds_spec init ops) /\
    sdslen s = zlen (foldl sds_spec init ops) /\ sds_content s = foldl sds_spec init ops.
Proof.
  intros Hn Hok. destruct (sdsnewlen_spec init Hn) as (s0 & E0 & R0).
  destruct (sds_run_spec ops s0 init R0 Hok) as (s & E & R). exists s0, s. split; [done|]. split; [done|].
  split; [done|]. split; [apply sdslen_ok; apply R|by apply sds_rep_content].
Qed.

End sds.

(** ** Functions on contents *)

(** memcmp over the common length, and sdscmp; the sign of the int the
    functions return. *)
Fixpoint memcmp (a b : bytes) : comparison :=
  match a, b with
  | x :: a, y :: b => match x ?= y with Eq => memcmp a b | c => c end
  | _, _ => Eq
  end.

Definition sdscmp (s1 s2 : bytes) : comparison :=
  match memcmp s1 s2 with Eq => zlen s1 ?= zlen s2 | c => c end.

Lemma sdscmp_cons x a y b : sdscmp (x :: a) (y :: b) = match x ?= y with Eq => sdscmp a b | c => c end.
Proof.
  unfold sdscmp. cbn [memcmp]. destruct (x ?= y); [|done..]. destruct (memcmp a b); [|done..].
  rewrite !zlen_cons. destruct (Z.compare_spec (zlen a) (zlen b)), (Z.compare_spec (1 + zlen a) (1 + zlen b)); done || lia.
Qed.

Lemma sdscmp_nil_r x a : sdscmp (x :: a) [] = Gt.
Proof. done. Qed.

Lemma sdscmp_refl a : sdscmp a a = Eq.
Proof. induction a as [|x a IH]; [done|]. by rewrite sdscmp_cons, Z.compare_refl. Qed.

Lemma sdscmp_eq a b : sdscmp a b = Eq <-> a = b.
Proof.
  split; [|intros ->; apply sdscmp_refl]. revert b.
  induction a as [|x a IH]; intros [|y b]; try done. rewrite sdscmp_cons.
  destruct (Z.compare_spec x y); try done. subst. by intros ->%IH.
Qed.

Lemma sdscmp_antisym a b : sdscmp b a = CompOpp (sdscmp a b).
Proof.
  revert b. induction a as [|x a IH]; intros [|y b]; try done. rewrite !sdscmp_cons, IH.
  rewrite (Z.compare_antisym x y). by destruct (x ?= y).
Qed.

Lemma sdscmp_trans a b c : sdscmp a b = Lt -> sdscmp b c = Lt -> sdscmp a c = Lt.
Proof.
  revert b c. induction a as [|x a IH]; intros [|y b] [|z c]; try done. rewrite !sdscmp_cons.
  destruct (Z.compare_spec x y), (Z.compare_spec y z); try done; subst.
  - rewrite Z.compare_refl. apply IH.
  - intros _ _. by rewrite (proj2 (Z.compare_lt_iff _ _)) by lia.
  - intros _ _. by rewrite (proj2 (Z.compare_lt_iff _ _)) by lia.
  - intros _ _. by rewrite (proj2 (Z.compare_lt_iff _ _)) by lia.
Qed.

(** [memcmp(s+j,sep,seplen) == 0] *)
Definition sep_at (s sep : bytes) (j : Z) : option bool :=
  w ← mload s j (zlen sep); Some (bool_decide (w = sep)).

(** The loop of sdssplitlen; [tokens] are those found so far. *)
Fixpoint split_loop (fuel : nat) (s sep : bytes) (start j : Z) (tokens : list bytes) : option (list bytes * Z) :=
  match fuel with
  | O => None
  | S fuel =>
    if j <? zlen s - (zlen sep - 1) then
      m ← sep_at s sep j;
      if m : bool then
        tok ← mload s start (j - start);
        split_loop fuel s sep (j + zlen sep) (j + zlen sep) (tokens ++ [tok])
      else split_loop fuel s sep start (j + 1) tokens
    else Some (tokens, start)
  end.

(** The outer [option] is an invalid access, the inner one NULL. *)
Definition sdssplitlen (s sep : bytes) : option (option (list bytes)) :=
  if zlen sep <? 1 then Some None
  else if zlen s =? 0 then Some (Some [])
  else
    '(tokens, start) ← split_loop (S (length s)) s sep 0 0 [];
    tok ← mload s start (zlen s - start);
    Some (Some (tokens ++ [tok])).

Fixpoint sdsjoinsds (argv : list bytes) (sep : bytes) : bytes :=
  match argv with
  | [] => []
  | [a] => a
  | a :: argv => a ++ sep ++ sdsjoinsds argv sep
  end.

(** isprint, isspace and [%02x] in the C locale. *)
Definition isprint (c : Z) : bool := (32 <=? c) && (c <=? 126).
Definition isspace (c : Z) : bool := ((9 <=? c) && (c <=? 13)) || (c =? 32).
Definition hexdigit (v : Z) : Z := if v <? 10 then 48 + v else 87 + v.

(** What sdscatrepr appends for one byte. *)
Definition repr_char (c : Z) : bytes :=
  if (c =? 92) || (c =? 34) then [92; c]
  else if c =? 10 then [92; 110]
  else if c =? 13 then [92; 114]
  else if c =? 9 then [92; 116]
  else if c =? 7 then [92; 97]
  else if c =? 8 then [92; 98]
  else if isprint c then [c]
  else [92; 120; hexdigit (c / 16); hexdigit (c mod 16)].

Definition sdscatrepr (s p : bytes) : bytes := s ++ [34] ++ concat (repr_char <$> p) ++ [34].

Definition is_hex_digit (c : Z) : bool :=
  ((48 <=? c) && (c <=? 57)) || ((97 <=? c) && (c <=? 102)) || ((65 <=? c) && (c <=? 70)).

Definition hex_digit_to_int (c : Z) : Z :=
  if (48 <=? c) && (c <=? 57) then c - 48
  else if (97 <=? c) && (c <=? 102) then c - 87
  else if (65 <=? c) && (c <=? 70) then c - 55
  else 0.

(** [*p], [*(p+1)], ...: the terminator after the last byte. *)
Definition at_ (p : bytes) (i : nat) : Z := default 0 (p !! i).

(** [inq], [insq]. *)
Inductive quoting := NoQuotes | InQuotes | InSingleQuotes.

(** The loop that reads a token: the token and what is left of the line;
    [None] is the jump to [err]. *)
Fixpoint token_loop (fuel : nat) (q : quoting) (p current : bytes) : option (bytes * bytes) :=
  match fuel with
  | O => None
  | S fuel =>
    let c := at_ p 0 in
    match q with
    | InQuotes =>
      if (c =? 92) && (at_ p 1 =? 120) && is_hex_digit (at_ p 2) && is_hex_digit (at_ p 3) then
        token_loop fuel q (drop 4 p) (current ++ [u8 (hex_digit_to_int (at_ p 2) * 16 + hex_digit_to_int (at_ p 3))])
      else if (c =? 92) && negb (at_ p 1 =? 0) then
        let e := at_ p 1 in
        let x := if e =? 110 then 10 else if e =? 114 then 13 else if e =? 116 then 9
                 else if e =? 98 then 8 else if e =? 97 then 7 else e in
        token_loop fuel q (drop 2 p) (current ++ [x])
      else if c =? 34 then
        if negb (at_ p 1 =? 0) && negb (isspace (at_ p 1)) then None else Some (current, drop 1 p)
      else if c =? 0 then None
      else token_loop fuel q (drop 1 p) (current ++ [c])
    | InSingleQuotes =>
      if (c =? 92) && (at_ p 1 =? 39) then token_loop fuel q (drop 2 p) (current ++ [39])
      else if c =? 39 then
        if negb (at_ p 1 =? 0) && negb (isspace (at_ p 1)) then None else Some (current, drop 1 p)
      else if c =? 0 then None
      else token_loop fuel q (drop 1 p) (current ++ [c])
    | NoQuotes =>
      if (c =? 32) || (c =? 10) || (c =? 13) || (c =? 9) then Some (current, drop 1 p)
      else if c =? 0 then Some (current, p)
      else if c =? 34 then token_loop fuel InQuotes (drop 1 p) current
      else if c =? 39 then token_loop fuel InSingleQuotes (drop 1 p) current
      else token_loop fuel q (drop 1 p) (current ++ [c])
    end
  end.

(** Blanks before a token. *)
Fixpoint skip_blanks (p : bytes) : bytes :=
  match p with
  | [] => []
  | c :: p' => if negb (c =? 0) && isspace c then skip_blanks p' else p
  end.

(** The outer loop; a byte 0 inside of [line] ends it as it ends a C string. *)
Fixpoint splitargs_loop (fuel : nat) (p : bytes) (vector : list bytes) : option (list bytes) :=
  match fuel with
  | O => None
  | S fuel =>
    let p := skip_blanks p in
    if at_ p 0 =? 0 then Some vector
    else
      '(tok, p) ← token_loop (S (length p)) NoQuotes p [];
      splitargs_loop fuel p (vector ++ [tok])
  end.

Definition sdssplitargs (line : bytes) : option (list bytes) := splitargs_loop (S (length line)) line [].

(** ** Quoted representation *)

Lemma hexdigit_spec v : 0 <= v < 16 -> is_hex_digit (hexdigit v) = true /\ hex_digit_to_int (hexdigit v) = v.
Proof.
  intros Hv. assert (v ∈ Z.of_nat <$> seq 0 16) as Hin.
  { apply list_elem_of_fmap. exists (Z.to_nat v). split; [lia|]. apply elem_of_seq. lia. }
  clear Hv. revert v Hin. apply Forall_forall. repeat (apply Forall_cons; split; [done|]). apply Forall_nil. done.
Qed.

(** One byte of the representation is read back. *)
Lemma token_repr_char fuel c p cur :
  is_byte c -> token_loop (S fuel) InQuotes (repr_char c ++ p) cur = token_loop fuel InQuotes p (cur ++ [c]).
Proof.
  intros Hc. unfold repr_char. unfold is_byte in Hc.
  destruct (Z.eqb_spec c 92) as [->|N1]; [done|]. destruct (Z.eqb_spec c 34) as [->|N2]; [done|].
  destruct (Z.eqb_spec c 10) as [->|N3]; [done|]. destruct (Z.eqb_spec c 13) as [->|N4]; [done|].
  destruct (Z.eqb_spec c 9) as [->|N5]; [done|]. destruct (Z.eqb_spec c 7) as [->|N6]; [done|].
  destruct (Z.eqb_spec c 8) as [->|N7]; [done|]. cbn [orb]. destruct (isprint c) eqn:Ep.
  - apply andb_true_iff in Ep as [E1%Z.leb_le E2%Z.leb_le]. cbn [token_loop]. change (at_ ([c] ++ p) 0) with c.
    rewrite (proj2 (Z.eqb_neq c 92)), (proj2 (Z.eqb_neq c 34)), (proj2 (Z.eqb_neq c 0)) by lia. done.
  - destruct (hexdigit_spec (c / 16)) as [A1 A2]; [split; [apply Z.div_pos; lia|apply Z.div_lt_upper_bound; lia]|].
    destruct (hexdigit_spec (c mod 16)) as [B1 B2]; [apply Z.mod_pos_bound; lia|].
    cbn [token_loop app]. set (q := 92 :: 120 :: hexdigit (c / 16) :: hexdigit (c mod 16) :: p).
    change (at_ q 0) with 92. change (at_ q 1) with 120. change (at_ q 2) with (hexdigit (c / 16)).
    change (at_ q 3) with (hexdigit (c mod 16)). change (drop 4 q) with p.
    rewrite A1, B1, A2, B2. cbn [andb Z.eqb Pos.eqb].
    replace (c / 16 * 16 + c mod 16) with c by (rewrite (Z.div_mod c 16) at 1; lia). by rewrite uint_small by lia.
Qed.

Lemma token_repr x : forall fuel cur rest,
  Forall is_byte x -> (rest = [] \/ isspace (at_ rest 0) = true) -> (length x < fuel)%nat ->
  token_loop fuel InQuotes (concat (repr_char <$> x) ++ 34 :: rest) cur = Some (cur ++ x, rest).
Proof.
  induction x as [|c x IH]; intros fuel cur rest Hx Hr Hf; (destruct fuel as [|fuel]; [simpl in Hf; lia|]).
  - rewrite app_nil_r. cbn [token_loop concat fmap list_fmap app]. change (at_ (34 :: rest) 0) with 34.
    change (at_ (34 :: rest) 1) with (at_ rest 0). cbn [Z.eqb Pos.eqb andb].
    destruct Hr as [->|Hr]; [done|]. rewrite Hr. by rewrite andb_false_r.
  - apply Forall_cons in Hx as [Hc Hx]. rewrite fmap_cons. cbn [concat]. rewrite <-app_assoc, token_repr_char by done.
    rewrite IH by (done || simpl in Hf; lia). by rewrite <-app_assoc.
Qed.

Lemma length_repr x : (length x <= length (concat (repr_char <$> x)))%nat.
Proof.
  induction x as [|c x IH]; [done|]. rewrite fmap_cons. cbn [concat length]. rewrite length_app.
  assert (1 <= length (repr_char c))%nat; [|lia]. unfold repr_char. repeat case_match; simpl; lia.
Qed.

(** One argument is read back from its representation. *)
Lemma token_sdscatrepr x rest :
  Forall is_byte x -> (rest = [] \/ isspace (at_ rest 0) = true) ->
  token_loop (S (length (sdscatrepr [] x ++ rest))) NoQuotes (sdscatrepr [] x ++ rest) [] = Some (x, rest).
Proof.
  intros Hx Hr. set (n := length (sdscatrepr [] x ++ rest)). unfold sdscatrepr. rewrite app_nil_l, <-!app_assoc. cbn [app].
  cbn [token_loop]. change (at_ (34 :: _) 0) with 34. cbn [Z.eqb Pos.eqb orb]. change (drop 1 (34 :: ?l)) with l.
  apply (token_repr x n [] rest Hx Hr). subst n. unfold sdscatrepr. rewrite !length_app. pose proof (length_repr x). simpl. lia.
Qed.

Lemma splitargs_join args : forall fuel vector,
  Forall (Forall is_byte) args -> (length args < fuel)%nat ->
  splitargs_loop fuel (sdsjoinsds (sdscatrepr [] <$> args) [32]) vector = Some (vector ++ args).
Proof.
  induction args as [|a args IH]; intros fuel vector Ha Hf; (destruct fuel as [|fuel]; [simpl in Hf; lia|]).
  { by rewrite app_nil_r. }
  apply Forall_cons in Ha as [Ha Has]. cbn [splitargs_loop].
  assert (exists rest, sdsjoinsds (sdscatrepr [] <$> a :: args) [32] = sdscatrepr [] a ++ rest /\
    (rest = [] \/ isspace (at_ rest 0) = true) /\
    forall v, splitargs_loop fuel rest v = splitargs_loop fuel (sdsjoinsds (sdscatrepr [] <$> args) [32]) v)
    as (rest & -> & Hr & Hnext).
  { destruct args as [|b args]; [exists []; rewrite app_nil_r; auto|].
    exists (32 :: sdsjoinsds (sdscatrepr [] <$> b :: args) [32]). split; [done|]. split; [by right|].
    intros v. destruct fuel; [done|]. done. }
  assert (skip_blanks (sdscatrepr [] a ++ rest) = sdscatrepr [] a ++ rest) as -> by done.
  change (at_ (sdscatrepr [] a ++ rest) 0) with 34. cbn [Z.eqb]. rewrite token_sdscatrepr by done. cbn [mbind option_bind].
  rewrite Hnext, IH by (done || simpl in Hf; lia). by rewrite <-app_assoc.
Qed.

Lemma length_join_repr args : (length args <= length (sdsjoinsds (sdscatrepr [] <$> args) [32%Z]))%nat.
Proof.
  induction args as [|a args IH]; [done|]. destruct args as [|b args]; [unfold sdscatrepr; simpl; rewrite !length_app; simpl; lia|].
  change (sdsjoinsds (sdscatrepr [] <$> a :: b :: args) [32]) with
    (sdscatrepr [] a ++ [32] ++ sdsjoinsds (sdscatrepr [] <$> b :: args) [32]).
  rewrite !length_app. simpl length in *. lia.
Qed.

Lemma sdssplitargs_line args :
  Forall (Forall is_byte) args -> sdssplitargs (sdsjoinsds (sdscatrepr [] <$> args) [32]) = Some args.
Proof.
  intros Ha. unfold sdssplitargs. rewrite splitargs_join; [done|done|]. pose proof (length_join_repr args). lia.
Qed.

(** The representation has only printable characters. *)
Lemma repr_printable args :
  Forall (Forall is_byte) args -> Forall (fun b => 32 <= b <= 126) (sdsjoinsds (sdscatrepr [] <$> args) [32]).
Proof.
  assert (forall a, Forall is_byte a -> Forall (fun b => 32 <= b <= 126) (sdscatrepr [] a)) as Hr.
  { intros a Ha. unfold sdscatrepr. simpl. constructor; [lia|]. apply Forall_app. split; [|by repeat constructor; lia].
    induction Ha as [|c a Hc Ha IH]; [constructor|]. rewrite fmap_cons. cbn [concat]. apply Forall_app. split; [|done].
    unfold is_byte in Hc. unfold repr_char. pose proof (Z.mod_pos_bound c 16 ltac:(lia)). pose proof (Z.div_mod c 16 ltac:(lia)).
    destruct (_ || _) eqn:E0; [repeat constructor; lia|].
    repeat (destruct (c =? _); [repeat constructor; lia|]).
    destruct (isprint c) eqn:Ep; [unfold isprint in Ep; repeat constructor; lia|].
    unfold hexdigit. repeat constructor; (lia || (case_match; lia)). }
  induction 1 as [|a args Ha Hargs IH]; [constructor|]. destruct args as [|b args]; [by apply Hr|].
  change (sdsjoinsds (sdscatrepr [] <$> a :: b :: args) [32]) with
    (sdscatrepr [] a ++ [32] ++ sdsjoinsds (sdscatrepr [] <$> b :: args) [32]).
  apply Forall_app. split; [by apply Hr|]. constructor; [lia|done].
Qed.

(** C25: sdssplitargs reads back what sdscatrepr writes: a line made of the
    quoted representations of any byte strings, separated by spaces, is split
    into exactly those strings. *)
Theorem sdssplitargs_repr_roundtrip args :
  Forall (Forall is_byte) args -> sdssplitargs (sdsjoinsds (sdscatrepr [] <$> args) [32]) = Some args.
Proof.
  exact (sdssplitargs_line args).
Qed.

Lemma sdssplitargs_repr_roundtrip_witness :
  Forall (Forall is_byte) [[0; 255; 34]; []; str "a b"] /\
  sdssplitargs (sdsjoinsds (sdscatrepr [] <$> [[0; 255; 34]; []; str "a b"]) [32]) = Some [[0; 255; 34]; []; str "a b"].
Proof.
  assert (Forall (Forall is_byte) [[0; 255; 34]; []; str "a b"]) as H
    by (refine (bool_decide_eq_true_1 _ _); vm_compute; reflexivity).
  split; [exact H|]. exact (sdssplitargs_repr_roundtrip _ H).
Defined.

(** ** Splitting and joining *)

(** The separator does not occur in a token. *)
Definition no_sep (sep t : bytes) : Prop := forall p, mload t p (zlen sep) <> Some sep.

Lemma mload_sub (s : bytes) start n p k w :
  mload (take (Z.to_nat n) (drop (Z.to_nat start) s)) p k = Some w -> 0 <= start <= zlen s -> 0 <= n ->
  mload s (start + p) k = Some w /\ 0 <= p /\ p + k <= n.
Proof.
  intros H Hs Hn. unfold mload in *. revert H. case_bool_decide as Hb; [|done]. intros [= <-].
  unfold zlen in Hb, Hs. rewrite length_take, length_drop in Hb.
  rewrite bool_decide_true by (unfold zlen; lia). split; [|lia]. f_equal.
  rewrite skipn_firstn_comm, take_take, drop_drop. f_equal; [lia|]. f_equal. lia.
Qed.

Lemma mload_range (s : bytes) start n : 0 <= start -> 0 <= n -> start + n <= zlen s ->
  mload s start n = Some (take (Z.to_nat n) (drop (Z.to_nat start) s)).
Proof. intros ? ? ?. unfold mload. by rewrite bool_decide_true. Qed.

Definition with_sep (sep : bytes) (toks : list bytes) : bytes := concat ((fun t => t ++ sep) <$> toks).

(** The loop cuts the string at the occurrences of the separator. *)
Lemma split_loop_spec s sep fuel : 1 <= zlen sep -> forall start j toks,
  0 <= start <= j -> j <= zlen s -> (forall p, start <= p < j -> mload s p (zlen sep) <> Some sep) ->
  zlen s - j < Z.of_nat fuel ->
  exists T st, split_loop fuel s sep start j toks = Some (toks ++ T, st) /\ Forall (no_sep sep) T /\
    0 <= st <= zlen s /\ drop (Z.to_nat start) s = with_sep sep T ++ drop (Z.to_nat st) s /\
    (forall p, st <= p -> mload s p (zlen sep) <> Some sep).
Proof.
  intros Hsep. induction fuel as [|fuel IH]; intros start j toks Hsj Hj Hno Hf; [lia|]. cbn [split_loop].
  destruct (Z.ltb_spec j (zlen s - (zlen sep - 1))) as [Hlt|Hge].
  - unfold sep_at. rewrite (mload_range s j (zlen sep)) by lia. cbn [mbind option_bind].
    case_bool_decide as Hm; [|apply IH; try lia].
    + rewrite mload_range by lia. cbn [mbind option_bind].
      set (tok := take (Z.to_nat (j - start)) (drop (Z.to_nat start) s)).
      destruct (IH (j + zlen sep) (j + zlen sep) (toks ++ [tok])) as (T & st & -> & HT & Hst & Ed & Hend); [lia|lia|lia|lia|].
      exists (tok :: T), st. split; [by rewrite <-app_assoc|]. split; [|split; [done|split; [|done]]].
      * constructor; [|done]. intros p Hp. apply mload_sub in Hp as (Hp & Hp1 & Hp2); [|lia|lia].
        apply (Hno (start + p)); [lia|done].
      * unfold with_sep. rewrite fmap_cons. cbn [concat]. fold (with_sep sep T). rewrite <-!app_assoc, <-Ed.
        rewrite <-(take_drop (Z.to_nat (j - start)) (drop (Z.to_nat start) s)) at 1. fold tok. f_equal.
        rewrite drop_drop. replace (Z.to_nat start + Z.to_nat (j - start))%nat with (Z.to_nat j) by lia.
        rewrite <-Hm at 1. rewrite <-(take_drop (Z.to_nat (zlen sep)) (drop (Z.to_nat j) s)) at 1. f_equal.
        rewrite drop_drop. f_equal. lia.
    + intros p Hp. destruct (decide (p = j)) as [->|]; [|apply Hno; lia].
      rewrite mload_range by lia. by intros [= ?].
  - exists [], start. rewrite app_nil_r. split; [done|]. split; [done|]. split; [lia|]. split; [done|].
    intros p Hp. destruct (decide (p < j)); [apply Hno; lia|]. intros (a & c & Es & Hz & _)%mload_Some.
    apply (f_equal zlen) in Es. rewrite !zlen_app in Es. pose proof (zlen_nonneg c). lia.
Qed.

Lemma sdsjoinsds_snoc T t sep : sdsjoinsds (T ++ [t]) sep = with_sep sep T ++ t.
Proof.
  induction T as [|a T IH]; [done|]. change ((a :: T) ++ [t]) with (a :: (T ++ [t])).
  assert (sdsjoinsds (a :: (T ++ [t])) sep = a ++ sep ++ sdsjoinsds (T ++ [t]) sep) as -> by (by destruct T).
  rewrite IH. unfold with_sep. rewrite fmap_cons. cbn [concat]. by rewrite <-!app_assoc.
Qed.

(** C26: sdssplitlen splits at every separator: none of the tokens contains it,
    and joining them with it gives the string back.  The empty string gives an
    empty array, not the NULL that the comment of the function announces. *)
Theorem sdssplitlen_join_roundtrip s sep :
  sep <> [] ->
  exists toks, sdssplitlen s sep = Some (Some toks) /\ sdsjoinsds toks sep = s /\ Forall (no_sep sep) toks /\
    (s = [] <-> toks = []).
Proof.
  intros Hne. assert (1 <= zlen sep) as Hsep by (destruct sep; [done|]; rewrite zlen_cons; pose proof (zlen_nonneg sep); lia).
  unfold sdssplitlen. destruct (Z.ltb_spec (zlen sep) 1); [lia|]. destruct (Z.eqb_spec (zlen s) 0) as [E|E].
  { apply zlen_0_inv in E as ->. by exists []. }
  destruct (split_loop_spec s sep (S (length s)) Hsep 0 0 []) as (T & st & -> & HT & Hst & Ed & Hend);
    [lia|apply zlen_nonneg|lia|unfold zlen; lia|].
  cbn [mbind option_bind]. rewrite mload_range by lia. cbn [mbind option_bind app].
  set (t := take _ _). assert (t = drop (Z.to_nat st) s) as Et.
  { subst t. apply take_ge. rewrite length_drop. unfold zlen. lia. }
  exists (T ++ [t]). split; [done|]. split; [by rewrite sdsjoinsds_snoc, Et, <-Ed|]. split.
  - apply Forall_app. split; [done|]. constructor; [|done]. intros p Hp.
    apply mload_sub in Hp as (Hp & Hp1 & _); [|lia|lia]. apply (Hend (st + p)); [lia|done].
  - split; [intros ->; by destruct E|]. intros [_ ?]%app_eq_nil. done.
Qed.

Lemma sdssplitlen_join_roundtrip_witness :
  str "--" <> [] /\ exists toks, sdssplitlen (str "a---b--") (str "--") = Some (Some toks) /\
    sdsjoinsds toks (str "--") = str "a---b--" /\ Forall (no_sep (str "--")) toks /\ (str "a---b--" = [] <-> toks = []).
Proof. split; [discriminate|]. apply sdssplitlen_join_roundtrip. discriminate. Defined.

Definition sample_usable (n : Z) : Z := n + n mod 8.
Definition sample_sds_ops : list sds_op :=
  [OCatLen (str " world "); ORead (str "x"); OTrim (str "x "); OGrowZero 300; ORange 0 (-290); OMakeRoomFor 70000;
   OToUpper; ORemoveFreeSpace; OMapChars (str "L") (str "l"); OSubstr 1 4].

Lemma sds_refines_bytes_witness :
  exists s0 s, sdsnewlen sample_usable (fun _ => 170) (str "hello") = Some s0 /\
    sds_run sample_usable (fun _ => 170) s0 sample_sds_ops = Some s /\ sds_content s = str "EllO".
Proof.
  destruct (sds_refines_bytes sample_usable (fun _ => 170)
              ltac:(intros n; unfold sample_usable; pose proof (Z.mod_pos_bound n 8); lia) (str "hello") sample_sds_ops)
    as (s0 & s & H1 & H2 & _ & _ & H3).
  - vm_compute. reflexivity.
  - vm_compute. intuition discriminate.
  - exists s0, s. split; [exact H1|]. split; [exact H2|]. rewrite H3. vm_compute. reflexivity.
Defined.

(** sdstrim also removes zero bytes, which no C string [cset] can contain:
    strchr finds the terminator of [cset]. *)
Theorem sdstrim_removes_nul cset c : forallb (Z.eqb 0) c = true -> trimmed cset c = [].
Proof.
  intros Hc. unfold trimmed. assert (drop_while (strchr_set cset) c = []) as ->; [|done].
  induction c as [|x c IH]; [done|]. cbn [forallb] in Hc. apply andb_true_iff in Hc as [<-%Z.eqb_eq Hc]. by apply IH.
Qed.
