(* ===== verification/Skiplist.v ===== *)
(** * t_zset.c: the skiplist of sorted sets

    Nodes live in a heap, a finite map from addresses to nodes; pointers are
    addresses and NULL is [None].  Scores are any type with the order of the
    doubles that are not NaN ([ScoreOrder]): distinct representations may
    compare equal, as 0.0 and -0.0 do.  The address zmalloc returns, the level
    zslRandomLevel draws and the initial content of fresh memory are arguments.
    A result [None] stands for a NULL or wild dereference or a failed
    assertion.  [zsl_inv] ties the pointers, spans and counters of the heap to
    the sorted list of nodes the skiplist stands for. *)

From S2P Require Import Prelude Sds.

Definition ZSKIPLIST_MAXLEVEL : nat := 32.

(** The comparison of scores: a strict weak order. *)
Class ScoreOrder (Sc : Type) := {
  score_lt : Sc -> Sc -> bool;
  score_irrefl a : score_lt a a = false;
  score_trans a b c : score_lt a b = true -> score_lt b c = true -> score_lt a c = true;
  score_cotrans a b c : score_lt a c = true -> score_lt a b = true \/ score_lt b c = true;
}.

(** [a == b] *)
Definition score_eq {Sc} `{ScoreOrder Sc} (a b : Sc) : bool := negb (score_lt a b) && negb (score_lt b a).

Abbreviation loc := positive.

Record zskiplistLevel := mk_level { forward : option loc; span : Z }.

Record zskiplistNode (Sc : Type) := mk_node {
  ele : option bytes;          (** NULL in the header *)
  score : Sc;
  backward : option loc;
  levels : list zskiplistLevel;
}.
Arguments mk_node {Sc}.
Arguments ele {Sc}.
Arguments score {Sc}.
Arguments backward {Sc}.
Arguments levels {Sc}.

Record zskiplist := mk_zsl {
  header : loc;
  tail : option loc;
  length_ : Z;
  level : nat;
}.

Record zrangespec (Sc : Type) := mk_range { zmin : Sc; zmax : Sc; minex : bool; maxex : bool }.
Arguments mk_range {Sc}.
Arguments zmin {Sc}.
Arguments zmax {Sc}.
Arguments minex {Sc}.
Arguments maxex {Sc}.

Section skiplist.
Context {Sc : Type} `{ScoreOrder Sc}.

Abbreviation node := (zskiplistNode Sc).
Abbreviation heap := (gmap loc node).

(** ** Accesses *)

(** [x->level[i]] *)
Definition level_at (h : heap) (x : loc) (i : nat) : option zskiplistLevel := n ← h !! x; levels n !! i.

(** Write [x->level[i]], [x->backward] and [x->score]. *)
Definition set_level (h : heap) (x : loc) (i : nat) (f : zskiplistLevel -> zskiplistLevel) : option heap :=
  n ← h !! x; l ← levels n !! i;
  Some (<[x := mk_node (ele n) (score n) (backward n) (<[i := f l]> (levels n))]> h).
Definition set_backward (h : heap) (x : loc) (b : option loc) : option heap :=
  n ← h !! x; Some (<[x := mk_node (ele n) (score n) b (levels n)]> h).
Definition set_score (h : heap) (x : loc) (s : Sc) : option heap :=
  n ← h !! x; Some (<[x := mk_node (ele n) s (backward n) (levels n)]> h).

(** ** Operations *)

(** [garbage] is what the fields that are not set contain after zmalloc. *)
Definition zslCreateNode (garbage : option loc * zskiplistLevel) (lvl : nat) (s : Sc) (e : option bytes) : node :=
  mk_node e s garbage.1 (replicate lvl garbage.2).

(** [hd] is the address of the header, [zero] the score 0. *)
Definition zslCreate (zero : Sc) (hd : loc) (h : heap) : heap * zskiplist :=
  (<[hd := mk_node None zero None (replicate ZSKIPLIST_MAXLEVEL (mk_level None 0))]> h,
   mk_zsl hd None 0 1).

(** zslRandomLevel: [draws] are the results of random(); a draw below a quarter
    of 0xFFFF adds a level. *)
Fixpoint zslRandomLevel_loop (draws : list Z) (lvl : Z) : option Z :=
  match draws with
  | [] => None
  | r :: draws => if Z.land r 0xFFFF * 4 <? 0xFFFF then zslRandomLevel_loop draws (lvl + 1) else Some lvl
  end.
Definition zslRandomLevel (draws : list Z) : option Z :=
  lvl ← zslRandomLevel_loop draws 1;
  Some (if lvl <? Z.of_nat ZSKIPLIST_MAXLEVEL then lvl else Z.of_nat ZSKIPLIST_MAXLEVEL).

(** The test of the search loops:
    [y->score < score || (y->score == score && sdscmp(y->ele,ele) < 0)]. *)
Definition before_key (s : Sc) (e : bytes) (y : node) : option bool :=
  if score_lt (score y) s then Some true
  else if score_eq (score y) s then
    ey ← ele y; Some (bool_decide (sdscmp ey e = Lt))
  else Some false.

(** The same with [sdscmp(y->ele,ele) <= 0]. *)
Definition upto_key (s : Sc) (e : bytes) (y : node) : option bool :=
  if score_lt (score y) s then Some true
  else if score_eq (score y) s then
    ey ← ele y; Some (bool_decide (sdscmp ey e <> Gt))
  else Some false.

(** [while (x->level[i].forward && test) { rank += span; x = forward; }];
    [wrap] is the width of the counter. *)
Fixpoint walk (fuel : nat) (wrap : Z) (h : heap) (test : node -> option bool) (i : nat) (x : loc) (rank : Z)
    : option (loc * Z) :=
  match fuel with
  | O => None
  | S fuel =>
    l ← level_at h x i;
    match forward l with
    | None => Some (x, rank)
    | Some y =>
      ny ← h !! y; b ← test ny;
      if b : bool then walk fuel wrap h test i y (uint wrap (rank + span l)) else Some (x, rank)
    end
  end.

(** [for (i = zsl->level-1; i >= 0; i--)]: the node and the count at each
    level, level 0 first ([update] and [rank]); [loop] is the inner loop. *)
Fixpoint descend (loop : nat -> loc -> Z -> option (loc * Z)) (lvl : nat) (x : loc) (rank : Z)
    : option (list (loc * Z)) :=
  match lvl with
  | O => Some []
  | S i =>
    '(x, rank) ← loop i x rank;
    rest ← descend loop i x rank;
    Some (rest ++ [(x, rank)])
  end.

(** Enough steps for any walk. *)
Definition walk_fuel (zsl : zskiplist) : nat := S (Z.to_nat (length_ zsl)).

(** Raise the level of the list: [for (i = zsl->level; i < level; i++)]. *)
Fixpoint raise_levels (n : nat) (h : heap) (hd : loc) (i : nat) (len : Z) : option heap :=
  match n with
  | O => Some h
  | S n =>
    h ← set_level h hd i (fun l => mk_level (forward l) len);
    raise_levels n h hd (i + 1) len
  end.

(** [for (i = 0; i < level; i++)]: link the new node at each of its levels. *)
Fixpoint link_levels (n : nat) (h : heap) (x : loc) (update : list (loc * Z)) (rank0 : Z) (i : nat) : option heap :=
  match n with
  | O => Some h
  | S n =>
    '(u, rank) ← update !! i;
    l ← level_at h u i;
    h ← set_level h x i (fun _ => mk_level (forward l) (u64 (span l - u32 (rank0 - rank))));
    h ← set_level h u i (fun _ => mk_level (Some x) (u64 (u32 (u32 (rank0 - rank) + 1))));
    link_levels n h x update rank0 (i + 1)
  end.

(** [for (i = level; i < zsl->level; i++)]: the levels above the new node. *)
Fixpoint bump_levels (n : nat) (h : heap) (update : list (loc * Z)) (i : nat) : option heap :=
  match n with
  | O => Some h
  | S n =>
    '(u, _) ← update !! i;
    h ← set_level h u i (fun l => mk_level (forward l) (u64 (span l + 1)));
    bump_levels n h update (i + 1)
  end.

(** [lvl] is the level drawn, [x] the address of the new node. *)
Definition zslInsert (garbage : option loc * zskiplistLevel) (h : heap) (zsl : zskiplist) (s : Sc) (e : bytes)
    (lvl : nat) (x : loc) : option (heap * zskiplist) :=
  update ← descend (walk (walk_fuel zsl) 32 h (before_key s e)) (level zsl) (header zsl) 0;
  h ← raise_levels (lvl - level zsl) h (header zsl) (level zsl) (length_ zsl);
  let update := update ++ replicate (lvl - level zsl) (header zsl, 0) in
  let zlevel := Nat.max lvl (level zsl) in
  let h := <[x := zslCreateNode garbage lvl s (Some e)]> h in
  '(u0, rank0) ← update !! 0%nat;
  h ← link_levels lvl h x update rank0 0;
  h ← bump_levels (zlevel - lvl) h update lvl;
  h ← set_backward h x (if bool_decide (u0 = header zsl) then None else Some u0);
  l0 ← level_at h x 0;
  '(h, tl) ← match forward l0 with
             | Some y => h ← set_backward h y (Some x); Some (h, tail zsl)
             | None => Some (h, Some x)
             end;
  Some (h, mk_zsl (header zsl) tl (u64 (length_ zsl + 1)) zlevel).

(** [for (i = 0; i < zsl->level; i++)] of zslDeleteNode. *)
Fixpoint unlink_levels (n : nat) (h : heap) (x : loc) (update : list (loc * Z)) (i : nat) : option heap :=
  match n with
  | O => Some h
  | S n =>
    '(u, _) ← update !! i;
    l ← level_at h u i;
    h ← (if bool_decide (forward l = Some x) then
           lx ← level_at h x i;
           set_level h u i (fun l => mk_level (forward lx) (u64 (span l + u64 (span lx - 1))))
         else set_level h u i (fun l => mk_level (forward l) (u64 (span l - 1))));
    unlink_levels n h x update (i + 1)
  end.

(** [while(zsl->level > 1 && ...)] *)
Fixpoint lower_level (h : heap) (hd : loc) (lvl : nat) : option nat :=
  match lvl with
  | S (S _ as lvl') =>
    l ← level_at h hd lvl';
    match forward l with None => lower_level h hd lvl' | Some _ => Some lvl end
  | _ => Some lvl
  end.

Definition zslDeleteNode (h : heap) (zsl : zskiplist) (x : loc) (update : list (loc * Z)) : option (heap * zskiplist) :=
  h ← unlink_levels (level zsl) h x update 0;
  nx ← h !! x;
  l0 ← level_at h x 0;
  '(h, tl) ← match forward l0 with
             | Some y => h ← set_backward h y (backward nx); Some (h, tail zsl)
             | None => Some (h, backward nx)
             end;
  lvl ← lower_level h (header zsl) (level zsl);
  Some (h, mk_zsl (header zsl) tl (u64 (length_ zsl - 1)) lvl).

(** zslFreeNode *)
Definition zslFreeNode (h : heap) (x : loc) : heap := delete x h.

(** [true] when the node was found; it is freed when [node] is NULL ([free]),
    otherwise its address is returned. *)
Definition zslDelete (h : heap) (zsl : zskiplist) (s : Sc) (e : bytes) (free : bool)
    : option (heap * zskiplist * option loc) :=
  update ← descend (walk (walk_fuel zsl) 32 h (before_key s e)) (level zsl) (header zsl) 0;
  '(u0, _) ← update !! 0%nat;
  l0 ← level_at h u0 0;
  match forward l0 with
  | None => Some (h, zsl, None)
  | Some x =>
    nx ← h !! x;
    ex ← ele nx;
    if score_eq s (score nx) && bool_decide (sdscmp ex e = Eq) then
      '(h, zsl) ← zslDeleteNode h zsl x update;
      Some (if free then zslFreeNode h x else h, zsl, Some x)
    else Some (h, zsl, None)
  end.

(** Returns the address of the node that holds the element: the same node when
    it can stay in place, the new node [newx] of level [lvl] otherwise. *)
Definition zslUpdateScore (garbage : option loc * zskiplistLevel) (h : heap) (zsl : zskiplist) (curscore : Sc)
    (e : bytes) (newscore : Sc) (lvl : nat) (newx : loc) : option (heap * zskiplist * loc) :=
  update ← descend (walk (walk_fuel zsl) 32 h (before_key curscore e)) (level zsl) (header zsl) 0;
  '(u0, _) ← update !! 0%nat;
  l0 ← level_at h u0 0;
  x ← forward l0;
  nx ← h !! x;
  ex ← ele nx;
  if negb (score_eq curscore (score nx) && bool_decide (sdscmp ex e = Eq)) then None
  else
    lx ← level_at h x 0;
    bok ← match backward nx with
          | None => Some true
          | Some b => nb ← h !! b; Some (score_lt (score nb) newscore)
          end;
    fok ← match forward lx with
          | None => Some true
          | Some f => nf ← h !! f; Some (score_lt newscore (score nf))
          end;
    if (bok : bool) && (fok : bool) then
      h ← set_score h x newscore; Some (h, zsl, x)
    else
      '(h, zsl) ← zslDeleteNode h zsl x update;
      '(h, zsl) ← zslInsert garbage h zsl newscore ex lvl newx;
      Some (zslFreeNode h x, zsl, newx).

Definition zslValueGteMin (value : Sc) (spec : zrangespec Sc) : bool :=
  if minex spec then score_lt (zmin spec) value else negb (score_lt value (zmin spec)).

Definition zslValueLteMax (value : Sc) (spec : zrangespec Sc) : bool :=
  if maxex spec then score_lt value (zmax spec) else negb (score_lt (zmax spec) value).

Definition zslIsInRange (h : heap) (zsl : zskiplist) (range : zrangespec Sc) : option bool :=
  if score_lt (zmax range) (zmin range) ||
     (score_eq (zmin range) (zmax range) && (minex range || maxex range)) then Some false
  else
    match tail zsl with
    | None => Some false
    | Some x =>
      nx ← h !! x;
      if negb (zslValueGteMin (score nx) range) then Some false
      else
        l0 ← level_at h (header zsl) 0;
        match forward l0 with
        | None => Some false
        | Some x => nx ← h !! x; Some (zslValueLteMax (score nx) range)
        end
    end.

(** The node where the last loop stops. *)
Definition descend_last (update : list (loc * Z)) (hd : loc) : loc :=
  match update !! 0%nat with Some (x, _) => x | None => hd end.

Definition zslFirstInRange (h : heap) (zsl : zskiplist) (range : zrangespec Sc) : option (option loc) :=
  inrange ← zslIsInRange h zsl range;
  if negb inrange then Some None
  else
    update ← descend (walk (walk_fuel zsl) 64 h (fun y => Some (negb (zslValueGteMin (score y) range))))
               (level zsl) (header zsl) 0;
    l0 ← level_at h (descend_last update (header zsl)) 0;
    x ← forward l0;
    nx ← h !! x;
    Some (if negb (zslValueLteMax (score nx) range) then None else Some x).

Definition zslLastInRange (h : heap) (zsl : zskiplist) (range : zrangespec Sc) : option (option loc) :=
  inrange ← zslIsInRange h zsl range;
  if negb inrange then Some None
  else
    update ← descend (walk (walk_fuel zsl) 64 h (fun y => Some (zslValueLteMax (score y) range)))
               (level zsl) (header zsl) 0;
    let x := descend_last update (header zsl) in
    nx ← h !! x;
    Some (if negb (zslValueGteMin (score nx) range) then None else Some x).

(** The deletion loops: delete the nodes from [x] on while [test] holds; the
    elements removed are those passed to dictDelete, in order. *)
Fixpoint delete_while (fuel : nat) (h : heap) (zsl : zskiplist) (test : node -> Z -> bool) (x : option loc)
    (update : list (loc * Z)) (traversed : Z) (removed : list bytes) : option (heap * zskiplist * list bytes) :=
  match x with
  | None => Some (h, zsl, removed)
  | Some x =>
    match fuel with
    | O => None
    | S fuel =>
      nx ← h !! x;
      if test nx traversed then
        l0 ← level_at h x 0;
        let next := forward l0 in
        '(h, zsl) ← zslDeleteNode h zsl x update;
        ex ← ele nx;
        delete_while fuel (zslFreeNode h x) zsl test next update (traversed + 1) (removed ++ [ex])
      else Some (h, zsl, removed)
    end
  end.

Definition zslDeleteRangeByScore (h : heap) (zsl : zskiplist) (range : zrangespec Sc)
    : option (heap * zskiplist * list bytes) :=
  update ← descend (walk (walk_fuel zsl) 64 h (fun y => Some (negb (zslValueGteMin (score y) range))))
             (level zsl) (header zsl) 0;
  l0 ← level_at h (descend_last update (header zsl)) 0;
  delete_while (walk_fuel zsl) h zsl (fun n _ => zslValueLteMax (score n) range) (forward l0) update 0 [].

(** [while (x->level[i].forward && (traversed + x->level[i].span) < bound)] *)
Fixpoint walk_rank (fuel : nat) (h : heap) (bound : Z) (i : nat) (x : loc) (traversed : Z) : option (loc * Z) :=
  match fuel with
  | O => None
  | S fuel =>
    l ← level_at h x i;
    match forward l with
    | None => Some (x, traversed)
    | Some y =>
      if u64 (traversed + span l) <? bound then walk_rank fuel h bound i y (u64 (traversed + span l))
      else Some (x, traversed)
    end
  end.

(** [start] and [end] are 1-based. *)
Definition zslDeleteRangeByRank (h : heap) (zsl : zskiplist) (start end_ : Z)
    : option (heap * zskiplist * list bytes) :=
  update ← descend (walk_rank (walk_fuel zsl) h start) (level zsl) (header zsl) 0;
  '(u0, traversed) ← update !! 0%nat;
  l0 ← level_at h u0 0;
  delete_while (walk_fuel zsl) h zsl (fun _ traversed => traversed <=? end_) (forward l0) update (traversed + 1) [].

(** The loop of zslGetRank: the element may be found at any level. *)
Fixpoint zslGetRank_loop (fuel : nat) (h : heap) (s : Sc) (e : bytes) (lvl : nat) (x : loc) (rank : Z) : option Z :=
  match lvl with
  | O => Some 0
  | S i =>
    '(x, rank) ← walk fuel 64 h (upto_key s e) i x rank;
    nx ← h !! x;
    if bool_decide ((fun ex => sdscmp ex e) <$> ele nx = Some Eq) then Some rank
    else zslGetRank_loop fuel h s e i x rank
  end.

Definition zslGetRank (h : heap) (zsl : zskiplist) (s : Sc) (e : bytes) : option Z :=
  zslGetRank_loop (walk_fuel zsl) h s e (level zsl) (header zsl) 0.

Fixpoint zslGetElementByRank_loop (fuel : nat) (h : heap) (rank : Z) (lvl : nat) (x : loc) (traversed : Z)
    : option (option loc) :=
  match lvl with
  | O => Some None
  | S i =>
    '(x, traversed) ← walk_rank fuel h (rank + 1) i x traversed;
    if traversed =? rank then Some (Some x)
    else zslGetElementByRank_loop fuel h rank i x traversed
  end.

(** [traversed + span <= rank] is [traversed + span < rank + 1]. *)
Definition zslGetElementByRank (h : heap) (zsl : zskiplist) (rank : Z) : option (option loc) :=
  zslGetElementByRank_loop (walk_fuel zsl) h rank (level zsl) (header zsl) 0.

(** ** The list a skiplist stands for *)

(** A node of the list: its address, element, score and number of levels. *)
Record zn := mk_zn { zl : loc; ze : bytes; zs : Sc; zh : nat }.

(** The forward pointer and the span of level [i] of a node followed by [s]. *)
Fixpoint cell (i : nat) (s : list zn) : zskiplistLevel :=
  match s with
  | [] => mk_level None 0
  | n :: s =>
    if (i <? zh n)%nat then mk_level (Some (zl n)) 1
    else let c := cell i s in mk_level (forward c) (span c + 1)
  end.

(** The node at the end of a prefix of the list: the header for the empty one. *)
Definition at_loc (hd : loc) (P : list zn) : loc := match last P with Some n => zl n | None => hd end.
Definition height (lvl : nat) (P : list zn) : nat := match last P with Some n => zh n | None => lvl end.

(** The fields of a node other than its levels. *)
Definition info (h : heap) (x : loc) : option (option bytes * Sc * option loc * nat) :=
  (fun n => (ele n, score n, backward n, length (levels n))) <$> h !! x.

(** The order of the nodes. *)
Definition key_lt (s1 : Sc) (e1 : bytes) (s2 : Sc) (e2 : bytes) : bool :=
  score_lt s1 s2 || (score_eq s1 s2 && bool_decide (sdscmp e1 e2 = Lt)).
Definition zn_lt (a b : zn) : Prop := key_lt (zs a) (ze a) (zs b) (ze b) = true.

(** The pointers and spans of the heap are those of the list [ns]; [lvl] levels
    of the header are in use. *)
Record linked (h : heap) (hd : loc) (lvl : nat) (ns : list zn) : Prop := {
  lk_cells : forall P R i, ns = P ++ R -> (i < height lvl P)%nat -> level_at h (at_loc hd P) i = Some (cell i R);
  lk_info : forall P n R, ns = P ++ n :: R ->
    info h (zl n) = Some (Some (ze n), zs n, zl <$> last P, zh n);
  lk_header : exists s0, info h hd = Some (None, s0, None, ZSKIPLIST_MAXLEVEL);
  lk_above : forall i, (lvl <= i < ZSKIPLIST_MAXLEVEL)%nat -> forward <$> level_at h hd i = Some None;
  lk_heights : Forall (fun n => (1 <= zh n <= lvl)%nat) ns;
  lk_level : (1 <= lvl <= ZSKIPLIST_MAXLEVEL)%nat;
  lk_locs : NoDup (hd :: (zl <$> ns));
}.

(** The skiplist: linked nodes in strictly increasing order, with the tail and
    the length of the list; fewer than 2^32 of them. *)
Record zsl_inv (h : heap) (zsl : zskiplist) (ns : list zn) : Prop := {
  zi_linked : linked h (header zsl) (level zsl) ns;
  zi_tail : tail zsl = zl <$> last ns;
  zi_length : length_ zsl = zlen ns;
  zi_sorted : StronglySorted zn_lt ns;
  zi_bound : zlen ns < 2 ^ 32;
}.

(** *** Cells *)

Definition low (i : nat) (n : zn) : Prop := (zh n <= i)%nat.

Lemma cell_low i s t : Forall (low i) s ->
  cell i (s ++ t) = mk_level (forward (cell i t)) (zlen s + span (cell i t)).
Proof.
  induction 1 as [|n s Hn Hs IH]; [rewrite zlen_nil; simpl; by destruct (cell i t)|].
  simpl. destruct (Nat.ltb_spec i (zh n)); [unfold low in Hn; lia|]. rewrite IH. simpl. f_equal.
  rewrite zlen_cons. lia.
Qed.

Lemma cell_high i s n t t' : (i < zh n)%nat -> cell i (s ++ n :: t) = cell i (s ++ n :: t').
Proof.
  intros Hn. induction s as [|m s IH]; simpl.
  - by rewrite (proj2 (Nat.ltb_lt _ _)) by done.
  - destruct (i <? zh m)%nat; [done|]. by rewrite IH.
Qed.

Lemma cell_high_here i n t : (i < zh n)%nat -> cell i (n :: t) = mk_level (Some (zl n)) 1.
Proof. intros Hn. simpl. by rewrite (proj2 (Nat.ltb_lt _ _)) by done. Qed.

Lemma cell_forward i s y : forward (cell i s) = Some y -> exists n, n ∈ s /\ zl n = y /\ (i < zh n)%nat.
Proof.
  induction s as [|n s IH]; simpl; [done|]. destruct (Nat.ltb_spec i (zh n)); simpl.
  - intros [= <-]. exists n. split; [left|done].
  - intros (m & Hm & ?)%IH. exists m. split; [by right|done].
Qed.

Lemma cell_span i s : 0 <= span (cell i s) <= zlen s.
Proof.
  induction s as [|n s IH]; simpl; [done|]. rewrite zlen_cons. pose proof (zlen_nonneg s).
  destruct (i <? zh n)%nat; simpl; lia.
Qed.

Lemma cell_span_pos i s y : forward (cell i s) = Some y -> 1 <= span (cell i s).
Proof.
  destruct s as [|n s]; simpl; [done|]. pose proof (cell_span i s). destruct (i <? zh n)%nat; simpl; lia.
Qed.

Lemma low_dec_split i s : Forall (low i) s \/ exists C n D, s = C ++ n :: D /\ Forall (low i) C /\ (i < zh n)%nat.
Proof.
  induction s as [|n s [IH|(C & m & D & -> & HC & Hm)]]; [by left| |].
  - destruct (decide (i < zh n)%nat); [right; by exists [], n, s|left].
    constructor; [unfold low; lia|done].
  - right. destruct (decide (i < zh n)%nat); [by exists [], n, (C ++ m :: D)|].
    exists (n :: C), m, D. split; [done|]. split; [|done]. constructor; [unfold low; lia|done].
Qed.

(** *** The last high node of a prefix *)

Fixpoint high_prefix (i : nat) (A : list zn) : list zn :=
  match A with
  | [] => []
  | n :: A =>
    match high_prefix i A with
    | [] => if (i <? zh n)%nat then [n] else []
    | l => n :: l
    end
  end.

(** A prefix that is empty or ends with a node higher than [i]. *)
Definition ends_high (i : nat) (P : list zn) : Prop := P = [] \/ exists P' n, P = P' ++ [n] /\ (i < zh n)%nat.

Lemma high_prefix_split i A : exists A2, A = high_prefix i A ++ A2 /\ Forall (low i) A2 /\ ends_high i (high_prefix i A).
Proof.
  induction A as [|n A (A2 & E & Hlow & Hend)]; simpl; [exists []; split; [done|]; split; [done|by left]|].
  destruct (high_prefix i A) as [|m l] eqn:Ep.
  - destruct (Nat.ltb_spec i (zh n)).
    + exists A. simpl in E. split; [done|]. rewrite E. split; [done|]. right. by exists [], n.
    + exists (n :: A). split; [done|]. split; [|by left]. constructor; [done|]. simpl in E. by rewrite E.
  - exists A2. simpl. rewrite E at 1. split; [done|]. split; [done|]. right.
    destruct Hend as [?|(P' & k & Ek & Hk)]; [done|]. exists (n :: P'), k. by rewrite Ek.
Qed.

Lemma high_prefix_unique i P A2 : ends_high i P -> Forall (low i) A2 -> high_prefix i (P ++ A2) = P.
Proof.
  intros HP Hlow. assert (high_prefix i A2 = []) as E2.
  { induction Hlow as [|n A2 Hn HA IH]; simpl; [done|]. rewrite IH.
    destruct (Nat.ltb_spec i (zh n)); [unfold low in Hn; lia|done]. }
  destruct HP as [->|(P' & n & -> & Hn)]; [done|]. induction P' as [|m P' IH]; simpl.
  - rewrite E2. by rewrite (proj2 (Nat.ltb_lt _ _)) by done.
  - rewrite IH. by destruct P'.
Qed.

(** *** Prefixes and addresses *)

Lemma at_loc_snoc hd P n : at_loc hd (P ++ [n]) = zl n.
Proof. unfold at_loc. by rewrite last_snoc. Qed.

Lemma height_snoc lvl P n : height lvl (P ++ [n]) = zh n.
Proof. unfold height. by rewrite last_snoc. Qed.

Lemma ends_high_height i lvl P : ends_high i P -> (i < lvl)%nat -> (i < height lvl P)%nat.
Proof. intros [->|(P' & n & -> & Hn)] Hi; [done|]. by rewrite height_snoc. Qed.

Lemma ends_high_weaken i j P : ends_high j P -> (i <= j)%nat -> ends_high i P.
Proof. intros [->|(P' & n & -> & Hn)] Hi; [by left|]. right. exists P', n. split; [done|lia]. Qed.

(** The address of the end of a prefix determines the prefix. *)
Lemma at_loc_inj hd ns P R P' R' :
  NoDup (hd :: (zl <$> ns)) -> ns = P ++ R -> ns = P' ++ R' -> at_loc hd P = at_loc hd P' -> P = P'.
Proof.
  intros Hnd E E' Hl. apply NoDup_cons in Hnd as [Hhd Hnd].
  assert (forall Q n T, ns = (Q ++ [n]) ++ T -> hd <> zl n) as Hne.
  { intros Q n T -> ->. apply Hhd. rewrite !fmap_app, !elem_of_app. left. right. by left. }
  destruct (decide (P = [])) as [->|HP], (decide (P' = [])) as [->|HP']; [done| | |].
  - apply exists_last in HP' as (Q & n & ->). rewrite at_loc_snoc in Hl. by destruct (Hne Q n R').
  - apply exists_last in HP as (Q & n & ->). rewrite at_loc_snoc in Hl. by destruct (Hne Q n R).
  - apply exists_last in HP as (Q & n & ->), HP' as (Q' & n' & ->). rewrite !at_loc_snoc in Hl.
    assert (length Q = length Q') as Elen.
    { eapply NoDup_lookup; [exact Hnd| |]; rewrite list_lookup_fmap.
      - rewrite E, <-app_assoc, lookup_app_r, Nat.sub_diag by done. done.
      - rewrite E', <-app_assoc, lookup_app_r, Nat.sub_diag by done. by rewrite Hl. }
    rewrite E, <-!app_assoc in E'. apply app_inj_1 in E' as [-> E']; [|done]. simpl in E'. by injection E' as -> _.
Qed.

(** A node of the heap that carries the element and the score of [n]. *)
Lemma info_node h x e s b k : info h x = Some (Some e, s, b, k) ->
  exists nd, h !! x = Some nd /\ ele nd = Some e /\ score nd = s /\ backward nd = b /\ length (levels nd) = k.
Proof.
  unfold info. destruct (h !! x) as [nd|]; [|done]. simpl. intros [= <- <- <- <-]. by exists nd.
Qed.

(** ** Searching *)

(** The test of a loop, on nodes of the heap, decides [p] on the nodes of the
    list; it holds on [A] and fails after. *)
Record cuts (test : node -> option bool) (A B : list zn) : Prop := {
  cut_before : forall n nd, n ∈ A -> ele nd = Some (ze n) -> score nd = zs n -> test nd = Some true;
  cut_after : forall n nd, n ∈ B -> ele nd = Some (ze n) -> score nd = zs n -> test nd = Some false;
}.

Section walk.
Context {h : heap} {hd : loc} {lvl : nat} {ns : list zn} (L : linked h hd lvl ns).

Lemma node_of P n R : ns = P ++ n :: R -> exists nd, h !! zl n = Some nd /\ ele nd = Some (ze n) /\ score nd = zs n.
Proof.
  intros E. destruct (info_node _ _ _ _ _ _ (lk_info _ _ _ _ L P n R E)) as (nd & ? & ? & ? & _). eauto.
Qed.

Lemma node_in n : n ∈ ns -> exists nd, h !! zl n = Some nd /\ ele nd = Some (ze n) /\ score nd = zs n.
Proof. intros (P & R & E)%list_elem_of_split. by eapply node_of. Qed.

(** A walk at level [i] from the end of [P1] stops at the last node of [A] that
    has this level, and counts its position. *)
Lemma walk_spec test A B w fuel i P1 A2 :
  ns = A ++ B -> cuts test A B -> zlen A < 2 ^ w -> 0 <= w -> A = P1 ++ A2 -> ends_high i P1 -> (i < lvl)%nat ->
  (length A2 < fuel)%nat ->
  walk fuel w h test i (at_loc hd P1) (zlen P1) = Some (at_loc hd (high_prefix i A), zlen (high_prefix i A)).
Proof.
  intros Ens Hcut Hw Hw0. revert P1 A2. induction fuel as [|fuel IH]; intros P1 A2 EA HP Hi Hf; [lia|].
  cbn [walk]. rewrite (lk_cells _ _ _ _ L P1 (A2 ++ B) i) by (by rewrite Ens, EA, <-app_assoc || by apply ends_high_height).
  cbn [mbind option_bind]. destruct (low_dec_split i A2) as [Hlow|(C & n & D & -> & HC & Hn)].
  - rewrite cell_low by done. cbn [forward span].
    assert (high_prefix i A = P1) as -> by (rewrite EA; by apply high_prefix_unique).
    destruct (forward (cell i B)) as [y|] eqn:Ey; [|done].
    apply cell_forward in Ey as (n & Hn & <- & _).
    destruct (node_in n) as (nd & -> & He & Hs); [rewrite Ens; apply elem_of_app; auto|].
    cbn [mbind option_bind]. by rewrite (cut_after _ _ _ Hcut n nd).
  - rewrite <-app_assoc, cell_low by done. cbn [forward span]. cbn [app]. rewrite cell_high_here by done.
    cbn [forward span].
    assert (n ∈ A) as HnA by (rewrite EA; rewrite !elem_of_app, elem_of_cons; auto).
    destruct (node_in n) as (nd & -> & He & Hs); [rewrite Ens; apply elem_of_app; auto|].
    cbn [mbind option_bind]. rewrite (cut_before _ _ _ Hcut n nd) by done. cbn [mbind option_bind].
    rewrite EA in Hw. rewrite !zlen_app, zlen_cons in Hw. pose proof (zlen_nonneg P1).
    pose proof (zlen_nonneg C). pose proof (zlen_nonneg D).
    rewrite uint_small by lia. rewrite <-(at_loc_snoc hd (P1 ++ C) n).
    replace (zlen P1 + (zlen C + 1)) with (zlen ((P1 ++ C) ++ [n])) by (rewrite !zlen_app, zlen_cons, zlen_nil; lia).
    apply (IH _ D); [by rewrite EA, <-!app_assoc|right; by exists (P1 ++ C), n|done|].
    rewrite length_app in Hf. simpl in Hf. lia.
Qed.

(** The same for a loop bounded by a rank: [A] holds the nodes of ranks below
    [bound]. *)
Lemma walk_rank_spec A B bound fuel i P1 A2 :
  ns = A ++ B -> zlen A <= bound - 1 -> (B = [] \/ zlen A = bound - 1) -> zlen ns < 2 ^ 32 ->
  A = P1 ++ A2 -> ends_high i P1 -> (i < lvl)%nat -> (length A2 < fuel)%nat ->
  walk_rank fuel h bound i (at_loc hd P1) (zlen P1) = Some (at_loc hd (high_prefix i A), zlen (high_prefix i A)).
Proof.
  intros Ens HA HB Hn. revert P1 A2. induction fuel as [|fuel IH]; intros P1 A2 EA HP Hi Hf; [lia|].
  cbn [walk_rank]. rewrite (lk_cells _ _ _ _ L P1 (A2 ++ B) i) by (by rewrite Ens, EA, <-app_assoc || by apply ends_high_height).
  rewrite Ens, zlen_app in Hn. pose proof (zlen_nonneg P1). pose proof (cell_span i B) as HcB.
  cbn [mbind option_bind]. destruct (low_dec_split i A2) as [Hlow|(C & n & D & -> & HC & Hnn)].
  - rewrite cell_low by done. cbn [forward span].
    assert (high_prefix i A = P1) as -> by (rewrite EA; by apply high_prefix_unique).
    destruct (forward (cell i B)) as [y|] eqn:Ey; [|done]. pose proof (cell_span_pos i B y Ey).
    destruct HB as [->|HB]; [done|]. rewrite EA, zlen_app in *. pose proof (zlen_nonneg A2).
    rewrite uint_small by lia. by rewrite (proj2 (Z.ltb_ge _ _)) by lia.
  - rewrite <-app_assoc, cell_low by done. cbn [forward span]. cbn [app]. rewrite cell_high_here by done.
    cbn [forward span]. pose proof (zlen_nonneg C). pose proof (zlen_nonneg D).
    assert (zlen P1 + zlen C + 1 <= zlen A) by (rewrite EA, !zlen_app, zlen_cons; lia).
    rewrite uint_small by lia. rewrite (proj2 (Z.ltb_lt _ _)) by lia. rewrite <-(at_loc_snoc hd (P1 ++ C) n).
    replace (zlen P1 + (zlen C + 1)) with (zlen ((P1 ++ C) ++ [n])) by (rewrite !zlen_app, zlen_cons, zlen_nil; lia).
    apply (IH _ D); [by rewrite EA, <-!app_assoc|right; by exists (P1 ++ C), n|done|].
    rewrite length_app in Hf. simpl in Hf. lia.
Qed.

(** A loop that stops at the last high node of [A], whatever the level. *)
Definition stops_at (A : list zn) (loop : nat -> loc -> Z -> option (loc * Z)) : Prop :=
  forall i P1 A2, A = P1 ++ A2 -> ends_high i P1 -> (i < lvl)%nat ->
    loop i (at_loc hd P1) (zlen P1) = Some (at_loc hd (high_prefix i A), zlen (high_prefix i A)).

Lemma walk_stops test A B w fuel :
  ns = A ++ B -> cuts test A B -> zlen A < 2 ^ w -> 0 <= w -> (length ns < fuel)%nat -> stops_at A (walk fuel w h test).
Proof.
  intros E Hc Hw Hw0 Hf i P1 A2 EA HP Hi. apply (walk_spec test A B w fuel i P1 A2); try done.
  rewrite E, EA, !length_app in Hf. lia.
Qed.

Lemma walk_rank_stops A B bound fuel :
  ns = A ++ B -> zlen A <= bound - 1 -> (B = [] \/ zlen A = bound - 1) -> zlen ns < 2 ^ 32 -> (length ns < fuel)%nat ->
  stops_at A (walk_rank fuel h bound).
Proof.
  intros E HA HB Hn Hf i P1 A2 EA HP Hi. apply (walk_rank_spec A B bound fuel i P1 A2); try done.
  rewrite E, EA, !length_app in Hf. lia.
Qed.

(** All levels: [update[i]] and [rank[i]]. *)
Lemma descend_spec A loop k P1 :
  stops_at A loop -> (k <= lvl)%nat -> (exists A2, A = P1 ++ A2) -> ends_high k P1 ->
  exists update, descend loop k (at_loc hd P1) (zlen P1) = Some update /\ length update = k /\
    forall i, (i < k)%nat -> update !! i = Some (at_loc hd (high_prefix i A), zlen (high_prefix i A)).
Proof.
  intros Hloop. revert P1. induction k as [|k IH]; intros P1 Hk [A2 EA] HP.
  { exists []. split; [done|]. split; [done|lia]. }
  cbn [descend]. rewrite (Hloop k P1 A2); try done; try lia.
  2:{ by eapply ends_high_weaken; [done|lia]. }
  cbn [mbind option_bind]. destruct (high_prefix_split k A) as (A3 & E3 & _ & Hend).
  destruct (IH (high_prefix k A)) as (update & -> & Hlen & Hup); [lia|by exists A3|done|].
  cbn [mbind option_bind]. eexists. split; [done|]. split; [rewrite length_app, Hlen; simpl; lia|].
  intros i Hi. destruct (decide (i = k)) as [->|].
  - rewrite lookup_app_r, Hlen, Nat.sub_diag by lia. done.
  - rewrite lookup_app_l by lia. apply Hup. lia.
Qed.

Lemma descend_header A loop :
  stops_at A loop ->
  exists update, descend loop lvl hd 0 = Some update /\ length update = lvl /\
    forall i, (i < lvl)%nat -> update !! i = Some (at_loc hd (high_prefix i A), zlen (high_prefix i A)).
Proof. intros Hl. apply (descend_spec A loop lvl []); try done; [by exists A|by left]. Qed.

(** At level 0 every node counts. *)
Lemma high_prefix_0 A : Forall (fun n => (1 <= zh n <= lvl)%nat) A -> high_prefix 0 A = A.
Proof.
  intros HA. destruct (decide (A = [])) as [->|Hne]; [done|]. apply exists_last in Hne as (A' & n & ->).
  rewrite <-(app_nil_r (A' ++ [n])) at 1. apply high_prefix_unique; [|done]. right. exists A', n. split; [done|].
  apply Forall_app in HA as [_ [Hn _]%Forall_cons]. lia.
Qed.

End walk.

(** ** Updates of the heap *)

Lemma set_level_spec h x i f l :
  level_at h x i = Some l ->
  exists h', set_level h x i f = Some h' /\ (forall y, info h' y = info h y) /\
    forall y j, level_at h' y j = if bool_decide (y = x /\ j = i) then Some (f l) else level_at h y j.
Proof.
  unfold level_at, set_level. destruct (h !! x) as [n|] eqn:En; [|done]. simpl. intros Hl. rewrite Hl. simpl.
  eexists. split; [done|]. split.
  - intros y. unfold info. destruct (decide (y = x)) as [->|Hne]; [|by rewrite lookup_insert_ne].
    rewrite lookup_insert_eq, En. simpl. by rewrite length_insert.
  - intros y j. destruct (decide (y = x)) as [->|Hne].
    + rewrite lookup_insert_eq, En. simpl. destruct (decide (j = i)) as [->|].
      * rewrite bool_decide_true, list_lookup_insert_eq by (by eauto using lookup_lt_Some). done.
      * rewrite bool_decide_false, list_lookup_insert_ne by naive_solver. done.
    + rewrite lookup_insert_ne, bool_decide_false by naive_solver. done.
Qed.

Lemma set_backward_spec h x b e s b0 k :
  info h x = Some (e, s, b0, k) ->
  exists h', set_backward h x b = Some h' /\ (forall y j, level_at h' y j = level_at h y j) /\
    forall y, info h' y = if bool_decide (y = x) then Some (e, s, b, k) else info h y.
Proof.
  unfold info, set_backward, level_at. destruct (h !! x) as [n|] eqn:En; [|done]. simpl. intros [= <- <- <- <-].
  eexists. split; [done|]. split.
  - intros y j. destruct (decide (y = x)) as [->|Hne]; [by rewrite lookup_insert_eq, En|by rewrite lookup_insert_ne].
  - intros y. case_bool_decide as Hy; [subst y; by rewrite lookup_insert_eq|by rewrite lookup_insert_ne].
Qed.

Lemma info_levels h x e s b k i : info h x = Some (e, s, b, k) -> (i < k)%nat -> is_Some (level_at h x i).
Proof.
  unfold info, level_at. destruct (h !! x) as [n|]; [|done]. simpl. intros [= <- <- <- <-] Hi.
  by apply lookup_lt_is_Some_2.
Qed.

(** What a loop over the levels [i <= k < i + n] does: at level [k] the cell of
    each address in [upd] gets its new value, the others stay. *)
Definition levels_set (h h' : heap) (i n : nat) (upd : nat -> loc -> option zskiplistLevel) : Prop :=
  (forall y, info h' y = info h y) /\
  forall y k, level_at h' y k =
    if bool_decide (i <= k < i + n)%nat then match upd k y with Some c => Some c | None => level_at h y k end
    else level_at h y k.

Lemma levels_set_nil h i upd : levels_set h h i 0 upd.
Proof. split; [done|]. intros y k. by rewrite bool_decide_false by lia. Qed.

(** One level, then the following ones. *)
Lemma levels_set_step h h1 h' i n upd :
  (forall y, info h1 y = info h y) ->
  (forall y k, level_at h1 y k =
     if bool_decide (k = i) then match upd k y with Some c => Some c | None => level_at h y k end else level_at h y k) ->
  levels_set h1 h' (i + 1) n upd -> levels_set h h' i (S n) upd.
Proof.
  intros Hi Hl [Hi' Hl']. split; [intros y; by rewrite Hi'|]. intros y k. rewrite Hl', Hl.
  destruct (decide (k = i)) as [->|Hne].
  - rewrite (bool_decide_false (i + 1 <= i < _)%nat), !bool_decide_true by lia. done.
  - rewrite (bool_decide_false (k = i)) by done. destruct (decide (i <= k < i + S n)%nat).
    + by rewrite !bool_decide_true by lia.
    + by rewrite !bool_decide_false by lia.
Qed.

Lemma raise_levels_spec n h hd i len :
  (forall k, (i <= k < i + n)%nat -> exists l, level_at h hd k = Some l /\ forward l = None) ->
  exists h', raise_levels n h hd i len = Some h' /\
    levels_set h h' i n (fun _ y => if bool_decide (y = hd) then Some (mk_level None len) else None).
Proof.
  revert h i. induction n as [|n IH]; intros h i Hl; [exists h; split; [done|apply levels_set_nil]|].
  cbn [raise_levels]. destruct (Hl i) as (l & El & Hf); [lia|].
  destruct (set_level_spec h hd i (fun l => mk_level (forward l) len) l El) as (h1 & -> & Hi1 & Hl1).
  cbn [mbind option_bind]. destruct (IH h1 (i + 1)%nat) as (h' & -> & Hs).
  { intros k Hk. rewrite Hl1, bool_decide_false by lia. apply Hl. lia. }
  exists h'. split; [done|]. eapply levels_set_step; [done| |done]. intros y k. rewrite Hl1, Hf.
  destruct (decide (k = i)) as [->|]; [|by rewrite !bool_decide_false by tauto].
  rewrite (bool_decide_true (i = i)) by done. destruct (decide (y = hd)) as [->|].
  - by rewrite !bool_decide_true by done.
  - by rewrite !bool_decide_false by tauto.
Qed.

Lemma link_levels_spec n h x update rank0 i (u : nat -> loc) (r : nat -> Z) (c : nat -> zskiplistLevel) :
  (forall k, (i <= k < i + n)%nat -> update !! k = Some (u k, r k) /\ u k <> x /\
     level_at h (u k) k = Some (c k) /\ is_Some (level_at h x k)) ->
  exists h', link_levels n h x update rank0 i = Some h' /\
    levels_set h h' i n (fun k y =>
      if bool_decide (y = x) then Some (mk_level (forward (c k)) (u64 (span (c k) - u32 (rank0 - r k))))
      else if bool_decide (y = u k) then Some (mk_level (Some x) (u64 (u32 (u32 (rank0 - r k) + 1)))) else None).
Proof.
  revert h i. induction n as [|n IH]; intros h i Hk; [exists h; split; [done|apply levels_set_nil]|].
  cbn [link_levels]. destruct (Hk i) as (-> & Hne & Hu & lx & Hx); [lia|]. cbn [mbind option_bind].
  rewrite Hu. cbn [mbind option_bind].
  destruct (set_level_spec h x i (fun _ => mk_level (forward (c i)) (u64 (span (c i) - u32 (rank0 - r i)))) lx Hx)
    as (h1 & -> & Hi1 & Hl1). cbn [mbind option_bind].
  assert (level_at h1 (u i) i = Some (c i)) as Hu1 by (rewrite Hl1, bool_decide_false by tauto; done).
  destruct (set_level_spec h1 (u i) i (fun _ => mk_level (Some x) (u64 (u32 (u32 (rank0 - r i) + 1)))) _ Hu1)
    as (h2 & -> & Hi2 & Hl2). cbn [mbind option_bind].
  assert (forall y k, k <> i -> level_at h2 y k = level_at h y k) as Hsame
    by (intros y k Hki; rewrite Hl2, bool_decide_false, Hl1, bool_decide_false by tauto; done).
  destruct (IH h2 (i + 1)%nat) as (h' & -> & Hs).
  { intros k Hk'. rewrite !Hsame by lia. apply Hk. lia. }
  exists h'. split; [done|]. eapply levels_set_step; [intros y; by rewrite Hi2, Hi1| |done].
  intros y k. destruct (decide (k = i)) as [->|]; [|by rewrite Hsame, (bool_decide_false (k = i)) by done].
  rewrite (bool_decide_true (i = i)), Hl2, Hl1 by done. destruct (decide (y = x)) as [->|].
  - rewrite (bool_decide_false (x = u i /\ _)), !bool_decide_true by naive_solver. done.
  - rewrite (bool_decide_false (y = x /\ _)), (bool_decide_false (y = x)) by tauto.
    destruct (decide (y = u i)) as [->|]; [by rewrite !bool_decide_true by done|by rewrite !bool_decide_false by tauto].
Qed.

Lemma bump_levels_spec n h update i (u : nat -> loc) (c : nat -> zskiplistLevel) :
  (forall k, (i <= k < i + n)%nat -> (exists r, update !! k = Some (u k, r)) /\ level_at h (u k) k = Some (c k)) ->
  exists h', bump_levels n h update i = Some h' /\
    levels_set h h' i n (fun k y =>
      if bool_decide (y = u k) then Some (mk_level (forward (c k)) (u64 (span (c k) + 1))) else None).
Proof.
  revert h i. induction n as [|n IH]; intros h i Hk; [exists h; split; [done|apply levels_set_nil]|].
  cbn [bump_levels]. destruct (Hk i) as [[r ->] Hu]; [lia|]. cbn [mbind option_bind].
  destruct (set_level_spec h (u i) i (fun l => mk_level (forward l) (u64 (span l + 1))) _ Hu) as (h1 & -> & Hi1 & Hl1).
  cbn [mbind option_bind]. destruct (IH h1 (i + 1)%nat) as (h' & -> & Hs).
  { intros k Hk'. rewrite Hl1, bool_decide_false by lia. apply Hk. lia. }
  exists h'. split; [done|]. eapply levels_set_step; [done| |done]. intros y k. rewrite Hl1.
  destruct (decide (k = i)) as [->|]; [|by rewrite !bool_decide_false by tauto].
  rewrite (bool_decide_true (i = i)) by done. destruct (decide (y = u i)) as [->|].
  - by rewrite !bool_decide_true by done.
  - by rewrite !bool_decide_false by tauto.
Qed.

Lemma unlink_levels_spec n h x update i (u : nat -> loc) (c cx : nat -> zskiplistLevel) :
  (forall k, (i <= k < i + n)%nat -> (exists r, update !! k = Some (u k, r)) /\ u k <> x /\
     level_at h (u k) k = Some (c k) /\ (forward (c k) = Some x -> level_at h x k = Some (cx k))) ->
  exists h', unlink_levels n h x update i = Some h' /\
    levels_set h h' i n (fun k y =>
      if bool_decide (y = u k) then
        Some (if bool_decide (forward (c k) = Some x)
              then mk_level (forward (cx k)) (u64 (span (c k) + u64 (span (cx k) - 1)))
              else mk_level (forward (c k)) (u64 (span (c k) - 1))) else None).
Proof.
  revert h i. induction n as [|n IH]; intros h i Hk; [exists h; split; [done|apply levels_set_nil]|].
  cbn [unlink_levels]. destruct (Hk i) as ([r ->] & Hne & Hu & Hx); [lia|]. cbn [mbind option_bind].
  rewrite Hu. cbn [mbind option_bind].
  assert (exists h1, (if bool_decide (forward (c i) = Some x)
      then lx ← level_at h x i; set_level h (u i) i (fun l => mk_level (forward lx) (u64 (span l + u64 (span lx - 1))))
      else set_level h (u i) i (fun l => mk_level (forward l) (u64 (span l - 1)))) = Some h1 /\
      (forall y, info h1 y = info h y) /\ forall y j, level_at h1 y j =
        if bool_decide (y = u i /\ j = i) then
          Some (if bool_decide (forward (c i) = Some x)
              then mk_level (forward (cx i)) (u64 (span (c i) + u64 (span (cx i) - 1)))
              else mk_level (forward (c i)) (u64 (span (c i) - 1))) else level_at h y j) as (h1 & -> & Hi1 & Hl1).
  { case_bool_decide as Hf; [rewrite (Hx Hf); cbn [mbind option_bind]|].
    - exact (set_level_spec h (u i) i (fun l => mk_level (forward (cx i)) (u64 (span l + u64 (span (cx i) - 1)))) _ Hu).
    - exact (set_level_spec h (u i) i (fun l => mk_level (forward l) (u64 (span l - 1))) _ Hu). }
  cbn [mbind option_bind]. destruct (IH h1 (i + 1)%nat) as (h' & -> & Hs).
  { intros k Hk'. rewrite !Hl1, !(bool_decide_false (_ /\ k = i)) by lia. apply Hk. lia. }
  exists h'. split; [done|]. eapply levels_set_step; [done| |done]. intros y k. rewrite Hl1.
  destruct (decide (k = i)) as [->|]; [|by rewrite (bool_decide_false (_ /\ _)), (bool_decide_false (k = i)) by tauto].
  rewrite (bool_decide_true (i = i)) by done. destruct (decide (y = u i)) as [->|].
  - by rewrite (bool_decide_true (_ /\ _)), (bool_decide_true (u i = u i)) by done.
  - by rewrite (bool_decide_false (_ /\ _)), (bool_decide_false (y = u i)) by tauto.
Qed.

(** ** The order of the nodes *)

Lemma score_eq_spec a b : score_eq a b = true <-> score_lt a b = false /\ score_lt b a = false.
Proof. unfold score_eq. rewrite andb_true_iff, !negb_true_iff. done. Qed.

Lemma score_eq_sym a b : score_eq a b = score_eq b a.
Proof. unfold score_eq. apply andb_comm. Qed.

Lemma score_eq_refl a : score_eq a a = true.
Proof. unfold score_eq. by rewrite score_irrefl. Qed.

Lemma score_lt_asym a b : score_lt a b = true -> score_lt b a = false.
Proof.
  intros Hab. destruct (score_lt b a) eqn:E; [|done]. pose proof (score_trans _ _ _ Hab E) as Hc.
  by rewrite score_irrefl in Hc.
Qed.

(** Equal scores compare alike. *)
Lemma score_eq_lt_l a b c : score_eq a b = true -> score_lt a c = score_lt b c.
Proof.
  intros [Hab Hba]%score_eq_spec. apply eq_true_iff_eq. split; intros Hc.
  - destruct (score_cotrans _ b _ Hc); congruence.
  - destruct (score_cotrans _ a _ Hc); congruence.
Qed.

Lemma score_eq_lt_r a b c : score_eq a b = true -> score_lt c a = score_lt c b.
Proof.
  intros [Hab Hba]%score_eq_spec. apply eq_true_iff_eq. split; intros Hc.
  - destruct (score_cotrans _ b _ Hc); congruence.
  - destruct (score_cotrans _ a _ Hc); congruence.
Qed.

Lemma score_eq_trans a b c : score_eq a b = true -> score_eq b c = true -> score_eq a c = true.
Proof. intros Hab Hbc. unfold score_eq. by rewrite (score_eq_lt_l a b), (score_eq_lt_r a b) by done. Qed.

(** Either two scores are ordered one way or they are equal. *)
Lemma score_trichotomy a b :
  (score_lt a b = true /\ score_eq a b = false /\ score_lt b a = false) \/
  (score_lt b a = true /\ score_eq a b = false /\ score_lt a b = false) \/
  (score_eq a b = true /\ score_lt a b = false /\ score_lt b a = false).
Proof.
  unfold score_eq. destruct (score_lt a b) eqn:E1, (score_lt b a) eqn:E2; auto.
  pose proof (score_lt_asym _ _ E1). congruence.
Qed.

Lemma key_lt_true s1 e1 s2 e2 : key_lt s1 e1 s2 e2 = true <->
  score_lt s1 s2 = true \/ (score_eq s1 s2 = true /\ sdscmp e1 e2 = Lt).
Proof. unfold key_lt. rewrite orb_true_iff, andb_true_iff, bool_decide_eq_true. done. Qed.

Lemma key_lt_trans s1 e1 s2 e2 s3 e3 :
  key_lt s1 e1 s2 e2 = true -> key_lt s2 e2 s3 e3 = true -> key_lt s1 e1 s3 e3 = true.
Proof.
  rewrite !key_lt_true. intros [H1|[H1 E1]] [H2|[H2 E2]].
  - left. by eapply score_trans.
  - left. by rewrite <-(score_eq_lt_r s2 s3).
  - left. by rewrite (score_eq_lt_l s1 s2).
  - right. split; [by eapply score_eq_trans|by eapply sdscmp_trans].
Qed.

Lemma key_lt_irrefl s e : key_lt s e s e = false.
Proof.
  apply not_true_is_false. rewrite key_lt_true, score_irrefl, sdscmp_refl. intros [?|[_ ?]]; done.
Qed.

(** A key that is neither before nor after another is the same key. *)
Lemma key_lt_total s1 e1 s2 e2 :
  key_lt s1 e1 s2 e2 = false -> key_lt s2 e2 s1 e1 = false -> score_eq s1 s2 = true /\ e1 = e2.
Proof.
  rewrite <-!not_true_iff_false, !key_lt_true, (sdscmp_antisym e1 e2), (score_eq_sym s2 s1). intros N1 N2.
  destruct (score_trichotomy s1 s2) as [(?&?&?)|[(?&?&?)|(?&?&?)]]; [tauto|tauto|]. split; [done|].
  apply sdscmp_eq. destruct (sdscmp e1 e2); [done|tauto|]. destruct N2. by right.
Qed.

(** A sorted list is cut in two by a test that holds of everything before what
    it holds of. *)
Lemma sorted_split (p : zn -> bool) ns :
  StronglySorted zn_lt ns -> (forall a b, zn_lt a b -> p b = true -> p a = true) ->
  exists A B, ns = A ++ B /\ (forall n, n ∈ A -> p n = true) /\ (forall n, n ∈ B -> p n = false).
Proof.
  intros Hs Hp. induction Hs as [|n ns Hs IH Hn].
  { exists [], []. split; [done|]. split; intros ? ?%elem_of_nil; done. }
  destruct (p n) eqn:E.
  - destruct IH as (A & B & -> & HA & HB). exists (n :: A), B. split; [done|]. split; [|done].
    intros m [->|Hm]%elem_of_cons; [done|by apply HA].
  - exists [], (n :: ns). split; [done|]. split; [by intros ? ?%elem_of_nil|].
    intros m [->|Hm]%elem_of_cons; [done|]. rewrite Forall_forall in Hn. specialize (Hn m Hm).
    apply not_true_is_false. intros Hpm. by rewrite (Hp n m Hn Hpm) in E.
Qed.

Lemma before_key_zn s e n nd :
  ele nd = Some (ze n) -> score nd = zs n -> before_key s e nd = Some (key_lt (zs n) (ze n) s e).
Proof.
  intros He Hs. unfold before_key, key_lt. rewrite He, Hs. destruct (score_lt (zs n) s); [done|].
  destruct (score_eq (zs n) s); [|done]. simpl. done.
Qed.

(** The nodes before a key. *)
Lemma key_split s e ns :
  StronglySorted zn_lt ns ->
  exists A B, ns = A ++ B /\ (forall n, n ∈ A -> key_lt (zs n) (ze n) s e = true) /\
    (forall n, n ∈ B -> key_lt (zs n) (ze n) s e = false) /\ cuts (before_key s e) A B.
Proof.
  intros Hs. destruct (sorted_split (fun n => key_lt (zs n) (ze n) s e) ns Hs) as (A & B & -> & HA & HB).
  { intros a b Hab Hb. by eapply key_lt_trans. }
  exists A, B. split; [done|]. split; [done|]. split; [done|]. split.
  - intros n nd Hn He Hsc. rewrite (before_key_zn s e n nd) by done. by rewrite HA.
  - intros n nd Hn He Hsc. rewrite (before_key_zn s e n nd) by done. by rewrite HB.
Qed.

(** ** Insertion *)

(** The node to update at level [i], its rank, and its cell. *)
Abbreviation upd_loc hd A i := (at_loc hd (high_prefix i A)).
Abbreviation upd_rank A i := (zlen (high_prefix i A)).

Lemma height_bound lvl P R : Forall (fun n => (1 <= zh n <= lvl)%nat) (P ++ R) -> (height lvl P <= lvl)%nat.
Proof.
  intros HF. destruct (decide (P = [])) as [->|Hne]; [done|]. apply exists_last in Hne as (P' & n & ->).
  rewrite height_snoc. apply Forall_app in HF as [[_ [Hn _]%Forall_cons]%Forall_app _]. lia.
Qed.

Lemma ends_high_of_height i lvl P : (i < height lvl P)%nat -> ends_high i P.
Proof.
  intros Hi. destruct (decide (P = [])) as [->|Hne]; [by left|]. apply exists_last in Hne as (P' & n & ->).
  rewrite height_snoc in Hi. right. eauto.
Qed.

Lemma at_loc_in hd P R : at_loc hd P ∈ hd :: (zl <$> P ++ R).
Proof.
  destruct (decide (P = [])) as [->|Hne]; [left|]. apply exists_last in Hne as (P' & n & ->).
  rewrite at_loc_snoc. right. rewrite !fmap_app, !elem_of_app. left. right. by left.
Qed.

(** The cell of the node to update. *)
Lemma upd_cell {h hd lvl A B} (L : linked h hd lvl (A ++ B)) i :
  (i < lvl)%nat -> exists A2, A = high_prefix i A ++ A2 /\ Forall (low i) A2 /\
    level_at h (upd_loc hd A i) i = Some (mk_level (forward (cell i B)) (zlen A2 + span (cell i B))) /\
    zlen A - upd_rank A i = zlen A2.
Proof.
  intros Hi. destruct (high_prefix_split i A) as (A2 & E & Hlow & Hend). exists A2. split; [done|]. split; [done|].
  rewrite (lk_cells _ _ _ _ L (high_prefix i A) (A2 ++ B) i).
  - rewrite cell_low by done. split; [done|]. rewrite E at 1. rewrite zlen_app. lia.
  - rewrite app_assoc, <-E. done.
  - by apply ends_high_height.
Qed.

(** Whether the end of a prefix of [A] is the node to update. *)
Lemma upd_loc_iff {h hd lvl P A' B} (L : linked h hd lvl ((P ++ A') ++ B)) i :
  (i < height lvl P)%nat -> at_loc hd P = upd_loc hd (P ++ A') i <-> Forall (low i) A'.
Proof.
  intros Hi. split.
  - intros E. destruct (high_prefix_split i (P ++ A')) as (A2 & E2 & Hlow & _).
    assert (P = high_prefix i (P ++ A')) as Ep.
    { eapply (at_loc_inj hd _ P (A' ++ B) _ (A2 ++ B) (lk_locs _ _ _ _ L)); [by rewrite <-app_assoc| |done].
      rewrite app_assoc, <-E2. done. }
    rewrite <-Ep in E2. apply app_inv_head in E2. by subst.
  - intros Hlow. by rewrite high_prefix_unique by (done || by eapply ends_high_of_height).
Qed.

(** The values the two loops write. *)
Definition new_cell (x : loc) (A : list zn) (c : zskiplistLevel) (i : nat) : zskiplistLevel :=
  mk_level (forward c) (u64 (span c - u32 (zlen A - upd_rank A i))).
Definition upd_cell_value (x : loc) (k : nat) (A : list zn) (c : zskiplistLevel) (i : nat) : zskiplistLevel :=
  if (i <? k)%nat then mk_level (Some x) (u64 (u32 (u32 (zlen A - upd_rank A i) + 1)))
  else mk_level (forward c) (u64 (span c + 1)).

Section insert.
Context {h h3 : heap} {hd : loc} {lvl : nat} {A B : list zn} {X : zn} {c : nat -> zskiplistLevel}.
Context (L : linked h hd lvl (A ++ B)) (Hx : zl X ∉ hd :: (zl <$> A ++ B)).
Context (Hk : (zh X <= lvl)%nat) (Hn : zlen (A ++ B) + 1 < 2 ^ 32).
Context (Hc : forall i, (i < lvl)%nat -> level_at h (upd_loc hd A i) i = Some (c i)).
Context (HX : forall i, (i < zh X)%nat -> level_at h3 (zl X) i = Some (new_cell (zl X) A (c i) i)).
Context (HY : forall y i, (i < lvl)%nat -> y <> zl X -> level_at h3 y i =
  if bool_decide (y = upd_loc hd A i) then Some (upd_cell_value (zl X) (zh X) A (c i) i) else level_at h y i).

(** The nodes before the new one. *)
Lemma insert_cells_before P l i :
  A = P ++ l -> (i < height lvl P)%nat -> level_at h3 (at_loc hd P) i = Some (cell i (l ++ X :: B)).
Proof.
  intros E Hi. pose proof (zlen_nonneg B) as HB. pose proof Hn as Hn'. rewrite zlen_app in Hn'.
  assert (A ++ B = P ++ l ++ B) as E' by (by rewrite E, <-app_assoc).
  assert (at_loc hd P <> zl X) as Hne by (intros Heq; apply Hx; rewrite <-Heq, E'; apply at_loc_in).
  assert (i < lvl)%nat as Hil.
  { pose proof (lk_heights _ _ _ _ L) as HF. rewrite E' in HF. pose proof (height_bound _ _ _ HF). lia. }
  assert (at_loc hd P = upd_loc hd A i <-> Forall (low i) l) as Hiff.
  { pose proof L as L'. rewrite E in L' |- *. by apply (upd_loc_iff L'). }
  rewrite HY by done. destruct (low_dec_split i l) as [Hlow|(C & n & D & -> & _ & Hnn)].
  - pose proof (proj2 Hiff Hlow) as Eu. rewrite bool_decide_true by done. f_equal.
    pose proof (Hc i Hil) as Hci. rewrite <-Eu, (lk_cells _ _ _ _ L P (l ++ B) i) in Hci by done.
    injection Hci as <-. rewrite !cell_low by done. unfold upd_cell_value.
    assert (upd_rank A i = zlen P) as -> by (rewrite E, high_prefix_unique by (done || by eapply ends_high_of_height); done).
    rewrite E, zlen_app in *. replace (zlen P + zlen l - zlen P) with (zlen l) by lia.
    pose proof (zlen_nonneg l). pose proof (zlen_nonneg P). pose proof (cell_span i B). cbn [forward span cell].
    destruct (i <? zh X)%nat; cbn [forward span].
    + rewrite (uint_small 32 (zlen l)), !uint_small by (rewrite ?uint_small by lia; lia). done.
    + rewrite uint_small by lia. f_equal. lia.
  - rewrite bool_decide_false.
    2:{ rewrite Hiff. intros HF. apply Forall_app in HF as [_ [Hl _]%Forall_cons]. unfold low in Hl. lia. }
    rewrite (lk_cells _ _ _ _ L P ((C ++ n :: D) ++ B) i) by done.
    rewrite <-!app_assoc. f_equal. by apply cell_high.
Qed.

(** The new node. *)
Lemma insert_cells_new i : (i < zh X)%nat -> level_at h3 (zl X) i = Some (cell i B).
Proof.
  intros Hi. rewrite HX by done. f_equal. unfold new_cell. pose proof Hn as Hn'. rewrite zlen_app in Hn'.
  destruct (upd_cell L i ltac:(lia)) as (A2 & EA & _ & Hu & Hr). rewrite Hc in Hu by lia. injection Hu as ->.
  rewrite Hr. cbn [forward span]. pose proof (zlen_nonneg A2). pose proof (cell_span i B).
  assert (zlen A2 <= zlen A) by (rewrite EA at 1; rewrite zlen_app; pose proof (zlen_nonneg (high_prefix i A)); lia).
  rewrite (uint_small 32), uint_small by lia. replace (zlen A2 + span (cell i B) - zlen A2) with (span (cell i B)) by lia.
  by destruct (cell i B).
Qed.

(** The nodes after the new one. *)
Lemma insert_cells_after B1 m R i :
  B = (B1 ++ [m]) ++ R -> (i < zh m)%nat -> level_at h3 (zl m) i = Some (cell i R).
Proof.
  intros E Hi. assert (A ++ B = (A ++ B1 ++ [m]) ++ R) as E' by (by rewrite E, <-!app_assoc).
  assert (at_loc hd (A ++ B1 ++ [m]) = zl m) as El by (rewrite app_assoc; apply at_loc_snoc).
  assert (i < height lvl (A ++ B1 ++ [m]))%nat as Hh by (by rewrite app_assoc, height_snoc).
  assert (zl m <> zl X) as Hne by (intros Heq; apply Hx; rewrite <-Heq, <-El, E'; apply at_loc_in).
  assert (i < lvl)%nat as Hil.
  { pose proof (lk_heights _ _ _ _ L) as HF. rewrite E' in HF. pose proof (height_bound _ _ _ HF). lia. }
  rewrite HY by done. rewrite bool_decide_false.
  - rewrite <-El. by apply (lk_cells _ _ _ _ L).
  - rewrite <-El. intros Heq. destruct (high_prefix_split i A) as (A2 & EA & _).
    assert (A ++ B1 ++ [m] = high_prefix i A) as Ep.
    { eapply (at_loc_inj hd _ _ R _ (A2 ++ B) (lk_locs _ _ _ _ L)); [done| |done]. by rewrite app_assoc, <-EA. }
    apply (f_equal length) in Ep. rewrite EA, !length_app in Ep. simpl in Ep.
    rewrite <-EA in Ep. lia.
Qed.

Lemma insert_cells P R i :
  A ++ X :: B = P ++ R -> (i < height lvl P)%nat -> level_at h3 (at_loc hd P) i = Some (cell i R).
Proof.
  intros E Hi. apply app_eq_app in E as (l & [[E ->]|[-> E]]); [by apply insert_cells_before|].
  destruct l as [|X' B1]; simpl in E.
  { subst R. rewrite app_nil_r in *. by apply (insert_cells_before A []); rewrite ?app_nil_r. }
  injection E as <- E. destruct (decide (B1 = [])) as [->|Hne].
  - rewrite at_loc_snoc, height_snoc in *. simpl in E. subst R. by apply insert_cells_new.
  - apply exists_last in Hne as (B2 & m & ->). 
    change (A ++ X :: B2 ++ [m]) with (A ++ (X :: B2) ++ [m]) in *. rewrite app_assoc in *.
    rewrite at_loc_snoc, height_snoc in *. by eapply insert_cells_after.
Qed.

End insert.

Lemma heights_low lvl i ns : Forall (fun n => (1 <= zh n <= lvl)%nat) ns -> (lvl <= i)%nat -> Forall (low i) ns.
Proof. intros HF Hi. eapply Forall_impl; [exact HF|]. unfold low. simpl. lia. Qed.

(** Raising the level of the list keeps it linked. *)
Lemma raise_linked h hd lvl ns k :
  linked h hd lvl ns -> (k <= ZSKIPLIST_MAXLEVEL)%nat ->
  exists h', raise_levels (k - lvl) h hd lvl (zlen ns) = Some h' /\ linked h' hd (Nat.max k lvl) ns /\
    forall y, info h' y = info h y.
Proof.
  intros L Hk. pose proof (lk_level _ _ _ _ L) as Hlvl.
  destruct (raise_levels_spec (k - lvl) h hd lvl (zlen ns)) as (h' & Hr & Hi & Hl).
  { intros i Hi. pose proof (lk_above _ _ _ _ L i ltac:(lia)) as Ha.
    destruct (level_at h hd i) as [l|]; [|done]. exists l. split; [done|]. by injection Ha. }
  exists h'. split; [done|]. split; [|done]. split; try apply L.
  - intros P R i E HP. rewrite Hl. destruct (decide (P = [])) as [->|Hne].
    + simpl in E. subst R. change (at_loc hd []) with hd. rewrite (bool_decide_true (hd = hd)) by done.
      change (height (Nat.max k lvl) []) with (Nat.max k lvl) in HP. case_bool_decide as Hb.
      * pose proof (cell_low i ns [] (heights_low _ _ _ (lk_heights _ _ _ _ L) (proj1 Hb))) as Ec.
        rewrite app_nil_r in Ec. rewrite Ec. simpl. by rewrite Z.add_0_r.
      * apply (lk_cells _ _ _ _ L [] ns i eq_refl). change (height lvl []) with lvl. lia.
    + assert (at_loc hd P <> hd) as Hne2.
      { intros Heq. apply Hne. eapply (at_loc_inj hd ns P R [] ns (lk_locs _ _ _ _ L)); done. }
      rewrite (bool_decide_false (at_loc hd P = hd)) by done.
      assert (level_at h (at_loc hd P) i = Some (cell i R)) as ->; [|by case_bool_decide].
      apply (lk_cells _ _ _ _ L P R i E). apply exists_last in Hne as (P' & n & ->). by rewrite height_snoc in *.
  - intros n m R E. rewrite Hi. by eapply (lk_info _ _ _ _ L).
  - destruct (lk_header _ _ _ _ L) as [s0 Hs]. exists s0. by rewrite Hi.
  - intros i Hi'. rewrite Hl, (bool_decide_false (_ <= _ < _)%nat) by lia. apply (lk_above _ _ _ _ L). lia.
  - eapply Forall_impl; [apply (lk_heights _ _ _ _ L)|]. simpl. lia.
  - lia.
Qed.

(** The information of the nodes after an insertion. *)
Lemma insert_info h h' hd lvl A B X :
  linked h hd lvl (A ++ B) -> zl X ∉ hd :: (zl <$> A ++ B) ->
  info h' (zl X) = Some (Some (ze X), zs X, zl <$> last A, zh X) ->
  (forall y, y <> zl X -> info h' y =
     if bool_decide (Some y = zl <$> head B) then (fun '(e, s, _, k) => (e, s, Some (zl X), k)) <$> info h y
     else info h y) ->
  forall P n R, A ++ X :: B = P ++ n :: R -> info h' (zl n) = Some (Some (ze n), zs n, zl <$> last P, zh n).
Proof.
  intros L Hx HX HY P n R E. pose proof (lk_locs _ _ _ _ L) as [_ Hnd]%NoDup_cons.
  assert (forall m, m ∈ A ++ B -> zl m <> zl X) as Hne.
  { intros m Hm Heq. apply Hx. right. rewrite <-Heq. by apply list_elem_of_fmap_2. }
  apply app_eq_app in E as (l & [[-> E]|[-> E]]).
  - destruct l as [|n' A']; simpl in E.
    + injection E as <- <-. rewrite app_nil_r in *. done.
    + injection E as <- ->. rewrite <-app_assoc in L, Hne, Hnd. cbn [app] in L, Hne, Hnd.
      rewrite HY, bool_decide_false.
      * by apply (lk_info _ _ _ _ L P n (A' ++ B)).
      * destruct B as [|b B]; [done|]. simpl. intros [= Heq]. rewrite fmap_app, fmap_cons in Hnd.
        apply NoDup_app in Hnd as (_ & _ & [Hnd _]%NoDup_cons). apply Hnd.
        rewrite fmap_app, elem_of_app, fmap_cons, Heq. right. left.
      * apply Hne. rewrite elem_of_app, elem_of_cons. auto.
  - destruct l as [|X' B1]; simpl in E; injection E as <- E.
    { subst R. rewrite app_nil_r. done. }
    rewrite last_app. cbn [last]. subst B. assert (zl n <> zl X) as Hn by
      (apply Hne; rewrite !elem_of_app, elem_of_cons; auto).
    rewrite HY by done. pose proof (lk_info _ _ _ _ L (A ++ B1) n R ltac:(by rewrite <-app_assoc)) as Hi.
    destruct B1 as [|b B1].
    + rewrite bool_decide_true by done. rewrite Hi. done.
    + rewrite bool_decide_false; [rewrite Hi, last_app; simpl; by destruct (last (b :: B1)) eqn:Eb; [|by destruct B1]|].
      simpl. intros [= Heq]. rewrite !fmap_app, !fmap_cons in Hnd. apply NoDup_app in Hnd as (_ & _ & [Hnd _]%NoDup_cons).
      apply Hnd. rewrite elem_of_app, Heq. right. left.
Qed.

Lemma zn_sorted_insert A B X :
  StronglySorted zn_lt (A ++ B) ->
  (forall n, n ∈ A -> key_lt (zs n) (ze n) (zs X) (ze X) = true) ->
  (forall n, n ∈ B -> key_lt (zs n) (ze n) (zs X) (ze X) = false) ->
  (forall n, n ∈ B -> ~ (score_eq (zs n) (zs X) = true /\ ze n = ze X)) ->
  StronglySorted zn_lt (A ++ X :: B).
Proof.
  intros Hs HA HB Hne. apply StronglySorted_app in Hs as (Hab & HsA & HsB). apply StronglySorted_app.
  assert (forall n, n ∈ B -> zn_lt X n) as HXB.
  { intros n Hn. unfold zn_lt. destruct (key_lt (zs X) (ze X) (zs n) (ze n)) eqn:E; [done|].
    destruct (Hne n Hn). by apply key_lt_total; [apply HB|]. }
  split_and!; [|done|constructor; [done|by apply Forall_forall]].
  intros a b Ha [->|Hb]%elem_of_cons; [by apply HA|by apply Hab].
Qed.

Lemma lookup_info_None (h : heap) x : info h x = None <-> h !! x = None.
Proof. unfold info. destruct (h !! x); done. Qed.

Lemma fresh_notin h hd lvl ns x : linked h hd lvl ns -> h !! x = None -> x ∉ hd :: (zl <$> ns).
Proof.
  intros L Hx [->|Hin]%elem_of_cons.
  - destruct (lk_header _ _ _ _ L) as [s0 Hs]. by rewrite (proj2 (lookup_info_None h hd) Hx) in Hs.
  - apply list_elem_of_fmap in Hin as (n & -> & (P & R & ->)%list_elem_of_split).
    pose proof (lk_info _ _ _ _ L P n R eq_refl) as Hi. by rewrite (proj2 (lookup_info_None h (zl n)) Hx) in Hi.
Qed.

(** The two loops that link a new node of the heap. *)
Lemma link_bump_spec h hd lvl A B x k update node :
  linked h hd lvl (A ++ B) -> h !! x = None -> (1 <= k <= lvl)%nat -> length (levels node) = k ->
  (forall i, (i < lvl)%nat -> update !! i = Some (upd_loc hd A i, upd_rank A i)) ->
  exists h2 h3 c, link_levels k (<[x := node]> h) x update (zlen A) 0 = Some h2 /\
    bump_levels (lvl - k) h2 update k = Some h3 /\
    (forall y, info h3 y = info (<[x := node]> h) y) /\
    (forall i, (i < lvl)%nat -> level_at h (upd_loc hd A i) i = Some (c i)) /\
    (forall i, (i < k)%nat -> level_at h3 x i = Some (new_cell x A (c i) i)) /\
    (forall y i, (i < lvl)%nat -> y <> x -> level_at h3 y i =
       if bool_decide (y = upd_loc hd A i) then Some (upd_cell_value x k A (c i) i) else level_at h y i) /\
    (forall y i, (lvl <= i)%nat -> y <> x -> level_at h3 y i = level_at h y i).
Proof.
  intros L Hx Hk Hlen Hup. set (c i := default (mk_level None 0) (level_at h (upd_loc hd A i) i)).
  assert (forall i, (i < lvl)%nat -> level_at h (upd_loc hd A i) i = Some (c i)) as Hc.
  { intros i Hi. unfold c. destruct (upd_cell L i Hi) as (A2 & _ & _ & -> & _). done. }
  assert (forall i, upd_loc hd A i <> x) as Hux.
  { intros i Heq. apply (fresh_notin _ _ _ _ _ L Hx). rewrite <-Heq.
    destruct (high_prefix_split i A) as (A2 & EA & _). rewrite EA at 2. rewrite <-app_assoc. apply at_loc_in. }
  assert (forall y i, y <> x -> level_at (<[x := node]> h) y i = level_at h y i) as Hh1.
  { intros y i Hy. unfold level_at. by rewrite lookup_insert_ne. }
  assert (forall i, (i < k)%nat -> is_Some (level_at (<[x := node]> h) x i)) as Hx1.
  { intros i Hi. unfold level_at. rewrite lookup_insert_eq. simpl. apply lookup_lt_is_Some_2. lia. }
  destruct (link_levels_spec k (<[x := node]> h) x update (zlen A) 0 (fun i => upd_loc hd A i) (fun i => upd_rank A i) c)
    as (h2 & El & Hi2 & Hl2).
  { intros i Hi. split; [apply Hup; lia|]. split; [apply Hux|]. rewrite Hh1 by apply Hux. split; [apply Hc; lia|apply Hx1; lia]. }
  assert (forall y i, (k <= i)%nat -> level_at h2 y i = level_at (<[x := node]> h) y i) as Hhi.
  { intros y i Hi. by rewrite Hl2, bool_decide_false by lia. }
  destruct (bump_levels_spec (lvl - k) h2 update k (fun i => upd_loc hd A i) c) as (h3 & Eb & Hi3 & Hl3).
  { intros i Hi. split; [exists (upd_rank A i); apply Hup; lia|]. rewrite Hhi, Hh1 by (lia || apply Hux). apply Hc. lia. }
  exists h2, h3, c. split; [done|]. split; [done|]. split; [intros y; by rewrite Hi3, Hi2|]. split; [done|]. split_and!.
  - intros i Hi. rewrite Hl3, bool_decide_false, Hl2, bool_decide_true by lia. by rewrite bool_decide_true.
  - intros y i Hi Hy. unfold upd_cell_value. rewrite Hl3, Hl2. destruct (Nat.ltb_spec i k).
    + rewrite (bool_decide_false (k <= i < _)%nat), (bool_decide_true (0 <= i < _)%nat), (bool_decide_false (y = x)) by done || lia.
      rewrite Hh1 by done. by case_bool_decide.
    + rewrite (bool_decide_true (k <= i < _)%nat), (bool_decide_false (0 <= i < _)%nat) by lia.
      rewrite Hh1 by done. by case_bool_decide.
  - intros y i Hi Hy. rewrite Hl3, bool_decide_false, Hhi, Hh1 by (done || lia). done.
Qed.

(** The backward pointers of the new node and of the one after it. *)
Lemma backward_spec h3 x e s b0 k bx (B : list zn) (tl : option loc) :
  info h3 x = Some (e, s, b0, k) -> (0 < k)%nat -> level_at h3 x 0 = Some (cell 0 B) ->
  Forall (fun n => (1 <= zh n)%nat) B -> (forall n R, B = n :: R -> zl n <> x /\ is_Some (info h3 (zl n))) ->
  exists h4 h5, set_backward h3 x bx = Some h4 /\ level_at h4 x 0 = Some (cell 0 B) /\
    match forward (cell 0 B) with
    | Some y => h ← set_backward h4 y (Some x); Some (h, tl)
    | None => Some (h4, Some x)
    end = Some (h5, match B with [] => Some x | _ => tl end) /\
    (forall y i, level_at h5 y i = level_at h3 y i) /\ info h5 x = Some (e, s, bx, k) /\
    (forall y, y <> x -> info h5 y =
       if bool_decide (Some y = zl <$> head B) then (fun '(e, s, _, k) => (e, s, Some x, k)) <$> info h3 y
       else info h3 y).
Proof.
  intros Hi Hk Hl HB Hnext. destruct (set_backward_spec h3 x bx e s b0 k Hi) as (h4 & E4 & Hl4 & Hi4).
  exists h4. destruct B as [|n R].
  - exists h4. split; [done|]. split; [by rewrite Hl4|]. split; [done|]. split; [done|].
    split; [by rewrite Hi4, bool_decide_true|]. intros y Hy. by rewrite Hi4, !bool_decide_false.
  - apply Forall_cons in HB as [Hn _]. destruct (Hnext n R eq_refl) as [Hne [[[[e' s'] b'] k'] Hi']].
    rewrite cell_high_here in * by lia. cbn [forward].
    assert (info h4 (zl n) = Some (e', s', b', k')) as Hi4n by (by rewrite Hi4, bool_decide_false).
    destruct (set_backward_spec h4 (zl n) (Some x) _ _ _ _ Hi4n) as (h5 & -> & Hl5 & Hi5).
    exists h5. split; [done|]. split; [by rewrite Hl4|]. split; [done|].
    split; [intros y i; by rewrite Hl5|]. split; [by rewrite Hi5, bool_decide_false, Hi4, bool_decide_true|].
    intros y Hy. rewrite Hi5, Hi4, (bool_decide_false (y = x)) by done. simpl. destruct (decide (y = zl n)) as [->|Hyn].
    + rewrite !bool_decide_true by done. by rewrite Hi'.
    + by rewrite !bool_decide_false by congruence.
Qed.

Lemma at_loc_backward hd (A : list zn) :
  hd ∉ (zl <$> A) -> (if bool_decide (at_loc hd A = hd) then None else Some (at_loc hd A)) = zl <$> last A.
Proof.
  intros Hhd. unfold at_loc. destruct (last A) as [n|] eqn:E; [|by rewrite bool_decide_true].
  rewrite bool_decide_false; [done|]. intros <-. apply Hhd, list_elem_of_fmap_2.
  apply last_Some in E as [A' ->]. rewrite elem_of_app, elem_of_cons. auto.
Qed.

(** A linked list with the new node in place. *)
Lemma insert_linked h h5 hd lvl A B X c :
  linked h hd lvl (A ++ B) -> h !! zl X = None -> (1 <= zh X <= lvl)%nat -> zlen (A ++ B) + 1 < 2 ^ 32 ->
  (forall i, (i < lvl)%nat -> level_at h (upd_loc hd A i) i = Some (c i)) ->
  (forall i, (i < zh X)%nat -> level_at h5 (zl X) i = Some (new_cell (zl X) A (c i) i)) ->
  (forall y i, (i < lvl)%nat -> y <> zl X -> level_at h5 y i =
     if bool_decide (y = upd_loc hd A i) then Some (upd_cell_value (zl X) (zh X) A (c i) i) else level_at h y i) ->
  (forall y i, (lvl <= i)%nat -> y <> zl X -> level_at h5 y i = level_at h y i) ->
  info h5 (zl X) = Some (Some (ze X), zs X, zl <$> last A, zh X) ->
  (forall y, y <> zl X -> info h5 y =
     if bool_decide (Some y = zl <$> head B) then (fun '(e, s, _, k) => (e, s, Some (zl X), k)) <$> info h y
     else info h y) ->
  linked h5 hd lvl (A ++ X :: B).
Proof.
  intros L Hx Hk Hn Hc HX HY HZ HiX HiY. pose proof (fresh_notin _ _ _ _ _ L Hx) as Hfresh.
  pose proof (lk_locs _ _ _ _ L) as Hnd. assert (hd <> zl X) as Hhx by (intros E; apply Hfresh; rewrite E; left).
  split.
  - apply (insert_cells (h := h) (c := c)); try done. lia.
  - by apply (insert_info h h5 hd lvl).
  - destruct (lk_header _ _ _ _ L) as [s0 Hs]. exists s0. rewrite HiY by done. rewrite bool_decide_false; [done|].
    destruct B as [|b B]; [done|]. simpl. intros [= ->]. apply NoDup_cons in Hnd as [Hnd _]. apply Hnd.
    rewrite fmap_app, fmap_cons, elem_of_app, elem_of_cons. auto.
  - intros i Hi. rewrite HZ by (done || lia). by apply (lk_above _ _ _ _ L).
  - pose proof (lk_heights _ _ _ _ L) as HF. rewrite !Forall_app, Forall_cons in *. tauto.
  - apply L.
  - rewrite fmap_app, fmap_cons, <-Permutation_middle. rewrite fmap_app in *.
    apply NoDup_cons in Hnd as [Hn1 Hn2]. apply not_elem_of_cons in Hfresh as [_ Hf].
    rewrite !NoDup_cons, not_elem_of_cons. done.
Qed.

(** zslInsert puts the new node where its score and element belong. *)
Lemma zslInsert_spec g h zsl ns s e k x :
  zsl_inv h zsl ns -> h !! x = None -> (1 <= k <= ZSKIPLIST_MAXLEVEL)%nat -> zlen ns + 1 < 2 ^ 32 ->
  (forall n, n ∈ ns -> ~ (score_eq (zs n) s = true /\ ze n = e)) ->
  exists h' zsl' A B, zslInsert g h zsl s e k x = Some (h', zsl') /\ ns = A ++ B /\
    zsl_inv h' zsl' (A ++ mk_zn x e s k :: B) /\ header zsl' = header zsl.
Proof.
  intros I Hx Hk Hn Hne. pose proof I as [L Ht Hlen Hs Hb]. pose proof (lk_level _ _ _ _ L) as Hlvl.
  destruct (key_split s e ns Hs) as (A & B & Ens & HA & HB & Hcut).
  pose proof (zlen_nonneg A) as HA0. pose proof (zlen_nonneg B) as HB0. rewrite Ens, zlen_app in Hn, Hb.
  unfold zslInsert, walk_fuel.
  destruct (descend_header (hd := header zsl) (lvl := level zsl) A (walk (S (Z.to_nat (length_ zsl))) 32 h (before_key s e))) as (update & -> & Hul & Hup).
  { apply (walk_stops L _ A B); try done; [lia|]. rewrite Hlen. unfold zlen. lia. }
  cbn [mbind option_bind]. rewrite Hlen.
  destruct (raise_linked h (header zsl) (level zsl) ns k L ltac:(lia)) as (h1 & -> & L1 & Hi1).
  cbn [mbind option_bind]. set (lvl := Nat.max k (level zsl)) in *.
  assert (h1 !! x = None) as Hx1 by (apply lookup_info_None; rewrite Hi1; by apply lookup_info_None).
  set (upd := update ++ replicate (k - level zsl) (header zsl, 0)).
  assert (forall i, (i < lvl)%nat -> upd !! i = Some (upd_loc (header zsl) A i, upd_rank A i)) as Hupd.
  { intros i Hi. unfold upd. destruct (decide (i < level zsl)%nat); [rewrite lookup_app_l by lia; by apply Hup|].
    rewrite lookup_app_r, lookup_replicate_2 by lia. pose proof (lk_heights _ _ _ _ L) as HF.
    rewrite Ens in HF. apply Forall_app in HF as [HF _].
    rewrite <-(app_nil_l A), (high_prefix_unique i [] A); [done|by left|]. eapply heights_low; [exact HF|lia]. }
  rewrite (Hupd 0%nat) by lia. cbn [mbind option_bind].
  pose proof (lk_heights _ _ _ _ L1) as HF. rewrite Ens in HF. apply Forall_app in HF as [HFA HFB].
  rewrite (high_prefix_0 A HFA). rewrite Ens in L1.
  destruct (link_bump_spec h1 (header zsl) lvl A B x k upd (zslCreateNode g k s (Some e)) L1 Hx1)
    as (h2 & h3 & c & -> & E3 & Hi3 & Hc & HX & HY & HZ);
    [lia|by simpl; rewrite length_replicate|done|].
  cbn [mbind option_bind]. rewrite E3. cbn [mbind option_bind].
  pose proof (fresh_notin _ _ _ _ _ L1 Hx1) as Hfresh.
  assert (info h3 x = Some (Some e, s, g.1, k)) as Hix.
  { rewrite Hi3. unfold info. rewrite lookup_insert_eq. simpl. by rewrite length_replicate. }
  assert (level_at h3 x 0 = Some (cell 0 B)) as Hl0.
  { apply (insert_cells_new (X := mk_zn x e s k) (c := c) L1); cbn [zl zh ze zs]; try done; [lia|rewrite zlen_app; lia|lia]. }
  destruct (backward_spec h3 x (Some e) s g.1 k (if bool_decide (at_loc (header zsl) A = header zsl) then None
    else Some (at_loc (header zsl) A)) B (tail zsl) Hix) as (h4 & h5 & -> & E4 & E5 & Hl5 & Hi5x & Hi5); [lia|done| | |].
  { eapply Forall_impl; [exact HFB|]. simpl. lia. }
  { intros n R ->. assert (zl n <> x) as Hnx.
    { intros Heq. apply Hfresh. right. rewrite fmap_app, fmap_cons, elem_of_app, elem_of_cons. auto. }
    split; [done|]. rewrite Hi3. unfold info. rewrite lookup_insert_ne by done. fold (info h1 (zl n)).
    rewrite (lk_info _ _ _ _ L1 A n R eq_refl). done. }
  cbn [mbind option_bind]. rewrite E4. cbn [mbind option_bind]. rewrite E5. cbn [mbind option_bind].
  eexists h5, _, A, B. split; [done|]. split; [done|]. split; [|done].
  assert (header zsl ∉ (zl <$> A)) as Hhd.
  { pose proof (lk_locs _ _ _ _ L1) as [Hh _]%NoDup_cons. rewrite fmap_app, not_elem_of_app in Hh. tauto. }
  rewrite at_loc_backward in Hi5x by done.
  split; cbn [header tail length_ level].
  - eapply (insert_linked h1 h5 _ lvl A B (mk_zn x e s k) c); cbn [zl zh ze zs]; try done; [lia|rewrite zlen_app; lia|..].
    + intros i Hi. rewrite Hl5. by apply HX.
    + intros y i Hi Hy. rewrite Hl5. by apply HY.
    + intros y i Hi Hy. rewrite Hl5. by apply HZ.
    + intros y Hy. rewrite Hi5 by done. rewrite Hi3. unfold info. by rewrite lookup_insert_ne.
  - rewrite last_app. destruct B as [|b B]; [done|]. rewrite Ht, Ens, last_app. simpl. by destruct (last (b :: B)) eqn:El; [|by destruct B].
  - rewrite Ens, !zlen_app, zlen_cons, uint_small by lia. lia.
  - rewrite Ens in Hs. apply zn_sorted_insert; [done..|]. intros n Hn'. apply Hne. rewrite Ens, elem_of_app. auto.
  - rewrite zlen_app, zlen_cons. lia.
Qed.

(** ** Deletion *)

Lemma cell_tail_forward {hd X B} i :
  NoDup (hd :: zl X :: (zl <$> B)) -> forward (cell i (X :: B)) = Some (zl X) <-> (i < zh X)%nat.
Proof.
  intros [_ [Hx _]%NoDup_cons]%NoDup_cons. simpl. destruct (Nat.ltb_spec i (zh X)); [done|]. simpl.
  split; [|lia]. intros (n & Hn & Heq & _)%cell_forward. destruct Hx. rewrite <-Heq. by apply list_elem_of_fmap_2.
Qed.

Lemma linked_nodup_tail {h hd lvl A X B} : linked h hd lvl (A ++ X :: B) -> NoDup (hd :: zl X :: (zl <$> B)).
Proof.
  intros L. pose proof (lk_locs _ _ _ _ L) as [Hhd Hnd]%NoDup_cons. rewrite fmap_app, fmap_cons in Hhd, Hnd.
  apply NoDup_app in Hnd as (_ & _ & Hnd). apply NoDup_cons. split; [|done]. intros Hin. apply Hhd.
  rewrite elem_of_app. by right.
Qed.

Lemma linked_upd_ne {h hd lvl A X B} i : linked h hd lvl (A ++ X :: B) -> upd_loc hd A i <> zl X.
Proof.
  intros L Heq. destruct (high_prefix_split i A) as (A2 & EA & _).
  assert (high_prefix i A = A ++ [X]) as Ep.
  { eapply (at_loc_inj hd _ _ (A2 ++ X :: B) _ B (lk_locs _ _ _ _ L)).
    - by rewrite app_assoc, <-EA.
    - by rewrite <-app_assoc.
    - by rewrite at_loc_snoc. }
  apply (f_equal length) in Ep. rewrite EA in Ep at 2. rewrite !length_app in Ep. simpl in Ep. lia.
Qed.

(** The cell of an updated node after the deletion. *)
Definition del_cell (x : loc) (c cx : zskiplistLevel) : zskiplistLevel :=
  if bool_decide (forward c = Some x)
  then mk_level (forward cx) (u64 (span c + u64 (span cx - 1)))
  else mk_level (forward c) (u64 (span c - 1)).

Lemma del_cell_spec {h hd lvl A X B} (L : linked h hd lvl (A ++ X :: B)) A2 i :
  zlen A2 <= zlen A -> Forall (low i) A2 -> zlen (A ++ X :: B) < 2 ^ 32 ->
  del_cell (zl X) (cell i (A2 ++ X :: B)) (cell i B) = cell i (A2 ++ B).
Proof.
  intros HA Hlow Hn. rewrite zlen_app, zlen_cons in Hn. pose proof (cell_span i B) as HcB.
  pose proof (zlen_nonneg A2). pose proof (zlen_nonneg A).
  rewrite !cell_low by done. unfold del_cell. cbn [forward span].
  pose proof (cell_tail_forward i (linked_nodup_tail L)) as Hf. case_bool_decide as Hb.
  - apply Hf in Hb. rewrite cell_high_here by done. cbn [span]. f_equal. unfold u64, uint.
    rewrite Z.add_mod_idemp_r by lia. rewrite Z.mod_small by lia. lia.
  - assert (zh X <= i)%nat as Hi by (apply Nat.nlt_ge; by rewrite <-Hf). simpl.
    destruct (Nat.ltb_spec i (zh X)); [lia|]. cbn [forward span]. rewrite uint_small by lia. f_equal. lia.
Qed.

(** The cells of a list without the node [X]. *)
Lemma delete_cells {h h' hd lvl A X B} :
  linked h hd lvl (A ++ X :: B) -> zlen (A ++ X :: B) < 2 ^ 32 ->
  (forall y i, (i < lvl)%nat -> level_at h' y i =
     if bool_decide (y = upd_loc hd A i) then (fun c => del_cell (zl X) c (cell i B)) <$> level_at h y i
     else level_at h y i) ->
  forall P R i, A ++ B = P ++ R -> (i < height lvl P)%nat -> level_at h' (at_loc hd P) i = Some (cell i R).
Proof.
  intros L Hn HY P R i E Hi.
  assert (i < lvl)%nat as Hil.
  { pose proof (lk_heights _ _ _ _ L) as HF. assert (Forall (fun n => (1 <= zh n <= lvl)%nat) (P ++ R)) as HF'.
    { rewrite <-E. rewrite Forall_app in *. rewrite Forall_cons in HF. tauto. }
    pose proof (height_bound _ _ _ HF'). lia. }
  rewrite HY by done. apply app_eq_app in E as (l & [[-> ->]|[-> ->]]).
  - rewrite (lk_cells _ _ _ _ L P (l ++ X :: B) i) by (by rewrite <-?app_assoc || done).
    pose proof (upd_loc_iff L i Hi) as Hiff. destruct (low_dec_split i l) as [Hlow|(C & n & D & -> & _ & Hnn)].
    + rewrite bool_decide_true by tauto. simpl. f_equal. eapply del_cell_spec; [exact L| |done|done].
      rewrite zlen_app. pose proof (zlen_nonneg P). lia.
    + rewrite bool_decide_false.
      2:{ rewrite Hiff. intros HF. apply Forall_app in HF as [_ [Hl _]%Forall_cons]. unfold low in Hl. lia. }
      rewrite <-!app_assoc. f_equal. by apply cell_high.
  - destruct (decide (l = [])) as [->|Hne].
    { rewrite app_nil_r in *. simpl in L, Hn. destruct (high_prefix_split i A) as (A2 & EA & Hlow & Hend).
      assert (at_loc hd A = upd_loc hd A i) as Eu.
      { f_equal. symmetry. rewrite <-(app_nil_r A) at 1. apply high_prefix_unique; [|done]. by eapply ends_high_of_height. }
      rewrite bool_decide_true by done. rewrite (lk_cells _ _ _ _ L A (X :: R) i) by done. simpl fmap. f_equal.
      apply (del_cell_spec L []); [rewrite zlen_nil; apply zlen_nonneg|done|done]. }
    apply exists_last in Hne as (l' & m & ->). rewrite app_assoc, at_loc_snoc, height_snoc in *.
    assert (level_at h (zl m) i = Some (cell i R)) as Hm.
    { rewrite <-(at_loc_snoc hd (A ++ X :: l') m). apply (lk_cells _ _ _ _ L); [by rewrite <-!app_assoc|].
      by rewrite height_snoc. }
    rewrite Hm. rewrite bool_decide_false; [done|]. intros Heq.
    destruct (high_prefix_split i A) as (A2 & EA & _).
    assert (high_prefix i A = (A ++ X :: l') ++ [m]) as Ep.
    { eapply (at_loc_inj hd _ _ (A2 ++ X :: (l' ++ [m]) ++ R) _ R (lk_locs _ _ _ _ L)).
      - by rewrite app_assoc, <-EA.
      - by rewrite <-!app_assoc.
      - by rewrite at_loc_snoc. }
    apply (f_equal length) in Ep. rewrite EA in Ep at 2. rewrite !length_app in Ep. simpl in Ep. lia.
Qed.

(** The other fields after the deletion. *)
Lemma delete_info {h h' hd lvl A X B} :
  linked h hd lvl (A ++ X :: B) ->
  (forall y, info h' y =
     if bool_decide (Some y = zl <$> head B) then (fun '(e, s, _, k) => (e, s, zl <$> last A, k)) <$> info h y
     else info h y) ->
  forall P n R, A ++ B = P ++ n :: R -> info h' (zl n) = Some (Some (ze n), zs n, zl <$> last P, zh n).
Proof.
  intros L HY P n R E. pose proof (lk_locs _ _ _ _ L) as [_ Hnd]%NoDup_cons. rewrite HY.
  rewrite fmap_app, fmap_cons in Hnd. apply NoDup_app in Hnd as (_ & Hdis & HndB).
  apply app_eq_app in E as (l & [[-> E]|[-> ->]]).
  - destruct l as [|n' l]; simpl in E.
    + subst B. rewrite app_nil_r in *. rewrite bool_decide_true by done.
      rewrite (lk_info _ _ _ _ L (P ++ [X]) n R) by (by rewrite <-app_assoc). done.
    + injection E as <- ->. rewrite bool_decide_false.
      * apply (lk_info _ _ _ _ L P n (l ++ X :: B)). by rewrite <-app_assoc.
      * destruct B as [|b B]; [done|]. simpl. intros [= Heq]. apply (Hdis (zl n)).
        { rewrite fmap_app, fmap_cons, elem_of_app, elem_of_cons. auto. }
        rewrite Heq, fmap_cons, !elem_of_cons. auto.
  - destruct l as [|b l].
    + rewrite app_nil_r. simpl. rewrite bool_decide_true by done.
      rewrite (lk_info _ _ _ _ L (A ++ [X]) n R) by (by rewrite <-app_assoc). done.
    + rewrite bool_decide_false.
      * rewrite (lk_info _ _ _ _ L (A ++ X :: b :: l) n R) by (by rewrite <-app_assoc). by rewrite !last_app.
      * simpl. intros [= Heq]. apply NoDup_cons in HndB as [_ HndB]. simpl in HndB.
        apply NoDup_cons in HndB as [Hb _]. apply Hb. rewrite <-Heq, fmap_app, elem_of_app, fmap_cons, elem_of_cons. auto.
Qed.

Lemma delete_linked {h h' hd lvl A X B} :
  linked h hd lvl (A ++ X :: B) -> zlen (A ++ X :: B) < 2 ^ 32 ->
  (forall y i, (i < lvl)%nat -> level_at h' y i =
     if bool_decide (y = upd_loc hd A i) then (fun c => del_cell (zl X) c (cell i B)) <$> level_at h y i
     else level_at h y i) ->
  (forall y i, (lvl <= i)%nat -> level_at h' y i = level_at h y i) ->
  (forall y, info h' y =
     if bool_decide (Some y = zl <$> head B) then (fun '(e, s, _, k) => (e, s, zl <$> last A, k)) <$> info h y
     else info h y) ->
  linked h' hd lvl (A ++ B).
Proof.
  intros L Hn HY HZ HI. split.
  - by apply (delete_cells L).
  - by apply (delete_info L).
  - destruct (lk_header _ _ _ _ L) as [s0 Hs]. exists s0. rewrite HI, bool_decide_false; [done|].
    destruct B as [|b B]; [done|]. simpl. intros [= ->]. pose proof (lk_locs _ _ _ _ L) as [Hh _]%NoDup_cons.
    apply Hh. rewrite fmap_app, !fmap_cons, elem_of_app, !elem_of_cons. auto.
  - intros i Hi. rewrite HZ by lia. by apply (lk_above _ _ _ _ L).
  - pose proof (lk_heights _ _ _ _ L) as HF. rewrite !Forall_app, Forall_cons in *. tauto.
  - apply L.
  - pose proof (lk_locs _ _ _ _ L) as Hnd. rewrite fmap_app, fmap_cons, <-Permutation_middle in Hnd.
    rewrite fmap_app. rewrite !NoDup_cons, not_elem_of_cons in *. tauto.
Qed.

(** Unused levels are dropped. *)
Lemma lower_level_spec h hd ns lvl :
  linked h hd lvl ns -> exists lvl', lower_level h hd lvl = Some lvl' /\ (lvl' <= lvl)%nat /\ linked h hd lvl' ns.
Proof.
  induction lvl as [|lvl IH]; intros L; [pose proof (lk_level _ _ _ _ L); lia|]. destruct lvl as [|lvl].
  { exists 1%nat. split; [done|]. split; [done|]. exact L. }
  change (lower_level h hd (S (S lvl))) with
    (l ← level_at h hd (S lvl); match forward l with None => lower_level h hd (S lvl) | Some _ => Some (S (S lvl)) end).
  pose proof (lk_level _ _ _ _ L) as Hlvl.
  pose proof (lk_cells _ _ _ _ L [] ns (S lvl) eq_refl ltac:(unfold height; simpl; lia)) as Hc.
  unfold at_loc in Hc. simpl last in Hc. cbv iota in Hc. rewrite Hc. cbn [mbind option_bind].
  destruct (forward (cell (S lvl) ns)) as [y|] eqn:Ey; [by exists (S (S lvl))|].
  assert (Forall (low (S lvl)) ns) as Hlow.
  { destruct (low_dec_split (S lvl) ns) as [?|(C & n & D & -> & HC & Hn)]; [done|].
    rewrite cell_low, cell_high_here in Ey by done. done. }
  destruct IH as (lvl' & -> & Hle & L'); [|exists lvl'; split; [done|]; split; [lia|done]].
  split; try apply L.
  - intros P R i E Hi. apply (lk_cells _ _ _ _ L P R i E). unfold height in *. destruct (last P); [done|lia].
  - intros i Hi. destruct (decide (i = S lvl)) as [->|]; [by rewrite Hc; simpl; rewrite Ey|].
    apply (lk_above _ _ _ _ L). lia.
  - pose proof (lk_heights _ _ _ _ L) as HF. rewrite Forall_forall in *. intros n Hn. specialize (HF n Hn).
    specialize (Hlow n Hn). unfold low in Hlow. lia.
  - lia.
Qed.

(** The unlinking loop followed by the fix of the backward pointer. *)
Lemma unlink_spec {h hd lvl A X B} update :
  linked h hd lvl (A ++ X :: B) -> zlen (A ++ X :: B) < 2 ^ 32 ->
  (forall i, (i < lvl)%nat -> exists r, update !! i = Some (upd_loc hd A i, r)) ->
  exists h1, unlink_levels lvl h (zl X) update 0 = Some h1 /\ (forall y, info h1 y = info h y) /\
    (forall i, level_at h1 (zl X) i = level_at h (zl X) i) /\
    (forall y i, (i < lvl)%nat -> level_at h1 y i =
     if bool_decide (y = upd_loc hd A i) then (fun c => del_cell (zl X) c (cell i B)) <$> level_at h y i
     else level_at h y i) /\
    (forall y i, (lvl <= i)%nat -> level_at h1 y i = level_at h y i).
Proof.
  intros L Hn Hup. set (c i := default (mk_level None 0) (level_at h (upd_loc hd A i) i)).
  assert (forall i, (i < lvl)%nat -> level_at h (upd_loc hd A i) i = Some (c i)) as Hc.
  { intros i Hi. unfold c. destruct (upd_cell L i Hi) as (A2 & _ & _ & -> & _). done. }
  destruct (unlink_levels_spec lvl h (zl X) update 0 (fun i => upd_loc hd A i) c (fun i => cell i B))
    as (h1 & E1 & Hi1 & Hl1).
  { intros i Hi. split; [apply Hup; lia|]. split; [by eapply linked_upd_ne|]. split; [apply Hc; lia|]. intros Hf.
    destruct (upd_cell L i ltac:(lia)) as (A2 & _ & _ & Hu & _). rewrite Hc in Hu by lia. injection Hu as Hu.
    rewrite Hu in Hf. cbn [forward] in Hf. apply (cell_tail_forward i (linked_nodup_tail L)) in Hf.
    rewrite <-(at_loc_snoc hd A X). apply (lk_cells _ _ _ _ L); [by rewrite <-app_assoc|by rewrite height_snoc]. }
  assert (forall y i, (i < lvl)%nat -> level_at h1 y i =
     if bool_decide (y = upd_loc hd A i) then (fun c => del_cell (zl X) c (cell i B)) <$> level_at h y i
     else level_at h y i) as Hlow.
  { intros y i Hi. rewrite Hl1, bool_decide_true by lia. case_bool_decide as Hy; [|done]. subst y. by rewrite Hc. }
  assert (forall y i, (lvl <= i)%nat -> level_at h1 y i = level_at h y i) as Hhi.
  { intros y i Hi. by rewrite Hl1, bool_decide_false by lia. }
  exists h1. split; [done|]. split; [done|]. split; [|done].
  intros i. destruct (decide (i < lvl)%nat); [|apply Hhi; lia]. rewrite Hlow, bool_decide_false; [done| |done].
  intros Heq. by eapply (linked_upd_ne i L).
Qed.

(** zslDeleteNode removes the node after [A]; its memory is left alone. *)
Lemma zslDeleteNode_spec {h zsl A X B} update :
  zsl_inv h zsl (A ++ X :: B) ->
  (forall i, (i < level zsl)%nat -> exists r, update !! i = Some (upd_loc (header zsl) A i, r)) ->
  exists h' zsl', zslDeleteNode h zsl (zl X) update = Some (h', zsl') /\ zsl_inv h' zsl' (A ++ B) /\
    header zsl' = header zsl /\ (level zsl' <= level zsl)%nat /\
    (forall y, is_Some (h' !! y) <-> is_Some (h !! y)).
Proof.
  intros [L Ht Hlen Hs Hb] Hup. unfold zslDeleteNode. pose proof (lk_level _ _ _ _ L) as Hlvl.
  destruct (unlink_spec update L Hb Hup) as (h1 & -> & Hi1 & HX1 & Hl1 & Hh1). cbn [mbind option_bind].
  pose proof (lk_info _ _ _ _ L A X B eq_refl) as HiX.
  destruct (info_node h1 (zl X) (ze X) (zs X) (zl <$> last A) (zh X)) as (nx & -> & _ & _ & Hbw & _); [by rewrite Hi1|].
  cbn [mbind option_bind]. pose proof (lk_heights _ _ _ _ L) as HF. apply Forall_app in HF as [_ [HfX HfB]%Forall_cons].
  assert (level_at h1 (zl X) 0 = Some (cell 0 B)) as ->.
  { rewrite HX1, <-(at_loc_snoc (header zsl) A X). apply (lk_cells _ _ _ _ L); [by rewrite <-app_assoc|].
    rewrite height_snoc. lia. }
  cbn [mbind option_bind]. rewrite Hbw.
  assert (exists h2, match forward (cell 0 B) with
     | Some y => h ← set_backward h1 y (zl <$> last A); Some (h, tail zsl)
     | None => Some (h1, zl <$> last A)
     end = Some (h2, zl <$> last (A ++ B)) /\ (forall y i, level_at h2 y i = level_at h1 y i) /\
     (forall y, info h2 y = if bool_decide (Some y = zl <$> head B)
        then (fun '(e, s, _, k) => (e, s, zl <$> last A, k)) <$> info h y else info h y)) as (h2 & -> & Hl2 & Hi2).
  { destruct B as [|b B].
    - exists h1. rewrite app_nil_r. done.
    - apply Forall_cons in HfB as [Hfb _]. rewrite cell_high_here by lia. cbn [forward].
      pose proof (lk_info _ _ _ _ L (A ++ [X]) b B ltac:(by rewrite <-app_assoc)) as Hib.
      destruct (set_backward_spec h1 (zl b) (zl <$> last A) (Some (ze b)) (zs b) (zl <$> last (A ++ [X])) (zh b)) as
        (h2 & -> & Hl2 & Hi2); [by rewrite Hi1|].
      exists h2. rewrite Ht, !last_app. split; [done|]. split; [done|]. intros y. rewrite Hi2, Hi1. simpl.
      destruct (decide (y = zl b)) as [->|]; [by rewrite !bool_decide_true, Hib|by rewrite !bool_decide_false by congruence]. }
  cbn [mbind option_bind].
  assert (linked h2 (header zsl) (level zsl) (A ++ B)) as L2.
  { eapply (delete_linked L Hb); [|intros y i Hi; by rewrite Hl2, Hh1|done]. intros y i Hi. rewrite Hl2. by apply Hl1. }
  destruct (lower_level_spec _ _ _ _ L2) as (lvl' & -> & Hle & L3). cbn [mbind option_bind].
  eexists _, _. split; [done|]. cbn [header level]. split; [|split; [done|]; split; [done|]].
  - split; cbn [header tail length_ level]; [done|done| | |].
    + rewrite Hlen, zlen_app, zlen_cons, zlen_app in *. pose proof (zlen_nonneg A). pose proof (zlen_nonneg B).
      rewrite uint_small by lia. lia.
    + apply StronglySorted_app in Hs as (H1 & H2 & [H3 H4]%StronglySorted_inv). apply StronglySorted_app.
      split_and!; [|done|done]. intros a b Ha Hb'. apply H1; [done|by right].
    + rewrite zlen_app, ?zlen_cons in *. lia.
  - intros y. assert (is_Some (info h2 y) <-> is_Some (info h y)) as Hy.
    { rewrite Hi2. case_bool_decide; [|done]. by rewrite fmap_is_Some. }
    unfold info in Hy. by rewrite !fmap_is_Some in Hy.
Qed.

(** Memory outside of the list does not matter. *)
Lemma zsl_inv_outside h h' zsl ns :
  zsl_inv h zsl ns -> (forall y, y ∈ header zsl :: (zl <$> ns) -> h' !! y = h !! y) -> zsl_inv h' zsl ns.
Proof.
  intros [L Ht Hlen Hs Hb] Heq. split; try done.
  assert (forall y i, y ∈ header zsl :: (zl <$> ns) -> level_at h' y i = level_at h y i) as Hl.
  { intros y i Hy. unfold level_at. by rewrite Heq. }
  assert (forall y, y ∈ header zsl :: (zl <$> ns) -> info h' y = info h y) as Hi.
  { intros y Hy. unfold info. by rewrite Heq. }
  split; try apply L.
  - intros P R i E Hh. rewrite Hl; [by apply (lk_cells _ _ _ _ L)|]. rewrite E. apply at_loc_in.
  - intros P n R E. rewrite Hi; [by apply (lk_info _ _ _ _ L P n R)|]. right. apply list_elem_of_fmap_2.
    rewrite E, elem_of_app, elem_of_cons. auto.
  - destruct (lk_header _ _ _ _ L) as [s0 Hs0]. exists s0. rewrite Hi; [done|left].
  - intros i Hi'. rewrite Hl; [|left]. by apply (lk_above _ _ _ _ L).
Qed.

Lemma zslFreeNode_spec h zsl ns x : zsl_inv h zsl ns -> x ∉ header zsl :: (zl <$> ns) -> zsl_inv (zslFreeNode h x) zsl ns.
Proof.
  intros I Hx. eapply zsl_inv_outside; [exact I|]. intros y Hy. unfold zslFreeNode. apply lookup_delete_ne.
  by intros ->.
Qed.

Lemma deleted_notin {h zsl A X B} : zsl_inv h zsl (A ++ X :: B) -> zl X ∉ header zsl :: (zl <$> A ++ B).
Proof.
  intros [L _ _ _ _]. pose proof (lk_locs _ _ _ _ L) as Hnd. rewrite fmap_app, fmap_cons, <-Permutation_middle in Hnd.
  rewrite fmap_app. rewrite !NoDup_cons, not_elem_of_cons in *. naive_solver.
Qed.

(** The search of a key: what [update] holds, and the node after it. *)
Lemma search_spec {h zsl ns} s e :
  zsl_inv h zsl ns ->
  exists A B update, ns = A ++ B /\ (forall n, n ∈ A -> key_lt (zs n) (ze n) s e = true) /\
    (forall n, n ∈ B -> key_lt (zs n) (ze n) s e = false) /\
    descend (walk (walk_fuel zsl) 32 h (before_key s e)) (level zsl) (header zsl) 0 = Some update /\
    (forall i, (i < level zsl)%nat -> exists r, update !! i = Some (upd_loc (header zsl) A i, r)) /\
    (exists r, update !! 0%nat = Some (at_loc (header zsl) A, r)) /\
    level_at h (at_loc (header zsl) A) 0 = Some (cell 0 B).
Proof.
  intros [L Ht Hlen Hs Hb]. pose proof (lk_level _ _ _ _ L) as Hlvl.
  destruct (key_split s e ns Hs) as (A & B & -> & HA & HB & Hcut).
  pose proof (zlen_nonneg B). rewrite zlen_app in *. unfold walk_fuel.
  destruct (descend_header (hd := header zsl) (lvl := level zsl) A (walk (S (Z.to_nat (length_ zsl))) 32 h (before_key s e))) as (update & -> & Hul & Hup).
  { apply (walk_stops L _ A B); try done; [lia|]. rewrite length_app, Hlen. unfold zlen. lia. }
  pose proof (lk_heights _ _ _ _ L) as HF. apply Forall_app in HF as [HFA HFB].
  exists A, B, update. split; [done|]. split; [done|]. split; [done|]. split; [done|].
  split; [eauto|]. split; [rewrite Hup, (high_prefix_0 A HFA) by lia; eauto|].
  apply (lk_cells _ _ _ _ L); [done|]. unfold height. destruct (last A) as [n|] eqn:El; [|lia].
  rewrite Forall_forall in HFA. specialize (HFA n). apply last_Some in El as [A' ->].
  rewrite elem_of_app, elem_of_cons in HFA. destruct HFA; [auto|lia].
Qed.

(** ** The sorted list of scores and elements *)

Definition pairs (ns : list zn) : list (Sc * bytes) := (fun n => (zs n, ze n)) <$> ns.

Definition same_key (s : Sc) (e : bytes) (p : Sc * bytes) : bool := score_eq p.1 s && bool_decide (p.2 = e).

Definition sorted_insert_pair (s : Sc) (e : bytes) (l : list (Sc * bytes)) : list (Sc * bytes) :=
  filter (fun p => key_lt p.1 p.2 s e = true) l ++ (s, e) :: filter (fun p => key_lt p.1 p.2 s e = false) l.
Definition delete_pair (s : Sc) (e : bytes) (l : list (Sc * bytes)) : list (Sc * bytes) :=
  filter (fun p => same_key s e p = false) l.

Lemma filter_all {T} (P : T -> Prop) `{!forall x, Decision (P x)} (l : list T) : (forall x, x ∈ l -> P x) -> filter P l = l.
Proof.
  induction l as [|x l IH]; intros Hl; [done|]. rewrite filter_cons_True, IH; [done| |].
  - intros y Hy. apply Hl. by right.
  - apply Hl. left.
Qed.

Lemma filter_none {T} (P : T -> Prop) `{!forall x, Decision (P x)} (l : list T) : (forall x, x ∈ l -> ~ P x) -> filter P l = [].
Proof.
  induction l as [|x l IH]; intros Hl; [done|]. rewrite filter_cons_False, IH; [done| |].
  - intros y Hy. apply Hl. by right.
  - apply Hl. left.
Qed.

Lemma pairs_app A B : pairs (A ++ B) = pairs A ++ pairs B.
Proof. apply fmap_app. Qed.

Lemma elem_of_pairs p ns : p ∈ pairs ns <-> exists n, p = (zs n, ze n) /\ n ∈ ns.
Proof. apply list_elem_of_fmap. Qed.

Lemma key_lt_same s1 s2 e : score_eq s1 s2 = true -> key_lt s1 e s2 e = false.
Proof.
  intros [Hs _]%score_eq_spec. apply not_true_is_false. rewrite key_lt_true, Hs, sdscmp_refl. intros [?|[_ ?]]; done.
Qed.

Lemma key_lt_asym s1 e1 s2 e2 : key_lt s1 e1 s2 e2 = true -> key_lt s2 e2 s1 e1 = false.
Proof.
  intros H1. apply not_true_is_false. intros H2. pose proof (key_lt_trans _ _ _ _ _ _ H1 H2) as H3.
  by rewrite key_lt_irrefl in H3.
Qed.

Lemma key_lt_eq_r s1 e1 s2 s3 e : score_eq s2 s3 = true -> key_lt s1 e1 s2 e = key_lt s1 e1 s3 e.
Proof.
  intros Hs. unfold key_lt. rewrite (score_eq_lt_r s2 s3) by done. f_equal. f_equal. unfold score_eq.
  by rewrite (score_eq_lt_r s2 s3), (score_eq_lt_l s2 s3).
Qed.

Lemma key_lt_eq_l s1 s2 e s3 e3 : score_eq s1 s2 = true -> key_lt s1 e s3 e3 = key_lt s2 e s3 e3.
Proof.
  intros Hs. unfold key_lt. rewrite (score_eq_lt_l s1 s2) by done. f_equal. f_equal. unfold score_eq.
  by rewrite (score_eq_lt_r s1 s2), (score_eq_lt_l s1 s2).
Qed.

Lemma same_key_true s e p : same_key s e p = true <-> score_eq p.1 s = true /\ p.2 = e.
Proof. unfold same_key. by rewrite andb_true_iff, bool_decide_eq_true. Qed.

(** A sorted list is its rest with one of its nodes inserted. *)
Lemma pairs_insert A X B :
  StronglySorted zn_lt (A ++ X :: B) -> pairs (A ++ X :: B) = sorted_insert_pair (zs X) (ze X) (pairs (A ++ B)).
Proof.
  intros (HA & _ & [_ HB]%StronglySorted_inv)%StronglySorted_app. rewrite Forall_forall in HB.
  unfold sorted_insert_pair. rewrite !pairs_app, !filter_app.
  assert (forall p, p ∈ pairs A -> key_lt p.1 p.2 (zs X) (ze X) = true) as HA'.
  { intros p (n & -> & Hn)%elem_of_pairs. apply (HA n X); [done|left]. }
  assert (forall p, p ∈ pairs B -> key_lt p.1 p.2 (zs X) (ze X) = false) as HB'.
  { intros p (n & -> & Hn)%elem_of_pairs. apply key_lt_asym. by apply HB. }
  rewrite (filter_all _ (pairs A)), (filter_none _ (pairs B)), (filter_none _ (pairs A)), (filter_all _ (pairs B)).
  - by rewrite app_nil_r.
  - done.
  - intros p Hp. by rewrite HA'.
  - intros p Hp. by rewrite HB'.
  - done.
Qed.

Lemma pairs_delete A X B s e :
  StronglySorted zn_lt (A ++ X :: B) -> score_eq (zs X) s = true -> ze X = e ->
  delete_pair s e (pairs (A ++ X :: B)) = pairs (A ++ B).
Proof.
  intros (HA & _ & [_ HB]%StronglySorted_inv)%StronglySorted_app Hs He. rewrite Forall_forall in HB.
  unfold delete_pair. rewrite !pairs_app, filter_app. f_equal.
  - apply filter_all. intros p (n & -> & Hn)%elem_of_pairs. apply not_true_is_false.
    rewrite same_key_true. simpl. intros [Hs' He']. pose proof (HA n X Hn ltac:(left)) as Hlt. unfold zn_lt in Hlt.
    rewrite He', He, key_lt_same in Hlt; [done|]. eapply score_eq_trans; [done|]. by rewrite score_eq_sym.
  - change (pairs (X :: B)) with ((zs X, ze X) :: pairs B). rewrite filter_cons_False.
    2:{ rewrite not_false_iff_true, same_key_true. done. }
    apply filter_all. intros p (n & -> & Hn)%elem_of_pairs. apply not_true_is_false.
    rewrite same_key_true. simpl. intros [Hs' He']. pose proof (HB n Hn) as Hlt. unfold zn_lt in Hlt.
    rewrite He', He, key_lt_same in Hlt; [done|]. eapply score_eq_trans; [done|]. by rewrite score_eq_sym.
Qed.

(** What follows the nodes before a key holds the key first or not at all. *)
Lemma pairs_absent A B s e :
  StronglySorted zn_lt (A ++ B) -> (forall n, n ∈ A -> key_lt (zs n) (ze n) s e = true) ->
  (forall n, n ∈ B -> key_lt (zs n) (ze n) s e = false) ->
  (forall n R, B = n :: R -> ~ (score_eq (zs n) s = true /\ ze n = e)) ->
  forall p, p ∈ pairs (A ++ B) -> same_key s e p = false.
Proof.
  intros (_ & _ & HsB)%StronglySorted_app HA HB Hhd p Hp. apply not_true_is_false. rewrite same_key_true.
  intros [Hs He]. rewrite pairs_app, elem_of_app in Hp.
  destruct Hp as [(n & -> & Hn)%elem_of_pairs|(n & -> & Hn)%elem_of_pairs]; simpl in *.
  - specialize (HA n Hn). by rewrite He, key_lt_same in HA.
  - destruct B as [|n0 B]; [by apply elem_of_nil in Hn|]. apply elem_of_cons in Hn as [->|Hn]; [by apply (Hhd n0 B)|].
    apply StronglySorted_inv in HsB as [_ HsB]. rewrite Forall_forall in HsB. specialize (HsB n Hn). unfold zn_lt in HsB.
    rewrite He, (key_lt_eq_r _ _ _ s) in HsB by done. rewrite HB in HsB; [done|left].
Qed.

Lemma delete_pair_absent s e l : (forall p, p ∈ l -> same_key s e p = false) -> delete_pair s e l = l.
Proof. apply filter_all. Qed.

(** The head of [B], as the heap has it. *)
Lemma next_node_spec {h zsl A B} : zsl_inv h zsl (A ++ B) ->
  forward (cell 0 B) = zl <$> head B /\
  forall X R, B = X :: R -> exists nx, h !! zl X = Some nx /\ ele nx = Some (ze X) /\ score nx = zs X /\
    backward nx = zl <$> last A /\ level_at h (zl X) 0 = Some (cell 0 R).
Proof.
  intros [L _ _ _ _]. pose proof (lk_heights _ _ _ _ L) as HF. apply Forall_app in HF as [_ HF]. split.
  - destruct B as [|X R]; [done|]. apply Forall_cons in HF as [HF _]. by rewrite cell_high_here by lia.
  - intros X R ->. apply Forall_cons in HF as [HF _].
    destruct (info_node _ _ _ _ _ _ (lk_info _ _ _ _ L A X R eq_refl)) as (nx & Hn & He & Hs & Hb & Hk).
    exists nx. split_and!; try done. rewrite <-(at_loc_snoc (header zsl) A X).
    apply (lk_cells _ _ _ _ L); [by rewrite <-app_assoc|]. rewrite height_snoc. lia.
Qed.

(** zslDelete: the node with this score and element, if there is one, is
    removed, and freed unless the caller asked for it. *)
Lemma zslDelete_spec {h zsl ns} s e free :
  zsl_inv h zsl ns ->
  exists h' zsl' ns' r, zslDelete h zsl s e free = Some (h', zsl', r) /\ zsl_inv h' zsl' ns' /\
    pairs ns' = delete_pair s e (pairs ns) /\
    (r <> None <-> exists p, p ∈ pairs ns /\ same_key s e p = true).
Proof.
  intros I. destruct (search_spec s e I) as (A & B & update & -> & HA & HB & Hd & Hup & [r0 H0] & Hl0).
  unfold zslDelete. rewrite Hd. cbn [mbind option_bind]. rewrite H0. cbn [mbind option_bind]. rewrite Hl0.
  cbn [mbind option_bind]. destruct (next_node_spec I) as [-> Hnx]. pose proof (zi_sorted _ _ _ I) as Hs.
  assert ((forall n R, B = n :: R -> ~ (score_eq (zs n) s = true /\ ze n = e)) ->
    exists h' zsl' ns' r, Some (h, zsl, None) = Some (h', zsl', r) /\ zsl_inv h' zsl' ns' /\
      pairs ns' = delete_pair s e (pairs (A ++ B)) /\
      (r <> @None loc <-> exists p, p ∈ pairs (A ++ B) /\ same_key s e p = true)) as Habs.
  { intros Hhd. pose proof (pairs_absent A B s e Hs HA HB Hhd) as Ha. exists h, zsl, (A ++ B), None.
    split; [done|]. split; [done|]. split; [by rewrite delete_pair_absent|]. split; [done|].
    intros (p & Hp & Hk). by rewrite Ha in Hk. }
  destruct B as [|X R]; [by apply Habs|]. change (zl <$> head (X :: R)) with (Some (zl X)). cbv iota.
  destruct (Hnx X R eq_refl) as (nx & -> & He & Hsc & _). cbn [mbind option_bind]. rewrite He, Hsc.
  cbn [mbind option_bind]. rewrite score_eq_sym.
  destruct (score_eq (zs X) s && bool_decide (sdscmp (ze X) e = Eq)) eqn:Ek.
  - apply andb_true_iff in Ek as [Ks Ke%bool_decide_eq_true%sdscmp_eq].
    destruct (zslDeleteNode_spec update I Hup) as (h' & zsl' & -> & I' & Hh & _). cbn [mbind option_bind].
    eexists _, _, (A ++ R), _. split; [done|]. split; [|split; [by rewrite pairs_delete|]].
    + destruct free; [|done]. apply zslFreeNode_spec; [done|]. rewrite Hh. by eapply deleted_notin.
    + split; [|done]. intros _. exists (zs X, ze X). rewrite same_key_true. split; [|done].
      apply elem_of_pairs. exists X. split; [done|]. rewrite elem_of_app, elem_of_cons. auto.
  - apply Habs. intros n R' [= <- <-]. rewrite <-sdscmp_eq. intros [Ks Ke].
    by rewrite Ks, bool_decide_true in Ek.
Qed.

(** ** Changing a score *)

(** The node [X] with another score, in place. *)
Definition rescore (s : Sc) (n : zn) : zn := mk_zn (zl n) (ze n) s (zh n).

Lemma cell_fmap (f : zn -> zn) i R : (forall n, zl (f n) = zl n /\ zh (f n) = zh n) -> cell i (f <$> R) = cell i R.
Proof.
  intros Hf. induction R as [|n R IH]; [done|]. rewrite fmap_cons. simpl. destruct (Hf n) as [-> ->]. by rewrite IH.
Qed.

Lemma set_score_spec h x s e s0 b k :
  info h x = Some (e, s0, b, k) ->
  exists h', set_score h x s = Some h' /\ (forall y j, level_at h' y j = level_at h y j) /\
    forall y, info h' y = if bool_decide (y = x) then Some (e, s, b, k) else info h y.
Proof.
  unfold info, set_score, level_at. destruct (h !! x) as [n|] eqn:En; [|done]. simpl. intros [= <- <- <- <-].
  eexists. split; [done|]. split.
  - intros y j. destruct (decide (y = x)) as [->|Hne]; [by rewrite lookup_insert_eq, En|by rewrite lookup_insert_ne].
  - intros y. case_bool_decide as Hy; [subst y; by rewrite lookup_insert_eq|by rewrite lookup_insert_ne].
Qed.

Lemma rescore_linked {h h' hd lvl A X B} s :
  linked h hd lvl (A ++ X :: B) -> (forall y j, level_at h' y j = level_at h y j) ->
  (forall y, info h' y = if bool_decide (y = zl X) then Some (Some (ze X), s, zl <$> last A, zh X) else info h y) ->
  linked h' hd lvl (A ++ rescore s X :: B).
Proof.
  intros L Hl Hi. pose proof (lk_locs _ _ _ _ L) as Hnd.
  set (f n := if bool_decide (zl n = zl X) then mk_zn (zl n) (ze n) (zs X) (zh n) else n).
  assert (forall n, zl (f n) = zl n /\ zh (f n) = zh n /\ ze (f n) = ze n) as Hf by (intros n; unfold f; by case_bool_decide).
  assert (forall n, n ∈ A ++ B -> zl n <> zl X) as Hne.
  { intros n Hn Heq. rewrite fmap_app, fmap_cons, <-Permutation_middle in Hnd. rewrite !NoDup_cons in Hnd.
    destruct Hnd as (_ & Hx & _). apply Hx. rewrite <-Heq, <-fmap_app. by apply list_elem_of_fmap_2. }
  assert (forall l : list zn, (forall n, n ∈ l -> n ∈ A ++ B) -> f <$> l = l) as Hid.
  { intros l Hin. rewrite <-(list_fmap_id l) at 2. apply list_fmap_ext. intros i n Hn. unfold f.
    rewrite bool_decide_false; [done|]. apply Hne, Hin. by eapply list_elem_of_lookup_2. }
  assert (f <$> (A ++ rescore s X :: B) = A ++ X :: B) as Ef.
  { rewrite fmap_app, fmap_cons, !Hid by (intros n Hn; rewrite elem_of_app; auto). f_equal. f_equal.
    unfold f. rewrite bool_decide_true by done. by destruct X. }
  assert (forall P : list zn, zl <$> last (f <$> P) = zl <$> last P) as Hlast.
  { intros P. rewrite fmap_last. destruct (last P); [|done]. simpl. by destruct (Hf z) as (-> & _). }
  split; try apply L.
  - intros P R i E HP. rewrite Hl, E in *. rewrite fmap_app in Ef.
    rewrite <-(cell_fmap f) by (intros n; destruct (Hf n) as (? & ? & ?); done).
    replace (at_loc hd P) with (at_loc hd (f <$> P)).
    2:{ unfold at_loc. rewrite fmap_last. destruct (last P); [|done]. simpl. by destruct (Hf z) as (-> & _). }
    apply (lk_cells _ _ _ _ L); [done|]. unfold height in *. rewrite fmap_last. destruct (last P); [|done].
    simpl. by destruct (Hf z) as (_ & -> & _).
  - intros P n R E. rewrite Hi. assert (n ∈ A ++ rescore s X :: B) as Hin by (rewrite E, elem_of_app, elem_of_cons; auto).
    pose proof Ef as Ef'. rewrite E, fmap_app, fmap_cons in Ef'. symmetry in Ef'.
    pose proof (lk_info _ _ _ _ L (f <$> P) (f n) (f <$> R) Ef') as Hn. rewrite Hlast in Hn.
    destruct (Hf n) as (F1 & F2 & F3). rewrite F1, F2, F3 in Hn.
    assert (n = rescore s X \/ n ∈ A ++ B) as [->|Hn'] by (rewrite elem_of_app, elem_of_cons in *; tauto).
    + rewrite bool_decide_true by done. simpl in *. rewrite (lk_info _ _ _ _ L A X B eq_refl) in Hn.
      injection Hn as _ ->. done.
    + rewrite bool_decide_false by (by apply Hne). unfold f in Hn. rewrite bool_decide_false in Hn by (by apply Hne). done.
  - destruct (lk_header _ _ _ _ L) as [s0 Hs]. exists s0. rewrite Hi, bool_decide_false; [done|].
    intros ->. apply NoDup_cons in Hnd as [Hh _]. apply Hh. rewrite fmap_app, fmap_cons, elem_of_app, elem_of_cons. auto.
  - intros i Hi'. rewrite Hl. by apply (lk_above _ _ _ _ L).
  - pose proof (lk_heights _ _ _ _ L) as HF. rewrite !Forall_app, !Forall_cons in *. done.
  - by rewrite fmap_app, fmap_cons in *.
Qed.

(** A score that lies strictly between those of the neighbours keeps the order. *)
Lemma rescore_sorted A X B s :
  StronglySorted zn_lt (A ++ X :: B) ->
  (forall n, last A = Some n -> score_lt (zs n) s = true) -> (forall n, head B = Some n -> score_lt s (zs n) = true) ->
  StronglySorted zn_lt (A ++ rescore s X :: B).
Proof.
  intros (HA & HsA & [HsB HB]%StronglySorted_inv)%StronglySorted_app Hl Hh. apply StronglySorted_app.
  assert (forall n, n ∈ A -> score_lt (zs n) s = true) as HA'.
  { intros n Hn. destruct (decide (A = [])) as [->|Hne]; [by apply elem_of_nil in Hn|].
    apply exists_last in Hne as (A' & m & ->). specialize (Hl m (last_snoc _ _)).
    apply StronglySorted_app in HsA as (Hm & _ & _). rewrite elem_of_app, list_elem_of_singleton in Hn.
    destruct Hn as [Hn| ->]; [|done]. specialize (Hm n m Hn ltac:(left)). apply key_lt_true in Hm as [Hm|[Hm _]].
    - by eapply score_trans.
    - by rewrite (score_eq_lt_l _ (zs m)). }
  assert (forall n, n ∈ B -> score_lt s (zs n) = true) as HB'.
  { intros n Hn. destruct B as [|m B]; [by apply elem_of_nil in Hn|]. specialize (Hh m eq_refl).
    apply elem_of_cons in Hn as [->|Hn]; [done|]. apply StronglySorted_inv in HsB as [_ Hm].
    rewrite Forall_forall in Hm. specialize (Hm n Hn). apply key_lt_true in Hm as [Hm|[Hm _]].
    - by eapply score_trans.
    - by rewrite <-(score_eq_lt_r (zs m)). }
  split_and!; [|done|constructor; [done|]].
  - intros a b Ha [->|Hb]%elem_of_cons; [|apply HA; [done|by right]]. apply key_lt_true. left. by apply HA'.
  - apply Forall_forall. intros n Hn. apply key_lt_true. left. by apply HB'.
Qed.

(** The score of the node at an address, as the tests of zslUpdateScore read it. *)
Lemma score_at {h zsl ns} (test : Sc -> bool) o :
  zsl_inv h zsl ns -> (forall n, o = Some n -> n ∈ ns) ->
  match zl <$> o with None => Some true | Some b => nb ← h !! b; Some (test (score nb)) end =
  Some (match o with None => true | Some n => test (zs n) end).
Proof.
  intros [L _ _ _ _] Ho. destruct o as [n|]; [|done]. simpl.
  destruct (node_in L n (Ho n eq_refl)) as (nd & -> & _ & Hs). simpl. by rewrite Hs.
Qed.

Lemma pairs_snd ns : (pairs ns).*2 = ze <$> ns.
Proof. unfold pairs. rewrite <-list_fmap_compose. done. Qed.

(** The search of a key that is there. *)
Lemma search_present {h zsl ns} s e :
  zsl_inv h zsl ns -> (exists p, p ∈ pairs ns /\ same_key s e p = true) ->
  exists A X R update, ns = A ++ X :: R /\ score_eq (zs X) s = true /\ ze X = e /\
    descend (walk (walk_fuel zsl) 32 h (before_key s e)) (level zsl) (header zsl) 0 = Some update /\
    (forall i, (i < level zsl)%nat -> exists r, update !! i = Some (upd_loc (header zsl) A i, r)) /\
    (exists r, update !! 0%nat = Some (at_loc (header zsl) A, r)) /\
    level_at h (at_loc (header zsl) A) 0 = Some (cell 0 (X :: R)).
Proof.
  intros I (p & Hp & Hpk).
  destruct (search_spec s e I) as (A & B & update & -> & HA & HB & Hd & Hup & H0 & Hl0).
  pose proof (pairs_absent A B s e (zi_sorted _ _ _ I) HA HB) as Habs.
  destruct B as [|X R]; [by rewrite Habs in Hpk|].
  destruct (decide (score_eq (zs X) s = true /\ ze X = e)) as [[Ks Ke]|Hne]; [by exists A, X, R, update|].
  rewrite Habs in Hpk; [done| |done]. by intros n R' [= <- <-].
Qed.

(** The new score fits between the neighbours: the node is kept. *)
Lemma rescore_spec {h zsl A X R} new :
  zsl_inv h zsl (A ++ X :: R) ->
  match last A with None => true | Some n => score_lt (zs n) new end &&
  match head R with None => true | Some n => score_lt new (zs n) end = true ->
  exists h', set_score h (zl X) new = Some h' /\ zsl_inv h' zsl (A ++ rescore new X :: R).
Proof.
  intros [L Ht Hlen Hs Hb] [E1 E2]%andb_true_iff.
  destruct (set_score_spec h (zl X) new (Some (ze X)) (zs X) (zl <$> last A) (zh X)) as (h' & -> & Hl & Hi).
  { by apply (lk_info _ _ _ _ L A X R). }
  exists h'. split; [done|]. split.
  - by apply (rescore_linked _ L).
  - rewrite Ht, !last_app. by destruct R.
  - by rewrite Hlen, !zlen_app, !zlen_cons.
  - apply rescore_sorted; [done| |]; [intros n Hn; by rewrite Hn in E1|intros n Hn; by rewrite Hn in E2].
  - by rewrite !zlen_app, !zlen_cons in *.
Qed.

(** Otherwise the node is deleted, the element inserted again and the node
    freed. *)
Lemma reinsert_spec {h zsl A X R} g update new k newx :
  zsl_inv h zsl (A ++ X :: R) -> NoDup (ze <$> A ++ X :: R) ->
  (forall i, (i < level zsl)%nat -> exists r, update !! i = Some (upd_loc (header zsl) A i, r)) ->
  h !! newx = None -> (1 <= k <= ZSKIPLIST_MAXLEVEL)%nat ->
  exists h1 zsl1 h2 zsl2 A' B', zslDeleteNode h zsl (zl X) update = Some (h1, zsl1) /\
    zslInsert g h1 zsl1 new (ze X) k newx = Some (h2, zsl2) /\ A ++ R = A' ++ B' /\
    zsl_inv (zslFreeNode h2 (zl X)) zsl2 (A' ++ mk_zn newx (ze X) new k :: B').
Proof.
  intros I Hnd Hup Hfresh Hk.
  destruct (zslDeleteNode_spec update I Hup) as (h1 & zsl1 & -> & I1 & Hh & _ & Hdom).
  assert (h1 !! newx = None) as Hfresh1 by (apply eq_None_not_Some; rewrite Hdom, Hfresh; by intros [? ?]).
  rewrite fmap_app, fmap_cons, <-Permutation_middle, <-fmap_app, NoDup_cons in Hnd. destruct Hnd as [Hne _].
  pose proof (zi_bound _ _ _ I) as Hb. rewrite zlen_app, zlen_cons in Hb.
  destruct (zslInsert_spec g h1 zsl1 (A ++ R) new (ze X) k newx I1 Hfresh1 Hk) as (h2 & zsl2 & A' & B' & E2 & E & I2 & Hh2).
  { rewrite zlen_app. lia. }
  { intros n Hn [_ He']. apply Hne. rewrite <-He'. by apply list_elem_of_fmap_2. }
  exists h1, zsl1, h2, zsl2, A', B'. split; [done|]. split; [done|]. split; [done|].
  apply zslFreeNode_spec; [done|]. pose proof (deleted_notin I) as Hni. rewrite E in Hni.
  assert (zl X <> newx) as Hxn.
  { intros Heq. destruct (proj2 (next_node_spec I) X R eq_refl) as (nx & Hx & _). by rewrite Heq, Hfresh in Hx. }
  rewrite Hh2, Hh, fmap_app, fmap_cons, <-Permutation_middle, <-fmap_app. rewrite !not_elem_of_cons in *. tauto.
Qed.

(** zslUpdateScore: the element is found under its new score, in the node the
    function returns. *)
Lemma zslUpdateScore_spec {h zsl ns} g cur e new k newx :
  zsl_inv h zsl ns -> NoDup (ze <$> ns) -> (exists p, p ∈ pairs ns /\ same_key cur e p = true) ->
  h !! newx = None -> (1 <= k <= ZSKIPLIST_MAXLEVEL)%nat ->
  exists h' zsl' ns' x, zslUpdateScore g h zsl cur e new k newx = Some (h', zsl', x) /\ zsl_inv h' zsl' ns' /\
    pairs ns' = sorted_insert_pair new e (delete_pair cur e (pairs ns)) /\
    exists n, n ∈ ns' /\ zl n = x /\ zs n = new /\ ze n = e.
Proof.
  intros I Hnd Hin Hfresh Hk.
  destruct (search_present cur e I Hin) as (A & X & R & update & -> & Ks & Ke & Hd & Hup & [r0 H0] & Hl0).
  pose proof (zi_sorted _ _ _ I) as Hs.
  unfold zslUpdateScore. rewrite Hd. cbn [mbind option_bind]. rewrite H0. cbn [mbind option_bind]. rewrite Hl0.
  cbn [mbind option_bind]. destruct (next_node_spec I) as [-> Hnx].
  change (zl <$> head (X :: R)) with (Some (zl X)). cbn [mbind option_bind].
  destruct (Hnx X R eq_refl) as (nx & -> & He & Hsc & Hbw & Hlx). cbn [mbind option_bind]. rewrite He, Hsc.
  cbn [mbind option_bind]. rewrite (score_eq_sym cur), Ks, bool_decide_true by (by apply sdscmp_eq). cbn [negb andb].
  rewrite Hlx. cbn [mbind option_bind]. rewrite Hbw.
  rewrite (score_at (fun s => score_lt s new) (last A) I).
  2:{ intros n [A' ->]%last_Some. rewrite !elem_of_app, list_elem_of_singleton. auto. }
  cbn [mbind option_bind].
  assert (forward (cell 0 R) = zl <$> head R) as ->.
  { pose proof I as I'. replace (A ++ X :: R) with ((A ++ [X]) ++ R) in I' by (by rewrite <-app_assoc).
    apply (next_node_spec I'). }
  rewrite (score_at (fun s => score_lt new s) (head R) I).
  2:{ intros n Hn. destruct R as [|r R]; [done|]. injection Hn as ->. rewrite elem_of_app, !elem_of_cons. auto. }
  cbn [mbind option_bind]. rewrite pairs_delete by done.
  destruct (match last A with None => true | Some n => _ end && _) eqn:Eb.
  - destruct (rescore_spec new I Eb) as (h' & -> & I'). cbn [mbind option_bind].
    exists h', zsl, (A ++ rescore new X :: R), (zl X). split; [done|]. split; [done|]. split.
    + rewrite (pairs_insert A (rescore new X) R) by apply I'. simpl. by rewrite Ke.
    + exists (rescore new X). rewrite elem_of_app, elem_of_cons. auto.
  - destruct (reinsert_spec g update new k newx I Hnd Hup Hfresh Hk) as (h1 & zsl1 & h2 & zsl2 & A' & B' & -> & E2 & E & I2).
    cbn [mbind option_bind]. rewrite E2. cbn [mbind option_bind].
    eexists _, _, (A' ++ mk_zn newx (ze X) new k :: B'), _. split; [done|]. split; [done|]. split.
    + rewrite (pairs_insert A' (mk_zn newx (ze X) new k) B') by apply I2. simpl. by rewrite E, Ke.
    + exists (mk_zn newx (ze X) new k). rewrite elem_of_app, elem_of_cons. auto.
Qed.

(** ** Deleting a range *)

(** The deletion loop removes the nodes [D] after [A] that pass the test. *)
Lemma delete_while_spec fuel {h zsl A D R} test update t removed :
  zsl_inv h zsl (A ++ D ++ R) ->
  (forall i, (i < level zsl)%nat -> exists r, update !! i = Some (upd_loc (header zsl) A i, r)) ->
  (forall D1 n D2 nd, D = D1 ++ n :: D2 -> score nd = zs n -> test nd (t + zlen D1) = true) ->
  (forall n R' nd, R = n :: R' -> score nd = zs n -> test nd (t + zlen D) = false) ->
  (length (D ++ R) <= fuel)%nat ->
  exists h' zsl', delete_while fuel h zsl test (zl <$> head (D ++ R)) update t removed =
      Some (h', zsl', removed ++ (ze <$> D)) /\ zsl_inv h' zsl' (A ++ R).
Proof.
  revert h zsl D t removed. induction fuel as [|fuel IH]; intros h zsl D t removed I Hup HD HR Hf.
  { destruct (D ++ R) as [|n l] eqn:E; [|simpl in Hf; lia]. apply app_nil in E as [-> ->]. exists h, zsl.
    change (ze <$> []) with (@nil bytes). by rewrite app_nil_r. }
  destruct D as [|X D].
  - change (ze <$> []) with (@nil bytes). rewrite app_nil_r. destruct R as [|n R]; [by exists h, zsl|].
    change (zl <$> head ([] ++ n :: R)) with (Some (zl n)). cbn [delete_while].
    destruct (proj2 (next_node_spec I) n R eq_refl) as (nx & -> & _ & Hsc & _). cbn [mbind option_bind].
    pose proof (HR n R nx eq_refl Hsc) as Ht. rewrite zlen_nil, Z.add_0_r in Ht. rewrite Ht. by exists h, zsl.
  - change (zl <$> head ((X :: D) ++ R)) with (Some (zl X)). cbn [delete_while].
    destruct (proj2 (next_node_spec I) X (D ++ R) eq_refl) as (nx & -> & He & Hsc & _ & Hl). cbn [mbind option_bind].
    pose proof (HD [] X D nx eq_refl Hsc) as Ht. rewrite zlen_nil, Z.add_0_r in Ht. rewrite Ht, Hl. cbn [mbind option_bind].
    change (A ++ (X :: D) ++ R) with (A ++ X :: D ++ R) in I.
    destruct (zslDeleteNode_spec update I Hup) as (h1 & zsl1 & -> & I1 & Hh & Hle & _). cbn [mbind option_bind].
    rewrite He. cbn [mbind option_bind]. destruct (next_node_spec I1) as [-> _].
    destruct (IH (zslFreeNode h1 (zl X)) zsl1 D (t + 1) (removed ++ [ze X])) as (h' & zsl' & -> & I').
    + apply zslFreeNode_spec; [done|]. rewrite Hh. by eapply deleted_notin.
    + intros i Hi. rewrite Hh. apply Hup. lia.
    + intros D1 n D2 nd E Hs. rewrite <-(HD (X :: D1) n D2 nd); [|by rewrite E|done]. f_equal. rewrite zlen_cons. lia.
    + intros n R' nd E Hs. rewrite <-(HR n R' nd E Hs). f_equal. rewrite zlen_cons. lia.
    + simpl in Hf. lia.
    + exists h', zsl'. rewrite <-app_assoc. done.
Qed.

(** The nodes of a range of scores. *)
Definition score_in_range (range : zrangespec Sc) (s : Sc) : bool := zslValueGteMin s range && zslValueLteMax s range.

Lemma zn_lt_score a b : zn_lt a b -> score_lt (zs b) (zs a) = false.
Proof. intros [Ha|[[_ Ha]%score_eq_spec _]]%key_lt_true; [by apply score_lt_asym|done]. Qed.

Lemma score_le_lt_trans a b c : score_lt b a = false -> score_lt b c = true -> score_lt a c = true.
Proof. intros Hba Hbc. destruct (score_cotrans b a c Hbc) as [?|?]; [congruence|done]. Qed.

Lemma score_lt_le_trans a b c : score_lt a b = true -> score_lt c b = false -> score_lt a c = true.
Proof. intros Hab Hcb. destruct (score_cotrans a c b Hab) as [?|?]; [done|congruence]. Qed.

Lemma gte_min_mono range a b : score_lt b a = false -> zslValueGteMin a range = true -> zslValueGteMin b range = true.
Proof.
  unfold zslValueGteMin. intros Hba. destruct (minex range); [intros; by eapply score_lt_le_trans|].
  rewrite !negb_true_iff, <-!not_true_iff_false. intros Ha Hb. apply Ha. by eapply score_le_lt_trans.
Qed.

Lemma lte_max_mono range a b : score_lt b a = false -> zslValueLteMax b range = true -> zslValueLteMax a range = true.
Proof.
  unfold zslValueLteMax. intros Hba. destruct (maxex range); [intros; by eapply score_le_lt_trans|].
  rewrite !negb_true_iff, <-!not_true_iff_false. intros Hb Ha. apply Hb. by eapply score_lt_le_trans.
Qed.

(** Below, inside and above a range. *)
Lemma min_split range ns :
  StronglySorted zn_lt ns -> exists A B, ns = A ++ B /\ (forall n, n ∈ A -> zslValueGteMin (zs n) range = false) /\
    (forall n, n ∈ B -> zslValueGteMin (zs n) range = true) /\
    cuts (fun y => Some (negb (zslValueGteMin (score y) range))) A B.
Proof.
  intros Hs. destruct (sorted_split (fun n => negb (zslValueGteMin (zs n) range)) ns Hs) as (A & B & -> & HA & HB).
  { intros a b Hab. rewrite !negb_true_iff, <-!not_true_iff_false. intros Hb Ha. apply Hb.
    eapply gte_min_mono; [by apply zn_lt_score|done]. }
  exists A, B. split; [done|]. split; [intros n Hn; by apply negb_true_iff, HA|].
  split; [intros n Hn; by apply negb_false_iff, HB|].
  split; intros n nd Hn _ Hsc; rewrite Hsc; f_equal; [by apply HA|by apply HB].
Qed.

Lemma max_split range ns :
  StronglySorted zn_lt ns -> exists A B, ns = A ++ B /\ (forall n, n ∈ A -> zslValueLteMax (zs n) range = true) /\
    (forall n, n ∈ B -> zslValueLteMax (zs n) range = false) /\
    cuts (fun y => Some (zslValueLteMax (score y) range)) A B.
Proof.
  intros Hs. destruct (sorted_split (fun n => zslValueLteMax (zs n) range) ns Hs) as (A & B & -> & HA & HB).
  { intros a b Hab Hb. eapply lte_max_mono; [by apply zn_lt_score|done]. }
  exists A, B. split; [done|]. split; [done|]. split; [done|].
  split; intros n nd Hn _ Hsc; rewrite Hsc; f_equal; [by apply HA|by apply HB].
Qed.

(** The nodes found by a descent that stops at [A]. *)
Lemma descend_inv {h zsl A B} loop :
  zsl_inv h zsl (A ++ B) -> stops_at (hd := header zsl) (lvl := level zsl) A loop ->
  exists update, descend loop (level zsl) (header zsl) 0 = Some update /\
    (forall i, (i < level zsl)%nat -> exists r, update !! i = Some (upd_loc (header zsl) A i, r)) /\
    update !! 0%nat = Some (at_loc (header zsl) A, zlen A) /\ level_at h (at_loc (header zsl) A) 0 = Some (cell 0 B).
Proof.
  intros [L _ _ _ _] Hl. destruct (descend_header A loop Hl) as (update & -> & _ & Hup). exists update.
  pose proof (lk_level _ _ _ _ L). pose proof (lk_heights _ _ _ _ L) as [HF _]%Forall_app.
  split; [done|]. split; [eauto|]. split; [by rewrite Hup, (high_prefix_0 A HF) by lia|].
  apply (lk_cells _ _ _ _ L); [done|]. apply ends_high_height; [|lia].
  rewrite <-(high_prefix_0 A HF). destruct (high_prefix_split 0 A) as (? & _ & _ & ?). done.
Qed.

Lemma walk_inv {h zsl A B} test w :
  zsl_inv h zsl (A ++ B) -> cuts test A B -> 32 <= w ->
  stops_at (hd := header zsl) (lvl := level zsl) A (walk (walk_fuel zsl) w h test).
Proof.
  intros [L _ Hlen _ Hb] Hc Hw. apply (walk_stops L _ A B); try done; [|lia|].
  - rewrite zlen_app in Hb. pose proof (zlen_nonneg B). pose proof (Z.pow_le_mono_r 2 32 w). lia.
  - unfold walk_fuel. rewrite Hlen. unfold zlen. lia.
Qed.

(** zslDeleteRangeByScore removes exactly the nodes of the range. *)
Lemma zslDeleteRangeByScore_spec {h zsl ns} range :
  zsl_inv h zsl ns ->
  exists h' zsl' ns', zslDeleteRangeByScore h zsl range =
      Some (h', zsl', (filter (fun p => score_in_range range p.1 = true) (pairs ns)).*2) /\
    zsl_inv h' zsl' ns' /\ pairs ns' = filter (fun p => score_in_range range p.1 = false) (pairs ns).
Proof.
  intros I. pose proof (zi_sorted _ _ _ I) as Hs. destruct (min_split range ns Hs) as (A & B & -> & HA & HB & Hcut).
  unfold zslDeleteRangeByScore. destruct (descend_inv _ I (walk_inv _ 64 I Hcut ltac:(lia))) as (update & -> & Hup & H0 & Hl0).
  cbn [mbind option_bind]. unfold descend_last. rewrite H0, Hl0. cbn [mbind option_bind].
  apply StronglySorted_app in Hs as (_ & _ & HsB).
  destruct (max_split range B HsB) as (D & R & -> & HD & HR & _). destruct (next_node_spec I) as [-> _].
  destruct (delete_while_spec (walk_fuel zsl) (fun n _ => zslValueLteMax (score n) range) update 0 [] I Hup)
    as (h' & zsl' & -> & I').
  - intros D1 n D2 nd -> ->. apply HD. rewrite elem_of_app, elem_of_cons. auto.
  - intros n R' nd -> ->. apply HR. left.
  - unfold walk_fuel. rewrite (zi_length _ _ _ I), zlen_app. unfold zlen. lia.
  - assert (forall p, p ∈ pairs A -> score_in_range range p.1 = false) as HpA.
    { intros p (n & -> & Hn)%elem_of_pairs. unfold score_in_range. simpl. by rewrite HA. }
    assert (forall p, p ∈ pairs D -> score_in_range range p.1 = true) as HpD.
    { intros p (n & -> & Hn)%elem_of_pairs. unfold score_in_range. simpl. rewrite HB, HD by (rewrite ?elem_of_app; auto). done. }
    assert (forall p, p ∈ pairs R -> score_in_range range p.1 = false) as HpR.
    { intros p (n & -> & Hn)%elem_of_pairs. unfold score_in_range. simpl. rewrite HR by done. apply andb_false_r. }
    exists h', zsl', (A ++ R). rewrite !pairs_app, !filter_app. split; [|split; [done|]].
    + rewrite (filter_none _ (pairs A)), (filter_all _ (pairs D)), (filter_none _ (pairs R)).
      * rewrite app_nil_r, !app_nil_l. by rewrite pairs_snd.
      * intros p Hp. by rewrite HpR.
      * done.
      * intros p Hp. by rewrite HpA.
    + rewrite (filter_all _ (pairs A)), (filter_none _ (pairs D)), (filter_all _ (pairs R)); try done.
      intros p Hp. by rewrite HpD.
Qed.

(** The nodes of ranks below [bound], found by a descent bounded by a rank. *)
Lemma rank_split {h zsl ns} bound :
  zsl_inv h zsl ns -> 1 <= bound -> let r := Z.to_nat (bound - 1) in
  ns = take r ns ++ drop r ns /\ (drop r ns = [] \/ zlen (take r ns) = bound - 1) /\ zlen (take r ns) <= bound - 1 /\
  stops_at (hd := header zsl) (lvl := level zsl) (take r ns) (walk_rank (walk_fuel zsl) h bound).
Proof.
  intros [L _ Hlen _ Hb] Hbd r. assert (ns = take r ns ++ drop r ns) as E by (by rewrite take_drop).
  assert (drop r ns = [] \/ zlen (take r ns) = bound - 1) as HB.
  { unfold zlen. rewrite length_take. destruct (decide (length ns <= r)%nat); [left; by apply drop_ge|right; lia]. }
  assert (zlen (take r ns) <= bound - 1) as HA by (unfold zlen; rewrite length_take; lia).
  split; [done|]. split; [done|]. split; [done|].
  apply (walk_rank_stops L _ (drop r ns)); try done. unfold walk_fuel. rewrite Hlen. unfold zlen. lia.
Qed.

Lemma pairs_take r ns : pairs (take r ns) = take r (pairs ns).
Proof. apply fmap_take. Qed.
Lemma pairs_drop r ns : pairs (drop r ns) = drop r (pairs ns).
Proof. apply fmap_drop. Qed.

(** zslDeleteRangeByRank removes the nodes of the ranks [start] to [end]. *)
Lemma zslDeleteRangeByRank_spec {h zsl ns} start end_ :
  zsl_inv h zsl ns -> 1 <= start <= end_ + 1 ->
  exists h' zsl' ns', zslDeleteRangeByRank h zsl start end_ =
      Some (h', zsl', (drop (Z.to_nat (start - 1)) (take (Z.to_nat end_) (pairs ns))).*2) /\
    zsl_inv h' zsl' ns' /\ pairs ns' = take (Z.to_nat (start - 1)) (pairs ns) ++ drop (Z.to_nat end_) (pairs ns).
Proof.
  intros I Hse. destruct (rank_split start I ltac:(lia)) as (E & HB & _ & Hst).
  set (r := Z.to_nat (start - 1)) in *. set (m := Z.to_nat (end_ - (start - 1))).
  set (A := take r ns) in *. set (D := take m (drop r ns)). set (R := drop m (drop r ns)).
  assert (drop r ns = D ++ R) as EB by (unfold D, R; by rewrite take_drop).
  assert (D = drop r (take (Z.to_nat end_) ns)) as ED.
  { unfold D. rewrite firstn_skipn_comm. f_equal. f_equal. lia. }
  assert (R = drop (Z.to_nat end_) ns) as ER by (unfold R; rewrite drop_drop; f_equal; lia).
  rewrite EB in E, HB. rewrite E in I. unfold zslDeleteRangeByRank.
  destruct (descend_inv _ I Hst) as (update & -> & Hup & H0 & Hl0).
  cbn [mbind option_bind]. rewrite H0. cbn [mbind option_bind]. rewrite Hl0. cbn [mbind option_bind].
  destruct (next_node_spec I) as [-> _].
  destruct (delete_while_spec (walk_fuel zsl) (fun _ t => t <=? end_) update (zlen A + 1) [] I Hup)
    as (h' & zsl' & -> & I').
  - intros D1 n D2 nd HD _. apply Z.leb_le. destruct HB as [[HB _]%app_nil|HB]; [by rewrite HB in HD; destruct D1|].
    assert (zlen D <= Z.of_nat m) as Hm by (unfold D, zlen; rewrite length_take; lia).
    rewrite HD, zlen_app, zlen_cons in Hm. pose proof (zlen_nonneg D2). lia.
  - intros n R' nd HR _. apply Z.leb_gt. destruct HB as [[_ HB]%app_nil|HB]; [by rewrite HB in HR|].
    assert (zlen D = Z.of_nat m) as Hm; [|lia]. unfold D, zlen. rewrite length_take. apply (f_equal length) in HR.
    unfold R in HR. rewrite length_drop in HR. simpl in HR. lia.
  - unfold walk_fuel. rewrite (zi_length _ _ _ I), zlen_app. unfold zlen. lia.
  - exists h', zsl', (A ++ R). split; [|split; [done|]].
    + rewrite <-pairs_take, <-pairs_drop, pairs_snd, <-ED. done.
    + rewrite pairs_app, ER. unfold A. by rewrite pairs_take, pairs_drop.
Qed.

(** ** Ranks *)

(** Below the height of its last node a prefix is high. *)
Lemma high_prefix_snoc A X i : (i < zh X)%nat -> high_prefix i (A ++ [X]) = A ++ [X].
Proof. intros Hi. rewrite <-(app_nil_r (A ++ [X])) at 1. apply high_prefix_unique; [|done]. right. by exists A, X. Qed.

(** Above it the prefix stops earlier. *)
Lemma high_prefix_short A X i : (zh X <= i)%nat -> exists A2, A = high_prefix i (A ++ [X]) ++ A2.
Proof.
  intros Hi. destruct (high_prefix_split i A) as (A2 & E & Hlow & Hend). exists A2. rewrite E at 2.
  rewrite <-app_assoc, high_prefix_unique; [done|done|]. apply Forall_app. split; [done|]. by constructor.
Qed.

Lemma upto_key_zn s e n nd :
  ele nd = Some (ze n) -> score nd = zs n -> upto_key s e nd = Some (negb (key_lt s e (zs n) (ze n))).
Proof.
  intros He Hs. unfold upto_key, key_lt. rewrite He, Hs, (sdscmp_antisym (ze n) e).
  destruct (score_trichotomy (zs n) s) as [(H1 & H2 & H3)|[(H1 & H2 & H3)|(H1 & H2 & H3)]].
  all: rewrite (score_eq_sym s (zs n)), ?H1, ?H2, ?H3; simpl; try done.
  f_equal. rewrite <-bool_decide_not. apply bool_decide_ext. by destruct (sdscmp (ze n) e).
Qed.

Lemma upto_split s e ns :
  StronglySorted zn_lt ns ->
  exists A B, ns = A ++ B /\ (forall n, n ∈ A -> key_lt s e (zs n) (ze n) = false) /\
    (forall n, n ∈ B -> key_lt s e (zs n) (ze n) = true) /\ cuts (upto_key s e) A B.
Proof.
  intros Hs. destruct (sorted_split (fun n => negb (key_lt s e (zs n) (ze n))) ns Hs) as (A & B & -> & HA & HB).
  { intros a b Hab. rewrite !negb_true_iff, <-!not_true_iff_false. intros Hb Ha. apply Hb. by eapply key_lt_trans. }
  exists A, B. split; [done|]. split; [intros n Hn; by apply negb_true_iff, HA|].
  split; [intros n Hn; by apply negb_false_iff, HB|].
  split; intros n nd Hn He Hsc; rewrite (upto_key_zn s e n nd) by done; f_equal; [by apply HA|by apply HB].
Qed.

(** The node at the end of a prefix holds an element of the prefix. *)
Lemma ele_at {h zsl ns} P R :
  zsl_inv h zsl ns -> ns = P ++ R ->
  exists nd, h !! at_loc (header zsl) P = Some nd /\ ele nd = ze <$> last P.
Proof.
  intros [L _ _ _ _] ->. unfold at_loc. destruct (last P) as [n|] eqn:E.
  - apply last_Some in E as [P' ->]. destruct (node_in L n) as (nd & Hn & He & _); [|by exists nd].
    rewrite !elem_of_app, list_elem_of_singleton. auto.
  - destruct (lk_header _ _ _ _ L) as [s0 Hs]. unfold info in Hs. destruct (h !! header zsl) as [nd|]; [|done].
    exists nd. split; [done|]. by injection Hs.
Qed.

(** The test that ends the loop of zslGetRank. *)
Lemma found_at {h zsl ns} P R e nd :
  zsl_inv h zsl ns -> ns = P ++ R -> h !! at_loc (header zsl) P = Some nd ->
  bool_decide ((fun ex => sdscmp ex e) <$> ele nd = Some Eq) = bool_decide (ze <$> last P = Some e).
Proof.
  intros I E Hnd. destruct (ele_at P R I E) as (nd' & Hnd' & He). rewrite Hnd' in Hnd. injection Hnd as ->.
  apply bool_decide_ext. rewrite He. destruct (last P) as [n|]; [|done]. simpl. split.
  - intros [= ->%sdscmp_eq]. done.
  - intros [= ->]. by rewrite sdscmp_refl.
Qed.

(** The loop of zslGetRank, for an element at the end of [A]. *)
Lemma getrank_found {h zsl A X B} s e k P1 :
  zsl_inv h zsl ((A ++ [X]) ++ B) -> cuts (upto_key s e) (A ++ [X]) B -> ze X = e -> e ∉ (ze <$> A) ->
  (1 <= k <= level zsl)%nat -> (exists A2, A ++ [X] = P1 ++ A2) -> ends_high k P1 ->
  zslGetRank_loop (walk_fuel zsl) h s e k (at_loc (header zsl) P1) (zlen P1) = Some (zlen (A ++ [X])).
Proof.
  intros I Hc He Hne. pose proof (walk_inv _ 64 I Hc ltac:(lia)) as Hst. pose proof I as [L _ _ _ _].
  pose proof (lk_heights _ _ _ _ L) as [[_ [HX _]%Forall_cons]%Forall_app _]%Forall_app.
  revert P1. induction k as [|i IH]; intros P1 Hk [A2 EA] HP; [lia|]. cbn [zslGetRank_loop].
  rewrite (Hst i P1 A2) by (done || lia || (apply (ends_high_weaken i (S i)); [done|lia])). cbn [mbind option_bind].
  destruct (high_prefix_split i (A ++ [X])) as (A3 & E3 & _ & Hend).
  destruct (ele_at (high_prefix i (A ++ [X])) (A3 ++ B) I) as (nd & Hnd & _); [by rewrite app_assoc, <-E3|].
  rewrite Hnd. cbn [mbind option_bind].
  rewrite (found_at (high_prefix i (A ++ [X])) (A3 ++ B) e nd I) by (done || by rewrite app_assoc, <-E3).
  destruct (decide (i < zh X)%nat) as [Hi|Hi].
  - rewrite high_prefix_snoc, last_snoc by done. simpl. by rewrite bool_decide_true by (by rewrite He).
  - rewrite bool_decide_false.
    + apply IH; [lia|by exists A3|done].
    + destruct (high_prefix_short A X i ltac:(lia)) as (A4 & E4). destruct (last (high_prefix i (A ++ [X]))) as [n|] eqn:El; [|done].
      simpl. intros [= Hn]. apply Hne. rewrite <-Hn. apply list_elem_of_fmap_2. rewrite E4, elem_of_app. left.
      apply last_Some in El as [l' ->]. rewrite elem_of_app, list_elem_of_singleton. auto.
Qed.

Lemma getrank_absent {h zsl A B} s e k P1 :
  zsl_inv h zsl (A ++ B) -> cuts (upto_key s e) A B -> e ∉ (ze <$> A) ->
  (k <= level zsl)%nat -> (exists A2, A = P1 ++ A2) -> ends_high k P1 ->
  zslGetRank_loop (walk_fuel zsl) h s e k (at_loc (header zsl) P1) (zlen P1) = Some 0.
Proof.
  intros I Hc Hne. pose proof (walk_inv _ 64 I Hc ltac:(lia)) as Hst.
  revert P1. induction k as [|i IH]; intros P1 Hk [A2 EA] HP; [done|]. cbn [zslGetRank_loop].
  rewrite (Hst i P1 A2) by (done || lia || (apply (ends_high_weaken i (S i)); [done|lia])). cbn [mbind option_bind].
  destruct (high_prefix_split i A) as (A3 & E3 & _ & Hend).
  assert (A ++ B = high_prefix i A ++ A3 ++ B) as E' by (by rewrite app_assoc, <-E3).
  destruct (ele_at (high_prefix i A) (A3 ++ B) I E') as (nd & Hnd & _). rewrite Hnd. cbn [mbind option_bind].
  rewrite (found_at _ _ e nd I E' Hnd), bool_decide_false; [apply IH; [lia|by exists A3|done]|].
  destruct (last (high_prefix i A)) as [n|] eqn:El; [|done]. simpl. intros [= Hn]. apply Hne. rewrite <-Hn.
  apply list_elem_of_fmap_2. rewrite E3, elem_of_app. left. apply last_Some in El as [l' ->].
  rewrite elem_of_app, list_elem_of_singleton. auto.
Qed.

(** The nodes up to a key between [X] and the nodes after it are those up to [X]. *)
Lemma upto_here A B A' X B' s e :
  A ++ B = A' ++ X :: B' -> key_lt s e (zs X) (ze X) = false -> (forall n, n ∈ B' -> key_lt s e (zs n) (ze n) = true) ->
  (forall n, n ∈ A -> key_lt s e (zs n) (ze n) = false) -> (forall n, n ∈ B -> key_lt s e (zs n) (ze n) = true) ->
  A = A' ++ [X] /\ B = B'.
Proof.
  intros E HX HB' HA HB. apply app_eq_app in E as (l & [[-> E]|[-> E]]).
  - destruct l as [|X' l]; simpl in E.
    + subst B. specialize (HB X ltac:(left)). congruence.
    + injection E as <- ->. destruct l as [|m l]; [done|]. exfalso.
      specialize (HB' m ltac:(rewrite elem_of_app, elem_of_cons; auto)).
      specialize (HA m ltac:(rewrite elem_of_app, !elem_of_cons; auto)). congruence.
  - specialize (HB X). rewrite E, elem_of_app, elem_of_cons, HX in HB. discriminate HB; auto.
Qed.

(** The search for a key between a node with the element and the nodes after
    it ends at that node, whatever its score. *)
Lemma zslGetRank_at {h zsl A X B} s e :
  zsl_inv h zsl (A ++ X :: B) -> NoDup (ze <$> A ++ X :: B) -> ze X = e ->
  key_lt s e (zs X) (ze X) = false -> (forall n, n ∈ B -> key_lt s e (zs n) (ze n) = true) ->
  zslGetRank h zsl s e = Some (zlen A + 1).
Proof.
  intros I Hnd He HX HB. pose proof (lk_level _ _ _ _ (zi_linked _ _ _ I)) as Hlvl.
  destruct (upto_split s e _ (zi_sorted _ _ _ I)) as (A1 & B1 & E & HA1 & HB1 & Hc).
  destruct (upto_here A1 B1 A X B s e (eq_sym E) HX HB HA1 HB1) as [-> ->].
  replace (zlen A + 1) with (zlen (A ++ [X])) by (by rewrite zlen_app, zlen_cons, zlen_nil).
  apply (getrank_found (A := A) (X := X) (B := B) s e (level zsl) []); try done.
  - by rewrite <-app_assoc.
  - rewrite <-He. rewrite fmap_app in Hnd. apply NoDup_app in Hnd as (_ & Hd & _). intros Hin.
    apply (Hd (ze X)); [done|left].
  - lia.
  - by exists (A ++ [X]).
  - by left.
Qed.

(** zslGetRank: the 1-based position of an element that is in the list with
    this score, 0 when the element is not in the list. *)
Lemma zslGetRank_spec {h zsl ns} s e :
  zsl_inv h zsl ns -> NoDup (ze <$> ns) ->
  (forall A X B, ns = A ++ X :: B -> ze X = e -> score_eq (zs X) s = true -> zslGetRank h zsl s e = Some (zlen A + 1)) /\
  (e ∉ (ze <$> ns) -> zslGetRank h zsl s e = Some 0).
Proof.
  intros I Hnd. split.
  - intros A X B -> He Hs.
    assert (forall n, key_lt s e (zs n) (ze n) = key_lt (zs X) (ze X) (zs n) (ze n)) as Hkey.
    { intros n. rewrite He. apply key_lt_eq_l. by rewrite score_eq_sym. }
    apply (zslGetRank_at (X := X) (B := B)); try done; [by rewrite Hkey, key_lt_irrefl|].
    pose proof (zi_sorted _ _ _ I) as (_ & _ & [_ H2]%StronglySorted_inv)%StronglySorted_app.
    rewrite Forall_forall in H2. intros n Hn. rewrite Hkey. by apply H2.
  - destruct (upto_split s e ns (zi_sorted _ _ _ I)) as (A & B & -> & HA & HB & Hc).
    intros Hne. apply (getrank_absent (A := A) (B := B) s e _ []); try done; [|by exists A|by left].
    rewrite fmap_app, not_elem_of_app in Hne. tauto.
Qed.

(** The loop of zslGetElementByRank. *)
Lemma byrank_loop {h zsl A B} rank k P1 :
  zsl_inv h zsl (A ++ B) -> 1 <= rank -> zlen A <= rank -> (B = [] \/ zlen A = rank) ->
  stops_at (hd := header zsl) (lvl := level zsl) A (walk_rank (walk_fuel zsl) h (rank + 1)) ->
  (1 <= k <= level zsl)%nat -> (exists A2, A = P1 ++ A2) -> ends_high k P1 ->
  zslGetElementByRank_loop (walk_fuel zsl) h rank k (at_loc (header zsl) P1) (zlen P1) =
    Some (if zlen A =? rank then Some (at_loc (header zsl) A) else None).
Proof.
  intros I Hr HA HB Hst. pose proof (lk_heights _ _ _ _ (zi_linked _ _ _ I)) as [HF _]%Forall_app.
  revert P1. induction k as [|i IH]; intros P1 Hk [A2 EA] HP; [lia|]. cbn [zslGetElementByRank_loop].
  rewrite (Hst i P1 A2) by (done || lia || (apply (ends_high_weaken i (S i)); [done|lia])). cbn [mbind option_bind].
  destruct (high_prefix_split i A) as (A3 & E3 & _ & Hend).
  assert (zlen A = zlen (high_prefix i A) + zlen A3) as Hz by (rewrite E3 at 1; apply zlen_app).
  pose proof (zlen_nonneg A3). destruct (Z.eqb_spec (zlen (high_prefix i A)) rank) as [Hp|Hp].
  - assert (A3 = []) as -> by (apply zlen_0_inv; lia). rewrite app_nil_r in E3. rewrite <-E3 in *.
    by rewrite (proj2 (Z.eqb_eq _ _)).
  - destruct i as [|i]; [|apply IH; [lia|by exists A3|done]].
    rewrite (high_prefix_0 A HF) in Hp. by rewrite (proj2 (Z.eqb_neq _ _)).
Qed.

(** zslGetElementByRank: the node of a 1-based rank, NULL past the end. *)
Lemma zslGetElementByRank_spec {h zsl ns} rank :
  zsl_inv h zsl ns -> 1 <= rank ->
  zslGetElementByRank h zsl rank = Some (zl <$> ns !! Z.to_nat (rank - 1)).
Proof.
  intros I Hr. destruct (rank_split (rank + 1) I ltac:(lia)) as (E & HB & HA & Hst).
  replace (rank + 1 - 1) with rank in * by lia. pose proof (lk_level _ _ _ _ (zi_linked _ _ _ I)) as Hlvl.
  pose proof I as I'. rewrite E in I'. unfold zslGetElementByRank.
  etrans; [apply (byrank_loop rank (level zsl) [] I' Hr HA HB Hst); [lia|by eexists|by left]|]. f_equal.
  destruct (Z.eqb_spec (zlen (take (Z.to_nat rank) ns)) rank) as [Hz|Hz].
  - unfold zlen in Hz. rewrite length_take in Hz.
    destruct (lookup_lt_is_Some_2 ns (Z.to_nat (rank - 1))) as [n Hn]; [lia|]. rewrite Hn.
    replace (Z.to_nat rank) with (S (Z.to_nat (rank - 1))) by lia. rewrite (take_S_r _ _ n) by done.
    by rewrite at_loc_snoc.
  - rewrite lookup_ge_None_2; [done|]. unfold zlen in *. rewrite length_take in *. lia.
Qed.

(** ** Ranges *)

Lemma score_eq_empty range s :
  score_lt (zmax range) (zmin range) || (score_eq (zmin range) (zmax range) && (minex range || maxex range)) = true ->
  score_in_range range s = false.
Proof.
  unfold score_in_range, zslValueGteMin, zslValueLteMax. intros E. apply not_true_is_false. intros [H1 H2]%andb_true_iff.
  apply orb_true_iff in E as [E|[Es E]%andb_true_iff].
  - assert (score_lt s (zmin range) = false) as Hs1.
    { destruct (minex range); [by apply score_lt_asym|by apply negb_true_iff]. }
    assert (score_lt (zmax range) s = false) as Hs2.
    { destruct (maxex range); [by apply score_lt_asym|by apply negb_true_iff]. }
    destruct (score_cotrans _ s _ E); congruence.
  - rewrite (score_eq_lt_l (zmin range) (zmax range)), (score_eq_lt_r (zmin range) (zmax range)) in H1 by done.
    destruct (minex range), (maxex range); rewrite ?negb_true_iff in *; try done.
    + pose proof (score_lt_asym _ _ H1). congruence.
    + congruence.
    + congruence.
Qed.

Lemma last_head_sorted ns n : StronglySorted zn_lt ns -> n ∈ ns ->
  (forall t, last ns = Some t -> score_lt (zs t) (zs n) = false) /\
  (forall f, head ns = Some f -> score_lt (zs n) (zs f) = false).
Proof.
  intros Hs Hn. split.
  - intros t [ns' ->]%last_Some. apply StronglySorted_app in Hs as (Ht & _ & _).
    rewrite elem_of_app, list_elem_of_singleton in Hn. destruct Hn as [Hn| ->]; [|apply score_irrefl].
    apply zn_lt_score, Ht; [done|left].
  - intros f Hf. destruct ns as [|f' ns]; [done|]. injection Hf as ->. apply StronglySorted_inv in Hs as [_ Hs].
    rewrite Forall_forall in Hs. apply elem_of_cons in Hn as [->|Hn]; [apply score_irrefl|]. by apply zn_lt_score, Hs.
Qed.

(** zslIsInRange: when it says no, no node is in the range; when it says yes,
    the last node is not below it and the first is not above it. *)
Lemma zslIsInRange_spec {h zsl ns} range :
  zsl_inv h zsl ns ->
  (zslIsInRange h zsl range = Some false /\ forall n, n ∈ ns -> score_in_range range (zs n) = false) \/
  (zslIsInRange h zsl range = Some true /\ exists f t, head ns = Some f /\ last ns = Some t /\
     zslValueGteMin (zs t) range = true /\ zslValueLteMax (zs f) range = true).
Proof.
  intros I. pose proof I as [L Ht _ Hs _]. unfold zslIsInRange.
  destruct (_ || _) eqn:Ee; [left; split; [done|]; intros n _; by apply score_eq_empty|].
  rewrite Ht. destruct ns as [|f ns]; [left; split; [done|]; by intros n ?%elem_of_nil|].
  destruct (last (f :: ns)) as [t|] eqn:Et; [|by apply last_None in Et]. cbn [fmap option_fmap option_map].
  assert (t ∈ f :: ns) as Hti by (apply last_Some in Et as [l ->]; rewrite elem_of_app, list_elem_of_singleton; auto).
  destruct (node_in L t Hti) as (nt & -> & _ & Hst). cbn [mbind option_bind]. rewrite Hst.
  destruct (zslValueGteMin (zs t) range) eqn:Eg.
  - cbn [negb]. pose proof (lk_level _ _ _ _ L).
    pose proof (lk_cells _ _ _ _ L [] (f :: ns) 0 eq_refl ltac:(unfold height; simpl; lia)) as Hc.
    change (at_loc (header zsl) []) with (header zsl) in Hc. rewrite Hc. cbn [mbind option_bind].
    destruct (next_node_spec (A := []) I) as [-> _]. change (zl <$> head (f :: ns)) with (Some (zl f)). cbv iota.
    destruct (node_in L f ltac:(left)) as (nf & -> & _ & Hsf). cbn [mbind option_bind]. rewrite Hsf.
    destruct (zslValueLteMax (zs f) range) eqn:El; [right; split; [done|]; by exists f, t|left].
    split; [done|]. intros n Hn. unfold score_in_range. apply andb_false_iff. right. apply not_true_is_false. intros Hm.
    rewrite (lte_max_mono range (zs f) (zs n)) in El; [done| |done]. by apply (last_head_sorted (f :: ns) n Hs Hn).
  - left. split; [done|]. intros n Hn. unfold score_in_range. apply andb_false_iff. left. apply not_true_is_false. intros Hm.
    rewrite (gte_min_mono range (zs n) (zs t)) in Eg; [done| |done]. by apply (last_head_sorted (f :: ns) n Hs Hn).
Qed.

(** The nodes of a range, in order. *)
Definition range_nodes (range : zrangespec Sc) (ns : list zn) : list zn := filter (fun n => score_in_range range (zs n) = true) ns.

Lemma range_nodes_none range ns : (forall n, n ∈ ns -> score_in_range range (zs n) = false) -> range_nodes range ns = [].
Proof. intros Hn. apply filter_none. intros n Hin. by rewrite Hn. Qed.

(** zslFirstInRange: the first node of the range, or NULL. *)
Lemma zslFirstInRange_spec {h zsl ns} range :
  zsl_inv h zsl ns -> zslFirstInRange h zsl range = Some (zl <$> head (range_nodes range ns)).
Proof.
  intros I. unfold zslFirstInRange.
  destruct (zslIsInRange_spec range I) as [[-> Hn]|[-> (f & t & Hf & Ht & Hgt & Hlf)]].
  { cbn [mbind option_bind negb]. by rewrite range_nodes_none. }
  cbn [mbind option_bind negb]. pose proof (zi_sorted _ _ _ I) as Hs.
  destruct (min_split range ns Hs) as (A & B & -> & HA & HB & Hcut).
  destruct (descend_inv _ I (walk_inv _ 64 I Hcut ltac:(lia))) as (update & -> & _ & H0 & Hl0).
  cbn [mbind option_bind]. unfold descend_last. rewrite H0, Hl0. cbn [mbind option_bind].
  destruct (next_node_spec I) as [-> Hnx]. destruct B as [|X R].
  { rewrite app_nil_r in Ht. apply last_Some in Ht as [A' ->]. rewrite HA in Hgt; [done|].
    rewrite elem_of_app, list_elem_of_singleton. auto. }
  change (zl <$> head (X :: R)) with (Some (zl X)). cbn [mbind option_bind].
  destruct (Hnx X R eq_refl) as (nx & -> & _ & Hsc & _). cbn [mbind option_bind]. rewrite Hsc. f_equal.
  unfold range_nodes. rewrite filter_app, (filter_none _ A). 2:{ intros n Hn. unfold score_in_range. by rewrite HA. }
  rewrite app_nil_l. destruct (zslValueLteMax (zs X) range) eqn:El; cbn [negb].
  - rewrite filter_cons_True; [done|]. unfold score_in_range. rewrite HB, El; [done|left].
  - rewrite filter_none; [done|]. intros n Hn. unfold score_in_range. rewrite andb_true_iff. intros [_ Hl].
    apply StronglySorted_app in Hs as (_ & _ & Hs). destruct (last_head_sorted _ n Hs Hn) as [_ Hh].
    by rewrite (lte_max_mono range (zs X) (zs n)) in El; [|apply Hh|].
Qed.

(** zslLastInRange: the last node of the range, or NULL. *)
Lemma zslLastInRange_spec {h zsl ns} range :
  zsl_inv h zsl ns -> zslLastInRange h zsl range = Some (zl <$> last (range_nodes range ns)).
Proof.
  intros I. unfold zslLastInRange.
  destruct (zslIsInRange_spec range I) as [[-> Hn]|[-> (f & t & Hf & Ht & Hgt & Hlf)]].
  { cbn [mbind option_bind negb]. by rewrite range_nodes_none. }
  cbn [mbind option_bind negb]. pose proof (zi_sorted _ _ _ I) as Hs. pose proof (zi_linked _ _ _ I) as L.
  destruct (max_split range ns Hs) as (A & B & -> & HA & HB & Hcut).
  destruct (descend_inv _ I (walk_inv _ 64 I Hcut ltac:(lia))) as (update & -> & _ & H0 & Hl0).
  cbn [mbind option_bind]. unfold descend_last. rewrite H0. destruct (decide (A = [])) as [->|Hne].
  { simpl in Hf. destruct B as [|b B]; [done|]. injection Hf as ->. rewrite HB in Hlf; [done|left]. }
  apply exists_last in Hne as (A' & X & ->). rewrite at_loc_snoc.
  destruct (node_in L X) as (nx & -> & _ & Hsc); [rewrite !elem_of_app, list_elem_of_singleton; auto|].
  cbn [mbind option_bind]. rewrite Hsc. f_equal. unfold range_nodes. rewrite !filter_app, (filter_none _ B), app_nil_r.
  2:{ intros n Hn. unfold score_in_range. rewrite (HB n Hn), andb_false_r. done. }
  destruct (zslValueGteMin (zs X) range) eqn:Eg; cbn [negb].
  - rewrite filter_cons_True; [by rewrite filter_nil, last_snoc|]. unfold score_in_range. rewrite Eg, HA; [done|].
    rewrite elem_of_app, list_elem_of_singleton. auto.
  - rewrite <-filter_app, filter_none; [done|]. intros n Hn. unfold score_in_range. rewrite andb_true_iff. intros [Hg _].
    apply StronglySorted_app in Hs as (_ & Hs & _). destruct (last_head_sorted _ n Hs Hn) as [Hl _].
    by rewrite (gte_min_mono range (zs n) (zs X)) in Eg; [|apply Hl, last_snoc|].
Qed.

(** zslCreate: the empty skiplist. *)
Lemma zslCreate_spec zero hd h : zsl_inv (zslCreate zero hd h).1 (zslCreate zero hd h).2 [].
Proof.
  assert (forall i, (i < ZSKIPLIST_MAXLEVEL)%nat ->
    level_at (zslCreate zero hd h).1 hd i = Some (mk_level None 0)) as Hl.
  { intros i Hi. unfold level_at. simpl. rewrite lookup_insert_eq. by apply (lookup_replicate_2 ZSKIPLIST_MAXLEVEL). }
  split; try done; [|constructor]. split; cbn [zslCreate header level snd].
  - intros P R i E Hi. symmetry in E. apply app_nil in E as [-> ->]. change (at_loc hd []) with hd.
    change (height 1 []) with 1%nat in Hi. rewrite Hl; [done|]. unfold ZSKIPLIST_MAXLEVEL. lia.
  - intros P n R E. by apply app_cons_not_nil in E.
  - exists zero. unfold info. simpl. by rewrite lookup_insert_eq.
  - intros i Hi. rewrite Hl; [done|lia].
  - constructor.
  - unfold ZSKIPLIST_MAXLEVEL. lia.
  - apply NoDup_singleton.
Qed.

(** zslRandomLevel stays in the range of levels. *)
Lemma zslRandomLevel_range draws k : zslRandomLevel draws = Some k -> 1 <= k <= Z.of_nat ZSKIPLIST_MAXLEVEL.
Proof.
  unfold zslRandomLevel. destruct (zslRandomLevel_loop draws 1) as [l|] eqn:E; [|done]. cbn [mbind option_bind].
  assert (1 <= l) as Hl.
  { assert (forall d a, zslRandomLevel_loop d a = Some l -> a <= l) as Hle; [|by eapply Hle].
    induction d as [|r d IH]; intros a; [done|]. simpl. destruct (_ <? _); [intros ?%IH; lia|by intros [= ->]]. }
  intros [= <-]. unfold ZSKIPLIST_MAXLEVEL in *. destruct (Z.ltb_spec l (Z.of_nat 32)); lia.
Qed.

(** ** Sequences of operations *)

Inductive zop :=
  | ZInsert (s : Sc) (e : bytes) (k : nat) (x : loc)
  | ZDelete (s : Sc) (e : bytes)
  | ZUpdateScore (cur : Sc) (e : bytes) (new : Sc) (k : nat) (x : loc)
  | ZDeleteRangeByScore (range : zrangespec Sc)
  | ZDeleteRangeByRank (start end_ : Z).

Definition zop_run (g : option loc * zskiplistLevel) (h : heap) (zsl : zskiplist) (o : zop) : option (heap * zskiplist) :=
  match o with
  | ZInsert s e k x => zslInsert g h zsl s e k x
  | ZDelete s e => '(h, zsl, _) ← zslDelete h zsl s e true; Some (h, zsl)
  | ZUpdateScore cur e new k x => '(h, zsl, _) ← zslUpdateScore g h zsl cur e new k x; Some (h, zsl)
  | ZDeleteRangeByScore range => '(h, zsl, _) ← zslDeleteRangeByScore h zsl range; Some (h, zsl)
  | ZDeleteRangeByRank a b => '(h, zsl, _) ← zslDeleteRangeByRank h zsl a b; Some (h, zsl)
  end.

(** What the operations mean for the sorted list. *)
Definition zop_spec (l : list (Sc * bytes)) (o : zop) : list (Sc * bytes) :=
  match o with
  | ZInsert s e _ _ => sorted_insert_pair s e l
  | ZDelete s e => delete_pair s e l
  | ZUpdateScore cur e new _ _ => sorted_insert_pair new e (delete_pair cur e l)
  | ZDeleteRangeByScore range => filter (fun p => score_in_range range p.1 = false) l
  | ZDeleteRangeByRank a b => take (Z.to_nat (a - 1)) l ++ drop (Z.to_nat b) l
  end.

(** What the callers guarantee: fresh memory, a level zslRandomLevel can draw,
    an element that is not there before it is inserted and is there before its
    score changes, ranks that start at 1. *)
Definition zop_ok (h : heap) (l : list (Sc * bytes)) (o : zop) : Prop :=
  match o with
  | ZInsert s e k x => h !! x = None /\ (1 <= k <= ZSKIPLIST_MAXLEVEL)%nat /\ e ∉ l.*2 /\ zlen l + 1 < 2 ^ 32
  | ZDelete _ _ => True
  | ZUpdateScore cur e _ k x => h !! x = None /\ (1 <= k <= ZSKIPLIST_MAXLEVEL)%nat /\
      exists p, p ∈ l /\ same_key cur e p = true
  | ZDeleteRangeByScore _ => True
  | ZDeleteRangeByRank a b => 1 <= a <= b + 1
  end.

(** The states reached from zslCreate, with the list each stands for. *)
Inductive zreach (g : option loc * zskiplistLevel) : heap -> zskiplist -> list (Sc * bytes) -> Prop :=
  | zreach_create zero hd h : zreach g (zslCreate zero hd h).1 (zslCreate zero hd h).2 []
  | zreach_step h zsl l o h' zsl' :
      zreach g h zsl l -> zop_ok h l o -> zop_run g h zsl o = Some (h', zsl') -> zreach g h' zsl' (zop_spec l o).

Lemma sorted_insert_pair_perm s e l : sorted_insert_pair s e l ≡ₚ (s, e) :: l.
Proof.
  unfold sorted_insert_pair. rewrite <-Permutation_middle. constructor.
  induction l as [|p l IH]; [done|]. rewrite !filter_cons. destruct (key_lt p.1 p.2 s e); simpl.
  - by rewrite IH.
  - by rewrite <-Permutation_middle, IH.
Qed.

Lemma delete_pair_absent_elt s e l :
  NoDup l.*2 -> (exists p, p ∈ l /\ same_key s e p = true) -> NoDup (delete_pair s e l).*2 /\ e ∉ (delete_pair s e l).*2.
Proof.
  intros Hnd (p & Hp & [Hs He]%same_key_true).
  assert (delete_pair s e l `sublist_of` l) as Hsub by apply sublist_filter.
  split; [eapply sublist_NoDup; [exact Hnd|]; by apply fmap_sublist|].
  intros (q & -> & [Hq Hin]%list_elem_of_filter)%list_elem_of_fmap.
  assert (p = q) as ->; [|by rewrite (proj2 (same_key_true s q.2 q)) in Hq].
  apply list_elem_of_lookup in Hp as [i Hi], Hin as [j Hj]. assert (i = j) as ->; [|by simplify_eq].
  eapply NoDup_lookup; [exact Hnd| |]; rewrite list_lookup_fmap; [by rewrite Hi|by rewrite Hj; simpl; rewrite He].
Qed.

Lemma zop_spec_NoDup h l o : zop_ok h l o -> NoDup l.*2 -> NoDup (zop_spec l o).*2.
Proof.
  assert (forall l', l' `sublist_of` l -> NoDup l.*2 -> NoDup l'.*2) as Hsub.
  { intros l' Hl Hnd. eapply sublist_NoDup; [exact Hnd|]. by apply fmap_sublist. }
  destruct o as [s e k x|s e|cur e new k x|range|a b]; simpl; intros Hok Hnd.
  - rewrite sorted_insert_pair_perm. simpl. apply NoDup_cons. tauto.
  - by apply Hsub; [apply sublist_filter|].
  - destruct Hok as (_ & _ & Hp). destruct (delete_pair_absent_elt cur e l Hnd Hp).
    rewrite sorted_insert_pair_perm. simpl. by apply NoDup_cons.
  - by apply Hsub; [apply sublist_filter|].
  - apply Hsub; [|done]. rewrite <-(take_drop (Z.to_nat b) l) at 3. apply sublist_app; [|done].
    rewrite <-(take_drop (Z.to_nat (a - 1)) (take (Z.to_nat b) l)), take_take, Nat.min_l by lia.
    by apply sublist_inserts_r.
Qed.

(** One operation of the code is one operation on the list. *)
Lemma zop_run_spec {h zsl ns} g o :
  zsl_inv h zsl ns -> NoDup (ze <$> ns) -> zop_ok h (pairs ns) o ->
  exists h' zsl' ns', zop_run g h zsl o = Some (h', zsl') /\ zsl_inv h' zsl' ns' /\ pairs ns' = zop_spec (pairs ns) o.
Proof.
  intros I Hnd. destruct o as [s e k x|s e|cur e new k x|range|a b]; simpl.
  - rewrite pairs_snd. intros (Hx & Hk & Hne & Hn).
    destruct (zslInsert_spec g h zsl ns s e k x I Hx Hk) as (h' & zsl' & A & B & -> & -> & I' & _).
    + revert Hn. unfold zlen, pairs. by rewrite length_fmap.
    + intros n Hin [_ <-]. apply Hne. by apply list_elem_of_fmap_2.
    + eexists _, _, _. split; [done|]. split; [exact I'|]. apply (pairs_insert A (mk_zn x e s k) B), I'.
  - intros _. destruct (zslDelete_spec s e true I) as (h' & zsl' & ns' & r & -> & I' & E & _). simpl. eauto 10.
  - intros (Hx & Hk & Hp).
    destruct (zslUpdateScore_spec g cur e new k x I Hnd Hp Hx Hk) as (h' & zsl' & ns' & r & -> & I' & E & _). simpl. eauto 10.
  - intros _. destruct (zslDeleteRangeByScore_spec range I) as (h' & zsl' & ns' & -> & I' & E). simpl. eauto 10.
  - intros Hab. destruct (zslDeleteRangeByRank_spec a b I Hab) as (h' & zsl' & ns' & -> & I' & E). simpl. eauto 10.
Qed.

Lemma zreach_inv g h zsl l :
  zreach g h zsl l -> exists ns, zsl_inv h zsl ns /\ pairs ns = l /\ NoDup (ze <$> ns).
Proof.
  induction 1 as [zero hd h|h zsl l o h' zsl' _ (ns & I & <- & Hnd) Hok Hrun].
  - exists []. split; [apply zslCreate_spec|]. split; [done|constructor].
  - destruct (zop_run_spec g o I Hnd Hok) as (h2 & zsl2 & ns' & Hrun' & I' & E). rewrite Hrun' in Hrun.
    injection Hrun as -> ->. exists ns'. split; [done|]. split; [done|].
    rewrite <-pairs_snd, E. apply (zop_spec_NoDup h); [done|]. by rewrite pairs_snd.
Qed.

(** A run of operations. *)
Fixpoint zop_runs (g : option loc * zskiplistLevel) (h : heap) (zsl : zskiplist) (ops : list zop) : option (heap * zskiplist) :=
  match ops with
  | [] => Some (h, zsl)
  | o :: ops => '(h, zsl) ← zop_run g h zsl o; zop_runs g h zsl ops
  end.

(** Every operation of the run is admissible. *)
Fixpoint zops_ok (g : option loc * zskiplistLevel) (h : heap) (zsl : zskiplist) (l : list (Sc * bytes)) (ops : list zop) : Prop :=
  match ops with
  | [] => True
  | o :: ops => zop_ok h l o /\
      match zop_run g h zsl o with Some (h, zsl) => zops_ok g h zsl (zop_spec l o) ops | None => False end
  end.

#[export] Instance zop_ok_dec h l o : Decision (zop_ok h l o).
Proof.
  destruct o; simpl; try apply _.
  repeat apply and_dec; try apply _. destruct (decide (Exists (fun p => same_key cur e p = true) l)) as [Hp|Hp].
  - left. apply Exists_exists in Hp. exact Hp.
  - right. intros Hq. apply Hp, Exists_exists. exact Hq.
Defined.

#[export] Instance zops_ok_dec g h zsl l ops : Decision (zops_ok g h zsl l ops).
Proof.
  revert h zsl l. induction ops as [|o ops IH]; intros h zsl l; simpl; [apply _|].
  apply and_dec; [apply _|]. destruct (zop_run g h zsl o) as [[h' zsl']|]; [apply IH|apply _].
Defined.

Lemma zreach_runs g ops : forall h zsl l h' zsl',
  zreach g h zsl l -> zops_ok g h zsl l ops -> zop_runs g h zsl ops = Some (h', zsl') ->
  zreach g h' zsl' (foldl zop_spec l ops).
Proof.
  induction ops as [|o ops IH]; intros h zsl l h' zsl' Hr Hok Hrun; [by injection Hrun as -> ->|].
  destruct Hok as [Ho Hok]. cbn [zop_runs] in Hrun. destruct (zop_run g h zsl o) as [[h1 zsl1]|] eqn:E; [|done].
  apply (IH h1 zsl1); [by eapply zreach_step|done|done].
Qed.

(** The pair of a node. *)
Definition pair_at (h : heap) (x : loc) : option (Sc * bytes) := n ← h !! x; e ← ele n; Some (score n, e).

Lemma pair_at_node {h zsl ns} n : zsl_inv h zsl ns -> n ∈ ns -> pair_at h (zl n) = Some (zs n, ze n).
Proof.
  intros I Hn. destruct (node_in (zi_linked _ _ _ I) n Hn) as (nd & Hh & He & Hs). unfold pair_at.
  rewrite Hh. simpl. rewrite He. simpl. by rewrite Hs.
Qed.

(** C5: Starting from zslCreate, every sequence of zslInsert, zslDelete,
    zslUpdateScore, zslDeleteRangeByScore and zslDeleteRangeByRank keeps the
    skiplist well formed (forward and backward pointers, spans, levels, tail
    and length agree with one list of nodes in strictly increasing order of
    score and element, without a repeated element) and that list is the one
    the specification of the operations gives; and the next operation whose
    arguments are admissible never dereferences NULL or runs out of the
    levels. *)
Theorem zsl_refines_sorted_list g h zsl l :
  zreach g h zsl l ->
  (exists ns, zsl_inv h zsl ns /\ pairs ns = l /\ NoDup l.*2) /\
  forall o, zop_ok h l o -> exists h' zsl', zop_run g h zsl o = Some (h', zsl').
Proof.
  intros (ns & I & <- & Hnd)%zreach_inv. split; [exists ns; by rewrite pairs_snd|].
  intros o Hok. destruct (zop_run_spec g o I Hnd Hok) as (h' & zsl' & ns' & -> & _). eauto.
Qed.

(** C27: In every state so reached, zslGetRank returns the 1-based position of
    an element under its score and 0 for an element that is not there, and
    zslGetElementByRank is its inverse: the node of rank r holds the pair at
    that position, and there is none past the end. *)
Theorem zsl_rank_queries g h zsl l s e r :
  zreach g h zsl l -> 1 <= r ->
  (forall i, l !! i = Some (s, e) -> zslGetRank h zsl s e = Some (Z.of_nat i + 1)) /\
  (e ∉ l.*2 -> zslGetRank h zsl s e = Some 0) /\
  exists o, zslGetElementByRank h zsl r = Some o /\
    (x ← o; pair_at h x) = l !! Z.to_nat (r - 1).
Proof.
  intros (ns & I & <- & Hnd)%zreach_inv Hr. destruct (zslGetRank_spec s e I Hnd) as [H1 H2]. split_and!.
  - intros i Hi. unfold pairs in Hi. rewrite list_lookup_fmap in Hi. destruct (ns !! i) as [n|] eqn:En; [|done].
    injection Hi as Hs He. rewrite (H1 (take i ns) n (drop (S i) ns)).
    + f_equal. apply lookup_lt_Some in En. unfold zlen. rewrite length_take. lia.
    + by rewrite take_drop_middle.
    + done.
    + rewrite Hs. apply score_eq_refl.
  - by rewrite pairs_snd.
  - eexists. split; [by apply (zslGetElementByRank_spec r I)|]. unfold pairs. rewrite list_lookup_fmap.
    destruct (ns !! Z.to_nat (r - 1)) as [n|] eqn:En; [|done]. apply list_elem_of_lookup_2 in En. simpl.
    by rewrite (pair_at_node n I En).
Qed.

(** C38: zslGetRank checks only the element of the node where its search stops,
    not its score.  In every state reached, for an element and any score above
    the one it has and below that of the next element, the pair is not in the
    list and yet the rank of the element is returned instead of 0. *)
Theorem zslGetRank_ignores_score g h zsl l i s0 s e :
  zreach g h zsl l -> l !! i = Some (s0, e) -> score_lt s0 s = true ->
  (forall p, l !! S i = Some p -> score_lt s p.1 = true) ->
  (s, e) ∉ l /\ zslGetRank h zsl s e = Some (Z.of_nat i + 1).
Proof.
  intros (ns & I & <- & Hnd)%zreach_inv Hi Hs Hnext. split.
  - intros [j Hj]%list_elem_of_lookup.
    assert (j = i) as ->; [|rewrite Hi in Hj; injection Hj as ->; by rewrite score_irrefl in Hs].
    rewrite <-pairs_snd in Hnd. eapply NoDup_lookup; [exact Hnd| |]; rewrite list_lookup_fmap.
    + by rewrite Hj.
    + by rewrite Hi.
  - unfold pairs in Hi, Hnext. rewrite list_lookup_fmap in Hi, Hnext.
    destruct (ns !! i) as [X|] eqn:EX; [|done]. injection Hi as Hs0 He. subst s0.
    assert (ns = take i ns ++ X :: drop (S i) ns) as En by (by rewrite take_drop_middle).
    assert (zlen (take i ns) = Z.of_nat i) as Hz by (apply lookup_lt_Some in EX; unfold zlen; rewrite length_take; lia).
    rewrite <-Hz. rewrite En in I, Hnd. apply (zslGetRank_at (X := X) (B := drop (S i) ns)); try done.
    + unfold key_lt. rewrite (score_lt_asym _ _ Hs). unfold score_eq. by rewrite Hs, andb_false_r.
    + pose proof (zi_sorted _ _ _ I) as (_ & _ & [H2 _]%StronglySorted_inv)%StronglySorted_app.
      rewrite <-(Nat.add_0_r (S i)), <-lookup_drop in Hnext.
      destruct (drop (S i) ns) as [|m B]; [by intros n ?%elem_of_nil|].
      assert (key_lt s e (zs m) (ze m) = true) as Hm.
      { specialize (Hnext (zs m, ze m) eq_refl). simpl in Hnext. unfold key_lt. by rewrite Hnext. }
      apply StronglySorted_inv in H2 as [_ H2]. rewrite Forall_forall in H2.
      intros n [->|Hn]%elem_of_cons; [done|]. eapply key_lt_trans; [exact Hm|by apply H2].
Qed.

Lemma pairs_range range ns :
  pairs (range_nodes range ns) = filter (fun p => score_in_range range p.1 = true) (pairs ns).
Proof.
  unfold range_nodes. induction ns as [|n ns IH]; [done|]. change (pairs (n :: ns)) with ((zs n, ze n) :: pairs ns).
  rewrite !filter_cons. simpl. destruct (score_in_range range (zs n)); simpl; [|done]. unfold pairs in *. simpl. by rewrite IH.
Qed.

(** C28: In every state so reached, zslFirstInRange and zslLastInRange return
    the first and the last pair of the list whose score is in the range, NULL
    when there is none, and the elements zslDeleteRangeByScore removes from
    the dictionary are those of the range. *)
Theorem zsl_range_queries g h zsl l range :
  zreach g h zsl l -> let inside := filter (fun p => score_in_range range p.1 = true) l in
  (exists o, zslFirstInRange h zsl range = Some o /\ (x ← o; pair_at h x) = head inside) /\
  (exists o, zslLastInRange h zsl range = Some o /\ (x ← o; pair_at h x) = last inside) /\
  (exists h' zsl', zslDeleteRangeByScore h zsl range = Some (h', zsl', inside.*2)).
Proof.
  intros (ns & I & <- & Hnd)%zreach_inv inside. subst inside. rewrite <-!pairs_range.
  assert (forall n, n ∈ range_nodes range ns -> pair_at h (zl n) = Some (zs n, ze n)) as Hp.
  { intros n [_ Hn]%list_elem_of_filter. by eapply pair_at_node. }
  split_and!.
  - eexists. split; [by apply (zslFirstInRange_spec range I)|]. destruct (range_nodes range ns) as [|n l]; [done|].
    simpl. rewrite Hp; [done|left].
  - eexists. split; [by apply (zslLastInRange_spec range I)|]. unfold pairs. rewrite fmap_last.
    destruct (last (range_nodes range ns)) as [n|] eqn:E; [|done]. simpl. rewrite Hp; [done|].
    apply last_Some in E as [l' ->]. rewrite elem_of_app, list_elem_of_singleton. auto.
  - destruct (zslDeleteRangeByScore_spec range I) as (h' & zsl' & ns' & E & _). rewrite pairs_range. eauto.
Qed.

End skiplist.

(** ** A concrete skiplist *)

#[export] Instance Z_ScoreOrder : ScoreOrder Z.
Proof.
  refine {| score_lt := Z.ltb |}.
  - apply Z.ltb_irrefl.
  - intros a b c. rewrite !Z.ltb_lt. lia.
  - intros a b c. rewrite !Z.ltb_lt. lia.
Defined.

(** The content of fresh memory. *)
Definition sample_garbage : option loc * zskiplistLevel := (Some 99%positive, mk_level (Some 98%positive) 77).

Definition sample_zops : list (zop (Sc := Z)) :=
  [ZInsert 5 [97] 1 2%positive; ZInsert 3 [98] 3 3%positive; ZInsert 5 [97; 0] 2 4%positive; ZInsert 9 [99] 1 5%positive;
   ZUpdateScore 3 [98] 7 2 6%positive; ZUpdateScore 9 [99] 8 1 7%positive; ZDelete 5 [97]; ZDelete 5 [120];
   ZInsert 1 [100] 4 8%positive; ZInsert 2 [101] 1 9%positive; ZDeleteRangeByScore (mk_range 1 2 true false)].

Definition sample_start : gmap loc (zskiplistNode Z) * zskiplist := zslCreate 0 1%positive ∅.
Definition sample_state : gmap loc (zskiplistNode Z) * zskiplist :=
  default sample_start (zop_runs sample_garbage sample_start.1 sample_start.2 sample_zops).

Definition sample_pairs : list (Z * bytes) := [(1, [100]); (5, [97; 0]); (7, [98]); (8, [99])].

Lemma sample_reach : zreach sample_garbage sample_state.1 sample_state.2 sample_pairs.
Proof.
  replace sample_pairs with (foldl zop_spec [] sample_zops) by (vm_compute; reflexivity).
  apply (zreach_runs _ sample_zops sample_start.1 sample_start.2 []); [apply zreach_create| |vm_compute; reflexivity].
  refine (bool_decide_eq_true_1 _ _). vm_compute. reflexivity.
Qed.

Lemma zsl_refines_sorted_list_witness :
  zreach sample_garbage sample_state.1 sample_state.2 sample_pairs /\
  (exists ns, zsl_inv sample_state.1 sample_state.2 ns /\ pairs ns = sample_pairs /\ NoDup sample_pairs.*2) /\
  exists h' zsl', zop_run sample_garbage sample_state.1 sample_state.2 (ZInsert 6 [102] 5 12%positive) = Some (h', zsl').
Proof.
  destruct (zsl_refines_sorted_list _ _ _ _ sample_reach) as [H1 H2].
  split; [exact sample_reach|]. split; [exact H1|]. apply H2. refine (bool_decide_eq_true_1 _ _). vm_compute. reflexivity.
Defined.

Lemma zsl_rank_queries_witness :
  zslGetRank sample_state.1 sample_state.2 7 [98] = Some 3 /\
  exists o, zslGetElementByRank sample_state.1 sample_state.2 2 = Some o /\
    (x ← o; pair_at sample_state.1 x) = Some (5, [97; 0]).
Proof.
  split.
  - apply (proj1 (zsl_rank_queries _ _ _ _ 7 [98] 1 sample_reach ltac:(lia)) 2%nat). reflexivity.
  - apply (zsl_rank_queries _ _ _ _ 7 [98] 2 sample_reach ltac:(lia)).
Defined.

Lemma zsl_range_queries_witness :
  exists o, zslFirstInRange sample_state.1 sample_state.2 (mk_range 5 8 true false) = Some o /\
    (x ← o; pair_at sample_state.1 x) = Some (7, [98]).
Proof. apply (zsl_range_queries _ _ _ _ (mk_range 5 8 true false) sample_reach). Defined.

Lemma zslGetRank_ignores_score_witness :
  (100, [99]) ∉ sample_pairs /\ zslGetRank sample_state.1 sample_state.2 100 [99] = Some 4.
Proof.
  apply (zslGetRank_ignores_score _ _ _ _ 3 8 100 [99] sample_reach); [reflexivity|reflexivity|].
  intros p Hp. vm_compute in Hp. discriminate Hp.
Defined.
