(* ===== verification/Reply.v ===== *)
(** * networking.c: the output buffers of a client

    A reply goes to the static buffer of the client as long as it fits and
    nothing is queued behind it, and to a list of blocks otherwise; a
    placeholder (NULL) stands in the list for a length that is not known yet.
    [obuf c] is the used part of the static buffer, a block is its capacity and
    its used part.  [usable n] is the usable size of an allocation meant for
    [n] bytes of block; the limits on the output and the clock are those of the
    server.  A result [None] is a failed assertion or a NULL dereference.

    [pending c] is what the client has still to receive.  The theorems: every
    addReply function appends the protocol of its reply to it, a deferred
    length is inserted at its placeholder, and writeToClient sends it in order,
    whatever the sizes the socket accepts. *)

From S2P Require Import Prelude Util.

Definition CLIENT_SLAVE : Z := Z.shiftl 1 0.
Definition CLIENT_MASTER : Z := Z.shiftl 1 1.
Definition CLIENT_MONITOR : Z := Z.shiftl 1 2.
Definition CLIENT_CLOSE_AFTER_REPLY : Z := Z.shiftl 1 6.
Definition CLIENT_LUA : Z := Z.shiftl 1 8.
Definition CLIENT_CLOSE_ASAP : Z := Z.shiftl 1 10.
Definition CLIENT_MASTER_FORCE_REPLY : Z := Z.shiftl 1 13.
Definition CLIENT_PUBSUB : Z := Z.shiftl 1 18.
Definition CLIENT_PENDING_WRITE : Z := Z.shiftl 1 21.
Definition CLIENT_REPLY_OFF : Z := Z.shiftl 1 22.
Definition CLIENT_REPLY_SKIP : Z := Z.shiftl 1 24.
Definition CLIENT_MODULE : Z := Z.shiftl 1 27.
Definition CLIENT_PENDING_READ : Z := Z.shiftl 1 29.

Definition CLIENT_TYPE_NORMAL : Z := 0.
Definition CLIENT_TYPE_SLAVE : Z := 1.
Definition CLIENT_TYPE_PUBSUB : Z := 2.
Definition CLIENT_TYPE_MASTER : Z := 3.

Definition REPL_STATE_NONE : Z := 0.
Definition SLAVE_STATE_ONLINE : Z := 9.

Definition PROTO_REPLY_CHUNK_BYTES : Z := 16 * 1024.
Definition NET_MAX_WRITES_PER_EVENT : Z := 1024 * 64.
Definition OBJ_SHARED_BULKHDR_LEN : Z := 32.
Definition SIZE_MAX : Z := 2 ^ 64 - 1.

Record clientReplyBlock := mk_block { size : Z; data : bytes }.
Definition used (b : clientReplyBlock) : Z := zlen (data b).

(** The fields of the client the output functions use; [conn] is whether there
    is a connection. *)
Record client := mk_client {
  cflags : Z; resp : Z; conn : bool; replstate : Z; repl_put_online_on_ack : bool;
  obuf : bytes; sentlen : Z; reply : list (option clientReplyBlock); reply_bytes : Z;
  obuf_soft_limit_reached_time : Z;
}.

Definition set_flags (c : client) (f : Z) : client :=
  mk_client f (resp c) (conn c) (replstate c) (repl_put_online_on_ack c) (obuf c) (sentlen c) (reply c) (reply_bytes c)
    (obuf_soft_limit_reached_time c).
Definition set_obuf (c : client) (b : bytes) : client :=
  mk_client (cflags c) (resp c) (conn c) (replstate c) (repl_put_online_on_ack c) b (sentlen c) (reply c) (reply_bytes c)
    (obuf_soft_limit_reached_time c).
Definition set_sentlen (c : client) (n : Z) : client :=
  mk_client (cflags c) (resp c) (conn c) (replstate c) (repl_put_online_on_ack c) (obuf c) n (reply c) (reply_bytes c)
    (obuf_soft_limit_reached_time c).
Definition set_reply (c : client) (l : list (option clientReplyBlock)) (n : Z) : client :=
  mk_client (cflags c) (resp c) (conn c) (replstate c) (repl_put_online_on_ack c) (obuf c) (sentlen c) l n
    (obuf_soft_limit_reached_time c).
Definition set_soft_time (c : client) (t : Z) : client :=
  mk_client (cflags c) (resp c) (conn c) (replstate c) (repl_put_online_on_ack c) (obuf c) (sentlen c) (reply c)
    (reply_bytes c) t.

(** [c->flags & mask] *)
Definition has (c : client) (mask : Z) : bool := negb (Z.land (cflags c) mask =? 0).
Definition add_flag (c : client) (mask : Z) : client := set_flags c (Z.lor (cflags c) mask).

Record clientBufferLimitsConfig := mk_limits { hard_limit_bytes : Z; soft_limit_bytes : Z; soft_limit_seconds : Z }.

(** A string object: an sds or an integer. *)
Inductive robj := ObjStr (s : bytes) | ObjInt (v : Z).

Definition crlf : bytes := [13; 10].

Section reply.
Context (usable : Z -> Z) (client_obuf_limits : Z -> clientBufferLimitsConfig) (unixtime : Z).

Definition clientHasPendingReplies (c : client) : bool := negb (zlen (obuf c) =? 0) || negb (zlen (reply c) =? 0).

(** The flag stands for the membership in server.clients_pending_write too. *)
Definition clientInstallWriteHandler (c : client) : client :=
  if negb (has c CLIENT_PENDING_WRITE) &&
     ((replstate c =? REPL_STATE_NONE) || ((replstate c =? SLAVE_STATE_ONLINE) && negb (repl_put_online_on_ack c)))
  then add_flag c CLIENT_PENDING_WRITE else c.

(** The client and whether the result is C_OK. *)
Definition prepareClientToWrite (c : client) : client * bool :=
  if has c (Z.lor CLIENT_LUA CLIENT_MODULE) then (c, true)
  else if has c CLIENT_CLOSE_ASAP then (c, false)
  else if has c (Z.lor CLIENT_REPLY_OFF CLIENT_REPLY_SKIP) then (c, false)
  else if has c CLIENT_MASTER && negb (has c CLIENT_MASTER_FORCE_REPLY) then (c, false)
  else if negb (conn c) then (c, false)
  else (if negb (clientHasPendingReplies c) && negb (has c CLIENT_PENDING_READ)
        then clientInstallWriteHandler c else c, true).

(** [None] is C_ERR. *)
Definition _addReplyToBuffer (c : client) (s : bytes) : option client :=
  let available := PROTO_REPLY_CHUNK_BYTES - zlen (obuf c) in
  if has c CLIENT_CLOSE_AFTER_REPLY then Some c
  else if zlen (reply c) >? 0 then None
  else if zlen s >? available then None
  else Some (set_obuf c (obuf c ++ s)).

Definition getClientType (c : client) : Z :=
  if has c CLIENT_MASTER then CLIENT_TYPE_MASTER
  else if has c CLIENT_SLAVE && negb (has c CLIENT_MONITOR) then CLIENT_TYPE_SLAVE
  else if has c CLIENT_PUBSUB then CLIENT_TYPE_PUBSUB
  else CLIENT_TYPE_NORMAL.

(** sizeof(listNode) + sizeof(clientReplyBlock) *)
Definition list_item_size : Z := 24 + 16.

Definition getClientOutputBufferMemoryUsage (c : client) : Z :=
  u64 (reply_bytes c + list_item_size * zlen (reply c)).

Definition checkClientOutputBufferLimits (c : client) : client * bool :=
  let used_mem := getClientOutputBufferMemoryUsage c in
  let class := getClientType c in
  let class := if class =? CLIENT_TYPE_MASTER then CLIENT_TYPE_NORMAL else class in
  let lim := client_obuf_limits class in
  let hard := negb (hard_limit_bytes lim =? 0) && (used_mem >=? hard_limit_bytes lim) in
  let soft := negb (soft_limit_bytes lim =? 0) && (used_mem >=? soft_limit_bytes lim) in
  if soft then
    if obuf_soft_limit_reached_time c =? 0 then (set_soft_time c unixtime, hard)
    else
      let elapsed := unixtime - obuf_soft_limit_reached_time c in
      (c, negb (elapsed <=? soft_limit_seconds lim) || hard)
  else (set_soft_time c 0, hard).

Definition freeClientAsync (c : client) : client :=
  if has c CLIENT_CLOSE_ASAP || has c CLIENT_LUA then c else add_flag c CLIENT_CLOSE_ASAP.

(** With [async] set. *)
Definition closeClientOnOutputBufferLimitReached (c : client) : option client :=
  if negb (conn c) then Some c
  else if negb (reply_bytes c <? SIZE_MAX - 1024 * 64) then None
  else if (reply_bytes c =? 0) || has c CLIENT_CLOSE_ASAP then Some c
  else
    let '(c, reached) := checkClientOutputBufferLimits c in
    Some (if reached then freeClientAsync c else c).

(** [tail] of the list: the last node, if it is not a placeholder. *)
Definition tail_block (l : list (option clientReplyBlock)) : option clientReplyBlock := mjoin (last l).

(** Append to the tail what fits there, and return the rest. *)
Definition fill_tail (c : client) (s : bytes) : client * bytes :=
  match tail_block (reply c) with
  | Some t =>
    let avail := size t - used t in
    let copy := if avail >=? zlen s then zlen s else avail in
    let t := mk_block (size t) (data t ++ take (Z.to_nat copy) s) in
    (set_reply c (take (length (reply c) - 1) (reply c) ++ [Some t]) (reply_bytes c), drop (Z.to_nat copy) s)
  | None => (c, s)
  end.

Definition _addReplyProtoToList (c : client) (s : bytes) : option client :=
  if has c CLIENT_CLOSE_AFTER_REPLY then Some c
  else
    let '(c, s) := fill_tail c s in
    if negb (zlen s =? 0) then
      let n := if zlen s <? PROTO_REPLY_CHUNK_BYTES then PROTO_REPLY_CHUNK_BYTES else zlen s in
      let t := mk_block (usable n) s in
      closeClientOnOutputBufferLimitReached (set_reply c (reply c ++ [Some t]) (reply_bytes c + size t))
    else Some c.

(** The static buffer first, the list otherwise. *)
Definition add_bytes (c : client) (s : bytes) : option client :=
  match _addReplyToBuffer c s with Some c => Some c | None => _addReplyProtoToList c s end.

Definition addReplyProto (c : client) (s : bytes) : option client :=
  let '(c, ok) := prepareClientToWrite c in
  if negb ok then Some c else add_bytes c s.

Definition addReplySds (c : client) (s : bytes) : option client := addReplyProto c s.

(** An integer is printed into a buffer of 32 bytes. *)
Definition addReply (c : client) (obj : robj) : option client :=
  let '(c, ok) := prepareClientToWrite c in
  if negb ok then Some c
  else
    match obj with
    | ObjStr s => add_bytes c s
    | ObjInt v => s ← ll2string_text 32 v; add_bytes c s
    end.

Definition addReplyErrorLength (c : client) (s : bytes) : option client :=
  c ← (if (zlen s =? 0) || negb (bool_decide (head s = Some 45)) then addReplyProto c (str "-ERR ") else Some c);
  c ← addReplyProto c s;
  addReplyProto c crlf.

Definition addReplyStatusLength (c : client) (s : bytes) : option client :=
  c ← addReplyProto c (str "+"); c ← addReplyProto c s; addReplyProto c crlf.

(** The shared objects "*<value>\r\n" and "$<value>\r\n" of createSharedObjects. *)
Definition shared_hdr (prefix ll : Z) : bytes := prefix :: print_lld ll ++ crlf.

Definition addReplyLongLongWithPrefix (c : client) (ll prefix : Z) : option client :=
  if (prefix =? 42) && (ll <? OBJ_SHARED_BULKHDR_LEN) && (ll >=? 0) then addReply c (ObjStr (shared_hdr 42 ll))
  else if (prefix =? 36) && (ll <? OBJ_SHARED_BULKHDR_LEN) && (ll >=? 0) then addReply c (ObjStr (shared_hdr 36 ll))
  else
    s ← ll2string_text 127 ll;
    addReplyProto c (prefix :: s ++ crlf).

Definition addReplyLongLong (c : client) (ll : Z) : option client :=
  if ll =? 0 then addReply c (ObjStr (str ":0" ++ crlf))
  else if ll =? 1 then addReply c (ObjStr (str ":1" ++ crlf))
  else addReplyLongLongWithPrefix c ll 58.

Definition addReplyAggregateLen (c : client) (length prefix : Z) : option client :=
  if negb (length >=? 0) then None else addReplyLongLongWithPrefix c length prefix.

Definition addReplyArrayLen (c : client) (length : Z) : option client := addReplyAggregateLen c length 42.

Definition addReplyMapLen (c : client) (length : Z) : option client :=
  if resp c =? 2 then addReplyAggregateLen c (length * 2) 42 else addReplyAggregateLen c length 37.

Definition addReplySetLen (c : client) (length : Z) : option client :=
  addReplyAggregateLen c length (if resp c =? 2 then 42 else 126).

Definition addReplyAttributeLen (c : client) (length : Z) : option client :=
  if negb (resp c >=? 3) then None else addReplyAggregateLen c length 124.

Definition addReplyPushLen (c : client) (length : Z) : option client :=
  if negb (resp c >=? 3) then None else addReplyAggregateLen c length 62.

Definition addReplyNull (c : client) : option client :=
  if resp c =? 2 then addReplyProto c (str "$-1" ++ crlf) else addReplyProto c (str "_" ++ crlf).

Definition addReplyBool (c : client) (b : bool) : option client :=
  if resp c =? 2 then addReply c (ObjStr ((if b then str ":1" else str ":0") ++ crlf))
  else addReplyProto c ((if b then str "#t" else str "#f") ++ crlf).

Definition addReplyNullArray (c : client) : option client :=
  if resp c =? 2 then addReplyProto c (str "*-1" ++ crlf) else addReplyProto c (str "_" ++ crlf).

Definition addReplyBulkCBuffer (c : client) (p : bytes) : option client :=
  c ← addReplyLongLongWithPrefix c (zlen p) 36;
  c ← addReplyProto c p;
  addReply c (ObjStr crlf).

(** stringObjectLen *)
Definition stringObjectLen (obj : robj) : Z := match obj with ObjStr s => zlen s | ObjInt v => sdigits10 v end.

Definition addReplyBulkLen (c : client) (obj : robj) : option client :=
  addReplyLongLongWithPrefix c (stringObjectLen obj) 36.

Definition addReplyBulk (c : client) (obj : robj) : option client :=
  c ← addReplyBulkLen c obj; c ← addReply c obj; addReply c (ObjStr crlf).

Definition addReplyBulkSds (c : client) (s : bytes) : option client :=
  c ← addReplyLongLongWithPrefix c (zlen s) 36; c ← addReplySds c s; addReply c (ObjStr crlf).

Definition addReplyBulkLongLong (c : client) (ll : Z) : option client :=
  s ← ll2string_text 64 ll; addReplyBulkCBuffer c s.

Definition addReplyBigNum (c : client) (num : bytes) : option client :=
  if resp c =? 2 then addReplyBulkCBuffer c num
  else c ← addReplyProto c (str "("); c ← addReplyProto c num; addReply c (ObjStr crlf).

(** The first three characters of [ext], completed with spaces. *)
Definition pad3 (ext : bytes) : bytes := take 3 (ext ++ str "   ").

Definition addReplyVerbatim (c : client) (s ext : bytes) : option client :=
  if resp c =? 2 then addReplyBulkCBuffer c s
  else
    c ← addReplyProto c (str "=" ++ print_lld (u64 (zlen s + 4)) ++ crlf ++ pad3 ext ++ str ":");
    c ← addReplyProto c s;
    addReplyProto c crlf.

(** ** Deferred lengths *)

Definition trimReplyUnusedTailSpace (c : client) : client :=
  match tail_block (reply c) with
  | None => c
  | Some t =>
    if (size t - used t >? size t / 4) && (used t <? PROTO_REPLY_CHUNK_BYTES) then
      let t' := mk_block (usable (used t)) (data t) in
      set_reply c (take (length (reply c) - 1) (reply c) ++ [Some t']) (reply_bytes c + size t' - size t)
    else c
  end.

(** Returns the position of the placeholder. *)
Definition addReplyDeferredLen (c : client) : client * option nat :=
  let '(c, ok) := prepareClientToWrite c in
  if negb ok then (c, None)
  else
    let c := trimReplyUnusedTailSpace c in
    (set_reply c (reply c ++ [None]) (reply_bytes c), Some (length (reply c))).

(** Append to the block before position [i] what fits there; returns the list,
    the rest, and whether that block had room. *)
Definition fill_prev (l : list (option clientReplyBlock)) (i : nat) (s : bytes)
    : list (option clientReplyBlock) * bytes * bool :=
  match (if (0 <? i)%nat then mjoin (l !! (i - 1)%nat) else None) with
  | Some prev =>
    if size prev - used prev >? 0 then
      let k := if size prev - used prev >? zlen s then zlen s else size prev - used prev in
      (<[(i - 1)%nat := Some (mk_block (size prev) (data prev ++ take (Z.to_nat k) s))]> l, drop (Z.to_nat k) s, true)
    else (l, s, false)
  | None => (l, s, false)
  end.

(** [node] is the position of the placeholder in the list: a node before it
    stays where it is while lengths behind it are set. *)
Definition setDeferredReply (c : client) (node : option nat) (s : bytes) : option client :=
  match node with
  | None => Some c
  | Some i =>
    v ← reply c !! i;
    match v with
    | Some _ => None
    | None =>
      let '(l, s, copied) := fill_prev (reply c) i s in
      let new_node :=
        let b := mk_block (usable (zlen s)) s in
        closeClientOnOutputBufferLimitReached (set_reply c (<[i := Some b]> l) (reply_bytes c + size b)) in
      if copied && (zlen s =? 0) then Some (set_reply c (delete i l) (reply_bytes c))
      else
        match mjoin (l !! (i + 1)%nat) with
        | Some next =>
          if (size next - used next >=? zlen s) && (used next <? PROTO_REPLY_CHUNK_BYTES * 4) then
            Some (set_reply c (delete i (<[(i + 1)%nat := Some (mk_block (size next) (s ++ data next))]> l)) (reply_bytes c))
          else new_node
        | None => new_node
        end
    end
  end.

Definition setDeferredAggregateLen (c : client) (node : option nat) (length prefix : Z) : option client :=
  if negb (length >=? 0) then None
  else match node with None => Some c | Some _ => setDeferredReply c node (prefix :: print_lld length ++ crlf) end.

Definition setDeferredArrayLen (c : client) (node : option nat) (length : Z) : option client :=
  setDeferredAggregateLen c node length 42.
Definition setDeferredMapLen (c : client) (node : option nat) (length : Z) : option client :=
  if resp c =? 2 then setDeferredAggregateLen c node (length * 2) 42 else setDeferredAggregateLen c node length 37.
Definition setDeferredSetLen (c : client) (node : option nat) (length : Z) : option client :=
  setDeferredAggregateLen c node length (if resp c =? 2 then 42 else 126).

(** [%s] stops at the first zero byte of the string. *)
Fixpoint cstr (s : bytes) : bytes :=
  match s with
  | [] => []
  | b :: s => if b =? 0 then [] else b :: cstr s
  end.

Definition setDeferredReplyBulkSds (c : client) (node : option nat) (s : bytes) : option client :=
  setDeferredReply c node (36 :: print_lld (s32 (u32 (zlen s))) ++ crlf ++ cstr s ++ crlf).

(** ** Moving output between clients *)

Definition AddReplyFromClient (dst src : client) : option (client * client) :=
  if has src CLIENT_CLOSE_ASAP then Some (freeClientAsync dst, src)
  else
    dst ← addReplyProto dst (obuf src);
    let '(dst, ok) := prepareClientToWrite dst in
    if negb ok then Some (dst, src)
    else if has dst CLIENT_CLOSE_AFTER_REPLY then Some (dst, src)
    else
      let dst := set_reply dst (reply dst ++ reply src) (reply_bytes dst + reply_bytes src) in
      let src := set_obuf (set_reply src [] 0) [] in
      dst ← closeClientOnOutputBufferLimitReached dst;
      Some (dst, src).

Definition copyClientOutputBuffer (dst src : client) : client :=
  set_sentlen (set_obuf (set_reply dst (reply src) (reply_bytes src)) (obuf src)) 0.

(** ** Writing to the socket *)

(** connWrite: what it returns for [n] bytes when the socket can take [w], or
    the error [w]. *)
Definition connWrite (w n : Z) : Z := if w <=? 0 then w else Z.min w n.

(** [ws] is what the socket can take at the successive calls of connWrite; when
    there are none left the socket takes nothing more.  [keep_going]: the server is
    over its memory limit, or the client a replica.  Returns the client, the
    bytes written and the last result. *)
Fixpoint write_loop (fuel : nat) (keep_going : bool) (ws : list Z) (c : client) (sent : bytes) (nwritten : Z)
    : option (client * bytes * Z) :=
  match fuel with
  | O => None
  | S fuel =>
    if negb (clientHasPendingReplies c) then Some (c, sent, nwritten)
    else
      let stop c sent n := if (zlen sent >? NET_MAX_WRITES_PER_EVENT) && negb keep_going then Some (c, sent, n) else None in
      if zlen (obuf c) >? 0 then
        let chunk := drop (Z.to_nat (sentlen c)) (obuf c) in
        let w := connWrite (default 0 (head ws)) (zlen chunk) in
        if w <=? 0 then Some (c, sent, w)
        else
          let sent := sent ++ take (Z.to_nat w) chunk in
          let c := set_sentlen c (sentlen c + w) in
          let c := if s32 (sentlen c) =? zlen (obuf c) then set_sentlen (set_obuf c []) 0 else c in
          match stop c sent w with Some r => Some r | None => write_loop fuel keep_going (drop 1 ws) c sent w end
      else
        o ← mjoin (head (reply c));
        if used o =? 0 then write_loop fuel keep_going ws (set_reply c (drop 1 (reply c)) (reply_bytes c - size o)) sent nwritten
        else
          let chunk := drop (Z.to_nat (sentlen c)) (data o) in
          let w := connWrite (default 0 (head ws)) (zlen chunk) in
          if w <=? 0 then Some (c, sent, w)
          else
            let sent := sent ++ take (Z.to_nat w) chunk in
            let c := set_sentlen c (sentlen c + w) in
            c ← (if sentlen c =? used o then
                   let c := set_sentlen (set_reply c (drop 1 (reply c)) (reply_bytes c - size o)) 0 in
                   if (zlen (reply c) =? 0) && negb (reply_bytes c =? 0) then None else Some c
                 else Some c);
            match stop c sent w with Some r => Some r | None => write_loop fuel keep_going (drop 1 ws) c sent w end
  end.

(** Returns the client, the bytes written and whether the result is C_OK. *)
Definition writeToClient (over_memory connected : bool) (ws : list Z) (c : client) : option (client * bytes * bool) :=
  '(c, sent, nwritten) ← write_loop (S (length ws + length (reply c) + 1)) (over_memory || has c CLIENT_SLAVE) ws c [] 0;
  if (nwritten =? -1) && negb connected then Some (freeClientAsync c, sent, false)
  else if negb (clientHasPendingReplies c) then
    let c := set_sentlen c 0 in
    if has c CLIENT_CLOSE_AFTER_REPLY then Some (freeClientAsync c, sent, false) else Some (c, sent, true)
  else Some (c, sent, true).

(** ** What a client has still to receive *)

Definition block_bytes (b : option clientReplyBlock) : bytes := match b with Some b => data b | None => [] end.
Definition blocks (l : list (option clientReplyBlock)) : bytes := concat (block_bytes <$> l).
Definition block_size (b : option clientReplyBlock) : Z := match b with Some b => size b | None => 0 end.
Definition sizes (l : list (option clientReplyBlock)) : Z := foldr (fun b n => block_size b + n) 0 l.

(** Everything in the buffers, and the part that was not sent. *)
Definition queued (c : client) : bytes := obuf c ++ blocks (reply c).
Definition pending (c : client) : bytes := drop (Z.to_nat (sentlen c)) (queued c).

Definition block_ok (b : option clientReplyBlock) : Prop := match b with Some b => used b <= size b | None => True end.

(** What can have been sent of the first buffer in use. *)
Definition first_len (c : client) : Z :=
  if zlen (obuf c) =? 0 then match reply c with Some b :: _ => used b | _ => 0 end else zlen (obuf c).

Record out_wf (c : client) : Prop := {
  ow_bytes : reply_bytes c = sizes (reply c);
  ow_blocks : Forall block_ok (reply c);
  ow_sent : sentlen c = 0 \/ 0 < sentlen c < first_len c;
  ow_obuf : zlen (obuf c) <= PROTO_REPLY_CHUNK_BYTES;
}.

Lemma blocks_app a b : blocks (a ++ b) = blocks a ++ blocks b.
Proof. unfold blocks. by rewrite fmap_app, concat_app. Qed.

Lemma sizes_app a b : sizes (a ++ b) = sizes a + sizes b.
Proof. unfold sizes. induction a as [|x a IH]; simpl; [done|]. rewrite IH. lia. Qed.

Lemma sizes_nonneg l : Forall block_ok l -> 0 <= sizes l.
Proof.
  induction 1 as [|b l Hb Hl IH]; simpl; [done|]. destruct b as [b|]; simpl in *; [|done].
  unfold used in Hb. pose proof (zlen_nonneg (data b)). lia.
Qed.

Lemma first_len_queued c : 0 <= first_len c <= zlen (queued c).
Proof.
  unfold first_len, queued. pose proof (zlen_nonneg (obuf c)) as H1. pose proof (zlen_nonneg (blocks (reply c))) as H2.
  revert H2. rewrite zlen_app. destruct (Z.eqb_spec (zlen (obuf c)) 0); [|lia].
  destruct (reply c) as [|[b|] l]; [simpl in *; lia| |simpl in *; lia]. change (blocks (Some b :: l)) with (data b ++ blocks l).
  rewrite zlen_app. unfold used. pose proof (zlen_nonneg (data b)). pose proof (zlen_nonneg (blocks l)). lia.
Qed.

(** Appending to what is queued appends to what is pending. *)
Lemma pending_app c c' s :
  out_wf c -> sentlen c' = sentlen c -> queued c' = queued c ++ s -> pending c' = pending c ++ s.
Proof.
  intros W Hs Hq. unfold pending. rewrite Hs, Hq. pose proof (ow_sent _ W). pose proof (first_len_queued c).
  rewrite drop_app_le; [done|]. unfold zlen in *. lia.
Qed.

(** ** Which clients receive replies *)

Definition accepts (c : client) : bool :=
  (has c (Z.lor CLIENT_LUA CLIENT_MODULE) ||
   (negb (has c CLIENT_CLOSE_ASAP) && negb (has c (Z.lor CLIENT_REPLY_OFF CLIENT_REPLY_SKIP)) &&
    negb (has c CLIENT_MASTER && negb (has c CLIENT_MASTER_FORCE_REPLY)) && conn c)) &&
  negb (has c CLIENT_CLOSE_AFTER_REPLY).

(** Queueing output only sets these flags. *)
Definition grows (f f' : Z) : Prop := exists m,
  m ∈ [0; CLIENT_PENDING_WRITE; CLIENT_CLOSE_ASAP; Z.lor CLIENT_PENDING_WRITE CLIENT_CLOSE_ASAP] /\ f' = Z.lor f m.

Definition evolve (c c' : client) : Prop := 
  grows (cflags c) (cflags c') /\ resp c' = resp c /\ conn c' = conn c /\ sentlen c' = sentlen c /\
  replstate c' = replstate c.

Lemma grows_refl f : grows f f.
Proof. exists 0. split; [left|]. by rewrite Z.lor_0_r. Qed.

Lemma grows_trans f g h : grows f g -> grows g h -> grows f h.
Proof.
  clear usable client_obuf_limits unixtime. intros (m & Hm & ->) (n & Hn & ->). exists (Z.lor m n). rewrite Z.lor_assoc. split; [|done].
  rewrite !elem_of_cons, elem_of_nil in *. destruct_or! Hm; destruct_or! Hn; subst; vm_compute; tauto.
Qed.

Lemma evolve_refl c : evolve c c.
Proof. split; [apply grows_refl|done]. Qed.

Lemma evolve_trans a b c : evolve a b -> evolve b c -> evolve a c.
Proof. intros (H1 & H2) (H3 & H4). split; [by eapply grows_trans|]. destruct_and!. split_and!; congruence. Qed.

(** A flag that is not one of the two keeps its value. *)
Lemma has_grows c c' mask :
  grows (cflags c) (cflags c') -> Z.land CLIENT_PENDING_WRITE mask = 0 -> Z.land CLIENT_CLOSE_ASAP mask = 0 ->
  has c' mask = has c mask.
Proof.
  intros (m & Hm & E) H1 H2. unfold has. rewrite E, Z.land_lor_distr_l.
  assert (Z.land m mask = 0) as ->; [|by rewrite Z.lor_0_r].
  rewrite !elem_of_cons, elem_of_nil in Hm. destruct_or! Hm; subst m; [done|done|done|].
  by rewrite Z.land_lor_distr_l, H1, H2.
Qed.

Lemma has_asap_grows c c' : grows (cflags c) (cflags c') -> has c CLIENT_CLOSE_ASAP = true -> has c' CLIENT_CLOSE_ASAP = true.
Proof.
  intros (m & _ & E). unfold has. rewrite E, Z.land_lor_distr_l, !negb_true_iff, !Z.eqb_neq. intros Hn H0.
  apply Z.lor_eq_0_iff in H0 as [H0 _]. by apply Hn.
Qed.

Lemma accepts_grows c c' :
  evolve c c' -> (accepts c = false -> accepts c' = false) /\
  (accepts c = true -> accepts c' = true \/ has c' CLIENT_CLOSE_ASAP = true).
Proof.
  clear usable client_obuf_limits unixtime. intros (Hg & _ & Hc & _). unfold accepts. rewrite Hc.
  rewrite (has_grows c c' (Z.lor CLIENT_LUA CLIENT_MODULE)), (has_grows c c' (Z.lor CLIENT_REPLY_OFF CLIENT_REPLY_SKIP)),
    (has_grows c c' CLIENT_MASTER), (has_grows c c' CLIENT_MASTER_FORCE_REPLY), (has_grows c c' CLIENT_CLOSE_AFTER_REPLY)
    by (done || (vm_compute; reflexivity)).
  destruct (has c CLIENT_CLOSE_ASAP) eqn:E2; [rewrite (has_asap_grows c c') by done; tauto|].
  destruct (has c' CLIENT_CLOSE_ASAP); [|tauto]. split; [|tauto].
  destruct (has c (Z.lor CLIENT_LUA CLIENT_MODULE)); [done|]. intros _. done.
Qed.

(** ** One piece of output *)

(** The buffers of two clients are the same. *)
Definition same_out (c c' : client) : Prop :=
  obuf c' = obuf c /\ sentlen c' = sentlen c /\ reply c' = reply c /\ reply_bytes c' = reply_bytes c.

Lemma same_out_wf c c' : same_out c c' -> out_wf c -> out_wf c' /\ pending c' = pending c.
Proof.
  intros (E1 & E2 & E3 & E4) [W1 W2 W3 W4]. unfold pending, queued. rewrite E1, E2, E3. split; [|done].
  split; unfold first_len in *; rewrite ?E1, ?E2, ?E3, ?E4; done.
Qed.

Lemma same_out_trans a b c : same_out a b -> same_out b c -> same_out a c.
Proof. unfold same_out. intros (?&?&?&?) (?&?&?&?). split_and!; congruence. Qed.

Lemma prepare_spec c :
  exists c1, prepareClientToWrite c = (c1, (prepareClientToWrite c).2) /\ same_out c c1 /\ evolve c c1 /\
    accepts c = (prepareClientToWrite c).2 && negb (has c1 CLIENT_CLOSE_AFTER_REPLY).
Proof.
  exists (prepareClientToWrite c).1. split; [by destruct (prepareClientToWrite c)|].
  assert (evolve c (prepareClientToWrite c).1 /\ same_out c (prepareClientToWrite c).1 /\
    accepts c = (prepareClientToWrite c).2 && negb (has c CLIENT_CLOSE_AFTER_REPLY)) as (He & Hs & Ha).
  { unfold prepareClientToWrite, accepts.
    destruct (has c (Z.lor CLIENT_LUA CLIENT_MODULE)); [split; [apply evolve_refl|done]|].
    destruct (has c CLIENT_CLOSE_ASAP); [split; [apply evolve_refl|done]|].
    destruct (has c (Z.lor CLIENT_REPLY_OFF CLIENT_REPLY_SKIP)); [split; [apply evolve_refl|done]|].
    destruct (has c CLIENT_MASTER && negb (has c CLIENT_MASTER_FORCE_REPLY)); [split; [apply evolve_refl|done]|].
    destruct (conn c) eqn:Ec; [|split; [apply evolve_refl|done]]. simpl.
    destruct (negb (clientHasPendingReplies c) && negb (has c CLIENT_PENDING_READ)); [|split; [apply evolve_refl|done]].
    unfold clientInstallWriteHandler. destruct (_ && _); [|split; [apply evolve_refl|done]]. split; [|done].
    split; [|done]. exists CLIENT_PENDING_WRITE. split; [right; left|done]. }
  split; [done|]. split; [done|]. rewrite Ha. f_equal. f_equal. symmetry.
  apply has_grows; [apply He|by vm_compute|by vm_compute].
Qed.

Lemma close_limit_spec c :
  reply_bytes c < SIZE_MAX - 1024 * 64 ->
  exists c', closeClientOnOutputBufferLimitReached c = Some c' /\ same_out c c' /\ evolve c c'.
Proof.
  intros Hb. unfold closeClientOnOutputBufferLimitReached.
  assert (same_out c c /\ evolve c c) as Hrefl by (split; [done|apply evolve_refl]).
  destruct (negb (conn c)); [eauto|]. rewrite (proj2 (Z.ltb_lt _ _)) by done. cbn [negb].
  destruct (_ || _); [eauto|].
  assert (exists c1 b, checkClientOutputBufferLimits c = (c1, b) /\ same_out c c1 /\ evolve c c1) as (c1 & b & -> & Hs & He).
  { unfold checkClientOutputBufferLimits. destruct (_ && (_ >=? soft_limit_bytes _)).
    - destruct (obuf_soft_limit_reached_time c =? 0); eexists _, _; (split; [done|]); [|done].
      split; [done|]. split; [apply grows_refl|done].
    - eexists _, _. split; [done|]. split; [done|]. split; [apply grows_refl|done]. }
  destruct b; [|eauto]. eexists. split; [done|]. unfold freeClientAsync.
  destruct (_ || _); [done|]. split; [exact Hs|]. eapply evolve_trans; [exact He|].
  split; [|done]. exists CLIENT_CLOSE_ASAP. split; [do 2 right; left|done].
Qed.

Context (slack : Z) (usable_range : forall n, n <= usable n <= n + slack).

(** At most one block is added for a piece. *)
Definition cost (s : bytes) : Z := zlen s + PROTO_REPLY_CHUNK_BYTES + slack.
Definition fits (c : client) (k : Z) : Prop := reply_bytes c + k < SIZE_MAX - 1024 * 64.

Lemma slack_nonneg : 0 <= slack.
Proof. pose proof (usable_range 0). lia. Qed.

Lemma list_wf c l n :
  out_wf c -> Forall block_ok l -> n = sizes l ->
  (forall b r, reply c = Some b :: r -> exists b' r', l = Some b' :: r' /\ used b <= used b') ->
  out_wf (set_reply c l n).
Proof.
  intros [W1 W2 W3 W4] Hl Hn Hh. split; cbn [reply reply_bytes sentlen obuf set_reply]; try done.
  unfold first_len in *. cbn [reply obuf set_reply]. destruct (Z.eqb_spec (zlen (obuf c)) 0); [|done].
  destruct (reply c) as [|[b|] r] eqn:Er.
  - lia.
  - destruct (Hh b r eq_refl) as (b' & r' & -> & Hu). lia.
  - lia.
Qed.

(** A change of the list that keeps the sizes in order. *)
Lemma list_step c l n s :
  out_wf c -> Forall block_ok l -> n = sizes l -> blocks l = blocks (reply c) ++ s ->
  (forall b r, reply c = Some b :: r -> exists b' r', l = Some b' :: r' /\ used b <= used b') ->
  out_wf (set_reply c l n) /\ pending (set_reply c l n) = pending c ++ s.
Proof.
  intros W Hl Hn Hb Hh. split; [by apply list_wf|].
  apply pending_app; [done|done|]. unfold queued. cbn [reply obuf set_reply]. by rewrite Hb, app_assoc.
Qed.

(** What stands at or before a placeholder is not touched. *)
Definition above (c c' : client) : Prop := forall i,
  reply c !! i = Some None -> obuf c' = obuf c /\ take (S i) (reply c') = take (S i) (reply c).

Lemma above_refl c : above c c.
Proof. done. Qed.

Lemma above_lookup c c' i : above c c' -> reply c !! i = Some None -> reply c' !! i = Some None.
Proof.
  intros H Hi. destruct (H i Hi) as [_ E]. rewrite <-(lookup_take_lt (reply c') (S i)), E by lia.
  by rewrite lookup_take_lt by lia.
Qed.

Lemma above_trans a b c : above a b -> above b c -> above a c.
Proof.
  intros H1 H2 i Hi. pose proof (above_lookup _ _ _ H1 Hi) as Hi'.
  destruct (H1 i Hi) as [E1 E2], (H2 i Hi') as [E3 E4]. split; congruence.
Qed.

Lemma same_out_above c c' : same_out c c' -> above c c'.
Proof. intros (E1 & _ & E2 & _) i _. by rewrite E1, E2. Qed.

(** The last block of a list is its tail. *)
Lemma tail_block_split l t : tail_block l = Some t -> l = take (length l - 1) l ++ [Some t].
Proof.
  unfold tail_block. intros H. destruct (last l) as [x|] eqn:E; [|done]. simpl in H. subst x.
  apply last_Some in E as [l' ->]. rewrite length_app. simpl. replace (length l' + 1 - 1)%nat with (length l') by lia.
  by rewrite take_app_length.
Qed.

(** Replacing the tail by a block that holds more. *)
Lemma tail_step c t t' s :
  out_wf c -> tail_block (reply c) = Some t -> data t' = data t ++ s -> used t' <= size t' ->
  let c' := set_reply c (take (length (reply c) - 1) (reply c) ++ [Some t']) (reply_bytes c + size t' - size t) in
  out_wf c' /\ pending c' = pending c ++ s /\ above c c'.
Proof.
  intros W Ht Hd Hu. cbv zeta. pose proof (tail_block_split _ _ Ht) as Hl. set (l0 := take (length (reply c) - 1) (reply c)) in *.
  pose proof (ow_blocks _ W) as Hb. rewrite Hl in Hb. apply Forall_app in Hb as [Hb0 _].
  pose proof (ow_bytes _ W) as Hs. rewrite Hl, sizes_app in Hs. simpl in Hs.
  assert (used t <= used t') as Hut. { unfold used. rewrite Hd, zlen_app. pose proof (zlen_nonneg s). lia. }
  apply and_assoc. split.
  - apply list_step; [done| | | |].
    + apply Forall_app. split; [done|]. by repeat constructor.
    + rewrite sizes_app. simpl. lia.
    + rewrite Hl, !blocks_app. unfold blocks. simpl. by rewrite !app_nil_r, Hd, app_assoc.
    + intros b r E. rewrite Hl in E. destruct l0 as [|x l0]; simpl in *; simplify_eq; eexists _, _; (split; [done|lia]).
  - intros i Hi. split; [done|]. simpl. rewrite Hl in Hi. rewrite Hl.
    apply lookup_app_Some in Hi as [Hi|[Hi1 Hi2]].
    + apply lookup_lt_Some in Hi. by rewrite !take_app_le by lia.
    + apply list_lookup_singleton_Some in Hi2. by destruct Hi2.
Qed.

(** A new block at the end. *)
Lemma push_step c b :
  out_wf c -> used b <= size b ->
  let c' := set_reply c (reply c ++ [Some b]) (reply_bytes c + size b) in
  out_wf c' /\ pending c' = pending c ++ data b /\ above c c'.
Proof.
  intros W Hu. cbv zeta. pose proof (ow_bytes _ W) as Hs.
  assert (out_wf (set_reply c (reply c ++ [Some b]) (reply_bytes c + size b)) /\
    pending (set_reply c (reply c ++ [Some b]) (reply_bytes c + size b)) = pending c ++ data b) as [H1 H2].
  { apply list_step; [done| | | |].
    - apply Forall_app. split; [apply W|]. by repeat constructor.
    - rewrite sizes_app. simpl. lia.
    - rewrite blocks_app. unfold blocks. simpl. by rewrite app_nil_r.
    - intros b' r ->. simpl. eexists _, _. split; [done|lia]. }
  split; [done|]. split; [done|]. intros i Hi. split; [done|]. simpl. apply lookup_lt_Some in Hi.
  by rewrite take_app_le by lia.
Qed.

(** The outcome of adding [s] to the output at a cost of at most [k] bytes of
    blocks: it is appended to what is pending, unless the client stops
    accepting output on the way; then a prefix of it is. *)
Definition appends (k : Z) (c : client) (r : option client) (s : bytes) : Prop :=
  exists c' sent rest, r = Some c' /\ out_wf c' /\ evolve c c' /\ above c c' /\ reply_bytes c' <= reply_bytes c + k /\
    s = sent ++ rest /\ pending c' = pending c ++ sent /\
    (rest = [] \/ accepts c' = false) /\ (accepts c = false -> sent = []).

Lemma closed_step c c' s k :
  out_wf c' -> evolve c c' -> above c c' -> reply_bytes c' <= reply_bytes c + k -> pending c' = pending c ++ s ->
  reply_bytes c' < SIZE_MAX - 1024 * 64 -> accepts c = true ->
  appends k c (closeClientOnOutputBufferLimitReached c') s.
Proof.
  intros W He Ha Hk Hp Hf Hacc. destruct (close_limit_spec c' Hf) as (c2 & -> & Hs & He2).
  destruct (same_out_wf _ _ Hs W) as [W2 P2]. pose proof Hs as (_ & _ & _ & Hs4).
  exists c2, s, []. split_and!; try done.
  - by eapply evolve_trans.
  - eapply above_trans; [done|]. by apply same_out_above.
  - lia.
  - by rewrite app_nil_r.
  - by rewrite P2.
  - by left.
  - congruence.
Qed.

Lemma list_spec c s :
  out_wf c -> fits c (cost s) -> accepts c = true -> has c CLIENT_CLOSE_AFTER_REPLY = false ->
  appends (cost s) c (_addReplyProtoToList c s) s.
Proof.
  intros W Hf Hacc Hc. unfold _addReplyProtoToList. rewrite Hc. pose proof slack_nonneg as Hsl.
  unfold fits, cost in *.
  assert (exists c1 s1 s2, fill_tail c s = (c1, s2) /\ s = s1 ++ s2 /\ out_wf c1 /\ evolve c c1 /\ above c c1 /\
      reply_bytes c1 = reply_bytes c /\ pending c1 = pending c ++ s1) as (c1 & s1 & s2 & -> & Hs & W1 & He1 & Ha1 & Hr1 & Hp1).
  { unfold fill_tail. destruct (tail_block (reply c)) as [t|] eqn:Ht.
    - cbv zeta. set (k := Z.to_nat _). eexists _, (take k s), _. split; [done|].
      assert (used (mk_block (size t) (data t ++ take k s)) <= size t) as Hu.
      { unfold used in *. simpl. rewrite zlen_app, zlen_take_min. subst k.
        pose proof (tail_block_split _ _ Ht) as Hl. pose proof (ow_blocks _ W) as Hb. rewrite Hl in Hb.
        apply Forall_app in Hb as [_ Hb]. apply Forall_cons in Hb as [Hb _]. simpl in Hb. unfold used in Hb.
        destruct (_ >=? _) eqn:E; lia. }
      destruct (tail_step c t (mk_block (size t) (data t ++ take k s)) (take k s) W Ht eq_refl Hu) as (H1 & H2 & H3).
      cbn [size] in H1, H2, H3. replace (reply_bytes c + size t - size t) with (reply_bytes c) in * by lia.
      split_and!; try done; [by rewrite take_drop|]. split; [apply grows_refl|done].
    - exists c, [], s. split_and!; try done; [apply evolve_refl|by rewrite app_nil_r]. }
  destruct (Z.eqb_spec (zlen s2) 0) as [H0|H0]; cbn [negb].
  - apply zlen_0_inv in H0. subst s2. rewrite app_nil_r in Hs. subst s1.
    exists c1, s, []. rewrite app_nil_r. split_and!; try done; [pose proof (zlen_nonneg s); unfold PROTO_REPLY_CHUNK_BYTES; lia|by left|congruence].
  - set (n := if _ <? _ then _ else _).
    assert (zlen s2 <= n <= zlen s + PROTO_REPLY_CHUNK_BYTES) as Hn.
    { rewrite Hs, zlen_app. pose proof (zlen_nonneg s1). pose proof (zlen_nonneg s2). unfold n, PROTO_REPLY_CHUNK_BYTES. destruct (Z.ltb_spec (zlen s2) (16 * 1024)); lia. }
    pose proof (usable_range n) as Hus.
    destruct (push_step c1 (mk_block (usable n) s2) W1) as (W2 & Hp2 & Ha2); [unfold used; simpl; lia|]. cbn [size data] in *.
    apply closed_step; try done.
    + eapply above_trans; done.
    + simpl. lia.
    + by rewrite Hp2, Hp1, Hs, app_assoc.
    + simpl. lia.
Qed.

Lemma buffer_spec c s c' :
  out_wf c -> accepts c = true -> has c CLIENT_CLOSE_AFTER_REPLY = false -> _addReplyToBuffer c s = Some c' ->
  appends (cost s) c (Some c') s.
Proof.
  intros W Hacc Hc. unfold _addReplyToBuffer. rewrite Hc. pose proof slack_nonneg as Hsl. pose proof (zlen_nonneg s) as Hs.
  destruct (zlen (reply c) >? 0) eqn:Hr; [done|]. destruct (zlen s >? _) eqn:Hl; [done|]. intros [= <-].
  assert (reply c = []) as Er. { apply zlen_0_inv. pose proof (zlen_nonneg (reply c)). lia. }
  exists (set_obuf c (obuf c ++ s)), s, [].
  assert (out_wf (set_obuf c (obuf c ++ s))) as W'.
  { destruct W as [W1 W2 W3 W4]. split; simpl; [done|done| |rewrite zlen_app; lia].
    unfold first_len in *. simpl. rewrite Er in *. rewrite zlen_app. pose proof (zlen_nonneg (obuf c)).
    destruct (Z.eqb_spec (zlen (obuf c)) 0), (Z.eqb_spec (zlen (obuf c) + zlen s) 0); lia. }
  split_and!; try done.
  - split; [apply grows_refl|done].
  - intros i. by rewrite Er.
  - simpl. unfold cost, PROTO_REPLY_CHUNK_BYTES. lia.
  - by rewrite app_nil_r.
  - apply pending_app; [done|done|]. unfold queued. simpl. rewrite Er. unfold blocks. simpl. by rewrite !app_nil_r.
  - by left.
  - congruence.
Qed.

Lemma prepare_accepts c : accepts (prepareClientToWrite c).1 = accepts c.
Proof.
  unfold prepareClientToWrite. destruct (has c (Z.lor CLIENT_LUA _)); [done|]. destruct (has c CLIENT_CLOSE_ASAP); [done|].
  destruct (has c _); [done|]. destruct (_ && _); [done|]. destruct (negb (conn c)); [done|]. cbn [fst].
  destruct (negb _ && _); [|done]. unfold clientInstallWriteHandler. destruct (_ && _); [|done].
  assert (forall m, Z.land CLIENT_PENDING_WRITE m = 0 -> has (add_flag c CLIENT_PENDING_WRITE) m = has c m) as H.
  { intros m Hm. unfold has. simpl. by rewrite Z.land_lor_distr_l, Hm, Z.lor_0_r. }
  unfold accepts. rewrite !H by (vm_compute; reflexivity). done.
Qed.

Lemma cost_pos s : 0 < cost s.
Proof. unfold cost, PROTO_REPLY_CHUNK_BYTES. pose proof slack_nonneg. pose proof (zlen_nonneg s). lia. Qed.

(** A client that has its output refused. *)
Lemma appends_refused k c c' s :
  0 <= k -> out_wf c -> same_out c c' -> evolve c c' -> accepts c = false -> appends k c (Some c') s.
Proof.
  intros Hk W Hs He Ha. destruct (same_out_wf _ _ Hs W) as [W' P']. pose proof Hs as (_ & _ & _ & Hr).
  exists c', [], s. rewrite app_nil_r. split_and!; try done; [by apply same_out_above|lia|].
  right. by apply (accepts_grows c c').
Qed.

Lemma appends_change k c c1 r s :
  same_out c c1 -> out_wf c -> evolve c c1 -> accepts c1 = accepts c -> appends k c1 r s -> appends k c r s.
Proof.
  intros Hs W He Ha (c' & sent & rest & -> & W' & He' & Hab & Hr & E & Hp & H1 & H2).
  destruct (same_out_wf _ _ Hs W) as [W1 P1]. pose proof Hs as (_ & _ & _ & Hr1).
  exists c', sent, rest. rewrite <-P1, <-Ha. split_and!; try done; [by eapply evolve_trans| |lia].
  eapply above_trans; [by apply same_out_above|done].
Qed.

Lemma has_closing_grows c c' :
  evolve c c' -> has c' CLIENT_CLOSE_AFTER_REPLY = has c CLIENT_CLOSE_AFTER_REPLY.
Proof. intros [Hg _]. apply has_grows; [done|by vm_compute|by vm_compute]. Qed.

(** What prepareClientToWrite allows is what the client accepts. *)
Lemma prepared_spec c s k (f : client -> option client) :
  0 <= k -> out_wf c -> fits c k ->
  (forall c1, same_out c c1 -> out_wf c1 -> fits c1 k -> has c1 CLIENT_CLOSE_AFTER_REPLY = true -> f c1 = Some c1) ->
  (forall c1, out_wf c1 -> fits c1 k -> accepts c1 = true -> has c1 CLIENT_CLOSE_AFTER_REPLY = false -> appends k c1 (f c1) s) ->
  appends k c (let '(c1, ok) := prepareClientToWrite c in if negb ok then Some c1 else f c1) s.
Proof.
  intros Hk W Hf H1 H2. destruct (prepare_spec c) as (c1 & E1 & Hs & He & Ha). rewrite E1.
  destruct (same_out_wf _ _ Hs W) as [W1 P1]. pose proof Hs as (_ & _ & _ & Hr).
  assert (fits c1 k) as Hf1 by (unfold fits in *; lia).
  destruct ((prepareClientToWrite c).2) eqn:Eok; cbn [negb andb] in *; [|by apply appends_refused].
  destruct (has c1 CLIENT_CLOSE_AFTER_REPLY) eqn:Ec; cbn [negb] in Ha.
  - rewrite H1 by done. by apply appends_refused.
  - pose proof (prepare_accepts c) as Hpa. rewrite E1 in Hpa. cbn [fst] in Hpa.
    eapply appends_change; [exact Hs|done|exact He|done|]. apply H2; congruence || done.
Qed.

Lemma add_bytes_spec c s :
  out_wf c -> fits c (cost s) -> accepts c = true -> has c CLIENT_CLOSE_AFTER_REPLY = false ->
  appends (cost s) c (add_bytes c s) s.
Proof.
  intros W Hf Ha Hc. unfold add_bytes. destruct (_addReplyToBuffer c s) as [c'|] eqn:E.
  - by apply buffer_spec.
  - by apply list_spec.
Qed.

Lemma add_bytes_closing c s : has c CLIENT_CLOSE_AFTER_REPLY = true -> add_bytes c s = Some c.
Proof. unfold add_bytes, _addReplyToBuffer. by intros ->. Qed.

Lemma addReplyProto_spec c s : out_wf c -> fits c (cost s) -> appends (cost s) c (addReplyProto c s) s.
Proof.
  intros W Hf. pose proof (cost_pos s). apply prepared_spec; [lia|done|done| |].
  - intros. by apply add_bytes_closing.
  - intros. by apply add_bytes_spec.
Qed.

Definition obj_bytes (o : robj) : bytes := match o with ObjStr s => s | ObjInt v => print_lld v end.
Definition obj_ok (o : robj) : Prop := match o with ObjStr _ => True | ObjInt v => in_s 64 v end.

Lemma addReply_spec c o :
  obj_ok o -> out_wf c -> fits c (cost (obj_bytes o)) -> appends (cost (obj_bytes o)) c (addReply c o) (obj_bytes o).
Proof.
  intros Ho W Hf. pose proof (cost_pos (obj_bytes o)).
  assert (forall c1, match o with ObjStr s => add_bytes c1 s | ObjInt v => s ← ll2string_text 32 v; add_bytes c1 s end
    = add_bytes c1 (obj_bytes o)) as E.
  { intros c1. destruct o as [s|v]; [done|]. by rewrite ll2string_text_spec by (done || lia). }
  unfold addReply. apply prepared_spec; [lia|done|done| |].
  - intros. rewrite E. by apply add_bytes_closing.
  - intros. rewrite E. by apply add_bytes_spec.
Qed.

Lemma appends_seq k1 k2 c c1 r s1 s2 :
  appends k1 c (Some c1) s1 -> appends k2 c1 r s2 -> appends (k1 + k2) c r (s1 ++ s2).
Proof.
  intros (? & t1 & u1 & [= <-] & W1 & He1 & Ha1 & Hr1 & -> & Hp1 & Hx1 & Hy1)
    (c2 & t2 & u2 & -> & W2 & He2 & Ha2 & Hr2 & E2 & Hp2 & Hx2 & Hy2).
  assert (evolve c c2 /\ above c c2 /\ reply_bytes c2 <= reply_bytes c + (k1 + k2)) as (He & Ha & Hr).
  { split; [by eapply evolve_trans|]. split; [by eapply above_trans|lia]. }
  destruct Hx1 as [->|Hx1].
  - exists c2, (t1 ++ t2), u2. rewrite app_nil_r. split_and!; try done.
    + by rewrite E2, app_assoc.
    + by rewrite Hp2, Hp1, app_assoc.
    + intros Hn. rewrite (Hy1 Hn). apply Hy2. by apply (accepts_grows c c1).
  - exists c2, t1, (u1 ++ s2). rewrite (Hy2 Hx1), app_nil_r in Hp2. split_and!; try done.
    + by rewrite app_assoc.
    + by rewrite Hp2, Hp1.
    + right. by apply (accepts_grows c1 c2).
Qed.

Lemma appends_bind k1 k2 c r s1 s2 (f : client -> option client) :
  appends k1 c r s1 -> fits c (k1 + k2) -> 0 <= k2 ->
  (forall c', out_wf c' -> fits c' k2 -> evolve c c' -> appends k2 c' (f c') s2) ->
  appends (k1 + k2) c (c' ← r; f c') (s1 ++ s2).
Proof.
  intros Ha Hf Hk H. pose proof Ha as (c1 & t1 & u1 & -> & W1 & He1 & _ & Hr1 & _). cbn [mbind option_bind].
  eapply appends_seq; [exact Ha|]. apply H; [done|unfold fits in *; lia|done].
Qed.

Lemma appends_weaken k k' c r s : k <= k' -> appends k c r s -> appends k' c r s.
Proof.
  intros Hk (c1 & t1 & u1 & -> & W1 & He1 & Ha1 & Hr1 & -> & Hp1 & Hx1 & Hy1). exists c1, t1, u1. split_and!; try done. lia.
Qed.

Lemma fits_less c k k' : k' <= k -> fits c k -> fits c k'.
Proof. unfold fits. lia. Qed.

Lemma appends_done c : out_wf c -> appends 0 c (Some c) [].
Proof.
  intros W. exists c, [], []. split_and!; try done; try lia; [apply evolve_refl|by rewrite app_nil_r|by left].
Qed.

Lemma prefix_spec c ll prefix :
  in_s 64 ll -> out_wf c -> fits c (cost (prefix :: print_lld ll ++ crlf)) ->
  appends (cost (prefix :: print_lld ll ++ crlf)) c (addReplyLongLongWithPrefix c ll prefix) (prefix :: print_lld ll ++ crlf).
Proof.
  intros Hv W Hf. unfold addReplyLongLongWithPrefix, shared_hdr.
  destruct ((prefix =? 42) && (ll <? OBJ_SHARED_BULKHDR_LEN) && (ll >=? 0)) eqn:E1.
  { assert (prefix = 42) as -> by lia. by apply (addReply_spec c (ObjStr (42 :: print_lld ll ++ crlf))). }
  destruct ((prefix =? 36) && (ll <? OBJ_SHARED_BULKHDR_LEN) && (ll >=? 0)) eqn:E2.
  { assert (prefix = 36) as -> by lia. by apply (addReply_spec c (ObjStr (36 :: print_lld ll ++ crlf))). }
  rewrite ll2string_text_spec by (done || lia). cbn [mbind option_bind]. by apply addReplyProto_spec.
Qed.

(** ** The reply functions against the protocol *)

Inductive reply_op :=
  | RProto (s : bytes) | RObj (o : robj) | RError (s : bytes) | RStatus (s : bytes) | RLongLong (v : Z)
  | RArrayLen (n : Z) | RMapLen (n : Z) | RSetLen (n : Z) | RAttributeLen (n : Z) | RPushLen (n : Z)
  | RNull | RBool (b : bool) | RNullArray
  | RBulkCBuffer (s : bytes) | RBulk (o : robj) | RBulkSds (s : bytes) | RBulkLongLong (v : Z)
  | RBigNum (s : bytes) | RVerbatim (s ext : bytes).

Definition run_reply (c : client) (op : reply_op) : option client :=
  match op with
  | RProto s => addReplyProto c s
  | RObj o => addReply c o
  | RError s => addReplyErrorLength c s
  | RStatus s => addReplyStatusLength c s
  | RLongLong v => addReplyLongLong c v
  | RArrayLen n => addReplyArrayLen c n
  | RMapLen n => addReplyMapLen c n
  | RSetLen n => addReplySetLen c n
  | RAttributeLen n => addReplyAttributeLen c n
  | RPushLen n => addReplyPushLen c n
  | RNull => addReplyNull c
  | RBool b => addReplyBool c b
  | RNullArray => addReplyNullArray c
  | RBulkCBuffer s => addReplyBulkCBuffer c s
  | RBulk o => addReplyBulk c o
  | RBulkSds s => addReplyBulkSds c s
  | RBulkLongLong v => addReplyBulkLongLong c v
  | RBigNum s => addReplyBigNum c s
  | RVerbatim s ext => addReplyVerbatim c s ext
  end.

Fixpoint run_replies (c : client) (ops : list reply_op) : option client :=
  match ops with
  | [] => Some c
  | op :: ops => c ← run_reply c op; run_replies c ops
  end.

(** The protocol: a header is a type, a decimal number and CRLF. *)
Definition header (prefix n : Z) : bytes := prefix :: print_lld n ++ crlf.
Definition bulk_string (s : bytes) : bytes := header 36 (zlen s) ++ s ++ crlf.

Definition encode_reply (resp : Z) (op : reply_op) : bytes :=
  match op with
  | RProto s => s
  | RObj o => obj_bytes o
  | RError s => (if bool_decide (head s = Some 45) then [] else str "-ERR ") ++ s ++ crlf
  | RStatus s => str "+" ++ s ++ crlf
  | RLongLong v => header 58 v
  | RArrayLen n => header 42 n
  | RMapLen n => if resp =? 2 then header 42 (n * 2) else header 37 n
  | RSetLen n => if resp =? 2 then header 42 n else header 126 n
  | RAttributeLen n => header 124 n
  | RPushLen n => header 62 n
  | RNull => if resp =? 2 then str "$-1" ++ crlf else str "_" ++ crlf
  | RBool b => if resp =? 2 then header 58 (if b then 1 else 0) else str (if b then "#t" else "#f") ++ crlf
  | RNullArray => if resp =? 2 then str "*-1" ++ crlf else str "_" ++ crlf
  | RBulkCBuffer s | RBulkSds s => bulk_string s
  | RBulk o => bulk_string (obj_bytes o)
  | RBulkLongLong v => bulk_string (print_lld v)
  | RBigNum s => if resp =? 2 then bulk_string s else str "(" ++ s ++ crlf
  | RVerbatim s ext => if resp =? 2 then bulk_string s else header 61 (zlen s + 4) ++ pad3 ext ++ str ":" ++ s ++ crlf
  end.

(** What the callers guarantee: lengths that are not negative and fit a long,
    integers of 64 bits, and RESP3 for the types RESP2 does not have. *)
Definition reply_ok (resp : Z) (op : reply_op) : bool :=
  match op with
  | RLongLong v | RBulkLongLong v => bool_decide (in_s 64 v)
  | RArrayLen n | RSetLen n => bool_decide (0 <= n < 2 ^ 63)
  | RMapLen n => bool_decide (0 <= n < 2 ^ 62)
  | RAttributeLen n | RPushLen n => bool_decide (0 <= n < 2 ^ 63) && (resp >=? 3)
  | RObj (ObjInt v) => bool_decide (in_s 64 v)
  | RBulk (ObjInt v) => bool_decide (in_s 64 v)
  | RBulkCBuffer s | RBulkSds s | RBulk (ObjStr s) | RBigNum s | RVerbatim s _ => bool_decide (zlen s + 4 < 2 ^ 63)
  | _ => true
  end.

(** At most three pieces are added for one reply. *)
Definition reply_cost (s : bytes) : Z := zlen s + 3 * (PROTO_REPLY_CHUNK_BYTES + slack).

Lemma piece_cost s : cost s <= reply_cost s.
Proof. unfold cost, reply_cost, PROTO_REPLY_CHUNK_BYTES. pose proof slack_nonneg. lia. Qed.

Lemma one_piece c r s : (fits c (cost s) -> appends (cost s) c r s) -> fits c (reply_cost s) -> appends (reply_cost s) c r s.
Proof.
  intros H Hf. pose proof (piece_cost s). apply (appends_weaken (cost s)); [done|]. apply H. by eapply fits_less.
Qed.

Lemma three_pieces c r f g s1 s2 s3 :
  (fits c (cost s1) -> appends (cost s1) c r s1) ->
  (forall c', out_wf c' -> fits c' (cost s2) -> appends (cost s2) c' (f c') s2) ->
  (forall c', out_wf c' -> fits c' (cost s3) -> appends (cost s3) c' (g c') s3) ->
  fits c (reply_cost (s1 ++ s2 ++ s3)) ->
  appends (reply_cost (s1 ++ s2 ++ s3)) c (c1 ← r; c2 ← f c1; g c2) (s1 ++ s2 ++ s3).
Proof.
  intros H1 H2 H3 Hf.
  assert (reply_cost (s1 ++ s2 ++ s3) = cost s1 + (cost s2 + cost s3)) as E.
  { unfold reply_cost, cost. rewrite !zlen_app. lia. }
  rewrite E in *. pose proof (cost_pos s1). pose proof (cost_pos s2). pose proof (cost_pos s3).
  apply appends_bind; [|done|lia|].
  - apply H1. eapply fits_less; [|done]. lia.
  - intros c1 W1 F1 _. apply appends_bind; [|done|lia|].
    + apply H2; [done|]. eapply fits_less; [|done]. lia.
    + intros c2 W2 F2 _. by apply H3.
Qed.

Lemma bulk_pieces c s (f : client -> option client) :
  out_wf c -> zlen s + 4 < 2 ^ 63 -> (forall c', out_wf c' -> fits c' (cost s) -> appends (cost s) c' (f c') s) ->
  fits c (reply_cost (bulk_string s)) ->
  appends (reply_cost (bulk_string s)) c
    (c1 ← addReplyLongLongWithPrefix c (zlen s) 36; c2 ← f c1; addReply c2 (ObjStr crlf)) (bulk_string s).
Proof.
  intros W Hs Hp. apply three_pieces; [| |].
  - intros Hf. apply prefix_spec; [|done|done]. pose proof (zlen_nonneg s). lia.
  - done.
  - intros c' W' F'. by apply (addReply_spec c' (ObjStr crlf)).
Qed.

Lemma header_spec c ll prefix :
  in_s 64 ll -> out_wf c -> fits c (reply_cost (header prefix ll)) ->
  appends (reply_cost (header prefix ll)) c (addReplyLongLongWithPrefix c ll prefix) (header prefix ll).
Proof. intros Hv W. apply one_piece. intros. by apply prefix_spec. Qed.

Lemma aggregate_spec c n prefix :
  0 <= n < 2 ^ 63 -> out_wf c -> fits c (reply_cost (header prefix n)) ->
  appends (reply_cost (header prefix n)) c (addReplyAggregateLen c n prefix) (header prefix n).
Proof.
  intros Hn W. unfold addReplyAggregateLen. destruct (n >=? 0) eqn:E; [|lia]. apply header_spec; [lia|done].
Qed.

Lemma proto_spec c s : out_wf c -> fits c (reply_cost s) -> appends (reply_cost s) c (addReplyProto c s) s.
Proof. intros W. apply one_piece. intros. by apply addReplyProto_spec. Qed.

Lemma shared_spec c s : out_wf c -> fits c (reply_cost s) -> appends (reply_cost s) c (addReply c (ObjStr s)) s.
Proof. exact (proto_spec c s). Qed.

Lemma bulk_spec c s :
  zlen s + 4 < 2 ^ 63 -> out_wf c -> fits c (reply_cost (bulk_string s)) ->
  appends (reply_cost (bulk_string s)) c (addReplyBulkCBuffer c s) (bulk_string s).
Proof. intros Hs W. apply bulk_pieces; [done|done|]. intros. by apply addReplyProto_spec. Qed.

Lemma error_spec c s :
  out_wf c -> fits c (reply_cost (encode_reply (resp c) (RError s))) ->
  appends (reply_cost (encode_reply (resp c) (RError s))) c (addReplyErrorLength c s) (encode_reply (resp c) (RError s)).
Proof.
  intros W. unfold addReplyErrorLength. cbn [encode_reply]. apply three_pieces.
  - intros. destruct s as [|b s]; [by apply addReplyProto_spec|]. rewrite zlen_cons. pose proof (zlen_nonneg s).
    destruct (Z.eqb_spec (1 + zlen s) 0); [lia|]. cbn [orb]. case_bool_decide; cbn [negb]; [|by apply addReplyProto_spec].
    eapply appends_weaken; [|by apply appends_done]. pose proof (cost_pos []). lia.
  - intros. by apply addReplyProto_spec.
  - intros. by apply addReplyProto_spec.
Qed.

Lemma print_lld_short v : in_s 64 v -> zlen (print_lld v) + 4 < 2 ^ 63.
Proof. intros Hv. rewrite print_lld_length by done. pose proof (sdigits10_le v Hv). lia. Qed.

Lemma bulk_obj_spec c o :
  obj_ok o -> zlen (obj_bytes o) + 4 < 2 ^ 63 -> out_wf c -> fits c (reply_cost (bulk_string (obj_bytes o))) ->
  appends (reply_cost (bulk_string (obj_bytes o))) c (addReplyBulk c o) (bulk_string (obj_bytes o)).
Proof.
  intros Ho Hs W. unfold addReplyBulk, addReplyBulkLen.
  assert (stringObjectLen o = zlen (obj_bytes o)) as ->. { destruct o; [done|]. simpl. by rewrite print_lld_length. }
  apply bulk_pieces; [done|done|]. intros. by apply addReply_spec.
Qed.

Lemma verbatim_spec c s ext :
  zlen s + 4 < 2 ^ 63 -> out_wf c -> fits c (reply_cost (encode_reply (resp c) (RVerbatim s ext))) ->
  appends (reply_cost (encode_reply (resp c) (RVerbatim s ext))) c (addReplyVerbatim c s ext)
    (encode_reply (resp c) (RVerbatim s ext)).
Proof.
  intros Hs W. cbn [encode_reply]. unfold addReplyVerbatim. destruct (resp c =? 2); [by apply bulk_spec|].
  pose proof (zlen_nonneg s). rewrite (uint_small 64 (zlen s + 4)) by lia.
  replace (header 61 (zlen s + 4) ++ pad3 ext ++ str ":" ++ s ++ crlf)
    with ((str "=" ++ print_lld (zlen s + 4) ++ crlf ++ pad3 ext ++ str ":") ++ s ++ crlf)
    by (unfold header; change (str "=") with [61]; cbn [app]; by rewrite <-!app_assoc).
  apply three_pieces; intros; by apply addReplyProto_spec.
Qed.

#[local] Hint Resolve proto_spec shared_spec header_spec aggregate_spec bulk_spec error_spec bulk_obj_spec verbatim_spec
  print_lld_short : reply.

Lemma run_reply_spec c op :
  out_wf c -> reply_ok (resp c) op = true -> fits c (reply_cost (encode_reply (resp c) op)) ->
  appends (reply_cost (encode_reply (resp c) op)) c (run_reply c op) (encode_reply (resp c) op).
Proof.
  intros W Hok. destruct op; cbn [run_reply encode_reply reply_ok] in *;
    repeat match goal with
    | H : _ && _ = true |- _ => apply andb_true_iff in H as [H ?]
    | H : bool_decide _ = true |- _ => apply bool_decide_eq_true in H
    end; try (by auto with reply).
  - destruct o as [s|v]; [by auto with reply|]. apply bool_decide_eq_true in Hok.
    apply one_piece. intros. by apply addReply_spec.
  - by apply error_spec.
  - apply three_pieces; intros; by apply addReplyProto_spec.
  - unfold addReplyLongLong. destruct (Z.eqb_spec v 0) as [->|]; [by apply shared_spec|].
    destruct (Z.eqb_spec v 1) as [->|]; [by apply shared_spec|]. by apply header_spec.
  - unfold addReplyMapLen. destruct (resp c =? 2); apply aggregate_spec; done || lia.
  - unfold addReplySetLen. destruct (resp c =? 2); by apply aggregate_spec.
  - unfold addReplyAttributeLen. destruct (resp c >=? 3); [|done]. by apply aggregate_spec.
  - unfold addReplyPushLen. destruct (resp c >=? 3); [|done]. by apply aggregate_spec.
  - unfold addReplyNull. destruct (resp c =? 2); by auto with reply.
  - unfold addReplyBool. destruct (resp c =? 2), b; by auto with reply.
  - unfold addReplyNullArray. destruct (resp c =? 2); by auto with reply.
  - destruct o as [s|v]; apply bool_decide_eq_true in Hok; apply bulk_obj_spec; simpl; auto with reply.
  - unfold addReplyBulkLongLong. rewrite ll2string_text_spec by (done || lia). cbn [mbind option_bind]. by auto with reply.
  - unfold addReplyBigNum. destruct (resp c =? 2); [by auto with reply|].
    apply three_pieces; intros; by apply addReplyProto_spec.
  - by apply verbatim_spec.
Qed.

Definition total_cost (r : Z) (ops : list reply_op) : Z := foldr (fun op n => reply_cost (encode_reply r op) + n) 0 ops.

Lemma run_replies_spec ops c :
  out_wf c -> Forall (fun op => reply_ok (resp c) op = true) ops -> fits c (total_cost (resp c) ops) ->
  appends (total_cost (resp c) ops) c (run_replies c ops) (mjoin (encode_reply (resp c) <$> ops)).
Proof.
  revert c. induction ops as [|op ops IH]; intros c W Hok Hf; [by apply appends_done|].
  apply Forall_cons in Hok as [Ho Hok]. cbn [total_cost foldr] in *. fold (total_cost (resp c) ops) in *.
  assert (forall r o, 0 <= total_cost r o) as Hnn.
  { intros r o. induction o as [|x o IHo]; [done|].
    change (total_cost r (x :: o)) with (reply_cost (encode_reply r x) + total_cost r o). pose proof (piece_cost (encode_reply r x)).
    pose proof (cost_pos (encode_reply r x)). lia. }
  specialize (Hnn (resp c) ops). cbn [fmap list_fmap mjoin list_join run_replies].
  apply appends_bind; [|done|done|].
  - apply run_reply_spec; [done|done|]. eapply fits_less; [|done]. lia.
  - intros c' W' F' (_ & E & _). rewrite <-E in *. by apply IH.
Qed.

(** ** Deferred lengths *)

(** Growing the last block of the list [a]. *)
Record grown (a a1 : list (option clientReplyBlock)) (s : bytes) : Prop := {
  gr_len : length a1 = length a;
  gr_sizes : sizes a1 = sizes a;
  gr_ok : Forall block_ok a1;
  gr_blocks : blocks a1 = blocks a ++ s;
  gr_head : forall b r, a = Some b :: r -> exists b' r', a1 = Some b' :: r' /\ used b <= used b';
  gr_above : forall j, a !! j = Some None -> take (S j) a1 = take (S j) a;
}.

Lemma grown_refl a : Forall block_ok a -> grown a a [].
Proof. intros Ha. split; try done; [by rewrite app_nil_r|]. intros b r ->. by eexists _, _. Qed.

Lemma grown_last a t t' s :
  Forall block_ok a -> size t' = size t -> data t' = data t ++ s -> used t' <= size t' ->
  grown (a ++ [Some t]) (a ++ [Some t']) s.
Proof.
  intros Ha Hs Hd Hu. assert (used t <= used t') as Hut. { unfold used. rewrite Hd, zlen_app. pose proof (zlen_nonneg s). lia. }
  split.
  - by rewrite !length_app.
  - rewrite !sizes_app. simpl. lia.
  - apply Forall_app. split; [done|]. by repeat constructor.
  - rewrite !blocks_app. unfold blocks. simpl. by rewrite !app_nil_r, Hd, app_assoc.
  - intros b r E. destruct a as [|x a]; simpl in *; simplify_eq; eexists _, _; (split; [done|lia]).
  - intros j Hj. apply lookup_app_Some in Hj as [Hj|[_ Hj]].
    + apply lookup_lt_Some in Hj. by rewrite !take_app_le by lia.
    + apply list_lookup_singleton_Some in Hj. by destruct Hj.
Qed.

Lemma fill_prev_spec a b s :
  Forall block_ok a ->
  exists a1 s1 s2 copied, fill_prev (a ++ None :: b) (length a) s = (a1 ++ None :: b, s2, copied) /\
    s = s1 ++ s2 /\ grown a a1 s1.
Proof.
  intros Ha. unfold fill_prev.
  assert (exists a1 s1 s2 copied, (a ++ None :: b, s, false) = (a1 ++ None :: b, s2, copied) /\ s = s1 ++ s2 /\ grown a a1 s1)
    as Hsame by (exists a, [], s, false; split_and!; [done|done|by apply grown_refl]).
  destruct (Nat.ltb_spec 0 (length a)) as [Hl|]; [|done].
  destruct a as [|x a _] using rev_ind; [simpl in Hl; lia|]. rewrite length_app in *. simpl length in *.
  replace (length a + 1 - 1)%nat with (length a) by lia. rewrite <-app_assoc. simpl app. rewrite list_lookup_middle by done.
  rewrite <-app_assoc in Hsame. simpl app in Hsame. destruct x as [t|]; simpl mjoin; [|done].
  destruct (size t - used t >? 0) eqn:Er; rewrite Er; [|exact Hsame]. cbv zeta. set (k := Z.to_nat _).
  rewrite insert_app_r_alt, Nat.sub_diag by done. simpl.
  exists (a ++ [Some (mk_block (size t) (data t ++ take k s))]), (take k s), (drop k s), true.
  rewrite <-app_assoc, take_drop. split; [done|]. split; [done|]. apply Forall_app in Ha as [Ha _].
  apply grown_last; [done|done|done|]. unfold used in *. simpl. rewrite zlen_app, zlen_take_min. subst k.
  destruct (_ >? _) eqn:E in |- *; lia.
Qed.

(** The three ways a deferred length ends up in the list [l]: the placeholder
    between [a] and [b] is replaced by [s]. *)
Record filled (c : client) (a b l : list (option clientReplyBlock)) (s : bytes) (n : Z) : Prop := {
  fd_ok : Forall block_ok l;
  fd_sizes : n = sizes l;
  fd_blocks : blocks l = blocks a ++ s ++ blocks b;
  fd_head : forall x r, reply c = Some x :: r -> exists x' r', l = Some x' :: r' /\ used x <= used x';
  fd_above : forall j, a !! j = Some None -> take (S j) l = take (S j) a;
}.

Lemma filled_intro c a a1 b b1 s s1 s2 n :
  reply c = a ++ None :: b -> grown a a1 s1 -> s = s1 ++ s2 -> Forall block_ok b1 -> blocks b1 = s2 ++ blocks b ->
  n = sizes a1 + sizes b1 -> filled c a b (a1 ++ b1) s n.
Proof.
  intros Hr [G1 G2 G3 G4 G5 G6] -> Hb1 Hbl ->. split.
  - by apply Forall_app.
  - by rewrite sizes_app.
  - by rewrite blocks_app, Hbl, G4, <-!app_assoc.
  - intros x r E. rewrite Hr in E. destruct a as [|y a]; [done|]. simpl in E. simplify_eq.
    destruct (G5 x a eq_refl) as (x' & r' & -> & Hu). simpl. by eexists _, _.
  - intros j Hj. rewrite <-(G6 j Hj). apply lookup_lt_Some in Hj. by rewrite take_app_le by lia.
Qed.

Lemma filled_spec c a b l s n :
  out_wf c -> reply c = a ++ None :: b -> filled c a b l s n ->
  out_wf (set_reply c l n) /\
  pending (set_reply c l n) = drop (Z.to_nat (sentlen c)) (obuf c ++ blocks a) ++ s ++ blocks b.
Proof.
  intros W Hr [F1 F2 F3 F4 _]. split; [by apply list_wf|].
  unfold pending, queued. simpl. rewrite F3, app_assoc. apply drop_app_le.
  pose proof (ow_sent _ W) as Hs. unfold first_len in Hs. rewrite length_app. unfold zlen in Hs.
  destruct (Z.eqb_spec (Z.of_nat (length (obuf c))) 0); [|lia]. rewrite Hr in Hs.
  destruct a as [|[x|] a]; simpl in *; try lia. change (blocks (Some x :: a)) with (data x ++ blocks a).
  rewrite length_app. unfold used, zlen in Hs. lia.
Qed.

Lemma setDeferredReply_spec c a b s :
  out_wf c -> reply c = a ++ None :: b -> fits c (cost s) ->
  exists c' l n, setDeferredReply c (Some (length a)) s = Some c' /\ filled c a b l s n /\
    same_out (set_reply c l n) c' /\ evolve c c' /\ n <= reply_bytes c + cost s.
Proof.
  intros W Hr Hf. unfold setDeferredReply. rewrite Hr, list_lookup_middle by done. cbn [mbind option_bind].
  pose proof (ow_blocks _ W) as Hb. rewrite Hr in Hb. apply Forall_app in Hb as [Ha Hb]. apply Forall_cons in Hb as [_ Hb].
  pose proof (ow_bytes _ W) as Hsz. rewrite Hr, sizes_app in Hsz. simpl in Hsz.
  destruct (fill_prev_spec a b s Ha) as (a1 & s1 & s2 & copied & -> & Hs & G).
  pose proof (gr_len _ _ _ G) as G1. pose proof (gr_sizes _ _ _ G) as G2. rewrite <-G1.
  pose proof (cost_pos s) as Hc. pose proof slack_nonneg as Hsl. unfold cost, fits in *.
  assert (zlen s2 <= zlen s) as Hs2. { rewrite Hs, zlen_app. pose proof (zlen_nonneg s1). lia. }
  assert (forall l, filled c a b l s (reply_bytes c) -> exists c' l' n, Some (set_reply c l (reply_bytes c)) = Some c' /\
    filled c a b l' s n /\ same_out (set_reply c l' n) c' /\ evolve c c' /\
    n <= reply_bytes c + (zlen s + PROTO_REPLY_CHUNK_BYTES + slack)) as Hdone.
  { intros l Hl. eexists _, l, _. split_and!; try done; [split; [apply grows_refl|done]|lia]. }
  destruct (copied && (zlen s2 =? 0)) eqn:E0.
  { assert (s2 = []) as -> by (apply zlen_0_inv; lia). rewrite delete_middle. apply Hdone.
    eapply filled_intro; [done|exact G|done|done|done|lia]. }
  assert (exists c' l n, closeClientOnOutputBufferLimitReached
    (set_reply c (<[length a1 := Some (mk_block (usable (zlen s2)) s2)]> (a1 ++ None :: b))
      (reply_bytes c + usable (zlen s2))) = Some c' /\ filled c a b l s n /\
    same_out (set_reply c l n) c' /\ evolve c c' /\ n <= reply_bytes c + (zlen s + PROTO_REPLY_CHUNK_BYTES + slack)) as Hnew.
  { rewrite insert_app_r_alt, Nat.sub_diag by done. simpl insert. pose proof (usable_range (zlen s2)) as Hu.
    destruct (close_limit_spec (set_reply c (a1 ++ Some (mk_block (usable (zlen s2)) s2) :: b) (reply_bytes c + usable (zlen s2))))
      as (c' & -> & Ho & He); [simpl; unfold PROTO_REPLY_CHUNK_BYTES in *; lia|].
    eexists c', _, _. split_and!; [done| |exact Ho|exact He|unfold PROTO_REPLY_CHUNK_BYTES; lia].
    eapply filled_intro; [done|exact G|exact Hs| |done|simpl; lia]. constructor; [|done]. unfold block_ok, used. simpl. lia. }
  rewrite lookup_app_r, G1 by lia. replace (length a + 1 - length a)%nat with 1%nat by lia. simpl ((None :: b) !! 1%nat).
  rewrite <-G1. destruct b as [|[nx|] b]; [exact Hnew| |exact Hnew]. simpl mjoin. cbv iota beta.
  destruct ((size nx - used nx >=? zlen s2) && (used nx <? PROTO_REPLY_CHUNK_BYTES * 4)) eqn:E1; [|exact Hnew].
  rewrite insert_app_r_alt by lia. replace (length a1 + 1 - length a1)%nat with 1%nat by lia. simpl insert.
  rewrite delete_middle. apply Hdone. apply Forall_cons in Hb as [Hn Hb].
  eapply filled_intro; [done|exact G|exact Hs| | |simpl in *; lia].
  - constructor; [|done]. unfold block_ok, used in *. simpl. rewrite zlen_app. lia.
  - unfold blocks. simpl. by rewrite app_assoc.
Qed.

Lemma trim_spec c :
  out_wf c -> out_wf (trimReplyUnusedTailSpace c) /\ pending (trimReplyUnusedTailSpace c) = pending c /\
    above c (trimReplyUnusedTailSpace c) /\ evolve c (trimReplyUnusedTailSpace c) /\
    reply_bytes (trimReplyUnusedTailSpace c) <= reply_bytes c + slack /\
    accepts (trimReplyUnusedTailSpace c) = accepts c.
Proof.
  intros W. pose proof slack_nonneg. unfold trimReplyUnusedTailSpace.
  destruct (tail_block (reply c)) as [t|] eqn:Ht; [|by (split_and!; try done; [apply evolve_refl|lia])].
  destruct (_ && _) eqn:E; [|by (split_and!; try done; [apply evolve_refl|lia])].
  pose proof (usable_range (used t)) as Hu.
  destruct (tail_step c t (mk_block (usable (used t)) (data t)) [] W Ht) as (H1 & H2 & H3);
    [by rewrite app_nil_r|unfold used in *; simpl; lia|].
  cbn [size] in *. rewrite app_nil_r in H2. split_and!; try done; [split; [apply grows_refl|done]|]. simpl.
  pose proof (tail_block_split _ _ Ht) as Hl. pose proof (ow_blocks _ W) as Hb. rewrite Hl in Hb.
  apply Forall_app in Hb as [_ Hb]. apply Forall_cons in Hb as [Hb _]. simpl in Hb. lia.
Qed.

Lemma push_placeholder c :
  out_wf c ->
  let c' := set_reply c (reply c ++ [None]) (reply_bytes c) in
  out_wf c' /\ pending c' = pending c /\ above c c'.
Proof.
  intros W. cbv zeta. assert (blocks (reply c ++ [None]) = blocks (reply c)) as E.
  { rewrite blocks_app. apply app_nil_r. }
  split_and!.
  - apply list_wf; [done| | |].
    + apply Forall_app. split; [apply W|by repeat constructor].
    + rewrite sizes_app. simpl. rewrite (ow_bytes _ W). lia.
    + intros b r ->. simpl. eexists _, _. split; [done|lia].
  - unfold pending, queued. simpl. by rewrite E.
  - intros i Hi. split; [done|]. simpl. apply lookup_lt_Some in Hi. by rewrite take_app_le by lia.
Qed.

(** What a placeholder is filled with stands before what was added since. *)
Lemma deferred_fill c c1 sent s :
  out_wf c -> above (set_reply c (reply c ++ [None]) (reply_bytes c)) c1 -> out_wf c1 -> fits c1 (cost s) ->
  sentlen c1 = sentlen c -> pending c1 = pending c ++ sent ->
  exists c2, setDeferredReply c1 (Some (length (reply c))) s = Some c2 /\ out_wf c2 /\ evolve c1 c2 /\ above c c2 /\
    reply_bytes c2 <= reply_bytes c1 + cost s /\ pending c2 = pending c ++ s ++ sent.
Proof.
  intros W Ha W1 Hf Hsl Hp.
  destruct (Ha (length (reply c))) as [Eo Et]; [simpl; by rewrite list_lookup_middle|]. simpl in Eo, Et.
  assert (reply c1 = reply c ++ None :: drop (S (length (reply c))) (reply c1)) as Hr.
  { rewrite <-(take_drop (S (length (reply c))) (reply c1)) at 1. rewrite Et.
    rewrite take_ge by (rewrite length_app; simpl; lia). by rewrite <-app_assoc. }
  set (b := drop _ _) in Hr. destruct (setDeferredReply_spec c1 (reply c) b s W1 Hr Hf) as (c2 & l & n & -> & F & Ho & He & Hn).
  destruct (filled_spec _ _ _ _ _ _ W1 Hr F) as [W2 P2]. destruct (same_out_wf _ _ Ho W2) as [W3 P3].
  exists c2. split_and!; try done.
  - intros i Hi. destruct Ho as (O1 & _ & O3 & _). simpl in O1, O3. rewrite O1, O3. split; [done|]. by apply F.
  - destruct Ho as (_ & _ & _ & O4). simpl in O4. lia.
  - rewrite P3, P2, Eo, Hsl. fold (queued c). fold (pending c). f_equal. f_equal.
    assert (pending c1 = pending c ++ blocks b) as E; [|rewrite E in Hp; by apply app_inv_head in Hp].
    apply pending_app; [done|done|]. unfold queued. rewrite Eo, Hr, blocks_app, <-app_assoc. done.
Qed.

(** ** Reply trees: aggregates whose length is set after their elements *)

Inductive agg := AArray | AMap | ASet.

Definition set_deferred (k : agg) (c : client) (node : option nat) (n : Z) : option client :=
  match k with
  | AArray => setDeferredArrayLen c node n
  | AMap => setDeferredMapLen c node n
  | ASet => setDeferredSetLen c node n
  end.

Inductive reply_tree :=
  | TReply (op : reply_op)
  | TDeferred (k : agg) (n : Z) (elements : list reply_tree).

Definition bind_trees (f : client -> reply_tree -> option client) : client -> list reply_tree -> option client :=
  fix go c l := match l with [] => Some c | t :: l => c ← f c t; go c l end.

(** addReplyDeferredLen, the elements, setDeferred*Len: the way commands that
    count their elements on the way reply. *)
Fixpoint run_tree (c : client) (t : reply_tree) : option client :=
  match t with
  | TReply op => run_reply c op
  | TDeferred k n l =>
    let '(c, node) := addReplyDeferredLen c in
    c ← bind_trees run_tree c l;
    set_deferred k c node n
  end.

Definition agg_len (resp : Z) (k : agg) (n : Z) : reply_op :=
  match k with AArray => RArrayLen n | AMap => RMapLen n | ASet => RSetLen n end.

Fixpoint encode_tree (resp : Z) (t : reply_tree) : bytes :=
  match t with
  | TReply op => encode_reply resp op
  | TDeferred k n l => encode_reply resp (agg_len resp k n) ++ mjoin (encode_tree resp <$> l)
  end.

Fixpoint tree_ok (resp : Z) (t : reply_tree) : bool :=
  match t with
  | TReply op => reply_ok resp op
  | TDeferred k n l => reply_ok resp (agg_len resp k n) && forallb (tree_ok resp) l
  end.

Fixpoint tree_cost (resp : Z) (t : reply_tree) : Z :=
  match t with
  | TReply op => reply_cost (encode_reply resp op)
  | TDeferred k n l =>
    slack + foldr (fun t m => tree_cost resp t + m) 0 l + cost (encode_reply resp (agg_len resp k n))
  end.

Lemma set_deferred_header k c i n :
  reply_ok (resp c) (agg_len (resp c) k n) = true ->
  set_deferred k c (Some i) n = setDeferredReply c (Some i) (encode_reply (resp c) (agg_len (resp c) k n)).
Proof.
  destruct k; simpl; intros H; apply bool_decide_eq_true in H;
    unfold setDeferredArrayLen, setDeferredMapLen, setDeferredSetLen, setDeferredAggregateLen.
  - destruct (n >=? 0) eqn:E; [done|lia].
  - destruct (resp c =? 2); [destruct (n * 2 >=? 0) eqn:E|destruct (n >=? 0) eqn:E]; (done || lia).
  - destruct (n >=? 0) eqn:E; [|lia]. by destruct (resp c =? 2).
Qed.

Lemma set_deferred_none k c n : reply_ok (resp c) (agg_len (resp c) k n) = true -> set_deferred k c None n = Some c.
Proof.
  destruct k; simpl; intros H; apply bool_decide_eq_true in H;
    unfold setDeferredArrayLen, setDeferredMapLen, setDeferredSetLen, setDeferredAggregateLen.
  - destruct (n >=? 0) eqn:E; [done|lia].
  - destruct (resp c =? 2); [destruct (n * 2 >=? 0) eqn:E|destruct (n >=? 0) eqn:E]; (done || lia).
  - destruct (n >=? 0) eqn:E; [|lia]. by destruct (resp c =? 2).
Qed.

(** Elements added behind a placeholder that is then filled. *)
Lemma deferred_spec c k n K enc (f : client -> option client) :
  let hdr := encode_reply (resp c) (agg_len (resp c) k n) in
  reply_ok (resp c) (agg_len (resp c) k n) = true -> has c CLIENT_CLOSE_AFTER_REPLY = false -> 0 <= K ->
  out_wf c -> fits c (slack + K + cost hdr) ->
  (forall c1, out_wf c1 -> fits c1 K -> evolve c c1 -> appends K c1 (f c1) enc) ->
  appends (slack + K + cost hdr) c (let '(c1, node) := addReplyDeferredLen c in c2 ← f c1; set_deferred k c2 node n) (hdr ++ enc).
Proof.
  intros hdr Hok Hc HK W Hf H. pose proof slack_nonneg as Hsl. pose proof (cost_pos hdr) as Hch. unfold addReplyDeferredLen.
  destruct (prepare_spec c) as (c1 & E1 & Hs & He & Ha). rewrite E1. pose proof (prepare_accepts c) as Hpa. rewrite E1 in Hpa.
  cbn [fst] in Hpa. rewrite (has_closing_grows c c1), Hc, andb_true_r in Ha by done.
  destruct (same_out_wf _ _ Hs W) as [W1 P1]. pose proof Hs as (_ & _ & _ & Hr1). rewrite <-Ha. unfold fits in *.
  destruct (accepts c) eqn:Eacc; cbn [negb].
  - destruct (trim_spec c1 W1) as (W2 & P2 & A2 & E2 & R2 & Acc2). set (c2 := trimReplyUnusedTailSpace c1) in *.
    destruct (push_placeholder c2 W2) as (W3 & P3 & A3). set (c3 := set_reply c2 _ _) in *.
    assert (evolve c c3) as E3. { eapply evolve_trans; [exact He|]. eapply evolve_trans; [exact E2|]. split; [apply grows_refl|done]. }
    destruct (H c3) as (c4 & t & u & -> & W4 & E4 & A4 & R4 & -> & P4 & X4 & Y4); [done|simpl in *; lia|done|].
    cbn [mbind option_bind]. pose proof E4 as (_ & Er4 & _ & Es4 & _). pose proof E3 as (_ & Er3 & _).
    rewrite set_deferred_header by congruence. replace (encode_reply (resp c4) _) with hdr by (unfold hdr; congruence).
    destruct (deferred_fill c2 c4 t hdr) as (c5 & -> & W5 & E5 & A5 & R5 & P5); try done; [simpl in *; unfold fits; lia|congruence|].
    exists c5, (hdr ++ t), u. split_and!; try done.
    + eapply evolve_trans; [exact E3|]. by eapply evolve_trans.
    + eapply above_trans; [by apply same_out_above|]. by eapply above_trans.
    + simpl in *. lia.
    + by rewrite app_assoc.
    + rewrite P5, P2, P1. done.
    + destruct X4 as [->|X4]; [by left|right]. by apply (accepts_grows c4 c5).
    + congruence.
  - destruct (H c1) as (c4 & t & u & -> & W4 & E4 & A4 & R4 & -> & P4 & X4 & Y4); [done|lia|done|].
    cbn [mbind option_bind]. pose proof E4 as (_ & Er4 & _). pose proof He as (_ & Er3 & _).
    rewrite set_deferred_none by congruence.
    exists c4, [], (hdr ++ t ++ u). rewrite (Y4 Hpa), app_nil_r in *. split_and!; try done.
    + by eapply evolve_trans.
    + eapply above_trans; [by apply same_out_above|done].
    + lia.
    + by rewrite P4, P1.
    + right. by apply (accepts_grows c1 c4).
Qed.

Lemma reply_tree_ind' (P : reply_tree -> Prop) :
  (forall op, P (TReply op)) -> (forall k n l, Forall P l -> P (TDeferred k n l)) -> forall t, P t.
Proof.
  intros H1 H2. fix IH 1. intros [op|k n l]; [apply H1|]. apply H2. induction l; constructor; [apply IH|done].
Qed.

Definition trees_cost (r : Z) (l : list reply_tree) : Z := foldr (fun t m => tree_cost r t + m) 0 l.

Lemma trees_cost_nonneg r l : Forall (fun t => 0 <= tree_cost r t) l -> 0 <= trees_cost r l.
Proof. induction 1 as [|t l Ht Hl IH]; simpl; [done|]. fold (trees_cost r l). lia. Qed.

Lemma tree_cost_nonneg r t : 0 <= tree_cost r t.
Proof.
  induction t as [op|k n l IH] using reply_tree_ind'; simpl.
  - pose proof (piece_cost (encode_reply r op)). pose proof (cost_pos (encode_reply r op)). lia.
  - apply trees_cost_nonneg in IH. fold (trees_cost r l). pose proof slack_nonneg.
    pose proof (cost_pos (encode_reply r (agg_len r k n))). lia.
Qed.

(** A client that receives replies, and the outcome of a reply tree for it. *)
Definition tree_appends (t : reply_tree) : Prop := forall c,
  out_wf c -> has c CLIENT_CLOSE_AFTER_REPLY = false -> tree_ok (resp c) t = true -> fits c (tree_cost (resp c) t) ->
  appends (tree_cost (resp c) t) c (run_tree c t) (encode_tree (resp c) t).

Lemma trees_spec l c :
  Forall tree_appends l -> out_wf c -> has c CLIENT_CLOSE_AFTER_REPLY = false -> forallb (tree_ok (resp c)) l = true ->
  fits c (trees_cost (resp c) l) ->
  appends (trees_cost (resp c) l) c (bind_trees run_tree c l) (mjoin (encode_tree (resp c) <$> l)).
Proof.
  intros Hl. revert c. induction Hl as [|t l Ht Hl IH]; intros c W Hc Hok Hf; [by apply appends_done|].
  simpl in Hok. apply andb_true_iff in Hok as [Hok1 Hok2].
  change (trees_cost (resp c) (t :: l)) with (tree_cost (resp c) t + trees_cost (resp c) l) in *.
  assert (0 <= trees_cost (resp c) l) by (apply trees_cost_nonneg, Forall_forall; intros; apply tree_cost_nonneg).
  cbn [fmap list_fmap mjoin list_join bind_trees]. apply appends_bind; [|done|done|].
  - apply Ht; try done. eapply fits_less; [|done]. lia.
  - intros c' W' F' He. pose proof He as (_ & E & _). rewrite <-E in *. apply IH; try done.
    by rewrite (has_closing_grows c c').
Qed.

Lemma run_tree_spec t : tree_appends t.
Proof.
  induction t as [op|k n l IH] using reply_tree_ind'; intros c W Hc Hok Hf; simpl in *.
  - by apply run_reply_spec.
  - apply andb_true_iff in Hok as [Hok1 Hok2]. fold (trees_cost (resp c) l) in *.
    assert (0 <= trees_cost (resp c) l) by (apply trees_cost_nonneg, Forall_forall; intros; apply tree_cost_nonneg).
    apply deferred_spec; try done. intros c1 W1 F1 He. pose proof He as (_ & E & _). rewrite <-E in *.
    apply trees_spec; try done. by rewrite (has_closing_grows c c1).
Qed.

(** C8: A reply of any shape, single replies and aggregates whose length is
    set after their elements, nested in any way, is queued as its protocol:
    what the client has still to receive is what it had to, followed by the
    protocol of the reply, however the pieces spread over the static buffer
    and the blocks; the counters stay true.  When the output limits close the
    client on the way it gets CLIENT_CLOSE_ASAP, and a prefix was queued; a
    client that takes no replies has nothing queued. *)
Theorem replies_encode_protocol c t :
  out_wf c -> has c CLIENT_CLOSE_AFTER_REPLY = false -> tree_ok (resp c) t = true -> fits c (tree_cost (resp c) t) ->
  exists c' sent rest, run_tree c t = Some c' /\ out_wf c' /\ pending c' = pending c ++ sent /\
    (if accepts c then encode_tree (resp c) t = sent ++ rest /\ (rest = [] \/ has c' CLIENT_CLOSE_ASAP = true) else sent = []).
Proof.
  intros W Hc Hok Hf. destruct (run_tree_spec t c W Hc Hok Hf) as (c' & sent & rest & E & W' & He & _ & _ & Es & Hp & H1 & H2).
  exists c', sent, rest. split; [done|]. split; [done|]. split; [done|]. destruct (accepts c) eqn:Ha; [|by apply H2].
  split; [done|]. destruct H1 as [H1|H1]; [by left|]. apply (accepts_grows c c') in Ha; [|done]. destruct Ha; [congruence|by right].
Qed.

(** ** Writing *)

Lemma drop_written {A} (l r : list A) (n w : nat) :
  (n + w <= length l)%nat -> drop n (l ++ r) = take w (drop n l) ++ drop (n + w) l ++ r.
Proof.
  intros H. rewrite drop_app_le by lia. rewrite <-(take_drop w (drop n l)) at 1. by rewrite drop_drop, <-app_assoc.
Qed.

(** [w] bytes of the static buffer are written. *)
Lemma write_static c w :
  let chunk := drop (Z.to_nat (sentlen c)) (obuf c) in
  let c1 := set_sentlen c (sentlen c + w) in
  let c2 := if s32 (sentlen c1) =? zlen (obuf c1) then set_sentlen (set_obuf c1 []) 0 else c1 in
  out_wf c -> 0 < zlen (obuf c) -> 0 < w <= zlen chunk ->
  out_wf c2 /\ pending c = take (Z.to_nat w) chunk ++ pending c2 /\ reply c2 = reply c /\ cflags c2 = cflags c.
Proof.
  intros chunk c1 c2 W Ho Hw. subst chunk. rewrite zlen_drop_max in Hw.
  pose proof (ow_sent _ W) as Hs. pose proof (ow_obuf _ W) as Hb. unfold first_len in Hs.
  destruct (Z.eqb_spec (zlen (obuf c)) 0) as [|_]; [lia|]. subst c2. cbn [sentlen set_sentlen obuf c1].
  rewrite (sint_small 32) by (unfold PROTO_REPLY_CHUNK_BYTES in Hb; lia).
  assert (pending c = take (Z.to_nat w) (drop (Z.to_nat (sentlen c)) (obuf c)) ++
    drop (Z.to_nat (sentlen c) + Z.to_nat w) (obuf c) ++ blocks (reply c)) as Hp.
  { unfold pending, queued. apply drop_written. unfold zlen in *. lia. }
  destruct (Z.eqb_spec (sentlen c + w) (zlen (obuf c))) as [E|E].
  - split; [|split; [|done]].
    + split; [apply W|apply W|by left|done].
    + rewrite Hp. rewrite (drop_ge (obuf c) (_ + _)) by (unfold zlen in *; lia). done.
  - split; [|split; [|done]].
    + split; simpl; [apply W|apply W| |done]. right. unfold first_len. simpl.
      destruct (Z.eqb_spec (zlen (obuf c)) 0); lia.
    + rewrite Hp. f_equal. unfold pending, queued. simpl. replace (Z.to_nat (sentlen c + w)) with (Z.to_nat (sentlen c) + Z.to_nat w)%nat by lia.
      rewrite drop_app_le; [done|]. unfold zlen in *. lia.
Qed.

(** The first block is dropped: everything of it is sent. *)
Lemma drop_block c o l :
  out_wf c -> obuf c = [] -> reply c = Some o :: l ->
  let c2 := set_sentlen (set_reply c (drop 1 (reply c)) (reply_bytes c - size o)) 0 in
  out_wf c2 /\ pending c2 = blocks l /\ reply c2 = l /\ (l = [] -> reply_bytes c2 = 0).
Proof.
  intros W Ho Hr. cbv zeta. rewrite Hr. pose proof (ow_bytes _ W) as Hb.
  rewrite Hr in Hb. change (sizes (Some o :: l)) with (size o + sizes l) in Hb.
  pose proof (ow_blocks _ W) as Hk. rewrite Hr in Hk. apply Forall_cons in Hk as [_ Hk]. split; [|split; [|split]].
  - split; cbn [reply reply_bytes sentlen obuf set_reply set_sentlen]; [|done|by left|apply W].
    change (drop 1 (Some o :: l)) with l. lia.
  - unfold pending, queued. simpl. by rewrite Ho.
  - done.
  - intros ->. simpl. change (sizes []) with 0 in Hb. lia.
Qed.

(** [w] bytes of the first block are written. *)
Lemma write_block c o l w :
  let chunk := drop (Z.to_nat (sentlen c)) (data o) in
  let c1 := set_sentlen c (sentlen c + w) in
  out_wf c -> obuf c = [] -> reply c = Some o :: l -> 0 < w <= zlen chunk ->
  if sentlen c1 =? used o then w = zlen chunk /\ pending c = chunk ++ blocks l
  else out_wf c1 /\ pending c = take (Z.to_nat w) chunk ++ pending c1.
Proof.
  intros chunk c1 W Ho Hr Hw. subst chunk. rewrite zlen_drop_max in *. pose proof (ow_sent _ W) as Hs.
  unfold first_len in Hs. rewrite Ho, Hr in Hs. simpl in Hs. unfold used in *. subst c1. cbn [sentlen set_sentlen].
  assert (pending c = take (Z.to_nat w) (drop (Z.to_nat (sentlen c)) (data o)) ++
    drop (Z.to_nat (sentlen c) + Z.to_nat w) (data o) ++ blocks l) as Hp.
  { unfold pending, queued. rewrite Ho, Hr. simpl. change (blocks (Some o :: l)) with (data o ++ blocks l).
    apply drop_written. unfold zlen in *. lia. }
  destruct (Z.eqb_spec (sentlen c + w) (zlen (data o))) as [E|E].
  - split; [lia|]. rewrite Hp. rewrite (drop_ge (data o) (_ + _)) by (unfold zlen in *; lia).
    rewrite take_ge by (rewrite length_drop; unfold zlen in *; lia). done.
  - split.
    + split; simpl; [apply W|apply W| |apply W]. right. unfold first_len. simpl. rewrite Ho, Hr. simpl. unfold used. lia.
    + rewrite Hp. f_equal. unfold pending, queued. simpl. rewrite Ho, Hr. simpl. change (blocks (Some o :: l)) with (data o ++ blocks l).
      replace (Z.to_nat (sentlen c + w)) with (Z.to_nat (sentlen c) + Z.to_nat w)%nat by lia.
      rewrite drop_app_le; [done|]. unfold zlen in *. lia.
Qed.

Definition no_placeholder (c : client) : Prop := Forall is_Some (reply c).

(** The outcome of the loop: what was written is what was pending, up to what
    still is; when the socket takes something at each of enough calls,
    everything is written unless the limit of one event was passed. *)
Definition written (kg : bool) (ws : list Z) (c : client) (sent : bytes) (r : option (client * bytes * Z)) : Prop :=
  exists c' out n, r = Some (c', sent ++ out, n) /\ out_wf c' /\ no_placeholder c' /\ pending c = out ++ pending c' /\
    cflags c' = cflags c /\
    (Forall (fun w => 0 < w) ws -> zlen (pending c) < zlen ws ->
     0 <= n /\ (clientHasPendingReplies c' = false \/ kg = false /\ NET_MAX_WRITES_PER_EVENT < zlen (sent ++ out))).

Lemma written_stay kg ws c sent n :
  out_wf c -> no_placeholder c ->
  (Forall (fun w => 0 < w) ws -> zlen (pending c) < zlen ws -> clientHasPendingReplies c = false /\ 0 <= n) ->
  written kg ws c sent (Some (c, sent, n)).
Proof.
  intros W Hp H. exists c, [], n. rewrite app_nil_r. split_and!; try done. intros H1 H2. destruct (H H1 H2). auto.
Qed.

Lemma written_next kg ws c c1 p sent w r :
  out_wf c1 -> no_placeholder c1 -> pending c = p ++ pending c1 -> p <> [] -> cflags c1 = cflags c -> 0 < w ->
  written kg (drop 1 ws) c1 (sent ++ p) r ->
  written kg ws c sent
    (match (if (zlen (sent ++ p) >? NET_MAX_WRITES_PER_EVENT) && negb kg then Some (c1, sent ++ p, w) else None) with
     | Some r => Some r | None => r end).
Proof.
  intros W1 N1 Hp Hne Hfl Hw (c' & out & n & -> & W' & N' & Hp' & Hf' & Hdone).
  assert (0 < zlen p) as Hpos. { destruct p; [done|]. rewrite zlen_cons. pose proof (zlen_nonneg p). lia. }
  destruct ((zlen (sent ++ p) >? NET_MAX_WRITES_PER_EVENT) && negb kg) eqn:E.
  - exists c1, p, w. split_and!; try done. intros _ _. split; [lia|]. right.
    apply andb_true_iff in E as [E ->%negb_true_iff]. split; [done|lia].
  - exists c', (p ++ out), n. rewrite !app_assoc. split_and!; try done; [by rewrite Hp, Hp', app_assoc|congruence|].
    intros Hws Hlen. rewrite Hp, zlen_app in Hlen. apply Hdone; [by apply Forall_drop|rewrite zlen_drop_max; lia].
Qed.

Lemma connWrite_range w n : 0 <= n -> 0 < connWrite w n -> 0 < connWrite w n <= n /\ 0 < w.
Proof. unfold connWrite. destruct (Z.leb_spec w 0); lia. Qed.

Lemma connWrite_stop ws n (k : Z) :
  connWrite (default 0 (head ws)) n <= 0 -> 0 < n -> 0 <= k -> Forall (fun w => 0 < w) ws -> k < zlen ws -> False.
Proof.
  intros H Hn Hk Hws Hl. destruct ws as [|w ws]; [rewrite zlen_nil in Hl; lia|]. apply Forall_cons in Hws as [Hw _].
  simpl in H. unfold connWrite in H. destruct (Z.leb_spec w 0); lia.
Qed.

Lemma connWrite_nonempty ws n : 0 <= n -> 0 < connWrite (default 0 (head ws)) n -> (length (drop 1 ws) < length ws)%nat.
Proof. destruct ws as [|w ws]; simpl; [done|]. intros. rewrite drop_0. lia. Qed.

Lemma no_pending c : clientHasPendingReplies c = false -> obuf c = [] /\ reply c = [].
Proof.
  unfold clientHasPendingReplies. intros H. apply orb_false_iff in H as [H1 H2]. split; apply zlen_0_inv; lia.
Qed.

Lemma written_same kg ws c c1 sent r :
  pending c = pending c1 -> cflags c = cflags c1 -> written kg ws c1 sent r -> written kg ws c sent r.
Proof. unfold written. intros -> -> H. exact H. Qed.

(** One turn of the loop on the first block, when the rest of the loop does its
    part. *)
Lemma written_block kg ws c o l sent n (rec : list Z -> client -> bytes -> Z -> option (client * bytes * Z)) :
  out_wf c -> no_placeholder c -> obuf c = [] -> reply c = Some o :: l ->
  0 <= n -> (forall ws' c' sent' n', out_wf c' -> no_placeholder c' -> 0 <= n' ->
     (length ws' + length (reply c') < length ws + S (length l))%nat -> written kg ws' c' sent' (rec ws' c' sent' n')) ->
  written kg ws c sent (o ← mjoin (head (reply c));
        if used o =? 0 then rec ws (set_reply c (drop 1 (reply c)) (reply_bytes c - size o)) sent n
        else
          let chunk := drop (Z.to_nat (sentlen c)) (data o) in
          let w := connWrite (default 0 (head ws)) (zlen chunk) in
          if w <=? 0 then Some (c, sent, w)
          else
            let sent := sent ++ take (Z.to_nat w) chunk in
            let c := set_sentlen c (sentlen c + w) in
            c ← (if sentlen c =? used o then
                   let c := set_sentlen (set_reply c (drop 1 (reply c)) (reply_bytes c - size o)) 0 in
                   if (zlen (reply c) =? 0) && negb (reply_bytes c =? 0) then None else Some c
                 else Some c);
            match (if (zlen sent >? NET_MAX_WRITES_PER_EVENT) && negb kg then Some (c, sent, w) else None) with
            | Some r => Some r | None => rec (drop 1 ws) c sent w end).
Proof.
  intros W N Ho Er Hn IH. rewrite Er. cbn [head mjoin option_join mbind option_bind]. rewrite <-Er.
  destruct (drop_block c o l W Ho Er) as (Wd & Pd & Rd & Bd).
  set (d := set_sentlen (set_reply c (drop 1 (reply c)) (reply_bytes c - size o)) 0) in *.
  assert (no_placeholder d) as Nd.
  { unfold no_placeholder in *. rewrite Rd. rewrite Er in N. by apply Forall_cons in N as [_ N]. }
  pose proof (ow_sent _ W) as Hs. unfold first_len in Hs. rewrite Ho, Er in Hs. simpl in Hs.
  destruct (Z.eqb_spec (used o) 0) as [Hu|Hu].
  { assert (sentlen c = 0) as Hs0 by lia.
    replace (set_reply c (drop 1 (reply c)) (reply_bytes c - size o)) with d by (unfold d, set_sentlen; by rewrite <-Hs0).
    apply (written_same _ _ _ d); [|done|apply IH; [done|done|done|rewrite Rd; lia]].
    rewrite Pd. unfold pending, queued. rewrite Ho, Er. change (blocks (Some o :: l)) with (data o ++ blocks l).
    apply zlen_0_inv in Hu. by rewrite Hu, Hs0. }
  cbv zeta. set (chunk := drop _ (data o)). set (w := connWrite _ _).
  assert (0 < zlen chunk) as Hch. { unfold chunk. rewrite zlen_drop_max. unfold used in *. pose proof (zlen_nonneg (data o)). lia. }
  destruct (Z.leb_spec w 0) as [Hw|Hw].
  { apply written_stay; [done|done|]. intros H1 H2. exfalso. exact (connWrite_stop ws (zlen chunk) _ Hw Hch (zlen_nonneg (pending c)) H1 H2). }
  destruct (connWrite_range _ _ (zlen_nonneg chunk) Hw) as [Hr _]. pose proof (connWrite_nonempty _ _ (zlen_nonneg chunk) Hw) as Hd.
  assert (take (Z.to_nat w) chunk <> []) as Hne.
  { intros E. apply (f_equal zlen) in E. rewrite zlen_take_min, zlen_nil in E. lia. }
  pose proof (write_block c o l w W Ho Er Hr) as Hb. cbv zeta in Hb. fold chunk in Hb.
  destruct (sentlen (set_sentlen c (sentlen c + w)) =? used o).
  - destruct Hb as [Hw' Hp]. change (set_sentlen (set_reply (set_sentlen c (sentlen c + w)) _ _) 0) with d.
    replace ((zlen (reply d) =? 0) && negb (reply_bytes d =? 0)) with false.
    2: { symmetry. rewrite Rd. destruct l; [rewrite Bd by done; done|]. rewrite zlen_cons. pose proof (zlen_nonneg l). lia. }
    cbn [mbind option_bind]. apply written_next; [done|done| |done|done|done|].
    + rewrite Pd, take_ge by (unfold zlen in *; lia). done.
    + apply IH; [done|done|lia|]. rewrite Rd. lia.
  - destruct Hb as [W1 P1]. cbn [mbind option_bind]. apply written_next; [done..|].
    apply IH; [done|done|lia|]. simpl. rewrite Er. simpl. lia.
Qed.

Lemma write_loop_spec fuel kg ws c sent n :
  out_wf c -> no_placeholder c -> 0 <= n -> (length ws + length (reply c) < fuel)%nat ->
  written kg ws c sent (write_loop fuel kg ws c sent n).
Proof.
  revert ws c sent n. induction fuel as [|fuel IH]; intros ws c sent n W N Hn Hfu; [lia|]. cbn [write_loop].
  destruct (clientHasPendingReplies c) eqn:Ep; cbn [negb]; [|by apply written_stay].
  destruct (zlen (obuf c) >? 0) eqn:Eo.
  - set (chunk := drop _ (obuf c)). set (w := connWrite _ _).
    assert (0 < zlen chunk) as Hch.
    { unfold chunk. rewrite zlen_drop_max. pose proof (ow_sent _ W) as Hs. unfold first_len in Hs.
      destruct (Z.eqb_spec (zlen (obuf c)) 0); lia. }
    destruct (Z.leb_spec w 0) as [Hw|Hw].
    { apply written_stay; [done|done|]. intros H1 H2. exfalso. eapply (connWrite_stop ws (zlen chunk)); [exact Hw|done| |done|exact H2].
      apply zlen_nonneg. }
    destruct (connWrite_range _ _ (zlen_nonneg chunk) Hw) as [Hr _]. pose proof (connWrite_nonempty _ _ (zlen_nonneg chunk) Hw) as Hd.
    destruct (write_static c w W) as (W2 & P2 & R2 & F2); [lia|exact Hr|].
    apply written_next; [done|by unfold no_placeholder; rewrite R2|done| |done|done|].
    + intros E. apply (f_equal zlen) in E. rewrite zlen_take_min, zlen_nil in E. lia.
    + apply IH; [done|by unfold no_placeholder; rewrite R2|lia|]. rewrite R2. lia.
  - assert (obuf c = []) as Ho. { apply zlen_0_inv. pose proof (zlen_nonneg (obuf c)). lia. }
    destruct (reply c) as [|[o|] l] eqn:Er.
    { unfold clientHasPendingReplies in Ep. rewrite Ho, Er in Ep. done. }
    2: { unfold no_placeholder in N. rewrite Er in N. apply Forall_cons in N as [[x Hx] _]. done. }
    rewrite <-Er. apply written_block with (o := o) (l := l); [done|done|done|done|done|]. intros ws' c1 s1 m W1 N1 Hm H1.
    apply IH; [done|done|done|]. simpl in Hfu. lia.
Qed.

Lemma freeClientAsync_out c : same_out c (freeClientAsync c).
Proof. unfold freeClientAsync. by destruct (_ || _). Qed.

(** C14: writeToClient writes what is pending, in order: whatever sizes the
    socket takes at the successive calls, and whatever the error, what was
    written followed by what is still pending is what was pending, the counters
    stay true and no assertion fails.  When the socket takes something at each
    of enough calls, either nothing stays pending, and the client is kept unless
    it is to be closed after its reply, or more than NET_MAX_WRITES_PER_EVENT
    bytes were written, which stops the loop unless the client is a replica or
    the memory limit is exceeded. *)
Theorem writeToClient_sends_pending over_memory connected ws c :
  out_wf c -> no_placeholder c ->
  exists c' out ok, writeToClient over_memory connected ws c = Some (c', out, ok) /\
    out_wf c' /\ pending c = out ++ pending c' /\
    (Forall (fun w => 0 < w) ws -> zlen (pending c) < zlen ws ->
     pending c' = [] /\ ok = negb (has c CLIENT_CLOSE_AFTER_REPLY) \/
     over_memory || has c CLIENT_SLAVE = false /\ NET_MAX_WRITES_PER_EVENT < zlen out /\ ok = true).
Proof.
  intros W N. unfold writeToClient.
  destruct (write_loop_spec (S (length ws + length (reply c) + 1)) (over_memory || has c CLIENT_SLAVE) ws c [] 0 W N)
    as (c1 & out & n & -> & W1 & N1 & P1 & F1 & D1); [done|lia|]. cbn [mbind option_bind app] in *.
  assert (has c1 CLIENT_CLOSE_AFTER_REPLY = has c CLIENT_CLOSE_AFTER_REPLY) as Hcl by (unfold has; by rewrite F1).
  destruct ((n =? -1) && negb connected) eqn:En.
  { destruct (same_out_wf _ _ (freeClientAsync_out c1) W1) as [W2 P2]. eexists _, _, _. split; [done|]. rewrite P2.
    split; [done|]. split; [done|]. intros H1 H2. destruct (D1 H1 H2). lia. }
  destruct (clientHasPendingReplies c1) eqn:Ep; cbn [negb].
  { eexists _, _, _. split; [done|]. split; [done|]. split; [done|]. intros H1 H2. destruct (D1 H1 H2) as [_ [?|[? ?]]]; [done|].
    by right. }
  destruct (no_pending c1 Ep) as [Eo Er].
  assert (pending c1 = [] /\ pending (set_sentlen c1 0) = []) as [Hp1 Hp2].
  { unfold pending, queued. simpl. rewrite Eo, Er. unfold blocks. simpl. by rewrite drop_nil. }
  assert (out_wf (set_sentlen c1 0)) as W2 by (split; [apply W1|apply W1|by left|apply W1]).
  assert (has (set_sentlen c1 0) CLIENT_CLOSE_AFTER_REPLY = has c CLIENT_CLOSE_AFTER_REPLY) as -> by exact Hcl.
  destruct (has c CLIENT_CLOSE_AFTER_REPLY); eexists _, _, _; (split; [done|]).
  - destruct (same_out_wf _ _ (freeClientAsync_out (set_sentlen c1 0)) W2) as [W3 ->]. rewrite Hp2, <-Hp1. split_and!; auto.
  - rewrite Hp2, <-Hp1. split_and!; auto.
Qed.

(** The output of [src], all of it unsent, moves behind that of [dst]. *)
Lemma AddReplyFromClient_moves dst src :
  out_wf dst -> out_wf src -> sentlen src = 0 -> accepts dst = true -> has src CLIENT_CLOSE_ASAP = false ->
  fits dst (cost (obuf src) + reply_bytes src) ->
  exists dst' src', AddReplyFromClient dst src = Some (dst', src') /\ out_wf dst' /\
    (has dst' CLIENT_CLOSE_ASAP = true \/ pending dst' = pending dst ++ pending src /\ queued src' = []).
Proof.
  intros W Ws Hs Ha Hc Hf. unfold AddReplyFromClient. rewrite Hc.
  pose proof (sizes_nonneg _ (ow_blocks _ Ws)) as Hnn. rewrite <-(ow_bytes _ Ws) in Hnn. unfold fits in Hf.
  destruct (addReplyProto_spec dst (obuf src) W) as (d1 & t & u & -> & W1 & E1 & A1 & R1 & Et & P1 & X1 & Y1); [unfold fits; lia|].
  cbn [mbind option_bind]. destruct (prepare_spec d1) as (d2 & E2 & S2 & Ev2 & Ha2).
  pose proof (prepare_accepts d1) as Hpa. destruct (prepareClientToWrite d1) as [x ok]. cbn [fst snd] in *. injection E2 as ->.
  destruct (same_out_wf _ _ S2 W1) as [W2 P2]. pose proof S2 as (_ & _ & _ & R2).
  destruct (proj2 (accepts_grows dst d1 E1) Ha) as [Ha1|Hasap].
  2: { assert (has d2 CLIENT_CLOSE_ASAP = true) as H2 by (eapply has_asap_grows; [apply Ev2|done]).
       destruct (negb ok); [exists d2, src; split; [reflexivity|]; split; [exact W2|left; exact H2]|]. destruct (has d2 CLIENT_CLOSE_AFTER_REPLY); [exists d2, src; by auto|].
       unfold closeClientOnOutputBufferLimitReached. cbn [conn reply_bytes set_reply].
       assert (out_wf (set_reply d2 (reply d2 ++ reply src) (reply_bytes d2 + reply_bytes src))) as W3.
       { apply list_wf; [done|apply Forall_app; split; [apply W2|apply Ws]| |intros b r ->; simpl; eexists _, _; (split; [done|lia])].
         by rewrite sizes_app, (ow_bytes _ W2), (ow_bytes _ Ws). }
       change (has (set_reply d2 _ _) CLIENT_CLOSE_ASAP) with (has d2 CLIENT_CLOSE_ASAP). rewrite H2, orb_true_r.
       rewrite (proj2 (Z.ltb_lt (reply_bytes d2 + reply_bytes src) _)) by lia. cbn [negb].
       destruct (negb (conn d2)); cbn [mbind option_bind]; eexists _, _; (split; [done|]); (split; [done|by left]). }
  rewrite Ha1 in Ha2. symmetry in Ha2. apply andb_true_iff in Ha2 as [-> Hcl]. apply negb_true_iff in Hcl. rewrite Hcl. cbn [negb].
  destruct X1 as [->|X1]; [|congruence]. rewrite app_nil_r in Et. subst t.
  destruct (list_step d2 (reply d2 ++ reply src) (reply_bytes d2 + reply_bytes src) (blocks (reply src)) W2) as [W3 P3].
  { apply Forall_app. split; [apply W2|apply Ws]. }
  { by rewrite sizes_app, (ow_bytes _ W2), (ow_bytes _ Ws). }
  { by rewrite blocks_app. }
  { intros b r ->. simpl. eexists _, _. split; [done|lia]. }
  destruct (close_limit_spec (set_reply d2 (reply d2 ++ reply src) (reply_bytes d2 + reply_bytes src))) as (d3 & -> & S3 & Ev3); [simpl; lia|].
  cbn [mbind option_bind]. destruct (same_out_wf _ _ S3 W3) as [W4 P4]. eexists _, _. split; [done|]. split; [done|]. right.
  split; [|done]. rewrite P4, P3, P2, P1, <-app_assoc. f_equal. unfold pending. by rewrite Hs.
Qed.

End reply.

(** ** Witnesses *)

Definition no_limits (class : Z) : clientBufferLimitsConfig := mk_limits 0 0 0.
Definition exact_size (n : Z) : Z := n.

Lemma exact_range n : n <= exact_size n <= n + 0.
Proof. unfold exact_size. lia. Qed.

Definition new_client : client := mk_client 0 2 true 0 false [] 0 [] 0 0.

Lemma new_client_wf : out_wf new_client.
Proof. split; [done|constructor|by left|done]. Qed.

Definition sample_tree : reply_tree :=
  TDeferred AArray 3
    [TReply (RBulkCBuffer (str "hi")); TDeferred AMap 1 [TReply (RLongLong 7); TReply RNull]; TReply (RError (str "no"))].

Lemma replies_encode_protocol_witness :
  exists c' sent rest, run_tree exact_size no_limits 0 new_client sample_tree = Some c' /\ out_wf c' /\
    pending c' = pending new_client ++ sent /\
    (if accepts new_client then encode_tree (resp new_client) sample_tree = sent ++ rest /\
      (rest = [] \/ has c' CLIENT_CLOSE_ASAP = true) else sent = []).
Proof.
  apply (replies_encode_protocol exact_size no_limits 0 0 exact_range new_client sample_tree);
    [exact new_client_wf|vm_compute; reflexivity|vm_compute; reflexivity|vm_compute; reflexivity].
Defined.

Definition busy_client : client :=
  mk_client 0 2 true 0 false (str "+OK") 1 [Some (mk_block 8 (crlf ++ str ":1")); Some (mk_block 16 crlf)] 24 0.

Lemma writeToClient_sends_pending_witness :
  exists c' out ok, writeToClient false true (replicate 9 1) busy_client = Some (c', out, ok) /\
    pending busy_client = out ++ pending c' /\ pending c' = [] /\ ok = true.
Proof.
  destruct (writeToClient_sends_pending false true (replicate 9 1) busy_client) as (c' & out & ok & E & _ & Hp & Hd).
  - split; [reflexivity|repeat constructor; done|right; vm_compute; split; reflexivity|done].
  - repeat constructor; eauto.
  - exists c', out, ok. split; [exact E|]. split; [exact Hp|].
    destruct Hd as [Hd|(_ & Hlen & _)]; [repeat constructor|vm_compute; reflexivity|exact Hd|].
    apply (f_equal zlen) in Hp. rewrite zlen_app in Hp. pose proof (zlen_nonneg (pending c')).
    assert (zlen (pending busy_client) = 8) as H8 by (vm_compute; reflexivity). unfold NET_MAX_WRITES_PER_EVENT in Hlen. lia.
Defined.

(** A string with a zero byte: the length that is announced counts the bytes
    [%s] does not print. *)
Theorem setDeferredReplyBulkSds_cuts_at_nul :
  let '(c, node) := addReplyDeferredLen exact_size new_client in
  exists c', setDeferredReplyBulkSds exact_size no_limits 0 c node [97; 0; 98] = Some c' /\
    pending c' = header 36 3 ++ [97] ++ crlf /\ pending c' <> bulk_string [97; 0; 98].
Proof. vm_compute. eexists. split; [reflexivity|]. split; [reflexivity|discriminate]. Qed.
