(* ===== verification/Resp.v ===== *)
(** * networking.c: the input of a client

    The query buffer is parsed incrementally: a request is either inline (one
    line, split by sdssplitargs) or a multibulk request, whose state between
    two reads is the type of the request, the number of arguments still
    expected, the length of the current one and the arguments read so far.

    [in_client] has the fields of the client the input functions use; the
    replies the parser queues are operations of the reply component.  The
    execution of a command is a parameter: it gets the flags and the arguments
    and tells the command, the flags after it, whether processCommand returned
    C_OK and whether the client was freed; [executed] records the commands.

    The theorems: however a stream of requests is cut into reads, exactly its
    commands are executed, in order; for a master, the bytes handed to the
    sub-replicas are exactly those of the commands applied; whatever the
    input, no assertion fails, and a client that is stopped, as after a malformed
    request, executes nothing more. *)

From S2P Require Import Prelude Util Sds Reply.

Definition CLIENT_MULTI : Z := Z.shiftl 1 3.
Definition CLIENT_BLOCKED : Z := Z.shiftl 1 4.
Definition CLIENT_ASKING : Z := Z.shiftl 1 9.
Definition CLIENT_REPLY_SKIP_NEXT : Z := Z.shiftl 1 23.
Definition CLIENT_PENDING_COMMAND : Z := Z.shiftl 1 30.
Definition CLIENT_TRACKING_CACHING : Z := Z.shiftl 1 36.
Definition CLIENT_PROTOCOL_ERROR : Z := Z.shiftl 1 39.

Definition PROTO_IOBUF_LEN : Z := 1024 * 16.
Definition PROTO_INLINE_MAX_SIZE : Z := 1024 * 64.
Definition PROTO_MBULK_BIG_ARG : Z := 1024 * 32.
Definition PROTO_REQ_INLINE : Z := 1.
Definition PROTO_REQ_MULTIBULK : Z := 2.

(** c->cmd->proc, as far as resetClient looks at it. *)
Inductive command_proc := askingCommand | clientCommand | otherCommand.
#[export] Instance command_proc_eq : EqDecision command_proc.
Proof. solve_decision. Defined.

Record in_client := mk_in {
  flags : Z; querybuf : bytes; qb_pos : Z; reqtype : Z; multibulklen : Z; bulklen : Z;
  argv : list bytes; argv_len_sum : Z; cmd : option command_proc;
  reploff : Z; read_reploff : Z; pending_querybuf : bytes; repl_ack_time : Z; querybuf_peak : Z;
  replies : list reply_op; executed : list (list bytes); fed : bytes;
}.

Definition in_flags (c : in_client) (f : Z) : in_client :=
  mk_in f (querybuf c) (qb_pos c) (reqtype c) (multibulklen c) (bulklen c) (argv c) (argv_len_sum c) (cmd c) (reploff c)
    (read_reploff c) (pending_querybuf c) (repl_ack_time c) (querybuf_peak c) (replies c) (executed c) (fed c).
Definition in_buf (c : in_client) (b : bytes) (pos : Z) : in_client :=
  mk_in (flags c) b pos (reqtype c) (multibulklen c) (bulklen c) (argv c) (argv_len_sum c) (cmd c) (reploff c)
    (read_reploff c) (pending_querybuf c) (repl_ack_time c) (querybuf_peak c) (replies c) (executed c) (fed c).
Definition in_req (c : in_client) (r m b : Z) : in_client :=
  mk_in (flags c) (querybuf c) (qb_pos c) r m b (argv c) (argv_len_sum c) (cmd c) (reploff c)
    (read_reploff c) (pending_querybuf c) (repl_ack_time c) (querybuf_peak c) (replies c) (executed c) (fed c).
Definition in_argv (c : in_client) (a : list bytes) (n : Z) (p : option command_proc) : in_client :=
  mk_in (flags c) (querybuf c) (qb_pos c) (reqtype c) (multibulklen c) (bulklen c) a n p (reploff c)
    (read_reploff c) (pending_querybuf c) (repl_ack_time c) (querybuf_peak c) (replies c) (executed c) (fed c).
Definition in_repl (c : in_client) (off roff : Z) (p f : bytes) : in_client :=
  mk_in (flags c) (querybuf c) (qb_pos c) (reqtype c) (multibulklen c) (bulklen c) (argv c) (argv_len_sum c) (cmd c) off
    roff p (repl_ack_time c) (querybuf_peak c) (replies c) (executed c) f.
Definition in_ack (c : in_client) (t : Z) : in_client :=
  mk_in (flags c) (querybuf c) (qb_pos c) (reqtype c) (multibulklen c) (bulklen c) (argv c) (argv_len_sum c) (cmd c) (reploff c)
    (read_reploff c) (pending_querybuf c) t (querybuf_peak c) (replies c) (executed c) (fed c).
Definition in_peak (c : in_client) (n : Z) : in_client :=
  mk_in (flags c) (querybuf c) (qb_pos c) (reqtype c) (multibulklen c) (bulklen c) (argv c) (argv_len_sum c) (cmd c) (reploff c)
    (read_reploff c) (pending_querybuf c) (repl_ack_time c) n (replies c) (executed c) (fed c).
Definition in_reply (c : in_client) (r : reply_op) : in_client :=
  mk_in (flags c) (querybuf c) (qb_pos c) (reqtype c) (multibulklen c) (bulklen c) (argv c) (argv_len_sum c) (cmd c) (reploff c)
    (read_reploff c) (pending_querybuf c) (repl_ack_time c) (querybuf_peak c) (replies c ++ [r]) (executed c) (fed c).
Definition in_executed (c : in_client) (a : list bytes) : in_client :=
  mk_in (flags c) (querybuf c) (qb_pos c) (reqtype c) (multibulklen c) (bulklen c) (argv c) (argv_len_sum c) (cmd c) (reploff c)
    (read_reploff c) (pending_querybuf c) (repl_ack_time c) (querybuf_peak c) (replies c) (executed c ++ [a]) (fed c).

(** [c->flags & mask], setting and clearing. *)
Definition fhas (f mask : Z) : bool := negb (Z.land f mask =? 0).
Definition fset (f mask : Z) : Z := Z.lor f mask.
Definition fclear (f mask : Z) : Z := Z.ldiff f mask.

(** The part of the buffer that was not parsed. *)
Definition unparsed (c : in_client) : bytes := drop (Z.to_nat (qb_pos c)) (querybuf c).

(** strchr: the position of [ch] before the terminator. *)
Fixpoint strchr (s : bytes) (ch : Z) : option nat :=
  match s with
  | [] => None
  | b :: s => if b =? ch then Some O else if b =? 0 then None else S <$> strchr s ch
  end.

Definition sum_len (l : list bytes) : Z := foldr (fun a n => zlen a + n) 0 l.

Definition setProtocolError (c : in_client) : in_client :=
  in_flags c (fset (flags c) (Z.lor CLIENT_CLOSE_AFTER_REPLY CLIENT_PROTOCOL_ERROR)).

(** addReplyError followed by setProtocolError *)
Definition protocol_error (c : in_client) (msg : bytes) : in_client := setProtocolError (in_reply c (RError msg)).

(** The result of a parser: C_OK or C_ERR; [None] is a failed assertion. *)
Definition freeClientArgv (c : in_client) : in_client := in_argv c [] 0 None.

Definition resetClient (c : in_client) : in_client :=
  let prevcmd := cmd c in
  let c := in_req (freeClientArgv c) 0 0 (-1) in
  let f := flags c in
  let f := if negb (fhas f CLIENT_MULTI) && negb (bool_decide (prevcmd = Some askingCommand)) then fclear f CLIENT_ASKING else f in
  let f := if negb (fhas f CLIENT_MULTI) && negb (bool_decide (prevcmd = Some clientCommand)) then fclear f CLIENT_TRACKING_CACHING else f in
  let f := fclear f CLIENT_REPLY_SKIP in
  let f := if fhas f CLIENT_REPLY_SKIP_NEXT then fclear (fset f CLIENT_REPLY_SKIP) CLIENT_REPLY_SKIP_NEXT else f in
  in_flags c f.

Section resp.
Context (proto_max_bulk_len client_max_querybuf_len unixtime : Z).
Context (gopher_enabled io_threads_reads lua_timedout : bool).
Context (processGopherRequest : in_client -> in_client).
Context (processCommand : Z -> list bytes -> command_proc * Z * bool * bool).

Definition is_slave (f : Z) : bool := negb (fhas f CLIENT_MASTER) && fhas f CLIENT_SLAVE && negb (fhas f CLIENT_MONITOR).

Definition processInlineBuffer (c : in_client) : in_client * bool :=
  let s := unparsed c in
  match strchr s 10 with
  | None =>
    (if zlen s >? PROTO_INLINE_MAX_SIZE then protocol_error c (str "Protocol error: too big inline request") else c, false)
  | Some newline =>
    let cr := (0 <? newline)%nat && bool_decide (s !! (newline - 1)%nat = Some 13) in
    let querylen := if cr then (newline - 1)%nat else newline in
    let linefeed_chars := if cr then 2 else 1 in
    match sdssplitargs (take querylen s) with
    | None => (protocol_error c (str "Protocol error: unbalanced quotes in request"), false)
    | Some args =>
      let c := if (querylen =? 0)%nat && is_slave (flags c) then in_ack c unixtime else c in
      if negb (querylen =? 0)%nat && fhas (flags c) CLIENT_MASTER then (setProtocolError c, false)
      else
        let c := in_buf c (querybuf c) (qb_pos c + Z.of_nat querylen + linefeed_chars) in
        let sum := if (length args =? 0)%nat then argv_len_sum c else 0 in
        (in_argv c args (sum + sum_len args) (cmd c), true)
    end
  end.

(** addReplyErrorFormat(c, "Protocol error: expected '$', got '%c'", ch): line
    ends become spaces; a zero byte would end the formatted string. *)
Definition expected_dollar (ch : Z) : bytes :=
  str "Protocol error: expected '$', got '" ++
  (if ch =? 0 then [] else [if (ch =? 13) || (ch =? 10) then 32 else ch] ++ str "'").

(** The length line at the start of [s], which begins with a type character:
    its value and the position after it. *)
Inductive len_line := LineMissing | LineIncomplete | LineBad | LineOk (ll : Z) (next : nat).

Definition read_line (s : bytes) : len_line :=
  match strchr s 13 with
  | None => LineMissing
  | Some newline =>
    if Z.of_nat newline >? zlen s - 2 then LineIncomplete
    else match string2ll (take (newline - 1) (drop 1 s)) with
         | None => LineBad
         | Some ll => LineOk ll (newline + 2)
         end
  end.

(** Read the length of a bulk argument when it is unknown; [inl]: stop. *)
Definition read_bulklen (c : in_client) : in_client + in_client :=
  if negb (bulklen c =? -1) then inr c
  else
    let s := unparsed c in
    match read_line s with
    | LineMissing =>
      inl (if zlen s >? PROTO_INLINE_MAX_SIZE then protocol_error c (str "Protocol error: too big bulk count string") else c)
    | LineIncomplete => inl c
    | l =>
      let ch := default 0 (head s) in
      if negb (ch =? 36) then inl (protocol_error c (expected_dollar ch))
      else
        match l with
        | LineOk ll next =>
          if (ll <? 0) || (negb (fhas (flags c) CLIENT_MASTER) && (ll >? proto_max_bulk_len))
          then inl (protocol_error c (str "Protocol error: invalid bulk length"))
          else
            let c := in_buf c (querybuf c) (qb_pos c + Z.of_nat next) in
            let c := if (ll >=? PROTO_MBULK_BIG_ARG) && (zlen (unparsed c) <=? u64 (ll + 2)) then in_buf c (unparsed c) 0 else c in
            inr (in_req c (reqtype c) (multibulklen c) ll)
        | _ => inl (protocol_error c (str "Protocol error: invalid bulk length"))
        end
    end.

(** Take the argument of the known length out of the buffer. *)
Definition read_bulk (c : in_client) : in_client :=
  let n := bulklen c in
  let c :=
    if (qb_pos c =? 0) && (n >=? PROTO_MBULK_BIG_ARG) && (zlen (querybuf c) =? u64 (n + 2))
    then in_buf (in_argv c (argv c ++ [take (Z.to_nat (zlen (querybuf c) - 2)) (querybuf c)]) (argv_len_sum c + n) (cmd c)) [] (qb_pos c)
    else in_buf (in_argv c (argv c ++ [take (Z.to_nat n) (unparsed c)]) (argv_len_sum c + n) (cmd c)) (querybuf c) (qb_pos c + n + 2) in
  in_req c (reqtype c) (multibulklen c - 1) (-1).

(** The loop over the arguments; [n] is multibulklen. *)
Fixpoint multibulk_loop (n : nat) (c : in_client) : in_client * bool :=
  match n with
  | O => (c, true)
  | S n =>
    match read_bulklen c with
    | inl c => (c, false)
    | inr c => if zlen (unparsed c) <? u64 (bulklen c + 2) then (c, false) else multibulk_loop n (read_bulk c)
    end
  end.

(** Read the number of arguments; [inl]: done without arguments to read. *)
Definition read_multibulklen (c : in_client) : option (in_client * bool + in_client) :=
  if negb (multibulklen c =? 0) then Some (inr c)
  else if negb (length (argv c) =? 0)%nat then None
  else
    let s := unparsed c in
    match read_line s with
    | LineMissing =>
      Some (inl (if zlen s >? PROTO_INLINE_MAX_SIZE then protocol_error c (str "Protocol error: too big mbulk count string") else c, false))
    | LineIncomplete => Some (inl (c, false))
    | l =>
      if negb (bool_decide (head s = Some 42)) then None
      else
        match l with
        | LineOk ll next =>
          if ll >? 1024 * 1024 then Some (inl (protocol_error c (str "Protocol error: invalid multibulk length"), false))
          else
            let c := in_buf c (querybuf c) (qb_pos c + Z.of_nat next) in
            if ll <=? 0 then Some (inl (c, true))
            else Some (inr (in_argv (in_req c (reqtype c) ll (bulklen c)) (argv c) 0 (cmd c)))
        | _ => Some (inl (protocol_error c (str "Protocol error: invalid multibulk length"), false))
        end
    end.

Definition processMultibulkBuffer (c : in_client) : option (in_client * bool) :=
  r ← read_multibulklen c;
  match r with
  | inl r => Some r
  | inr c => if multibulklen c <=? 0 then None else Some (multibulk_loop (Z.to_nat (multibulklen c)) c)
  end.

(** ** Executing commands *)

Definition commandProcessed (c : in_client) : in_client :=
  let prev_offset := reploff c in
  let c := if fhas (flags c) CLIENT_MASTER && negb (fhas (flags c) CLIENT_MULTI)
           then in_repl c (read_reploff c - zlen (querybuf c) + qb_pos c) (read_reploff c) (pending_querybuf c) (fed c) else c in
  let c := if negb (fhas (flags c) CLIENT_BLOCKED) then resetClient c else c in
  if fhas (flags c) CLIENT_MASTER then
    let applied := reploff c - prev_offset in
    if negb (applied =? 0) then
      in_repl c (reploff c) (read_reploff c) (drop (Z.to_nat applied) (pending_querybuf c))
        (fed c ++ take (Z.to_nat applied) (pending_querybuf c))
    else c
  else c.

(** The client, and whether it is still valid. *)
Definition processCommandAndResetClient (c : in_client) : in_client * bool :=
  let '(p, f, ok, dead) := processCommand (flags c) (argv c) in
  let c := in_flags (in_argv (in_executed c (argv c)) (argv c) (argv_len_sum c) (Some p)) f in
  (if ok then commandProcessed c else c, negb dead).

Definition processPendingCommandsAndResetClient (c : in_client) : in_client * bool :=
  if fhas (flags c) CLIENT_PENDING_COMMAND
  then processCommandAndResetClient (in_flags c (fclear (flags c) CLIENT_PENDING_COMMAND)) else (c, true).

(** What stops the loop before a request is read. *)
Definition input_stopped (c : in_client) : bool :=
  fhas (flags c) CLIENT_BLOCKED || fhas (flags c) CLIENT_PENDING_COMMAND ||
  (lua_timedout && fhas (flags c) CLIENT_MASTER) || fhas (flags c) (Z.lor CLIENT_CLOSE_AFTER_REPLY CLIENT_CLOSE_ASAP).

Definition gopher_request (c : in_client) : bool :=
  gopher_enabled && negb io_threads_reads &&
  (((length (argv c) =? 1)%nat && bool_decide (head (default [] (head (argv c))) = Some 47)) || (length (argv c) =? 0)%nat).

(** The loop: the client, and whether it is still valid. *)
Fixpoint input_loop (fuel : nat) (c : in_client) : option (in_client * bool) :=
  match fuel with
  | O => None
  | S fuel =>
    if negb (qb_pos c <? zlen (querybuf c)) then Some (c, true)
    else if input_stopped c then Some (c, true)
    else
      let c := if reqtype c =? 0
               then in_req c (if bool_decide (head (unparsed c) = Some 42) then PROTO_REQ_MULTIBULK else PROTO_REQ_INLINE)
                      (multibulklen c) (bulklen c)
               else c in
      let next c :=
        if (length (argv c) =? 0)%nat then input_loop fuel (resetClient c)
        else if fhas (flags c) CLIENT_PENDING_READ then Some (in_flags c (fset (flags c) CLIENT_PENDING_COMMAND), true)
        else let '(c, valid) := processCommandAndResetClient c in
             if negb valid then Some (c, false) else input_loop fuel c in
      if reqtype c =? PROTO_REQ_INLINE then
        let '(c, ok) := processInlineBuffer c in
        if negb ok then Some (c, true)
        else if gopher_request c then
          let c := resetClient (processGopherRequest c) in Some (in_flags c (fset (flags c) CLIENT_CLOSE_AFTER_REPLY), true)
        else next c
      else if reqtype c =? PROTO_REQ_MULTIBULK then
        '(c, ok) ← processMultibulkBuffer c;
        if negb ok then Some (c, true) else next c
      else None
  end.

(** Every turn that goes on consumes a byte of the buffer. *)
Definition processInputBuffer (c : in_client) : option (in_client * bool) :=
  '(c, valid) ← input_loop (S (length (querybuf c))) c;
  if negb valid then Some (c, false)
  else Some (if negb (qb_pos c =? 0) then in_buf c (unparsed c) 0 else c, true).

Definition postponeClientRead (io_active : bool) (c : in_client) : in_client * bool :=
  if io_active && io_threads_reads &&
     negb (fhas (flags c) (Z.lor (Z.lor CLIENT_MASTER CLIENT_SLAVE) (Z.lor CLIENT_PENDING_READ CLIENT_BLOCKED)))
  then (in_flags c (fset (flags c) CLIENT_PENDING_READ), true) else (c, false).

Definition in_freeClientAsync (c : in_client) : in_client :=
  if fhas (flags c) CLIENT_CLOSE_ASAP || fhas (flags c) CLIENT_LUA then c else in_flags c (fset (flags c) CLIENT_CLOSE_ASAP).

(** The number of bytes a read may return. *)
Definition readlen (c : in_client) : Z :=
  if (reqtype c =? PROTO_REQ_MULTIBULK) && negb (multibulklen c =? 0) && negb (bulklen c =? -1) && (bulklen c >=? PROTO_MBULK_BIG_ARG) then
    let remaining := bulklen c + 2 - zlen (querybuf c) in
    if (remaining >? 0) && (remaining <? PROTO_IOBUF_LEN) then remaining else PROTO_IOBUF_LEN
  else PROTO_IOBUF_LEN.

(** What connRead gives: bytes, an error with the connection up or down, or
    the end of the stream. *)
Inductive read_result := ReadBytes (b : bytes) | ReadAgain | ReadError | ReadEof.

(** [source n] is the result of reading at most [n] bytes. *)
Definition readQueryFromClient (io_active : bool) (source : Z -> read_result) (c : in_client) : option (in_client * bool) :=
  let '(c, postponed) := postponeClientRead io_active c in
  if postponed then Some (c, true)
  else
    let n := readlen c in
    let c := in_peak c (Z.max (querybuf_peak c) (zlen (querybuf c))) in
    match source n with
    | ReadAgain => Some (c, true)
    | ReadError | ReadEof => Some (in_freeClientAsync c, true)
    | ReadBytes b =>
      let c := if fhas (flags c) CLIENT_MASTER
               then in_repl c (reploff c) (read_reploff c + zlen b) (pending_querybuf c ++ b) (fed c) else c in
      let c := in_buf c (querybuf c ++ b) (qb_pos c) in
      if zlen (querybuf c) >? client_max_querybuf_len then Some (in_freeClientAsync c, true)
      else processInputBuffer c
    end.

(** ** Streams of requests *)

Inductive request := ReqMulti (args : list bytes) | ReqInline (args : list bytes).

Definition request_args (r : request) : list bytes := match r with ReqMulti a | ReqInline a => a end.

Definition inline_line (args : list bytes) : bytes := sdsjoinsds (sdscatrepr [] <$> args) [32].
Definition bulks (args : list bytes) : bytes := mjoin (bulk_string <$> args).

Definition encode_request (r : request) : bytes :=
  match r with
  | ReqMulti args => header 42 (zlen args) ++ bulks args
  | ReqInline args => inline_line args ++ crlf
  end.

Definition encode_requests (l : list request) : bytes := mjoin (encode_request <$> l).

(** The commands of a stream: a request without arguments is none. *)
Definition commands (l : list request) : list (list bytes) := filter (fun a => a <> []) (request_args <$> l).

(** Within the limits; a master sends no inline command. *)
Definition request_ok (master : bool) (r : request) : bool :=
  match r with
  | ReqMulti args =>
    bool_decide (zlen args <= 1024 * 1024 /\ Forall (fun a => zlen a <= proto_max_bulk_len /\ zlen a < 2 ^ 62) args)
  | ReqInline args =>
    bool_decide (Forall (Forall is_byte) args /\ zlen (encode_request r) <= PROTO_INLINE_MAX_SIZE) &&
    (negb master || (length args =? 0)%nat) && negb gopher_enabled
  end.

(** ** Length lines *)

Lemma strchr_app a ch r : Forall (fun b => b <> ch /\ b <> 0) a -> strchr (a ++ ch :: r) ch = Some (length a).
Proof.
  induction 1 as [|b a [Hb H0] Ha IH]; simpl.
  - by rewrite Z.eqb_refl.
  - rewrite (proj2 (Z.eqb_neq b ch)), (proj2 (Z.eqb_neq b 0)), IH by done. done.
Qed.

Lemma strchr_none a ch : Forall (fun b => b <> ch /\ b <> 0) a -> strchr a ch = None.
Proof.
  induction 1 as [|b a [Hb H0] Ha IH]; simpl; [done|].
  by rewrite (proj2 (Z.eqb_neq b ch)), (proj2 (Z.eqb_neq b 0)), IH by done.
Qed.

Definition plain (ch : Z) (s : bytes) : Prop := Forall (fun b => b <> ch /\ b <> 0) s.

Lemma print_lld_plain n : in_s 64 n -> plain 13 (print_lld n).
Proof.
  intros Hn. unfold print_lld. destruct (Z.ltb_spec n 0).
  - constructor; [done|]. eapply Forall_impl; [apply print_digits_digits; [constructor|lia]|]. unfold is_digit. lia.
  - eapply Forall_impl; [apply print_digits_digits; [constructor|lia]|]. unfold is_digit. lia.
Qed.

Lemma header_length p n : in_s 64 n -> 3 < zlen (header p n) <= 24.
Proof.
  intros Hn. unfold header. autorewrite with zlen. change (zlen crlf) with 2. rewrite print_lld_length by done.
  pose proof (sdigits10_le n Hn). rewrite <-(print_lld_length n Hn) in *.
  pose proof (print_lld_decimal n Hn) as Hd. unfold is_decimal in Hd.
  assert (0 < zlen (print_lld n)) as Hpos; [|lia].
  destruct (print_lld n) as [|d ds] eqn:E; [|rewrite zlen_cons; pose proof (zlen_nonneg ds); lia].
  destruct (n <? 0); [by destruct Hd as (? & ? & _)|by destruct Hd as [[? _] _]].
Qed.

Lemma read_line_header p n rest :
  p <> 13 -> p <> 0 -> in_s 64 n -> read_line (header p n ++ rest) = LineOk n (length (header p n)).
Proof.
  intros H1 H2 Hn. unfold read_line, header, crlf.
  replace ((p :: print_lld n ++ [13; 10]) ++ rest) with ((p :: print_lld n) ++ 13 :: 10 :: rest)
    by (simpl; by rewrite <-app_assoc).
  rewrite strchr_app by (constructor; [done|by apply print_lld_plain]).
  destruct (Z.of_nat _ >? _) eqn:E.
  { exfalso. rewrite zlen_app, !zlen_cons in E. pose proof (zlen_nonneg rest). unfold zlen in *. cbn [length] in E. apply Z.gtb_lt in E. lia. }
  replace (length (p :: print_lld n) - 1)%nat with (length (print_lld n)) by (simpl; lia). simpl drop. rewrite drop_0, take_app_length, print_lld_string2ll by done.
  f_equal. simpl. rewrite length_app. simpl. lia.
Qed.

(** What the parser sees of a length line while the line is arriving. *)
Lemma read_line_prefix p n s unread rest :
  p <> 13 -> p <> 0 -> in_s 64 n -> s ++ unread = header p n ++ rest ->
  (exists s', s = header p n ++ s' /\ s' ++ unread = rest) \/
  (zlen s < zlen (header p n) /\ (read_line s = LineMissing /\ zlen s <= PROTO_INLINE_MAX_SIZE \/ read_line s = LineIncomplete)).
Proof.
  intros H1 H2 Hn E. apply app_eq_inv in E as [(k & -> & ->)|(k & E & ->)]; [left; by exists k|].
  destruct k as [|x k]; [left; exists []; rewrite app_nil_r in *; by subst|right].
  pose proof (header_length p n Hn) as Hl.
  assert (zlen s < zlen (header p n)) as Hs. { rewrite E, zlen_app, zlen_cons. pose proof (zlen_nonneg k). lia. }
  split; [done|].
  assert (plain 13 (p :: print_lld n)) as Hp by (constructor; [done|by apply print_lld_plain]).
  unfold header, crlf in E.
  replace (p :: print_lld n ++ [13; 10]) with ((p :: print_lld n) ++ [13; 10]) in E by done.
  apply app_eq_inv in E as [(k' & E1 & E2)|(k' & -> & E2)].
  - left. unfold read_line. rewrite strchr_none; [split; [done|unfold PROTO_INLINE_MAX_SIZE; lia]|].
    rewrite E1 in Hp. by apply Forall_app in Hp as [Hp _].
  - destruct k' as [|y [|z k']]; [| |by destruct k'; destruct k].
    + left. rewrite app_nil_r in *. unfold read_line. rewrite strchr_none by done. split; [done|unfold PROTO_INLINE_MAX_SIZE; lia].
    + right. simpl in E2. injection E2 as <- <- <-. unfold read_line. rewrite strchr_app by done.
      destruct (Z.of_nat _ >? _) eqn:E; [done|]. exfalso. rewrite Z.gtb_ltb in E. apply Z.ltb_ge in E.
      revert E. rewrite zlen_app. change (zlen [13]) with 1. unfold zlen. lia.
Qed.

(** ** Reading one request *)

(** What the parser leaves as it is; it only consumes the buffer. *)
Definition same_env (c c' : in_client) : Prop :=
  (exists y, unparsed c = y ++ unparsed c') /\ flags c' = flags c /\ cmd c' = cmd c /\ executed c' = executed c /\ replies c' = replies c /\ reploff c' = reploff c /\
  read_reploff c' = read_reploff c /\ pending_querybuf c' = pending_querybuf c /\ fed c' = fed c.

Definition pos_ok (c : in_client) : Prop := 0 <= qb_pos c <= zlen (querybuf c).

Lemma same_env_trans a b c : same_env a b -> same_env b c -> same_env a c.
Proof.
  intros ((y & Hy)&?&?&?&?&?&?&?&?) ((z & Hz)&?&?&?&?&?&?&?&?). split; [|split_and!; congruence].
  exists (y ++ z). by rewrite Hy, Hz, app_assoc.
Qed.

Lemma same_env_refl c : same_env c c.
Proof. split; [by exists []|done]. Qed.

Lemma unparsed_advance c k :
  pos_ok c -> 0 <= k <= zlen (unparsed c) ->
  pos_ok (in_buf c (querybuf c) (qb_pos c + k)) /\ unparsed (in_buf c (querybuf c) (qb_pos c + k)) = drop (Z.to_nat k) (unparsed c).
Proof.
  unfold pos_ok, unparsed. intros Hp Hk. simpl. rewrite zlen_drop_max in Hk. split; [lia|].
  rewrite drop_drop. f_equal. lia.
Qed.

Definition arg_ok (a : bytes) : Prop := zlen a <= proto_max_bulk_len /\ zlen a < 2 ^ 62.

Lemma read_bulklen_spec c a unread rest :
  pos_ok c -> bulklen c = -1 -> arg_ok a -> unparsed c ++ unread = bulk_string a ++ rest ->
  (exists c', read_bulklen c = inr c' /\ same_env c c' /\ pos_ok c' /\ bulklen c' = zlen a /\ reqtype c' = reqtype c /\
     multibulklen c' = multibulklen c /\ argv c' = argv c /\ unparsed c' ++ unread = a ++ crlf ++ rest) \/
  (read_bulklen c = inl c /\ zlen (unparsed c) < zlen (bulk_string a)).
Proof.
  intros Hp Hb [Ha1 Ha2] E. unfold read_bulklen. rewrite Hb. cbn [Z.eqb negb]. pose proof (zlen_nonneg a) as Hn.
  unfold bulk_string in E. rewrite <-!app_assoc in E.
  destruct (read_line_prefix 36 (zlen a) (unparsed c) unread (a ++ crlf ++ rest)) as [(s' & Es & E')|[Hu Hl]]; [done|done|lia|done| |].
  2: { right. split; [|unfold bulk_string; rewrite zlen_app; pose proof (zlen_nonneg (a ++ crlf)); lia].
       destruct Hl as [[-> Hz]| ->]; [|done]. destruct (zlen (unparsed c) >? PROTO_INLINE_MAX_SIZE) eqn:Ez; [lia|done]. }
  left. rewrite Es, read_line_header by (done || lia). simpl head. cbn [default Z.eqb negb].
  destruct ((zlen a <? 0) || _) eqn:El.
  { exfalso. destruct (fhas (flags c) CLIENT_MASTER); simpl in El; lia. }
  set (h := header 36 (zlen a)) in *.
  destruct (unparsed_advance c (Z.of_nat (length h)) Hp) as [Hp1 U1]; [rewrite Es, zlen_app; unfold zlen; lia|].
  rewrite Nat2Z.id, Es, drop_app_length in U1. set (c1 := in_buf c (querybuf c) (qb_pos c + Z.of_nat (length h))) in *.
  destruct ((zlen a >=? PROTO_MBULK_BIG_ARG) && (zlen (unparsed c1) <=? u64 (zlen a + 2))).
  - eexists. split; [done|]. split; [|split_and!; try done].
    + split; [|done]. exists h. unfold unparsed at 2. simpl. by rewrite drop_0, U1.
    + unfold pos_ok. simpl. pose proof (zlen_nonneg (unparsed c1)). lia.
    + unfold unparsed at 1. simpl. rewrite drop_0. by rewrite U1.
  - eexists. split; [done|]. split; [|split_and!; try done].
    + split; [|done]. exists h. change (unparsed c = h ++ unparsed c1). by rewrite U1.
    + change (unparsed c1 ++ unread = a ++ crlf ++ rest). by rewrite U1.
Qed.

Lemma read_bulk_spec c a unread rest :
  pos_ok c -> bulklen c = zlen a -> zlen a < 2 ^ 62 -> unparsed c ++ unread = a ++ crlf ++ rest ->
  (zlen (unparsed c) <? u64 (bulklen c + 2) = false /\ same_env c (read_bulk c) /\ pos_ok (read_bulk c) /\
   reqtype (read_bulk c) = reqtype c /\ multibulklen (read_bulk c) = multibulklen c - 1 /\ bulklen (read_bulk c) = -1 /\
   argv (read_bulk c) = argv c ++ [a] /\ unparsed (read_bulk c) ++ unread = rest) \/
  (zlen (unparsed c) <? u64 (bulklen c + 2) = true /\ zlen (unparsed c) < zlen (a ++ crlf)).
Proof.
  intros Hp Hb Ha E. pose proof (zlen_nonneg a) as Hn. rewrite Hb, (uint_small 64 (zlen a + 2)) by lia.
  rewrite app_assoc in E. assert (zlen (a ++ crlf) = zlen a + 2) as Hl by (by rewrite zlen_app).
  destruct (Z.ltb_spec (zlen (unparsed c)) (zlen a + 2)) as [Hs|Hs].
  { right. split; [done|]. lia. }
  left. split; [done|].
  assert (exists k, unparsed c = (a ++ crlf) ++ k /\ rest = k ++ unread) as (k & E1 & E2).
  { apply app_eq_inv in E as [E|(k & E1 & E2)]; [done|].
    assert (k = []) as ->. { apply zlen_0_inv. rewrite E1, zlen_app in Hl. pose proof (zlen_nonneg k). lia. }
    exists []. rewrite E1, app_nil_r. by rewrite app_nil_r in *. }
  unfold read_bulk. rewrite Hb. rewrite (uint_small 64 (zlen a + 2)) by lia.
  destruct ((qb_pos c =? 0) && (zlen a >=? PROTO_MBULK_BIG_ARG) && (zlen (querybuf c) =? zlen a + 2)) eqn:Eb.
  - assert (unparsed c = querybuf c) as Eu by (unfold unparsed; by replace (qb_pos c) with 0 by lia).
    assert (k = []) as ->. { apply zlen_0_inv. rewrite <-Eu, E1, zlen_app, Hl in Eb. pose proof (zlen_nonneg k). lia. }
    rewrite app_nil_r, Eu in E1. split; [split; [exists (querybuf c); unfold unparsed at 2; simpl; by rewrite drop_nil, app_nil_r|done]|].
    split_and!; try done.
    + unfold pos_ok. simpl. change (zlen []) with 0. lia.
    + simpl. rewrite E1, Hl. replace (Z.to_nat (zlen a + 2 - 2)) with (length a) by (unfold zlen; lia). by rewrite take_app_length.
    + unfold unparsed. simpl. by rewrite drop_nil.
  - destruct (unparsed_advance c (zlen a + 2) Hp) as [Hp1 U1]; [lia|].
    rewrite E1, <-Hl in U1. replace (Z.to_nat (zlen (a ++ crlf))) with (length (a ++ crlf)) in U1 by (unfold zlen; lia).
    rewrite drop_app_length in U1. rewrite Z.add_assoc, Hl in *.
    split; [split; [exists (a ++ crlf); rewrite E1; f_equal; symmetry; rewrite Z.add_assoc in U1; exact U1|done]|]. split_and!; try done.
    + simpl. rewrite E1, <-app_assoc. replace (Z.to_nat (zlen a)) with (length a) by (unfold zlen; lia). by rewrite take_app_length.
    + rewrite E2. f_equal. rewrite Z.add_assoc in U1. exact U1.
Qed.

(** A multibulk request with the arguments [read] and [rest] to come; [R] is
    what is to be read of them. *)
Definition mid (c : in_client) (read rest : list bytes) (R : bytes) : Prop :=
  argv c = read /\ multibulklen c = zlen rest /\ Forall arg_ok rest /\
  (bulklen c = -1 /\ R = bulks rest \/
   exists a rest', rest = a :: rest' /\ bulklen c = zlen a /\ R = a ++ crlf ++ bulks rest').

(** The outcome of a parser on the request [args]: it is complete, or more
    input is needed. *)
Definition completes (c c' : in_client) (args : list bytes) (unread tail : bytes) : Prop :=
  same_env c c' /\ pos_ok c' /\ argv c' = args /\ unparsed c' ++ unread = tail.

Definition waits (c c' : in_client) (args : list bytes) (unread tail : bytes) : Prop :=
  same_env c c' /\ pos_ok c' /\ reqtype c' = reqtype c /\
  exists read rest R, args = read ++ rest /\ rest <> [] /\ mid c' read rest R /\ unparsed c' ++ unread = R ++ tail /\
    zlen (unparsed c') < zlen R.

(** One argument: it is taken out of the buffer, or more input is needed. *)
Lemma bulk_step c read a rest R tail unread :
  pos_ok c -> mid c read (a :: rest) R -> unparsed c ++ unread = R ++ tail ->
  (exists c1, read_bulklen c = inr c1 /\ zlen (unparsed c1) <? u64 (bulklen c1 + 2) = false /\ same_env c (read_bulk c1) /\
     reqtype (read_bulk c1) = reqtype c /\ pos_ok (read_bulk c1) /\ mid (read_bulk c1) (read ++ [a]) rest (bulks rest) /\
     unparsed (read_bulk c1) ++ unread = bulks rest ++ tail) \/
  (exists c1, (read_bulklen c = inl c1 \/ read_bulklen c = inr c1 /\ zlen (unparsed c1) <? u64 (bulklen c1 + 2) = true) /\
     waits c c1 (read ++ a :: rest) unread tail).
Proof.
  intros Hp (Ha & Hm & Hok & Hst) E. apply Forall_cons in Hok as [Hao Hok].
  assert ((exists c1, read_bulklen c = inr c1 /\ same_env c c1 /\ pos_ok c1 /\ bulklen c1 = zlen a /\ reqtype c1 = reqtype c /\
     multibulklen c1 = multibulklen c /\ argv c1 = argv c /\ unparsed c1 ++ unread = a ++ crlf ++ bulks rest ++ tail) \/
    (read_bulklen c = inl c /\ zlen (unparsed c) < zlen R)) as [(c1 & E1 & Hs & Hp1 & Hb1 & Hr1 & Hm1 & Ha1 & U1)|[E1 Hu]].
  { destruct Hst as [[Hb ->]|(a' & rest' & [= <- <-] & Hb & ->)].
    - change (bulks (a :: rest)) with (bulk_string a ++ bulks rest) in *. rewrite <-app_assoc in E.
      destruct (read_bulklen_spec c a unread (bulks rest ++ tail) Hp Hb Hao E) as [H|[H1 H2]]; [by left|right].
      split; [done|]. rewrite zlen_app. pose proof (zlen_nonneg (bulks rest)). lia.
    - left. exists c. unfold read_bulklen. pose proof (zlen_nonneg a). rewrite Hb, (proj2 (Z.eqb_neq (zlen a) (-1))) by lia.
      split; [done|]. split; [apply same_env_refl|]. split_and!; try done. rewrite E, <-!app_assoc. done. }
  - destruct (read_bulk_spec c1 a unread (bulks rest ++ tail) Hp1 Hb1) as [(H1 & H2 & H3 & H4 & H5 & H6 & H7 & H8)|[H1 H2]];
      [by destruct Hao|done| |].
    + left. exists c1. split_and!; try done; [by eapply same_env_trans|congruence|]. rewrite zlen_cons in Hm.
      split; [congruence|]. split; [lia|]. split; [done|]. by left.
    + right. exists c1. split; [by right|]. split; [done|]. split_and!; try done. exists read, (a :: rest), (a ++ crlf ++ bulks rest).
      split_and!; try done; [|by rewrite U1, <-!app_assoc|rewrite app_assoc, zlen_app; pose proof (zlen_nonneg (bulks rest)); lia].
      split; [congruence|]. split; [congruence|]. split; [by constructor|]. right. by exists a, rest.
  - right. exists c. split; [by left|]. split; [apply same_env_refl|]. split_and!; try done.
    exists read, (a :: rest), R. split_and!; try done.
    split; [done|]. split; [done|]. split; [by constructor|done].
Qed.

Lemma multibulk_loop_spec rest : forall c read R tail unread,
  pos_ok c -> mid c read rest R -> unparsed c ++ unread = R ++ tail ->
  exists c' ok, multibulk_loop (length rest) c = (c', ok) /\
    if ok : bool then completes c c' (read ++ rest) unread tail else waits c c' (read ++ rest) unread tail.
Proof.
  induction rest as [|a rest IH]; intros c read R tail unread Hp Hm E.
  - exists c, true. split; [done|]. destruct Hm as (Ha & _ & _ & Hst). rewrite app_nil_r.
    destruct Hst as [[_ ->]|(a' & r' & H & _)]; [|done]. split; [apply same_env_refl|done].
  - simpl length. cbn [multibulk_loop].
    destruct (bulk_step c read a rest R tail unread Hp Hm E) as [(c1 & -> & -> & Hs & Hr & Hp1 & Hm1 & E1)|(c1 & Hc & Hw)].
    + destruct (IH _ _ _ _ _ Hp1 Hm1 E1) as (c' & ok & -> & H). exists c', ok. split; [done|].
      rewrite <-app_assoc in H. simpl in H. destruct ok.
      * destruct H as (H1 & H2). split; [by eapply same_env_trans|done].
      * destruct H as (H1 & H2 & H4 & H5). split; [by eapply same_env_trans|]. split_and!; try done. congruence.
    + exists c1, false. split; [|done]. destruct Hc as [->|[-> ->]]; done.
Qed.

(** Between two requests. *)
Definition idle (c : in_client) : Prop := multibulklen c = 0 /\ bulklen c = -1 /\ argv c = [].

Lemma processMultibulk_start c args unread tail :
  pos_ok c -> idle c -> zlen args <= 1024 * 1024 -> Forall arg_ok args ->
  unparsed c ++ unread = encode_request (ReqMulti args) ++ tail ->
  exists c' ok, processMultibulkBuffer c = Some (c', ok) /\
    if ok : bool then completes c c' args unread tail
    else waits c c' args unread tail \/ c' = c /\ zlen (unparsed c) < zlen (encode_request (ReqMulti args)).
Proof.
  intros Hp (Hm & Hb & Ha) Hn Hok E. unfold processMultibulkBuffer, read_multibulklen. rewrite Hm, Ha. cbn [Z.eqb negb length Nat.eqb].
  pose proof (zlen_nonneg args) as Hnn. cbn [encode_request] in E. rewrite <-app_assoc in E.
  destruct (read_line_prefix 42 (zlen args) (unparsed c) unread (bulks args ++ tail)) as [(s' & Es & E')|[Hu Hl]]; [done|done|lia|done| |].
  2: { exists c, false.
       split; [|right; split; [done|]; cbn [encode_request]; rewrite zlen_app; pose proof (zlen_nonneg (bulks args)); lia].
       destruct Hl as [[-> Hz]| ->]; [|done].
       destruct (zlen (unparsed c) >? PROTO_INLINE_MAX_SIZE) eqn:Ez; [lia|done]. }
  rewrite Es, read_line_header by (done || lia). rewrite bool_decide_eq_true_2 by done. cbn [negb].
  destruct (zlen args >? 1024 * 1024) eqn:E1; [lia|]. set (h := header 42 (zlen args)) in *.
  destruct (unparsed_advance c (Z.of_nat (length h)) Hp) as [Hp1 U1]; [rewrite Es, zlen_app; unfold zlen; lia|].
  rewrite Nat2Z.id, Es, drop_app_length in U1. set (c1 := in_buf c (querybuf c) (qb_pos c + Z.of_nat (length h))) in *.
  destruct (Z.leb_spec (zlen args) 0).
  - assert (args = []) as -> by (apply zlen_0_inv; lia). cbn [mbind option_bind]. exists c1, true. split; [done|].
    split; [split; [exists h; by rewrite U1|done]|]. split; [done|]. split; [done|]. by rewrite U1, E'.
  - cbn [mbind option_bind]. simpl multibulklen. destruct (Z.leb_spec (zlen args) 0); [lia|].
    unfold zlen at 1. rewrite Nat2Z.id. set (c2 := in_argv _ _ _ _).
    destruct (multibulk_loop_spec args c2 [] (bulks args) tail unread) as (c' & ok & -> & H').
    + done.
    + split; [done|]. split; [done|]. split; [done|]. by left.
    + change (unparsed c2) with (unparsed c1). by rewrite U1.
    + assert (same_env c c2) as Hs by (split; [exists h; change (unparsed c2) with (unparsed c1); by rewrite U1|done]).
      exists c', ok. split; [done|]. destruct ok.
      * destruct H' as [H1 H2]. split; [by eapply same_env_trans|done].
      * left. destruct H' as [H1 H2]. split; [by eapply same_env_trans|done].
Qed.

Lemma processMultibulk_resume c read rest R unread tail :
  pos_ok c -> rest <> [] -> mid c read rest R -> unparsed c ++ unread = R ++ tail ->
  exists c' ok, processMultibulkBuffer c = Some (c', ok) /\
    if ok : bool then completes c c' (read ++ rest) unread tail else waits c c' (read ++ rest) unread tail.
Proof.
  intros Hp Hne Hm E. pose proof Hm as (_ & Hl & _). assert (0 < zlen rest) as Hpos.
  { destruct rest; [done|]. rewrite zlen_cons. pose proof (zlen_nonneg rest). lia. }
  unfold processMultibulkBuffer, read_multibulklen. rewrite (proj2 (Z.eqb_neq (multibulklen c) 0)) by lia.
  cbn [negb mbind option_bind]. destruct (Z.leb_spec (multibulklen c) 0); [lia|]. rewrite Hl. unfold zlen at 1. rewrite Nat2Z.id.
  destruct (multibulk_loop_spec rest c read R tail unread Hp Hm E) as (c' & ok & -> & H'). by exists c', ok.
Qed.

(** A stream that starts with [h]: [h] has arrived, or a part of it has not. *)
Lemma prefix_cases (s u h t : bytes) :
  s ++ u = h ++ t -> (exists k, s = h ++ k /\ t = k ++ u) \/ (exists k y, h = s ++ k ++ [y] /\ u <> []).
Proof.
  intros [(k & -> & ->)|(k & -> & ->)]%app_eq_inv; [left; by exists k|].
  destruct k as [|y k _] using rev_ind; [left; exists []; by rewrite !app_nil_r|]. right. exists k, y. split; [done|].
  by destruct k.
Qed.

Lemma inline_line_plain args : Forall (Forall is_byte) args -> plain 10 (inline_line args ++ [13]).
Proof.
  intros Ha. apply Forall_app. split; [|by repeat constructor].
  eapply Forall_impl; [by apply repr_printable|]. simpl. lia.
Qed.

Lemma processInline_spec c args unread tail :
  pos_ok c -> idle c -> request_ok (fhas (flags c) CLIENT_MASTER) (ReqInline args) = true ->
  unparsed c ++ unread = encode_request (ReqInline args) ++ tail ->
  exists c' ok, processInlineBuffer c = (c', ok) /\
    if ok : bool then completes c c' args unread tail
    else c' = c /\ zlen (unparsed c) < zlen (encode_request (ReqInline args)).
Proof.
  intros Hp (Hm & Hb & Ha) Hok E. unfold request_ok in Hok. apply andb_true_iff in Hok as [Hok _].
  apply andb_true_iff in Hok as [Hok Hmaster]. apply bool_decide_eq_true in Hok as [Hargs Hlen].
  pose proof (inline_line_plain args Hargs) as Hpl. cbn [encode_request] in E, Hlen.
  replace (inline_line args ++ crlf) with ((inline_line args ++ [13]) ++ [10]) in E, Hlen by (by rewrite <-app_assoc).
  unfold processInlineBuffer. apply prefix_cases in E as [(k & E1 & E2)|(k & y & E1 & Hu)].
  - replace (unparsed c) with ((inline_line args ++ [13]) ++ 10 :: k) by (rewrite E1; by rewrite <-!app_assoc).
    rewrite strchr_app by done. cbv zeta.
    set (l := inline_line args) in *. rewrite length_app. simpl length.
    replace ((l ++ [13]) ++ 10 :: k) with (l ++ 13 :: 10 :: k) by (by rewrite <-app_assoc).
    replace (length l + 1 - 1)%nat with (length l) by lia. rewrite list_lookup_middle by done.
    rewrite (proj2 (Nat.ltb_lt 0 (length l + 1))), bool_decide_eq_true_2 by (done || lia). cbn [andb].
    rewrite take_app_length. unfold l at 1 2. unfold inline_line. rewrite sdssplitargs_line by done. fold (inline_line args). fold l.
    set (c1 := if _ && is_slave _ then _ else c).
    assert (same_env c c1 /\ pos_ok c1 /\ unparsed c1 = unparsed c /\ querybuf c1 = querybuf c /\ qb_pos c1 = qb_pos c) as (Hs1 & Hp1 & U1 & Q1 & P1).
    { unfold c1. destruct (_ && _); (split; [split; [by exists []|done]|done]). }
    pose proof Hs1 as (_ & Hf1 & _). rewrite Hf1.
    assert (negb (length l =? 0)%nat && fhas (flags c) CLIENT_MASTER = false) as ->.
    { destruct (fhas (flags c) CLIENT_MASTER); [|by rewrite andb_false_r]. simpl in Hmaster. apply Nat.eqb_eq in Hmaster.
      destruct args; [done|done]. }
    destruct (unparsed_advance c1 (Z.of_nat (length l) + 2) Hp1) as [Hp2 U2].
    { rewrite U1, E1, !zlen_app. pose proof (zlen_nonneg k). unfold zlen. simpl. lia. }
    rewrite Z.add_assoc in Hp2, U2. rewrite U1, E1 in U2.
    replace (Z.to_nat (Z.of_nat (length l) + 2)) with (length ((l ++ [13]) ++ [10])) in U2 by (rewrite !length_app; simpl; lia).
    rewrite drop_app_length in U2. eexists _, true. split; [done|]. split; [|split_and!; try done; by rewrite E2, <-U2].
    eapply same_env_trans; [exact Hs1|]. split; [|done]. exists ((l ++ [13]) ++ [10]). rewrite U1, E1. f_equal. by rewrite <-U2.
  - rewrite strchr_none.
    + assert (zlen (unparsed c) < zlen (encode_request (ReqInline args))) as Hs.
      { cbn [encode_request]. replace (inline_line args ++ crlf) with ((inline_line args ++ [13]) ++ [10]) by (by rewrite <-app_assoc).
        rewrite E1, !zlen_app. change (zlen [y]) with 1. pose proof (zlen_nonneg k). lia. }
      destruct (_ >? _) eqn:Ez; [exfalso|eexists _, _; split; [done|done]].
      rewrite E1, zlen_app in Hlen. pose proof (zlen_nonneg (k ++ [y])). lia.
    + rewrite app_assoc in E1. apply app_inj_tail in E1 as [E1 _]. rewrite E1 in Hpl. by apply Forall_app in Hpl as [Hpl _].
Qed.

(** ** The loop over requests *)

(** Flags under which requests are read and executed at once. *)
Definition STOP_MASK : Z :=
  Z.lor (Z.lor CLIENT_BLOCKED CLIENT_PENDING_COMMAND) (Z.lor (Z.lor CLIENT_CLOSE_AFTER_REPLY CLIENT_CLOSE_ASAP) CLIENT_PENDING_READ).
Definition calm (f : Z) : Prop := Z.land f STOP_MASK = 0 /\ lua_timedout && fhas f CLIENT_MASTER = false.

Lemma calm_part f m : calm f -> Z.land STOP_MASK m = m -> fhas f m = false.
Proof.
  intros [H _] Hm. unfold fhas. rewrite <-Hm, Z.land_assoc, H, Z.land_0_l. done.
Qed.

Lemma calm_not_stopped c : calm (flags c) -> input_stopped c = false /\ fhas (flags c) CLIENT_PENDING_READ = false.
Proof.
  intros Hc. unfold input_stopped. pose proof Hc as [_ ->].
  rewrite (calm_part _ CLIENT_BLOCKED), (calm_part _ CLIENT_PENDING_COMMAND),
    (calm_part _ (Z.lor CLIENT_CLOSE_AFTER_REPLY CLIENT_CLOSE_ASAP)), (calm_part _ CLIENT_PENDING_READ) by done. done.
Qed.

(** Flags that resetClient does not touch. *)
Definition RESET_MASK : Z :=
  Z.lor (Z.lor CLIENT_ASKING CLIENT_TRACKING_CACHING) (Z.lor CLIENT_REPLY_SKIP CLIENT_REPLY_SKIP_NEXT).

Lemma land_clear f a m : Z.land a m = 0 -> Z.land (fclear f a) m = Z.land f m.
Proof.
  intros H. unfold fclear. apply Z.bits_inj'. intros n Hn. apply (f_equal (fun z => Z.testbit z n)) in H.
  rewrite Z.land_spec, Z.bits_0 in H. rewrite !Z.land_spec, Z.ldiff_spec.
  by destruct (Z.testbit f n), (Z.testbit a n), (Z.testbit m n).
Qed.

Lemma land_set f a m : Z.land a m = 0 -> Z.land (fset f a) m = Z.land f m.
Proof. intros H. unfold fset. by rewrite Z.land_lor_distr_l, H, Z.lor_0_r. Qed.

Lemma reset_land c m : Z.land RESET_MASK m = 0 -> Z.land (flags (resetClient c)) m = Z.land (flags c) m.
Proof.
  intros Hm.
  assert (forall a, Z.land a RESET_MASK = a -> Z.land a m = 0) as H by (intros a <-; by rewrite <-Z.land_assoc, Hm, Z.land_0_r).
  unfold resetClient. cbn [flags in_flags in_req freeClientArgv in_argv].
  repeat case_match; rewrite ?land_clear, ?land_set, ?land_clear by (apply H; done); done.
Qed.

#[local] Arguments resetClient : simpl never.

Lemma reset_spec c :
  calm (flags c) ->
  calm (flags (resetClient c)) /\ idle (resetClient c) /\ reqtype (resetClient c) = 0 /\
  fhas (flags (resetClient c)) CLIENT_MASTER = fhas (flags c) CLIENT_MASTER /\
  fhas (flags (resetClient c)) CLIENT_MULTI = fhas (flags c) CLIENT_MULTI.
Proof.
  intros [H1 H2]. assert (forall m, Z.land RESET_MASK m = 0 -> fhas (flags (resetClient c)) m = fhas (flags c) m) as H.
  { intros m Hm. unfold fhas. by rewrite reset_land. }
  split; [|by rewrite !H]. split; [by rewrite reset_land|by rewrite H].
Qed.

(** The state [c] in front of the requests [todo]; [R] is what is to be read of
    them. *)
Definition req_type (r : request) : Z := match r with ReqMulti _ => PROTO_REQ_MULTIBULK | ReqInline _ => PROTO_REQ_INLINE end.

Inductive expects (c : in_client) : list request -> bytes -> Prop :=
  | ex_idle todo : reqtype c = 0 -> idle c -> expects c todo (encode_requests todo)
  | ex_start r todo : reqtype c = req_type r -> idle c -> expects c (r :: todo) (encode_requests (r :: todo))
  | ex_mid read rest R todo :
      reqtype c = PROTO_REQ_MULTIBULK -> zlen (read ++ rest) <= 1024 * 1024 -> rest <> [] -> mid c read rest R ->
      expects c (ReqMulti (read ++ rest) :: todo) (R ++ encode_requests todo).

Lemma encode_cons r l : encode_requests (r :: l) = encode_request r ++ encode_requests l.
Proof. done. Qed.

Lemma encode_app a b : encode_requests (a ++ b) = encode_requests a ++ encode_requests b.
Proof. unfold encode_requests. by rewrite fmap_app, join_app. Qed.

Lemma commands_app a b : commands (a ++ b) = commands a ++ commands b.
Proof. unfold commands. by rewrite fmap_app, filter_app. Qed.

Lemma encode_nonempty r : encode_request r <> [].
Proof. destruct r; simpl; [done|]. intros [_ H]%app_eq_nil. done. Qed.

Lemma mid_nonempty c read rest R : rest <> [] -> mid c read rest R -> R <> [].
Proof.
  intros Hne (_ & _ & _ & [[_ ->]|(a & r & _ & _ & ->)]).
  - destruct rest as [|a rest]; [done|]. done.
  - intros [_ H]%app_eq_nil. done.
Qed.

Lemma expects_nil c R : expects c [] R -> R = [] /\ reqtype c = 0 /\ idle c.
Proof. by inversion 1. Qed.

Lemma expects_split c r todo R : expects c (r :: todo) R -> exists R0, R = R0 ++ encode_requests todo /\ R0 <> [].
Proof.
  intros He. inversion He as [|? ? ? ?|read rest R1 ? _ _ Hne Hm]; subst;
    [exists (encode_request r)|exists (encode_request r)|exists R1]; (split; [done|]);
    [apply encode_nonempty|apply encode_nonempty|by eapply mid_nonempty].
Qed.

(** Commands that neither block nor close their client, and are handled. *)
Definition calm_command : Prop := forall f args, calm f ->
  match processCommand f args with
  | (_, f', ok, dead) => ok = true /\ dead = false /\ calm f' /\ fhas f' CLIENT_MASTER = fhas f CLIENT_MASTER
  end.

Context (calm_commands : calm_command) (base : Z).

(** What a master client has applied and handed on, when the requests [done]
    were read out of [total]: the offset counts the bytes handed on, which are
    whole requests; all commands read are applied, unless a transaction is
    open. *)
Record applied (c : in_client) (done : list request) (total : bytes) : Prop := {
  ap_fed : fed c ++ pending_querybuf c = total;
  ap_off : reploff c = base + zlen (fed c);
  ap_read : read_reploff c = base + zlen total;
  ap_tail : exists x, pending_querybuf c = x ++ unparsed c;
  ap_done : exists pre post, done = pre ++ post /\ fed c = encode_requests pre /\
    (fhas (flags c) CLIENT_MULTI = false -> commands post = []);
}.

(** [m]: the client is a master. *)
Section mode.
Context (m : bool).

Record reading (c : in_client) (done todo : list request) (total unread : bytes) : Prop := {
  rd_pos : pos_ok c;
  rd_calm : calm (flags c);
  rd_mode : fhas (flags c) CLIENT_MASTER = m;
  rd_state : exists R, expects c todo R /\ unparsed c ++ unread = R;
  rd_ok : Forall (fun r => request_ok (fhas (flags c) CLIENT_MASTER) r = true) todo;
  rd_replies : replies c = [];
  rd_executed : executed c = commands done;
  rd_total : total ++ unread = encode_requests (done ++ todo);
  rd_master : fhas (flags c) CLIENT_MASTER = true -> applied c done total;
}.

(** A request was read out of the buffer of [c]. *)
Lemma read_request c c1 r done todo total unread :
  reading c done (r :: todo) total unread -> completes c c1 (request_args r) unread (encode_requests todo) ->
  pos_ok c1 /\ calm (flags c1) /\ flags c1 = flags c /\ replies c1 = [] /\ executed c1 = commands done /\
  Forall (fun r => request_ok (fhas (flags c) CLIENT_MASTER) r = true) todo /\
  total ++ unread = encode_requests ((done ++ [r]) ++ todo) /\ argv c1 = request_args r /\
  unparsed c1 ++ unread = encode_requests todo /\ (length (unparsed c1) < length (unparsed c))%nat /\
  (fhas (flags c) CLIENT_MASTER = true -> applied c1 done total).
Proof.
  intros [W1 W2 Wm (R & He & HR) W4 W5 W6 W7 W8] (((y & Hy) & Hf & Hcmd & Hex & Hre & Hro & Hrr & Hpq & Hfed) & Hp & Ha & Hu).
  apply Forall_cons in W4 as [_ W4]. rewrite <-app_assoc. rewrite Hf, Hre, Hex. split_and!; try done.
  - rewrite Hy, length_app. destruct y; [|simpl; lia]. exfalso. simpl in Hy. rewrite Hy, Hu in HR.
    destruct (expects_split _ _ _ _ He) as (R0 & -> & Hne).
    apply (f_equal length) in HR. rewrite length_app in HR. destruct R0; [done|]. simpl in HR. lia.
  - intros Hm. destruct (W8 Hm) as [A1 A2 A3 (x & A4) A5]. split; rewrite ?Hpq, ?Hfed, ?Hro, ?Hrr, ?Hf; try done.
    exists (x ++ y). by rewrite A4, Hy, app_assoc.
Qed.

(** A request without arguments executes nothing. *)
Lemma skip_request c c1 r done todo total unread :
  reading c done (r :: todo) total unread -> completes c c1 (request_args r) unread (encode_requests todo) ->
  request_args r = [] -> reading (resetClient c1) (done ++ [r]) todo total unread.
Proof.
  intros Hr Hc E. destruct (read_request c c1 r done todo total unread Hr Hc) as (H1 & H2 & H3 & H4 & H5 & H6 & H7 & H8 & H9 & _ & H10).
  destruct (reset_spec c1 H2) as (R1 & R2 & R3 & R4 & R5). rewrite <-H3 in *.
  assert (commands [r] = []) as Hn by (unfold commands; simpl; by rewrite E).
  split; try done.
  - rewrite R4, H3. apply (rd_mode _ _ _ _ _ Hr).
  - eexists. split; [by apply ex_idle|exact H9].
  - by rewrite R4.
  - change (executed (resetClient c1)) with (executed c1). by rewrite commands_app, Hn, app_nil_r.
  - rewrite R4. intros Hm. destruct (H10 Hm) as [A1 A2 A3 A4 (pre & post & -> & A6 & A7)]. split; try done.
    exists pre, (post ++ [r]). rewrite R5, app_assoc, commands_app, Hn, app_nil_r. done.
Qed.

(** The effect of commandProcessed on a client in calm state. *)
Lemma processed_spec c done total unread :
  calm (flags c) -> pos_ok c -> (fhas (flags c) CLIENT_MASTER = true -> fed c ++ pending_querybuf c = total /\
    reploff c = base + zlen (fed c) /\ read_reploff c = base + zlen total /\ (exists x, pending_querybuf c = x ++ unparsed c) /\
    (exists pre post, done = pre ++ post /\ fed c = encode_requests pre)) ->
  (exists todo, total ++ unread = encode_requests (done ++ todo) /\ unparsed c ++ unread = encode_requests todo) ->
  let c' := commandProcessed c in
  calm (flags c') /\ idle c' /\ reqtype c' = 0 /\ pos_ok c' /\ unparsed c' = unparsed c /\ executed c' = executed c /\
  replies c' = replies c /\ fhas (flags c') CLIENT_MASTER = fhas (flags c) CLIENT_MASTER /\
  (fhas (flags c) CLIENT_MASTER = true -> applied c' done total).
Proof.
  intros Hc Hp Hm (todo & Ht & Hu). cbv zeta. unfold commandProcessed.
  set (c1 := if fhas (flags c) CLIENT_MASTER && negb (fhas (flags c) CLIENT_MULTI) then _ else c).
  assert (flags c1 = flags c) as F1 by (unfold c1; by destruct (_ && _)).
  assert (fhas (flags c1) CLIENT_BLOCKED = false) as -> by (rewrite F1; by apply calm_part).
  cbn [negb]. assert (calm (flags c1)) as Hc1 by (by rewrite F1).
  destruct (reset_spec c1 Hc1) as (R1 & R2 & R3 & R4 & R5). rewrite R4, F1.
  change (reploff (resetClient c1)) with (reploff c1). change (read_reploff (resetClient c1)) with (read_reploff c1).
  change (pending_querybuf (resetClient c1)) with (pending_querybuf c1). change (fed (resetClient c1)) with (fed c1).
  destruct (fhas (flags c) CLIENT_MASTER) eqn:Em.
  2: { unfold c1 in *. simpl in *. split_and!; try done. by rewrite R4. }
  destruct (Hm eq_refl) as (A1 & A2 & A3 & (x & A4) & A5). rewrite F1 in R5.
  destruct (fhas (flags c) CLIENT_MULTI) eqn:Emu; unfold c1 in *; cbn [andb negb] in *.
  - replace (reploff c - reploff c =? 0) with true by lia. cbn [negb]. split_and!; try done; [by rewrite R4|].
    intros _. split; try done; [by exists x|]. destruct A5 as (pre & post & -> & A5). exists pre, post. rewrite R5. done.
  - assert (zlen (querybuf c) - qb_pos c = zlen (unparsed c)) as Hz.
    { unfold unparsed. rewrite zlen_drop_max. unfold pos_ok in Hp. lia. }
    assert (zlen total = zlen (fed c) + zlen x + zlen (unparsed c)) as Hl by (rewrite <-A1, A4, !zlen_app; lia).
    cbn [reploff read_reploff pending_querybuf fed in_repl].
    replace (read_reploff c - zlen (querybuf c) + qb_pos c - reploff c) with (zlen x) by lia.
    assert (fed c ++ x = encode_requests done) as Hfx.
    { rewrite encode_app, <-A1, A4, <-Hu, <-!app_assoc, !app_assoc in Ht.
      apply app_inv_tail in Ht. by apply app_inv_tail in Ht. }
    assert (forall F P, fed c ++ x = F -> P = unparsed c ->
      applied (in_repl (resetClient (in_repl c (read_reploff c - zlen (querybuf c) + qb_pos c) (read_reploff c) (pending_querybuf c) (fed c)))
        (read_reploff c - zlen (querybuf c) + qb_pos c) (read_reploff c) P F) done total) as Hap.
    { intros F P <- ->. split; simpl.
      - by rewrite <-A1, A4, app_assoc.
      - rewrite zlen_app. lia.
      - done.
      - by exists [].
      - exists done, []. rewrite app_nil_r. done. }
    destruct (Z.eqb_spec (zlen x) 0) as [E0|E0]; cbn [negb].
    + apply zlen_0_inv in E0. subst x. split_and!; try done; [by rewrite R4|]. intros _. apply (Hap (fed c) (pending_querybuf c)); [by rewrite app_nil_r|done].
    + split_and!; try done; [etransitivity; [exact R4|exact Em]|]. intros _. apply Hap; simpl; unfold zlen; rewrite A4, Nat2Z.id.
      * by rewrite take_app_length.
      * by rewrite drop_app_length.
Qed.

Lemma exec_request c c1 r done todo total unread :
  reading c done (r :: todo) total unread -> completes c c1 (request_args r) unread (encode_requests todo) ->
  request_args r <> [] ->
  exists c2, processCommandAndResetClient c1 = (c2, true) /\ reading c2 (done ++ [r]) todo total unread /\
    unparsed c2 = unparsed c1.
Proof.
  intros Hr Hc E. destruct (read_request c c1 r done todo total unread Hr Hc) as (H1 & H2 & H3 & H4 & H5 & H6 & H7 & H8 & H9 & _ & H10).
  unfold processCommandAndResetClient. pose proof (calm_commands (flags c1) (argv c1) H2) as Hcc.
  destruct (processCommand (flags c1) (argv c1)) as [[[p f] ok] dead]. destruct Hcc as (-> & -> & Hf & Hfm).
  set (c2 := in_flags _ f). cbn [negb]. eexists. split; [done|].
  assert (commands [r] = [request_args r]) as Hn.
  { unfold commands. simpl. rewrite filter_cons_True by done. done. }
  destruct (processed_spec c2 (done ++ [r]) total unread) as (P1 & P2 & P3 & P4 & P5 & P6 & P7 & P8 & P9); try done.
  - intros Hm. simpl in Hm. rewrite Hfm, H3 in Hm. destruct (H10 Hm) as [A1 A2 A3 A4 (pre & post & -> & A6 & _)].
    split_and!; try done. exists pre, (post ++ [r]). by rewrite app_assoc.
  - exists todo. split; [done|exact H9].
  - simpl in P8, P9. split; [|done]. split; try done.
    + rewrite P8, Hfm, H3. apply (rd_mode _ _ _ _ _ Hr).
    + eexists. split; [by apply ex_idle|]. by rewrite P5.
    + by rewrite P8, Hfm, H3.
    + by rewrite P7.
    + rewrite P6. simpl. by rewrite H5, H8, commands_app, Hn.
    + intros Hm. rewrite P8 in Hm. by apply P9.
Qed.

Lemma reading_same c c' done todo total unread :
  reading c done todo total unread -> same_env c c' -> pos_ok c' -> (exists R, expects c' todo R /\ unparsed c' ++ unread = R) ->
  reading c' done todo total unread.
Proof.
  intros [W1 W2 Wm W3 W4 W5 W6 W7 W8] ((y & Hy) & Hf & Hcmd & Hex & Hre & Hro & Hrr & Hpq & Hfed) Hp He.
  split; rewrite ?Hf, ?Hre, ?Hex; try done. intros Hm. destruct (W8 Hm) as [A1 A2 A3 (x & A4) A5].
  split; rewrite ?Hpq, ?Hfed, ?Hro, ?Hrr, ?Hf; try done. exists (x ++ y). by rewrite A4, Hy, app_assoc.
Qed.

Lemma request_head r tail : bool_decide (head (encode_request r ++ tail) = Some 42) = bool_decide (req_type r = PROTO_REQ_MULTIBULK).
Proof.
  destruct r as [args|args]; [done|]. destruct args as [|a [|b args]]; done.
Qed.

(** The type of the next request is known from its first byte. *)
Lemma typed_request c r done todo total unread :
  reading c done (r :: todo) total unread -> unparsed c <> [] ->
  let c0 := if reqtype c =? 0
            then in_req c (if bool_decide (head (unparsed c) = Some 42) then PROTO_REQ_MULTIBULK else PROTO_REQ_INLINE)
                   (multibulklen c) (bulklen c) else c in
  reading c0 done (r :: todo) total unread /\ reqtype c0 = req_type r /\ unparsed c0 = unparsed c.
Proof.
  intros Hr Hne. cbv zeta. destruct (rd_state _ _ _ _ _ Hr) as (R & He & HR).
  assert (reqtype c = 0 \/ reqtype c = req_type r) as [E|E].
  { inversion He; subst; [by left|by right|by right]. }
  - rewrite E. cbn [Z.eqb].
    assert (idle c /\ R = encode_requests (r :: todo)) as [Hid ->].
    { inversion He as [? ? ?|? ? Ht|? ? ? ? Ht]; subst; [done|by destruct r; rewrite E in Ht|by rewrite E in Ht]. }
    assert (bool_decide (head (unparsed c) = Some 42) = bool_decide (req_type r = PROTO_REQ_MULTIBULK)) as ->.
    { rewrite <-(request_head r (encode_requests todo)), <-encode_cons, <-HR. by destruct (unparsed c). }
    set (c0 := in_req _ _ _ _). assert (reqtype c0 = req_type r) as Ht by (by destruct r).
    split; [|split; [done|done]]. apply (reading_same c); [done|split; [by exists []|done]|by apply (rd_pos _ _ _ _ _ Hr)|].
    eexists. split; [by apply ex_start|done].
  - assert (reqtype c =? 0 = false) as -> by (rewrite E; by destruct r). done.
Qed.

(** The request [r] has not arrived completely. *)
Lemma incomplete_total c c' r done todo total unread R0 :
  reading c done (r :: todo) total unread -> unparsed c' ++ unread = R0 ++ encode_requests todo ->
  zlen (unparsed c') < zlen R0 -> zlen total < zlen (encode_requests (done ++ [r])).
Proof.
  intros Hr E Hz. pose proof (rd_total _ _ _ _ _ Hr) as Ht. apply (f_equal zlen) in E, Ht.
  replace (done ++ r :: todo) with ((done ++ [r]) ++ todo) in Ht by (by rewrite <-app_assoc).
  rewrite encode_app in Ht. rewrite !zlen_app in E, Ht. lia.
Qed.

Lemma parse_multi c args done todo total unread :
  reading c done (ReqMulti args :: todo) total unread -> reqtype c = PROTO_REQ_MULTIBULK ->
  exists c' ok, processMultibulkBuffer c = Some (c', ok) /\
    if ok : bool then completes c c' args unread (encode_requests todo)
    else reading c' done (ReqMulti args :: todo) total unread /\ zlen total < zlen (encode_requests (done ++ [ReqMulti args])).
Proof.
  intros Hr Ht. pose proof (rd_pos _ _ _ _ _ Hr) as Hp. destruct (rd_state _ _ _ _ _ Hr) as (R & He & HR).
  pose proof (rd_ok _ _ _ _ _ Hr) as Hok. apply Forall_cons in Hok as [Hok _]. apply bool_decide_eq_true in Hok as [Hn Hargs].
  assert (forall c', waits c c' args unread (encode_requests todo) ->
    reading c' done (ReqMulti args :: todo) total unread /\ zlen total < zlen (encode_requests (done ++ [ReqMulti args]))) as Hwait.
  { intros c' (Hs & Hp' & Hrt & read & rest & R' & -> & Hne & Hmid & HR' & Hz). split; [|by eapply incomplete_total].
    eapply reading_same; [done|done|done|]. eexists. split; [|exact HR']. apply ex_mid; [congruence|done|done|done]. }
  revert HR. inversion He as [? H0|? ? ? Hid|read rest R0 ? _ Hl Hne Hmid]; subst; intros HR; [by rewrite H0 in Ht| |].
  - destruct (processMultibulk_start c args unread (encode_requests todo) Hp Hid Hn Hargs HR) as (c' & ok & E & Hx).
    exists c', ok. split; [done|]. destruct ok; [done|]. destruct Hx as [Hx|[-> Hx]]; [by apply Hwait|].
    split; [done|]. exact (incomplete_total c c _ _ _ _ _ (encode_request (ReqMulti args)) Hr HR Hx).
  - destruct (processMultibulk_resume c read rest R0 unread (encode_requests todo) Hp Hne Hmid HR) as (c' & ok & E & Hx).
    exists c', ok. split; [done|]. destruct ok; [done|]. by apply Hwait.
Qed.

Lemma parse_inline c args done todo total unread :
  reading c done (ReqInline args :: todo) total unread -> reqtype c = PROTO_REQ_INLINE ->
  exists c' ok, processInlineBuffer c = (c', ok) /\
    if ok : bool then completes c c' args unread (encode_requests todo)
    else reading c' done (ReqInline args :: todo) total unread /\ zlen total < zlen (encode_requests (done ++ [ReqInline args])).
Proof.
  intros Hr Ht. pose proof (rd_pos _ _ _ _ _ Hr) as Hp. destruct (rd_state _ _ _ _ _ Hr) as (R & He & HR).
  pose proof (rd_ok _ _ _ _ _ Hr) as Hok. apply Forall_cons in Hok as [Hok _].
  revert HR. inversion He as [? H0|? ? ? Hid|]; subst; intros HR; [by rewrite H0 in Ht|].
  destruct (processInline_spec c args unread (encode_requests todo) Hp Hid Hok HR) as (c' & ok & E & Hx).
  exists c', ok. split; [done|]. destruct ok; [done|]. destruct Hx as [-> Hx]. split; [done|].
  exact (incomplete_total c c _ _ _ _ _ (encode_request (ReqInline args)) Hr HR Hx).
Qed.

(** The rest of a turn of the loop, once a request was read. *)
Lemma turn_spec c c1 r done todo total unread (next : in_client -> option (in_client * bool)) :
  reading c done (r :: todo) total unread -> completes c c1 (request_args r) unread (encode_requests todo) ->
  exists c2, (if (length (argv c1) =? 0)%nat then next (resetClient c1)
     else if fhas (flags c1) CLIENT_PENDING_READ then Some (in_flags c1 (fset (flags c1) CLIENT_PENDING_COMMAND), true)
     else let '(c, valid) := processCommandAndResetClient c1 in
          if negb valid then Some (c, false) else next c) = next c2 /\
    reading c2 (done ++ [r]) todo total unread /\ (length (unparsed c2) < length (unparsed c))%nat.
Proof.
  intros Hr Hc. pose proof (read_request c c1 r done todo total unread Hr Hc) as (_ & H2 & _ & _ & _ & _ & _ & Ha & _ & Hl & _).
  rewrite Ha. destruct (Nat.eqb_spec (length (request_args r)) 0) as [E|E].
  - apply length_zero_iff_nil in E. exists (resetClient c1). split; [done|]. split; [by eapply skip_request|done].
  - assert (request_args r <> []) as Hne by (intros H; by rewrite H in E).
    destruct (calm_not_stopped c1 H2) as [_ ->].
    destruct (exec_request c c1 r done todo total unread Hr Hc Hne) as (c2 & -> & Hr2 & Hu). exists c2. split; [done|].
    split; [done|]. by rewrite Hu.
Qed.

(** The next request, if there is one, is not complete in [total]. *)
Definition incomplete (done todo : list request) (total : bytes) : Prop :=
  forall r rest, todo = r :: rest -> zlen total < zlen (encode_requests (done ++ [r])).

Lemma input_loop_spec fuel : forall c done todo total unread,
  reading c done todo total unread -> (length (unparsed c) < fuel)%nat ->
  exists c' done' todo', input_loop fuel c = Some (c', true) /\ done ++ todo = done' ++ todo' /\
    reading c' done' todo' total unread /\ incomplete done' todo' total.
Proof.
  induction fuel as [|fuel IH]; intros c done todo total unread Hr Hf; [lia|]. cbn [input_loop].
  pose proof (rd_pos _ _ _ _ _ Hr) as Hp. destruct (rd_state _ _ _ _ _ Hr) as (R & He & HR).
  assert (zlen (unparsed c) = zlen (querybuf c) - qb_pos c) as Hz.
  { unfold unparsed. rewrite zlen_drop_max. unfold pos_ok in Hp. lia. }
  destruct (Z.ltb_spec (qb_pos c) (zlen (querybuf c))) as [Hlt|Hge]; cbn [negb].
  2: { exists c, done, todo. split_and!; try done. intros r rest ->.
       assert (unparsed c = []) as E by (apply zlen_0_inv; unfold pos_ok in Hp; lia).
       assert (exists R0, R = R0 ++ encode_requests rest /\ R0 <> []) as (R0 & -> & Hne) by (by eapply expects_split).
       eapply incomplete_total; [done|exact HR|]. rewrite E, zlen_nil. destruct R0; [done|]. rewrite zlen_cons. pose proof (zlen_nonneg R0). lia. }
  assert (unparsed c <> []) as Hne by (intros E; rewrite E, zlen_nil in Hz; lia).
  destruct (calm_not_stopped c (rd_calm _ _ _ _ _ Hr)) as [-> _].
  destruct todo as [|r todo].
  { apply expects_nil in He as (-> & _). apply app_eq_nil in HR as [HR _]. done. }
  destruct (typed_request c r done todo total unread Hr Hne) as (Hr0 & Ht0 & Hu0).
  set (c0 := if reqtype c =? 0 then _ else c) in *. cbv zeta.
  destruct r as [args|args]; rewrite Ht0; cbn [req_type].
  - destruct (parse_multi c0 args done todo total unread Hr0 Ht0) as (c1 & ok & -> & H). cbn [mbind option_bind].
    change (PROTO_REQ_MULTIBULK =? PROTO_REQ_INLINE) with false. change (PROTO_REQ_MULTIBULK =? PROTO_REQ_MULTIBULK) with true. cbv iota.
    destruct ok; cbn [negb]; [|destruct H; exists c1, done, (ReqMulti args :: todo); split_and!; try done; by intros ? ? [= <- <-]].
    destruct (turn_spec c0 c1 (ReqMulti args) done todo total unread (input_loop fuel) Hr0 H) as (c2 & -> & Hr2 & Hl2).
    rewrite Hu0 in Hl2. destruct (IH _ _ _ _ _ Hr2) as (c3 & d3 & t3 & E & E3 & H3); [lia|].
    exists c3, d3, t3. split; [done|]. split; [by rewrite <-E3, <-app_assoc|done].
  - destruct (parse_inline c0 args done todo total unread Hr0 Ht0) as (c1 & ok & -> & H).
    change (PROTO_REQ_INLINE =? PROTO_REQ_INLINE) with true. cbv iota.
    destruct ok; cbn [negb]; [|destruct H; exists c1, done, (ReqInline args :: todo); split_and!; try done; by intros ? ? [= <- <-]].
    assert (gopher_request c1 = false) as ->.
    { pose proof (rd_ok _ _ _ _ _ Hr) as Hok. apply Forall_cons in Hok as [Hok _]. unfold request_ok in Hok.
      apply andb_true_iff in Hok as [_ Hok]. unfold gopher_request. by destruct gopher_enabled. }
    destruct (turn_spec c0 c1 (ReqInline args) done todo total unread (input_loop fuel) Hr0 H) as (c2 & -> & Hr2 & Hl2).
    rewrite Hu0 in Hl2. destruct (IH _ _ _ _ _ Hr2) as (c3 & d3 & t3 & E & E3 & H3); [lia|].
    exists c3, d3, t3. split; [done|]. split; [by rewrite <-E3, <-app_assoc|done].
Qed.

(** ** Streams cut into reads *)

(** The buffer starts at what is to be parsed: so it is between two reads. *)
Definition trimmed (c : in_client) : Prop := qb_pos c = 0.

Lemma trimmed_unparsed c : trimmed c -> unparsed c = querybuf c.
Proof. unfold trimmed, unparsed. by intros ->. Qed.

Lemma processInputBuffer_spec c done todo total unread :
  reading c done todo total unread ->
  exists c' done' todo', processInputBuffer c = Some (c', true) /\ done ++ todo = done' ++ todo' /\
    reading c' done' todo' total unread /\ trimmed c' /\ incomplete done' todo' total.
Proof.
  intros Hr. unfold processInputBuffer. pose proof (rd_pos _ _ _ _ _ Hr) as Hp.
  destruct (input_loop_spec (S (length (querybuf c))) c done todo total unread Hr) as (c' & d & t & -> & E & Hr' & Hx).
  { unfold unparsed. rewrite length_drop. lia. }
  cbn [mbind option_bind negb]. destruct (Z.eqb_spec (qb_pos c') 0) as [Hq|Hq]; cbn [negb].
  { by exists c', d, t. }
  exists (in_buf c' (unparsed c') 0), d, t. split_and!; try done.
  apply (reading_same c'); [done|split; [by exists []|done]| |].
  - unfold pos_ok. simpl. pose proof (zlen_nonneg (unparsed c')). lia.
  - destruct (rd_state _ _ _ _ _ Hr') as (R & He & HR). exists R. split; [|exact HR]. destruct He; by constructor.
Qed.

Lemma bulks_app a b : bulks (a ++ b) = bulks a ++ bulks b.
Proof. unfold bulks. by rewrite fmap_app, join_app. Qed.

Lemma expects_length c todo R : expects c todo R -> zlen R <= zlen (encode_requests todo).
Proof.
  intros He. destruct He as [todo _ _|r todo _ _|read rest R todo _ _ _ (_ & _ & _ & Hm)]; [lia|lia|].
  rewrite encode_cons, zlen_app. cbn [encode_request]. rewrite bulks_app, !zlen_app.
  pose proof (zlen_nonneg (header 42 (zlen read + zlen rest))). pose proof (zlen_nonneg (bulks read)).
  destruct Hm as [[_ ->]|(a & rest' & -> & _ & ->)]; [lia|].
  change (bulks (a :: rest')) with (bulk_string a ++ bulks rest'). unfold bulk_string. rewrite !zlen_app.
  pose proof (zlen_nonneg (header 36 (zlen a))). lia.
Qed.

Definition read_chunk (c : in_client) (b : bytes) : option (in_client * bool) :=
  readQueryFromClient false (fun _ => ReadBytes b) c.

Lemma read_chunk_spec c b done todo total unread :
  reading c done todo total (b ++ unread) -> trimmed c -> zlen (encode_requests (done ++ todo)) <= client_max_querybuf_len ->
  exists c' done' todo', read_chunk c b = Some (c', true) /\ done ++ todo = done' ++ todo' /\
    reading c' done' todo' (total ++ b) unread /\ trimmed c' /\ incomplete done' todo' (total ++ b).
Proof.
  intros [W1 W2 Wm (R & He & HR) W4 W5 W6 W7 W8] Ht Hmax. unfold read_chunk, readQueryFromClient, postponeClientRead. cbn [andb].
  set (c0 := in_peak c _). change (flags c0) with (flags c).
  set (c1 := if fhas (flags c) CLIENT_MASTER then in_repl c0 _ _ _ _ else c0).
  assert (querybuf c1 = querybuf c /\ qb_pos c1 = qb_pos c /\ flags c1 = flags c /\ executed c1 = executed c /\ replies c1 = replies c /\
    reqtype c1 = reqtype c /\ multibulklen c1 = multibulklen c /\ bulklen c1 = bulklen c /\ argv c1 = argv c)
    as (E1 & E2 & E3 & E4 & E5 & E6 & E7 & E8 & E9) by (unfold c1; by destruct (fhas (flags c) CLIENT_MASTER)).
  set (c2 := in_buf c1 (querybuf c1 ++ b) (qb_pos c1)).
  assert (unparsed c2 = unparsed c ++ b) as Hu2.
  { unfold c2, unparsed. simpl. rewrite E1, E2, drop_app_le; [done|]. unfold pos_ok, zlen in W1. lia. }
  assert (zlen (querybuf c2) <= client_max_querybuf_len) as Hlen.
  { assert (querybuf c2 = unparsed c2) as -> by (unfold unparsed, c2; simpl; by rewrite E2, Ht).
    rewrite Hu2. apply expects_length in He. rewrite <-HR, !zlen_app in He. rewrite zlen_app. rewrite encode_app, zlen_app in Hmax.
    pose proof (zlen_nonneg unread). pose proof (zlen_nonneg (encode_requests done)). lia. }
  destruct (zlen (querybuf c2) >? client_max_querybuf_len) eqn:Eq; [lia|].
  apply processInputBuffer_spec. split.
  - unfold pos_ok, c2. simpl. rewrite E1, E2, zlen_app. unfold pos_ok in W1. pose proof (zlen_nonneg b). lia.
  - change (calm (flags c1)). by rewrite E3.
  - change (flags c2) with (flags c1). by rewrite E3.
  - exists R. split; [|by rewrite Hu2, <-app_assoc].
    assert (idle c -> idle c2) as Hid by (unfold idle, c2; simpl; by rewrite E7, E8, E9).
    change (reqtype c1) with (reqtype c2) in E6.
    destruct He as [t H0 Hi|r t H0 Hi|rd rs R0 t H0 Hl Hn Hm].
    + apply ex_idle; [by rewrite E6|by apply Hid].
    + apply ex_start; [by rewrite E6|by apply Hid].
    + apply ex_mid; [by rewrite E6|done|done|]. unfold mid, c2 in *. simpl. by rewrite E7, E8, E9.
  - change (flags c2) with (flags c1). by rewrite E3.
  - change (replies c2) with (replies c1). by rewrite E5.
  - change (executed c2) with (executed c1). by rewrite E4.
  - by rewrite <-app_assoc.
  - change (flags c2) with (flags c1). rewrite E3. intros Hm. destruct (W8 Hm) as [A1 A2 A3 (x & A4) A5].
    unfold c2, c1 in *. rewrite Hm in *. split; simpl.
    + by rewrite app_assoc, A1.
    + done.
    + rewrite A3, zlen_app. lia.
    + exists x. rewrite A4, <-app_assoc. f_equal. symmetry. exact Hu2.
    + done.
Qed.

Fixpoint feed (c : in_client) (chunks : list bytes) : option in_client :=
  match chunks with
  | [] => Some c
  | b :: chunks => '(c, valid) ← read_chunk c b; if negb valid then None else feed c chunks
  end.

Definition fresh_client (f : Z) : in_client := mk_in f [] 0 0 0 (-1) [] 0 None base base [] 0 0 [] [] [].

Lemma fresh_reading f reqs :
  calm f -> fhas f CLIENT_MASTER = m -> Forall (fun r => request_ok (fhas f CLIENT_MASTER) r = true) reqs ->
  reading (fresh_client f) [] reqs [] (encode_requests reqs).
Proof.
  intros Hf Hm Hok. split; try done.
  - eexists. split; [by apply ex_idle|done].
  - intros _. split; simpl; try done.
    + unfold zlen. simpl. lia.
    + unfold zlen. simpl. lia.
    + by exists [].
    + by exists [], [].
Qed.

Lemma feed_spec chunks : forall c done todo total unread,
  reading c done todo total (mjoin chunks ++ unread) -> trimmed c ->
  zlen (encode_requests (done ++ todo)) <= client_max_querybuf_len -> chunks <> [] ->
  exists c' done' todo', feed c chunks = Some c' /\ done ++ todo = done' ++ todo' /\
    reading c' done' todo' (total ++ mjoin chunks) unread /\ trimmed c' /\ incomplete done' todo' (total ++ mjoin chunks).
Proof.
  induction chunks as [|b chunks IH]; intros c done todo total unread Hr Ht Hm Hne; [by destruct Hne|].
  change (mjoin (b :: chunks)) with (b ++ mjoin chunks) in *. rewrite <-app_assoc in Hr.
  destruct (read_chunk_spec c b done todo total (mjoin chunks ++ unread) Hr Ht Hm) as (c1 & d1 & t1 & E & Ed & Hr1 & Ht1 & Hx).
  cbn [feed]. rewrite E. cbn [mbind option_bind negb]. destruct chunks as [|b2 chunks].
  - exists c1, d1, t1. simpl. rewrite app_nil_r. done.
  - rewrite Ed in Hm. destruct (IH c1 d1 t1 (total ++ b) unread Hr1 Ht1 Hm) as (c2 & d2 & t2 & E2 & Ed2 & H2); [done|].
    exists c2, d2, t2. split; [done|]. split; [congruence|]. by rewrite app_assoc.
Qed.

(** What was read is the complete requests and a part of the next one. *)
Lemma reading_total c done todo total unread :
  reading c done todo total unread -> exists x, total = encode_requests done ++ x /\ x ++ unread = encode_requests todo.
Proof.
  intros Hr. pose proof (rd_total _ _ _ _ _ Hr) as Ht. destruct (rd_state _ _ _ _ _ Hr) as (R & He & HR).
  rewrite encode_app in Ht. apply expects_length in He. rewrite <-HR, zlen_app in He. pose proof (zlen_nonneg (unparsed c)).
  apply app_eq_inv in Ht as [(k & -> & ->)|(k & E & ->)]; [by exists k|].
  assert (k = []) as ->. { apply zlen_0_inv. rewrite zlen_app in He. pose proof (zlen_nonneg k). lia. }
  rewrite app_nil_r in E. exists []. by rewrite app_nil_r, E.
Qed.

End mode.

(** C2: However the bytes of a stream of requests, multibulk and inline, are
    cut into reads, no error is raised and exactly the commands of the requests
    that arrived completely were executed, in order and with their arguments;
    between two requests nothing is left in the buffer or in the parser. *)
Theorem requests_any_fragmentation f reqs chunks unread :
  calm f -> Forall (fun r => request_ok (fhas f CLIENT_MASTER) r = true) reqs ->
  zlen (encode_requests reqs) <= client_max_querybuf_len ->
  chunks <> [] -> mjoin chunks ++ unread = encode_requests reqs ->
  exists c' done todo x, feed (fresh_client f) chunks = Some c' /\ reqs = done ++ todo /\
    mjoin chunks = encode_requests done ++ x /\
    match todo with [] => x = [] | r :: _ => zlen x < zlen (encode_request r) end /\
    executed c' = commands done /\ replies c' = [] /\
    (todo = [] -> querybuf c' = [] /\ idle c').
Proof.
  intros Hf Hok Hmax Hne E. pose proof (fresh_reading _ f reqs Hf eq_refl Hok) as Hr. rewrite <-E in Hr.
  destruct (feed_spec _ chunks (fresh_client f) [] reqs [] unread Hr) as (c' & d & t & Ef & Ed & Hr' & Ht & Hi); try done.
  simpl in *. destruct (reading_total _ c' d t _ _ Hr') as (x & Ex & Exu). exists c', d, t, x.
  destruct (rd_state _ _ _ _ _ _ Hr') as (R & He & HR). split_and!; try done.
  - destruct t as [|r t]; [by apply app_eq_nil in Exu as [-> _]|]. specialize (Hi r t eq_refl).
    rewrite encode_app, Ex, !zlen_app in Hi. unfold encode_requests at 3 in Hi. simpl in Hi. rewrite app_nil_r in Hi. lia.
  - apply (rd_executed _ _ _ _ _ _ Hr').
  - apply (rd_replies _ _ _ _ _ _ Hr').
  - intros ->. apply expects_nil in He as (-> & _ & Hid). apply app_eq_nil in HR as [HR _].
    split; [|done]. by rewrite <-trimmed_unparsed.
Qed.

(** C12: For a master, at any point of its stream: the bytes handed to the
    sub-replicas and the bytes still pending are what was read, the offset is
    that of the bytes handed on, these are whole requests, and they are all the
    commands executed unless a transaction is open. *)
Theorem master_stream_applied f reqs chunks unread :
  calm f -> fhas f CLIENT_MASTER = true -> Forall (fun r => request_ok true r = true) reqs ->
  zlen (encode_requests reqs) <= client_max_querybuf_len ->
  chunks <> [] -> mjoin chunks ++ unread = encode_requests reqs ->
  exists c' pre post rest, feed (fresh_client f) chunks = Some c' /\ reqs = pre ++ post ++ rest /\
    executed c' = commands (pre ++ post) /\ fed c' = encode_requests pre /\ fed c' ++ pending_querybuf c' = mjoin chunks /\
    reploff c' = base + zlen (fed c') /\ read_reploff c' = base + zlen (mjoin chunks) /\
    (fhas (flags c') CLIENT_MULTI = false -> commands post = []).
Proof.
  intros Hf Hm Hok Hmax Hne E.
  assert (reading true (fresh_client f) [] reqs [] (encode_requests reqs)) as Hr by (apply fresh_reading; [done|done|by rewrite Hm]).
  rewrite <-E in Hr.
  destruct (feed_spec true chunks (fresh_client f) [] reqs [] unread Hr) as (c' & d & t & Ef & Ed & Hr' & Ht & Hi); try done.
  simpl in *. destruct (rd_master _ _ _ _ _ _ Hr' (rd_mode _ _ _ _ _ _ Hr')) as [A1 A2 A3 A4 (pre & post & -> & A6 & A7)].
  exists c', pre, post, t. rewrite app_assoc. split_and!; try done. apply (rd_executed _ _ _ _ _ _ Hr').
Qed.

(** ** Arbitrary input *)

(** What the comment of processCommand promises: C_ERR is returned only for a
    client that was destroyed, or that is to be closed, as after QUIT.  A command
    may block its client, close it or destroy it. *)
Definition valid_command : Prop := forall f args,
  match processCommand f args with
  | (_, f', ok, dead) => ok = false -> dead = true \/ fhas f' (Z.lor CLIENT_CLOSE_AFTER_REPLY CLIENT_CLOSE_ASAP) = true
  end.

(** A gopher request is answered without touching the query buffer. *)
Definition gopher_only_replies : Prop := forall c,
  querybuf (processGopherRequest c) = querybuf c /\ qb_pos (processGopherRequest c) = qb_pos c /\
  replies (processGopherRequest c) = replies c.

(** Reads until the client is destroyed; the flag tells whether it still exists. *)
Fixpoint serve (c : in_client) (chunks : list bytes) : option (in_client * bool) :=
  match chunks with
  | [] => Some (c, true)
  | b :: chunks => '(c, valid) ← read_chunk c b; if negb valid then Some (c, false) else serve c chunks
  end.

(** Nothing more is read or executed. *)
Definition stopped (c : in_client) : Prop := input_stopped c = true.

(** The parser between two steps, on input of any kind. *)
Record parsing (c : in_client) : Prop := {
  pa_pos : pos_ok c;
  pa_replies : replies c = [];
  pa_type : reqtype c = 0 /\ idle c \/ reqtype c = PROTO_REQ_INLINE /\ idle c \/
    reqtype c = PROTO_REQ_MULTIBULK /\ -1 <= bulklen c < 2 ^ 63 /\ (0 < multibulklen c \/ idle c /\ head (unparsed c) = Some 42);
}.

(** At most one error was queued, and then the client is closing. *)
Definition sane (c : in_client) : Prop := pos_ok c /\ (parsing c \/ stopped c /\ (length (replies c) <= 1)%nat).

Lemma error_stopped c msg : pos_ok c -> replies c = [] -> sane (protocol_error c msg).
Proof.
  intros Hp Hr. split; [done|]. right. split; [|simpl; by rewrite Hr]. unfold stopped, input_stopped, protocol_error, setProtocolError. simpl.
  assert (fhas (fset (flags c) (Z.lor CLIENT_CLOSE_AFTER_REPLY CLIENT_PROTOCOL_ERROR)) (Z.lor CLIENT_CLOSE_AFTER_REPLY CLIENT_CLOSE_ASAP) = true) as ->;
    [|by rewrite orb_true_r].
  unfold fhas, fset. apply negb_true_iff, Z.eqb_neq. intros H. apply (f_equal (fun z => Z.testbit z 6)) in H.
  rewrite Z.land_spec, Z.lor_spec in H. simpl in H. by rewrite orb_true_r in H.
Qed.

Lemma strchr_lt s ch n : strchr s ch = Some n -> (n < length s)%nat.
Proof.
  revert n. induction s as [|b s IH]; intros n; simpl; [done|]. destruct (b =? ch); [intros [= <-]; lia|].
  destruct (b =? 0); [done|]. destruct (strchr s ch) as [k|]; [|done]. simpl. intros [= <-]. specialize (IH k eq_refl). lia.
Qed.

Lemma read_line_ok s ll next : read_line s = LineOk ll next -> (1 < next)%nat /\ Z.of_nat next <= zlen s /\ in_s 64 ll.
Proof.
  unfold read_line. destruct (strchr s 13) as [n|] eqn:En; [|done]. destruct (Z.of_nat n >? zlen s - 2) eqn:E; [done|].
  destruct (string2ll _) as [v|] eqn:Ev; [|done]. intros [= <- <-]. apply print_string2ll in Ev as [_ Hv]. lia.
Qed.

(** One step of the loop over the arguments never needs more than it has. *)
Lemma read_bulklen_any c :
  pos_ok c -> -1 <= bulklen c < 2 ^ 63 -> replies c = [] ->
  match read_bulklen c with
  | inl c' => c' = c \/ sane c' /\ stopped c'
  | inr c' => flags c' = flags c /\ replies c' = replies c /\ reqtype c' = reqtype c /\ multibulklen c' = multibulklen c /\
      pos_ok c' /\ 0 <= bulklen c' < 2 ^ 63 /\ zlen (unparsed c') <= zlen (unparsed c)
  end.
Proof.
  intros Hp Hb Hr. assert (forall msg, sane (protocol_error c msg) /\ stopped (protocol_error c msg)) as Herr.
  { intros msg. destruct (error_stopped c msg Hp Hr) as [H1 [H2|H2]]; [|split; [|by destruct H2]].
    - apply pa_replies in H2. simpl in H2. by rewrite Hr in H2.
    - split; [done|by right]. }
  unfold read_bulklen. destruct (Z.eqb_spec (bulklen c) (-1)) as [E|E]; cbn [negb].
  2: { split_and!; try done; lia. }
  destruct (read_line (unparsed c)) as [| | |ll next] eqn:El.
  - destruct (_ >? _); [by right|by left].
  - by left.
  - destruct (negb _); by right.
  - destruct (negb _); [by right|]. destruct (_ || _) eqn:Eg; [by right|]. apply orb_false_iff in Eg as [Eg _].
    apply read_line_ok in El as (Hn1 & Hn2 & Hll).
    destruct (unparsed_advance c (Z.of_nat next) Hp) as [Hp1 U1]; [lia|].
    set (c1 := in_buf c (querybuf c) (qb_pos c + Z.of_nat next)) in *.
    assert (zlen (unparsed c1) <= zlen (unparsed c)) as Hz by (rewrite U1, zlen_drop_max; lia).
    destruct (_ && _); split_and!; try done; try (simpl; lia).
    + unfold pos_ok. simpl. pose proof (zlen_nonneg (unparsed c1)). lia.
Qed.

Lemma read_bulk_any c :
  pos_ok c -> 0 <= bulklen c < 2 ^ 63 -> zlen (unparsed c) <? u64 (bulklen c + 2) = false ->
  pos_ok (read_bulk c) /\ flags (read_bulk c) = flags c /\ replies (read_bulk c) = replies c /\ reqtype (read_bulk c) = reqtype c /\
  multibulklen (read_bulk c) = multibulklen c - 1 /\ bulklen (read_bulk c) = -1 /\ zlen (unparsed (read_bulk c)) < zlen (unparsed c).
Proof.
  intros Hp Hb Hz. rewrite (uint_small 64 (bulklen c + 2)) in Hz by lia. unfold read_bulk.
  destruct ((qb_pos c =? 0) && _ && _) eqn:E.
  - split; [|split_and!; try done]; simpl.
    + unfold pos_ok. simpl. change (zlen []) with 0. lia.
    + unfold unparsed at 1. simpl. rewrite drop_nil. change (zlen []) with 0. lia.
  - destruct (unparsed_advance c (bulklen c + 2) Hp) as [Hp1 U1]; [lia|]. rewrite Z.add_assoc in *.
    split; [exact Hp1|split_and!; try done]. replace (unparsed (in_req _ _ _ _)) with (drop (Z.to_nat (bulklen c + 2)) (unparsed c)) by exact (eq_sym U1).
    rewrite zlen_drop_max. lia.
Qed.

(** A request was read: only the buffer matters from here on. *)
Definition got_request (c c' : in_client) : Prop :=
  pos_ok c' /\ flags c' = flags c /\ replies c' = [] /\ zlen (unparsed c') < zlen (unparsed c).

Lemma multibulk_loop_any n : forall c,
  parsing c -> reqtype c = PROTO_REQ_MULTIBULK -> multibulklen c = Z.of_nat (S n) ->
  exists c' ok, multibulk_loop (S n) c = (c', ok) /\ if ok : bool then got_request c c' else sane c'.
Proof.
  induction n as [|n IH]; intros c Hpa Ht Hm; pose proof Hpa as [Hp Hr Hty];
    (assert (-1 <= bulklen c < 2 ^ 63) as Hb by (rewrite Ht in Hty; destruct Hty as [[? _]|[[? _]|(_ & ? & _)]]; done));
    cbn [multibulk_loop]; pose proof (read_bulklen_any c Hp Hb Hr) as Hrb;
    (destruct (read_bulklen c) as [c1|c1];
      [exists c1, false; split; [done|]; destruct Hrb as [->|[? _]]; [split; [done|by left]|done]|]);
    destruct Hrb as (F1 & R1 & T1 & M1 & P1 & B1 & Z1);
    (destruct (zlen (unparsed c1) <? u64 (bulklen c1 + 2)) eqn:Ez;
      [exists c1, false; split; [done|]; split; [done|left]; split; rewrite ?F1, ?R1; try done;
        do 2 right; rewrite T1, M1; split_and!; try done; try lia; by left; lia|]);
    destruct (read_bulk_any c1 P1 B1 Ez) as (P2 & F2 & R2 & T2 & M2 & B2 & Z2).
  - exists (read_bulk c1), true. split; [done|]. split_and!; try done; try congruence. lia.
  - destruct (IH (read_bulk c1)) as (c' & ok & E & H).
    + split; rewrite ?F2, ?F1, ?R2, ?R1; try done. do 2 right. rewrite T2, T1, B2, M2, M1, Hm. split_and!; try done; try lia.
    + congruence.
    + rewrite M2, M1, Hm. lia.
    + exists c', ok. split; [exact E|]. destruct ok; [|done]. destruct H as (H1 & H2 & H3 & H4). split_and!; try done; try congruence. lia.
Qed.

Lemma processMultibulk_any c :
  parsing c -> reqtype c = PROTO_REQ_MULTIBULK ->
  exists c' ok, processMultibulkBuffer c = Some (c', ok) /\ if ok : bool then got_request c c' else sane c'.
Proof.
  intros Hpa Ht. pose proof Hpa as [Hp Hr Hty]. unfold processMultibulkBuffer, read_multibulklen.
  assert (-1 <= bulklen c < 2 ^ 63 /\ (0 < multibulklen c \/ idle c /\ head (unparsed c) = Some 42)) as [Hb [Hm|[Hid Hh]]].
  { rewrite Ht in Hty. destruct Hty as [[? _]|[[? _]|(_ & ? & ?)]]; done. }
  - rewrite (proj2 (Z.eqb_neq (multibulklen c) 0)) by lia. cbn [negb mbind option_bind].
    destruct (Z.leb_spec (multibulklen c) 0); [lia|].
    destruct (multibulk_loop_any (Z.to_nat (multibulklen c) - 1) c Hpa Ht) as (c' & ok & E & H'); [lia|].
    replace (S (Z.to_nat (multibulklen c) - 1)) with (Z.to_nat (multibulklen c)) in E by lia. rewrite E. by exists c', ok.
  - pose proof Hid as (Hm & Hbl & Ha). rewrite Hm, Ha. cbn [Z.eqb negb length Nat.eqb].
    assert (sane c) as Hsane by (split; [done|by left]).
    destruct (read_line (unparsed c)) as [| | |ll next] eqn:El.
    + eexists _, false. split; [done|]. simpl. destruct (_ >? _); [by apply error_stopped|done].
    + eexists _, false. split; [done|]. done.
    + rewrite bool_decide_eq_true_2 by done. cbn [negb mbind option_bind]. eexists _, false. split; [done|]. by apply error_stopped.
    + rewrite bool_decide_eq_true_2 by done. cbn [negb]. destruct (ll >? 1024 * 1024).
      { eexists _, false. split; [done|]. by apply error_stopped. }
      apply read_line_ok in El as (Hn1 & Hn2 & Hll). destruct (unparsed_advance c (Z.of_nat next) Hp) as [Hp1 U1]; [lia|].
      set (c1 := in_buf c (querybuf c) (qb_pos c + Z.of_nat next)) in *.
      assert (zlen (unparsed c1) < zlen (unparsed c)) as Hz by (rewrite U1, zlen_drop_max; lia).
      destruct (Z.leb_spec ll 0); cbn [mbind option_bind]; [by exists c1, true|].
      simpl multibulklen. destruct (Z.leb_spec ll 0); [lia|]. set (c2 := in_argv _ _ _ _).
      assert (parsing c2) as Hpa2.
      { split; try done. do 2 right. split; [done|]. split; [done|]. left. simpl. lia. }
      destruct (multibulk_loop_any (Z.to_nat ll - 1) c2 Hpa2 Ht) as (c' & ok & E & H'); [simpl; lia|].
      replace (S (Z.to_nat ll - 1)) with (Z.to_nat ll) in E by lia. rewrite E. exists c', ok. split; [done|].
      destruct ok; [|done]. destruct H' as (H1 & H2 & H3 & H4). split_and!; try done.
      change (unparsed c2) with (unparsed c1) in H4. lia.
Qed.

Lemma processInline_any c :
  parsing c -> reqtype c = PROTO_REQ_INLINE ->
  exists c' ok, processInlineBuffer c = (c', ok) /\ if ok : bool then got_request c c' else sane c'.
Proof.
  intros Hpa Ht. pose proof Hpa as [Hp Hr Hty]. assert (sane c) as Hsane by (split; [done|by left]).
  unfold processInlineBuffer. destruct (strchr (unparsed c) 10) as [n|] eqn:En.
  2: { eexists _, false. split; [done|]. destruct (_ >? _); [by apply error_stopped|done]. }
  cbv zeta. set (cr := _ && bool_decide _). apply strchr_lt in En.
  destruct (sdssplitargs _) as [args|]; [|eexists _, false; split; [done|by apply error_stopped]].
  set (ql := if cr then (n - 1)%nat else n). set (c1 := if (ql =? 0)%nat && _ then _ else c).
  assert (flags c1 = flags c /\ replies c1 = replies c /\ pos_ok c1 /\ unparsed c1 = unparsed c /\ reqtype c1 = reqtype c /\
    parsing c1) as (F1 & R1 & P1 & U1 & T1 & Pa1).
  { unfold c1. destruct ((ql =? 0)%nat && is_slave (flags c)); (split_and!; try done). }
  destruct (_ && fhas (flags c1) CLIENT_MASTER).
  { exists (setProtocolError c1), false. split; [done|]. destruct (error_stopped c1 [] P1) as [_ H]; [congruence|].
    split; [done|right]. destruct H as [H|[H _]]; [by apply pa_replies in H; simpl in H; destruct (replies c1)|].
    split; [exact H|]. simpl. rewrite R1, Hr. simpl. lia. }
  eexists _, true. split; [done|].
  assert (1 <= Z.of_nat ql + (if cr then 2 else 1) <= zlen (unparsed c1)) as Hk.
  { rewrite U1. unfold ql, zlen. destruct cr eqn:Ecr; [|lia]. apply andb_true_iff in Ecr as [Ecr _]. apply Nat.ltb_lt in Ecr. lia. }
  destruct (unparsed_advance c1 (Z.of_nat ql + (if cr then 2 else 1)) P1) as [P2 U2]; [lia|]. rewrite Z.add_assoc in P2, U2.
  split_and!; try done; [simpl; congruence|]. replace (unparsed (in_argv _ _ _ _)) with (drop (Z.to_nat (Z.of_nat ql + (if cr then 2 else 1))) (unparsed c1))
    by exact (eq_sym U2). rewrite zlen_drop_max. rewrite U1 in *. lia.
Qed.

Context (commands_valid : valid_command) (gopher_safe : gopher_only_replies).

(** The end of the loop: a client that still exists is sane, and one that was
    destroyed had been sent at most one error. *)
Definition outcome (c : in_client) (valid : bool) : Prop := if valid then sane c else (length (replies c) <= 1)%nat.

Lemma fset_fhas f m : m <> 0 -> fhas (fset f m) m = true.
Proof.
  intros Hm. unfold fhas, fset. apply negb_true_iff, Z.eqb_neq. rewrite Z.land_lor_distr_l, Z.land_diag. intros E.
  by apply Z.lor_eq_0_iff in E as [_ ?].
Qed.

Lemma reset_parsing c : pos_ok c -> replies c = [] -> parsing (resetClient c).
Proof. intros Hp Hr. split; [done|done|]. left. by split_and!. Qed.

(** Between two requests: ready for the next one, or stopped. *)
Definition ready (c : in_client) : Prop := pos_ok c /\ replies c = [] /\ (parsing c \/ stopped c).

Lemma ready_sane c : ready c -> sane c.
Proof. intros (Hp & Hr & [H|H]); split; [done|by left|done|right]. rewrite Hr. simpl. split; [done|lia]. Qed.

Lemma blocked_stopped c : fhas (flags c) CLIENT_BLOCKED = true -> stopped c.
Proof. unfold stopped, input_stopped. by intros ->. Qed.

Lemma closing_stopped c : fhas (flags c) (Z.lor CLIENT_CLOSE_AFTER_REPLY CLIENT_CLOSE_ASAP) = true -> stopped c.
Proof. unfold stopped, input_stopped. intros ->. by rewrite orb_true_r. Qed.

Lemma processed_any c :
  pos_ok c -> replies c = [] -> ready (commandProcessed c) /\ unparsed (commandProcessed c) = unparsed c.
Proof.
  intros Hp Hr. unfold commandProcessed. set (c1 := if _ && _ then in_repl _ _ _ _ _ else c).
  assert (flags c1 = flags c /\ pos_ok c1 /\ replies c1 = [] /\ unparsed c1 = unparsed c) as (F1 & P1 & R1 & U1).
  { unfold c1. by destruct (_ && _). }
  rewrite F1. set (c2 := if negb _ then resetClient c1 else c1).
  assert (ready c2 /\ unparsed c2 = unparsed c) as [H2 U2].
  { unfold c2. destruct (fhas (flags c) CLIENT_BLOCKED) eqn:Eb; cbn [negb]; (split; [|exact U1]); (split; [done|split; [done|]]).
    - right. apply blocked_stopped. by rewrite F1.
    - left. by apply reset_parsing. }
  destruct (fhas (flags c2) CLIENT_MASTER); [|done]. destruct (negb (reploff c2 - reploff c =? 0)); (split; [|exact U2]); [|done].
  destruct H2 as (A1 & A2 & [[B1 B2 B3]|A3]); (split; [done|split; [done|]]); [left; by split|by right].
Qed.

(** What follows a request in the loop: the next turn, or the end of the loop. *)
Lemma turn_any c c1 (next : in_client -> option (in_client * bool)) :
  got_request c c1 ->
  (exists c2, (if (length (argv c1) =? 0)%nat then next (resetClient c1)
     else if fhas (flags c1) CLIENT_PENDING_READ then Some (in_flags c1 (fset (flags c1) CLIENT_PENDING_COMMAND), true)
     else let '(c, valid) := processCommandAndResetClient c1 in
          if negb valid then Some (c, false) else next c) = next c2 /\
    ready c2 /\ zlen (unparsed c2) < zlen (unparsed c)) \/
  (exists c2 valid, (if (length (argv c1) =? 0)%nat then next (resetClient c1)
     else if fhas (flags c1) CLIENT_PENDING_READ then Some (in_flags c1 (fset (flags c1) CLIENT_PENDING_COMMAND), true)
     else let '(c, valid) := processCommandAndResetClient c1 in
          if negb valid then Some (c, false) else next c) = Some (c2, valid) /\ outcome c2 valid).
Proof.
  intros (P1 & F1 & R1 & Z1). destruct (length (argv c1) =? 0)%nat.
  { left. exists (resetClient c1). split; [done|]. split; [|done]. split; [done|]. split; [done|]. left. by apply reset_parsing. }
  destruct (fhas (flags c1) CLIENT_PENDING_READ).
  { right. eexists _, true. split; [done|]. apply ready_sane. split; [done|]. split; [done|]. right.
    unfold stopped, input_stopped. simpl. by rewrite fset_fhas, orb_true_r. }
  unfold processCommandAndResetClient. pose proof (commands_valid (flags c1) (argv c1)) as Hv.
  destruct (processCommand (flags c1) (argv c1)) as [[[p f] ok] dead].
  set (c2 := in_flags (in_argv (in_executed c1 (argv c1)) (argv c1) (argv_len_sum c1) (Some p)) f).
  destruct (processed_any c2 P1 R1) as [H2 U2].
  destruct dead; cbn [negb]; [right|left].
  - exists (if ok then commandProcessed c2 else c2), false. split; [done|]. unfold outcome.
    assert (replies (if ok then commandProcessed c2 else c2) = []) as -> by (destruct ok; [apply H2|exact R1]). simpl. lia.
  - eexists. split; [done|]. destruct ok; [split; [done|by rewrite U2]|]. split; [|done]. split; [done|]. split; [done|]. right.
    apply closing_stopped. by destruct (Hv eq_refl).
Qed.

Lemma typed_any c :
  parsing c -> unparsed c <> [] ->
  let c0 := if reqtype c =? 0
            then in_req c (if bool_decide (head (unparsed c) = Some 42) then PROTO_REQ_MULTIBULK else PROTO_REQ_INLINE)
                   (multibulklen c) (bulklen c) else c in
  parsing c0 /\ unparsed c0 = unparsed c /\ (reqtype c0 = PROTO_REQ_INLINE \/ reqtype c0 = PROTO_REQ_MULTIBULK).
Proof.
  intros [Hp Hr Hty] Hne. cbv zeta. destruct Hty as [[-> Hid]|[[E Hid]|(E & H)]].
  - cbn [Z.eqb]. case_bool_decide as Hh; (split; [|split; [done|by (left + right)]]); (split; [done|done|]).
    + do 2 right. split; [done|]. split; [destruct Hid as (_ & E & _); simpl; lia|]. by right.
    + right. by left.
  - rewrite E. change (PROTO_REQ_INLINE =? 0) with false. cbv iota. split; [|by auto]. split; [done|done|by auto].
  - rewrite E. change (PROTO_REQ_MULTIBULK =? 0) with false. cbv iota. split; [|by auto]. split; [done|done|by auto].
Qed.

Lemma input_loop_any fuel : forall c,
  ready c -> (length (unparsed c) < fuel)%nat -> exists c' valid, input_loop fuel c = Some (c', valid) /\ outcome c' valid.
Proof.
  induction fuel as [|fuel IH]; intros c Hre Hf; [lia|]. cbn [input_loop]. pose proof Hre as (Hp & Hr & Hps).
  assert (zlen (unparsed c) = zlen (querybuf c) - qb_pos c) as Hz.
  { unfold unparsed. rewrite zlen_drop_max. unfold pos_ok in Hp. lia. }
  destruct (Z.ltb_spec (qb_pos c) (zlen (querybuf c))) as [Hlt|Hge]; cbn [negb].
  2: { exists c, true. split; [done|by apply ready_sane]. }
  assert (unparsed c <> []) as Hne by (intros E; rewrite E, zlen_nil in Hz; lia).
  destruct (input_stopped c) eqn:Est; [exists c, true; split; [done|by apply ready_sane]|].
  destruct Hps as [Hpa|Hst]; [|unfold stopped in Hst; congruence].
  destruct (typed_any c Hpa Hne) as (Hpa0 & U0 & Ht0). set (c0 := if reqtype c =? 0 then _ else c) in *. cbv zeta.
  assert (forall c1, got_request c0 c1 -> exists c' valid, (if (length (argv c1) =? 0)%nat then input_loop fuel (resetClient c1)
     else if fhas (flags c1) CLIENT_PENDING_READ then Some (in_flags c1 (fset (flags c1) CLIENT_PENDING_COMMAND), true)
     else let '(c, valid) := processCommandAndResetClient c1 in
          if negb valid then Some (c, false) else input_loop fuel c) = Some (c', valid) /\ outcome c' valid) as Hnext.
  { intros c1 H1. destruct (turn_any c0 c1 (input_loop fuel) H1) as [(c2 & -> & H2 & Hz2)|(c2 & v & -> & H2)]; [|by eauto].
    apply IH; [done|]. rewrite U0 in Hz2. unfold zlen in Hz2. lia. }
  destruct Ht0 as [Ht0|Ht0]; rewrite Ht0.
  - destruct (processInline_any c0 Hpa0 Ht0) as (c1 & ok & -> & H). change (PROTO_REQ_INLINE =? PROTO_REQ_INLINE) with true. cbv iota.
    destruct ok; cbn [negb]; [|by exists c1, true]. destruct (gopher_request c1); [|by apply Hnext].
    eexists _, true. split; [done|]. destruct H as (P1 & _ & R1 & _). destruct (gopher_safe c1) as (G1 & G2 & G3).
    assert (pos_ok (processGopherRequest c1) /\ replies (processGopherRequest c1) = []) as [P2 R2]
      by (unfold pos_ok; rewrite G1, G2, G3; done).
    apply ready_sane. split; [done|]. split; [done|]. right. apply closing_stopped. simpl.
    assert (forall x, fhas (fset x CLIENT_CLOSE_AFTER_REPLY) (Z.lor CLIENT_CLOSE_AFTER_REPLY CLIENT_CLOSE_ASAP) = true) as Hcl.
    { intros x. unfold fhas. rewrite negb_true_iff, Z.eqb_neq, Z.land_lor_distr_r. intros [E _]%Z.lor_eq_0_iff.
      pose proof (fset_fhas x CLIENT_CLOSE_AFTER_REPLY ltac:(done)) as H6. unfold fhas in H6. by rewrite E in H6. }
    apply Hcl.
  - destruct (processMultibulk_any c0 Hpa0 Ht0) as (c1 & ok & -> & H). change (PROTO_REQ_MULTIBULK =? PROTO_REQ_INLINE) with false.
    change (PROTO_REQ_MULTIBULK =? PROTO_REQ_MULTIBULK) with true. cbn [mbind option_bind]. cbv iota.
    destruct ok; cbn [negb]; [|by exists c1, true]. by apply Hnext.
Qed.

Lemma fhas_fset f a m : fhas f m = true -> fhas (fset f a) m = true.
Proof.
  unfold fhas, fset. rewrite !negb_true_iff, !Z.eqb_neq, Z.land_lor_distr_l. intros H E. apply Z.lor_eq_0_iff in E. tauto.
Qed.

Lemma stopped_flags c c' : flags c' = flags c -> stopped c -> stopped c'.
Proof. unfold stopped, input_stopped. by intros ->. Qed.

Lemma free_stopped c : stopped c -> stopped (in_freeClientAsync c).
Proof.
  unfold stopped, in_freeClientAsync. destruct (_ || fhas (flags c) CLIENT_LUA); [done|]. unfold input_stopped. simpl. intros H.
  apply orb_true_iff in H as [H|H]; [|by rewrite (fhas_fset _ _ _ H), orb_true_r].
  apply orb_true_iff in H as [H|H]; [|apply andb_true_iff in H as [-> H]; by rewrite (fhas_fset _ _ _ H), !orb_true_r].
  apply orb_true_iff in H as [H|H]; by rewrite (fhas_fset _ _ _ H), ?orb_true_r.
Qed.

Lemma free_same c : replies (in_freeClientAsync c) = replies c /\ executed (in_freeClientAsync c) = executed c /\
  (pos_ok c -> pos_ok (in_freeClientAsync c)).
Proof. unfold in_freeClientAsync. by destruct (_ || _). Qed.

Lemma free_parsing c : parsing c -> sane (in_freeClientAsync c).
Proof.
  intros Hpa. pose proof (pa_pos _ Hpa) as Hp. unfold in_freeClientAsync. destruct (_ || fhas (flags c) CLIENT_LUA); [split; [done|by left]|].
  split; [done|right]. split; [|simpl; rewrite (pa_replies _ Hpa); simpl; lia].
  unfold stopped, input_stopped. simpl. apply orb_true_iff. right. unfold fhas, fset. apply negb_true_iff, Z.eqb_neq.
  intros H. apply (f_equal (fun z => Z.testbit z 10)) in H. rewrite Z.land_spec, Z.lor_spec in H. simpl in H. by rewrite orb_true_r in H.
Qed.

Lemma trim_sane c : sane c -> sane (if negb (qb_pos c =? 0) then in_buf c (unparsed c) 0 else c).
Proof.
  destruct (negb _); [|done]. intros [_ H].
  assert (pos_ok (in_buf c (unparsed c) 0)) as Hp by (unfold pos_ok; simpl; pose proof (zlen_nonneg (unparsed c)); lia).
  split; [done|]. destruct H as [[H1 H2 H3]|H]; [|by right]. left. by split.
Qed.

(** A client that was stopped only buffers. *)
Lemma stopped_input c :
  stopped c -> exists c', processInputBuffer c = Some (c', true) /\ flags c' = flags c /\ replies c' = replies c /\ executed c' = executed c /\
    (pos_ok c -> pos_ok c').
Proof.
  intros Hs. unfold processInputBuffer. cbn [input_loop]. rewrite Hs.
  replace (if negb (qb_pos c <? zlen (querybuf c)) then Some (c, true) else Some (c, true)) with (Some (c, true)) by (by destruct (negb _)).
  cbn [mbind option_bind negb]. eexists. split; [done|]. destruct (negb _); [|done]. split_and!; try done. intros _.
  unfold pos_ok. simpl. pose proof (zlen_nonneg (unparsed c)). lia.
Qed.

(** The bytes of a read are appended to the buffer. *)
Lemma append_any c b :
  let c1 := if fhas (flags c) CLIENT_MASTER
            then in_repl c (reploff c) (read_reploff c + zlen b) (pending_querybuf c ++ b) (fed c) else c in
  let c2 := in_buf c1 (querybuf c1 ++ b) (qb_pos c1) in
  pos_ok c -> flags c2 = flags c /\ replies c2 = replies c /\ executed c2 = executed c /\ pos_ok c2 /\ (parsing c -> parsing c2).
Proof.
  intros c1 c2 Hp. unfold c2, c1, pos_ok.
  assert (unparsed (in_buf c (querybuf c ++ b) (qb_pos c)) = unparsed c ++ b) as Hu.
  { unfold unparsed. simpl. rewrite drop_app_le; [done|]. unfold pos_ok, zlen in Hp. lia. }
  assert (0 <= qb_pos c <= zlen (querybuf c ++ b)) as Hq by (rewrite zlen_app; unfold pos_ok in Hp; pose proof (zlen_nonneg b); lia).
  destruct (fhas (flags c) CLIENT_MASTER); (split_and!; try done; try (simpl; lia)); intros [H1 H3 H4];
    (split; [done|done|]); (destruct H4 as [H4|[H4|(H4 & H5 & [H6|[H6 H7]])]]; [by left|by right; left|by do 2 right; auto|]);
    do 2 right; (split; [done|]); (split; [done|right]); (split; [done|]);
    change (head (unparsed (in_buf c (querybuf c ++ b) (qb_pos c))) = Some 42); rewrite Hu; by destruct (unparsed c).
Qed.

Lemma chunk_any c b :
  sane c ->
  exists c' valid, read_chunk c b = Some (c', valid) /\ outcome c' valid /\
    (stopped c -> valid = true /\ stopped c' /\ replies c' = replies c /\ executed c' = executed c).
Proof.
  intros [Hp Hs]. unfold read_chunk, readQueryFromClient, postponeClientRead. cbn [andb].
  set (c0 := in_peak c _). pose proof (append_any c0 b Hp) as Ha. cbv zeta in Ha.
  set (c1 := if fhas (flags c0) CLIENT_MASTER then in_repl c0 _ _ _ _ else c0) in *. set (c2 := in_buf c1 (querybuf c1 ++ b) (qb_pos c1)) in *.
  destruct Ha as (F2 & R2 & X2 & P2 & Hpa2). change (flags c0) with (flags c) in F2. change (replies c0) with (replies c) in R2.
  change (executed c0) with (executed c) in X2.
  assert (parsing c -> parsing c2) as Hpa2' by (intros [? ? ?]; by apply Hpa2).
  destruct (zlen (querybuf c2) >? client_max_querybuf_len).
  { exists (in_freeClientAsync c2), true. split; [done|]. split.
    + destruct Hs as [Hs|[Hs Hr]]; [by apply free_parsing, Hpa2'|]. destruct (free_same c2) as (H1 & _ & H3).
      split; [by apply H3|right]. split; [apply free_stopped; by eapply stopped_flags|]. by rewrite H1, R2.
    + intros Hst. destruct (free_same c2) as (H1 & H2 & _). rewrite H1, H2. split; [done|].
      split; [apply free_stopped; by eapply stopped_flags|done]. }
  destruct (input_stopped c) eqn:Est.
  - destruct (stopped_input c2) as (c3 & -> & F3 & R3 & X3 & P3); [by eapply stopped_flags|]. exists c3, true. split; [done|].
    assert (stopped c3) as Hs3 by (eapply stopped_flags; [|exact Est]; congruence).
    split; [|intros _; split_and!; congruence || done]. split; [by apply P3|right]. split; [done|]. rewrite R3, R2.
    destruct Hs as [Hs|[_ Hr]]; [rewrite (pa_replies _ Hs); simpl; lia|done].
  - destruct Hs as [Hs|[Hs _]]; [|unfold stopped in Hs; congruence].
    destruct (input_loop_any (S (length (querybuf c2))) c2) as (c3 & v & E & H3).
    { split; [done|]. split; [rewrite R2; apply (pa_replies _ Hs)|left; by apply Hpa2']. }
    { unfold unparsed. rewrite length_drop. lia. }
    unfold processInputBuffer. rewrite E. cbn [mbind option_bind]. destruct v; cbn [negb].
    + eexists _, true. split; [done|]. split; [by apply trim_sane|]. unfold stopped. congruence.
    + exists c3, false. split; [done|]. split; [done|]. unfold stopped. congruence.
Qed.

Lemma serve_any chunks : forall c,
  sane c -> exists c' valid, serve c chunks = Some (c', valid) /\ outcome c' valid /\
    (stopped c -> valid = true /\ replies c' = replies c /\ executed c' = executed c).
Proof.
  induction chunks as [|b chunks IH]; intros c Hs; [by exists c, true|]. cbn [serve].
  destruct (chunk_any c b Hs) as (c1 & v1 & -> & Hs1 & Hst1). cbn [mbind option_bind]. destruct v1; cbn [negb].
  - destruct (IH c1 Hs1) as (c2 & v2 & -> & Hs2 & Hst2). exists c2, v2. split; [done|]. split; [done|].
    intros Hst. destruct (Hst1 Hst) as (_ & H1 & H2 & H3). destruct (Hst2 H1) as (H4 & H5 & H6). split_and!; congruence || done.
  - exists c1, false. split; [done|]. split; [done|]. intros Hst. by destruct (Hst1 Hst).
Qed.

(** C13: No input can fail an assertion of the parser, whatever the bytes,
    however they are cut into reads and whatever the flags of the client, with
    commands that may block, close or destroy it: at most one protocol error is
    replied, a client that was sent one is stopped, and a stopped client (after
    an error, QUIT, a gopher request, or while a command blocks it) executes and
    replies nothing more of what it sends.  The commands are assumed to return
    C_ERR only for a client that is destroyed or to be closed. *)
Theorem hostile_input_safe f chunks :
  exists c valid, serve (fresh_client f) chunks = Some (c, valid) /\ (length (replies c) <= 1)%nat /\
    (valid = true -> replies c <> [] -> input_stopped c = true) /\
    (valid = true -> input_stopped c = true -> forall chunks', exists c', serve c chunks' = Some (c', true) /\
       replies c' = replies c /\ executed c' = executed c).
Proof.
  assert (sane (fresh_client f)) as H0. { split; [done|left]. split; [done|done|by left]. }
  destruct (serve_any chunks _ H0) as (c & v & E & H & _). exists c, v. split; [done|]. split_and!.
  - destruct v; [|done]. destruct H as [_ [H|[_ H]]]; [rewrite (pa_replies _ H); simpl; lia|done].
  - intros -> Hne. destruct H as [_ [H|[H _]]]; [by apply pa_replies in H|done].
  - intros -> Hst chunks'. destruct (serve_any chunks' c H) as (c' & v' & E' & _ & Hs'). destruct (Hs' Hst) as (-> & H2 & H3).
    by exists c'.
Qed.

End resp.

(** ** Witnesses *)

(** MULTI and EXEC open and close a transaction, other commands leave the flags. *)
Definition toy_command (f : Z) (args : list bytes) : command_proc * Z * bool * bool :=
  let f' := if bool_decide (args = [str "MULTI"]) then fset f CLIENT_MULTI
            else if bool_decide (args = [str "EXEC"]) then fclear f CLIENT_MULTI else f in
  (otherCommand, f', true, false).

Lemma toy_calm : calm_command false toy_command.
Proof.
  intros f args [Hf _]. unfold toy_command, calm, fhas. split; [done|]. split; [done|].
  assert (Z.land CLIENT_MULTI STOP_MASK = 0 /\ Z.land CLIENT_MULTI CLIENT_MASTER = 0) as [H1 H2] by (vm_compute; done).
  repeat case_bool_decide; rewrite ?land_set, ?land_clear by done; done.
Qed.

Definition toy_feed : in_client -> list bytes -> option in_client :=
  feed 536870912 1073741824 0 false false false (fun c => c) toy_command.

Definition sample_requests : list request :=
  [ReqMulti [str "SET"; str "k"; [0; 13; 10]]; ReqInline [str "GET"; str "a b"]; ReqInline []; ReqMulti [str "PING"]].

Definition sample_chunks : list bytes :=
  let s := encode_requests sample_requests in [take 9 s; take 1 (drop 9 s); take 40 (drop 10 s)].

Lemma requests_any_fragmentation_witness :
  exists c' done todo x, toy_feed (fresh_client 0 0) sample_chunks = Some c' /\ sample_requests = done ++ todo /\
    mjoin sample_chunks = encode_requests done ++ x /\
    match todo with [] => x = [] | r :: _ => zlen x < zlen (encode_request r) end /\
    executed c' = commands done /\ replies c' = [] /\ (todo = [] -> querybuf c' = [] /\ idle c').
Proof.
  apply (requests_any_fragmentation 536870912 1073741824 0 false false false (fun c => c) toy_command toy_calm 0 0
    sample_requests sample_chunks (drop 50 (encode_requests sample_requests))).
  - split; reflexivity.
  - repeat (constructor; [vm_compute; reflexivity|]). constructor.
  - vm_compute. discriminate.
  - discriminate.
  - vm_compute. reflexivity.
Defined.

Definition master_requests : list request :=
  [ReqMulti [str "SELECT"; str "0"]; ReqInline []; ReqMulti [str "MULTI"]; ReqMulti [str "INCR"; str "k"]; ReqMulti [str "EXEC"]].

Definition master_chunks : list bytes := let s := encode_requests master_requests in [take 30 s; take 40 (drop 30 s)].

Lemma master_stream_applied_witness :
  exists c' pre post rest, toy_feed (fresh_client 100 CLIENT_MASTER) master_chunks = Some c' /\
    master_requests = pre ++ post ++ rest /\
    executed c' = commands (pre ++ post) /\ fed c' = encode_requests pre /\ fed c' ++ pending_querybuf c' = mjoin master_chunks /\
    reploff c' = 100 + zlen (fed c') /\ read_reploff c' = 100 + zlen (mjoin master_chunks) /\
    (fhas (flags c') CLIENT_MULTI = false -> commands post = []).
Proof.
  apply (master_stream_applied 536870912 1073741824 0 false false false (fun c => c) toy_command toy_calm 100 CLIENT_MASTER
    master_requests master_chunks (drop 70 (encode_requests master_requests))).
  - split; reflexivity.
  - reflexivity.
  - repeat (constructor; [vm_compute; reflexivity|]). constructor.
  - vm_compute. discriminate.
  - discriminate.
  - vm_compute. reflexivity.
Defined.

(** QUIT closes its client, BLPOP blocks it and SHUTDOWN destroys it. *)
Definition rude_command (f : Z) (args : list bytes) : command_proc * Z * bool * bool :=
  if bool_decide (args = [str "QUIT"]) then (otherCommand, fset f CLIENT_CLOSE_AFTER_REPLY, false, false)
  else if bool_decide (args = [str "BLPOP"]) then (otherCommand, fset f CLIENT_BLOCKED, true, false)
  else if bool_decide (args = [str "SHUTDOWN"]) then (otherCommand, f, false, true)
  else (otherCommand, f, true, false).

Lemma rude_valid : valid_command rude_command.
Proof.
  intros f args. unfold rude_command. repeat case_bool_decide; try done; [|by left]. intros _. right.
  unfold fhas, fset. apply negb_true_iff, Z.eqb_neq. intros H'. apply (f_equal (fun z => Z.testbit z 6)) in H'.
  rewrite Z.land_spec, Z.lor_spec in H'. simpl in H'. by rewrite orb_true_r in H'.
Qed.

Definition rude_serve : in_client -> list bytes -> option (in_client * bool) :=
  serve 536870912 1073741824 0 true false false (fun c => c) rude_command.

Lemma hostile_input_safe_witness :
  exists c valid, rude_serve (fresh_client 0 0) [str "PING 1"; crlf; str "*1" ++ crlf ++ str "$4" ++ crlf ++ str "QUIT"; crlf ++ str "*x" ++ crlf]
      = Some (c, valid) /\ (length (replies c) <= 1)%nat /\
    (valid = true -> replies c <> [] -> input_stopped false c = true) /\
    (valid = true -> input_stopped false c = true -> forall chunks', exists c', rude_serve c chunks' = Some (c', true) /\
       replies c' = replies c /\ executed c' = executed c).
Proof.
  apply (hostile_input_safe 536870912 1073741824 0 true false false (fun c => c) rude_command 0 rude_valid).
  intros c. split; [reflexivity|]. split; reflexivity.
Defined.
