(* ===== verification/Repl.v ===== *)
(** * replication.c: the replication backlog and the stream to the replicas

    A master keeps the last bytes of its replication stream in a circular
    buffer; a replica that reconnects gets the bytes it misses from there, if
    they still are (a partial resynchronization).  [repl] has the fields of the
    server the master side uses, a [replica] is its client with the fields of
    replication.  [zmalloc n] is a new block of memory, of unspecified content.

    The history of the server is the stream of bytes it was fed; the theorems
    say that the backlog always holds the end of it, as much as fits, that an accepted partial
    resynchronization sends exactly the bytes the replica misses, and that a
    command is propagated to the backlog and to every replica as the same
    requests, those the input component of a replica executes. *)

From S2P Require Import Prelude Util Sds Reply Resp.

Definition CLIENT_PRE_PSYNC : Z := Z.shiftl 1 16.
Definition CLIENT_REPL_RDBONLY : Z := Z.shiftl 1 42.
Definition SLAVE_STATE_WAIT_BGSAVE_START : Z := 6.
Definition SLAVE_STATE_WAIT_BGSAVE_END : Z := 7.
Definition SLAVE_CAPA_PSYNC2 : Z := Z.shiftl 1 1.
Definition CONFIG_REPL_BACKLOG_MIN_SIZE : Z := 1024 * 16.
Definition CONFIG_RUN_ID_SIZE : Z := 40.
Definition PROTO_SHARED_SELECT_CMDS : Z := 10.
Definition LONG_STR_SIZE : nat := 21.

Record replica := mk_replica {
  cl : client; slave_capa : Z; slave_ack_time : Z; repl_ack_off : Z; psync_initial_offset : Z;
}.

Record repl := mk_repl {
  repl_backlog : option bytes; repl_backlog_size : Z; repl_backlog_histlen : Z; repl_backlog_idx : Z; repl_backlog_off : Z;
  master_repl_offset : Z; replid : bytes; replid2 : bytes; second_replid_offset : Z;
  slaveseldb : Z; masterhost : bool; slaves : list replica; repl_good_slaves_count : Z;
}.

Definition set_cl (s : replica) (c : client) : replica :=
  mk_replica c (slave_capa s) (slave_ack_time s) (repl_ack_off s) (psync_initial_offset s).
Definition set_backlog (r : repl) (b : option bytes) (size hist idx off : Z) : repl :=
  mk_repl b size hist idx off (master_repl_offset r) (replid r) (replid2 r) (second_replid_offset r) (slaveseldb r)
    (masterhost r) (slaves r) (repl_good_slaves_count r).
Definition set_offset (r : repl) (o : Z) : repl :=
  mk_repl (repl_backlog r) (repl_backlog_size r) (repl_backlog_histlen r) (repl_backlog_idx r) (repl_backlog_off r) o
    (replid r) (replid2 r) (second_replid_offset r) (slaveseldb r) (masterhost r) (slaves r) (repl_good_slaves_count r).
Definition set_ids (r : repl) (i1 i2 : bytes) (o2 : Z) : repl :=
  mk_repl (repl_backlog r) (repl_backlog_size r) (repl_backlog_histlen r) (repl_backlog_idx r) (repl_backlog_off r)
    (master_repl_offset r) i1 i2 o2 (slaveseldb r) (masterhost r) (slaves r) (repl_good_slaves_count r).
Definition set_seldb (r : repl) (d : Z) : repl :=
  mk_repl (repl_backlog r) (repl_backlog_size r) (repl_backlog_histlen r) (repl_backlog_idx r) (repl_backlog_off r)
    (master_repl_offset r) (replid r) (replid2 r) (second_replid_offset r) d (masterhost r) (slaves r) (repl_good_slaves_count r).
Definition set_slaves (r : repl) (l : list replica) : repl :=
  mk_repl (repl_backlog r) (repl_backlog_size r) (repl_backlog_histlen r) (repl_backlog_idx r) (repl_backlog_off r)
    (master_repl_offset r) (replid r) (replid2 r) (second_replid_offset r) (slaveseldb r) (masterhost r) l (repl_good_slaves_count r).
Definition set_host (r : repl) (h : bool) : repl :=
  mk_repl (repl_backlog r) (repl_backlog_size r) (repl_backlog_histlen r) (repl_backlog_idx r) (repl_backlog_off r)
    (master_repl_offset r) (replid r) (replid2 r) (second_replid_offset r) (slaveseldb r) h (slaves r) (repl_good_slaves_count r).
Definition set_good (r : repl) (n : Z) : repl :=
  mk_repl (repl_backlog r) (repl_backlog_size r) (repl_backlog_histlen r) (repl_backlog_idx r) (repl_backlog_off r)
    (master_repl_offset r) (replid r) (replid2 r) (second_replid_offset r) (slaveseldb r) (masterhost r) (slaves r) n.

Section repl.
Context (zmalloc : Z -> bytes) (usable : Z -> Z) (client_obuf_limits : Z -> clientBufferLimitsConfig) (unixtime : Z).
Context (repl_min_slaves_to_write repl_min_slaves_max_lag : Z).

(** ** The backlog *)

Definition empty_backlog (r : repl) (size : Z) : repl := set_backlog r (Some (zmalloc size)) size 0 0 (master_repl_offset r + 1).

Definition createReplicationBacklog (r : repl) : option repl :=
  match repl_backlog r with Some _ => None | None => Some (empty_backlog r (repl_backlog_size r)) end.

Definition resizeReplicationBacklog (r : repl) (newsize : Z) : repl :=
  let newsize := if newsize <? CONFIG_REPL_BACKLOG_MIN_SIZE then CONFIG_REPL_BACKLOG_MIN_SIZE else newsize in
  if repl_backlog_size r =? newsize then r
  else
    match repl_backlog r with
    | Some _ => empty_backlog r newsize
    | None => set_backlog r None newsize (repl_backlog_histlen r) (repl_backlog_idx r) (repl_backlog_off r)
    end.

Definition freeReplicationBacklog (r : repl) : option repl :=
  if negb (zlen (slaves r) =? 0) then None
  else Some (set_backlog r None (repl_backlog_size r) (repl_backlog_histlen r) (repl_backlog_idx r) (repl_backlog_off r)).

(** The loop that copies; returns the buffer, the index and the length. *)
Fixpoint feed_loop (fuel : nat) (size : Z) (b : bytes) (idx hist : Z) (p : bytes) : option (bytes * Z * Z) :=
  match fuel with
  | O => None
  | S fuel =>
    if zlen p =? 0 then Some (b, idx, hist)
    else
      let thislen := if size - idx >? zlen p then zlen p else size - idx in
      b ← mstore b idx (take (Z.to_nat thislen) p);
      let idx := if idx + thislen =? size then 0 else idx + thislen in
      feed_loop fuel size b idx (hist + thislen) (drop (Z.to_nat thislen) p)
  end.

(** [None] also when there is no buffer. *)
Definition feedReplicationBacklog (r : repl) (p : bytes) : option repl :=
  b ← repl_backlog r;
  let r := set_offset r (master_repl_offset r + zlen p) in
  '(b, idx, hist) ← feed_loop (S (length p)) (repl_backlog_size r) b (repl_backlog_idx r) (repl_backlog_histlen r) p;
  let hist := if hist >? repl_backlog_size r then repl_backlog_size r else hist in
  Some (set_backlog r (Some b) (repl_backlog_size r) hist idx (master_repl_offset r - hist + 1)).

Definition feedReplicationBacklogWithObject (r : repl) (o : robj) : option repl :=
  match o with
  | ObjInt v => s ← ll2string_text (LONG_STR_SIZE) v; feedReplicationBacklog r s
  | ObjStr s => feedReplicationBacklog r s
  end.

(** ** The stream to the replicas *)

Definition canFeedReplicaReplBuffer (c : client) : bool :=
  if has c CLIENT_REPL_RDBONLY then false
  else if replstate c =? SLAVE_STATE_WAIT_BGSAVE_START then false else true.

(** Run [f] on every replica that can be fed. *)
Fixpoint feed_slaves (f : client -> option client) (l : list replica) : option (list replica) :=
  match l with
  | [] => Some []
  | s :: l =>
    c ← (if canFeedReplicaReplBuffer (cl s) then f (cl s) else Some (cl s));
    l ← feed_slaves f l;
    Some (set_cl s c :: l)
  end.

(** shared.select[dictid], and the command built for other databases: the same
    format. *)
Definition select_cmd (dictid : Z) : option bytes :=
  t ← ll2string_text (if (0 <=? dictid) && (dictid <? PROTO_SHARED_SELECT_CMDS) then 64%nat else LONG_STR_SIZE) dictid;
  Some (str "*2" ++ crlf ++ str "$6" ++ crlf ++ str "SELECT" ++ crlf ++ str "$" ++ print_lld (zlen t) ++ crlf ++ t ++ crlf).

(** The header in [aux]: type, number, CRLF. *)
Definition aux_header (prefix n : Z) : option bytes := t ← ll2string_text (LONG_STR_SIZE + 2) n; Some (prefix :: t ++ crlf).

Fixpoint feed_args (r : repl) (argv : list robj) : option repl :=
  match argv with
  | [] => Some r
  | o :: argv =>
    h ← aux_header 36 (stringObjectLen o);
    r ← feedReplicationBacklog r h;
    r ← feedReplicationBacklogWithObject r o;
    r ← feedReplicationBacklog r crlf;
    feed_args r argv
  end.

Fixpoint bulk_args (c : client) (argv : list robj) : option client :=
  match argv with
  | [] => Some c
  | o :: argv => c ← addReplyBulk usable client_obuf_limits unixtime c o; bulk_args c argv
  end.

Definition has_backlog (r : repl) : bool := if repl_backlog r then true else false.

(** Send a SELECT when the database changes. *)
Definition feed_select (r : repl) (dictid : Z) : option repl :=
  if negb (slaveseldb r =? dictid) then
    s ← select_cmd dictid;
    r ← (if has_backlog r then feedReplicationBacklogWithObject r (ObjStr s) else Some r);
    l ← feed_slaves (fun c => addReply usable client_obuf_limits unixtime c (ObjStr s)) (slaves r);
    Some (set_slaves r l)
  else Some r.

Definition replicationFeedSlaves (r : repl) (dictid : Z) (argv : list robj) : option repl :=
  if masterhost r then Some r
  else if negb (has_backlog r) && (zlen (slaves r) =? 0) then Some r
  else if negb (zlen (slaves r) =? 0) && negb (has_backlog r) then None
  else
    r ← feed_select r dictid;
    let r := set_seldb r dictid in
    r ← (if has_backlog r then
           h ← aux_header 42 (zlen argv);
           r ← feedReplicationBacklog r h;
           feed_args r argv
         else Some r);
    l ← feed_slaves (fun c => c ← addReplyArrayLen usable client_obuf_limits unixtime c (zlen argv); bulk_args c argv) (slaves r);
    Some (set_slaves r l).

Definition replicationFeedSlavesFromMasterStream (r : repl) (buf : bytes) : option repl :=
  r ← (if has_backlog r then feedReplicationBacklog r buf else Some r);
  l ← feed_slaves (fun c => addReplyProto usable client_obuf_limits unixtime c buf) (slaves r);
  Some (set_slaves r l).

(** ** Resynchronization *)

Fixpoint backlog_loop (fuel : nat) (size : Z) (b : bytes) (c : client) (j len : Z) : option client :=
  match fuel with
  | O => None
  | S fuel =>
    if len =? 0 then Some c
    else
      let thislen := if size - j <? len then size - j else len in
      s ← mload b j thislen;
      c ← addReplySds usable client_obuf_limits unixtime c s;
      backlog_loop fuel size b c 0 (len - thislen)
  end.

(** The client and the length sent. *)
Definition addReplyReplicationBacklog (r : repl) (c : client) (offset : Z) : option (client * Z) :=
  if repl_backlog_histlen r =? 0 then Some (c, 0)
  else
    b ← repl_backlog r;
    let skip := offset - repl_backlog_off r in
    let j := (repl_backlog_idx r + (repl_backlog_size r - repl_backlog_histlen r)) mod repl_backlog_size r in
    let j := (j + skip) mod repl_backlog_size r in
    let len := repl_backlog_histlen r - skip in
    c ← backlog_loop 3 (repl_backlog_size r) b c j len;
    Some (c, len).

Definition getPsyncInitialOffset (r : repl) : Z := master_repl_offset r.

(** [id]: the random characters. *)
Definition changeReplicationId (r : repl) (id : bytes) : repl := set_ids r id (replid2 r) (second_replid_offset r).

Definition clearReplicationId2 (r : repl) : repl := set_ids r (replid r) (replicate (Z.to_nat CONFIG_RUN_ID_SIZE) 48) (-1).

Definition shiftReplicationId (r : repl) (id : bytes) : repl :=
  changeReplicationId (set_ids r (replid r) (replid r) (master_repl_offset r + 1)) id.

(** strcasecmp is 0 *)
Definition same_id (a b : bytes) : bool := bool_decide (tolower <$> cstr a = tolower <$> cstr b).

Definition getLongLongFromObject (o : robj) : option Z := match o with ObjStr s => string2ll s | ObjInt v => Some v end.

Definition refreshGoodSlavesCount (r : repl) : repl :=
  if (repl_min_slaves_to_write =? 0) || (repl_min_slaves_max_lag =? 0) then r
  else set_good r (zlen (filter (fun s => replstate (cl s) = SLAVE_STATE_ONLINE /\ unixtime - slave_ack_time s <= repl_min_slaves_max_lag) (slaves r))).

Definition replicationCountAcksByOffset (r : repl) (offset : Z) : Z :=
  zlen (filter (fun s => replstate (cl s) = SLAVE_STATE_ONLINE /\ repl_ack_off s >= offset) (slaves r)).

(** The fields of the client a partial resynchronization sets. *)
Definition put_online (s : replica) : replica :=
  let c := add_flag (cl s) CLIENT_SLAVE in
  mk_replica (mk_client (cflags c) (resp c) (conn c) SLAVE_STATE_ONLINE false (obuf c) (sentlen c) (reply c) (reply_bytes c)
    (obuf_soft_limit_reached_time c)) (slave_capa s) unixtime (repl_ack_off s) (psync_initial_offset s).

(** What is written to the socket directly. *)
Definition continue_reply (r : repl) (s : replica) : bytes :=
  if negb (Z.land (slave_capa s) SLAVE_CAPA_PSYNC2 =? 0) then str "+CONTINUE " ++ replid r ++ crlf else str "+CONTINUE" ++ crlf.

(** The outcome of PSYNC: a full resynchronization is needed (with the client,
    which gets an error for a bad offset), or the server, the client and the
    bytes written directly.  [write_ok]: the direct write is complete. *)
Inductive psync := FullResync (s : replica) | Continue (r : repl) (s : replica) (direct : bytes).

Definition masterTryPartialResynchronization (r : repl) (s : replica) (master_replid : bytes) (offset : robj) (write_ok : bool)
    : option psync :=
  match getLongLongFromObject offset with
  | None =>
    c ← addReplyErrorLength usable client_obuf_limits unixtime (cl s) (str "value is not an integer or out of range");
    Some (FullResync (set_cl s c))
  | Some psync_offset =>
    if negb (same_id master_replid (replid r)) &&
       (negb (same_id master_replid (replid2 r)) || (psync_offset >? second_replid_offset r)) then Some (FullResync s)
    else if negb (has_backlog r) || (psync_offset <? repl_backlog_off r) ||
            (psync_offset >? repl_backlog_off r + repl_backlog_histlen r) then Some (FullResync s)
    else
      let s := put_online s in
      let direct := continue_reply r s in
      if negb write_ok then
        let s := set_cl s (freeClientAsync (cl s)) in Some (Continue (set_slaves r (slaves r ++ [s])) s direct)
      else
        '(c, _) ← addReplyReplicationBacklog r (cl s) psync_offset;
        let s := set_cl s c in
        Some (Continue (refreshGoodSlavesCount (set_slaves r (slaves r ++ [s]))) s direct)
  end.

(** The server, the client, the bytes written directly and whether the result is C_OK. *)
Definition replicationSetupSlaveForFullResync (r : repl) (s : replica) (offset : Z) (write_ok : bool) : repl * replica * bytes * bool :=
  let c := cl s in
  let c := mk_client (cflags c) (resp c) (conn c) SLAVE_STATE_WAIT_BGSAVE_END (repl_put_online_on_ack c) (obuf c) (sentlen c)
    (reply c) (reply_bytes c) (obuf_soft_limit_reached_time c) in
  let s := mk_replica c (slave_capa s) (slave_ack_time s) (repl_ack_off s) offset in
  let r := set_seldb r (-1) in
  if has c CLIENT_PRE_PSYNC then (r, s, [], true)
  else
    let direct := str "+FULLRESYNC " ++ replid r ++ str " " ++ print_lld offset ++ crlf in
    if negb write_ok then (r, set_cl s (freeClientAsync c), direct, false) else (r, s, direct, true).

(** replicationCron: the backlog of a server without replicas expires. *)
Definition expire_backlog (r : repl) (id : bytes) : option repl := freeReplicationBacklog (clearReplicationId2 (changeReplicationId r id)).

(** ** The backlog holds the end of the history *)

(** The byte of age [a] (1 for the last one) of the history is in the buffer,
    [a] positions before the index. *)
Definition ring (b : bytes) (idx h : Z) (hist : bytes) : Prop := forall a,
  1 <= a <= h -> b !! Z.to_nat ((idx - a) mod zlen b) = hist !! Z.to_nat (zlen hist - a).

Lemma mod_wrap x n : 0 < n -> - n <= x < n -> x mod n = if 0 <=? x then x else x + n.
Proof.
  intros Hn Hx. destruct (Z.leb_spec 0 x); [apply Z.mod_small; lia|].
  symmetry. apply (Z.mod_unique_pos x n (-1)); lia.
Qed.

(** Writing [t] at the index, without crossing the end of the buffer. *)
Lemma ring_write b idx h hist t :
  0 <= idx -> idx + zlen t <= zlen b -> 0 < zlen t -> h <= zlen hist -> h <= zlen b -> ring b idx h hist ->
  let b' := take (Z.to_nat idx) b ++ t ++ drop (Z.to_nat (idx + zlen t)) b in
  let idx' := if idx + zlen t =? zlen b then 0 else idx + zlen t in
  zlen b' = zlen b /\ ring b' idx' (Z.min (h + zlen t) (zlen b)) (hist ++ t).
Proof.
  intros Hi Hfit Ht Hh Hs Hr. cbv zeta. set (k := zlen t) in *. set (b' := _ ++ t ++ _).
  assert (zlen b' = zlen b) as Hl.
  { unfold b'. rewrite !zlen_app, zlen_take_min, zlen_drop_max. lia. }
  split; [done|]. intros a Ha. rewrite Hl.
  assert (((if idx + k =? zlen b then 0 else idx + k) - a) mod zlen b = if a <=? idx + k then idx + k - a else idx + k - a + zlen b) as ->.
  { destruct (Z.eqb_spec (idx + k) (zlen b)); rewrite mod_wrap by lia; destruct (Z.leb_spec 0 (0 - a)), (Z.leb_spec 0 (idx + k - a)),
      (Z.leb_spec a (idx + k)); lia. }
  rewrite zlen_app. fold k. pose proof (zlen_nonneg hist) as Hnn. destruct (Z.le_gt_cases a k) as [Hak|Hak].
  - destruct (Z.leb_spec a (idx + k)); [|lia]. unfold b'.
    rewrite lookup_app_r by (rewrite length_take; unfold zlen in *; lia).
    rewrite lookup_app_l by (rewrite length_take; unfold k, zlen in *; lia).
    rewrite lookup_app_r by (unfold zlen in *; lia). f_equal. rewrite length_take. unfold k, zlen in *. lia.
  - rewrite lookup_app_l by (unfold k, zlen in *; lia). replace (zlen hist + k - a) with (zlen hist - (a - k)) by lia.
    rewrite <-(Hr (a - k)) by lia. rewrite mod_wrap by lia. unfold b'.
    destruct (Z.leb_spec 0 (idx - (a - k))), (Z.leb_spec a (idx + k)); try lia.
    + rewrite lookup_app_l by (rewrite length_take; unfold zlen in *; lia). rewrite lookup_take_lt by lia. f_equal. lia.
    + rewrite lookup_app_r by (rewrite length_take; unfold zlen in *; lia).
      rewrite lookup_app_r by (rewrite length_take; unfold k, zlen in *; lia). rewrite lookup_drop. f_equal.
      rewrite length_take. unfold k, zlen in *. lia.
Qed.

Lemma feed_loop_spec fuel : forall b idx h p hist,
  (length p < fuel)%nat -> 0 <= idx < zlen b -> 0 <= h -> Z.min h (zlen b) <= zlen hist -> ring b idx (Z.min h (zlen b)) hist ->
  exists b' idx', feed_loop fuel (zlen b) b idx h p = Some (b', idx', h + zlen p) /\ zlen b' = zlen b /\ 0 <= idx' < zlen b /\
    ring b' idx' (Z.min (h + zlen p) (zlen b)) (hist ++ p).
Proof.
  induction fuel as [|fuel IH]; intros b idx h p hist Hf Hi Hh Hhl Hr; [lia|]. cbn [feed_loop].
  destruct (Z.eqb_spec (zlen p) 0) as [E|E].
  { apply zlen_0_inv in E. subst p. exists b, idx. rewrite zlen_nil, Z.add_0_r, app_nil_r. done. }
  pose proof (zlen_nonneg p) as Hp. set (k := if zlen b - idx >? zlen p then zlen p else zlen b - idx).
  assert (0 < k <= zlen p /\ idx + k <= zlen b) as [Hk1 Hk2] by (unfold k; destruct (zlen b - idx >? zlen p) eqn:Ek; lia).
  set (t := take (Z.to_nat k) p). assert (zlen t = k) as Ht by (unfold t; rewrite zlen_take_min; lia).
  assert (mstore b idx t = Some (take (Z.to_nat idx) b ++ t ++ drop (Z.to_nat (idx + zlen t)) b)) as ->.
  { unfold mstore. rewrite bool_decide_eq_true_2 by lia. do 4 f_equal. unfold zlen. lia. }
  cbn [mbind option_bind].
  destruct (ring_write b idx (Z.min h (zlen b)) hist t) as [Hl Hr']; try lia; [done|]. set (b1 := _ ++ t ++ _) in *. rewrite Ht in Hr'.
  replace (Z.min (Z.min h (zlen b) + k) (zlen b)) with (Z.min (h + k) (zlen b1)) in Hr' by lia.
  set (idx1 := if idx + k =? zlen b then 0 else idx + k) in *.
  assert (0 <= idx1 < zlen b1) as Hi1 by (unfold idx1; destruct (Z.eqb_spec (idx + k) (zlen b)); lia).
  destruct (IH b1 idx1 (h + k) (drop (Z.to_nat k) p) (hist ++ t)) as (b' & idx' & E' & L' & I' & R'); try done.
  - rewrite length_drop. unfold zlen in *. lia.
  - lia.
  - rewrite zlen_app. lia.
  - rewrite Hl in E', L', I', R'. rewrite E'. exists b', idx'. rewrite <-app_assoc in R'. unfold t in R'. rewrite take_drop in R'.
    replace (h + k + zlen (drop (Z.to_nat k) p)) with (h + zlen p) in * by (rewrite zlen_drop_max; lia). done.
Qed.

Definition backlog_ok (r : repl) (hist : bytes) : Prop :=
  match repl_backlog r with
  | None => True
  | Some b => 0 < zlen b /\ repl_backlog_size r = zlen b /\ 0 <= repl_backlog_idx r < zlen b /\
      0 <= repl_backlog_histlen r <= Z.min (zlen b) (zlen hist) /\
      repl_backlog_off r = master_repl_offset r - repl_backlog_histlen r + 1 /\
      ring b (repl_backlog_idx r) (repl_backlog_histlen r) hist
  end.

(** The backlog of [r'] is the one of [r] with [p] added: it keeps all the bytes
    it had and the new ones, up to its size. *)
Definition kept (r : repl) (p : bytes) (r' : repl) : Prop :=
  repl_backlog_size r' = repl_backlog_size r /\
  repl_backlog_histlen r' = Z.min (repl_backlog_size r) (repl_backlog_histlen r + zlen p).

Lemma kept_trans a p b q c : kept a p b -> kept b q c -> kept a (p ++ q) c.
Proof. unfold kept. rewrite zlen_app. pose proof (zlen_nonneg q). lia. Qed.

(** A step that leaves size and length of the backlog alone keeps it. *)
Lemma kept_same r r' hist :
  has_backlog r = true -> backlog_ok r hist -> repl_backlog_size r' = repl_backlog_size r ->
  repl_backlog_histlen r' = repl_backlog_histlen r -> kept r [] r'.
Proof.
  unfold has_backlog, backlog_ok, kept. destruct (repl_backlog r) as [b|]; [|done]. intros _ H -> ->. unfold zlen in *. simpl. lia.
Qed.

Lemma feedReplicationBacklog_spec r hist p :
  has_backlog r = true -> backlog_ok r hist ->
  exists b size h idx off, feedReplicationBacklog r p = Some (set_backlog (set_offset r (master_repl_offset r + zlen p)) (Some b) size h idx off) /\
    backlog_ok (set_backlog (set_offset r (master_repl_offset r + zlen p)) (Some b) size h idx off) (hist ++ p) /\
    kept r p (set_backlog (set_offset r (master_repl_offset r + zlen p)) (Some b) size h idx off).
Proof.
  unfold has_backlog, backlog_ok, feedReplicationBacklog. destruct (repl_backlog r) as [b|]; [|done].
  intros _ (Hb & Hsz & Hi & Hh & Hoff & Hr). cbn [mbind option_bind repl_backlog_size repl_backlog_idx repl_backlog_histlen set_offset master_repl_offset].
  rewrite Hsz. destruct (feed_loop_spec (S (length p)) b (repl_backlog_idx r) (repl_backlog_histlen r) p hist) as (b' & idx' & -> & Hl & Hi' & Hr'); try lia.
  { by rewrite Z.min_l by lia. }
  cbn [mbind option_bind]. pose proof (zlen_nonneg p). eexists _, _, _, _, _. split; [done|].
  cbn [repl_backlog repl_backlog_size repl_backlog_idx repl_backlog_histlen repl_backlog_off set_backlog set_offset master_repl_offset].
  replace (if repl_backlog_histlen r + zlen p >? zlen b then zlen b else repl_backlog_histlen r + zlen p)
    with (Z.min (repl_backlog_histlen r + zlen p) (zlen b)) by (destruct (_ >? _) eqn:E; lia).
  rewrite zlen_app. split_and!; try done; try lia. split; simpl; lia.
Qed.

Lemma ring_load b idx h hist len n :
  ring b idx h hist -> 0 < zlen b -> 1 <= len <= h -> h <= zlen hist ->
  let j := (idx - len) mod zlen b in
  0 <= n <= len -> j + n <= zlen b -> mload b j n = Some (take (Z.to_nat n) (drop (Z.to_nat (zlen hist - len)) hist)).
Proof.
  intros Hr Hb Hl Hh j Hn Hj. pose proof (Z.mod_pos_bound (idx - len) (zlen b) Hb) as Hjr. fold j in Hjr.
  unfold mload. rewrite bool_decide_eq_true_2 by lia. f_equal. apply list_eq. intros i.
  destruct (decide (i < Z.to_nat n)%nat) as [Hi|Hi].
  - rewrite !lookup_take_lt, !lookup_drop by done.
    replace (Z.to_nat (zlen hist - len) + i)%nat with (Z.to_nat (zlen hist - (len - Z.of_nat i))) by lia.
    rewrite <-(Hr (len - Z.of_nat i)) by lia. f_equal. replace (idx - (len - Z.of_nat i)) with (idx - len + Z.of_nat i) by lia.
    rewrite <-Zplus_mod_idemp_l. fold j. rewrite Z.mod_small by lia. lia.
  - rewrite !lookup_take_ge by lia. done.
Qed.

Context (slack : Z) (usable_range : forall n, n <= usable n <= n + slack).

(** The room two more pieces need. *)
Definition two_pieces (s : bytes) : Z := zlen s + 2 * (PROTO_REPLY_CHUNK_BYTES + slack).

Lemma backlog_loop_spec b idx h hist c len :
  ring b idx h hist -> 0 < zlen b -> 0 <= len <= h -> h <= Z.min (zlen b) (zlen hist) -> out_wf c ->
  let s := drop (Z.to_nat (zlen hist - len)) hist in
  fits c (two_pieces s) ->
  appends (two_pieces s) c (backlog_loop 3 (zlen b) b c ((idx - len) mod zlen b) len) s.
Proof.
  intros Hr Hb Hl Hh W s Hf. pose proof (slack_nonneg _ _ usable_range) as Hsl.
  assert (0 <= two_pieces s) as Hpos by (unfold two_pieces, PROTO_REPLY_CHUNK_BYTES; pose proof (zlen_nonneg s); lia).
  assert (zlen s = len) as Hs by (unfold s; rewrite zlen_drop_max; lia).
  cbn [backlog_loop]. destruct (Z.eqb_spec len 0) as [E|E].
  { assert (s = []) as Es by (apply zlen_0_inv; lia). rewrite Es in *. eapply appends_weaken; [exact Hpos|by apply appends_done]. }
  set (j := (idx - len) mod zlen b). pose proof (Z.mod_pos_bound (idx - len) (zlen b) Hb) as Hjr. fold j in Hjr.
  set (n := if zlen b - j <? len then zlen b - j else len).
  assert (0 < n <= len /\ j + n <= zlen b) as [Hn1 Hn2] by (unfold n; destruct (Z.ltb_spec (zlen b - j) len); lia).
  assert (mload b j n = Some (take (Z.to_nat n) s)) as -> by (apply (ring_load b idx h); done || lia). cbn [mbind option_bind].
  set (s1 := take (Z.to_nat n) s). set (s2 := drop (Z.to_nat n) s).
  assert (s = s1 ++ s2) as Es by (unfold s1, s2; by rewrite take_drop). rewrite Es.
  assert (zlen s2 = len - n) as Hs2 by (unfold s2; rewrite zlen_drop_max; lia).
  assert (two_pieces (s1 ++ s2) = cost slack s1 + cost slack s2) as E2 by (unfold two_pieces, cost; rewrite zlen_app; lia).
  pose proof (cost_pos _ slack usable_range s1). pose proof (cost_pos _ slack usable_range s2).
  rewrite Es, E2 in Hf. rewrite E2. apply appends_bind; [|done|lia|].
  - apply (addReplyProto_spec usable client_obuf_limits unixtime slack usable_range); [done|]. unfold fits in *. lia.
  - intros c' W' F' _. destruct (Z.eqb_spec (len - n) 0) as [E0|E0].
    { assert (s2 = []) as -> by (apply zlen_0_inv; lia). eapply appends_weaken; [|by apply appends_done]. lia. }
    assert (n = zlen b - j) as En by (unfold n in *; destruct (Z.ltb_spec (zlen b - j) len); lia).
    assert ((idx - (len - n)) mod zlen b = 0) as Hj0.
    { replace (idx - (len - n)) with (idx - len + n) by lia. rewrite <-Zplus_mod_idemp_l. fold j. rewrite En.
      replace (j + (zlen b - j)) with (zlen b) by lia. apply Z_mod_same_full. }
    destruct (Z.ltb_spec (zlen b - 0) (len - n)); [lia|].
    assert (mload b 0 (len - n) = Some s2) as ->.
    { rewrite <-Hj0 at 1. erewrite (ring_load b idx h hist (len - n) (len - n)); [|done || lia ..]. f_equal.
      unfold s2, s. rewrite drop_drop. replace (Z.to_nat (zlen hist - (len - n))) with (Z.to_nat (zlen hist - len) + Z.to_nat n)%nat by lia.
      rewrite take_ge; [done|]. rewrite length_drop. unfold zlen in *. lia. }
    cbn [mbind option_bind]. replace (len - n - (len - n)) with 0 by lia. cbn [Z.eqb].
    destruct (addReplyProto_spec usable client_obuf_limits unixtime slack usable_range c' s2 W' F') as (c2 & t & u & E3 & H3).
    unfold addReplySds. rewrite E3. cbn [mbind option_bind]. exists c2, t, u. by split.
Qed.

Lemma addReplyReplicationBacklog_spec r hist c offset :
  has_backlog r = true -> backlog_ok r hist -> repl_backlog_off r <= offset <= repl_backlog_off r + repl_backlog_histlen r -> out_wf c ->
  let s := drop (Z.to_nat (zlen hist - (master_repl_offset r + 1 - offset))) hist in
  fits c (two_pieces s) ->
  exists c' sent rest, addReplyReplicationBacklog r c offset = Some (c', zlen s) /\ out_wf c' /\ evolve c c' /\
    s = sent ++ rest /\ pending c' = pending c ++ sent /\ (rest = [] \/ accepts c' = false) /\ (accepts c = false -> sent = []).
Proof.
  intros Hb0 Hok Ho W s Hf. revert Hb0 Hok. unfold has_backlog, backlog_ok, addReplyReplicationBacklog.
  destruct (repl_backlog r) as [b|]; [|done]. intros _ (Hb & Hsz & Hi & Hh & Hoff & Hr).
  assert (zlen s = master_repl_offset r + 1 - offset) as Hs by (unfold s; rewrite zlen_drop_max; lia).
  destruct (Z.eqb_spec (repl_backlog_histlen r) 0) as [E|E].
  { assert (s = []) as Es by (apply zlen_0_inv; lia). exists c, [], []. rewrite Es.
    split_and!; try done; [apply evolve_refl|by rewrite app_nil_r|by left]. }
  cbn [mbind option_bind]. rewrite Hsz. set (len := repl_backlog_histlen r - (offset - repl_backlog_off r)).
  assert (len = master_repl_offset r + 1 - offset) as El by (unfold len; lia).
  assert (((repl_backlog_idx r + (zlen b - repl_backlog_histlen r)) mod zlen b + (offset - repl_backlog_off r)) mod zlen b =
    (repl_backlog_idx r - len) mod zlen b) as ->.
  { rewrite Zplus_mod_idemp_l. replace (repl_backlog_idx r + (zlen b - repl_backlog_histlen r) + (offset - repl_backlog_off r))
      with (repl_backlog_idx r - len + 1 * zlen b) by (unfold len; lia). apply Z_mod_plus_full. }
  destruct (backlog_loop_spec b (repl_backlog_idx r) (repl_backlog_histlen r) hist c len Hr Hb) as (c' & t & u & -> & W' & He & _ & _ & E' & Hp & H1 & H2);
    [lia|lia|done|by rewrite El|].
  cbn [mbind option_bind]. rewrite El in *. exists c', t, u. rewrite Hs. done.
Qed.

(** ** Propagation of commands *)

(** The requests a command is propagated as: a SELECT when the database
    changes, and the command. *)
Definition propagated (r : repl) (dictid : Z) (argv : list robj) : list request :=
  (if slaveseldb r =? dictid then [] else [ReqMulti [str "SELECT"; print_lld dictid]]) ++ [ReqMulti (obj_bytes <$> argv)].

(** [p] was added to the backlog, the rest of the server is as it was. *)
Record backlog_fed (r r' : repl) (p : bytes) : Prop := {
  bf_has : has_backlog r' = true;
  bf_ok : forall hist, backlog_ok r hist -> backlog_ok r' (hist ++ p);
  bf_offset : master_repl_offset r' = master_repl_offset r + zlen p;
  bf_slaves : slaves r' = slaves r;
  bf_db : slaveseldb r' = slaveseldb r;
  bf_host : masterhost r' = masterhost r;
  bf_kept : kept r p r';
}.

Lemma fed_trans a b c p q : backlog_fed a b p -> backlog_fed b c q -> backlog_fed a c (p ++ q).
Proof.
  intros [A1 A2 A3 A4 A5 A6 A7] [B1 B2 B3 B4 B5 B6 B7]. split; try congruence; [|rewrite zlen_app; lia|by eapply kept_trans].
  intros hist H. rewrite app_assoc. by apply B2, A2.
Qed.

(** The buffer is a function of the state only, whatever the history was. *)
Lemma feed_backlog_fed r hist p :
  has_backlog r = true -> backlog_ok r hist -> exists r', feedReplicationBacklog r p = Some r' /\ backlog_fed r r' p.
Proof.
  intros Hb Hok. destruct (feedReplicationBacklog_spec r hist p Hb Hok) as (b & size & h & idx & off & E & _ & K).
  rewrite E. eexists. split; [done|]. split; try done. intros hist' Hok'.
  destruct (feedReplicationBacklog_spec r hist' p Hb Hok') as (b' & size' & h' & idx' & off' & E' & H' & _).
  rewrite E in E'. injection E' as -> -> -> -> ->. done.
Qed.

Lemma feed_object_fed r hist o :
  obj_ok o -> has_backlog r = true -> backlog_ok r hist ->
  exists r', feedReplicationBacklogWithObject r o = Some r' /\ backlog_fed r r' (obj_bytes o).
Proof.
  intros Ho Hb Hok. destruct o as [s|v]; simpl; [by eapply feed_backlog_fed|].
  rewrite ll2string_text_spec by (done || (unfold LONG_STR_SIZE; lia)). cbn [mbind option_bind]. by eapply feed_backlog_fed.
Qed.

Lemma aux_header_spec prefix n : in_s 64 n -> aux_header prefix n = Some (header prefix n).
Proof. intros Hn. unfold aux_header. rewrite ll2string_text_spec by (done || (unfold LONG_STR_SIZE; lia)). done. Qed.

Definition arg_fits (o : robj) : Prop := obj_ok o /\ zlen (obj_bytes o) + 4 < 2 ^ 63.

Lemma stringObjectLen_spec o : obj_ok o -> stringObjectLen o = zlen (obj_bytes o).
Proof. destruct o; [done|]. simpl. intros H. by rewrite print_lld_length. Qed.

Lemma feed_args_fed argv : forall r hist,
  Forall arg_fits argv -> has_backlog r = true -> backlog_ok r hist ->
  exists r', feed_args r argv = Some r' /\ backlog_fed r r' (bulks (obj_bytes <$> argv)).
Proof.
  induction argv as [|o argv IH]; intros r hist Ha Hb Hok.
  { exists r. split; [done|]. split; try done; [|unfold zlen; simpl; lia|by eapply kept_same]. intros h H. unfold bulks. simpl. by rewrite app_nil_r. }
  apply Forall_cons in Ha as [[Ho Hl] Ha]. cbn [feed_args]. rewrite stringObjectLen_spec by done.
  pose proof (zlen_nonneg (obj_bytes o)). rewrite aux_header_spec by lia. cbn [mbind option_bind].
  destruct (feed_backlog_fed r hist (header 36 (zlen (obj_bytes o))) Hb Hok) as (r1 & -> & F1). cbn [mbind option_bind].
  destruct (feed_object_fed r1 _ o Ho (bf_has _ _ _ F1) (bf_ok _ _ _ F1 _ Hok)) as (r2 & -> & F2). cbn [mbind option_bind].
  pose proof (fed_trans _ _ _ _ _ F1 F2) as F12.
  destruct (feed_backlog_fed r2 _ crlf (bf_has _ _ _ F2) (bf_ok _ _ _ F12 _ Hok)) as (r3 & -> & F3). cbn [mbind option_bind].
  pose proof (fed_trans _ _ _ _ _ F12 F3) as F13.
  destruct (IH r3 _ Ha (bf_has _ _ _ F3) (bf_ok _ _ _ F13 _ Hok)) as (r4 & -> & F4). exists r4. split; [done|].
  pose proof (fed_trans _ _ _ _ _ F13 F4) as F14. rewrite fmap_cons.
  change (bulks (obj_bytes o :: (obj_bytes <$> argv))) with (bulk_string (obj_bytes o) ++ bulks (obj_bytes <$> argv)).
  unfold bulk_string. by rewrite <-!app_assoc in F14 |- *.
Qed.

Lemma select_cmd_spec dictid : in_s 32 dictid -> select_cmd dictid = Some (encode_request (ReqMulti [str "SELECT"; print_lld dictid])).
Proof.
  intros Hd. unfold select_cmd.
  rewrite ll2string_text_spec by (lia || (unfold LONG_STR_SIZE; destruct (_ && _); lia)). cbn [mbind option_bind]. f_equal.
  cbn [encode_request]. unfold bulks. cbn [fmap list_fmap mjoin list_join]. unfold bulk_string at 2. rewrite app_nil_r.
  unfold header. generalize (print_lld (zlen (print_lld dictid))). intros t. simpl. rewrite <-?app_assoc. reflexivity.
Qed.

(** What a replica gets: [p], at a cost of at most [K]. *)
Definition slave_fed (K : Z) (p : bytes) (s s' : replica) : Prop :=
  slave_capa s' = slave_capa s /\ slave_ack_time s' = slave_ack_time s /\ repl_ack_off s' = repl_ack_off s /\
  psync_initial_offset s' = psync_initial_offset s /\
  if canFeedReplicaReplBuffer (cl s) then appends K (cl s) (Some (cl s')) p else cl s' = cl s.

Lemma feed_slaves_spec f K p l :
  Forall (fun s => out_wf (cl s) /\ fits (cl s) K) l ->
  (forall c, out_wf c -> fits c K -> appends K c (f c) p) ->
  exists l', feed_slaves f l = Some l' /\ Forall2 (slave_fed K p) l l'.
Proof.
  intros Hl Hf. induction Hl as [|s l [W F] Hl IH]; [by exists []|]. destruct IH as (l' & E & H2). cbn [feed_slaves].
  assert (exists c, (if canFeedReplicaReplBuffer (cl s) then f (cl s) else Some (cl s)) = Some c /\ slave_fed K p s (set_cl s c)) as (c & -> & Hc).
  { unfold slave_fed. destruct (canFeedReplicaReplBuffer (cl s)); [|by exists (cl s)].
    pose proof (Hf (cl s) W F) as Ha. pose proof Ha as (c & sent & rest & Ec & _). exists c. split; [done|]. split_and!; try done. simpl. by rewrite <-Ec. }
  cbn [mbind option_bind]. rewrite E. cbn [mbind option_bind]. eexists. split; [done|]. by constructor.
Qed.

Lemma canFeed_evolve c c' : evolve c c' -> canFeedReplicaReplBuffer c' = canFeedReplicaReplBuffer c.
Proof.
  intros (Hg & _ & _ & _ & Hs). unfold canFeedReplicaReplBuffer. rewrite Hs, (has_grows c c') by (done || (vm_compute; reflexivity)). done.
Qed.

Lemma slave_fed_trans K1 K2 p1 p2 s s1 s2 :
  slave_fed K1 p1 s s1 -> slave_fed K2 p2 s1 s2 -> slave_fed (K1 + K2) (p1 ++ p2) s s2.
Proof.
  unfold slave_fed. intros (A1 & A2 & A3 & A4 & A5) (B1 & B2 & B3 & B4 & B5). split_and!; try congruence.
  destruct (canFeedReplicaReplBuffer (cl s)) eqn:E.
  - pose proof A5 as (c' & _ & _ & [= <-] & _ & He & _). rewrite (canFeed_evolve (cl s) (cl s1)), E in B5 by done.
    by eapply appends_seq.
  - rewrite A5, E in B5. congruence.
Qed.

Lemma slaves_fed_trans K1 K2 p1 p2 l l1 l2 :
  Forall2 (slave_fed K1 p1) l l1 -> Forall2 (slave_fed K2 p2) l1 l2 -> Forall2 (slave_fed (K1 + K2) (p1 ++ p2)) l l2.
Proof.
  intros H1. revert l2. induction H1 as [|s s1 l l1 Hs H1 IH]; intros l2 H2; inversion H2; subst; constructor; [|by apply IH].
  by eapply slave_fed_trans.
Qed.

(** Room for [K] more bytes of blocks. *)
Definition slaves_ready (K : Z) (l : list replica) : Prop := Forall (fun s => out_wf (cl s) /\ fits (cl s) K) l.

Lemma slave_fed_ready K1 K2 p l l' : 0 <= K1 -> slaves_ready (K1 + K2) l -> Forall2 (slave_fed K1 p) l l' -> slaves_ready K2 l'.
Proof.
  intros HK Hr H2. induction H2 as [|s s' l l' Hs H2 IH]; [constructor|]. apply Forall_cons in Hr as [[W F] Hr].
  constructor; [|by apply IH]. destruct Hs as (_ & _ & _ & _ & Hs). destruct (canFeedReplicaReplBuffer (cl s)).
  - destruct Hs as (c' & _ & _ & [= <-] & W' & _ & _ & Hb & _). split; [done|]. unfold fits in *. lia.
  - rewrite Hs. split; [done|]. unfold fits in *. lia.
Qed.

Definition bulk_cost (argv : list robj) : Z := foldr (fun o n => reply_cost slack (bulk_string (obj_bytes o)) + n) 0 argv.

Lemma reply_cost_pos s : 0 < reply_cost slack s.
Proof. pose proof (piece_cost _ _ usable_range s). pose proof (cost_pos _ _ usable_range s). lia. Qed.

Lemma bulk_cost_nonneg argv : 0 <= bulk_cost argv.
Proof.
  induction argv as [|o argv IH]; [done|]. change (bulk_cost (o :: argv)) with (reply_cost slack (bulk_string (obj_bytes o)) + bulk_cost argv).
  pose proof (reply_cost_pos (bulk_string (obj_bytes o))). lia.
Qed.

Lemma bulk_args_spec argv : forall c,
  Forall arg_fits argv -> out_wf c -> fits c (bulk_cost argv) ->
  appends (bulk_cost argv) c (bulk_args c argv) (bulks (obj_bytes <$> argv)).
Proof.
  induction argv as [|o argv IH]; intros c Ha W F; [by apply appends_done|]. apply Forall_cons in Ha as [[Ho Hl] Ha].
  change (bulk_cost (o :: argv)) with (reply_cost slack (bulk_string (obj_bytes o)) + bulk_cost argv) in *.
  rewrite fmap_cons. change (bulks (obj_bytes o :: ?x)) with (bulk_string (obj_bytes o) ++ bulks x).
  pose proof (bulk_cost_nonneg argv). cbn [bulk_args]. apply appends_bind; [|done|done|].
  - apply (bulk_obj_spec usable client_obuf_limits unixtime slack usable_range); try done. unfold fits in *. lia.
  - intros c' W' F' _. by apply IH.
Qed.

Definition command_cost (argv : list robj) : Z := reply_cost slack (header 42 (zlen argv)) + bulk_cost argv.

Lemma command_spec argv c :
  zlen argv < 2 ^ 63 -> Forall arg_fits argv -> out_wf c -> fits c (command_cost argv) ->
  appends (command_cost argv) c (c ← addReplyArrayLen usable client_obuf_limits unixtime c (zlen argv); bulk_args c argv)
    (encode_request (ReqMulti (obj_bytes <$> argv))).
Proof.
  intros Hn Ha W F. unfold command_cost in *. cbn [encode_request]. rewrite zlen_fmap. pose proof (bulk_cost_nonneg argv).
  pose proof (zlen_nonneg argv). apply appends_bind; [|done|done|].
  - apply (aggregate_spec usable client_obuf_limits unixtime slack usable_range); try done. unfold fits in *. lia.
  - intros c' W' F' _. by apply bulk_args_spec.
Qed.

(** The room a propagated command needs in every replica. *)
Definition select_bytes (dictid : Z) : bytes := encode_request (ReqMulti [str "SELECT"; print_lld dictid]).
Definition propagate_cost (dictid : Z) (argv : list robj) : Z := cost slack (select_bytes dictid) + command_cost argv.

(** The SELECT, if one is needed. *)
Lemma select_spec r hist dictid K :
  has_backlog r = true -> backlog_ok r hist -> in_s 32 dictid -> slaves_ready (cost slack (select_bytes dictid) + K) (slaves r) -> 0 <= K ->
  exists r', feed_select r dictid = Some r' /\
    has_backlog r' = true /\ masterhost r' = masterhost r /\
    (let p := if slaveseldb r =? dictid then [] else select_bytes dictid in
     kept r p r' /\ (forall h, backlog_ok r h -> backlog_ok r' (h ++ p)) /\ master_repl_offset r' = master_repl_offset r + zlen p /\
     Forall2 (slave_fed (cost slack (select_bytes dictid)) p) (slaves r) (slaves r')).
Proof.
  intros Hb Hok Hd Hr HK. unfold feed_select. destruct (slaveseldb r =? dictid); cbn [negb].
  - exists r. split_and!; try done; [by eapply kept_same| |unfold zlen; simpl; lia|].
    + intros h H. by rewrite app_nil_r.
    + apply Forall_Forall2_diag. eapply Forall_impl; [exact Hr|]. intros s [W _]. split_and!; try done.
      destruct (canFeedReplicaReplBuffer (cl s)); [|done]. eapply appends_weaken; [|by apply appends_done].
      pose proof (cost_pos _ _ usable_range (select_bytes dictid)). lia.
  - rewrite select_cmd_spec by done. fold (select_bytes dictid). cbn [mbind option_bind]. rewrite Hb.
    destruct (feed_object_fed r hist (ObjStr (select_bytes dictid)) I Hb Hok) as (r1 & -> & [B1 B2 B3 B4 B5 B6 B7]). cbn [mbind option_bind].
    rewrite B4. destruct (feed_slaves_spec (fun c => addReply usable client_obuf_limits unixtime c (ObjStr (select_bytes dictid)))
      (cost slack (select_bytes dictid)) (select_bytes dictid) (slaves r)) as (l & -> & H2).
    + eapply Forall_impl; [exact Hr|]. intros s [W F]. split; [done|]. unfold fits in *. lia.
    + intros c W F. apply (addReply_spec usable client_obuf_limits unixtime slack usable_range c (ObjStr (select_bytes dictid)) I W F).
    + cbn [mbind option_bind]. eexists. split; [done|]. done.
Qed.

(** The command reaches the backlog and the replicas. *)
Lemma propagate_spec r hist dictid argv :
  masterhost r = false -> has_backlog r = true -> backlog_ok r hist -> in_s 32 dictid ->
  zlen argv < 2 ^ 63 -> Forall arg_fits argv -> slaves_ready (propagate_cost dictid argv) (slaves r) ->
  exists r', replicationFeedSlaves r dictid argv = Some r' /\ slaveseldb r' = dictid /\
    backlog_ok r' (hist ++ encode_requests (propagated r dictid argv)) /\ kept r (encode_requests (propagated r dictid argv)) r' /\
    master_repl_offset r' = master_repl_offset r + zlen (encode_requests (propagated r dictid argv)) /\
    Forall2 (slave_fed (propagate_cost dictid argv) (encode_requests (propagated r dictid argv))) (slaves r) (slaves r').
Proof.
  intros Hm Hb Hok Hd Hn Ha Hr. unfold replicationFeedSlaves. rewrite Hm, Hb. cbn [negb andb]. rewrite andb_false_r.
  pose proof (bulk_cost_nonneg argv). pose proof (reply_cost_pos (header 42 (zlen argv))).
  pose proof (cost_pos _ _ usable_range (select_bytes dictid)).
  assert (0 <= command_cost argv) as HK by (unfold command_cost; lia).
  destruct (select_spec r hist dictid (command_cost argv) Hb Hok Hd Hr HK) as (r1 & -> & B1 & M1 & K1 & B2 & B3 & S1). cbn [mbind option_bind].
  change (has_backlog (set_seldb r1 dictid)) with (has_backlog r1). rewrite B1. set (p1 := if slaveseldb r =? dictid then [] else _) in *.
  set (c := encode_request (ReqMulti (obj_bytes <$> argv))).
  assert (encode_requests (propagated r dictid argv) = p1 ++ c) as Ep.
  { assert (forall q, encode_requests [q] = encode_request q) as E1 by (intros q; apply app_nil_r).
    unfold propagated, p1. rewrite encode_app, E1. f_equal. destruct (slaveseldb r =? dictid); [done|apply E1]. }
  pose proof (zlen_nonneg argv). rewrite aux_header_spec by lia. cbn [mbind option_bind].
  destruct (feed_backlog_fed (set_seldb r1 dictid) (hist ++ p1) (header 42 (zlen argv)) B1 (B2 _ Hok)) as (r2 & -> & F2). cbn [mbind option_bind].
  destruct (feed_args_fed argv r2 _ Ha (bf_has _ _ _ F2) (bf_ok _ _ _ F2 _ (B2 _ Hok))) as (r3 & -> & F3). cbn [mbind option_bind].
  pose proof (fed_trans _ _ _ _ _ F2 F3) as [C1 C2 C3 C4 C5 C6 C7]. rewrite C4. cbn [set_seldb master_repl_offset slaves slaveseldb] in C3, C4, C5.
  assert (header 42 (zlen argv) ++ bulks (obj_bytes <$> argv) = c) as Ec by (unfold c; cbn [encode_request]; by rewrite zlen_fmap).
  rewrite Ec in *. change (slaves (set_seldb r1 dictid)) with (slaves r1) in *.
  assert (slaves_ready (command_cost argv) (slaves r1)) as Hr1 by (eapply slave_fed_ready; [|exact Hr|exact S1]; lia).
  destruct (feed_slaves_spec (fun c => c ← addReplyArrayLen usable client_obuf_limits unixtime c (zlen argv); bulk_args c argv)
    (command_cost argv) c (slaves r1) Hr1) as (l & -> & S2); [intros; by apply command_spec|].
  cbn [mbind option_bind]. eexists. split; [done|]. rewrite Ep. split; [done|]. split.
  { change (backlog_ok r3 (hist ++ p1 ++ c)). rewrite app_assoc. apply C2. exact (B2 _ Hok). }
  split; [by eapply (kept_trans r p1 r1 c r3)|]. split; [simpl; rewrite zlen_app; lia|]. by apply (slaves_fed_trans _ _ _ _ (slaves r) (slaves r1)).
Qed.

(** C15: A master that propagates a command adds to its history, to the backlog
    and to the output of every replica it can feed exactly the same bytes: the
    encoding of the requests, a SELECT first when the database changed.  The
    backlog keeps all it had and these bytes, up to its size.  The
    input component of a replica turns these bytes back into the commands. *)
Theorem command_propagation r hist dictid argv :
  masterhost r = false -> has_backlog r = true -> backlog_ok r hist -> in_s 32 dictid ->
  zlen argv < 2 ^ 63 -> Forall arg_fits argv -> slaves_ready (propagate_cost dictid argv) (slaves r) ->
  exists r', replicationFeedSlaves r dictid argv = Some r' /\ slaveseldb r' = dictid /\
    backlog_ok r' (hist ++ encode_requests (propagated r dictid argv)) /\ kept r (encode_requests (propagated r dictid argv)) r' /\
    master_repl_offset r' = master_repl_offset r + zlen (encode_requests (propagated r dictid argv)) /\
    Forall2 (slave_fed (propagate_cost dictid argv) (encode_requests (propagated r dictid argv))) (slaves r) (slaves r').
Proof. exact (propagate_spec r hist dictid argv). Qed.

(** ** Every history of a master *)

(** The bytes a step adds to the history. *)
Definition propagated_bytes (r : repl) (dictid : Z) (argv : list robj) : bytes :=
  if masterhost r || negb (has_backlog r) then [] else encode_requests (propagated r dictid argv).

Lemma set_slaves_ok r l hist : backlog_ok r hist -> backlog_ok (set_slaves r l) hist.
Proof. done. Qed.

Lemma feed_select_some r hist dictid r' :
  has_backlog r = true -> backlog_ok r hist -> in_s 32 dictid -> feed_select r dictid = Some r' ->
  let p := if slaveseldb r =? dictid then [] else select_bytes dictid in
  has_backlog r' = true /\ backlog_ok r' (hist ++ p) /\ master_repl_offset r' = master_repl_offset r + zlen p /\ kept r p r'.
Proof.
  intros Hb Hok Hd. unfold feed_select. destruct (slaveseldb r =? dictid); cbn [negb].
  - intros [= <-]. rewrite app_nil_r. split_and!; try done; [unfold zlen; simpl; lia|by eapply kept_same].
  - rewrite select_cmd_spec by done. fold (select_bytes dictid). cbn [mbind option_bind]. rewrite Hb.
    destruct (feed_object_fed r hist (ObjStr (select_bytes dictid)) I Hb Hok) as (r1 & -> & [B1 B2 B3 B4 B5 B6 B7]). cbn [mbind option_bind].
    destruct (feed_slaves _ (slaves r1)) as [l|]; [|done]. cbn [mbind option_bind]. intros [= <-]. split_and!; try done. by apply B2.
Qed.

Lemma propagate_some r hist dictid argv r' :
  backlog_ok r hist -> in_s 32 dictid -> zlen argv < 2 ^ 63 -> Forall arg_fits argv -> replicationFeedSlaves r dictid argv = Some r' ->
  backlog_ok r' (hist ++ propagated_bytes r dictid argv) /\
  master_repl_offset r' = master_repl_offset r + zlen (propagated_bytes r dictid argv) /\
  (has_backlog r = true -> kept r (propagated_bytes r dictid argv) r').
Proof.
  intros Hok Hd Hn Ha. unfold replicationFeedSlaves, propagated_bytes. pose proof (zlen_nonneg argv) as Hnn.
  assert (forall r', Some r = Some r' -> backlog_ok r' (hist ++ []) /\ master_repl_offset r' = master_repl_offset r + zlen (@nil Z) /\
    (has_backlog r = true -> kept r [] r')) as Hsame.
  { intros ? [= <-]. rewrite app_nil_r. split_and!; [done|unfold zlen; simpl; lia|]. intros Hb. by eapply kept_same. }
  destruct (masterhost r); [apply Hsame|]. destruct (has_backlog r) eqn:Hb; cbn [negb andb orb].
  2: { destruct (zlen (slaves r) =? 0); cbn [negb andb]; [|done]. intros E. by destruct (Hsame r' E) as (H1 & H2 & _). }
  rewrite andb_false_r. destruct (feed_select r dictid) as [r1|] eqn:Es; [|done]. cbn [mbind option_bind].
  destruct (feed_select_some r hist dictid r1 Hb Hok Hd Es) as (B1 & B2 & B3 & K1). set (p := if slaveseldb r =? dictid then [] else _) in *.
  change (has_backlog (set_seldb r1 dictid)) with (has_backlog r1). rewrite B1, aux_header_spec by lia. cbn [mbind option_bind].
  destruct (feed_backlog_fed (set_seldb r1 dictid) (hist ++ p) (header 42 (zlen argv)) B1 B2) as (r2 & -> & F2). cbn [mbind option_bind].
  destruct (feed_args_fed argv r2 _ Ha (bf_has _ _ _ F2) (bf_ok _ _ _ F2 _ B2)) as (r3 & -> & F3). cbn [mbind option_bind].
  pose proof (fed_trans _ _ _ _ _ F2 F3) as [C1 C2 C3 C4 C5 C6 C7].
  destruct (feed_slaves _ (slaves r3)) as [l|]; [|done]. cbn [mbind option_bind]. intros [= <-].
  assert (encode_requests (propagated r dictid argv) = p ++ header 42 (zlen argv) ++ bulks (obj_bytes <$> argv)) as ->.
  { assert (forall q, encode_requests [q] = encode_request q) as E1 by (intros q; apply app_nil_r).
    unfold propagated, p. rewrite encode_app, E1. cbn [encode_request]. rewrite zlen_fmap. f_equal.
    destruct (slaveseldb r =? dictid); [done|apply E1]. }
  split_and!; [|change (master_repl_offset (set_slaves r3 l)) with (master_repl_offset r3); rewrite C3, !zlen_app; change (master_repl_offset (set_seldb r1 dictid)) with (master_repl_offset r1); lia|].
  - apply set_slaves_ok. rewrite app_assoc. apply C2. exact B2.
  - intros _. by eapply (kept_trans r p r1 _ r3).
Qed.

(** The operations of a master, with the bytes each adds to the history. *)
Inductive repl_step : repl -> bytes -> repl -> Prop :=
  | st_create r r' : 0 < repl_backlog_size r -> createReplicationBacklog r = Some r' -> repl_step r [] r'
  | st_resize r n : repl_step r [] (resizeReplicationBacklog r n)
  | st_free r r' : freeReplicationBacklog r = Some r' -> repl_step r [] r'
  | st_expire r r' id : expire_backlog r id = Some r' -> repl_step r [] r'
  | st_command r r' dictid argv : in_s 32 dictid -> zlen argv < 2 ^ 63 -> Forall arg_fits argv ->
      replicationFeedSlaves r dictid argv = Some r' -> repl_step r (propagated_bytes r dictid argv) r'
  | st_proxy r r' buf : replicationFeedSlavesFromMasterStream r buf = Some r' -> repl_step r (if has_backlog r then buf else []) r'
  | st_shift r id : repl_step r [] (shiftReplicationId r id)
  | st_psync r s id o ok r' s' d : masterTryPartialResynchronization r s id o ok = Some (Continue r' s' d) -> repl_step r [] r'
  | st_full r s o ok r' s' d b : replicationSetupSlaveForFullResync r s o ok = (r', s', d, b) -> repl_step r [] r'
  | st_slaves r l : repl_step r [] (set_slaves r l)
  | st_host r b : repl_step r [] (set_host r b).

(** A server without backlog, at any offset, and the histories it can have. *)
Inductive history : repl -> Z -> bytes -> Prop :=
  | hi_start r : repl_backlog r = None -> history r (master_repl_offset r) []
  | hi_step r base h p r' : history r base h -> repl_step r p r' -> history r' base (h ++ p).

Lemma empty_backlog_ok r size hist :
  (forall n, 0 <= n -> zlen (zmalloc n) = n) -> 0 < size -> backlog_ok (empty_backlog r size) hist.
Proof.
  intros Hz Hs. unfold backlog_ok, empty_backlog. cbn [repl_backlog set_backlog repl_backlog_size repl_backlog_idx repl_backlog_histlen repl_backlog_off master_repl_offset].
  rewrite Hz by lia. pose proof (zlen_nonneg hist). split_and!; try lia. intros a Ha. lia.
Qed.

Lemma psync_ok r s id o ok r' s' d hist :
  masterTryPartialResynchronization r s id o ok = Some (Continue r' s' d) -> backlog_ok r hist ->
  backlog_ok r' hist /\ master_repl_offset r' = master_repl_offset r /\
  repl_backlog_size r' = repl_backlog_size r /\ repl_backlog_histlen r' = repl_backlog_histlen r.
Proof.
  unfold masterTryPartialResynchronization. destruct (getLongLongFromObject o) as [po|].
  2: { destruct (addReplyErrorLength _ _ _ _ _); done. }
  destruct (_ && _); [done|]. destruct (_ || _); [done|]. destruct ok; cbn [negb].
  - destruct (addReplyReplicationBacklog _ _ _) as [[c n]|]; [|done]. cbn [mbind option_bind]. intros [= <- <- <-] H.
    unfold refreshGoodSlavesCount. by destruct (_ || _).
  - intros [= <- <- <-] H. done.
Qed.

(** What a step leaves in a backlog that exists before and after it: the bytes
    kept and the new ones up to the size, unless the backlog was resized. *)
Lemma step_keeps r h p r' :
  backlog_ok r h -> repl_step r p r' -> has_backlog r = true -> has_backlog r' = true ->
  kept r p r' \/ (p = [] /\ repl_backlog_size r' <> repl_backlog_size r).
Proof.
  intros Hok Hs Hb Hb'.
  assert (forall r1, repl_backlog_size r1 = repl_backlog_size r -> repl_backlog_histlen r1 = repl_backlog_histlen r ->
    kept r [] r1 \/ (@nil Z = [] /\ repl_backlog_size r1 <> repl_backlog_size r)) as Hno by (intros; left; by eapply kept_same).
  destruct Hs as [r r' H0 Hc|r n|r r' Hc|r r' id Hc|r r' dictid argv Hd Hn Ha Hc|r r' buf Hc|r id|r s id o ok r' s' d Hc|r s o ok r' s' d b Hc|r l|r b];
    try by apply Hno.
  - unfold createReplicationBacklog, has_backlog in *. by destruct (repl_backlog r).
  - revert Hno Hb. unfold resizeReplicationBacklog. set (m := if n <? _ then _ else n). intros Hno Hb.
    destruct (Z.eqb_spec (repl_backlog_size r) m); [by apply Hno|]. right. split; [done|].
    by destruct (repl_backlog r); simpl; intros E.
  - unfold freeReplicationBacklog in Hc. destruct (negb _); [done|]. by injection Hc as <-.
  - unfold expire_backlog, freeReplicationBacklog in Hc. destruct (negb _); [done|]. by injection Hc as <-.
  - left. by destruct (propagate_some r h dictid argv r' Hok Hd Hn Ha Hc) as (_ & _ & K); apply K.
  - left. unfold replicationFeedSlavesFromMasterStream in Hc. rewrite Hb in Hc |- *.
    destruct (feed_backlog_fed r h buf Hb Hok) as (r1 & E & [B1 B2 B3 B4 B5 B6 B7]). rewrite E in Hc. cbn [mbind option_bind] in Hc.
    destruct (feed_slaves _ _); [|done]. by injection Hc as <-.
  - destruct (psync_ok _ _ _ _ _ _ _ _ h Hc Hok) as (_ & _ & E1 & E2). by apply Hno.
  - unfold replicationSetupSlaveForFullResync in Hc. destruct (has _ CLIENT_PRE_PSYNC); [|destruct (negb ok)]; injection Hc as <- _ _ _; by apply Hno.
Qed.

(** The offset and the content of the backlog. *)
Lemma history_ok r base h :
  (forall n, 0 <= n -> zlen (zmalloc n) = n) -> history r base h ->
  master_repl_offset r = base + zlen h /\ backlog_ok r h.
Proof.
  intros Hz. induction 1 as [r Hn|r base h p r' Hh [IH1 IH2] Hs].
  { split; [unfold zlen; simpl; lia|]. unfold backlog_ok. by rewrite Hn. }
  assert (forall r1, master_repl_offset r1 = master_repl_offset r -> backlog_ok r1 h -> p = [] ->
    master_repl_offset r1 = base + zlen (h ++ p) /\ backlog_ok r1 (h ++ p)) as Hno.
  { intros r1 E H ->. rewrite app_nil_r. split; [congruence|done]. }
  destruct Hs as [r r' H0 Hc|r n|r r' Hc|r r' id Hc|r r' dictid argv Hd Hn Ha Hc|r r' buf Hc|r id|r s id o ok r' s' d Hc|r s o ok r' s' d b Hc|r l|r b].
  - unfold createReplicationBacklog in Hc. destruct (repl_backlog r); [done|]. injection Hc as <-. apply Hno; [done|by apply empty_backlog_ok|done].
  - apply Hno; [| |done]; unfold resizeReplicationBacklog; set (m := if n <? _ then _ else n); destruct (_ =? m) eqn:Em; try done;
      destruct (repl_backlog r) eqn:Eb; try done. apply empty_backlog_ok; [done|].
    unfold m, CONFIG_REPL_BACKLOG_MIN_SIZE. destruct (Z.ltb_spec n (1024 * 16)); lia.
  - unfold freeReplicationBacklog in Hc. destruct (negb _); [done|]. injection Hc as <-. by apply Hno.
  - unfold expire_backlog, freeReplicationBacklog in Hc. destruct (negb _); [done|]. injection Hc as <-. by apply Hno.
  - destruct (propagate_some r h dictid argv r' IH2 Hd Hn Ha Hc) as (H1 & H2 & _). split; [rewrite zlen_app; lia|done].
  - unfold replicationFeedSlavesFromMasterStream in Hc. destruct (has_backlog r) eqn:Hb.
    + destruct (feed_backlog_fed r h buf Hb IH2) as (r1 & E & [B1 B2 B3 B4 B5 B6 B7]). rewrite E in Hc. cbn [mbind option_bind] in Hc.
      destruct (feed_slaves _ _); [|done]. injection Hc as <-. split; [simpl; rewrite zlen_app; lia|]. by apply B2.
    + cbn [mbind option_bind] in Hc. destruct (feed_slaves _ _); [|done]. injection Hc as <-. by apply Hno.
  - by apply Hno.
  - destruct (psync_ok _ _ _ _ _ _ _ _ h Hc IH2) as (? & ? & _). by apply Hno.
  - unfold replicationSetupSlaveForFullResync in Hc. destruct (has _ CLIENT_PRE_PSYNC); [|destruct (negb ok)]; injection Hc as <- _ _ _; by apply Hno.
  - by apply Hno.
  - by apply Hno.
Qed.

(** C7: In every history of a master, from a start without backlog on, through
    creation, resizing, expiry, propagated commands, a proxied stream, changes of
    replication ID and resynchronizations: the replication offset counts the
    bytes of the history, and the backlog, when there is one, holds exactly the
    end of it, with the offset of its first byte.  No byte is dropped early: a
    step on a backlog keeps what it had and the new bytes, up to its size, and
    only a change of the size empties it. *)
Theorem backlog_holds_history r base h :
  (forall n, 0 <= n -> zlen (zmalloc n) = n) -> history r base h ->
  master_repl_offset r = base + zlen h /\ backlog_ok r h /\
  (forall p r', repl_step r p r' -> has_backlog r = true -> has_backlog r' = true ->
     kept r p r' \/ (p = [] /\ repl_backlog_size r' <> repl_backlog_size r)).
Proof.
  intros Hz Hh. destruct (history_ok r base h Hz Hh) as [H1 H2]. split_and!; [done|done|].
  intros p r'. by apply (step_keeps r h).
Qed.

(** Whether PSYNC is accepted. *)
Definition psync_accepted (r : repl) (id : bytes) (o : Z) : bool :=
  (same_id id (replid r) || (same_id id (replid2 r) && (o <=? second_replid_offset r))) &&
  has_backlog r && (repl_backlog_off r <=? o) && (o <=? repl_backlog_off r + repl_backlog_histlen r).

(** C11: PSYNC with an offset: when the ID is the one of the master, or its
    previous one and the offset is not past the switch, and the backlog still
    has the bytes asked for, the replica is told to continue and gets exactly
    the bytes of the history from that offset on, up to the last one; otherwise
    nothing is sent and a full resynchronization is needed. *)
Theorem psync_sends_missing_bytes r base hist s id offset o :
  backlog_ok r hist -> master_repl_offset r = base + zlen hist -> getLongLongFromObject offset = Some o -> out_wf (cl s) ->
  fits (cl s) (two_pieces hist) ->
  if psync_accepted r id o then
    base < o <= base + zlen hist + 1 /\
    exists r' s' sent rest, masterTryPartialResynchronization r s id offset true = Some (Continue r' s' (continue_reply r s)) /\
      drop (Z.to_nat (o - base - 1)) hist = sent ++ rest /\ pending (cl s') = pending (cl s) ++ sent /\
      (rest = [] \/ accepts (cl s') = false) /\ slaves r' = slaves r ++ [s'] /\ replstate (cl s') = SLAVE_STATE_ONLINE
  else masterTryPartialResynchronization r s id offset true = Some (FullResync s).
Proof.
  intros Hok Hoff Ho W F. unfold masterTryPartialResynchronization, psync_accepted. rewrite Ho.
  destruct (same_id id (replid r) || (same_id id (replid2 r) && (o <=? second_replid_offset r))) eqn:Eid.
  2: { replace (negb (same_id id (replid r)) && _) with true; [done|]. symmetry.
       apply orb_false_iff in Eid as [-> Eid]. cbn [negb andb]. destruct (same_id id (replid2 r)); [|done]. cbn [negb orb andb] in *. lia. }
  replace (negb (same_id id (replid r)) && _) with false.
  2: { symmetry. apply orb_true_iff in Eid as [->|Eid]; [done|]. apply andb_true_iff in Eid as [-> Eid]. cbn [negb orb].
       destruct (negb (same_id id (replid r))); [|done]. simpl. lia. }
  destruct (has_backlog r) eqn:Hb; cbn [negb orb andb]; [|done].
  destruct ((repl_backlog_off r <=? o) && (o <=? repl_backlog_off r + repl_backlog_histlen r)) eqn:Er.
  2: { replace ((o <? repl_backlog_off r) || _) with true by lia. done. }
  replace ((o <? repl_backlog_off r) || _) with false by lia.
  assert (base < o <= base + zlen hist + 1) as Hr.
  { unfold backlog_ok, has_backlog in *. destruct (repl_backlog r) as [b|]; [|done]. destruct Hok as (? & ? & ? & ? & ? & _). lia. }
  split; [done|]. set (s0 := put_online s).
  assert (out_wf (cl s0) /\ pending (cl s0) = pending (cl s)) as [W0 P0] by (split; [destruct W as [W1 W2 W3 W4]; by split|done]).
  set (d := drop (Z.to_nat (o - base - 1)) hist).
  assert (drop (Z.to_nat (zlen hist - (master_repl_offset r + 1 - o))) hist = d) as Ed by (unfold d; f_equal; lia).
  destruct (addReplyReplicationBacklog_spec r hist (cl s0) o Hb Hok) as (c' & sent & rest & E & W' & He & Es & Hp & Hx & _); [lia|done| |].
  { rewrite Ed. change (fits (cl s) (two_pieces d)). unfold fits, two_pieces in *. unfold d. rewrite zlen_drop_max. lia. }
  rewrite E. cbn [negb mbind option_bind]. rewrite Ed in Es. eexists _, _, sent, rest. split; [done|].
  split_and!; try done.
  - unfold refreshGoodSlavesCount. by destruct ((repl_min_slaves_to_write =? 0) || (repl_min_slaves_max_lag =? 0)).
  - simpl. destruct He as (_ & _ & _ & _ & ->). done.
Qed.

(** ** From the master to the execution on a replica *)

Section replica_side.
Context (proto_max_bulk_len client_max_querybuf_len now : Z) (io_threads_reads : bool) (processGopherRequest : in_client -> in_client).
Context (processCommand : Z -> list bytes -> command_proc * Z * bool * bool) (calm_commands : calm_command false processCommand).

(** The input component of the replica, for the link to its master. *)
Definition replica_feed : in_client -> list bytes -> option in_client :=
  feed proto_max_bulk_len client_max_querybuf_len now false io_threads_reads false processGopherRequest processCommand.

(** C1: End to end: a command the master propagates is queued for a replica in
    sync, and however the bytes queued are cut into reads on the other side,
    the replica executes exactly that command, a SELECT before it when the
    database changed, and nothing is left over. *)
Theorem replica_executes_propagated r hist dictid argv i s :
  masterhost r = false -> has_backlog r = true -> backlog_ok r hist -> in_s 32 dictid ->
  zlen argv < 2 ^ 63 -> Forall arg_fits argv -> slaves_ready (propagate_cost dictid argv) (slaves r) ->
  slaves r !! i = Some s -> canFeedReplicaReplBuffer (cl s) = true -> pending (cl s) = [] ->
  Forall (fun q => request_ok proto_max_bulk_len false true q = true) (propagated r dictid argv) ->
  zlen (encode_requests (propagated r dictid argv)) <= client_max_querybuf_len ->
  exists r' s', replicationFeedSlaves r dictid argv = Some r' /\ slaves r' !! i = Some s' /\
    (accepts (cl s') = true -> forall base f chunks, calm false f -> fhas f CLIENT_MASTER = true -> chunks <> [] ->
     mjoin chunks = pending (cl s') ->
     exists c, replica_feed (fresh_client base f) chunks = Some c /\ executed c = commands (propagated r dictid argv) /\
       replies c = [] /\ querybuf c = []).
Proof.
  intros Hm Hb Hok Hd Hn Ha Hr Hi Hcan Hp Hq Hmax.
  destruct (propagate_spec r hist dictid argv Hm Hb Hok Hd Hn Ha Hr) as (r' & E & _ & _ & _ & _ & H2).
  destruct (Forall2_lookup_l _ _ _ _ _ H2 Hi) as (s' & Hi' & _ & _ & _ & _ & Hs). rewrite Hcan in Hs.
  exists r', s'. split; [done|]. split; [done|]. intros Hacc base f chunks Hf Hfm Hne Ec.
  destruct Hs as (? & sent & rest & [= <-] & _ & _ & _ & _ & Es & Hp' & Hx & _). destruct Hx as [->|Hx]; [|congruence].
  rewrite app_nil_r in Es. rewrite Hp, <-Es in Hp'. simpl in Hp'. rewrite Hp' in Ec.
  assert (reading proto_max_bulk_len false false base true (fresh_client base f) [] (propagated r dictid argv) [] (mjoin chunks ++ [])) as Hrd.
  { rewrite Ec, app_nil_r. apply fresh_reading; [done|done|by rewrite Hfm]. }
  destruct (feed_spec proto_max_bulk_len client_max_querybuf_len now false io_threads_reads false processGopherRequest processCommand calm_commands
    base true chunks (fresh_client base f) [] (propagated r dictid argv) [] [] Hrd) as (c & d & t & Ef & Ed & Hrd' & Ht & Hinc); [done|done|done|].
  simpl in Ed. destruct (reading_total _ _ _ _ _ _ _ _ _ _ Hrd') as (x & Ex & Ext). rewrite app_nil_r in Ext. subst x. simpl in Ex.
  assert (t = []) as ->.
  { destruct t as [|q t]; [done|]. specialize (Hinc q t eq_refl). simpl in Hinc. rewrite Ex, encode_app, encode_cons, !zlen_app in Hinc.
    rewrite encode_cons in Hinc. change (encode_requests []) with (@nil Z) in Hinc. rewrite app_nil_r in Hinc.
    pose proof (zlen_nonneg (encode_requests t)). lia. }
  rewrite app_nil_r in Ed. exists c. split; [exact Ef|]. rewrite Ed. destruct Hrd' as [_ _ _ (R & He & HR) _ Hre Hex _ _].
  split; [done|]. split; [done|]. apply expects_nil in He as (-> & _). rewrite app_nil_r in HR. by rewrite <-trimmed_unparsed.
Qed.

End replica_side.

End repl.

(** ** Witnesses *)

Definition zeros (n : Z) : bytes := replicate (Z.to_nat n) 0.

Lemma zeros_length n : 0 <= n -> zlen (zeros n) = n.
Proof. intros H. unfold zeros, zlen. rewrite length_replicate. lia. Qed.

Definition new_replica : replica :=
  mk_replica (mk_client CLIENT_SLAVE 2 true SLAVE_STATE_ONLINE false [] 0 [] 0 0) SLAVE_CAPA_PSYNC2 0 0 0.

(** A ring of 16 bytes, so that a short history wraps around. *)
Definition start_master : repl := mk_repl None 16 0 0 0 7 (str "id1") (str "id0") 5 (-1) false [] 0.

Definition small_master : repl :=
  default start_master
    (r ← createReplicationBacklog zeros start_master;
     r ← replicationFeedSlavesFromMasterStream exact_size no_limits 0 r (str "PING the replicas");
     Some r).

Lemma small_master_history : history zeros exact_size no_limits 0 0 0 small_master 7 (str "PING the replicas").
Proof.
  apply (hi_step _ _ _ _ _ _ (default start_master (createReplicationBacklog zeros start_master)) 7 [] (str "PING the replicas")).
  - apply (hi_step _ _ _ _ _ _ start_master 7 [] []); [by apply hi_start|]. by apply st_create.
  - apply (st_proxy _ _ _ _ _ _ (default start_master (createReplicationBacklog zeros start_master)) small_master (str "PING the replicas")).
    vm_compute. reflexivity.
Qed.

Lemma backlog_holds_history_witness :
  master_repl_offset small_master = 7 + zlen (str "PING the replicas") /\ backlog_ok small_master (str "PING the replicas") /\
  (forall p r', repl_step zeros exact_size no_limits 0 0 0 small_master p r' -> has_backlog small_master = true -> has_backlog r' = true ->
     kept small_master p r' \/ (p = [] /\ repl_backlog_size r' <> repl_backlog_size small_master)).
Proof.
  apply (backlog_holds_history zeros exact_size no_limits 0 0 0); [exact zeros_length|exact small_master_history].
Defined.

Lemma small_master_ok : backlog_ok small_master (str "PING the replicas").
Proof.
  destruct (feed_backlog_fed (empty_backlog zeros start_master 16) [] (str "PING the replicas")) as (r & E & F).
  - reflexivity.
  - apply empty_backlog_ok; [exact zeros_length|lia].
  - replace small_master with r; [|vm_compute in E; injection E as <-; vm_compute; reflexivity].
    apply (bf_ok _ _ _ F []). apply empty_backlog_ok; [exact zeros_length|lia].
Qed.

Lemma psync_sends_missing_bytes_witness :
  if psync_accepted small_master (str "ID1") 12 then
    7 < 12 <= 7 + zlen (str "PING the replicas") + 1 /\
    exists r' s' sent rest,
      masterTryPartialResynchronization exact_size no_limits 0 0 0 small_master new_replica (str "ID1") (ObjInt 12) true =
        Some (Continue r' s' (continue_reply small_master new_replica)) /\
      drop (Z.to_nat (12 - 7 - 1)) (str "PING the replicas") = sent ++ rest /\ pending (cl s') = pending (cl new_replica) ++ sent /\
      (rest = [] \/ accepts (cl s') = false) /\ slaves r' = slaves small_master ++ [s'] /\ replstate (cl s') = SLAVE_STATE_ONLINE
  else masterTryPartialResynchronization exact_size no_limits 0 0 0 small_master new_replica (str "ID1") (ObjInt 12) true = Some (FullResync new_replica).
Proof.
  apply (psync_sends_missing_bytes exact_size no_limits 0 0 0 0 exact_range small_master 7 (str "PING the replicas")).
  - exact small_master_ok.
  - vm_compute. reflexivity.
  - reflexivity.
  - split; [reflexivity|constructor|left; reflexivity|vm_compute; discriminate].
  - vm_compute. reflexivity.
Defined.

(** SET with an integer, in a database other than the selected one. *)
Definition set_args : list robj := [ObjStr (str "SET"); ObjStr (str "k"); ObjInt 12].
Definition served_master : repl := set_slaves small_master [new_replica].

Lemma command_propagation_witness :
  exists r', replicationFeedSlaves exact_size no_limits 0 served_master 3 set_args = Some r' /\ slaveseldb r' = 3 /\
    backlog_ok r' (str "PING the replicas" ++ encode_requests (propagated served_master 3 set_args)) /\
    kept served_master (encode_requests (propagated served_master 3 set_args)) r' /\
    master_repl_offset r' = master_repl_offset served_master + zlen (encode_requests (propagated served_master 3 set_args)) /\
    Forall2 (slave_fed (propagate_cost 0 3 set_args) (encode_requests (propagated served_master 3 set_args))) (slaves served_master) (slaves r').
Proof.
  apply (command_propagation exact_size no_limits 0 0 exact_range served_master (str "PING the replicas") 3 set_args).
  - vm_compute. reflexivity.
  - vm_compute. reflexivity.
  - exact small_master_ok.
  - lia.
  - vm_compute. reflexivity.
  - repeat (constructor; [split; [first [exact I|vm_compute; split; [discriminate|reflexivity]]|vm_compute; reflexivity]|]). constructor.
  - repeat constructor; try (vm_compute; reflexivity); try (vm_compute; discriminate).
Defined.

Lemma replica_executes_propagated_witness :
  exists r' s', replicationFeedSlaves exact_size no_limits 0 served_master 3 set_args = Some r' /\ slaves r' !! 0%nat = Some s' /\
    (accepts (cl s') = true -> forall base f chunks, calm false f -> fhas f CLIENT_MASTER = true -> chunks <> [] ->
     mjoin chunks = pending (cl s') ->
     exists c, replica_feed 536870912 1073741824 0 false (fun c => c) toy_command (fresh_client base f) chunks = Some c /\
       executed c = commands (propagated served_master 3 set_args) /\ replies c = [] /\ querybuf c = []).
Proof.
  apply (replica_executes_propagated exact_size no_limits 0 0 exact_range 536870912 1073741824 0 false (fun c => c) toy_command toy_calm
    served_master (str "PING the replicas") 3 set_args 0%nat new_replica).
  - vm_compute. reflexivity.
  - vm_compute. reflexivity.
  - exact small_master_ok.
  - lia.
  - vm_compute. reflexivity.
  - repeat (constructor; [split; [first [exact I|vm_compute; split; [discriminate|reflexivity]]|vm_compute; reflexivity]|]). constructor.
  - repeat constructor; try (vm_compute; reflexivity); try (vm_compute; discriminate).
  - reflexivity.
  - reflexivity.
  - reflexivity.
  - repeat (constructor; [vm_compute; reflexivity|]). constructor.
  - vm_compute. discriminate.
Defined.
