(* ===== verification/Bitmap.v ===== *)
(** * bitops.c: low level bit functions

    A bitmap is a block of bytes; bit 0 is the most significant bit of the
    first byte.  [bits_of bs] is that list of bits, the reference every
    function of this file is compared with: redisPopcount counts its ones,
    redisBitpos finds its first bit of a kind, the bitfield functions read and
    write a run of it.

    The two counting functions take the address of the block because the code
    first consumes bytes up to an aligned address and then reads whole words in
    the byte order of the host ([be]); the results depend on neither.  A read
    or a write outside the block is [None], and so is the panic at the end of
    redisBitpos. *)

From S2P Require Import Prelude Endian.

(** ** redisPopcount *)

Definition bitsinbyte : list Z :=
  [0; 1; 1; 2; 1; 2; 2; 3; 1; 2; 2; 3; 2; 3; 3; 4; 1; 2; 2; 3; 2; 3; 3; 4; 2; 3; 3; 4; 3; 4; 4; 5;
   1; 2; 2; 3; 2; 3; 3; 4; 2; 3; 3; 4; 3; 4; 4; 5; 2; 3; 3; 4; 3; 4; 4; 5; 3; 4; 4; 5; 4; 5; 5; 6;
   1; 2; 2; 3; 2; 3; 3; 4; 2; 3; 3; 4; 3; 4; 4; 5; 2; 3; 3; 4; 3; 4; 4; 5; 3; 4; 4; 5; 4; 5; 5; 6;
   2; 3; 3; 4; 3; 4; 4; 5; 3; 4; 4; 5; 4; 5; 5; 6; 3; 4; 4; 5; 4; 5; 5; 6; 4; 5; 5; 6; 5; 6; 6; 7;
   1; 2; 2; 3; 2; 3; 3; 4; 2; 3; 3; 4; 3; 4; 4; 5; 2; 3; 3; 4; 3; 4; 4; 5; 3; 4; 4; 5; 4; 5; 5; 6;
   2; 3; 3; 4; 3; 4; 4; 5; 3; 4; 4; 5; 4; 5; 5; 6; 3; 4; 4; 5; 4; 5; 5; 6; 4; 5; 5; 6; 5; 6; 6; 7;
   2; 3; 3; 4; 3; 4; 4; 5; 3; 4; 4; 5; 4; 5; 5; 6; 3; 4; 4; 5; 4; 5; 5; 6; 4; 5; 5; 6; 5; 6; 6; 7;
   3; 4; 4; 5; 4; 5; 5; 6; 4; 5; 5; 6; 5; 6; 6; 7; 4; 5; 5; 6; 5; 6; 6; 7; 5; 6; 6; 7; 6; 7; 7; 8].

(** bitsinbyte[*p] *)
Definition byte_count (m : bytes) (p : Z) : option Z := b ← mget m p; bitsinbyte !! Z.to_nat b.

(** Count initial bytes not aligned to 32 bit: bits, p and count at the end. *)
Fixpoint count_unaligned (addr : Z) (m : bytes) (count : nat) (p bits : Z) : option (Z * Z * nat) :=
  if Z.land (addr + p) 3 =? 0 then Some (bits, p, count)
  else match count with
  | O => Some (bits, p, count)
  | S count => n ← byte_count m p; count_unaligned addr m count (p + 1) (bits + n)
  end.

(** The steps on one word of four bytes, in arithmetic of 32 bits. *)
Definition swar_pairs (aux : Z) : Z := u32 (aux - Z.land (Z.shiftr aux 1) 0x55555555).
Definition swar_nibbles (aux : Z) : Z := u32 (Z.land aux 0x33333333 + Z.land (Z.shiftr aux 2) 0x33333333).
Definition swar_bytes (aux : Z) : Z := Z.land (u32 (aux + Z.shiftr aux 4)) 0x0F0F0F0F.

Definition swar (aux : Z) : Z := swar_bytes (swar_nibbles (swar_pairs aux)).

(** What the seven words of a step add to bits. *)
Definition count_28 (aux1 aux2 aux3 aux4 aux5 aux6 aux7 : Z) : Z :=
  Z.shiftr (u32 (u32 (swar aux1 + swar aux2 + swar aux3 + swar aux4 + swar aux5 + swar aux6 + swar aux7)
                 * 0x01010101)) 24.

(** [*p4], a uint32_t. *)
Definition load32 (be : bool) (m : bytes) (p : Z) : option Z := host_decode be <$> mload m p 4.

Definition count_step (be : bool) (m : bytes) (p : Z) : option Z :=
  aux1 ← load32 be m p; aux2 ← load32 be m (p + 4); aux3 ← load32 be m (p + 8); aux4 ← load32 be m (p + 12);
  aux5 ← load32 be m (p + 16); aux6 ← load32 be m (p + 20); aux7 ← load32 be m (p + 24);
  Some (count_28 aux1 aux2 aux3 aux4 aux5 aux6 aux7).

(** Count bits 28 bytes at a time. *)
Fixpoint count_words (fuel : nat) (be : bool) (m : bytes) (p bits : Z) (count : nat) : option (Z * Z * nat) :=
  if bool_decide (28 <= count)%nat then
    match fuel with
    | O => None
    | S fuel => n ← count_step be m p; count_words fuel be m (p + 28) (bits + n) (count - 28)%nat
    end
  else Some (bits, p, count).

(** Count the remaining bytes. *)
Fixpoint count_rest (m : bytes) (count : nat) (p bits : Z) : option Z :=
  match count with
  | O => Some bits
  | S count => n ← byte_count m p; count_rest m count (p + 1) (bits + n)
  end.

(** The block [m] starts at address [addr]; [s] is an offset into it. *)
Definition redisPopcount (be : bool) (addr : Z) (m : bytes) (s : Z) (count : nat) : option Z :=
  '(bits, p, count) ← count_unaligned addr m count s 0;
  '(bits, p, count) ← count_words count be m p bits count;
  count_rest m count p bits.

(** ** redisBitpos *)

Definition ULONG_MAX : Z := 2 ^ 64 - 1.
Definition UCHAR_MAX : Z := 255.

(** Skip initial bytes not aligned to sizeof(unsigned long): found, c, count
    and pos at the end. *)
Fixpoint skip_unaligned (addr : Z) (m : bytes) (skipval : Z) (count : nat) (c pos : Z) : option (bool * Z * nat * Z) :=
  if Z.land (addr + c) 7 =? 0 then Some (false, c, count, pos)
  else match count with
  | O => Some (false, c, count, pos)
  | S count' =>
    b ← mget m c;
    if negb (b =? skipval) then Some (true, c, count, pos)
    else skip_unaligned addr m skipval count' (c + 1) (pos + 8)
  end.

(** Skip bits with full word step. *)
Fixpoint skip_words (fuel : nat) (be : bool) (m : bytes) (skipval : Z) (count : nat) (l pos : Z) : option (Z * nat * Z) :=
  if bool_decide (8 <= count)%nat then
    w ← host_decode be <$> mload m l 8;
    if negb (w =? skipval) then Some (l, count, pos)
    else match fuel with
    | O => None
    | S fuel => skip_words fuel be m skipval (count - 8)%nat (l + 8) (pos + 64)
    end
  else Some (l, count, pos).

(** Load [n] more bytes into word, the first as the most significant one,
    zero padded on the right. *)
Fixpoint load_word (n : nat) (m : bytes) (count : nat) (c word : Z) : option Z :=
  match n with
  | O => Some word
  | S n =>
    let word := u64 (Z.shiftl word 8) in
    match count with
    | O => load_word n m O c word
    | S count => b ← mget m c; load_word n m count (c + 1) (Z.lor word b)
    end
  end.

(** Scan the word bit by bit; [None] is the panic. *)
Fixpoint scan_word (fuel : nat) (bit : bool) (one word pos : Z) : option Z :=
  if one =? 0 then None
  else if eqb (negb (Z.land one word =? 0)) bit then Some pos
  else match fuel with
  | O => None
  | S fuel => scan_word fuel bit (Z.shiftr one 1) word (pos + 1)
  end.

Definition redisBitpos (be : bool) (addr : Z) (m : bytes) (s : Z) (count : nat) (bit : bool) : option Z :=
  '(found, c, count, pos) ← skip_unaligned addr m (if bit then 0 else UCHAR_MAX) count s 0;
  '(l, count, pos) ← (if (found : bool) then Some (c, count, pos)
                      else skip_words count be m (if bit then 0 else ULONG_MAX) count c pos);
  word ← load_word 8 m count l 0;
  if bit && (word =? 0) then Some (-1)
  else
    let one := ULONG_MAX in
    let one := Z.shiftr one 1 in
    let one := u64 (Z.lnot one) in
    scan_word 64 bit one word pos.

(** ** Bitfields *)

(** One step of the loop of setUnsignedBitfield: p[byte] with one bit replaced. *)
Definition put_bit (p : bytes) (offset : Z) (bitval : Z) : option bytes :=
  let byte := Z.shiftr offset 3 in
  let bit := 7 - Z.land offset 7 in
  byteval ← mget p byte;
  let byteval := Z.land byteval (Z.lnot (Z.shiftl 1 bit)) in
  let byteval := Z.lor byteval (Z.shiftl bitval bit) in
  mstore p byte [Z.land byteval 255].

(** [n] is bits - j *)
Fixpoint set_bits (n : nat) (p : bytes) (offset value : Z) : option bytes :=
  match n with
  | O => Some p
  | S n =>
    let bitval := if negb (Z.land value (u64 (Z.shiftl 1 (Z.of_nat n))) =? 0) then 1 else 0 in
    p ← put_bit p offset bitval; set_bits n p (u64 (offset + 1)) value
  end.

Definition setUnsignedBitfield (p : bytes) (offset bits value : Z) : option bytes := set_bits (Z.to_nat bits) p offset value.

Definition setSignedBitfield (p : bytes) (offset bits value : Z) : option bytes :=
  let uv := u64 value in setUnsignedBitfield p offset bits uv.

Definition get_bit (p : bytes) (offset : Z) : option Z :=
  let byte := Z.shiftr offset 3 in
  let bit := 7 - Z.land offset 7 in
  byteval ← mget p byte; Some (Z.land (Z.shiftr byteval bit) 1).

Fixpoint get_bits (n : nat) (p : bytes) (offset value : Z) : option Z :=
  match n with
  | O => Some value
  | S n => bitval ← get_bit p offset; get_bits n p (u64 (offset + 1)) (Z.lor (u64 (Z.shiftl value 1)) bitval)
  end.

Definition getUnsignedBitfield (p : bytes) (offset bits : Z) : option Z := get_bits (Z.to_nat bits) p offset 0.

Definition getSignedBitfield (p : bytes) (offset bits : Z) : option Z :=
  u ← getUnsignedBitfield p offset bits;
  let value := s64 u in
  Some (if (bits <? 64) && negb (Z.land (u64 value) (u64 (Z.shiftl 1 (bits - 1))) =? 0)
        then s64 (Z.lor (u64 value) (u64 (Z.shiftl (u64 (-1)) bits))) else value).

(** ** Overflow of a bitfield *)

Inductive bfoverflow := BFOVERFLOW_WRAP | BFOVERFLOW_SAT | BFOVERFLOW_FAIL.

(** The result: the value returned and what [*limit] is set to, [None] when it
    is left alone; limit is never NULL. *)
Definition checkUnsignedBitfieldOverflow (value incr bits : Z) (owtype : bfoverflow) : Z * option Z :=
  let max := if bits =? 64 then 2 ^ 64 - 1 else u64 (Z.shiftl 1 bits - 1) in
  let maxincr := s64 (max - value) in
  let minincr := s64 (u64 (- value)) in
  let handle_wrap :=
    let mask := u64 (Z.shiftl (u64 (-1)) bits) in
    let res := u64 (value + incr) in
    (1, Some (Z.land res (u64 (Z.lnot mask)))) in
  if (value >? max) || ((incr >? 0) && (incr >? maxincr)) then
    match owtype with BFOVERFLOW_WRAP => handle_wrap | BFOVERFLOW_SAT => (1, Some max) | BFOVERFLOW_FAIL => (1, None) end
  else if (incr <? 0) && (incr <? minincr) then
    match owtype with BFOVERFLOW_WRAP => handle_wrap | BFOVERFLOW_SAT => (-1, Some 0) | BFOVERFLOW_FAIL => (-1, None) end
  else (0, None).

(** maxincr and minincr may overflow; the subtraction is taken to wrap around. *)
Definition checkSignedBitfieldOverflow (value incr bits : Z) (owtype : bfoverflow) : Z * option Z :=
  let max := if bits =? 64 then 2 ^ 63 - 1 else Z.shiftl 1 (bits - 1) - 1 in
  let min := (- max) - 1 in
  let maxincr := s64 (max - value) in
  let minincr := s64 (min - value) in
  let handle_wrap :=
    let msb := u64 (Z.shiftl 1 (bits - 1)) in
    let c := u64 (u64 value + u64 incr) in
    let c :=
      if bits <? 64 then
        let mask := u64 (Z.shiftl (u64 (-1)) bits) in
        if negb (Z.land c msb =? 0) then Z.lor c mask else Z.land c (u64 (Z.lnot mask))
      else c in
    (1, Some (s64 c)) in
  if (value >? max) || (negb (bits =? 64) && (incr >? maxincr)) || ((value >=? 0) && (incr >? 0) && (incr >? maxincr)) then
    match owtype with BFOVERFLOW_WRAP => handle_wrap | BFOVERFLOW_SAT => (1, Some max) | BFOVERFLOW_FAIL => (1, None) end
  else if (value <? min) || (negb (bits =? 64) && (incr <? minincr)) || ((value <? 0) && (incr <? 0) && (incr <? minincr)) then
    match owtype with BFOVERFLOW_WRAP => handle_wrap | BFOVERFLOW_SAT => (-1, Some min) | BFOVERFLOW_FAIL => (-1, None) end
  else (0, None).

(** ** The bits of a block *)

Definition byte_bits (b : Z) : list bool := (fun k => Z.testbit b (7 - Z.of_nat k)) <$> seq 0 8.
Definition bits_of (bs : bytes) : list bool := bs ≫= byte_bits.

(** The bits as a string padded with zeroes on the right. *)
Definition bit_at (bs : bytes) (i : nat) : bool := default false (bits_of bs !! i).

Definition ones (bs : bytes) : Z := zlen (filter Is_true (bits_of bs)).

(** ** Lemmas on the bits of a block *)

Lemma length_byte_bits b : length (byte_bits b) = 8%nat.
Proof. done. Qed.

Lemma bits_of_app a b : bits_of (a ++ b) = bits_of a ++ bits_of b.
Proof. apply bind_app. Qed.

Lemma bits_of_cons b bs : bits_of (b :: bs) = byte_bits b ++ bits_of bs.
Proof. done. Qed.

Lemma length_bits_of bs : length (bits_of bs) = (8 * length bs)%nat.
Proof. induction bs as [|b bs IH]; [done|]. rewrite bits_of_cons, length_app, IH, length_byte_bits. simpl. lia. Qed.

Lemma byte_bits_lookup b k : (k < 8)%nat -> byte_bits b !! k = Some (Z.testbit b (7 - Z.of_nat k)).
Proof. intros H. unfold byte_bits. rewrite list_lookup_fmap, lookup_seq_lt by done. done. Qed.

(** Bit [i] is in byte [i / 8]. *)
Lemma bits_of_lookup bs j b k : bs !! j = Some b -> (k < 8)%nat ->
  bits_of bs !! (8 * j + k)%nat = Some (Z.testbit b (7 - Z.of_nat k)).
Proof.
  intros Hj Hk. apply list_elem_of_split_length in Hj as (a & c & -> & ->).
  rewrite bits_of_app, bits_of_cons, lookup_app_r; rewrite length_bits_of; [|lia].
  rewrite lookup_app_l; rewrite ?length_byte_bits; [|lia].
  replace (8 * length a + k - 8 * length a)%nat with k by lia. by apply byte_bits_lookup.
Qed.

Lemma ones_app a b : ones (a ++ b) = ones a + ones b.
Proof. unfold ones. by rewrite bits_of_app, filter_app, zlen_app. Qed.

Lemma ones_cons b bs : ones (b :: bs) = ones [b] + ones bs.
Proof. apply (ones_app [b] bs). Qed.

(** A property of all bytes is checked by running through them. *)
Lemma byte_cases (P : Z -> Prop) `{forall b, Decision (P b)} :
  bool_decide (Forall P (Z.of_nat <$> seq 0 256)) = true -> forall b, is_byte b -> P b.
Proof.
  intros E b Hb. apply bool_decide_eq_true_1 in E. rewrite Forall_forall in E. apply E.
  apply list_elem_of_fmap. exists (Z.to_nat b). unfold is_byte in Hb. split; [lia|]. apply elem_of_seq. lia.
Qed.

Lemma bitsinbyte_ones b : is_byte b -> bitsinbyte !! Z.to_nat b = Some (ones [b]).
Proof. apply (byte_cases (fun b => bitsinbyte !! Z.to_nat b = Some (ones [b]))). by vm_compute. Qed.

Lemma ones_byte b : is_byte b -> 0 <= ones [b] <= 8.
Proof. apply (byte_cases (fun b => 0 <= ones [b] <= 8)). by vm_compute. Qed.

Lemma byte_count_ones a b c p : is_byte b -> p = zlen a -> byte_count (a ++ b :: c) p = Some (ones [b]).
Proof. intros Hb ->. unfold byte_count. rewrite mget_app by done. by apply bitsinbyte_ones. Qed.

(** ** Counting four bytes in parallel *)

Lemma land_byte_split b y m M : 0 <= b < 256 -> 0 <= m < 256 ->
  Z.land (b + 256 * y) (m + 256 * M) = Z.land b m + 256 * Z.land y M.
Proof.
  intros Hb Hm. replace (b + 256 * y) with (Z.lor b (Z.shiftl y 8)) by (rewrite lor_add; lia).
  replace (m + 256 * M) with (Z.lor m (Z.shiftl M 8)) by (rewrite lor_add; lia).
  assert (0 <= Z.land b m < 2 ^ 8) as H.
  { rewrite <-(Z.mod_small b (2 ^ 8)), <-Z.land_ones, <-Z.land_assoc, (Z.land_comm _ m), Z.land_assoc, Z.land_ones by lia.
    apply Z.mod_pos_bound. lia. }
  replace (Z.land b m + 256 * Z.land y M) with (Z.lor (Z.land b m) (Z.shiftl (Z.land y M) 8)) by (rewrite lor_add; lia).
  apply Z.bits_inj'. intros i Hi.
  rewrite !Z.land_spec, !Z.lor_spec, !Z.shiftl_spec, !Z.land_spec by done.
  destruct (decide (i < 8)).
  - rewrite !(Z.testbit_neg_r _ (i - 8)) by lia. simpl. by rewrite !orb_false_r.
  - rewrite <-(Z.mod_small b (2 ^ 8)), <-(Z.mod_small m (2 ^ 8)), !Z.mod_pow2_bits_high by lia. done.
Qed.

(** The bits of the byte above that are shifted in are masked out. *)
Lemma land_shift_split k b y m M : 0 <= k <= 8 -> 0 <= b < 256 -> 0 <= m < 2 ^ (8 - k) ->
  Z.land (Z.shiftr (b + 256 * y) k) (m + 256 * M) = Z.land (Z.shiftr b k) m + 256 * Z.land (Z.shiftr y k) M.
Proof.
  intros Hk Hb Hm.
  assert (256 = 2 ^ k * 2 ^ (8 - k)) as E by (rewrite <-Z.pow_add_r by lia; by replace (k + (8 - k)) with 8 by lia).
  assert (0 < 2 ^ k) as Hp by (apply Z.pow_pos_nonneg; lia).
  assert (0 < 2 ^ (8 - k)) as Hq by (apply Z.pow_pos_nonneg; lia).
  assert (m < 256) as Hm' by nia.
  set (z := Z.shiftr (b + 256 * y) k).
  assert (z = b / 2 ^ k + 2 ^ (8 - k) * y) as Ez.
  { unfold z. rewrite Z.shiftr_div_pow2 by lia. replace (256 * y) with (2 ^ (8 - k) * y * 2 ^ k) by (rewrite E; ring).
    by rewrite Z.div_add by lia. }
  assert (0 <= b / 2 ^ k < 2 ^ (8 - k)) as Hbk.
  { split; [apply Z.div_pos; lia|]. apply Z.div_lt_upper_bound; lia. }
  rewrite (Z.div_mod z 256), (Z.add_comm (256 * _)) by lia.
  rewrite land_byte_split by (try apply Z.mod_pos_bound; lia).
  f_equal.
  - rewrite Z.shiftr_div_pow2 by lia.
    rewrite <-(Z.mod_small m (2 ^ (8 - k))), <-Z.land_ones, (Z.land_comm m), !Z.land_assoc, !Z.land_ones by lia.
    f_equal. rewrite Ez. rewrite (Z.mod_small (b / 2 ^ k)) by lia.
    rewrite E, (Z.mul_comm (2 ^ k)), Z.rem_mul_r by lia.
    rewrite (Z.mul_comm (2 ^ (8 - k)) y), Z.mod_add, (Z.mod_small (b / _)) by lia.
    rewrite Z.add_mod, (Z.mul_comm (2 ^ (8 - k))), Z.mod_mul, Z.add_0_r, Z.mod_mod by lia. by apply Z.mod_small.
  - do 2 f_equal. unfold z. change 256 with (2 ^ 8) at 2. rewrite <-!Z.shiftr_div_pow2 by lia.
    rewrite Z.shiftr_shiftr by lia. rewrite (Z.add_comm k), <-Z.shiftr_shiftr by lia. f_equal.
    rewrite Z.shiftr_div_pow2 by lia. change (2 ^ 8) with 256. lia_div.
Qed.

Lemma le_decode_cons b bs : le_decode (b :: bs) = b + 256 * le_decode bs.
Proof. done. Qed.

(** A word by its bytes. *)
Definition pack (b0 b1 b2 b3 : Z) : Z := b0 + 256 * (b1 + 256 * (b2 + 256 * b3)).

Lemma pack_range b0 b1 b2 b3 : is_byte b0 -> is_byte b1 -> is_byte b2 -> is_byte b3 -> in_u 32 (pack b0 b1 b2 b3).
Proof. unfold is_byte, pack. lia. Qed.

Lemma shift_mask k m b0 b1 b2 b3 : 0 <= k <= 8 -> 0 <= m < 2 ^ (8 - k) ->
  is_byte b0 -> is_byte b1 -> is_byte b2 -> is_byte b3 ->
  Z.land (Z.shiftr (pack b0 b1 b2 b3) k) (pack m m m m) =
  pack (Z.land (Z.shiftr b0 k) m) (Z.land (Z.shiftr b1 k) m) (Z.land (Z.shiftr b2 k) m) (Z.land (Z.shiftr b3 k) m).
Proof. unfold is_byte. intros ??????. unfold pack. by rewrite !land_shift_split. Qed.

(** The steps on one byte. *)
Definition byte_pairs (b : Z) : Z := b - Z.land (Z.shiftr b 1) 0x55.
Definition byte_nibbles (b : Z) : Z := Z.land (Z.shiftr b 0) 0x33 + Z.land (Z.shiftr b 2) 0x33.

Lemma byte_pairs_byte b : is_byte b -> is_byte (byte_pairs b).
Proof. apply (byte_cases (fun b => is_byte (byte_pairs b))). by vm_compute. Qed.

Lemma byte_nibbles_byte b : is_byte b -> is_byte (byte_nibbles b).
Proof. apply (byte_cases (fun b => is_byte (byte_nibbles b))). by vm_compute. Qed.

Lemma byte_nibbles_ones b : is_byte b -> exists lo hi,
  byte_nibbles (byte_pairs b) = lo + 16 * hi /\ 0 <= lo <= 4 /\ 0 <= hi <= 4 /\ lo + hi = ones [b].
Proof.
  intros Hb. set (h := byte_nibbles (byte_pairs b)). exists (h mod 16), (h / 16).
  assert (0 <= h mod 16 <= 4 /\ 0 <= h / 16 <= 4 /\ h mod 16 + h / 16 = ones [b]) as H.
  { unfold h. revert b Hb h. apply (byte_cases (fun b => 0 <= byte_nibbles (byte_pairs b) mod 16 <= 4 /\
      0 <= byte_nibbles (byte_pairs b) / 16 <= 4 /\
      byte_nibbles (byte_pairs b) mod 16 + byte_nibbles (byte_pairs b) / 16 = ones [b])). by vm_compute. }
  split; [lia_div|]. tauto.
Qed.

#[local] Hint Resolve byte_pairs_byte byte_nibbles_byte : redis.

Lemma swar_pairs_pack b0 b1 b2 b3 : is_byte b0 -> is_byte b1 -> is_byte b2 -> is_byte b3 ->
  swar_pairs (pack b0 b1 b2 b3) = pack (byte_pairs b0) (byte_pairs b1) (byte_pairs b2) (byte_pairs b3).
Proof.
  intros. unfold swar_pairs. change 0x55555555 with (pack 0x55 0x55 0x55 0x55). rewrite shift_mask by (done || lia).
  transitivity (u32 (pack (byte_pairs b0) (byte_pairs b1) (byte_pairs b2) (byte_pairs b3))).
  - f_equal. unfold pack, byte_pairs. ring.
  - apply uint_small, pack_range; auto with redis.
Qed.

Lemma swar_nibbles_pack b0 b1 b2 b3 : is_byte b0 -> is_byte b1 -> is_byte b2 -> is_byte b3 ->
  swar_nibbles (pack b0 b1 b2 b3) = pack (byte_nibbles b0) (byte_nibbles b1) (byte_nibbles b2) (byte_nibbles b3).
Proof.
  intros. unfold swar_nibbles. change 0x33333333 with (pack 0x33 0x33 0x33 0x33).
  rewrite <-(Z.shiftr_0_r (pack b0 b1 b2 b3)) at 1. rewrite !shift_mask by (done || lia).
  transitivity (u32 (pack (byte_nibbles b0) (byte_nibbles b1) (byte_nibbles b2) (byte_nibbles b3))).
  - f_equal. unfold pack, byte_nibbles. ring.
  - apply uint_small, pack_range; auto with redis.
Qed.

Lemma land_15 x : Z.land (Z.shiftr x 0) 15 = x mod 16.
Proof. rewrite Z.shiftr_0_r. apply (land_low x 4). lia. Qed.

Lemma swar_bytes_pack l0 h0 l1 h1 l2 h2 l3 h3 :
  0 <= l0 <= 4 -> 0 <= h0 <= 4 -> 0 <= l1 <= 4 -> 0 <= h1 <= 4 ->
  0 <= l2 <= 4 -> 0 <= h2 <= 4 -> 0 <= l3 <= 4 -> 0 <= h3 <= 4 ->
  swar_bytes (pack (l0 + 16 * h0) (l1 + 16 * h1) (l2 + 16 * h2) (l3 + 16 * h3)) = pack (l0 + h0) (l1 + h1) (l2 + h2) (l3 + h3).
Proof.
  intros. unfold swar_bytes. rewrite Z.shiftr_div_pow2 by lia. change (2 ^ 4) with 16.
  set (w := pack (l0 + 16 * h0 + h0 + 16 * l1) (l1 + 16 * h1 + h1 + 16 * l2) (l2 + 16 * h2 + h2 + 16 * l3) (l3 + 16 * h3 + h3)).
  match goal with |- Z.land (u32 (?x + ?x / 16)) _ = _ => assert (x + x / 16 = w) as -> end.
  { unfold w, pack. match goal with |- ?x + ?y = _ => assert (y = h0 + 16 * (l1 + 16 * h1 + 256 * (l2 + 16 * h2 + 256 * (l3 + 16 * h3)))) as -> end.
    - symmetry. apply (Z.div_unique _ 16 _ l0); [lia|ring].
    - ring. }
  rewrite uint_small by (apply pack_range; unfold is_byte; lia).
  rewrite <-(Z.shiftr_0_r w). unfold w. change 0x0F0F0F0F with (pack 15 15 15 15).
  rewrite shift_mask by (unfold is_byte; lia). rewrite !land_15.
  f_equal; symmetry.
  - by apply (Z.mod_unique _ 16 (h0 + l1)); lia.
  - by apply (Z.mod_unique _ 16 (h1 + l2)); lia.
  - by apply (Z.mod_unique _ 16 (h2 + l3)); lia.
  - by apply (Z.mod_unique _ 16 h3); lia.
Qed.

(** The number of ones of each byte, in the byte. *)
Lemma swar_pack b0 b1 b2 b3 : is_byte b0 -> is_byte b1 -> is_byte b2 -> is_byte b3 ->
  swar (pack b0 b1 b2 b3) = pack (ones [b0]) (ones [b1]) (ones [b2]) (ones [b3]).
Proof.
  intros. unfold swar. rewrite swar_pairs_pack, swar_nibbles_pack by auto with redis.
  destruct (byte_nibbles_ones b0) as (l0 & h0 & -> & ? & ? & <-); [done|].
  destruct (byte_nibbles_ones b1) as (l1 & h1 & -> & ? & ? & <-); [done|].
  destruct (byte_nibbles_ones b2) as (l2 & h2 & -> & ? & ? & <-); [done|].
  destruct (byte_nibbles_ones b3) as (l3 & h3 & -> & ? & ? & <-); [done|].
  by apply swar_bytes_pack.
Qed.

(** Whatever the byte order of the host, the parallel steps leave the counts of the
    four bytes in the bytes of the result. *)
Lemma swar_load be bs : length bs = 4%nat -> Forall is_byte bs -> exists c0 c1 c2 c3,
  swar (host_decode be bs) = pack c0 c1 c2 c3 /\ c0 + c1 + c2 + c3 = ones bs /\
  0 <= c0 <= 8 /\ 0 <= c1 <= 8 /\ 0 <= c2 <= 8 /\ 0 <= c3 <= 8.
Proof.
  intros Hl Hb. destruct bs as [|b0 [|b1 [|b2 [|b3 [|]]]]]; try done.
  rewrite !Forall_cons in Hb. destruct Hb as (H0 & H1 & H2 & H3 & _).
  pose proof (ones_byte b0 H0). pose proof (ones_byte b1 H1). pose proof (ones_byte b2 H2). pose proof (ones_byte b3 H3).
  rewrite (ones_cons b0), (ones_cons b1), (ones_cons b2). destruct be.
  - exists (ones [b3]), (ones [b2]), (ones [b1]), (ones [b0]). rewrite <-swar_pack by done. split; [|lia].
    f_equal. unfold host_decode, pack. change (reverse [b0; b1; b2; b3]) with [b3; b2; b1; b0].
    rewrite !le_decode_cons. unfold le_decode. ring.
  - exists (ones [b0]), (ones [b1]), (ones [b2]), (ones [b3]). rewrite <-swar_pack by done. split; [|lia].
    f_equal. unfold host_decode, pack. rewrite !le_decode_cons. unfold le_decode. ring.
Qed.

(** Adding the bytes of a word by a multiplication. *)
Lemma sum_bytes c0 c1 c2 c3 : 0 <= c0 -> 0 <= c1 -> 0 <= c2 -> 0 <= c3 -> c0 + c1 + c2 + c3 < 256 ->
  Z.shiftr (u32 (u32 (pack c0 c1 c2 c3) * 0x01010101)) 24 = c0 + c1 + c2 + c3.
Proof.
  intros. rewrite (uint_small 32 (pack c0 c1 c2 c3)) by (apply pack_range; unfold is_byte; lia).
  assert (u32 (pack c0 c1 c2 c3 * 0x01010101) = pack c0 (c0 + c1) (c0 + c1 + c2) (c0 + c1 + c2 + c3)) as ->.
  { symmetry. unfold uint, pack.
    apply (Z.mod_unique _ (2 ^ 32) (c1 + c2 + c3 + 256 * (c2 + c3 + 256 * c3))); [lia|ring]. }
  rewrite Z.shiftr_div_pow2 by lia. symmetry. unfold pack.
  apply (Z.div_unique _ _ _ (c0 + 256 * (c0 + c1 + 256 * (c0 + c1 + c2)))); [lia|ring].
Qed.

Lemma load32_app be a bs c p : p = zlen a -> length bs = 4%nat ->
  load32 be (a ++ bs ++ c) p = Some (host_decode be bs).
Proof. intros -> Hl. unfold load32. rewrite mload_app by (unfold zlen; lia). done. Qed.

(** A list of at least [n] elements split. *)
Lemma split_at {A} (n : nat) (l : list A) : (n <= length l)%nat -> exists a b, l = a ++ b /\ length a = n.
Proof. intros H. exists (take n l), (drop n l). rewrite take_drop, length_take. split; [done|lia]. Qed.

Lemma count_step_ones be a bs c p : p = zlen a -> length bs = 28%nat -> Forall is_byte bs ->
  count_step be (a ++ bs ++ c) p = Some (ones bs).
Proof.
  intros -> Hl Hb.
  destruct (split_at 4 bs) as (w1 & r1 & -> & H1); [lia|]. rewrite length_app in Hl.
  destruct (split_at 4 r1) as (w2 & r2 & -> & H2); [lia|]. rewrite length_app in Hl.
  destruct (split_at 4 r2) as (w3 & r3 & -> & H3); [lia|]. rewrite length_app in Hl.
  destruct (split_at 4 r3) as (w4 & r4 & -> & H4); [lia|]. rewrite length_app in Hl.
  destruct (split_at 4 r4) as (w5 & r5 & -> & H5); [lia|]. rewrite length_app in Hl.
  destruct (split_at 4 r5) as (w6 & w7 & -> & H6); [lia|]. rewrite length_app in Hl.
  assert (length w7 = 4%nat) as H7 by lia. clear Hl.
  rewrite !Forall_app in Hb. destruct Hb as (B1 & B2 & B3 & B4 & B5 & B6 & B7).
  unfold count_step. rewrite <-!app_assoc.
  rewrite (load32_app be a w1 _ (zlen a)) by done.
  rewrite (app_assoc a w1), (load32_app be _ w2 _ (zlen a + 4)) by (zlen; rewrite ?length_app; lia).
  rewrite (app_assoc _ w2), (load32_app be _ w3 _ (zlen a + 8)) by (zlen; rewrite ?length_app; lia).
  rewrite (app_assoc _ w3), (load32_app be _ w4 _ (zlen a + 12)) by (zlen; rewrite ?length_app; lia).
  rewrite (app_assoc _ w4), (load32_app be _ w5 _ (zlen a + 16)) by (zlen; rewrite ?length_app; lia).
  rewrite (app_assoc _ w5), (load32_app be _ w6 _ (zlen a + 20)) by (zlen; rewrite ?length_app; lia).
  rewrite (app_assoc _ w6), (load32_app be _ w7 _ (zlen a + 24)) by (zlen; rewrite ?length_app; lia).
  cbn [mbind option_bind]. f_equal. unfold count_28. rewrite !ones_app.
  destruct (swar_load be w1) as (a0 & a1 & a2 & a3 & -> & ? & ? & ? & ? & ?); [done..|].
  destruct (swar_load be w2) as (b0 & b1 & b2 & b3 & -> & ? & ? & ? & ? & ?); [done..|].
  destruct (swar_load be w3) as (c0 & c1 & c2 & c3 & -> & ? & ? & ? & ? & ?); [done..|].
  destruct (swar_load be w4) as (d0 & d1 & d2 & d3 & -> & ? & ? & ? & ? & ?); [done..|].
  destruct (swar_load be w5) as (e0 & e1 & e2 & e3 & -> & ? & ? & ? & ? & ?); [done..|].
  destruct (swar_load be w6) as (f0 & f1 & f2 & f3 & -> & ? & ? & ? & ? & ?); [done..|].
  destruct (swar_load be w7) as (g0 & g1 & g2 & g3 & -> & ? & ? & ? & ? & ?); [done..|].
  match goal with |- Z.shiftr (u32 (u32 ?x * _)) 24 = _ =>
    assert (x = pack (a0 + b0 + c0 + d0 + e0 + f0 + g0) (a1 + b1 + c1 + d1 + e1 + f1 + g1)
                     (a2 + b2 + c2 + d2 + e2 + f2 + g2) (a3 + b3 + c3 + d3 + e3 + f3 + g3)) as -> by (unfold pack; ring) end.
  rewrite sum_bytes by lia. lia.
Qed.

Lemma count_rest_ones a bs c p bits : p = zlen a -> Forall is_byte bs ->
  count_rest (a ++ bs ++ c) (length bs) p bits = Some (bits + ones bs).
Proof.
  intros -> Hb. revert a bits. induction Hb as [|b bs Hb Hbs IH]; intros a bits.
  - simpl. f_equal. unfold ones. simpl. zlen. simpl. lia.
  - cbn [length count_rest app]. rewrite byte_count_ones by done. cbn [mbind option_bind].
    specialize (IH (a ++ [b]) (bits + ones [b])). rewrite <-app_assoc in IH. cbn [app] in IH.
    replace (zlen a + 1) with (zlen (a ++ [b])) by (zlen; simpl; lia).
    rewrite IH, (ones_cons b bs). f_equal. lia.
Qed.

(** A loop over the bytes [bs] at [p] has counted a prefix of them. *)
Definition counted (a bs c : bytes) (bits : Z) (r : option (Z * Z * nat)) : Prop :=
  exists b1 b2, bs = b1 ++ b2 /\ r = Some (bits + ones b1, zlen (a ++ b1), length b2).

Lemma counted_0 a bs c bits p n : p = zlen a -> n = length bs -> counted a bs c bits (Some (bits, p, n)).
Proof.
  intros -> ->. exists [], bs. split; [done|]. rewrite app_nil_r. do 3 f_equal. unfold ones. simpl. zlen. simpl. lia.
Qed.

Lemma counted_step a b1 bs c bits r : counted (a ++ b1) bs c (bits + ones b1) r -> counted a (b1 ++ bs) c bits r.
Proof.
  intros (x & y & -> & ->). exists (b1 ++ x), y. split; [by rewrite app_assoc|].
  rewrite ones_app, Z.add_assoc, app_assoc. done.
Qed.

Lemma count_unaligned_ones addr a bs c p bits : p = zlen a -> Forall is_byte bs ->
  counted a bs c bits (count_unaligned addr (a ++ bs ++ c) (length bs) p bits).
Proof.
  intros Hp Hb. revert a p bits Hp. induction Hb as [|b bs Hb Hbs IH]; intros a p bits Hp; cbn [length count_unaligned].
  - case_match; by apply counted_0.
  - destruct (Z.land (addr + p) 3 =? 0); [by apply counted_0|].
    cbn [app]. rewrite byte_count_ones by done. cbn [mbind option_bind].
    apply (counted_step a [b]). specialize (IH (a ++ [b]) (p + 1) (bits + ones [b])).
    rewrite <-app_assoc in IH. apply IH. zlen. simpl. lia.
Qed.

Lemma count_words_ones fuel be a bs c p bits : (length bs <= fuel)%nat -> p = zlen a -> Forall is_byte bs ->
  counted a bs c bits (count_words fuel be (a ++ bs ++ c) p bits (length bs)).
Proof.
  revert a bs p bits. induction fuel as [|fuel IH]; intros a bs p bits Hf Hp Hb; cbn [count_words];
    case_bool_decide; try lia; try by apply counted_0.
  destruct (split_at 28 bs) as (b1 & b2 & -> & Hl); [done|]. rewrite length_app in *.
  apply Forall_app in Hb as [Hb1 Hb2]. rewrite <-app_assoc, count_step_ones by done. cbn [mbind option_bind].
  apply counted_step. specialize (IH (a ++ b1) b2 (p + 28) (bits + ones b1)).
  rewrite <-app_assoc in IH. replace (length b1 + length b2 - 28)%nat with (length b2) by lia. apply IH; [lia|zlen; lia|done].
Qed.

(** redisPopcount returns the number of one bits of the [count] bytes at
    [s], wherever the block lies in memory and whatever the byte order of the
    host, and it reads nothing outside these bytes: the bytes consumed up to an
    aligned address, the seven words counted in parallel and the bytes left
    over add up. *)
Lemma redisPopcount_counts_ones be addr a bs c :
  Forall is_byte bs -> redisPopcount be addr (a ++ bs ++ c) (zlen a) (length bs) = Some (ones bs).
Proof.
  intros Hb. unfold redisPopcount.
  destruct (count_unaligned_ones addr a bs c (zlen a) 0) as (b1 & b2 & -> & ->); [done..|]. cbn [mbind option_bind].
  apply Forall_app in Hb as [Hb1 Hb2].
  replace (a ++ (b1 ++ b2) ++ c) with ((a ++ b1) ++ b2 ++ c) by (by rewrite <-!app_assoc).
  destruct (count_words_ones (length b2) be (a ++ b1) b2 c (zlen (a ++ b1)) (0 + ones b1)) as (b3 & b4 & -> & ->); [done..|].
  cbn [mbind option_bind]. apply Forall_app in Hb2 as [Hb3 Hb4].
  replace ((a ++ b1) ++ (b3 ++ b4) ++ c) with (((a ++ b1) ++ b3) ++ b4 ++ c) by (by rewrite <-!app_assoc).
  rewrite count_rest_ones by done. f_equal. rewrite !ones_app. lia.
Qed.

(** ** The first bit of a kind *)

Lemma bit_at_app_l a b i : (i < 8 * length a)%nat -> bit_at (a ++ b) i = bit_at a i.
Proof. intros H. unfold bit_at. by rewrite bits_of_app, lookup_app_l by (rewrite length_bits_of; lia). Qed.

Lemma bit_at_app_r a b i : (8 * length a <= i)%nat -> bit_at (a ++ b) i = bit_at b (i - 8 * length a).
Proof. intros H. unfold bit_at. by rewrite bits_of_app, lookup_app_r, length_bits_of by (rewrite length_bits_of; lia). Qed.

Lemma bit_at_out bs i : (8 * length bs <= i)%nat -> bit_at bs i = false.
Proof. intros H. unfold bit_at. by rewrite lookup_ge_None_2 by (rewrite length_bits_of; lia). Qed.

Lemma bit_at_head b bs i : (i < 8)%nat -> bit_at (b :: bs) i = Z.testbit b (7 - Z.of_nat i).
Proof. intros H. unfold bit_at. pose proof (bits_of_lookup (b :: bs) 0 b i eq_refl H) as E. change (8 * 0 + i)%nat with i in E. by rewrite E. Qed.

Lemma bit_at_tail b bs i : (8 <= i)%nat -> bit_at (b :: bs) i = bit_at bs (i - 8).
Proof. apply (bit_at_app_r [b]). Qed.

(** The byte that has no bit equal to [bit]. *)
Definition skip_byte (bit : bool) : Z := if bit then 0 else UCHAR_MAX.

Lemma skip_byte_bits bit bs i : Forall (eq (skip_byte bit)) bs -> (i < 8 * length bs)%nat -> bit_at bs i = negb bit.
Proof.
  intros H. revert i. induction H as [|b bs <- H IH]; intros i Hi; simpl in Hi; [lia|].
  destruct (decide (i < 8)%nat).
  - rewrite bit_at_head by done. destruct bit; simpl; [apply Z.testbit_0_l|]. do 8 (destruct i; [done|]). lia.
  - rewrite bit_at_tail by lia. apply IH. lia.
Qed.

Lemma other_byte bit b : is_byte b -> b <> skip_byte bit -> Exists (eq bit) (byte_bits b).
Proof.
  intros Hb. destruct bit; revert b Hb;
    [apply (byte_cases (fun b => b <> skip_byte true -> Exists (eq true) (byte_bits b)))
    |apply (byte_cases (fun b => b <> skip_byte false -> Exists (eq false) (byte_bits b)))]; by vm_compute.
Qed.

Lemma other_byte_bit bit bs j b : bs !! j = Some b -> is_byte b -> b <> skip_byte bit ->
  exists i, (i < 8 * S j)%nat /\ bit_at bs i = bit.
Proof.
  intros Hj Hb Hs. pose proof (other_byte bit b Hb Hs) as (x & [k Hk]%list_elem_of_lookup & <-)%Exists_exists.
  assert (k < 8)%nat by (rewrite <-(length_byte_bits b); eauto using lookup_lt_Some).
  rewrite byte_bits_lookup in Hk by done. exists (8 * j + k)%nat. split; [lia|].
  unfold bit_at. rewrite (bits_of_lookup bs j b k) by done. by rewrite Hk.
Qed.

(** The bit looked for is in the next word, or less than a word is left. *)
Definition near (bit : bool) (b2 : bytes) : Prop := (length b2 < 8)%nat \/ exists i, (i < 64)%nat /\ bit_at b2 i = bit.

Lemma skip_unaligned_spec addr a bs c bit p pos : p = zlen a -> Forall is_byte bs ->
  exists found b1 b2, bs = b1 ++ b2 /\ Forall (eq (skip_byte bit)) b1 /\
    skip_unaligned addr (a ++ bs ++ c) (skip_byte bit) (length bs) p pos
    = Some (found, zlen (a ++ b1), length b2, pos + 8 * zlen b1) /\ (found = true -> near bit b2).
Proof.
  intros Hp Hb. revert a p pos Hp. induction Hb as [|b bs Hb Hbs IH]; intros a p pos Hp; cbn [length skip_unaligned].
  - exists false, [], []. rewrite !app_nil_r, Z.add_0_r, <-Hp. destruct (_ =? 0); split_and!; done || constructor.
  - assert (forall f : bool, (f = true -> near bit (b :: bs)) -> exists found b1 b2, b :: bs = b1 ++ b2 /\ Forall (eq (skip_byte bit)) b1 /\
      Some (f, p, S (length bs), pos) = Some (found, zlen (a ++ b1), length b2, pos + 8 * zlen b1) /\ (found = true -> near bit b2)) as Hstop.
    { intros f Hf. exists f, [], (b :: bs). rewrite app_nil_r, Z.add_0_r, <-Hp. eauto. }
    destruct (Z.land (addr + p) 7 =? 0); [by apply Hstop|]. cbn [app]. rewrite mget_app by done. cbn [mbind option_bind].
    destruct (Z.eqb_spec b (skip_byte bit)) as [->|Hn]; cbn [negb].
    + destruct (IH (a ++ [skip_byte bit]) (p + 1) (pos + 8)) as (f & b1 & b2 & -> & H1 & H2 & H3); [rewrite zlen_app, zlen_cons, zlen_nil; lia|].
      exists f, (skip_byte bit :: b1), b2. split; [done|]. split; [by constructor|]. split; [|done].
      rewrite <-app_assoc in H2. cbn [app] in H2. rewrite H2, zlen_cons, <-app_assoc. do 2 f_equal. lia.
    + apply Hstop. intros _. right. destruct (other_byte_bit bit (b :: bs) 0 b) as (i & Hi & E); [done..|]. exists i. split; [lia|done].
Qed.

(** The word that has no bit equal to [bit], in either byte order. *)
Lemma skip_word (be bit : bool) (bs : bytes) : length bs = 8%nat -> Forall is_byte bs ->
  host_decode be bs = (if bit then 0 else ULONG_MAX) -> Forall (eq (skip_byte bit)) bs.
Proof.
  intros Hl Hb E. assert (host_decode be bs = host_decode be (replicate 8 (skip_byte bit))) as E'.
  { rewrite E. by destruct be, bit. }
  apply (f_equal (host_encode be 8)) in E'. rewrite <-Hl, host_encode_decode in E' by done.
  rewrite E', Hl. destruct be, bit; vm_compute; repeat constructor.
Qed.

Lemma not_skip_word (bit : bool) (bs : bytes) : Forall is_byte bs -> ~ Forall (eq (skip_byte bit)) bs ->
  exists i, (i < 8 * length bs)%nat /\ bit_at bs i = bit.
Proof.
  intros Hb Hn. apply not_Forall_Exists in Hn; [|apply _]. apply Exists_exists in Hn as (b & [j Hj]%list_elem_of_lookup & Hn).
  pose proof (lookup_lt_Some _ _ _ Hj).
  destruct (other_byte_bit bit bs j b) as (i & Hi & E); [done|by eapply Forall_lookup_1|by intros ->|].
  exists i. split; [lia|done].
Qed.

Lemma skip_words_spec fuel be a bs c bit p pos : (length bs <= fuel)%nat -> p = zlen a -> Forall is_byte bs ->
  exists b1 b2, bs = b1 ++ b2 /\ Forall (eq (skip_byte bit)) b1 /\
    skip_words fuel be (a ++ bs ++ c) (if bit then 0 else ULONG_MAX) (length bs) p pos
    = Some (zlen (a ++ b1), length b2, pos + 8 * zlen b1) /\ near bit b2.
Proof.
  revert a bs p pos. induction fuel as [|fuel IH]; intros a bs p pos Hf Hp Hb.
  all: assert (near bit bs -> exists b1 b2, bs = b1 ++ b2 /\ Forall (eq (skip_byte bit)) b1 /\
      Some (p, length bs, pos) = Some (zlen (a ++ b1), length b2, pos + 8 * zlen b1) /\ near bit b2) as Hstop
    by (intros Hn; exists [], bs; rewrite app_nil_r, Z.add_0_r, <-Hp; auto).
  all: cbn [skip_words]; case_bool_decide as Hc; [|apply Hstop; left; lia].
  { lia. }
  destruct (split_at 8 bs) as (w & bs' & -> & Hl); [done|]. rewrite length_app in *.
  pose proof Hb as [Hw Hb']%Forall_app. rewrite <-app_assoc, mload_app by (done || (unfold zlen; lia)).
  cbn [fmap option_fmap option_map mbind option_bind].
  destruct (Z.eqb_spec (host_decode be w) (if bit then 0 else ULONG_MAX)) as [E|E]; cbn [negb].
  2:{ apply Hstop. right. destruct (not_skip_word bit w) as (i & Hi & Ei); [done| |].
    + intros Hs. apply E. clear -Hl Hs.
      assert (w = replicate 8 (skip_byte bit)) as -> by (symmetry; by apply replicate_as_Forall).
      by destruct be, bit.
    + exists i. split; [lia|]. rewrite bit_at_app_l by lia. done. }
  { destruct (IH (a ++ w) bs' (p + 8) (pos + 64)) as (b1 & b2 & -> & H1 & H2 & H3); [lia|zlen; lia|done|].
    exists (w ++ b1), b2. split; [by rewrite app_assoc|]. split; [apply Forall_app; split; [by eapply skip_word|done]|].
    split; [|done]. rewrite length_app in *. rewrite <-app_assoc in H2.
    replace (length w + (length b1 + length b2) - 8)%nat with (length b1 + length b2)%nat by lia.
    rewrite H2, app_assoc. do 2 f_equal. rewrite zlen_app. unfold zlen. lia. }
Qed.

(** The first [n] bytes as a big-endian number, zero padded on the right. *)
Fixpoint padded (n : nat) (bs : bytes) : Z :=
  match n, bs with
  | S n, b :: bs => b * 2 ^ (8 * Z.of_nat n) + padded n bs
  | _, _ => 0
  end.

Lemma padded_nil n : padded n [] = 0.
Proof. by destruct n. Qed.

Lemma pow_8_S n : 2 ^ (8 * Z.of_nat (S n)) = 256 * 2 ^ (8 * Z.of_nat n).
Proof. replace (8 * Z.of_nat (S n)) with (8 + 8 * Z.of_nat n) by lia. by rewrite Z.pow_add_r by lia. Qed.

Lemma padded_range n bs : Forall is_byte bs -> in_u (8 * Z.of_nat n) (padded n bs).
Proof.
  intros Hb. revert n. induction Hb as [|b bs Hb Hbs IH]; intros n.
  - rewrite padded_nil. split; [done|]. apply Z.pow_pos_nonneg; lia.
  - destruct n as [|n]; [simpl; lia|]. cbn [padded]. rewrite pow_8_S. specialize (IH n). unfold is_byte in Hb. nia.
Qed.

Lemma padded_testbit n bs i : Forall is_byte bs -> (i < 8 * n)%nat ->
  Z.testbit (padded n bs) (8 * Z.of_nat n - 1 - Z.of_nat i) = bit_at bs i.
Proof.
  intros Hb. revert n i. induction Hb as [|b bs Hb Hbs IH]; intros n i Hi.
  - rewrite padded_nil, Z.testbit_0_l, bit_at_out by (simpl; lia). done.
  - destruct n as [|n]; [lia|]. cbn [padded]. pose proof (padded_range n bs Hbs) as Hr.
    rewrite Z.add_comm, <-lor_add, Z.lor_spec, Z.shiftl_spec by (lia || done).
    destruct (decide (i < 8)%nat).
    + rewrite bit_at_head by done. rewrite <-(Z.mod_small (padded n bs) (2 ^ (8 * Z.of_nat n))) by done.
      rewrite Z.mod_pow2_bits_high by lia. cbn [orb]. f_equal. lia.
    + rewrite bit_at_tail by lia. rewrite (Z.testbit_neg_r b) by lia. rewrite orb_false_r, <-(IH n) by lia. f_equal. lia.
Qed.

Lemma load_word_spec n a bs c p w : p = zlen a -> Forall is_byte bs -> (n <= 8)%nat -> in_u (64 - 8 * Z.of_nat n) w ->
  load_word n (a ++ bs ++ c) (length bs) p w = Some (w * 2 ^ (8 * Z.of_nat n) + padded n bs).
Proof.
  revert a bs p w. induction n as [|n IH]; intros a bs p w Hp Hb Hn Hw; [cbn [load_word padded]; f_equal; lia|].
  rewrite pow_8_S. cbn [load_word].
  assert (u64 (Z.shiftl w 8) = w * 256 /\ in_u (64 - 8 * Z.of_nat n) (w * 256 + 255)) as [-> Hr].
  { assert (2 ^ (64 - 8 * Z.of_nat n) = 2 ^ (64 - 8 * Z.of_nat (S n)) * 256) as E.
    { change 256 with (2 ^ 8). rewrite <-Z.pow_add_r by lia. f_equal. lia. }
    assert (2 ^ (64 - 8 * Z.of_nat n) <= 2 ^ 64) by (apply Z.pow_le_mono_r; lia).
    rewrite Z.shiftl_mul_pow2 by lia. change (2 ^ 8) with 256. split; [apply uint_small; lia|lia]. }
  destruct Hb as [|b bs Hb Hbs]; cbn [length].
  - change 0%nat with (length (@nil Z)). rewrite (IH a []), padded_nil by (done || lia). rewrite padded_nil. f_equal. ring.
  - cbn [app]. rewrite mget_app by done. cbn [mbind option_bind]. unfold is_byte in Hb.
    rewrite Z.lor_comm. replace (w * 256) with (Z.shiftl w 8) by (rewrite Z.shiftl_mul_pow2; lia).
    rewrite lor_add by lia. change (2 ^ 8) with 256.
    specialize (IH (a ++ [b]) bs (p + 1) (b + w * 256)). rewrite <-app_assoc in IH. cbn [app] in IH.
    rewrite IH; [|zlen; simpl; lia|done|lia|lia]. cbn [padded]. f_equal. ring.
Qed.

(** A mask of one bit. *)
Lemma land_pow2 x k : 0 <= k -> Z.land x (2 ^ k) = if Z.testbit x k then 2 ^ k else 0.
Proof.
  intros Hk. apply Z.bits_inj'. intros i Hi. rewrite Z.land_spec, Z.pow2_bits_eqb by done.
  destruct (Z.eqb_spec k i) as [->|Hn].
  - destruct (Z.testbit x i); [by rewrite Z.pow2_bits_true|by rewrite Z.testbit_0_l].
  - rewrite andb_false_r. destruct (Z.testbit x k); [by rewrite Z.pow2_bits_false|by rewrite Z.testbit_0_l].
Qed.

Lemma land_pow2_eqb x k : 0 <= k -> negb (Z.land x (2 ^ k) =? 0) = Z.testbit x k.
Proof.
  intros Hk. rewrite land_pow2 by done. assert (2 ^ k <> 0) by (apply Z.pow_nonzero; lia).
  destruct (Z.testbit x k); [by rewrite (proj2 (Z.eqb_neq _ _))|done].
Qed.

(** The scan stops at the most significant bit equal to [bit]. *)
Lemma scan_word_spec fuel bit word k pos : (k <= fuel)%nat ->
  (exists j, (j <= k)%nat /\ Z.testbit word (Z.of_nat j) = bit) ->
  exists i, (i <= k)%nat /\ scan_word fuel bit (2 ^ Z.of_nat k) word pos = Some (pos + Z.of_nat i) /\
    Z.testbit word (Z.of_nat k - Z.of_nat i) = bit /\
    forall j, (j < i)%nat -> Z.testbit word (Z.of_nat k - Z.of_nat j) = negb bit.
Proof.
  revert k pos. induction fuel as [|fuel IH]; intros k pos Hk (j & Hj & Ej).
  all: assert (2 ^ Z.of_nat k <> 0) as Hn by (apply Z.pow_nonzero; lia).
  all: cbn [scan_word]; rewrite (proj2 (Z.eqb_neq _ _) Hn), Z.land_comm, land_pow2_eqb by lia.
  all: destruct (eqb (Z.testbit word (Z.of_nat k)) bit) eqn:E.
  1,3: exists 0%nat; apply eqb_prop in E; rewrite Z.add_0_r, Z.sub_0_r; split_and!; (done || lia).
  all: apply eqb_false_iff in E; assert (j <> k) as Hjk by (intros ->; done).
  { lia. }
  destruct k as [|k]; [lia|].
  replace (Z.shiftr (2 ^ Z.of_nat (S k)) 1) with (2 ^ Z.of_nat k).
  2:{ rewrite Z.shiftr_div_pow2, Nat2Z.inj_succ, Z.pow_succ_r by lia. change (2 ^ 1) with 2. by rewrite Z.mul_comm, Z.div_mul. }
  destruct (IH k (pos + 1)) as (i & Hi & -> & Ei & Hlt); [lia|exists j; split; [lia|done]|].
  exists (S i). split; [lia|]. split; [f_equal; lia|]. split; [rewrite <-Ei; f_equal; lia|].
  intros [|l] Hl; [change (Z.of_nat 0) with 0; rewrite Z.sub_0_r; by destruct (Z.testbit word (Z.of_nat (S k))), bit|]. rewrite <-(Hlt l) by lia. f_equal. lia.
Qed.

Lemma padded_8_testbit bs i : Forall is_byte bs -> (i < 64)%nat ->
  Z.testbit (padded 8 bs) (63 - Z.of_nat i) = bit_at bs i.
Proof. intros Hb Hi. by apply (padded_testbit 8). Qed.

(** What the last word decides. *)
Lemma near_zero bs : Forall is_byte bs -> near true bs -> padded 8 bs = 0 -> forall i, bit_at bs i = false.
Proof.
  intros Hb Hn E i. destruct (decide (i < 64)%nat).
  - by rewrite <-padded_8_testbit, E, Z.testbit_0_l.
  - destruct Hn as [Hl|(j & Hj & Ej)]; [apply bit_at_out; lia|].
    by rewrite <-padded_8_testbit, E, Z.testbit_0_l in Ej.
Qed.

Lemma near_found bit bs : Forall is_byte bs -> near bit bs -> bit && (padded 8 bs =? 0) = false ->
  exists j, (j <= 63)%nat /\ Z.testbit (padded 8 bs) (Z.of_nat j) = bit.
Proof.
  intros Hb Hn E. cut (exists i, (i < 64)%nat /\ bit_at bs i = bit).
  { intros (i & Hi & <-). exists (63 - i)%nat. split; [lia|]. rewrite <-padded_8_testbit by done. f_equal. lia. }
  destruct Hn as [Hl|Hn]; [|done]. destruct bit; cbn [andb] in E.
  - destruct (decide (Exists (eq true) (bits_of bs))) as [(x & [i Hi]%list_elem_of_lookup & <-)%Exists_exists|Hx].
    + exists i. apply lookup_lt_Some in Hi as Hlt. rewrite length_bits_of in Hlt. split; [lia|].
      unfold bit_at. by rewrite Hi.
    + exfalso. apply Z.eqb_neq in E. apply E. apply Z.bits_inj'. intros k Hk. rewrite Z.testbit_0_l.
      pose proof (padded_range 8 bs Hb). destruct (decide (k < 64)).
      * replace k with (63 - Z.of_nat (Z.to_nat (63 - k))) by lia. rewrite padded_8_testbit by (done || lia).
        unfold bit_at. destruct (bits_of bs !! _) as [[]|] eqn:El; [|done..].
        exfalso. apply Hx. apply Exists_exists. eexists. split; [by eapply list_elem_of_lookup_2|done].
      * rewrite <-(Z.mod_small (padded 8 bs) (2 ^ 64)), Z.mod_pow2_bits_high by lia. done.
  - exists (8 * length bs)%nat. split; [lia|]. by apply bit_at_out.
Qed.

(** redisBitpos returns the position of the first bit equal to [bit] of the
    string padded with zeroes on the right, or -1 when it looks for a one and
    there is none.  It reads nothing outside the [count] bytes at [s], it never
    reaches the panic at its end, and the result depends neither on the
    alignment of the block nor on the byte order of the host, although whole
    words are skipped at a time. *)
Lemma redisBitpos_first_bit be addr a bs c bit : Forall is_byte bs ->
  exists r, redisBitpos be addr (a ++ bs ++ c) (zlen a) (length bs) bit = Some r /\
    (r = -1 /\ bit = true /\ (forall i, bit_at bs i = false) \/
     0 <= r /\ bit_at bs (Z.to_nat r) = bit /\ forall i, Z.of_nat i < r -> bit_at bs i = negb bit).
Proof.
  intros Hb. unfold redisBitpos.
  assert (exists b1 b2, bs = b1 ++ b2 /\ Forall (eq (skip_byte bit)) b1 /\ near bit b2 /\
    forall k : Z * nat * Z -> option Z,
      ('(found, c', count, pos) ← skip_unaligned addr (a ++ bs ++ c) (skip_byte bit) (length bs) (zlen a) 0;
       (if (found : bool) then Some (c', count, pos) else
         skip_words count be (a ++ bs ++ c) (if bit then 0 else ULONG_MAX) count c' pos) ≫= k)
      = k (zlen (a ++ b1), length b2, 8 * zlen b1)) as (b1 & b2 & -> & H1 & Hn & Hk).
  { destruct (skip_unaligned_spec addr a bs c bit (zlen a) 0) as (f & b1 & b2 & -> & H1 & -> & Hf); [done..|].
    cbn [mbind option_bind]. apply Forall_app in Hb as [_ Hb2]. destruct f.
    { exists b1, b2. split_and!; auto. }
    replace (a ++ (b1 ++ b2) ++ c) with ((a ++ b1) ++ b2 ++ c) by (by rewrite <-!app_assoc).
    destruct (skip_words_spec (length b2) be (a ++ b1) b2 c bit (zlen (a ++ b1)) (0 + 8 * zlen b1))
      as (b3 & b4 & -> & H3 & -> & Hn); [done..|].
    exists (b1 ++ b3), b4. split; [by rewrite app_assoc|]. split; [by apply Forall_app|]. split; [done|].
    intros k. cbn [mbind option_bind]. rewrite <-app_assoc, (zlen_app b1 b3). do 2 f_equal. lia. }
  unfold skip_byte in Hk at 1. rewrite Hk. clear Hk. apply Forall_app in Hb as [_ Hb].
  replace (a ++ (b1 ++ b2) ++ c) with ((a ++ b1) ++ b2 ++ c) by (by rewrite <-!app_assoc).
  rewrite load_word_spec by (done || simpl; lia). cbn [mbind option_bind]. rewrite Z.mul_0_l, Z.add_0_l.
  assert (forall i, (i < 8 * length b1)%nat -> bit_at (b1 ++ b2) i = negb bit) as Hpre.
  { intros i Hi. rewrite bit_at_app_l by done. by apply skip_byte_bits. }
  destruct (bit && (padded 8 b2 =? 0)) eqn:E.
  - apply andb_prop in E as [-> E%Z.eqb_eq]. exists (-1). split; [done|]. left. split_and!; [done..|]. intros i.
    destruct (decide (i < 8 * length b1)%nat); [by rewrite Hpre|]. rewrite bit_at_app_r by lia. by apply near_zero.
  - destruct (scan_word_spec 64 bit (padded 8 b2) 63 (8 * zlen b1)) as (i & Hi & Es & Ei & Hlt); [lia|by apply near_found|].
    exists (8 * zlen b1 + Z.of_nat i). split; [exact Es|]. right. unfold zlen in *. split; [lia|].
    change (Z.of_nat 63) with 63 in *. split.
    + rewrite bit_at_app_r, <-padded_8_testbit, <-Ei by (done || lia). f_equal. lia.
    + intros j Hj. destruct (decide (j < 8 * length b1)%nat); [by apply Hpre|].
      rewrite bit_at_app_r, <-padded_8_testbit, <-(Hlt (j - 8 * length b1)%nat) by (done || lia). done.
Qed.

(** ** Runs of bits as numbers *)

(** The [n] low bits of [v], the most significant first. *)
Fixpoint field (n : nat) (v : Z) : list bool :=
  match n with O => [] | S n => Z.testbit v (Z.of_nat n) :: field n v end.

(** A run of bits read as a number. *)
Fixpoint num (l : list bool) : Z :=
  match l with [] => 0 | b :: l => Z.b2z b * 2 ^ zlen l + num l end.

Lemma length_field n v : length (field n v) = n.
Proof. induction n; simpl; auto. Qed.

Lemma num_range l : in_u (zlen l) (num l).
Proof.
  induction l as [|b l IH]; [vm_compute; split; done|]. cbn [num]. rewrite zlen_cons, Z.pow_add_r by (pose proof (zlen_nonneg l); lia).
  destruct b; cbn [Z.b2z]; lia.
Qed.

Lemma num_field n v : num (field n v) = uint (Z.of_nat n) v.
Proof.
  induction n as [|n IH]; [unfold uint; simpl; by rewrite Z.mod_1_r|]. cbn [field num]. rewrite IH. unfold zlen, uint.
  rewrite length_field, Nat2Z.inj_succ, Z.pow_succ_r by lia. rewrite (Z.mul_comm 2), Z.rem_mul_r by lia.
  rewrite Z.testbit_spec' by lia. ring.
Qed.

Lemma field_congr n v w : uint (Z.of_nat n) v = uint (Z.of_nat n) w -> field n v = field n w.
Proof.
  intros E. induction n as [|n IH]; [done|]. cbn [field].
  assert (forall k, 0 <= k <= Z.of_nat n -> Z.testbit v k = Z.testbit w k) as H.
  { intros k Hk. apply (f_equal (fun x => Z.testbit x k)) in E. unfold uint in E.
    by rewrite !Z.mod_pow2_bits_low in E by lia. }
  f_equal; [apply H; lia|]. apply IH. unfold uint. apply Z.bits_inj'. intros k Hk.
  destruct (decide (k < Z.of_nat n)); [rewrite !Z.mod_pow2_bits_low by lia; apply H; lia|].
  by rewrite !Z.mod_pow2_bits_high by lia.
Qed.

Lemma field_num l : field (length l) (num l) = l.
Proof.
  induction l as [|b l IH]; [done|]. cbn [length field num]. pose proof (num_range l) as Hr. f_equal.
  - rewrite Z.testbit_eqb by lia. fold (zlen l). rewrite Z.div_add_l, Z.div_small, Z.add_0_r by lia. by destruct b.
  - transitivity (field (length l) (num l)); [|done]. apply field_congr. fold (zlen l). unfold uint. rewrite Z.add_comm, Z.mod_add by lia. done.
Qed.

(** ** One bit of a block *)

(** p[byte] with one bit replaced *)
Definition put_byte (x : Z) (k : nat) (b : bool) : Z :=
  Z.land (Z.lor (Z.land x (Z.lnot (Z.shiftl 1 (7 - Z.of_nat k)))) (Z.shiftl (Z.b2z b) (7 - Z.of_nat k))) 255.

Lemma put_byte_spec x k b : is_byte x -> (k < 8)%nat ->
  is_byte (put_byte x k b) /\ byte_bits (put_byte x k b) = <[k := b]> (byte_bits x).
Proof.
  intros Hx Hk.
  assert (Forall (fun k => is_byte (put_byte x k b) /\ byte_bits (put_byte x k b) = <[k := b]> (byte_bits x)) (seq 0 8)) as H.
  { revert x Hx. destruct b.
    - apply (byte_cases (fun x => Forall (fun k => is_byte (put_byte x k true) /\
        byte_bits (put_byte x k true) = <[k := true]> (byte_bits x)) (seq 0 8))). by vm_compute.
    - apply (byte_cases (fun x => Forall (fun k => is_byte (put_byte x k false) /\
        byte_bits (put_byte x k false) = <[k := false]> (byte_bits x)) (seq 0 8))). by vm_compute. }
  rewrite Forall_forall in H. apply H, elem_of_seq. lia.
Qed.

(** The byte and the bit of an offset. *)
Lemma offset_split offset : 0 <= offset -> exists j k : nat, (k < 8)%nat /\ offset = 8 * Z.of_nat j + Z.of_nat k /\
  Z.shiftr offset 3 = Z.of_nat j /\ Z.land offset 7 = Z.of_nat k.
Proof.
  intros H. exists (Z.to_nat (offset / 8)), (Z.to_nat (offset mod 8)).
  pose proof (Z.mod_pos_bound offset 8 ltac:(lia)). pose proof (Z.div_pos offset 8 H ltac:(lia)).
  change 7 with (2 ^ 3 - 1). rewrite Z.shiftr_div_pow2, land_low by lia. change (2 ^ 3) with 8. split; [lia|]. split; [lia_div|lia].
Qed.

Lemma put_bit_spec p offset b : Forall is_byte p -> 0 <= offset < 8 * zlen p -> exists p',
  put_bit p offset (Z.b2z b) = Some p' /\ Forall is_byte p' /\ length p' = length p /\
  bits_of p' = <[Z.to_nat offset := b]> (bits_of p).
Proof.
  intros Hp [H0 Hlt]. destruct (offset_split offset H0) as (j & k & Hk & -> & Es & El).
  unfold put_bit. rewrite Es, El. unfold zlen in Hlt.
  destruct (lookup_lt_is_Some_2 p j) as [x Hx]; [lia|].
  apply list_elem_of_split_length in Hx as (a & c & -> & ->). rewrite mget_app by done. cbn [mbind option_bind].
  change (Z.land _ 255) with (put_byte x k b). change (x :: c) with ([x] ++ c). rewrite mstore_app by done.
  apply Forall_app in Hp as [Ha [Hx Hc]%Forall_cons]. destruct (put_byte_spec x k b Hx Hk) as [Hy Ey].
  eexists. split; [done|]. split; [apply Forall_app; split; [done|by constructor]|].
  split; [by rewrite !length_app|].
  rewrite !bits_of_app, !bits_of_cons, Ey, insert_app_r_alt by (rewrite length_bits_of; lia). f_equal.
  rewrite length_bits_of, insert_app_l by (rewrite length_app, length_byte_bits; lia).
  replace (Z.to_nat _ - 8 * length a)%nat with k by lia. cbn [bits_of mbind list_bind]. rewrite !app_nil_r. done.
Qed.

Lemma get_bit_spec p offset : Forall is_byte p -> 0 <= offset < 8 * zlen p ->
  get_bit p offset = Z.b2z <$> bits_of p !! Z.to_nat offset.
Proof.
  intros Hp [H0 Hlt]. destruct (offset_split offset H0) as (j & k & Hk & -> & Es & El).
  unfold get_bit. rewrite Es, El. unfold zlen in Hlt.
  destruct (lookup_lt_is_Some_2 p j) as [x Hx]; [lia|].
  replace (Z.to_nat _) with (8 * j + k)%nat by lia. rewrite (bits_of_lookup p j x k) by done.
  unfold mget. rewrite bool_decide_eq_true_2, Nat2Z.id, Hx by lia. cbn [mbind option_bind fmap option_fmap option_map]. f_equal.
  change 1 with (2 ^ 1 - 1) at 1. rewrite land_low by lia. change (2 ^ 1) with 2. rewrite Z.testbit_spec', Z.shiftr_div_pow2 by lia. done.
Qed.

(** ** The bitfield functions on the bits of the block *)

(** A field lies inside the block, and offsets do not wrap. *)
Definition in_block (p : bytes) (offset bits : Z) : Prop :=
  0 <= offset /\ 0 <= bits <= 64 /\ offset + bits <= 8 * zlen p /\ 8 * zlen p < 2 ^ 64.

Lemma set_bits_spec n p offset v A F C : Forall is_byte p -> 8 * zlen p < 2 ^ 64 -> (n <= 64)%nat ->
  bits_of p = A ++ F ++ C -> offset = zlen A -> length F = n ->
  exists p', set_bits n p offset v = Some p' /\ Forall is_byte p' /\ length p' = length p /\ bits_of p' = A ++ field n v ++ C.
Proof.
  revert p offset A F. induction n as [|n IH]; intros p offset A F Hb Hp Hn E -> Hl.
  { exists p. split_and!; try done. by apply nil_length_inv in Hl as ->. }
  destruct F as [|f F]; [done|]. injection Hl as Hl. cbn [set_bits].
  pose proof (f_equal length E) as El. rewrite length_bits_of, !length_app in El. cbn [length] in El.
  assert (zlen A + 1 < 2 ^ 64) as Ho by (unfold zlen in *; lia).
  rewrite Z.shiftl_1_l, (uint_small 64 (2 ^ _)) by (split; [lia|apply Z.pow_lt_mono_r; lia]).
  rewrite land_pow2_eqb by lia. change (if Z.testbit v (Z.of_nat n) then 1 else 0) with (Z.b2z (Z.testbit v (Z.of_nat n))).
  destruct (put_bit_spec p (zlen A) (Z.testbit v (Z.of_nat n))) as (p1 & -> & Hb1 & Hl1 & E1); [done|unfold zlen in *; lia|].
  cbn [mbind option_bind]. unfold zlen in E1 at 1. rewrite Nat2Z.id, E in E1. cbn [app] in E1.
  rewrite insert_app_r_alt, Nat.sub_diag in E1 by done. cbn [insert list_insert] in E1.
  rewrite (uint_small 64 (zlen A + 1)) by (pose proof (zlen_nonneg A); lia).
  destruct (IH p1 (zlen A + 1) (A ++ [Z.testbit v (Z.of_nat n)]) F) as (p2 & -> & Hb2 & Hl2 & E2);
    [done|unfold zlen in *; lia|lia|by rewrite E1, <-app_assoc|zlen; simpl; lia|done|].
  exists p2. split_and!; [done..|lia|]. rewrite E2, <-app_assoc. done.
Qed.

Lemma get_bits_spec n p offset v A F C : Forall is_byte p -> 8 * zlen p < 2 ^ 64 -> (n <= 64)%nat ->
  bits_of p = A ++ F ++ C -> offset = zlen A -> length F = n -> in_u (64 - Z.of_nat n) v ->
  get_bits n p offset v = Some (v * 2 ^ Z.of_nat n + num F).
Proof.
  revert offset A F v. induction n as [|n IH]; intros offset A F v Hb Hp Hn E -> Hl Hv.
  { apply nil_length_inv in Hl as ->. cbn [get_bits num]. f_equal. lia. }
  destruct F as [|f F]; [done|]. injection Hl as Hl. cbn [get_bits num].
  pose proof (f_equal length E) as El. rewrite length_bits_of, !length_app in El. cbn [length] in El.
  rewrite get_bit_spec by (done || unfold zlen in *; lia). replace (Z.to_nat (zlen A)) with (length A) by (unfold zlen; lia). rewrite E.
  cbn [app]. rewrite list_lookup_middle by done. cbn [mbind option_bind fmap option_fmap option_map].
  rewrite (uint_small 64 (zlen A + 1)) by (unfold zlen in *; lia).
  assert (2 ^ (64 - Z.of_nat n) = 2 * 2 ^ (64 - Z.of_nat (S n))) as E2.
  { rewrite <-Z.pow_succ_r by lia. f_equal. lia. }
  assert (2 ^ (64 - Z.of_nat n) <= 2 ^ 64) by (apply Z.pow_le_mono_r; lia).
  rewrite Z.shiftl_mul_pow2 by lia. change (2 ^ 1) with 2. rewrite (uint_small 64 (v * 2)) by lia.
  replace (v * 2) with (Z.shiftl v 1) by (rewrite Z.shiftl_mul_pow2; lia).
  rewrite Z.lor_comm, lor_add by (destruct f; simpl; lia). change (2 ^ 1) with 2.
  rewrite (IH (zlen A + 1) (A ++ [f]) F); [|done..|lia|by rewrite <-app_assoc|zlen; simpl; lia|done|destruct f; simpl; lia].
  f_equal. unfold zlen. rewrite Hl, Nat2Z.inj_succ, Z.pow_succ_r by lia. ring.
Qed.

(** The run of bits [offset, offset + bits). *)
Definition run (p : bytes) (offset bits : Z) : list bool := take (Z.to_nat bits) (drop (Z.to_nat offset) (bits_of p)).

Lemma run_split p offset bits : in_block p offset bits -> exists A C,
  bits_of p = A ++ run p offset bits ++ C /\ zlen A = offset /\ length (run p offset bits) = Z.to_nat bits.
Proof.
  intros (H0 & Hb & Hle & _). pose proof (length_bits_of p) as Hl. unfold zlen in Hle.
  exists (take (Z.to_nat offset) (bits_of p)), (drop (Z.to_nat bits) (drop (Z.to_nat offset) (bits_of p))). unfold run.
  rewrite !take_drop. split; [done|]. unfold zlen. rewrite !length_take, length_drop. lia.
Qed.

Lemma getUnsignedBitfield_spec p offset bits : Forall is_byte p -> in_block p offset bits ->
  getUnsignedBitfield p offset bits = Some (num (run p offset bits)).
Proof.
  intros Hb Hin. destruct (run_split p offset bits Hin) as (A & C & E & HA & Hl). destruct Hin as (? & ? & ? & ?).
  unfold getUnsignedBitfield. rewrite (get_bits_spec _ p offset 0 A (run p offset bits) C) by (done || lia).
  by rewrite Z.mul_0_l.
Qed.

Lemma setUnsignedBitfield_spec p offset bits v : Forall is_byte p -> in_block p offset bits -> exists p' A C,
  setUnsignedBitfield p offset bits v = Some p' /\ Forall is_byte p' /\ length p' = length p /\
  bits_of p = A ++ run p offset bits ++ C /\ zlen A = offset /\ length (run p offset bits) = Z.to_nat bits /\
  bits_of p' = A ++ field (Z.to_nat bits) v ++ C.
Proof.
  intros Hb Hin. destruct (run_split p offset bits Hin) as (A & C & E & HA & Hl). destruct Hin as (? & ? & ? & ?).
  destruct (set_bits_spec (Z.to_nat bits) p offset v A (run p offset bits) C) as (p' & ? & ? & ? & ?); try done; try lia.
  exists p', A, C. done.
Qed.

(** The bits of a run, and the bits outside of it. *)
Lemma run_overwritten p' A l C offset bits : bits_of p' = A ++ l ++ C -> zlen A = offset -> length l = Z.to_nat bits ->
  run p' offset bits = l.
Proof.
  intros E <- Hl. unfold run, zlen. rewrite E, Nat2Z.id, drop_app_length, <-Hl, take_app_length. done.
Qed.

Lemma run_disjoint p p' A l l' C offset bits : bits_of p = A ++ l ++ C -> bits_of p' = A ++ l' ++ C -> length l' = length l ->
  0 <= offset -> 0 <= bits -> offset + bits <= zlen A \/ zlen A + zlen l <= offset -> run p' offset bits = run p offset bits.
Proof.
  intros E E' Hl Ho Hb [H|H]; unfold run, zlen in *; rewrite E, E'.
  - rewrite !drop_app_le, !take_app_le by (rewrite ?length_drop; lia). done.
  - rewrite !drop_app_ge by lia. by rewrite Hl.
Qed.

(** ** Signed fields *)

Lemma pow2_split64 bits : 0 <= bits <= 64 -> 2 ^ 64 = 2 ^ (64 - bits) * 2 ^ bits.
Proof. intros H. rewrite <-Z.pow_add_r by lia. f_equal. lia. Qed.

Lemma uint_uint a b v : 0 <= a <= b -> uint a (uint b v) = uint a v.
Proof.
  intros H. unfold uint. apply Z.bits_inj'. intros k Hk. destruct (decide (k < a)).
  - by rewrite !Z.mod_pow2_bits_low by lia.
  - by rewrite !Z.mod_pow2_bits_high by lia.
Qed.

Lemma high_mask bits : 0 <= bits <= 64 -> u64 (Z.shiftl (u64 (-1)) bits) = 2 ^ 64 - 2 ^ bits.
Proof.
  intros H. pose proof (pow2_split64 bits H) as E. assert (0 < 2 ^ bits) by (apply Z.pow_pos_nonneg; lia).
  assert (0 < 2 ^ (64 - bits)) by (apply Z.pow_pos_nonneg; lia).
  change (u64 (-1)) with (2 ^ 64 - 1). rewrite Z.shiftl_mul_pow2 by lia. unfold uint. symmetry.
  apply (Z.mod_unique _ _ (2 ^ bits - 1)); [left; nia|ring].
Qed.

Lemma sign_bit bits c : 1 <= bits <= 64 -> negb (Z.land c (u64 (Z.shiftl 1 (bits - 1))) =? 0) = Z.testbit c (bits - 1).
Proof.
  intros H. rewrite Z.shiftl_1_l, (uint_small 64) by (split; [lia|apply Z.pow_lt_mono_r; lia]). apply land_pow2_eqb. lia.
Qed.

Lemma testbit_high u w : 0 < w -> in_u w u -> Z.testbit u (w - 1) = (2 ^ (w - 1) <=? u).
Proof.
  intros Hw Hu. assert (2 ^ w = 2 * 2 ^ (w - 1)) as E by (rewrite <-Z.pow_succ_r by lia; f_equal; lia).
  rewrite Z.testbit_eqb by lia. assert (0 < 2 ^ (w - 1)) by lia. destruct (Z.leb_spec (2 ^ (w - 1)) u).
  - rewrite <-(Z.div_unique u (2 ^ (w - 1)) 1 (u - 2 ^ (w - 1))) by lia. done.
  - rewrite Z.div_small by lia. done.
Qed.

(** The sign of a number of [w] bits. *)
Lemma sint_cases u w : 0 < w -> in_u w u -> sint w u = if 2 ^ (w - 1) <=? u then u - 2 ^ w else u.
Proof.
  intros Hw Hu. assert (2 ^ w = 2 * 2 ^ (w - 1)) as E by (rewrite <-Z.pow_succ_r by lia; f_equal; lia).
  unfold sint. destruct (Z.leb_spec (2 ^ (w - 1)) u).
  - rewrite <-(Z.mod_unique (u + 2 ^ (w - 1)) (2 ^ w) 1 (u - 2 ^ (w - 1))) by lia. lia.
  - rewrite Z.mod_small by lia. lia.
Qed.

Lemma pow_le_63 bits : 0 <= bits < 64 -> 0 < 2 ^ bits <= 2 ^ 63.
Proof. intros H. split; [apply Z.pow_pos_nonneg; lia|apply Z.pow_le_mono_r; lia]. Qed.

(** Ones above a field of [bits] bits whose sign bit is set. *)
Lemma sign_extend bits u : 1 <= bits < 64 -> in_u bits u -> 2 ^ (bits - 1) <= u ->
  s64 (Z.lor u (u64 (Z.shiftl (u64 (-1)) bits))) = u - 2 ^ bits.
Proof.
  intros Hb Hu Hs. rewrite high_mask by lia. pose proof (pow2_split64 bits ltac:(lia)) as E. pose proof (pow_le_63 bits ltac:(lia)).
  replace (2 ^ 64 - 2 ^ bits) with (Z.shiftl (2 ^ (64 - bits) - 1) bits) by (rewrite Z.shiftl_mul_pow2 by lia; rewrite E; ring).
  rewrite lor_add by lia. rewrite Z.mul_sub_distr_r, <-E, Z.mul_1_l.
  rewrite sint_cases by lia. change (64 - 1) with 63. rewrite (proj2 (Z.leb_le _ _)) by lia. lia.
Qed.

Lemma getSignedBitfield_spec p offset bits : Forall is_byte p -> in_block p offset bits -> 1 <= bits ->
  getSignedBitfield p offset bits = Some (sint bits (num (run p offset bits))).
Proof.
  intros Hp Hin Hb. unfold getSignedBitfield. rewrite getUnsignedBitfield_spec by done. cbn [mbind option_bind]. f_equal.
  destruct (run_split p offset bits Hin) as (_ & _ & _ & _ & Hl). destruct Hin as (_ & [_ Hb64] & _).
  pose proof (num_range (run p offset bits)) as Hr. unfold zlen in Hr. rewrite Hl, Z2Nat.id in Hr by lia.
  set (u := num _) in *. destruct (Z.ltb_spec bits 64) as [Hlt|Hge]; cbn [andb]; [|by replace bits with 64 by lia].
  pose proof (pow_le_63 bits ltac:(lia)).
  rewrite (sint_small 64 u), (uint_small 64 u), sign_bit, testbit_high, (sint_cases u bits) by lia.
  destruct (Z.leb_spec (2 ^ (bits - 1)) u); [by apply sign_extend|done].
Qed.

(** C24: what is stored in a bitfield is read back: after storing the value [v]
    in [bits] bits at [offset] (from 1 to 64 bits, at any offset in the block),
    the unsigned read returns [v] modulo 2^bits and the signed read its two's
    complement value, so that a value in range is returned unchanged; the block
    keeps its length, and every field that does not overlap the written one
    reads as before. *)
Theorem bitfield_roundtrip p offset bits v :
  Forall is_byte p -> in_block p offset bits -> 1 <= bits ->
  exists p', setSignedBitfield p offset bits v = Some p' /\ setUnsignedBitfield p offset bits (u64 v) = Some p' /\
    length p' = length p /\
    getUnsignedBitfield p' offset bits = Some (uint bits v) /\ getSignedBitfield p' offset bits = Some (sint bits v) /\
    forall o b, in_block p o b -> 1 <= b -> o + b <= offset \/ offset + bits <= o ->
      getUnsignedBitfield p' o b = getUnsignedBitfield p o b /\ getSignedBitfield p' o b = getSignedBitfield p o b.
Proof.
  intros Hp Hin Hb. unfold setSignedBitfield.
  destruct (setUnsignedBitfield_spec p offset bits (u64 v)) as (p' & A & C & E & Hp' & Hl & E1 & HA & Hf & E2); [done..|].
  exists p'. split_and!; [done..| | |].
  all: assert (forall o b, in_block p o b -> in_block p' o b) as Hblk by (unfold in_block, zlen; by rewrite Hl).
  all: assert (run p' offset bits = field (Z.to_nat bits) (u64 v)) as Er by (eapply run_overwritten; [done..|apply length_field]).
  all: assert (num (run p' offset bits) = uint bits v) as En.
  1,3,5: destruct Hin as (_ & Hb64 & _); rewrite Er, num_field, Z2Nat.id, uint_uint by lia; done.
  - rewrite getUnsignedBitfield_spec by auto. by rewrite En.
  - rewrite getSignedBitfield_spec by auto. by rewrite En, sint_uint by lia.
  - intros o b Ho Hb1 Hd. assert (run p' o b = run p o b) as Eo.
    { destruct Ho as (? & ? & ?), Hin as (? & ? & ?). eapply run_disjoint; [done..|by rewrite length_field|lia|lia|].
      unfold zlen in *. rewrite HA, Hf. lia. }
    rewrite !getUnsignedBitfield_spec, !getSignedBitfield_spec, Eo by auto. done.
Qed.

Lemma bitfield_roundtrip_witness : exists p', setSignedBitfield (replicate 4 255) 7 5 (-9) = Some p' /\
    getSignedBitfield p' 7 5 = Some (-9) /\ getUnsignedBitfield p' 12 8 = Some 255.
Proof.
  destruct (bitfield_roundtrip (replicate 4 255) 7 5 (-9)) as (p' & E & _ & _ & _ & H & Ho).
  - refine (bool_decide_eq_true_1 _ _). vm_compute. reflexivity.
  - unfold in_block. vm_compute. repeat split; discriminate.
  - lia.
  - exists p'. split; [done|]. split; [done|]. destruct (Ho 12 8) as [-> _]; [|lia|lia|done].
    unfold in_block. vm_compute. repeat split; discriminate.
Defined.

(** ** Overflow *)

(** The result for the exact sum [e] of a type whose values go from [lo] to
    [hi]; [wrap] is the conversion to the type. *)
Definition overflow_result (lo hi : Z) (wrap : Z -> Z) (owtype : bfoverflow) (e : Z) : Z * option Z :=
  if bool_decide (lo <= e <= hi) then (0, None)
  else match owtype with
  | BFOVERFLOW_WRAP => (1, Some (wrap e))
  | BFOVERFLOW_SAT => if e <? lo then (-1, Some lo) else (1, Some hi)
  | BFOVERFLOW_FAIL => (if e <? lo then -1 else 1, None)
  end.

Lemma low_mask bits x : 0 <= bits <= 64 -> Z.land (u64 x) (u64 (Z.lnot (u64 (Z.shiftl (u64 (-1)) bits)))) = uint bits x.
Proof.
  intros H. rewrite high_mask by done. assert (0 < 2 ^ bits) by (apply Z.pow_pos_nonneg; lia).
  assert (2 ^ bits <= 2 ^ 64) by (apply Z.pow_le_mono_r; lia).
  assert (u64 (Z.lnot (2 ^ 64 - 2 ^ bits)) = 2 ^ bits - 1) as ->.
  { unfold uint, Z.lnot. symmetry. apply (Z.mod_unique _ _ (-1)); lia. }
  rewrite land_low by lia. apply (uint_uint bits 64). lia.
Qed.

Lemma checkUnsigned_spec value incr bits owtype : 1 <= bits <= 63 -> in_u 64 value -> in_s 64 incr ->
  value < 2 ^ bits \/ incr = 0 ->
  checkUnsignedBitfieldOverflow value incr bits owtype = overflow_result 0 (2 ^ bits - 1) (uint bits) owtype (value + incr).
Proof.
  intros Hb Hv Hi Hd. pose proof (pow_le_63 bits ltac:(lia)) as Hp. unfold checkUnsignedBitfieldOverflow.
  rewrite (proj2 (Z.eqb_neq bits 64)), Z.shiftl_1_l, (uint_small 64 (2 ^ bits - 1)), low_mask by lia.
  assert (value < 2 ^ bits -> s64 (2 ^ bits - 1 - value) = 2 ^ bits - 1 - value) as Emax by (intros; apply sint_small; lia).
  assert (value < 2 ^ bits -> s64 (u64 (- value)) = - value) as Emin by (intros; rewrite sint_uint, sint_small; lia).
  unfold overflow_result. destruct (Z.gtb_spec value (2 ^ bits - 1)) as [Hgt|Hle]; cbn [orb].
  - rewrite bool_decide_eq_false_2, (proj2 (Z.ltb_ge _ _)) by lia. by destruct owtype.
  - rewrite Emax, Emin by lia. destruct (Z.gtb_spec incr 0), (Z.gtb_spec incr (2 ^ bits - 1 - value)); cbn [andb].
    1: rewrite bool_decide_eq_false_2, (proj2 (Z.ltb_ge _ _)) by lia; by destruct owtype.
    all: destruct (Z.ltb_spec incr 0), (Z.ltb_spec incr (- value)); cbn [andb]; try lia.
    all: try (rewrite bool_decide_eq_true_2 by lia; done).
    all: rewrite bool_decide_eq_false_2, (proj2 (Z.ltb_lt _ _)) by lia; by destruct owtype.
Qed.

(** The conversion of the wrapped sum of a signed field. *)
Lemma signed_wrap bits c : 1 <= bits <= 64 ->
  s64 (let c := u64 c in
       if bits <? 64 then
         if negb (Z.land c (u64 (Z.shiftl 1 (bits - 1))) =? 0) then Z.lor c (u64 (Z.shiftl (u64 (-1)) bits))
         else Z.land c (u64 (Z.lnot (u64 (Z.shiftl (u64 (-1)) bits))))
       else c) = sint bits c.
Proof.
  intros Hb. cbn zeta. destruct (Z.ltb_spec bits 64) as [Hlt|Hge]; [|replace bits with 64 by lia; by apply sint_uint].
  pose proof (pow_le_63 bits ltac:(lia)) as Hp. pose proof (uint_range bits c ltac:(lia)) as Hr.
  assert (Z.testbit (u64 c) (bits - 1) = Z.testbit (uint bits c) (bits - 1)) as Et.
  { unfold uint. by rewrite !Z.mod_pow2_bits_low by lia. }
  assert (2 ^ bits = 2 * 2 ^ (bits - 1)) as E2 by (rewrite <-Z.pow_succ_r by lia; f_equal; lia).
  rewrite sign_bit, Et, testbit_high by lia. rewrite <-(sint_uint bits c), (sint_cases (uint bits c) bits) by lia.
  destruct (Z.leb_spec (2 ^ (bits - 1)) (uint bits c)) as [Hs|Hs].
  - rewrite <-(sign_extend bits (uint bits c)) by lia. f_equal. rewrite high_mask by lia.
    apply Z.bits_inj'. intros k Hk. rewrite !Z.lor_spec. destruct (decide (k < bits)).
    + unfold uint. by rewrite !Z.mod_pow2_bits_low by lia.
    + pose proof (pow2_split64 bits ltac:(lia)) as E.
      replace (2 ^ 64 - 2 ^ bits) with (Z.shiftl (Z.ones (64 - bits)) bits)
        by (rewrite Z.shiftl_mul_pow2, Z.ones_equiv, E by lia; lia).
      rewrite Z.shiftl_spec by done. unfold uint. rewrite (Z.mod_pow2_bits_high c bits) by lia.
      destruct (decide (k < 64)); [by rewrite Z.ones_spec_low, !orb_true_r by lia|].
      by rewrite Z.mod_pow2_bits_high, Z.ones_spec_high by lia.
  - rewrite low_mask by lia. apply sint_small; lia.
Qed.

(** The two conditions of checkSignedBitfieldOverflow decide on which side of
    the range the sum is. *)
Lemma signed_above value incr bits : 1 <= bits <= 64 -> in_s 64 incr ->
  in_s bits value \/ incr = 0 /\ in_s 64 value /\ 2 ^ (bits - 1) - 1 - value < 2 ^ 63 ->
  (value >? 2 ^ (bits - 1) - 1) || (negb (bits =? 64) && (incr >? s64 (2 ^ (bits - 1) - 1 - value)))
    || ((value >=? 0) && (incr >? 0) && (incr >? s64 (2 ^ (bits - 1) - 1 - value)))
  = (2 ^ (bits - 1) - 1 <? value + incr).
Proof.
  intros Hb Hi Hd. pose proof (pow_le_63 (bits - 1) ltac:(lia)) as Hp. set (M := 2 ^ (bits - 1)) in *.
  destruct (Z.eqb_spec bits 64) as [->|Hn]; cbn [negb andb orb].
  - change M with (2 ^ 63) in *. destruct (decide (0 <= value)).
    + rewrite (sint_small 64) by lia. lia.
    + rewrite (Z.geb_leb value), (proj2 (Z.leb_gt 0 value)) by lia. cbn [andb]. rewrite orb_false_r. lia.
  - assert (M <= 2 ^ 62) as HM by (apply Z.pow_le_mono_r; lia).
    destruct (decide (value <= M - 1)); [|lia]. rewrite (sint_small 64) by lia. lia.
Qed.

Lemma signed_below value incr bits : 1 <= bits <= 64 -> in_s 64 incr ->
  in_s bits value \/ incr = 0 /\ in_s 64 value -> value + incr <= 2 ^ (bits - 1) - 1 ->
  (value <? - 2 ^ (bits - 1)) || (negb (bits =? 64) && (incr <? s64 (- 2 ^ (bits - 1) - value)))
    || ((value <? 0) && (incr <? 0) && (incr <? s64 (- 2 ^ (bits - 1) - value)))
  = (value + incr <? - 2 ^ (bits - 1)).
Proof.
  intros Hb Hi Hd Hle. pose proof (pow_le_63 (bits - 1) ltac:(lia)) as Hp. set (M := 2 ^ (bits - 1)) in *.
  destruct (Z.eqb_spec bits 64) as [->|Hn]; cbn [negb andb orb].
  - change M with (2 ^ 63) in *. destruct (decide (value < 0)).
    + rewrite (sint_small 64) by lia. lia.
    + rewrite (proj2 (Z.ltb_ge value 0)) by lia. cbn [andb]. rewrite orb_false_r. lia.
  - assert (M <= 2 ^ 62) as HM by (apply Z.pow_le_mono_r; lia).
    destruct (decide (- M <= value)); [|lia]. rewrite (sint_small 64) by lia. lia.
Qed.

Lemma checkSigned_spec value incr bits owtype : 1 <= bits <= 64 -> in_s 64 incr ->
  in_s bits value \/ incr = 0 /\ in_s 64 value /\ 2 ^ (bits - 1) - 1 - value < 2 ^ 63 ->
  checkSignedBitfieldOverflow value incr bits owtype
  = overflow_result (- 2 ^ (bits - 1)) (2 ^ (bits - 1) - 1) (sint bits) owtype (value + incr).
Proof.
  intros Hb Hi Hd. pose proof (pow_le_63 (bits - 1) ltac:(lia)) as Hp. unfold checkSignedBitfieldOverflow. cbn zeta.
  replace (if bits =? 64 then 2 ^ 63 - 1 else Z.shiftl 1 (bits - 1) - 1) with (2 ^ (bits - 1) - 1)
    by (rewrite Z.shiftl_1_l; destruct (Z.eqb_spec bits 64) as [->|]; done).
  replace (- (2 ^ (bits - 1) - 1) - 1) with (- 2 ^ (bits - 1)) by lia.
  rewrite signed_above by done. replace (u64 (u64 value + u64 incr)) with (u64 (value + incr))
    by (unfold uint; by rewrite <-Z.add_mod by lia).
  pose proof (signed_wrap bits (value + incr) Hb) as Hw. cbn zeta in Hw. rewrite Hw. unfold overflow_result.
  destruct (Z.ltb_spec (2 ^ (bits - 1) - 1) (value + incr)) as [Hgt|Hle].
  - rewrite bool_decide_eq_false_2, (proj2 (Z.ltb_ge _ _)) by lia. by destruct owtype.
  - rewrite signed_below by tauto. destruct (Z.ltb_spec (value + incr) (- 2 ^ (bits - 1))).
    + rewrite bool_decide_eq_false_2 by lia. by destruct owtype.
    + by rewrite bool_decide_eq_true_2 by lia.
Qed.

(** The check of a SET, for the caller who only asks whether it overflowed: it
    is wrong only for a saturating SET of a value for which max - value leaves
    64 bits. *)
Lemma checkSigned_set value bits owtype : 1 <= bits <= 64 -> in_s 64 value ->
  (owtype = BFOVERFLOW_SAT -> bits < 64 -> 2 ^ (bits - 1) - 1 - value < 2 ^ 63) ->
  let r := overflow_result (- 2 ^ (bits - 1)) (2 ^ (bits - 1) - 1) (sint bits) owtype value in
  exists ov, checkSignedBitfieldOverflow value 0 bits owtype = (ov, snd r) /\ (ov =? 0) = (fst r =? 0).
Proof.
  intros Hb Hv Hr r. destruct (decide (bits = 64 \/ 2 ^ (bits - 1) - 1 - value < 2 ^ 63)) as [Hin|Hout].
  - exists (fst r). rewrite checkSigned_spec, Z.add_0_r by first [lia | destruct Hin as [->|]; [by left|by right]].
    split; [apply surjective_pairing|done].
  - pose proof (pow_le_63 (bits - 1) ltac:(lia)) as Hp.
    assert (2 ^ (bits - 1) <= 2 ^ 62) as Hq by (apply Z.pow_le_mono_r; lia).
    assert (owtype <> BFOVERFLOW_SAT) as Hs by (intros ->; specialize (Hr eq_refl); lia).
    exists 1. unfold checkSignedBitfieldOverflow. cbn zeta.
    replace (if bits =? 64 then 2 ^ 63 - 1 else Z.shiftl 1 (bits - 1) - 1) with (2 ^ (bits - 1) - 1)
      by (rewrite Z.shiftl_1_l; destruct (Z.eqb_spec bits 64) as [->|]; done).
    rewrite (proj2 (Z.eqb_neq bits 64)) by lia.
    assert (s64 (2 ^ (bits - 1) - 1 - value) < 0) as Hneg.
    { rewrite <-sint_uint, uint_small, sint_cases by lia. rewrite (proj2 (Z.leb_le _ _)) by lia. lia. }
    rewrite (Z.gtb_ltb 0), (proj2 (Z.ltb_lt (s64 _) 0)) by done. rewrite orb_true_r. cbn [orb].
    replace (u64 (u64 value + u64 0)) with (u64 value) by (unfold uint; by rewrite <-Z.add_mod, Z.add_0_r by lia).
    pose proof (signed_wrap bits value Hb) as Hw. cbn zeta in Hw. rewrite Hw. subst r. unfold overflow_result.
    rewrite bool_decide_eq_false_2, (proj2 (Z.ltb_lt _ _)) by lia. by destruct owtype.
Qed.
