(* ===== verification/Bitops.v ===== *)
(** * bitops.c: SETBIT, GETBIT, BITOP, BITCOUNT, BITPOS and BITFIELD

    A command is a function of the arguments of the client and of the object
    the lookup of the key returned; its [outcome] is the object the key holds
    afterwards, the replies in order, what was added to server.dirty and the
    keyspace events.  An error is an outcome with its one reply and nothing
    changed.  [None] is an access outside a string.

    The content of a string object is a list of bytes: what sdsgrowzero and
    sdsnewlen do to an sds is the subject of the file on sds.c.  Parameters:
    server.proto_max_bulk_len, the address of the string (the counting
    functions align on it), the byte order of the host and the content
    [uninit] of a variable that is not initialised.  The database itself
    (lookup, expiration, key space notification) is not part of this file. *)

From S2P Require Import Prelude Util Endian Reply Bitmap.

(** An object of the key space: a string, or another type. *)
Inductive value := VString (o : robj) | VOther.

Record outcome := mk_outcome {
  slot : option value; replies : list reply_op; dirty : Z; events : list bytes }.

Definition czero : reply_op := RObj (ObjStr (str ":0" ++ crlf)).
Definition cone : reply_op := RObj (ObjStr (str ":1" ++ crlf)).
Definition wrongtypeerr : reply_op :=
  RObj (ObjStr (str "-WRONGTYPE Operation against a key holding the wrong kind of value" ++ crlf)).
Definition syntaxerr : reply_op := RObj (ObjStr (str "-ERR syntax error" ++ crlf)).

(** Nothing but the reply. *)
Definition only_reply (o : option value) (r : reply_op) : outcome := mk_outcome o [r] 0 [].

(** strcasecmp(a, b) == 0, [a] an sds read as a C string *)
Definition same_word (a : bytes) (b : string) : bool := strcasecmp_eq (cstr a) (str b).

(** sdsgrowzero on the content *)
Definition grow_zero (s : bytes) (len : Z) : bytes := s ++ replicate (Z.to_nat (len - zlen s)) 0.

(** object.c *)
Definition getLongLongFromObjectOrReply (o : bytes) (msg : option bytes) : Z + reply_op :=
  match string2ll o with
  | Some v => inl v
  | None => inr (RError (default (str "value is not an integer or out of range") msg))
  end.

Definition getLongFromObjectOrReply (o : bytes) (msg : option bytes) : Z + reply_op :=
  match getLongLongFromObjectOrReply o msg with
  | inr r => inr r
  | inl v => if (v <? - 2 ^ 63) || (v >? 2 ^ 63 - 1) then inr (RError (default (str "value is out of range") msg)) else inl v
  end.

(** getObjectReadOnlyString: the bytes of the string, in a buffer of
    LONG_STR_SIZE bytes when it is encoded as an integer *)
Definition getObjectReadOnlyString (o : robj) : option bytes :=
  match o with ObjInt v => ll2string_text 21 v | ObjStr s => Some s end.

Section bitops.
Context (proto_max_bulk_len : Z) (addr : Z) (be : bool) (uninit : Z).

Definition bit_offset_err : reply_op := RError (str "bit offset is not an integer or out of range").

Definition getBitOffsetFromArgument (p : bytes) (hash : bool) (bits : Z) : Z + reply_op :=
  let usehash := bool_decide (head p = Some 35) && hash && (bits >? 0) in
  match string2ll (if usehash then drop 1 p else p) with
  | None => inr bit_offset_err
  | Some loffset =>
    let loffset := if usehash then s64 (loffset * bits) else loffset in
    if (loffset <? 0) || (Z.shiftr loffset 3 >=? proto_max_bulk_len) then inr bit_offset_err else inl (u64 loffset)
  end.

Definition bitfield_type_err : reply_op :=
  RError (str "Invalid bitfield type. Use something like i16 u8. Note that u64 is not supported but i64 is.").

(** sign and bits *)
Definition getBitfieldTypeFromArgument (p : bytes) : (bool * Z) + reply_op :=
  match (match p with 105 :: p => Some (true, p) | 117 :: p => Some (false, p) | _ => None end) with
  | None => inr bitfield_type_err
  | Some (sign, p) =>
    match string2ll (cstr p) with
    | None => inr bitfield_type_err
    | Some llbits =>
      if (llbits <? 1) || ((sign : bool) && (llbits >? 64)) || (negb sign && (llbits >? 63)) then inr bitfield_type_err
      else inl (sign, llbits)
    end
  end.

(** The content of the string, long enough for [maxbit]. *)
Definition lookupStringForBitCommand (o : option value) (maxbit : Z) : bytes + reply_op :=
  let byte := Z.shiftr maxbit 3 in
  match o with
  | Some VOther => inr wrongtypeerr
  | None => inl (replicate (Z.to_nat (byte + 1)) 0)
  | Some (VString o) => inl (grow_zero (obj_bytes o) (byte + 1))
  end.

Definition setbitCommand (o : option value) (argv2 argv3 : bytes) : option outcome :=
  let err := str "bit is not an integer or out of range" in
  match getBitOffsetFromArgument argv2 false 0 with
  | inr r => Some (only_reply o r)
  | inl bitoffset =>
    match getLongFromObjectOrReply argv3 (Some err) with
    | inr r => Some (only_reply o r)
    | inl on =>
      if negb (Z.land on (Z.lnot 1) =? 0) then Some (only_reply o (RError err))
      else match lookupStringForBitCommand o bitoffset with
      | inr r => Some (only_reply o r)
      | inl s =>
        let byte := Z.shiftr bitoffset 3 in
        byteval ← mget s byte;
        let bit := 7 - Z.land bitoffset 7 in
        let bitval := Z.land byteval (Z.shiftl 1 bit) in
        let byteval := Z.land byteval (Z.lnot (Z.shiftl 1 bit)) in
        let byteval := Z.lor byteval (Z.shiftl (Z.land on 1) bit) in
        s' ← mstore s byte [u8 byteval];
        Some (mk_outcome (Some (VString (ObjStr s'))) [if negb (bitval =? 0) then cone else czero] 1 [str "setbit"])
      end
    end
  end.

Definition getbitCommand (o : option value) (argv2 : bytes) : option outcome :=
  match getBitOffsetFromArgument argv2 false 0 with
  | inr r => Some (only_reply o r)
  | inl bitoffset =>
    match o with
    | None => Some (only_reply o czero)
    | Some VOther => Some (only_reply o wrongtypeerr)
    | Some (VString obj) =>
      let byte := Z.shiftr bitoffset 3 in
      let bit := 7 - Z.land bitoffset 7 in
      s ← (match obj with ObjStr s => Some s | ObjInt v => ll2string_text 32 v end);
      bitval ← (if byte <? zlen s then b ← mget s byte; Some (Z.land b (Z.shiftl 1 bit)) else Some 0);
      Some (only_reply o (if negb (bitval =? 0) then cone else czero))
    end
  end.

(** ** BITOP *)

Inductive bitop := BITOP_AND | BITOP_OR | BITOP_XOR | BITOP_NOT.

Definition parse_bitop (opname : bytes) : option bitop :=
  if same_word opname "and" then Some BITOP_AND
  else if same_word opname "or" then Some BITOP_OR
  else if same_word opname "xor" then Some BITOP_XOR
  else if same_word opname "not" then Some BITOP_NOT
  else None.

(** [x op= y] *)
Definition bin (op : bitop) (x y : Z) : Z :=
  match op with BITOP_AND => Z.land x y | BITOP_OR => Z.lor x y | BITOP_XOR => Z.lxor x y | BITOP_NOT => x end.

(** [lres[k] op= lp[k]] for the unsigned long at offset [p] *)
Definition word_op (op : bitop) (res src : bytes) (p : Z) : option bytes :=
  x ← host_decode be <$> mload res p 8;
  y ← host_decode be <$> mload src p 8;
  mstore res p (host_encode be 8 (bin op x y)).

Definition word_not (res : bytes) (p : Z) : option bytes :=
  x ← host_decode be <$> mload res p 8; mstore res p (host_encode be 8 (u64 (Z.lnot x))).

Definition four_words (f : bytes -> Z -> option bytes) (res : bytes) (j : Z) : option bytes :=
  res ← f res j; res ← f res (j + 8); res ← f res (j + 16); f res (j + 24).

(** The loop over the sources after the first. *)
Fixpoint combine_sources (op : bitop) (res : bytes) (srcs : list bytes) (j : Z) : option bytes :=
  match srcs with
  | [] => Some res
  | s :: srcs => res ← four_words (fun res p => word_op op res s p) res j; combine_sources op res srcs j
  end.

(** The fast path, 32 bytes at a time: the result and j at the end. *)
Fixpoint fast_loop (fuel : nat) (op : bitop) (res : bytes) (srcs : list bytes) (j minlen : Z) : option (bytes * Z) :=
  if minlen >=? 32 then
    match fuel with
    | O => None
    | S fuel =>
      res ← (match op with BITOP_NOT => four_words word_not res j | _ => combine_sources op res (drop 1 srcs) j end);
      fast_loop fuel op res srcs (j + 32) (minlen - 32)
    end
  else Some (res, j).

(** [(len[i] <= j) ? 0 : src[i][j]] *)
Definition src_byte (s : bytes) (j : Z) : option Z := if zlen s <=? j then Some 0 else mget s j.

(** The loop over the sources after the first, for one byte, with its early exit. *)
Fixpoint combine_bytes (op : bitop) (output : Z) (srcs : list bytes) (j : Z) : option Z :=
  match srcs with
  | [] => Some output
  | s :: srcs =>
    byte ← src_byte s j;
    let output := bin op output byte in
    let skip := match op with BITOP_AND => output =? 0 | BITOP_OR => output =? 255 | _ => false end in
    if skip then Some output else combine_bytes op output srcs j
  end.

(** [n] is maxlen - j *)
Fixpoint slow_loop (n : nat) (op : bitop) (res : bytes) (srcs : list bytes) (j : Z) : option bytes :=
  match n with
  | O => Some res
  | S n =>
    s ← head srcs;
    output ← src_byte s j;
    let output := match op with BITOP_NOT => u8 (Z.lnot output) | _ => output end in
    output ← combine_bytes op output (drop 1 srcs) j;
    res ← mstore res j [output];
    slow_loop n op res srcs (j + 1)
  end.

(** The lengths: maxlen and minlen after the loop over the keys. *)
Fixpoint key_lengths (first : bool) (objs : list (option bytes)) (maxlen minlen : Z) : Z * Z :=
  match objs with
  | [] => (maxlen, minlen)
  | None :: objs => key_lengths false objs maxlen 0
  | Some s :: objs =>
    let len := zlen s in
    key_lengths false objs (if len >? maxlen then len else maxlen) (if first || (len <? minlen) then len else minlen)
  end.

(** The result string; the code computes it when maxlen is not zero.  [src[j]]
    of a missing key is never read, since its length is 0. *)
Definition bitop_string (op : bitop) (objs : list (option bytes)) : option bytes :=
  let '(maxlen, minlen) := key_lengths true objs 0 0 in
  let srcs := default [] <$> objs in
  let res := replicate (Z.to_nat maxlen) 0 in
  '(res, j) ← (if (minlen >=? 32) && (zlen objs <=? 16) then
      s ← head srcs; init ← mload s 0 minlen; res ← mstore res 0 init;
      fast_loop (Z.to_nat minlen) op res srcs 0 minlen
    else Some (res, 0));
  slow_loop (Z.to_nat (maxlen - j)) op res srcs j.

(** The source strings; [None] when one is not a string. *)
Fixpoint source_strings (objs : list (option value)) : option (list (option bytes)) :=
  match objs with
  | [] => Some []
  | None :: objs => l ← source_strings objs; Some (None :: l)
  | Some VOther :: _ => None
  | Some (VString o) :: objs => l ← source_strings objs; Some (Some (obj_bytes o) :: l)
  end.

(** [target] is the object at the target key, [objs] those at the source keys. *)
Definition bitopCommand (opname : bytes) (target : option value) (objs : list (option value)) : option outcome :=
  match parse_bitop opname with
  | None => Some (only_reply target syntaxerr)
  | Some op =>
    if match op with BITOP_NOT => negb (zlen objs + 3 =? 4) | _ => false end
    then Some (only_reply target (RError (str "BITOP NOT must be called with a single source key.")))
    else match source_strings objs with
    | None => Some (only_reply target wrongtypeerr)
    | Some strs =>
      let maxlen := fst (key_lengths true strs 0 0) in
      if negb (maxlen =? 0) then
        res ← bitop_string op strs;
        Some (mk_outcome (Some (VString (ObjStr res))) [RLongLong maxlen] 1 [str "set"])
      else match target with
      | Some _ => Some (mk_outcome None [RLongLong maxlen] 1 [str "del"])
      | None => Some (mk_outcome None [RLongLong maxlen] 0 [])
      end
    end
  end.

(** ** BITCOUNT and BITPOS *)

(** Convert negative indexes. *)
Definition byte_range (strlen start stop : Z) : Z * Z :=
  let start := if start <? 0 then strlen + start else start in
  let stop := if stop <? 0 then strlen + stop else stop in
  let start := if start <? 0 then 0 else start in
  let stop := if stop <? 0 then 0 else stop in
  let stop := if stop >=? strlen then strlen - 1 else stop in
  (start, stop).

(** [args] are the arguments after the key. *)
Definition bitcountCommand (o : option value) (args : list bytes) : option outcome :=
  match o with
  | None => Some (only_reply o czero)
  | Some VOther => Some (only_reply o wrongtypeerr)
  | Some (VString obj) =>
    p ← getObjectReadOnlyString obj;
    let strlen := zlen p in
    let count start stop :=
      if start >? stop then Some (only_reply o czero)
      else let bytes := stop - start + 1 in
        n ← redisPopcount be addr p start (Z.to_nat bytes); Some (only_reply o (RLongLong n)) in
    match args with
    | [a; b] =>
      match getLongFromObjectOrReply a None with
      | inr r => Some (only_reply o r)
      | inl start =>
        match getLongFromObjectOrReply b None with
        | inr r => Some (only_reply o r)
        | inl stop =>
          if (start <? 0) && (stop <? 0) && (start >? stop) then Some (only_reply o czero)
          else let '(start, stop) := byte_range strlen start stop in count start stop
        end
      end
    | [] => count 0 (strlen - 1)
    | _ => Some (only_reply o syntaxerr)
    end
  end.

(** [args] are the arguments after the bit. *)
Definition bitposCommand (o : option value) (argv2 : bytes) (args : list bytes) : option outcome :=
  match getLongFromObjectOrReply argv2 None with
  | inr r => Some (only_reply o r)
  | inl bit =>
    if negb (bit =? 0) && negb (bit =? 1) then Some (only_reply o (RError (str "The bit argument must be 1 or 0.")))
    else match o with
    | None => Some (only_reply o (RLongLong (if negb (bit =? 0) then -1 else 0)))
    | Some VOther => Some (only_reply o wrongtypeerr)
    | Some (VString obj) =>
      p ← getObjectReadOnlyString obj;
      let strlen := zlen p in
      let find start stop (end_given : bool) :=
        if start >? stop then Some (only_reply o (RLongLong (-1)))
        else
          let bytes := stop - start + 1 in
          pos ← redisBitpos be addr p start (Z.to_nat bytes) (negb (bit =? 0));
          if end_given && (bit =? 0) && (pos =? Z.shiftl bytes 3) then Some (only_reply o (RLongLong (-1)))
          else Some (only_reply o (RLongLong (if negb (pos =? -1) then pos + Z.shiftl start 3 else pos))) in
      match args with
      | [] => find 0 (strlen - 1) false
      | [a] =>
        match getLongFromObjectOrReply a None with
        | inr r => Some (only_reply o r)
        | inl start => let '(start, stop) := byte_range strlen start (strlen - 1) in find start stop false
        end
      | [a; b] =>
        match getLongFromObjectOrReply a None with
        | inr r => Some (only_reply o r)
        | inl start =>
          match getLongFromObjectOrReply b None with
          | inr r => Some (only_reply o r)
          | inl stop => let '(start, stop) := byte_range strlen start stop in find start stop true
          end
        end
      | _ => Some (only_reply o syntaxerr)
      end
    end
  end.

(** ** BITFIELD *)

Inductive bitfield_opcode := BITFIELDOP_GET | BITFIELDOP_SET | BITFIELDOP_INCRBY.

Record bitfieldOp := mk_op {
  op_offset : Z; op_i64 : Z; op_opcode : bitfield_opcode; op_owtype : bfoverflow; op_bits : Z; op_sign : bool }.

Definition parse_overflow (owtypename : bytes) : option bfoverflow :=
  if same_word owtypename "wrap" then Some BFOVERFLOW_WRAP
  else if same_word owtypename "sat" then Some BFOVERFLOW_SAT
  else if same_word owtypename "fail" then Some BFOVERFLOW_FAIL
  else None.

(** The type and offset arguments, common to all the ops. *)
Definition parse_field (ty off : bytes) : (bool * Z * Z) + reply_op :=
  match getBitfieldTypeFromArgument ty with
  | inr r => inr r
  | inl (sign, bits) =>
    match getBitOffsetFromArgument off true bits with
    | inr r => inr r
    | inl bitoffset => inl (sign, bits, bitoffset)
    end
  end.

(** What the loop over the arguments collects: the operations, readonly and
    highest_write_offset. *)
Record parsed := mk_parsed { ops : list bitfieldOp; readonly : bool; highest_write_offset : Z }.

Definition add_get (acc : parsed) (owtype : bfoverflow) (sign : bool) (bits bitoffset : Z) : parsed :=
  mk_parsed (ops acc ++ [mk_op bitoffset 0 BITFIELDOP_GET owtype bits sign]) (readonly acc) (highest_write_offset acc).

Definition add_write (acc : parsed) (opcode : bitfield_opcode) (owtype : bfoverflow) (sign : bool) (bits bitoffset i64 : Z) : parsed :=
  let last := u64 (bitoffset + bits - 1) in
  mk_parsed (ops acc ++ [mk_op bitoffset i64 opcode owtype bits sign]) false
    (if highest_write_offset acc <? last then last else highest_write_offset acc).

Fixpoint parse_ops (args : list bytes) (owtype : bfoverflow) (acc : parsed) : parsed + reply_op :=
  match args with
  | [] => inl acc
  | subcmd :: args =>
    let write opcode :=
      match args with
      | ty :: off :: val :: args =>
        match parse_field ty off with
        | inr r => inr r
        | inl (sign, bits, bitoffset) =>
          match getLongLongFromObjectOrReply val None with
          | inr r => inr r
          | inl i64 => parse_ops args owtype (add_write acc opcode owtype sign bits bitoffset i64)
          end
        end
      | _ => inr syntaxerr
      end in
    if same_word subcmd "get" then
      match args with
      | ty :: off :: args =>
        match parse_field ty off with
        | inr r => inr r
        | inl (sign, bits, bitoffset) => parse_ops args owtype (add_get acc owtype sign bits bitoffset)
        end
      | _ => inr syntaxerr
      end
    else if same_word subcmd "set" then write BITFIELDOP_SET
    else if same_word subcmd "incrby" then write BITFIELDOP_INCRBY
    else if same_word subcmd "overflow" then
      match args with
      | owtypename :: args =>
        match parse_overflow owtypename with
        | Some owtype => parse_ops args owtype acc
        | None => inr (RError (str "Invalid OVERFLOW type specified"))
        end
      | [] => inr syntaxerr
      end
    else inr syntaxerr
  end.

Definition is_fail (owtype : bfoverflow) : bool := match owtype with BFOVERFLOW_FAIL => true | _ => false end.

(** SET and INCRBY on the string [s]: the string and the reply. *)
Definition write_signed (s : bytes) (op : bitfieldOp) : option (bytes * reply_op) :=
  oldval ← getSignedBitfield s (op_offset op) (op_bits op);
  let '(newval, retval, overflow) :=
    match op_opcode op with
    | BITFIELDOP_INCRBY =>
      let newval := s64 (oldval + op_i64 op) in
      let '(overflow, wrapped) := checkSignedBitfieldOverflow oldval (op_i64 op) (op_bits op) (op_owtype op) in
      let newval := if negb (overflow =? 0) then default uninit wrapped else newval in
      (newval, newval, overflow)
    | _ =>
      let newval := op_i64 op in
      let '(overflow, wrapped) := checkSignedBitfieldOverflow newval 0 (op_bits op) (op_owtype op) in
      let newval := if negb (overflow =? 0) then default uninit wrapped else newval in
      (newval, oldval, overflow)
    end in
  if negb (negb (overflow =? 0) && is_fail (op_owtype op)) then
    s ← setSignedBitfield s (op_offset op) (op_bits op) newval; Some (s, RLongLong retval)
  else Some (s, RNull).

Definition write_unsigned (s : bytes) (op : bitfieldOp) : option (bytes * reply_op) :=
  oldval ← getUnsignedBitfield s (op_offset op) (op_bits op);
  let '(newval, retval, overflow) :=
    match op_opcode op with
    | BITFIELDOP_INCRBY =>
      let newval := u64 (oldval + op_i64 op) in
      let '(overflow, wrapped) := checkUnsignedBitfieldOverflow oldval (op_i64 op) (op_bits op) (op_owtype op) in
      let newval := if negb (overflow =? 0) then default uninit wrapped else newval in
      (newval, newval, overflow)
    | _ =>
      let newval := u64 (op_i64 op) in
      let '(overflow, wrapped) := checkUnsignedBitfieldOverflow newval 0 (op_bits op) (op_owtype op) in
      let newval := if negb (overflow =? 0) then default uninit wrapped else newval in
      (newval, oldval, overflow)
    end in
  if negb (negb (overflow =? 0) && is_fail (op_owtype op)) then
    s ← setUnsignedBitfield s (op_offset op) (op_bits op) newval; Some (s, RLongLong (s64 retval))
  else Some (s, RNull).

(** Copy up to 9 bytes to a local buffer of zeroes; [n] is 9 - i. *)
Fixpoint copy_bytes (n : nat) (src : bytes) (byte : Z) : option bytes :=
  match n with
  | O => Some []
  | S n =>
    if byte >=? zlen src then Some (replicate (S n) 0)
    else b ← mget src byte; rest ← copy_bytes n src (byte + 1); Some (b :: rest)
  end.

(** GET; a missing key is a string of length 0. *)
Definition read_field (src : bytes) (op : bitfieldOp) : option reply_op :=
  let byte := Z.shiftr (op_offset op) 3 in
  buf ← copy_bytes 9 src byte;
  if op_sign op then val ← getSignedBitfield buf (op_offset op - byte * 8) (op_bits op); Some (RLongLong val)
  else val ← getUnsignedBitfield buf (op_offset op - byte * 8) (op_bits op); Some (RLongLong (s64 val)).

(** One operation: the string, the reply and what is added to changes. *)
Definition exec_op (s : bytes) (op : bitfieldOp) : option (bytes * reply_op * Z) :=
  match op_opcode op with
  | BITFIELDOP_GET => r ← read_field s op; Some (s, r, 0)
  | _ => '(s, r) ← (if op_sign op then write_signed s op else write_unsigned s op); Some (s, r, 1)
  end.

Fixpoint exec_ops (s : bytes) (l : list bitfieldOp) : option (bytes * list reply_op * Z) :=
  match l with
  | [] => Some (s, [], 0)
  | op :: l =>
    '(s, r, n) ← exec_op s op; '(s, rs, m) ← exec_ops s l; Some (s, r :: rs, n + m)
  end.

(** The string a command that only reads operates on. *)
Definition read_string (o : option value) : option bytes :=
  match o with Some (VString obj) => getObjectReadOnlyString obj | _ => Some [] end.

(** [flag_readonly] is BITFIELD_FLAG_READONLY, [args] the arguments after the key. *)
Definition bitfieldGeneric (o : option value) (args : list bytes) (flag_readonly : bool) : option outcome :=
  match parse_ops args BFOVERFLOW_WRAP (mk_parsed [] true 0) with
  | inr r => Some (only_reply o r)
  | inl p =>
    let reply rs := RArrayLen (zlen (ops p)) :: rs in
    if readonly p then
      match o with
      | Some VOther => Some (only_reply o wrongtypeerr)
      | _ => s ← read_string o; '(_, rs, _) ← exec_ops s (ops p); Some (mk_outcome o (reply rs) 0 [])
      end
    else if flag_readonly then Some (only_reply o (RError (str "BITFIELD_RO only supports the GET subcommand")))
    else match lookupStringForBitCommand o (highest_write_offset p) with
    | inr r => Some (only_reply o r)
    | inl s =>
      '(s, rs, changes) ← exec_ops s (ops p);
      Some (mk_outcome (Some (VString (ObjStr s))) (reply rs) changes
              (if negb (changes =? 0) then [str "setbit"] else []))
    end
  end.

Definition bitfieldCommand (o : option value) (args : list bytes) : option outcome := bitfieldGeneric o args false.
Definition bitfieldroCommand (o : option value) (args : list bytes) : option outcome := bitfieldGeneric o args true.

(** ** Arguments *)

(** The string a value stands for; a missing key is the empty string. *)
Definition content (o : option value) : bytes := match o with Some (VString o) => obj_bytes o | _ => [] end.

Definition is_string (o : option value) : Prop :=
  match o with None => True | Some (VString o) => obj_ok o /\ Forall is_byte (obj_bytes o) | Some VOther => False end.

(** A bit offset a command accepts. *)
Definition offset_ok (off : Z) : Prop := 0 <= off < 2 ^ 63 /\ off / 8 < proto_max_bulk_len.

Lemma read_long v msg : in_s 64 v -> getLongFromObjectOrReply (print_lld v) msg = inl v.
Proof.
  intros Hv. unfold getLongFromObjectOrReply, getLongLongFromObjectOrReply. rewrite print_lld_string2ll by done.
  rewrite (proj2 (Z.ltb_ge _ _)), Z.gtb_ltb, (proj2 (Z.ltb_ge _ _)) by lia. done.
Qed.

Lemma read_offset off : offset_ok off -> getBitOffsetFromArgument (print_lld off) false 0 = inl off.
Proof.
  intros [H Hp]. unfold getBitOffsetFromArgument. rewrite andb_false_r. cbn [andb].
  rewrite print_lld_string2ll by lia. rewrite (proj2 (Z.ltb_ge off 0)), Z.geb_leb, Z.shiftr_div_pow2 by lia.
  change (2 ^ 3) with 8. rewrite (proj2 (Z.leb_gt _ _)), uint_small by lia. done.
Qed.

Lemma bit_at_pad s n i : bit_at (s ++ replicate n 0) i = bit_at s i.
Proof.
  destruct (decide (i < 8 * length s)%nat); [by rewrite bit_at_app_l|]. rewrite bit_at_app_r, (bit_at_out s) by lia.
  destruct (decide (i - 8 * length s < 8 * n)%nat); [|by rewrite bit_at_out by (rewrite length_replicate; lia)].
  apply (skip_byte_bits true); [by apply Forall_replicate|by rewrite length_replicate].
Qed.

Lemma string_for_bit o maxbit : is_string o -> 0 <= maxbit -> exists s,
  lookupStringForBitCommand o maxbit = inl s /\ (exists n, s = content o ++ replicate n 0) /\
  Forall is_byte s /\ zlen s = Z.max (zlen (content o)) (maxbit / 8 + 1).
Proof.
  intros Ho Hm. pose proof (Z.div_pos maxbit 8 Hm ltac:(lia)). unfold lookupStringForBitCommand, grow_zero.
  rewrite Z.shiftr_div_pow2 by lia. change (2 ^ 3) with 8.
  assert (forall n, Forall is_byte (replicate n 0)) as Hz by (intros n; apply Forall_replicate; unfold is_byte; lia).
  destruct o as [[obj|]|]; [|done|]; eexists; (split; [done|]); cbn [content]; (split; [by eexists|]).
  - destruct Ho as [_ Hb]. split; [by apply Forall_app|]. rewrite zlen_app. unfold zlen at 2. rewrite length_replicate. lia.
  - split; [done|]. unfold zlen. rewrite length_replicate. simpl. lia.
Qed.

(** The reply :0 or :1. *)
Definition bit_reply (b : bool) : reply_op := if b then cone else czero.

Lemma tested_bit s off : Forall is_byte s -> 0 <= off -> exists x, 
  (off / 8 < zlen s -> mget s (Z.shiftr off 3) = Some x /\ is_byte x /\
    negb (Z.land x (Z.shiftl 1 (7 - Z.land off 7)) =? 0) = bit_at s (Z.to_nat off)).
Proof.
  intros Hs H0. destruct (offset_split off H0) as (j & k & Hk & E & Es & El). rewrite Es, El.
  assert (off / 8 = Z.of_nat j) as -> by (rewrite <-Es, Z.shiftr_div_pow2; done).
  destruct (s !! j) as [x|] eqn:Ex.
  - exists x. intros _. unfold mget. rewrite bool_decide_eq_true_2, Nat2Z.id by lia. split; [done|].
    split; [by eapply Forall_lookup_1|]. rewrite Z.shiftl_1_l, land_pow2_eqb by lia. unfold bit_at.
    replace (Z.to_nat off) with (8 * j + k)%nat by lia. by rewrite (bits_of_lookup s j x k).
  - exists 0. intros Hlt. apply lookup_ge_None_1 in Ex. unfold zlen in Hlt. lia.
Qed.

Lemma getbit_spec o off : is_string o -> offset_ok off ->
  getbitCommand o (print_lld off) = Some (only_reply o (bit_reply (bit_at (content o) (Z.to_nat off)))).
Proof.
  intros Ho Hoff. unfold getbitCommand. rewrite read_offset by done. destruct Hoff as [H _].
  destruct o as [[obj|]|]; [|done|].
  2:{ cbn [content]. by rewrite bit_at_out by (simpl; lia). }
  destruct Ho as [Hok Hb]. cbn [content].
  assert ((match obj with ObjStr s => Some s | ObjInt v => ll2string_text 32 v end) = Some (obj_bytes obj)) as ->.
  { destruct obj; [done|]. rewrite ll2string_text_spec; [done|lia|done]. }
  cbn [mbind option_bind]. destruct (tested_bit (obj_bytes obj) off) as [x Hx]; [done|lia|].
  assert (Z.shiftr off 3 = off / 8) as Es by (by rewrite Z.shiftr_div_pow2).
  destruct (Z.ltb_spec (Z.shiftr off 3) (zlen (obj_bytes obj))) as [Hlt|Hge].
  - destruct Hx as (-> & _ & E); [lia|]. cbn [mbind option_bind]. by rewrite E.
  - cbn [mbind option_bind]. rewrite bit_at_out; [done|]. unfold zlen in Hge. lia_div.
Qed.

Lemma setbit_spec o off b : is_string o -> offset_ok off -> exists s n,
  setbitCommand o (print_lld off) (print_lld (Z.b2z b))
  = Some (mk_outcome (Some (VString (ObjStr s))) [bit_reply (bit_at (content o) (Z.to_nat off))] 1 [str "setbit"]) /\
  Forall is_byte s /\ zlen s = Z.max (zlen (content o)) (off / 8 + 1) /\
  bits_of s = <[Z.to_nat off := b]> (bits_of (content o ++ replicate n 0)).
Proof.
  intros Ho Hoff. unfold setbitCommand. rewrite read_offset by done.
  rewrite read_long by (destruct b; vm_compute; split; discriminate || reflexivity). destruct Hoff as [H _].
  assert (Z.land (Z.b2z b) (Z.lnot 1) = 0 /\ Z.land (Z.b2z b) 1 = Z.b2z b) as [-> ->] by (by destruct b). cbn [negb].
  destruct (string_for_bit o off Ho) as (s & -> & [n ->] & Hb & Hl); [lia|].
  destruct (tested_bit (content o ++ replicate n 0) off Hb) as [x Hx]; [lia|]. destruct Hx as (Ex & Hx & Et); [lia|].
  rewrite bit_at_pad in Et. pose proof (put_bit_spec (content o ++ replicate n 0) off b Hb) as (s' & Ep & Hb' & Hl' & Es).
  { rewrite Hl. lia_div. }
  unfold put_bit in Ep. rewrite Ex in Ep |- *. cbn [mbind option_bind] in Ep |- *. rewrite Et.
  unfold uint. change (2 ^ 8) with (2 ^ 8 - 1 + 1) at 1.
  rewrite <-(land_low _ 8) by lia. change (2 ^ 8 - 1) with 255. rewrite Ep. cbn [mbind option_bind].
  exists s', n. split; [done|]. split; [done|]. split; [|done]. unfold zlen in *. lia.
Qed.

(** C23: SETBIT followed by GETBIT: SETBIT at [off] replies with the old bit,
    the key afterwards holds a string that reaches byte [off]/8 whatever it
    held before (no key, a shorter string, an integer), and GETBIT at any
    offset then replies with the new bit at [off] and with the bit the key had
    before everywhere else, zero past the end of the string. *)
Theorem setbit_getbit o off b :
  is_string o -> offset_ok off ->
  exists out, setbitCommand o (print_lld off) (print_lld (Z.b2z b)) = Some out /\
    replies out = [bit_reply (bit_at (content o) (Z.to_nat off))] /\ dirty out = 1 /\ is_string (slot out) /\
    zlen (content (slot out)) = Z.max (zlen (content o)) (off / 8 + 1) /\
    forall off', offset_ok off' ->
      getbitCommand (slot out) (print_lld off')
      = Some (only_reply (slot out) (bit_reply (if off' =? off then b else bit_at (content o) (Z.to_nat off')))).
Proof.
  intros Ho Hoff. destruct (setbit_spec o off b Ho Hoff) as (s & n & -> & Hb & Hl & Es).
  eexists. split; [done|]. cbn [slot replies dirty]. split; [done|]. split; [done|]. split; [done|]. split; [done|].
  intros off' Hoff'. rewrite getbit_spec by done. do 3 f_equal. cbn [content obj_bytes].
  unfold bit_at at 1. rewrite Es. destruct Hoff as [H _], Hoff' as [H' _]. destruct (Z.eqb_spec off' off) as [->|Hne].
  - rewrite list_lookup_insert_eq; [done|]. pose proof (f_equal length Es) as El. rewrite length_insert in El.
    rewrite <-El, length_bits_of. unfold zlen in Hl. lia_div.
  - rewrite list_lookup_insert_ne by lia. by rewrite <-bit_at_pad with (n := n).
Qed.


(** ** BITOP: words and bytes *)

Lemma testbit_byte_cons b y i : is_byte b -> 0 <= i ->
  Z.testbit (b + 256 * y) i = if i <? 8 then Z.testbit b i else Z.testbit y (i - 8).
Proof.
  intros Hb Hi. unfold is_byte in Hb. replace (b + 256 * y) with (Z.lor b (Z.shiftl y 8)) by (rewrite lor_add; lia).
  rewrite Z.lor_spec, Z.shiftl_spec by done. destruct (Z.ltb_spec i 8).
  - by rewrite (Z.testbit_neg_r y), orb_false_r by lia.
  - by rewrite <-(Z.mod_small b (2 ^ 8)), Z.mod_pow2_bits_high by lia.
Qed.

Definition bin_bit (op : bitop) (x y : bool) : bool :=
  match op with BITOP_AND => x && y | BITOP_OR => x || y | BITOP_XOR => xorb x y | BITOP_NOT => x end.

Lemma bin_spec op x y i : 0 <= i -> Z.testbit (bin op x y) i = bin_bit op (Z.testbit x i) (Z.testbit y i).
Proof. intros Hi. destruct op; [apply Z.land_spec|apply Z.lor_spec|apply Z.lxor_spec|done]. Qed.

Lemma is_byte_bits x : is_byte x <-> 0 <= x /\ forall i, 8 <= i -> Z.testbit x i = false.
Proof.
  unfold is_byte. split.
  - intros H. split; [lia|]. intros i Hi. rewrite <-(Z.mod_small x (2 ^ 8)) by lia. by rewrite Z.mod_pow2_bits_high by lia.
  - intros [H0 H]. split; [done|]. assert (x = x mod 2 ^ 8) as ->; [|apply Z.mod_pos_bound; lia].
    apply Z.bits_inj'. intros i Hi. destruct (decide (i < 8)); [by rewrite Z.mod_pow2_bits_low by lia|].
    by rewrite H, Z.mod_pow2_bits_high by lia.
Qed.

Lemma bin_byte op x y : is_byte x -> is_byte y -> is_byte (bin op x y).
Proof.
  rewrite !is_byte_bits. intros [Hx Hx'] [Hy Hy']. split.
  - destruct op; simpl; [apply Z.land_nonneg|apply Z.lor_nonneg|apply Z.lxor_nonneg|]; tauto.
  - intros i Hi. rewrite bin_spec, Hx', Hy' by lia. by destruct op.
Qed.

(** A bitwise operation on words acts on their bytes. *)
Lemma le_decode_bin op a b : Forall is_byte a -> Forall is_byte b -> length a = length b ->
  le_decode (zip_with (bin op) a b) = bin op (le_decode a) (le_decode b).
Proof.
  intros Ha. revert b. induction Ha as [|x a Hx Ha IH]; intros b Hb Hl.
  - destruct b; [|done]. by destruct op.
  - destruct Hb as [|y b Hy Hb]; [done|]. injection Hl as Hl. cbn [zip_with]. rewrite !le_decode_cons, IH by done.
    apply Z.bits_inj'. intros i Hi. rewrite bin_spec, !testbit_byte_cons by (done || by apply bin_byte).
    destruct (i <? 8) eqn:E; rewrite bin_spec by lia; done.
Qed.

Lemma zip_with_reverse {A B C} (f : A -> B -> C) l k : length l = length k ->
  zip_with f (reverse l) (reverse k) = reverse (zip_with f l k).
Proof.
  revert k. induction l as [|x l IH]; intros [|y k] Hl; try done. injection Hl as Hl. cbn [zip_with].
  rewrite !reverse_cons, zip_with_app, IH by (done || by rewrite !length_reverse). done.
Qed.

Lemma zip_bin_bytes op a b : Forall is_byte a -> Forall is_byte b -> Forall is_byte (zip_with (bin op) a b).
Proof.
  intros Ha. revert b. induction Ha as [|x a Hx Ha IH]; intros b Hb; [constructor|].
  destruct Hb as [|y b Hy Hb]; [constructor|]. cbn [zip_with]. constructor; [by apply bin_byte|by apply IH].
Qed.

Lemma host_bin op a b : Forall is_byte a -> Forall is_byte b -> length a = length b ->
  host_encode be (length a) (bin op (host_decode be a) (host_decode be b)) = zip_with (bin op) a b.
Proof.
  intros Ha Hb Hl. assert (length (zip_with (bin op) a b) = length a) as Hz by (rewrite length_zip_with_l; lia).
  assert (bin op (host_decode be a) (host_decode be b) = host_decode be (zip_with (bin op) a b)) as ->.
  { unfold host_decode. destruct be; [|by rewrite le_decode_bin].
    rewrite <-le_decode_bin by (try apply Forall_reverse; done || by rewrite !length_reverse). by rewrite zip_with_reverse. }
  rewrite <-Hz. apply host_encode_decode. by apply zip_bin_bytes.
Qed.

(** The complement of a byte. *)
Definition compl (b : Z) : Z := 255 - b.

Lemma le_decode_compl a : le_decode (compl <$> a) = 2 ^ (8 * zlen a) - 1 - le_decode a.
Proof.
  induction a as [|x a IH]; [done|]. rewrite fmap_cons, !le_decode_cons, IH, zlen_cons.
  replace (8 * (1 + zlen a)) with (8 + 8 * zlen a) by lia. rewrite Z.pow_add_r by (pose proof (zlen_nonneg a); lia).
  unfold compl. change (2 ^ 8) with 256. ring.
Qed.

Lemma compl_bytes a : Forall is_byte a -> Forall is_byte (compl <$> a).
Proof. intros H. apply Forall_fmap. eapply Forall_impl; [done|]. unfold is_byte, compl. simpl. lia. Qed.

Lemma host_not a : Forall is_byte a -> length a = 8%nat ->
  host_encode be 8 (u64 (Z.lnot (host_decode be a))) = compl <$> a.
Proof.
  intros Ha Hl. rewrite <-(host_encode_decode be (compl <$> a)) by by apply compl_bytes. rewrite length_fmap, Hl. f_equal.
  unfold host_decode. set (a' := if be then reverse a else a).
  assert (Forall is_byte a' /\ zlen a' = 8) as [Ha' Hl'].
  { unfold a', zlen. destruct be; [rewrite length_reverse|]; (split; [|lia]); [by apply Forall_reverse|done]. }
  assert ((if be then reverse (compl <$> a) else compl <$> a) = compl <$> a') as ->.
  { unfold a'. destruct be; [by rewrite fmap_reverse|done]. }
  rewrite le_decode_compl, Hl'. pose proof (le_decode_range a' Ha') as Hr. rewrite Hl' in Hr.
  change (8 * 8) with 64 in *. unfold uint, Z.lnot. symmetry. apply (Z.mod_unique _ _ (-1)); lia.
Qed.

(** ** BITOP: the result as a table of its bytes *)

Definition table (f : nat -> Z) (n : nat) : bytes := f <$> seq 0 n.

(** The byte [j] of a source padded with zeroes. *)
Definition pad_byte (s : bytes) (j : nat) : Z := default 0 (s !! j).

(** Byte [j] of the result. *)
Definition result_byte (op : bitop) (srcs : list bytes) (j : nat) : Z :=
  match srcs with
  | [] => 0
  | s :: srcs =>
    foldl (fun x s => bin op x (pad_byte s j)) (match op with BITOP_NOT => compl (pad_byte s j) | _ => pad_byte s j end) srcs
  end.

Lemma length_table f n : length (table f n) = n.
Proof. unfold table. by rewrite length_fmap, length_seq. Qed.

Lemma table_split f n p k : (p + k <= n)%nat ->
  table f n = (f <$> seq 0 p) ++ (f <$> seq p k) ++ (f <$> seq (p + k) (n - (p + k))).
Proof.
  intros H. unfold table. replace n with (p + (k + (n - (p + k))))%nat at 1 by lia. rewrite seq_app, seq_app, !fmap_app. done.
Qed.

Lemma table_ext (f g : nat -> Z) p n : (forall k, (p <= k < p + n)%nat -> f k = g k) -> f <$> seq p n = g <$> seq p n.
Proof. intros H. apply list_fmap_ext. intros i k Hk. apply H. apply lookup_seq in Hk. lia. Qed.

Lemma table_load f n p k : (p + k <= n)%nat -> mload (table f n) (Z.of_nat p) (Z.of_nat k) = Some (f <$> seq p k).
Proof.
  intros H. rewrite (table_split f n p k) by done. apply mload_app; unfold zlen; rewrite length_fmap, length_seq; done.
Qed.

(** [f] with the [k] bytes at [p] replaced by those of [g]. *)
Definition patch (p k : nat) (g f : nat -> Z) (i : nat) : Z :=
  if bool_decide (p <= i < p + k)%nat then g i else f i.

Lemma table_store f g n p k : (p + k <= n)%nat -> mstore (table f n) (Z.of_nat p) (g <$> seq p k) = Some (table (patch p k g f) n).
Proof.
  intros H. rewrite (table_split f n p k), (table_split (patch p k g f) n p k) by done.
  rewrite mstore_app by (unfold zlen; rewrite ?length_fmap, ?length_seq; done). f_equal. f_equal; [|f_equal].
  all: apply table_ext; intros i Hi; unfold patch; case_bool_decide; done || lia.
Qed.

(** The bytes of a source as a table. *)
Lemma source_table s n : (n <= length s)%nat -> take n s = table (pad_byte s) n.
Proof.
  intros H. apply list_eq. intros i. destruct (decide (i < n)%nat).
  - rewrite lookup_take_lt by done. unfold table. rewrite list_lookup_fmap, lookup_seq_lt by done. cbn. unfold pad_byte.
    destruct (lookup_lt_is_Some_2 s i) as [x ->]; [lia|done].
  - rewrite !lookup_ge_None_2; [done|rewrite length_table; lia|rewrite length_take; lia].
Qed.

Lemma source_load s p k : (p + k <= length s)%nat -> mload s (Z.of_nat p) (Z.of_nat k) = Some (pad_byte s <$> seq p k).
Proof. intros H. rewrite <-(take_ge s (length s)) at 1 by done. rewrite source_table by done. by apply table_load. Qed.

Definition byte_table (f : nat -> Z) : Prop := forall k, is_byte (f k).

Lemma pad_byte_byte s : Forall is_byte s -> byte_table (pad_byte s).
Proof.
  intros H k. unfold pad_byte. destruct (s !! k) eqn:E; [by eapply Forall_lookup_1|]. cbn. unfold is_byte. lia.
Qed.

Lemma table_bytes (f : nat -> Z) p n : byte_table f -> Forall is_byte (f <$> seq p n).
Proof. intros H. apply Forall_fmap, Forall_true. intros k. apply H. Qed.

Lemma zip_tables op (f g : nat -> Z) p n : zip_with (bin op) (f <$> seq p n) (g <$> seq p n) = (fun k => bin op (f k) (g k)) <$> seq p n.
Proof. by rewrite zip_with_fmap_l, zip_with_fmap_r, zip_with_diag. Qed.

Lemma word_op_table op f s n p : byte_table f -> Forall is_byte s -> (p + 8 <= n)%nat -> (p + 8 <= length s)%nat ->
  word_op op (table f n) s (Z.of_nat p) = Some (table (patch p 8 (fun k => bin op (f k) (pad_byte s k)) f) n).
Proof.
  intros Hf Hs Hn Hl. unfold word_op. change 8 with (Z.of_nat 8). rewrite table_load, source_load by done.
  cbn [fmap option_fmap option_map mbind option_bind].
  pose proof (host_bin op (f <$> seq p 8) (pad_byte s <$> seq p 8)) as E. rewrite !length_fmap, !length_seq, zip_tables in E.
  rewrite E by first [done | apply table_bytes; done | apply table_bytes; by apply pad_byte_byte]. by apply table_store.
Qed.

Lemma word_not_table f n p : byte_table f -> (p + 8 <= n)%nat ->
  word_not (table f n) (Z.of_nat p) = Some (table (patch p 8 (fun k => compl (f k)) f) n).
Proof.
  intros Hf Hn. unfold word_not. change 8 with (Z.of_nat 8). rewrite table_load by done.
  cbn [fmap option_fmap option_map mbind option_bind].
  pose proof (host_not (f <$> seq p 8)) as E. rewrite length_fmap, length_seq, <-list_fmap_compose in E.
  rewrite E by first [done | by apply table_bytes]. by apply table_store.
Qed.

Lemma table_congr f g n : (forall k, (k < n)%nat -> f k = g k) -> table f n = table g n.
Proof. intros H. apply table_ext. intros k Hk. apply H. lia. Qed.

(** A step that maps the bytes of one word by [h], done on the four words at [p]. *)
Lemma four_words_table step (h : nat -> Z -> Z) f n p : byte_table f -> (forall k x, is_byte x -> is_byte (h k x)) ->
  (forall f q, byte_table f -> (p <= q)%nat -> (q + 8 <= p + 32)%nat ->
     step (table f n) (Z.of_nat q) = Some (table (patch q 8 (fun k => h k (f k)) f) n)) ->
  four_words step (table f n) (Z.of_nat p) = Some (table (patch p 32 (fun k => h k (f k)) f) n).
Proof.
  intros Hf Hh Hstep.
  assert (forall q f, byte_table f -> byte_table (patch q 8 (fun k => h k (f k)) f)) as Hp.
  { intros q f' Hf' k. unfold patch. case_bool_decide; [apply Hh|]; apply Hf'. }
  unfold four_words. replace (Z.of_nat p + 8) with (Z.of_nat (p + 8)) by lia.
  replace (Z.of_nat p + 16) with (Z.of_nat (p + 16)) by lia. replace (Z.of_nat p + 24) with (Z.of_nat (p + 24)) by lia.
  rewrite Hstep by (done || lia). cbn [mbind option_bind]. rewrite Hstep by (auto || lia). cbn [mbind option_bind].
  rewrite Hstep by (auto || lia). cbn [mbind option_bind]. rewrite Hstep by (auto || lia). f_equal. apply table_congr.
  intros k _. unfold patch. repeat case_bool_decide; done || lia.
Qed.

Lemma combine_sources_table op srcs f n p : byte_table f -> Forall (Forall is_byte) srcs -> (p + 32 <= n)%nat ->
  Forall (fun s => p + 32 <= length s)%nat srcs ->
  combine_sources op (table f n) srcs (Z.of_nat p)
  = Some (table (patch p 32 (fun k => foldl (fun x s => bin op x (pad_byte s k)) (f k) srcs) f) n).
Proof.
  intros Hf Hb Hn Hl. revert f Hf. induction srcs as [|s srcs IH]; intros f Hf; cbn [combine_sources].
  { f_equal. apply table_congr. intros k _. unfold patch. by case_bool_decide. }
  apply Forall_cons in Hb as [Hs Hb]. apply Forall_cons in Hl as [Hls Hl].
  rewrite (four_words_table _ (fun k x => bin op x (pad_byte s k))).
  - cbn [mbind option_bind]. rewrite IH; [|done..|].
    + f_equal. apply table_congr. intros k _. unfold patch. by case_bool_decide.
    + intros k. unfold patch. case_bool_decide; [apply bin_byte; [|by apply pad_byte_byte]|]; apply Hf.
  - done.
  - intros k x Hx. apply bin_byte; [done|by apply pad_byte_byte].
  - intros g q Hg ??. apply word_op_table; [done|done|lia|lia].
Qed.

Lemma foldl_bin_byte op srcs k x : Forall (Forall is_byte) srcs -> is_byte x ->
  is_byte (foldl (fun x s => bin op x (pad_byte s k)) x srcs).
Proof.
  intros Hb. revert x. induction Hb as [|s srcs Hs Hb IH]; intros x Hx; [done|].
  cbn [foldl]. apply IH, bin_byte; [done|by apply pad_byte_byte].
Qed.

(** The first source, complemented by NOT. *)
Definition first_byte (op : bitop) (s : bytes) (k : nat) : Z :=
  match op with BITOP_NOT => compl (pad_byte s k) | _ => pad_byte s k end.

Lemma first_byte_byte op s : Forall is_byte s -> byte_table (first_byte op s).
Proof.
  intros Hs k. pose proof (pad_byte_byte s Hs k) as H. unfold first_byte. destruct op; try done.
  unfold is_byte, compl in *. lia.
Qed.

Lemma result_byte_byte op srcs : Forall (Forall is_byte) srcs -> byte_table (result_byte op srcs).
Proof.
  intros Hb k. destruct Hb as [|s srcs Hs Hb]; [unfold is_byte; simpl; lia|].
  apply foldl_bin_byte; [done|]. by apply first_byte_byte.
Qed.

(** The early exits do not change the result. *)
Lemma foldl_and_0 srcs k : foldl (fun x s => bin BITOP_AND x (pad_byte s k)) 0 srcs = 0.
Proof. induction srcs; [done|]. done. Qed.

Lemma foldl_or_255 srcs k : Forall (Forall is_byte) srcs -> foldl (fun x s => bin BITOP_OR x (pad_byte s k)) 255 srcs = 255.
Proof.
  induction 1 as [|s srcs Hs Hb IH]; [done|]. cbn [foldl bin]. pose proof (pad_byte_byte s Hs k) as Hp.
  replace (Z.lor 255 (pad_byte s k)) with 255; [done|]. generalize (pad_byte s k), Hp.
  apply (byte_cases (fun b => 255 = Z.lor 255 b)). by vm_compute.
Qed.

Lemma src_byte_pad s k : src_byte s (Z.of_nat k) = Some (pad_byte s k).
Proof.
  unfold src_byte, pad_byte, zlen. destruct (Z.leb_spec (Z.of_nat (length s)) (Z.of_nat k)).
  - by rewrite lookup_ge_None_2 by lia.
  - unfold mget. rewrite bool_decide_eq_true_2, Nat2Z.id by lia. destruct (lookup_lt_is_Some_2 s k) as [x ->]; [lia|done].
Qed.

Lemma combine_bytes_fold op srcs k x : Forall (Forall is_byte) srcs ->
  combine_bytes op x srcs (Z.of_nat k) = Some (foldl (fun x s => bin op x (pad_byte s k)) x srcs).
Proof.
  intros Hb. revert x. induction Hb as [|s srcs Hs Hb IH]; intros x; [done|]. cbn [combine_bytes foldl].
  rewrite src_byte_pad. cbn [mbind option_bind]. destruct op.
  - destruct (Z.eqb_spec (bin BITOP_AND x (pad_byte s k)) 0) as [->|_]; [by rewrite foldl_and_0|apply IH].
  - destruct (Z.eqb_spec (bin BITOP_OR x (pad_byte s k)) 255) as [->|_]; [by rewrite foldl_or_255|apply IH].
  - apply IH.
  - apply IH.
Qed.

Lemma slow_loop_table op srcs n r f : srcs <> [] -> Forall (Forall is_byte) srcs -> (r <= n)%nat ->
  (forall k, (k < n - r)%nat -> f k = result_byte op srcs k) ->
  slow_loop r op (table f n) srcs (Z.of_nat (n - r)) = Some (table (result_byte op srcs) n).
Proof.
  intros Hne Hb. revert f. induction r as [|r IH]; intros f Hr Hf; cbn [slow_loop].
  { f_equal. apply table_congr. intros k Hk. apply Hf. lia. }
  destruct srcs as [|s srcs]; [done|]. cbn [head mbind option_bind]. rewrite src_byte_pad. cbn [mbind option_bind]. cbn [drop]. rewrite drop_0.
  pose proof Hb as [Hs Hb']%Forall_cons.
  assert ((match op with BITOP_NOT => u8 (Z.lnot (pad_byte s (n - S r))) | _ => pad_byte s (n - S r) end) = first_byte op s (n - S r)) as ->.
  { unfold first_byte. destruct op; try done. pose proof (pad_byte_byte s Hs (n - S r)%nat) as Hp. unfold compl, uint, Z.lnot, is_byte in *.
    symmetry. apply (Z.mod_unique _ _ (-1)); lia. }
  rewrite combine_bytes_fold by done. cbn [mbind option_bind].
  change (foldl _ _ srcs) with (result_byte op (s :: srcs) (n - S r)).
  pose proof (table_store f (result_byte op (s :: srcs)) n (n - S r) 1 ltac:(lia)) as Est. cbn [seq fmap list_fmap] in Est.
  rewrite Est. cbn [mbind option_bind].
  replace (Z.of_nat (n - S r) + 1) with (Z.of_nat (n - r)) by lia. apply IH; [lia|].
  intros k Hk. unfold patch. case_bool_decide; [done|]. apply Hf. lia.
Qed.

Lemma foldl_not srcs k x : foldl (fun x s => bin BITOP_NOT x (pad_byte s k)) x srcs = x.
Proof. induction srcs; [done|]. done. Qed.

(** The fast path leaves the bytes of the result below j. *)
Lemma fast_loop_table fuel op s srcs n m j f : Forall (Forall is_byte) (s :: srcs) -> byte_table f ->
  Forall (fun s => m <= length s)%nat srcs -> (m <= n)%nat -> (j <= m)%nat -> (m - j <= fuel)%nat ->
  (forall k, (k < j)%nat -> f k = result_byte op (s :: srcs) k) -> (forall k, (j <= k < m)%nat -> f k = pad_byte s k) ->
  exists f' j', fast_loop fuel op (table f n) (s :: srcs) (Z.of_nat j) (Z.of_nat (m - j)) = Some (table f' n, Z.of_nat j') /\
    (j' <= m)%nat /\ forall k, (k < j')%nat -> f' k = result_byte op (s :: srcs) k.
Proof.
  intros Hb. revert j f. induction fuel as [|fuel IH]; intros j f Hf Hl Hmn Hj Hfuel H1 H2; cbn [fast_loop].
  all: destruct (Z.geb_spec (Z.of_nat (m - j)) 32) as [Hge|Hlt]; [|by exists f, j].
  { lia. }
  pose proof Hb as [Hs Hb']%Forall_cons. cbn [drop]. rewrite drop_0.
  set (g := patch j 32 (result_byte op (s :: srcs)) f).
  assert ((match op with BITOP_NOT => four_words word_not (table f n) (Z.of_nat j)
           | _ => combine_sources op (table f n) srcs (Z.of_nat j) end) = Some (table g n)) as ->.
  { unfold g. destruct op.
    1-3: rewrite combine_sources_table; [|done|done|lia|eapply Forall_impl; [exact Hl|]; simpl; lia].
    1-3: f_equal; apply table_congr; intros k _; unfold patch; case_bool_decide; [|done]; rewrite H2 by lia; done.
    rewrite (four_words_table _ (fun _ x => compl x)); [| | |].
    - f_equal. apply table_congr. intros k _. unfold patch. case_bool_decide; [|done]. rewrite H2 by lia.
      symmetry. apply foldl_not.
    - done.
    - unfold is_byte, compl. lia.
    - intros h q Hh ??. apply word_not_table; [done|lia]. }
  cbn [mbind option_bind]. replace (Z.of_nat j + 32) with (Z.of_nat (j + 32)) by lia.
  replace (Z.of_nat (m - j) - 32) with (Z.of_nat (m - (j + 32))) by lia.
  apply IH; [|done|done|lia|lia| |].
  - intros k. unfold g, patch. case_bool_decide; [by apply result_byte_byte|apply Hf].
  - intros k Hk. unfold g, patch. case_bool_decide; [done|apply H1; lia].
  - intros k Hk. unfold g, patch. rewrite bool_decide_eq_false_2 by lia. apply H2. lia.
Qed.

(** The lengths. *)
Definition max_len (srcs : list bytes) : Z := foldr (fun s m => Z.max (zlen s) m) 0 srcs.

Lemma key_lengths_false objs mx mn : 0 <= mn -> 0 <= mx -> exists mn', 
  key_lengths false objs mx mn = (Z.max mx (max_len (default [] <$> objs)), mn') /\ 0 <= mn' <= mn /\
  Forall (fun s => mn' <= zlen s) (default [] <$> objs).
Proof.
  revert mx mn. induction objs as [|[s|] objs IH]; intros mx mn Hmn Hmx; cbn [key_lengths orb fmap list_fmap default max_len foldr].
  - exists mn. rewrite Z.max_l by done. split; [done|]. split; [lia|constructor].
  - pose proof (zlen_nonneg s). destruct (IH (if zlen s >? mx then zlen s else mx) (if zlen s <? mn then zlen s else mn)) as (mn' & -> & Hr & Hf);
      [case_ints; lia|case_ints; lia|].
    exists mn'. fold (max_len (default [] <$> objs)). split; [f_equal; revert Hr; simpl; case_ints; lia|].
    split; [revert Hr; case_ints; lia|]. constructor; [|done]. revert Hr; case_ints; simpl; lia.
  - destruct (IH mx 0) as (mn' & -> & Hr & Hf); [lia|done|]. exists mn'. fold (max_len (default [] <$> objs)).
    change (zlen (@nil Z)) with 0.
    split; [f_equal; lia|]. split; [lia|]. constructor; [simpl; rewrite zlen_nil; lia|done].
Qed.

Lemma key_lengths_spec objs : exists minlen, key_lengths true objs 0 0 = (max_len (default [] <$> objs), minlen) /\ 0 <= minlen /\
  Forall (fun s => minlen <= zlen s) (default [] <$> objs).
Proof.
  destruct objs as [|[s|] objs]; cbn [key_lengths orb fmap list_fmap default max_len foldr].
  - exists 0. split_and!; [done..|constructor].
  - pose proof (zlen_nonneg s). destruct (key_lengths_false objs (if zlen s >? 0 then zlen s else 0) (zlen s)) as (mn' & -> & Hr & Hf);
      [done|case_ints; lia|].
    exists mn'. fold (max_len (default [] <$> objs)). split; [f_equal; simpl; case_ints; lia|].
    split; [lia|]. constructor; [simpl; lia|done].
  - destruct (key_lengths_false objs 0 0) as (mn' & -> & Hr & Hf); [done..|]. exists mn'. fold (max_len (default [] <$> objs)).
    change (zlen (@nil Z)) with 0. split; [f_equal; lia|]. split; [lia|]. constructor; [simpl; rewrite zlen_nil; lia|done].
Qed.

Lemma max_len_ge srcs : Forall (fun s => zlen s <= max_len srcs) srcs.
Proof.
  induction srcs as [|s srcs IH]; [constructor|]. cbn [max_len foldr]. fold (max_len srcs). constructor; [lia|].
  eapply Forall_impl; [done|]. simpl. lia.
Qed.

(** The result string is the table of the bytewise operation, by either path. *)
Lemma bitop_string_table op objs : objs <> [] -> Forall (Forall is_byte) (default [] <$> objs) ->
  bitop_string op objs = Some (table (result_byte op (default [] <$> objs)) (Z.to_nat (max_len (default [] <$> objs)))).
Proof.
  intros Hne Hb. unfold bitop_string. destruct (key_lengths_spec objs) as (minlen & -> & Hmin & Hle).
  pose proof (max_len_ge (default [] <$> objs)) as Hge. assert (exists s srcs', default [] <$> objs = s :: srcs') as (s & srcs' & Es) by (destruct objs; [done|by eexists _, _]).
  generalize dependent (default [] <$> objs). intros srcs Hb Hle Hge Es.
  set (n := Z.to_nat (max_len srcs)). assert (srcs <> []) as Hne' by (by rewrite Es).
  assert (replicate n 0 = table (fun _ => 0) n) as -> by (unfold table; rewrite <-(length_seq n 0) at 1; symmetry; by apply const_fmap).
  assert (exists f j, (if (minlen >=? 32) && (zlen objs <=? 16) then
      s ← head srcs; init ← mload s 0 minlen; res ← mstore (table (fun _ => 0) n) 0 init;
      fast_loop (Z.to_nat minlen) op res srcs 0 minlen else Some (table (fun _ => 0) n, 0)) = Some (table f n, Z.of_nat j) /\
      (j <= n)%nat /\ forall k, (k < j)%nat -> f k = result_byte op srcs k) as (f & j & -> & Hj & Hf).
  { destruct ((minlen >=? 32) && (zlen objs <=? 16)) eqn:Ec; [|exists (fun _ => 0), 0%nat; split; [done|]; split; [lia|]; intros; lia].
    subst srcs. cbn [head mbind option_bind]. set (m := Z.to_nat minlen). pose proof Hb as [Hs _]%Forall_cons.
    apply Forall_cons in Hle as [Hms Hle]. apply Forall_cons in Hge as [Hgs Hge]. unfold zlen in Hms, Hgs.
    replace minlen with (Z.of_nat m) by lia. change 0 with (Z.of_nat 0). rewrite source_load by lia. cbn [mbind option_bind].
    rewrite table_store by lia. cbn [mbind option_bind].
    destruct (fast_loop_table m op s srcs' n m 0 (patch 0 m (pad_byte s) (fun _ => 0))) as (f & j & E & Hj & Hf);
      [done| | |lia|lia|lia|intros; lia| |].
    - intros k. unfold patch. case_bool_decide; [by apply pad_byte_byte|unfold is_byte; lia].
    - eapply Forall_impl; [exact Hle|]. unfold zlen. simpl. lia.
    - intros k Hk. unfold patch. rewrite bool_decide_eq_true_2 by lia. done.
    - exists f, j. rewrite Nat.sub_0_r in E. split; [exact E|]. split; [lia|done]. }
  cbn [mbind option_bind]. replace (Z.to_nat (max_len srcs - Z.of_nat j)) with (n - j)%nat by (unfold n; lia).
  replace (Z.of_nat j) with (Z.of_nat (n - (n - j))) by lia. apply slow_loop_table; [done|done|lia|].
  intros k Hk. apply Hf. lia.
Qed.

(** ** BITOP: the bits of the result *)

Definition result_bit (op : bitop) (bs : list bool) : bool :=
  match bs with
  | [] => false
  | b :: bs => foldl (bin_bit op) (match op with BITOP_NOT => negb b | _ => b end) bs
  end.

Lemma bit_at_pad_byte s j k : (k < 8)%nat -> bit_at s (8 * j + k) = Z.testbit (pad_byte s j) (7 - Z.of_nat k).
Proof.
  intros Hk. unfold pad_byte. destruct (s !! j) as [x|] eqn:E.
  - unfold bit_at. by rewrite (bits_of_lookup s j x k).
  - rewrite bit_at_out; [symmetry; apply Z.testbit_0_l|]. apply lookup_ge_None_1 in E. lia.
Qed.

Lemma compl_testbit x i : is_byte x -> 0 <= i < 8 -> Z.testbit (compl x) i = negb (Z.testbit x i).
Proof.
  intros Hx Hi. assert (forall x, is_byte x -> Forall (fun i => Z.testbit (compl x) (Z.of_nat i) = negb (Z.testbit x (Z.of_nat i))) (seq 0 8)) as H.
  { apply (byte_cases (fun x => Forall (fun i => Z.testbit (compl x) (Z.of_nat i) = negb (Z.testbit x (Z.of_nat i))) (seq 0 8))).
    by vm_compute. }
  specialize (H x Hx). rewrite Forall_forall in H. specialize (H (Z.to_nat i)). rewrite Z2Nat.id in H by lia.
  apply H, elem_of_seq. lia.
Qed.

Lemma foldl_bin_testbit op srcs j x i : 0 <= i ->
  Z.testbit (foldl (fun x s => bin op x (pad_byte s j)) x srcs) i
  = foldl (bin_bit op) (Z.testbit x i) ((fun s => Z.testbit (pad_byte s j) i) <$> srcs).
Proof. intros Hi. revert x. induction srcs as [|s srcs IH]; intros x; [done|]. cbn [foldl fmap list_fmap]. by rewrite IH, bin_spec. Qed.

Lemma result_bits op srcs j k : Forall (Forall is_byte) srcs -> (k < 8)%nat ->
  Z.testbit (result_byte op srcs j) (7 - Z.of_nat k) = result_bit op ((fun s => bit_at s (8 * j + k)) <$> srcs).
Proof.
  intros Hb Hk. destruct Hb as [|s srcs Hs Hb]; [apply Z.testbit_0_l|]. cbn [result_byte fmap list_fmap result_bit].
  rewrite foldl_bin_testbit by lia. rewrite bit_at_pad_byte by done. f_equal.
  - destruct op; try done. apply compl_testbit; [by apply pad_byte_byte|lia].
  - apply list_fmap_ext. intros _ s' _. by rewrite bit_at_pad_byte.
Qed.

Lemma table_bit op srcs n i : Forall (Forall is_byte) srcs -> (i < 8 * n)%nat ->
  bit_at (table (result_byte op srcs) n) i = result_bit op ((fun s => bit_at s i) <$> srcs).
Proof.
  intros Hb Hi. pose proof (Nat.div_mod_eq i 8) as E. pose proof (Nat.mod_upper_bound i 8 ltac:(lia)) as Hk.
  rewrite E, <-result_bits by done. unfold bit_at. erewrite bits_of_lookup; [done| |done].
  unfold table. rewrite list_lookup_fmap, lookup_seq_lt by lia. done.
Qed.

Lemma source_strings_spec objs : Forall is_string objs -> exists strs, source_strings objs = Some strs /\
  default [] <$> strs = content <$> objs /\ Forall (Forall is_byte) (content <$> objs) /\ length strs = length objs.
Proof.
  induction 1 as [|o objs Ho H IH]; [by exists []; repeat constructor|]. destruct IH as (strs & E & Es & Hb & Hl).
  destruct o as [[o|]|]; [|done|]; cbn [source_strings]; rewrite E; cbn [mbind option_bind].
  - eexists. split; [done|]. cbn [fmap list_fmap default content]. change (list_fmap _ _ (default []) strs) with (default [] <$> strs).
    rewrite Es. split; [done|]. split; [constructor; [apply Ho|done]|simpl; by rewrite Hl].
  - eexists. split; [done|]. cbn [fmap list_fmap default content]. change (list_fmap _ _ (default []) strs) with (default [] <$> strs).
    rewrite Es. split; [done|]. split; [constructor; [constructor|done]|simpl; by rewrite Hl].
Qed.

Lemma max_len_nonneg srcs : 0 <= max_len srcs.
Proof. induction srcs as [|s srcs IH]; [done|]. cbn [max_len foldr]. fold (max_len srcs). lia. Qed.

(** C17: BITOP computes the operation on the bits of the sources: the reply is
    the length of the longest source, the target then holds a string of that
    length each of whose bits is the operation applied to the bits of the
    sources at the same place, shorter and missing sources being padded with
    zeroes, and the target is deleted when all sources are empty.  The path
    taken, words of the host 32 bytes at a time followed by bytes with an early
    exit, does not show in the result. *)
Theorem bitop_bits opname op target objs :
  parse_bitop opname = Some op -> (op = BITOP_NOT -> length objs = 1%nat) -> objs <> [] -> Forall is_string objs ->
  exists out, bitopCommand opname target objs = Some out /\ replies out = [RLongLong (max_len (content <$> objs))] /\
    if max_len (content <$> objs) =? 0 then slot out = None
    else exists res, slot out = Some (VString (ObjStr res)) /\ zlen res = max_len (content <$> objs) /\
      forall i, Z.of_nat i < 8 * max_len (content <$> objs) ->
        bit_at res i = result_bit op ((fun o => bit_at (content o) i) <$> objs).
Proof.
  intros Hop Hnot Hne Ho. unfold bitopCommand. rewrite Hop.
  replace (match op with BITOP_NOT => negb (zlen objs + 3 =? 4) | _ => false end) with false
    by (destruct op; try done; unfold zlen; rewrite Hnot by done; done).
  destruct (source_strings_spec objs Ho) as (strs & -> & Es & Hb & Hl).
  destruct (key_lengths_spec strs) as (minlen & Ek & _). rewrite Ek, Es. cbn [fst].
  destruct (Z.eqb_spec (max_len (content <$> objs)) 0) as [E0|Hn]; cbn [negb].
  { destruct target; eexists; done. }
  rewrite bitop_string_table; [|by destruct objs, strs|by rewrite Es]. cbn [mbind option_bind]. rewrite Es.
  eexists. split; [done|]. split; [done|]. eexists. split; [done|].
  pose proof (max_len_nonneg (content <$> objs)).
  split; [unfold zlen; rewrite length_table; lia|]. intros i Hi.
  rewrite table_bit by (done || lia). by rewrite <-list_fmap_compose.
Qed.

(** ** BITFIELD: the operations on a list of bits *)

(** [bits] bits at [off], zeroes past the end. *)
Definition field_at (l : list bool) (off bits : Z) : list bool :=
  take (Z.to_nat bits) (drop (Z.to_nat off) (l ++ replicate (Z.to_nat (off + bits)) false)).

(** [l] with [bits] bits at [off] replaced by those of [v]. *)
Definition set_field (l : list bool) (off bits v : Z) : list bool :=
  take (Z.to_nat off) l ++ field (Z.to_nat bits) v ++ drop (Z.to_nat (off + bits)) l.

Definition field_value (sign : bool) (l : list bool) (off bits : Z) : Z :=
  if sign then sint bits (num (field_at l off bits)) else num (field_at l off bits).

(** The values of a type. *)
Definition lowest (sign : bool) (bits : Z) : Z := if sign then - 2 ^ (bits - 1) else 0.
Definition highest (sign : bool) (bits : Z) : Z := if sign then 2 ^ (bits - 1) - 1 else 2 ^ bits - 1.
Definition wrapped (sign : bool) (bits v : Z) : Z := if sign then sint bits v else uint bits v.

(** The value stored for the exact result [e]; [None]: nothing is stored. *)
Definition stored (owtype : bfoverflow) (sign : bool) (bits e : Z) : option Z :=
  if bool_decide (lowest sign bits <= e <= highest sign bits) then Some e
  else match owtype with
  | BFOVERFLOW_WRAP => Some (wrapped sign bits e)
  | BFOVERFLOW_SAT => Some (if e <? lowest sign bits then lowest sign bits else highest sign bits)
  | BFOVERFLOW_FAIL => None
  end.

Definition spec_op (l : list bool) (op : bitfieldOp) : list bool * reply_op :=
  let old := field_value (op_sign op) l (op_offset op) (op_bits op) in
  let write (e : Z) (ret : Z -> Z) :=
    match stored (op_owtype op) (op_sign op) (op_bits op) e with
    | Some v => (set_field l (op_offset op) (op_bits op) v, RLongLong (ret v))
    | None => (l, RNull)
    end in
  match op_opcode op with
  | BITFIELDOP_GET => (l, RLongLong old)
  | BITFIELDOP_SET => write (if op_sign op then op_i64 op else u64 (op_i64 op)) (fun _ => old)
  | BITFIELDOP_INCRBY => write (old + op_i64 op) (fun v => v)
  end.

Fixpoint spec_ops (l : list bool) (ops : list bitfieldOp) : list bool * list reply_op :=
  match ops with
  | [] => (l, [])
  | op :: ops => let '(l, r) := spec_op l op in let '(l, rs) := spec_ops l ops in (l, r :: rs)
  end.

Definition type_ok (sign : bool) (bits : Z) : Prop := 1 <= bits <= if sign then 64 else 63.

Definition is_write (op : bitfieldOp) : bool := match op_opcode op with BITFIELDOP_GET => false | _ => true end.

(** What the parser guarantees. *)
Definition op_ok (op : bitfieldOp) : Prop :=
  type_ok (op_sign op) (op_bits op) /\ 0 <= op_offset op < 2 ^ 63 /\ in_s 64 (op_i64 op).

(** A signed SET with OVERFLOW SAT of a value so far below its type that
    max - value leaves 64 bits saturates on the wrong side
    ([signed_set_extreme_saturates_high]); it is the only case left out. *)
Definition set_in_reach (op : bitfieldOp) : Prop :=
  op_opcode op = BITFIELDOP_SET -> op_sign op = true -> op_owtype op = BFOVERFLOW_SAT -> op_bits op < 64 ->
  2 ^ (op_bits op - 1) - 1 - op_i64 op < 2 ^ 63.

#[global] Instance set_in_reach_dec op : Decision (set_in_reach op).
Proof.
  unfold set_in_reach. destruct (op_opcode op); [left; discriminate| |left; discriminate].
  destruct (op_sign op); [|left; discriminate]. destruct (op_owtype op); [left; discriminate| |left; discriminate].
  destruct (decide (op_bits op < 64)); [|left; lia].
  destruct (decide (2 ^ (op_bits op - 1) - 1 - op_i64 op < 2 ^ 63)); [left; lia|right; intros H; specialize (H eq_refl eq_refl eq_refl l); lia].
Defined.

(** ** BITFIELD: reading *)

Lemma padded_lookup s n i : (i < 8 * length s + n)%nat -> (bits_of s ++ replicate n false) !! i = Some (bit_at s i).
Proof.
  intros Hi. unfold bit_at. destruct (decide (i < 8 * length s)%nat).
  - rewrite lookup_app_l by (rewrite length_bits_of; lia).
    destruct (lookup_lt_is_Some_2 (bits_of s) i) as [b ->]; [rewrite length_bits_of; lia|done].
  - rewrite lookup_app_r, length_bits_of, lookup_replicate_2 by (rewrite ?length_bits_of; lia).
    by rewrite lookup_ge_None_2 by (rewrite length_bits_of; lia).
Qed.

Lemma field_at_lookup s off bits i : 0 <= off -> (i < Z.to_nat bits)%nat ->
  field_at (bits_of s) off bits !! i = Some (bit_at s (Z.to_nat off + i)).
Proof. intros Ho Hi. unfold field_at. rewrite lookup_take_lt, lookup_drop, padded_lookup by lia. done. Qed.

Lemma length_field_at l off bits : 0 <= off -> 0 <= bits -> length (field_at l off bits) = Z.to_nat bits.
Proof. intros. unfold field_at. rewrite length_take, length_drop, length_app, length_replicate. lia. Qed.

(** Two lists of the same bits. *)
Lemma field_at_eq s off bits (l : list bool) : 0 <= off -> 0 <= bits -> length l = Z.to_nat bits ->
  (forall i, (i < Z.to_nat bits)%nat -> l !! i = Some (bit_at s (Z.to_nat off + i))) -> l = field_at (bits_of s) off bits.
Proof.
  intros Ho Hb Hl H. apply list_eq. intros i. destruct (decide (i < Z.to_nat bits)%nat).
  - by rewrite H, field_at_lookup.
  - rewrite !lookup_ge_None_2; [done|rewrite length_field_at; lia|lia].
Qed.

Lemma bits_lookup s i : (i < 8 * length s)%nat -> bits_of s !! i = Some (bit_at s i).
Proof.
  intros H. unfold bit_at. destruct (lookup_lt_is_Some_2 (bits_of s) i) as [b ->]; [by rewrite length_bits_of|done].
Qed.

Lemma run_field s off bits : in_block s off bits -> run s off bits = field_at (bits_of s) off bits.
Proof.
  intros Hin. destruct (run_split s off bits Hin) as (_ & _ & _ & _ & Hl). destruct Hin as (H0 & Hb & Hle & _). unfold zlen in Hle.
  apply field_at_eq; [lia|lia|done|]. intros i Hi. unfold run. rewrite lookup_take_lt, lookup_drop, bits_lookup by lia. done.
Qed.

Lemma copy_bytes_table n s byte : copy_bytes n s (Z.of_nat byte) = Some (pad_byte s <$> seq byte n).
Proof.
  revert byte. induction n as [|n IH]; intros byte; [done|]. cbn [copy_bytes seq fmap list_fmap].
  destruct (Z.geb_spec (Z.of_nat byte) (zlen s)) as [Hge|Hlt].
  - f_equal. change (replicate (S n) 0 = pad_byte s <$> seq byte (S n)). rewrite <-(length_seq (S n) byte) at 1. symmetry.
    unfold zlen in Hge. transitivity ((fun _ => 0) <$> seq byte (S n)); [|by apply const_fmap].
    apply table_ext. intros k Hk. unfold pad_byte. by rewrite lookup_ge_None_2 by lia.
  - unfold mget. rewrite bool_decide_eq_true_2, Nat2Z.id by lia. unfold zlen in Hlt.
    destruct (lookup_lt_is_Some_2 s byte) as [x Hx]; [lia|]. rewrite Hx. cbn [mbind option_bind].
    replace (Z.of_nat byte + 1) with (Z.of_nat (S byte)) by lia. rewrite IH. cbn [mbind option_bind]. unfold pad_byte at 2. by rewrite Hx.
Qed.

(** The bits of the copy are those of the source, padded with zeroes. *)
Lemma copy_bit s byte n i : (i < 8 * n)%nat -> bit_at (pad_byte s <$> seq byte n) i = bit_at s (8 * byte + i).
Proof.
  intros Hi. pose proof (Nat.div_mod_eq i 8) as E. pose proof (Nat.mod_upper_bound i 8 ltac:(lia)) as Hk.
  replace (8 * byte + i)%nat with (8 * (byte + i / 8) + i mod 8)%nat by lia. rewrite (bit_at_pad_byte s) by done.
  rewrite E at 1. unfold bit_at. erewrite bits_of_lookup; [done| |done].
  rewrite list_lookup_fmap, lookup_seq_lt by lia. done.
Qed.

Lemma read_field_spec s op : Forall is_byte s -> op_ok op ->
  read_field s op = Some (RLongLong (field_value (op_sign op) (bits_of s) (op_offset op) (op_bits op))).
Proof.
  intros Hs (Ht & Ho & _). unfold read_field. unfold type_ok in Ht.
  destruct (offset_split (op_offset op)) as (j & k & Hk & E & Es & _); [lia|]. rewrite Es, copy_bytes_table. cbn [mbind option_bind].
  replace (op_offset op - Z.of_nat j * 8) with (Z.of_nat k) by lia. set (buf := pad_byte s <$> seq j 9).
  assert (length buf = 9%nat) as Hl by (unfold buf; by rewrite length_fmap, length_seq).
  assert (Forall is_byte buf) as Hb by (apply table_bytes, pad_byte_byte, Hs).
  assert (in_block buf (Z.of_nat k) (op_bits op)) as Hin by (unfold in_block, zlen; rewrite Hl; destruct (op_sign op); lia).
  assert (run buf (Z.of_nat k) (op_bits op) = field_at (bits_of s) (op_offset op) (op_bits op)) as Er.
  { destruct (run_split _ _ _ Hin) as (_ & _ & _ & _ & Hr). apply field_at_eq; [lia|destruct (op_sign op); lia|done|].
    intros i Hi. rewrite run_field, field_at_lookup by (done || lia). unfold buf. rewrite copy_bit by (destruct (op_sign op); lia).
    f_equal. f_equal. lia. }
  unfold field_value. destruct (op_sign op) eqn:Esign.
  - rewrite getSignedBitfield_spec by (done || lia). cbn [mbind option_bind]. by rewrite Er.
  - rewrite getUnsignedBitfield_spec by (done || lia). cbn [mbind option_bind]. rewrite Er. do 2 f_equal. apply sint_small; [|lia].
    pose proof (num_range (field_at (bits_of s) (op_offset op) (op_bits op))) as Hr. unfold zlen in Hr.
    rewrite length_field_at, Z2Nat.id in Hr by lia. pose proof (pow_le_63 (op_bits op) ltac:(lia)). lia.
Qed.

(** ** BITFIELD: writing *)

Lemma set_field_spec s off bits v : Forall is_byte s -> in_block s off bits -> exists s',
  setUnsignedBitfield s off bits v = Some s' /\ Forall is_byte s' /\ length s' = length s /\
  bits_of s' = set_field (bits_of s) off bits v.
Proof.
  intros Hs Hin. destruct (setUnsignedBitfield_spec s off bits v Hs Hin) as (s' & A & C & E & Hb & Hl & E1 & HA & Hr & E2).
  exists s'. split_and!; [done..|]. rewrite E2. unfold set_field. destruct Hin as (H0 & H1 & _).
  assert (Z.to_nat off = length A) as Ea by (unfold zlen in HA; lia). rewrite E1, Ea, take_app_length. f_equal. f_equal.
  replace (Z.to_nat (off + bits)) with (length A + length (run s off bits))%nat by lia.
  by rewrite <-drop_drop, drop_app_length, drop_app_length.
Qed.

Lemma set_field_congr l off bits v w : 0 <= bits -> uint bits v = uint bits w -> set_field l off bits v = set_field l off bits w.
Proof. intros Hb E. unfold set_field. do 2 f_equal. apply field_congr. by rewrite Z2Nat.id. Qed.

Lemma field_value_range sign l off bits : type_ok sign bits -> 0 <= off ->
  lowest sign bits <= field_value sign l off bits <= highest sign bits.
Proof.
  intros Ht Ho. unfold type_ok in Ht. unfold field_value, lowest, highest. destruct sign.
  - pose proof (sint_range bits (num (field_at l off bits)) ltac:(lia)). lia.
  - pose proof (num_range (field_at l off bits)) as Hr. unfold zlen in Hr. rewrite length_field_at, Z2Nat.id in Hr by lia. lia.
Qed.

Lemma stored_range owtype sign bits e v : type_ok sign bits -> stored owtype sign bits e = Some v ->
  lowest sign bits <= v <= highest sign bits.
Proof.
  intros Ht. unfold type_ok in Ht. assert (lowest sign bits <= highest sign bits) as Hle.
  { unfold lowest, highest. destruct sign; [pose proof (pow_le_63 (bits - 1) ltac:(lia))|pose proof (pow_le_63 bits ltac:(lia))]; lia. }
  unfold stored. case_bool_decide; [by intros [= <-]|]. destruct owtype; [| |done]; intros [= <-].
  - unfold wrapped, lowest, highest. destruct sign; [pose proof (sint_range bits e ltac:(lia))|pose proof (uint_range bits e ltac:(lia))]; lia.
  - destruct (e <? lowest sign bits); lia.
Qed.

(** The result of one write. *)
Definition write_result (s : bytes) (op : bitfieldOp) (r : option (bytes * reply_op)) : Prop :=
  exists s' reply, r = Some (s', reply) /\ Forall is_byte s' /\ length s' = length s /\ (bits_of s', reply) = spec_op (bits_of s) op.

(** The end of a write, from the results of the overflow check: [new] is the
    value computed, [e] the exact one. *)
Lemma finish_write s op e new set (ret retc : Z -> Z) : Forall is_byte s -> type_ok (op_sign op) (op_bits op) ->
  (forall v, exists s', set v = Some s' /\ Forall is_byte s' /\ length s' = length s /\
     bits_of s' = set_field (bits_of s) (op_offset op) (op_bits op) v) ->
  (lowest (op_sign op) (op_bits op) <= e <= highest (op_sign op) (op_bits op) -> new = e) ->
  (forall v, lowest (op_sign op) (op_bits op) <= v <= highest (op_sign op) (op_bits op) -> retc v = ret v) ->
  spec_op (bits_of s) op = match stored (op_owtype op) (op_sign op) (op_bits op) e with
    | Some v => (set_field (bits_of s) (op_offset op) (op_bits op) v, RLongLong (ret v)) | None => (bits_of s, RNull) end ->
  let '(overflow, lim) := overflow_result (lowest (op_sign op) (op_bits op)) (highest (op_sign op) (op_bits op))
    (wrapped (op_sign op) (op_bits op)) (op_owtype op) e in
  let newval := if negb (overflow =? 0) then default uninit lim else new in
  write_result s op (if negb (negb (overflow =? 0) && is_fail (op_owtype op)) then
    s ← set newval; Some (s, RLongLong (retc newval)) else Some (s, RNull)).
Proof.
  intros Hs Ht Hset Hnew Hret Hspec. unfold write_result. rewrite Hspec.
  pose proof (stored_range (op_owtype op) (op_sign op) (op_bits op) e) as Hr.
  assert (forall v, stored (op_owtype op) (op_sign op) (op_bits op) e = Some v -> exists s' reply,
    (s ← set v; Some (s, RLongLong (retc v))) = Some (s', reply) /\ Forall is_byte s' /\ length s' = length s /\
    (bits_of s', reply) = (set_field (bits_of s) (op_offset op) (op_bits op) v, RLongLong (ret v))) as Hdone.
  { intros v Ev. destruct (Hset v) as (s' & -> & ? & ? & E). cbn [mbind option_bind]. exists s'. eexists.
    split; [done|]. rewrite E, Hret by eauto. done. }
  revert Hdone. clear Hr. unfold overflow_result, stored. case_bool_decide; cbn [negb andb].
  { intros Hdone. rewrite Hnew by done. by apply Hdone. }
  destruct (op_owtype op); [intros Hdone; by apply Hdone| |].
  - destruct (e <? lowest _ _); intros Hdone; by apply Hdone.
  - intros _. destruct (e <? lowest _ _); by exists s; eexists.
Qed.

Lemma write_signed_spec s op : Forall is_byte s -> op_ok op -> is_write op = true -> op_sign op = true ->
  in_block s (op_offset op) (op_bits op) -> set_in_reach op -> write_result s op (write_signed s op).
Proof.
  intros Hs (Ht & Ho & Hi) Hw Esign Hin Hreach. unfold write_signed.
  pose proof (field_value_range (op_sign op) (bits_of s) (op_offset op) (op_bits op) Ht ltac:(lia)) as Hold.
  pose proof Ht as Ht'. rewrite Esign in Hold, Ht'. unfold type_ok in Ht'.
  rewrite getSignedBitfield_spec by (done || lia). cbn [mbind option_bind]. rewrite run_field by done.
  change (sint (op_bits op) (num (field_at (bits_of s) (op_offset op) (op_bits op))))
    with (field_value true (bits_of s) (op_offset op) (op_bits op)). set (old := field_value true _ _ _) in *.
  unfold lowest, highest in Hold. pose proof (pow_le_63 (op_bits op - 1) ltac:(lia)) as Hp.
  assert (forall v, exists s', setSignedBitfield s (op_offset op) (op_bits op) v = Some s' /\ Forall is_byte s' /\ length s' = length s /\
    bits_of s' = set_field (bits_of s) (op_offset op) (op_bits op) v) as Hset.
  { intros v. unfold setSignedBitfield. destruct (set_field_spec s (op_offset op) (op_bits op) (u64 v) Hs Hin) as (s' & ? & ? & ? & E).
    exists s'. split_and!; [done..|]. rewrite E. apply set_field_congr; [lia|]. by rewrite uint_uint by lia. }
  destruct (op_opcode op) eqn:Eop; [unfold is_write in Hw; by rewrite Eop in Hw| |].
  - pose proof (finish_write s op (op_i64 op) (op_i64 op) (setSignedBitfield s (op_offset op) (op_bits op)) (fun _ => old) (fun _ => old)
      Hs Ht Hset ltac:(done) ltac:(done)) as H.
    unfold spec_op in H. rewrite Eop, Esign in H. specialize (H eq_refl). unfold lowest, highest, wrapped in H.
    assert (op_owtype op = BFOVERFLOW_SAT -> op_bits op < 64 -> 2 ^ (op_bits op - 1) - 1 - op_i64 op < 2 ^ 63) as Hr by auto.
    destruct (checkSigned_set (op_i64 op) (op_bits op) (op_owtype op)) as (ov' & E & Hov); [lia|done|done|]. rewrite E.
    destruct (overflow_result _ _ _ _ _) as [ov lim]. cbn [fst snd] in *. by rewrite Hov.
  - rewrite checkSigned_spec by first [done | lia | left; lia].
    pose proof (finish_write s op (old + op_i64 op) (s64 (old + op_i64 op)) (setSignedBitfield s (op_offset op) (op_bits op))
      (fun v => v) (fun v => v) Hs Ht Hset) as H.
    unfold spec_op in H. rewrite Eop, Esign in H. unfold lowest, highest, wrapped in H.
    specialize (H ltac:(intros; apply sint_small; lia) ltac:(done) eq_refl).
    destruct (overflow_result _ _ _ _ _) as [ov lim]. exact H.
Qed.

Lemma write_unsigned_spec s op : Forall is_byte s -> op_ok op -> is_write op = true -> op_sign op = false ->
  in_block s (op_offset op) (op_bits op) -> write_result s op (write_unsigned s op).
Proof.
  intros Hs (Ht & Ho & Hi) Hw Esign Hin. unfold write_unsigned.
  pose proof (field_value_range (op_sign op) (bits_of s) (op_offset op) (op_bits op) Ht ltac:(lia)) as Hold.
  pose proof Ht as Ht'. rewrite Esign in Hold, Ht'. unfold type_ok in Ht'.
  rewrite getUnsignedBitfield_spec by done. cbn [mbind option_bind]. rewrite run_field by done.
  change (num (field_at (bits_of s) (op_offset op) (op_bits op)))
    with (field_value false (bits_of s) (op_offset op) (op_bits op)). set (old := field_value false _ _ _) in *.
  unfold lowest, highest in Hold. pose proof (pow_le_63 (op_bits op) ltac:(lia)) as Hp.
  pose proof (fun v => set_field_spec s (op_offset op) (op_bits op) v Hs Hin) as Hset.
  destruct (op_opcode op) eqn:Eop; [unfold is_write in Hw; by rewrite Eop in Hw| |].
  - rewrite checkUnsigned_spec by first [lia | apply uint_range; lia]. rewrite Z.add_0_r.
    pose proof (finish_write s op (u64 (op_i64 op)) (u64 (op_i64 op)) (setUnsignedBitfield s (op_offset op) (op_bits op))
      (fun _ => old) (fun _ => s64 old) Hs Ht Hset ltac:(done) ltac:(intros; apply sint_small; lia)) as H.
    unfold spec_op in H. rewrite Eop, Esign in H. specialize (H eq_refl). unfold lowest, highest, wrapped in H.
    destruct (overflow_result _ _ _ _ _) as [ov lim]. exact H.
  - rewrite checkUnsigned_spec by first [lia | left; lia].
    pose proof (finish_write s op (old + op_i64 op) (u64 (old + op_i64 op)) (setUnsignedBitfield s (op_offset op) (op_bits op))
      (fun v => v) s64 Hs Ht Hset) as H.
    unfold spec_op in H. rewrite Eop, Esign in H. unfold lowest, highest, wrapped in H.
    specialize (H ltac:(intros; apply uint_small; lia) ltac:(intros; apply sint_small; lia) eq_refl).
    destruct (overflow_result _ _ _ _ _) as [ov lim]. exact H.
Qed.

(** ** BITFIELD: what the parser guarantees *)

Lemma string2ll_range s v : string2ll s = Some v -> in_s 64 v.
Proof. intros H. apply print_string2ll in H. tauto. Qed.

Lemma getBitfieldType_ok p sign bits : getBitfieldTypeFromArgument p = inl (sign, bits) -> type_ok sign bits.
Proof.
  unfold getBitfieldTypeFromArgument. destruct (match p with 105 :: p => _ | _ => _ end) as [[sg q]|]; [|done].
  destruct (string2ll (cstr q)) as [v|]; [|done].
  destruct ((v <? 1) || (sg && (v >? 64)) || (negb sg && (v >? 63))) eqn:E; [done|]. intros [= -> ->].
  unfold type_ok. destruct sign; cbn [andb negb orb] in E; lia.
Qed.

Lemma getBitOffset_ok p hash bits off : getBitOffsetFromArgument p hash bits = inl off -> offset_ok off.
Proof.
  unfold getBitOffsetFromArgument. set (h := bool_decide (head p = Some 35) && hash && (bits >? 0)).
  destruct (string2ll (if h then drop 1 p else p)) as [v|] eqn:Ev; [|done]. apply string2ll_range in Ev.
  set (l := if h then s64 (v * bits) else v). assert (in_s 64 l) as Hl.
  { unfold l. destruct h; [apply (sint_range 64); lia|done]. }
  destruct ((l <? 0) || (Z.shiftr l 3 >=? proto_max_bulk_len)) eqn:E; [done|]. rewrite Z.shiftr_div_pow2 in E by lia.
  change (2 ^ 3) with 8 in E. intros [= <-]. rewrite uint_small by lia. unfold offset_ok. lia.
Qed.

(** The invariant of the loop over the arguments. *)
Record parsed_ok (p : parsed) : Prop := {
  parsed_ops : Forall (fun op => op_ok op /\ op_offset op / 8 < proto_max_bulk_len) (ops p);
  parsed_readonly : readonly p = true -> Forall (fun op => is_write op = false) (ops p);
  parsed_highest : 0 <= highest_write_offset p < 2 ^ 63 + 64;
  parsed_writes : Forall (fun op => is_write op = true -> op_offset op + op_bits op - 1 <= highest_write_offset p) (ops p) }.

Lemma parse_field_ok ty off sign bits bitoffset : parse_field ty off = inl (sign, bits, bitoffset) ->
  type_ok sign bits /\ offset_ok bitoffset.
Proof.
  unfold parse_field. destruct (getBitfieldTypeFromArgument ty) as [[sg b]|] eqn:E1; [|done].
  destruct (getBitOffsetFromArgument off true b) as [o|] eqn:E2; [|done]. intros [= -> -> ->].
  split; [by eapply getBitfieldType_ok|by eapply getBitOffset_ok].
Qed.

Lemma add_get_ok acc owtype sign bits off : parsed_ok acc -> type_ok sign bits -> offset_ok off ->
  parsed_ok (add_get acc owtype sign bits off).
Proof.
  intros [H1 H2 H3 H4] Ht [Ho Hp]. split; cbn [add_get ops readonly highest_write_offset]; try done.
  - apply Forall_app. split; [done|]. apply Forall_singleton. split; [|done]. split; [done|]. split; [done|]. cbn [op_i64]. lia.
  - intros Hr. apply Forall_app. split; [by apply H2|]. by apply Forall_singleton.
  - apply Forall_app. split; [done|]. by apply Forall_singleton.
Qed.

Lemma add_write_ok acc opcode owtype sign bits off i64 : parsed_ok acc -> type_ok sign bits -> offset_ok off -> in_s 64 i64 ->
  parsed_ok (add_write acc opcode owtype sign bits off i64).
Proof.
  intros [H1 H2 H3 H4] Ht [Ho Hp] Hi. assert (1 <= bits <= 64) as Hb by (unfold type_ok in Ht; destruct sign; lia).
  split; unfold add_write; cbn [ops readonly highest_write_offset]; rewrite ?(uint_small 64 (off + bits - 1)) by lia; try done.
  - apply Forall_app. split; [done|]. apply Forall_singleton. split; [|done]. split; [done|]. split; done.
  - destruct (Z.ltb_spec (highest_write_offset acc) (off + bits - 1)); lia.
  - apply Forall_app. split.
    + eapply Forall_impl; [exact H4|]. intros op Hop Hw. specialize (Hop Hw).
      destruct (Z.ltb_spec (highest_write_offset acc) (off + bits - 1)); lia.
    + apply Forall_singleton. intros _. cbn [op_offset op_bits]. destruct (Z.ltb_spec (highest_write_offset acc) (off + bits - 1)); lia.
Qed.

Lemma parse_ops_ok args owtype acc p : parse_ops args owtype acc = inl p -> parsed_ok acc -> parsed_ok p.
Proof.
  revert owtype acc. induction args as [args IH] using (induction_ltof1 _ length). unfold ltof in IH.
  intros owtype acc E Hacc. destruct args as [|subcmd args]; [by injection E as <-|]. cbn [parse_ops] in E.
  assert (forall opcode, (match args with
      | ty :: off :: val :: args =>
        match parse_field ty off with
        | inr r => inr r
        | inl (sign, bits, bitoffset) =>
          match getLongLongFromObjectOrReply val None with
          | inr r => inr r
          | inl i64 => parse_ops args owtype (add_write acc opcode owtype sign bits bitoffset i64)
          end
        end
      | _ => inr syntaxerr
      end) = inl p -> parsed_ok p) as Hwrite.
  { intros opcode Ew. destruct args as [|ty [|off [|val args]]]; try done.
    destruct (parse_field ty off) as [[[sign bits] bitoffset]|] eqn:Ef; [|done]. apply parse_field_ok in Ef as [Ht Ho].
    unfold getLongLongFromObjectOrReply in Ew. destruct (string2ll val) as [v|] eqn:Ev; [|done]. apply string2ll_range in Ev.
    eapply IH; [|exact Ew|by apply add_write_ok]. simpl. lia. }
  destruct (same_word subcmd "get"); [|destruct (same_word subcmd "set"); [by eapply Hwrite|]].
  { destruct args as [|ty [|off args]]; try done. destruct (parse_field ty off) as [[[sign bits] bitoffset]|] eqn:Ef; [|done].
    apply parse_field_ok in Ef as [Ht Ho]. eapply IH; [|exact E|by apply add_get_ok]. simpl. lia. }
  destruct (same_word subcmd "incrby"); [by eapply Hwrite|]. destruct (same_word subcmd "overflow"); [|done].
  destruct args as [|owtypename args]; [done|]. destruct (parse_overflow owtypename) as [ow|]; [|done].
  eapply IH; [|exact E|done]. simpl. lia.
Qed.

(** ** BITFIELD: the command *)

Lemma exec_op_spec s op : Forall is_byte s -> op_ok op -> set_in_reach op ->
  (is_write op = true -> in_block s (op_offset op) (op_bits op)) -> exists s' reply,
  exec_op s op = Some (s', reply, if is_write op then 1 else 0) /\ Forall is_byte s' /\ length s' = length s /\
  (bits_of s', reply) = spec_op (bits_of s) op.
Proof.
  intros Hs Hop Hreach Hin. destruct (is_write op) eqn:Ew.
  - assert (exists s' reply, (if op_sign op then write_signed s op else write_unsigned s op) = Some (s', reply) /\
      Forall is_byte s' /\ length s' = length s /\ (bits_of s', reply) = spec_op (bits_of s) op) as (s' & r & E & H).
    { destruct (op_sign op) eqn:Es; [by apply write_signed_spec; auto|by apply write_unsigned_spec; auto]. }
    exists s', r. split; [|done]. unfold exec_op. unfold is_write in Ew. rewrite E. by destruct (op_opcode op).
  - exists s. eexists. unfold exec_op, spec_op. unfold is_write in Ew. destruct (op_opcode op); try done.
    rewrite read_field_spec by done. done.
Qed.

Lemma exec_ops_spec s l : Forall is_byte s -> Forall op_ok l -> Forall set_in_reach l ->
  Forall (fun op => is_write op = true -> in_block s (op_offset op) (op_bits op)) l -> exists s' rs n,
  exec_ops s l = Some (s', rs, n) /\ Forall is_byte s' /\ length s' = length s /\ (bits_of s', rs) = spec_ops (bits_of s) l /\
  n = zlen (filter (fun op => is_write op = true) l).
Proof.
  intros Hs Hok. revert s Hs. induction Hok as [|op l Hop Hok IH]; intros s Hs Hreach Hin.
  { by exists s, [], 0. }
  apply Forall_cons in Hreach as [Hr Hreach]. apply Forall_cons in Hin as [Hi Hin].
  destruct (exec_op_spec s op Hs Hop Hr Hi) as (s1 & r & E1 & Hs1 & Hl1 & Esp). cbn [exec_ops spec_ops]. rewrite E1, <-Esp. cbn [mbind option_bind].
  destruct (IH s1 Hs1 Hreach) as (s2 & rs & n & E2 & Hs2 & Hl2 & Esp2 & En).
  { eapply Forall_impl; [exact Hin|]. unfold in_block, zlen. rewrite Hl1. done. }
  rewrite E2, <-Esp2. cbn [mbind option_bind]. eexists _, _, _. split; [done|]. split; [done|]. split; [lia|]. split; [done|].
  rewrite filter_cons. destruct (is_write op); [rewrite decide_True, zlen_cons by done|rewrite decide_False by done]; lia.
Qed.

(** The string BITFIELD works on: a command that writes first makes it reach
    the last bit written. *)
Definition grown (o : option value) (p : parsed) : bytes :=
  if readonly p then content o else grow_zero (content o) (highest_write_offset p / 8 + 1).

Lemma initial_ok : parsed_ok (mk_parsed [] true 0).
Proof. by split; cbn; try constructor; try lia. Qed.

Lemma read_string_content o : is_string o -> read_string o = Some (content o).
Proof.
  intros H. destruct o as [[obj|]|]; [|done|done]. destruct H as [Hok _]. cbn [read_string content].
  destruct obj; [done|]. cbn. rewrite ll2string_text_spec; [done|lia|done].
Qed.

Lemma spec_ops_readonly l ops : Forall (fun op => is_write op = false) ops -> fst (spec_ops l ops) = l.
Proof.
  induction 1 as [|op ops Hop H IH]; [done|]. cbn [spec_ops]. assert (fst (spec_op l op) = l) as E.
  { unfold spec_op. unfold is_write in Hop. by destruct (op_opcode op). }
  destruct (spec_op l op) as [l' r]. cbn [fst] in E. subst l'. by destruct (spec_ops l ops).
Qed.

Lemma no_writes ops : Forall (fun op => is_write op = false) ops -> zlen (filter (fun op => is_write op = true) ops) = 0.
Proof. induction 1 as [|op ops Hop H IH]; [done|]. rewrite filter_cons_False; [done|]. by rewrite Hop. Qed.

(** C16: BITFIELD (and BITFIELD_RO) performs its operations one after the other
    on the list of bits of the string: GET reads the bits of its field as a
    number, zero past the end of the string, SET and INCRBY store the value or
    the sum when it is in the range of the type and otherwise wrap, saturate or
    leave the string alone as the last OVERFLOW says, and the replies are the
    value read, the old value, the new value or nil.  The string first grows to
    the last bit written, is unchanged by a command that only reads, and no
    operation touches memory outside of it.  The string is shorter than 2^60
    bytes.  The one case left out is the signed SET with OVERFLOW SAT of a value
    so far below its type that max - value leaves 64 bits. *)
Theorem bitfield_refines_bits o args flag p :
  parse_ops args BFOVERFLOW_WRAP (mk_parsed [] true 0) = inl p ->
  is_string o -> zlen (content o) < 2 ^ 60 -> Forall set_in_reach (ops p) -> (flag = true -> readonly p = true) ->
  exists out rs, bitfieldGeneric o args flag = Some out /\ replies out = RArrayLen (zlen (ops p)) :: rs /\
    (bits_of (content (slot out)), rs) = spec_ops (bits_of (grown o p)) (ops p) /\
    zlen (content (slot out)) = zlen (grown o p) /\ (readonly p = true -> slot out = o) /\
    dirty out = zlen (filter (fun op => is_write op = true) (ops p)).
Proof.
  intros Ep Ho Hlen Hreach Hflag. unfold bitfieldGeneric, grown. rewrite Ep.
  destruct (parse_ops_ok _ _ _ _ Ep initial_ok) as [Hops Hro Hh Hw].
  assert (Forall op_ok (ops p)) as Hok by (eapply Forall_impl; [exact Hops|]; simpl; tauto).
  destruct (readonly p) eqn:Er.
  - assert (Forall is_byte (content o)) as Hb by (destruct o as [[obj|]|]; [apply Ho|done|constructor]).
    specialize (Hro eq_refl). destruct (exec_ops_spec (content o) (ops p) Hb Hok Hreach) as (s' & rs & n & E & _ & _ & Esp & En).
    { eapply Forall_impl; [exact Hro|]. simpl. intros op ->. done. }
    pose proof (spec_ops_readonly (bits_of (content o)) (ops p) Hro) as Es. rewrite <-Esp in Es. cbn [fst] in Es.
    pose proof (no_writes (ops p) Hro) as E0.
    rewrite Es in Esp. destruct o as [[obj|]|]; [|done|]; rewrite read_string_content by done; cbn [mbind option_bind]; rewrite E;
      cbn [mbind option_bind]; eexists _, _; by rewrite E0.
  - destruct flag; [by specialize (Hflag eq_refl)|]. cbn [negb].
    destruct (string_for_bit o (highest_write_offset p) Ho) as (s & Elk & _ & Hb & Hl); [lia|].
    assert (s = grow_zero (content o) (highest_write_offset p / 8 + 1)) as ->.
    { unfold lookupStringForBitCommand in Elk. rewrite Z.shiftr_div_pow2 in Elk by lia. change (2 ^ 3) with 8 in Elk.
      destruct o as [[obj|]|]; [|done|]; injection Elk as <-; [done|]. unfold grow_zero. cbn [content app]. by rewrite Z.sub_0_r. }
    rewrite Elk. destruct (exec_ops_spec _ (ops p) Hb Hok Hreach) as (s' & rs & n & E & _ & Hl' & Esp & En).
    { apply Forall_forall. intros op Hop Hwr. rewrite Forall_forall in Hok, Hw. specialize (Hw op Hop Hwr).
      destruct (Hok op Hop) as (Ht & Hoff & _). unfold type_ok in Ht. unfold in_block. rewrite Hl.
      pose proof (Z.div_mod (highest_write_offset p) 8 ltac:(lia)). pose proof (Z.mod_pos_bound (highest_write_offset p) 8 ltac:(lia)).
      destruct (op_sign op); lia. }
    rewrite E. cbn [mbind option_bind]. eexists _, _. split; [done|]. split; [done|]. split; [exact Esp|].
    cbn [content slot dirty obj_bytes]. unfold zlen at 1 2. rewrite Hl'. done.
Qed.

(** ** BITCOUNT and BITPOS *)

(** The bytes from [start] to [stop], both included, as the two commands read
    their indexes. *)
Definition range_bytes (s : bytes) (start stop : Z) : bytes :=
  let '(a, b) := byte_range (zlen s) start stop in take (Z.to_nat (b - a + 1)) (drop (Z.to_nat a) s).

Lemma byte_range_ok len start stop a b : 0 <= len -> byte_range len start stop = (a, b) -> 0 <= a /\ b < len.
Proof. intros H. unfold byte_range. intros [= <- <-]. case_ints; lia. Qed.

Lemma range_split (s : bytes) a b : 0 <= a -> b < zlen s -> a <= b -> exists x y,
  s = x ++ take (Z.to_nat (b - a + 1)) (drop (Z.to_nat a) s) ++ y /\ a = zlen x /\
  Z.to_nat (b - a + 1) = length (take (Z.to_nat (b - a + 1)) (drop (Z.to_nat a) s)).
Proof.
  intros Ha Hb Hab. exists (take (Z.to_nat a) s), (drop (Z.to_nat (b - a + 1)) (drop (Z.to_nat a) s)).
  rewrite !take_drop. unfold zlen in *. rewrite !length_take, length_drop. split; [done|]. lia.
Qed.

Lemma range_empty (s : bytes) a b : b < a -> take (Z.to_nat (b - a + 1)) (drop (Z.to_nat a) s) = [].
Proof. intros H. by replace (Z.to_nat (b - a + 1)) with 0%nat by lia. Qed.

Lemma readonly_string obj : obj_ok obj -> getObjectReadOnlyString obj = Some (obj_bytes obj).
Proof. intros H. destruct obj; [done|]. apply ll2string_text_spec; [lia|done]. Qed.

(** What the command counts, in terms of the range the code computes. *)
Lemma bitcount_range obj start stop resp :
  obj_ok obj -> Forall is_byte (obj_bytes obj) -> in_s 64 start -> in_s 64 stop ->
  exists r, bitcountCommand (Some (VString obj)) [print_lld start; print_lld stop] = Some (only_reply (Some (VString obj)) r) /\
    encode_reply resp r
    = header 58 (if bool_decide (start < 0 /\ stop < 0 /\ stop < start) then 0 else ones (range_bytes (obj_bytes obj) start stop)).
Proof.
  intros Hok Hb H1 H2. unfold bitcountCommand. rewrite readonly_string by done. cbn [mbind option_bind].
  rewrite !read_long by done. replace ((start <? 0) && (stop <? 0) && (start >? stop)) with (bool_decide (start < 0 /\ stop < 0 /\ stop < start)).
  2:{ case_bool_decide; symmetry; [rewrite !andb_true_iff; lia|]. apply not_true_is_false. rewrite !andb_true_iff. lia. }
  case_bool_decide; [by exists czero|]. unfold range_bytes.
  destruct (byte_range (zlen (obj_bytes obj)) start stop) as [a b] eqn:Er.
  apply byte_range_ok in Er as [Ha Hlt]; [|apply zlen_nonneg]. destruct (Z.gtb_spec a b) as [Hgt|Hle].
  { exists czero. split; [done|]. by rewrite range_empty by lia. }
  destruct (range_split (obj_bytes obj) a b Ha Hlt Hle) as (x & y & Es & Ex & El).
  set (seg := take _ (drop _ _)) in *. rewrite El. exists (RLongLong (ones seg)). split; [|done].
  assert (Forall is_byte seg) as Hs by (rewrite Es, !Forall_app in Hb; tauto).
  pose proof (redisPopcount_counts_ones be addr x seg y Hs) as E. rewrite <-Es, <-Ex in E. by rewrite E.
Qed.

Lemma bitpos_range obj (bit : bool) start stop :
  obj_ok obj -> Forall is_byte (obj_bytes obj) -> in_s 64 start -> in_s 64 stop ->
  exists r, bitposCommand (Some (VString obj)) (print_lld (Z.b2z bit)) [print_lld start; print_lld stop]
      = Some (only_reply (Some (VString obj)) (RLongLong r)) /\
    let seg := range_bytes (obj_bytes obj) start stop in
    (r = -1 /\ forall i, (i < 8 * length seg)%nat -> bit_at seg i = negb bit) \/
    (exists i, (i < 8 * length seg)%nat /\ r = 8 * fst (byte_range (zlen (obj_bytes obj)) start stop) + Z.of_nat i /\
       bit_at seg i = bit /\ forall j, (j < i)%nat -> bit_at seg j = negb bit).
Proof.
  intros Hok Hb H1 H2. unfold bitposCommand. rewrite read_long by (destruct bit; vm_compute; split; discriminate || reflexivity).
  replace (negb (Z.b2z bit =? 0) && negb (Z.b2z bit =? 1)) with false by (by destruct bit).
  replace (negb (Z.b2z bit =? 0)) with bit by (by destruct bit).
  replace (Z.b2z bit =? 0) with (negb bit) by (by destruct bit).
  rewrite readonly_string by done. cbn [mbind option_bind]. rewrite !read_long by done. unfold range_bytes.
  destruct (byte_range (zlen (obj_bytes obj)) start stop) as [a b] eqn:Er. cbn [fst].
  apply byte_range_ok in Er as [Ha Hlt]; [|apply zlen_nonneg]. destruct (Z.gtb_spec a b) as [Hgt|Hle].
  { exists (-1). split; [done|]. left. split; [done|]. rewrite range_empty by lia. intros i Hi. simpl in Hi. lia. }
  destruct (range_split (obj_bytes obj) a b Ha Hlt Hle) as (x & y & Es & Ex & El).
  assert (b - a + 1 = zlen (take (Z.to_nat (b - a + 1)) (drop (Z.to_nat a) (obj_bytes obj)))) as El' by (unfold zlen; lia).
  set (seg := take _ (drop _ _)) in *. rewrite El, !Z.shiftl_mul_pow2 by lia. change (2 ^ 3) with 8. cbn [andb].
  assert (Forall is_byte seg) as Hs by (rewrite Es, !Forall_app in Hb; tauto).
  destruct (redisBitpos_first_bit be addr x seg y bit Hs) as (pos & E & Hpos).
  rewrite <-Es, <-Ex in E. rewrite E. cbn [mbind option_bind]. rewrite El'. clear E Hb. unfold zlen in *.
  destruct Hpos as [(-> & -> & Hz)|(H0 & Hbit & Hbefore)].
  { exists (-1). split; [done|]. left. split; [done|]. intros i _. apply Hz. }
  rewrite (proj2 (Z.eqb_neq pos (-1))) by lia. cbn [negb].
  destruct (decide (pos < Z.of_nat (length seg) * 8)) as [Hin|Hout].
  - rewrite (proj2 (Z.eqb_neq pos _)), andb_false_r by lia. eexists. split; [done|]. right. exists (Z.to_nat pos).
    split; [lia|]. split; [lia|]. split; [done|]. intros j Hj. apply Hbefore. lia.
  - assert (bit = false) as -> by (rewrite <-Hbit; apply bit_at_out; lia). cbn [negb andb].
    assert (pos = Z.of_nat (length seg) * 8) as ->.
    { destruct (decide (pos = Z.of_nat (length seg) * 8)); [done|]. exfalso.
      specialize (Hbefore (8 * length seg)%nat ltac:(lia)). by rewrite bit_at_out in Hbefore by lia. }
    rewrite Z.eqb_refl. exists (-1). split; [done|]. left. split; [done|]. intros i Hi. apply Hbefore. lia.
Qed.

(** *** The range, independently of the code *)

(** Byte [k] of a string of [len] bytes is between the indexes [start] and
    [stop], both included; a negative index counts from the end, and an end
    before the string stands for its first byte. *)
Definition selected (len start stop k : Z) : bool :=
  ((if start <? 0 then len + start else start) <=? k) && (k <=? (if stop <? 0 then Z.max 0 (len + stop) else stop)).

(** The bits of the string, those of the bytes not selected cleared. *)
Definition selected_bits (s : bytes) (start stop : Z) : list bool :=
  imap (fun i b => selected (zlen s) start stop (Z.of_nat i / 8) && b) (bits_of s).

Lemma selected_range len start stop a b k :
  byte_range len start stop = (a, b) -> 0 <= k < len -> selected len start stop k = (a <=? k) && (k <=? b).
Proof.
  unfold byte_range, selected. intros [= <- <-] Hk. apply eq_true_iff_eq. rewrite !andb_true_iff, !Z.leb_le.
  destruct (Z.ltb_spec start 0), (Z.ltb_spec stop 0); case_ints; lia.
Qed.

Lemma mask_on (g : nat -> bool) l : (forall i, (i < length l)%nat -> g i = true) -> imap (fun i b => g i && b) l = l.
Proof.
  intros Hg. apply list_eq. intros i. rewrite list_lookup_imap. destruct (l !! i) as [b|] eqn:E; [|done].
  simpl. by rewrite Hg by (by eapply lookup_lt_Some).
Qed.

Lemma mask_off (g : nat -> bool) l : (forall i, (i < length l)%nat -> g i = false) ->
  filter Is_true (imap (fun i b => g i && b) l) = [].
Proof.
  intros Hg. apply elem_of_nil_inv. intros b [Hb (i & c & -> & Hi)%elem_of_lookup_imap_1]%list_elem_of_filter.
  by rewrite Hg in Hb by (by eapply lookup_lt_Some).
Qed.

Lemma div8_range i lo hi : 8 * lo <= i < 8 * hi -> lo <= i / 8 < hi.
Proof. intros H. lia_div. Qed.

(** The bits of [x ++ seg ++ y] when exactly the bytes of [seg] are selected. *)
Lemma selected_ones (g : Z -> bool) (x seg y : bytes) :
  (forall k, 0 <= k < zlen (x ++ seg ++ y) -> g k = (zlen x <=? k) && (k <? zlen x + zlen seg)) ->
  zlen (filter Is_true (imap (fun i b => g (Z.of_nat i / 8) && b) (bits_of (x ++ seg ++ y)))) = ones seg.
Proof.
  intros Hg. rewrite !zlen_app in Hg. pose proof (zlen_nonneg x). pose proof (zlen_nonneg seg). pose proof (zlen_nonneg y).
  rewrite !bits_of_app, !imap_app, !filter_app, length_bits_of. unfold compose. rewrite length_bits_of.
  rewrite (mask_off (fun i => g (Z.of_nat i / 8)) (bits_of x)).
  2:{ intros i Hi. rewrite length_bits_of in Hi. pose proof (div8_range (Z.of_nat i) 0 (zlen x) ltac:(unfold zlen; lia)).
      rewrite Hg by lia. by rewrite (proj2 (Z.leb_gt _ _)) by lia. }
  rewrite (mask_on (fun i => g (Z.of_nat (8 * length x + i) / 8)) (bits_of seg)).
  2:{ intros i Hi. rewrite length_bits_of in Hi.
      pose proof (div8_range (Z.of_nat (8 * length x + i)) (zlen x) (zlen x + zlen seg) ltac:(unfold zlen; lia)).
      rewrite Hg by lia. by rewrite (proj2 (Z.leb_le _ _)), (proj2 (Z.ltb_lt _ _)) by lia. }
  rewrite (mask_off (fun i => g (Z.of_nat (8 * length x + (8 * length seg + i)) / 8)) (bits_of y)).
  2:{ intros i Hi. rewrite length_bits_of in Hi.
      pose proof (div8_range (Z.of_nat (8 * length x + (8 * length seg + i))) (zlen x + zlen seg) (zlen x + zlen seg + zlen y)
        ltac:(unfold zlen; lia)).
      rewrite Hg by lia. by rewrite (proj2 (Z.ltb_ge _ _)), andb_false_r by lia. }
  rewrite app_nil_r. done.
Qed.

Lemma range_bytes_ones s start stop :
  ones (range_bytes s start stop) = zlen (filter Is_true (selected_bits s start stop)).
Proof.
  unfold range_bytes, selected_bits. destruct (byte_range (zlen s) start stop) as [a b] eqn:Er.
  pose proof (byte_range_ok _ _ _ _ _ (zlen_nonneg s) Er) as [Ha Hb]. destruct (decide (a <= b)) as [Hab|Hab].
  - destruct (range_split s a b Ha Hb Hab) as (x & y & Es & Ex & El). set (seg := take _ (drop _ _)) in *.
    pose proof (selected_ones (selected (zlen s) start stop) x seg y) as H. rewrite <-Es in H. symmetry. apply H.
    intros k Hk. rewrite (selected_range _ _ _ _ _ _ Er Hk). f_equal; [by rewrite Ex|].
    apply eq_true_iff_eq. rewrite Z.leb_le, Z.ltb_lt. rewrite <-Ex. unfold zlen. lia.
  - rewrite range_empty by lia. unfold ones. rewrite (mask_off (fun i => selected (zlen s) start stop (Z.of_nat i / 8))); [done|].
    intros i Hi. rewrite length_bits_of in Hi. pose proof (div8_range (Z.of_nat i) 0 (zlen s) ltac:(unfold zlen; lia)).
    rewrite (selected_range _ _ _ _ _ _ Er) by lia. apply andb_false_iff. lia.
Qed.

(** C21: BITCOUNT with a range replies with the number of one bits of the bytes
    between start and stop, negative indexes counting from the end, and with
    zero when both are negative and out of order; it changes nothing.  The count
    is right wherever the string lies in memory and whatever the byte order of
    the host, although redisPopcount consumes bytes up to an aligned address,
    then seven words at a time with a parallel count, then the bytes left over. *)
Theorem bitcount_counts obj start stop resp :
  obj_ok obj -> Forall is_byte (obj_bytes obj) -> in_s 64 start -> in_s 64 stop ->
  exists r, bitcountCommand (Some (VString obj)) [print_lld start; print_lld stop] = Some (only_reply (Some (VString obj)) r) /\
    encode_reply resp r
    = header 58 (if bool_decide (start < 0 /\ stop < 0 /\ stop < start) then 0
                 else zlen (filter Is_true (selected_bits (obj_bytes obj) start stop))).
Proof. intros. rewrite <-range_bytes_ones. by apply bitcount_range. Qed.

Lemma bit_at_middle (x seg y : bytes) i :
  (i < 8 * length seg)%nat -> bit_at (x ++ seg ++ y) (8 * length x + i) = bit_at seg i.
Proof.
  intros Hi. unfold bit_at. rewrite !bits_of_app, lookup_app_r by (rewrite length_bits_of; lia).
  rewrite length_bits_of, lookup_app_l by (rewrite length_bits_of; lia). f_equal. f_equal. lia.
Qed.

(** C22: BITPOS with both ends given replies with the position, counted from the
    start of the string, of the first bit equal to [bit] among the bytes between
    start and stop, negative indexes counting from the end, and with -1 when
    these bytes have no such bit, also when it looks for a zero and they are all
    ones; the string is not changed. *)
Theorem bitpos_finds obj (bit : bool) start stop :
  obj_ok obj -> Forall is_byte (obj_bytes obj) -> in_s 64 start -> in_s 64 stop ->
  exists r, bitposCommand (Some (VString obj)) (print_lld (Z.b2z bit)) [print_lld start; print_lld stop]
      = Some (only_reply (Some (VString obj)) (RLongLong r)) /\
    let s := obj_bytes obj in
    let candidate i := (i < 8 * length s)%nat /\ selected (zlen s) start stop (Z.of_nat i / 8) = true in
    (r = -1 /\ forall i, candidate i -> bit_at s i = negb bit) \/
    (exists i, r = Z.of_nat i /\ candidate i /\ bit_at s i = bit /\ forall j, (j < i)%nat -> candidate j -> bit_at s j = negb bit).
Proof.
  intros Hok Hb H1 H2. destruct (bitpos_range obj bit start stop Hok Hb H1 H2) as (r & E & Hr). exists r. split; [exact E|].
  revert Hr. cbv zeta. unfold range_bytes. set (s := obj_bytes obj). destruct (byte_range (zlen s) start stop) as [a b] eqn:Er.
  pose proof (byte_range_ok _ _ _ _ _ (zlen_nonneg s) Er) as [Ha Hlt]. cbn [fst].
  assert (forall i, (i < 8 * length s)%nat -> selected (zlen s) start stop (Z.of_nat i / 8) = true <->
    8 * a <= Z.of_nat i < 8 * (b + 1)) as Hsel.
  { intros i Hi. pose proof (div8_range (Z.of_nat i) 0 (zlen s) ltac:(unfold zlen; lia)).
    rewrite (selected_range _ _ _ _ _ _ Er), andb_true_iff, !Z.leb_le by lia. lia_div. }
  destruct (decide (a <= b)) as [Hab|Hab].
  - destruct (range_split s a b Ha Hlt Hab) as (x & y & Es & Ex & El). set (seg := take _ (drop _ _)) in *.
    assert (forall i, (i < 8 * length seg)%nat -> bit_at s (8 * length x + i) = bit_at seg i) as Hmid
      by (intros; rewrite Es; by apply bit_at_middle).
    assert (length s = length x + length seg + length y)%nat as Hlen by (rewrite Es, !length_app; lia). unfold zlen in *.
    assert (forall j, (8 * a <= Z.of_nat j < 8 * (b + 1)) -> exists i, j = (8 * length x + i)%nat /\ (i < 8 * length seg)%nat) as Hpos
      by (intros j Hj; exists (j - 8 * length x)%nat; lia).
    intros [[-> Hno]|(i & Hi & -> & Hbit & Hbefore)]; [left|right].
    + split; [done|]. intros j [Hj Hs]. apply Hsel in Hs as (i & -> & Hi)%Hpos; [|done]. rewrite Hmid by done. by apply Hno.
    + exists (8 * length x + i)%nat. split; [lia|]. split; [split; [lia|apply Hsel; lia]|]. split; [by rewrite Hmid|].
      intros j Hj [Hjl Hs]. apply Hsel in Hs as (i' & -> & Hi')%Hpos; [|done]. rewrite Hmid by done. apply Hbefore. lia.
  - rewrite range_empty by lia. intros [[-> _]|(i & Hi & _)]; [|simpl in Hi; lia]. left. split; [done|].
    intros j [Hj Hs]. apply Hsel in Hs; [lia|done].
Qed.
End bitops.

(** C39: the check of a signed SET is on the wrong side for values near the
    minimum of 64 bits: when max - value overflows, a value far below the range
    of the type is reported as an overflow above it, and with OVERFLOW SAT the
    maximum is stored instead of the minimum. *)
Theorem signed_set_extreme_saturates_high value bits :
  1 <= bits < 64 -> in_s 64 value -> 2 ^ 63 <= 2 ^ (bits - 1) - 1 - value ->
  checkSignedBitfieldOverflow value 0 bits BFOVERFLOW_SAT = (1, Some (2 ^ (bits - 1) - 1)) /\ value < - 2 ^ (bits - 1).
Proof.
  intros Hb Hv He. pose proof (pow_le_63 (bits - 1) ltac:(lia)) as Hp.
  assert (2 ^ (bits - 1) <= 2 ^ 62) as Hq by (apply Z.pow_le_mono_r; lia). split; [|lia].
  unfold checkSignedBitfieldOverflow. cbn zeta. rewrite (proj2 (Z.eqb_neq bits 64)), Z.shiftl_1_l by lia.
  assert (s64 (2 ^ (bits - 1) - 1 - value) < 0) as Hneg.
  { rewrite <-sint_uint, uint_small, sint_cases by lia. rewrite (proj2 (Z.leb_le _ _)) by lia. lia. }
  rewrite (Z.gtb_ltb 0), (proj2 (Z.ltb_lt (s64 _) 0)) by done. rewrite orb_true_r. done.
Qed.

Lemma signed_set_extreme_saturates_high_witness :
  checkSignedBitfieldOverflow (- 2 ^ 63) 0 8 BFOVERFLOW_SAT = (1, Some 127).
Proof. refine (proj1 (signed_set_extreme_saturates_high (- 2 ^ 63) 8 _ _ _)); lia. Defined.

(** ** Witnesses *)

Definition default_max_bulk : Z := 512 * 1024 * 1024.

Lemma setbit_getbit_witness : exists out,
  setbitCommand default_max_bulk (Some (VString (ObjInt 12))) (print_lld 30) (print_lld (Z.b2z true)) = Some out /\
  zlen (content (slot out)) = 4 /\
  getbitCommand default_max_bulk (slot out) (print_lld 30) = Some (only_reply (slot out) cone) /\
  getbitCommand default_max_bulk (slot out) (print_lld 2) = Some (only_reply (slot out) cone).
Proof.
  assert (is_string (Some (VString (ObjInt 12)))) as Hs.
  { split; [vm_compute; split; [discriminate|reflexivity]|]. refine (bool_decide_eq_true_1 _ _). vm_compute. reflexivity. }
  destruct (setbit_getbit default_max_bulk (Some (VString (ObjInt 12))) 30 true Hs) as (out & E & _ & _ & _ & Hl & H).
  - split; vm_compute; [split; [discriminate|reflexivity]|reflexivity].
  - exists out. split; [exact E|]. split; [exact Hl|]. split.
    + exact (H 30 ltac:(split; vm_compute; [split; [discriminate|reflexivity]|reflexivity])).
    + exact (H 2 ltac:(split; vm_compute; [split; [discriminate|reflexivity]|reflexivity])).
Defined.

Definition bitop_sources : list (option value) :=
  [Some (VString (ObjStr (Z.of_nat <$> seq 0 40))); Some (VString (ObjStr (replicate 35 85)))].

Lemma bitop_bits_witness : exists out, bitopCommand true (str "Xor") None bitop_sources = Some out /\ replies out = [RLongLong 40].
Proof.
  destruct (bitop_bits true (str "Xor") BITOP_XOR None bitop_sources) as (out & E & Er & _).
  - vm_compute. reflexivity.
  - discriminate.
  - discriminate.
  - repeat constructor; refine (bool_decide_eq_true_1 _ _); vm_compute; reflexivity.
  - exists out. split; [exact E|exact Er].
Defined.

Definition bitfield_args : list bytes :=
  str <$> ["SET"; "i64"; "0"; "-9223372036854775808"; "INCRBY"; "u8"; "4"; "200"; "OVERFLOW"; "SAT"; "INCRBY"; "i5"; "3"; "-40"; "GET"; "u8"; "#1"]%string.

Lemma bitfield_refines_bits_witness : exists out rs, bitfieldGeneric default_max_bulk 0 None bitfield_args false = Some out /\
  replies out = RArrayLen 4 :: rs /\ zlen (content (slot out)) = 8.
Proof.
  destruct (parse_ops default_max_bulk bitfield_args BFOVERFLOW_WRAP (mk_parsed [] true 0)) as [p|] eqn:E; [|vm_compute in E; discriminate].
  vm_compute in E. injection E as E.
  destruct (bitfield_refines_bits default_max_bulk 0 None bitfield_args false p) as (out & rs & Eo & Er & _ & El & _).
  - rewrite <-E. vm_compute. reflexivity.
  - done.
  - vm_compute. reflexivity.
  - rewrite <-E. refine (bool_decide_eq_true_1 _ _). vm_compute. reflexivity.
  - discriminate.
  - exists out, rs. subst p. split; [exact Eo|]. split; [exact Er|]. exact El.
Defined.

Lemma bitcount_counts_witness : exists r,
  bitcountCommand 0x1003 false (Some (VString (ObjStr (replicate 70 7)))) [print_lld (-68); print_lld (-3)]
    = Some (only_reply (Some (VString (ObjStr (replicate 70 7)))) r) /\ encode_reply 2 r = header 58 198.
Proof.
  destruct (bitcount_counts 0x1003 false (ObjStr (replicate 70 7)) (-68) (-3) 2) as (r & E & Er); [done| |lia|lia|].
  - refine (bool_decide_eq_true_1 _ _). vm_compute. reflexivity.
  - exists r. split; [exact E|]. rewrite Er. vm_compute. reflexivity.
Defined.

Lemma bitpos_finds_witness : exists r,
  bitposCommand 0x1003 true (Some (VString (ObjStr (replicate 70 255)))) (print_lld (Z.b2z false)) [print_lld (-68); print_lld (-3)]
    = Some (only_reply (Some (VString (ObjStr (replicate 70 255)))) (RLongLong r)).
Proof.
  destruct (bitpos_finds 0x1003 true (ObjStr (replicate 70 255)) false (-68) (-3)) as (r & E & _); [done| |lia|lia|].
  - refine (bool_decide_eq_true_1 _ _). vm_compute. reflexivity.
  - exists r. exact E.
Defined.
