(* ===== verification/Lzf.v ===== *)
(** * lzf_c.c and lzf_d.c: the compression of strings in RDB files

    lzf_compress and lzf_decompress over the bytes of their buffers, in the
    configuration of lzfP.h (HLOG 16, VERY_FAST, INIT_HTAB 0, CHECK_INPUT, a
    hash slot is an offset of 32 bits into the input).  The hash table lies on
    the stack and is not initialised: its content is the parameter [garbage].
    Offsets stand for pointers, a result [None] for an access outside a buffer.

    The theorems: whatever the table holds, compression stays inside its
    buffers, and what it produces is decompressed to the input; decompression
    stays inside its buffers on any input, also a corrupt one. *)

From S2P Require Import Prelude.

(** ** Compression *)

Definition HLOG : Z := 16.
Definition HSIZE : Z := Z.shiftl 1 HLOG.
Definition MAX_LIT : Z := Z.shiftl 1 5.
Definition MAX_OFF : Z := Z.shiftl 1 13.
Definition MAX_REF : Z := Z.shiftl 1 8 + Z.shiftl 1 3.

(** FRST(p), NEXT(v,p) and IDX(h), in arithmetic of 32 bits. *)
Definition FRST (inp : bytes) (p : Z) : option Z :=
  a ← mget inp p; b ← mget inp (p + 1); Some (Z.lor (Z.shiftl a 8) b).
Definition NEXT (v : Z) (inp : bytes) (p : Z) : option Z :=
  c ← mget inp (p + 2); Some (Z.lor (u32 (Z.shiftl v 8)) c).
Definition IDX (h : Z) : Z := Z.land (u32 (Z.shiftr h (3 * 8 - HLOG) - h * 5)) (HSIZE - 1).

(** The registers of the loop and the two memories it writes. *)
Record lzf_state := mk_lzf { ip : Z; op : Z; lit : Z; hval : Z; htab : gmap Z Z; out : bytes }.

Section lzf.
Context (garbage : Z -> Z) (inp : bytes).

Abbreviation in_end := (zlen inp).

Definition slot_at (t : gmap Z Z) (i : Z) : Z := default (garbage i) (t !! i).

(** The match test: [Some off] when the three bytes at [ref] are those at [ip]. *)
Definition match_at (ref ip : Z) : option (option Z) :=
  let off := u64 (ip - ref - 1) in
  if negb (off <? MAX_OFF) then Some None
  else if negb (ref >? 0) then Some None
  else
    r2 ← mget inp (ref + 2); i2 ← mget inp (ip + 2);
    if negb (r2 =? i2) then Some None
    else
      r ← mload inp ref 2; i ← mload inp ip 2;
      Some (if bool_decide (r = i) then Some off else None).

(** [n] times [len++; if (ref[len] != ip[len]) break;]: [true] on a break. *)
Fixpoint unrolled (n : nat) (ref ip len : Z) : option (Z * bool) :=
  match n with
  | O => Some (len, false)
  | S n =>
    let len := len + 1 in
    r ← mget inp (ref + len); i ← mget inp (ip + len);
    if negb (r =? i) then Some (len, true) else unrolled n ref ip len
  end.

(** [do len++; while (len < maxlen && ref[len] == ip[len]);] *)
Fixpoint extend (fuel : nat) (ref ip maxlen len : Z) : option Z :=
  match fuel with
  | O => None
  | S fuel =>
    let len := len + 1 in
    if len <? maxlen then
      r ← mget inp (ref + len); i ← mget inp (ip + len);
      if r =? i then extend fuel ref ip maxlen len else Some len
    else Some len
  end.

(** The length of the match. *)
Definition match_length (ref ip : Z) : option Z :=
  let len := 2 in
  let maxlen := u32 (in_end - ip - len) in
  let maxlen := if maxlen >? MAX_REF then MAX_REF else maxlen in
  '(len, stop) ← (if maxlen >? 16 then unrolled 16 ref ip len else Some (len, false));
  if (stop : bool) then Some len else extend (Z.to_nat maxlen) ref ip maxlen len.

(** [op[-lit - 1] = lit - 1]: the control byte of the run. *)
Definition stop_run (out : bytes) (op lit : Z) : option bytes := mstore out (op - lit - 1) [u8 (lit - 1)].

(** [*op++ = b] *)
Definition put (ob : bytes * Z) (b : Z) : option (bytes * Z) :=
  let '(out, op) := ob in out ← mstore out op [u8 b]; Some (out, op + 1).

(** A back reference: the bytes written. *)
Definition put_ref (ob : bytes * Z) (off len : Z) : option (bytes * Z) :=
  ob ← (if len <? 7 then put ob (Z.shiftr off 8 + Z.shiftl len 5)
        else ob ← put ob (Z.shiftr off 8 + Z.shiftl 7 5); put ob (len - 7));
  put ob off.

(** One literal byte, closing the run when it is full. *)
Definition put_literal (s : lzf_state) : option lzf_state :=
  b ← mget inp (ip s);
  let lit := lit s + 1 in
  '(out, op) ← put (out s, op s) b;
  let ip := ip s + 1 in
  if lit =? MAX_LIT then
    out ← stop_run out op lit;
    Some (mk_lzf ip (op + 1) 0 (hval s) (htab s) out)
  else Some (mk_lzf ip op lit (hval s) (htab s) out).

(** The outcome of an iteration: go on, leave the loop, or return 0. *)
Inductive lzf_step := Next (s : lzf_state) | Leave (s : lzf_state) | Incompressible (s : lzf_state).

(** [op[...]] of the match branch, and the two hash updates of VERY_FAST. *)
Definition take_match (s : lzf_state) (ref off : Z) : option lzf_step :=
  let undo := if lit s =? 0 then 1 else 0 in
  if (op s + 3 + 1 >=? zlen (out s)) && (op s - undo + 3 + 1 >=? zlen (out s)) then Some (Incompressible s)
  else
    out ← stop_run (out s) (op s) (lit s);
    let op := op s - undo in
    len ← match_length ref (ip s);
    let len := len - 2 in
    let ip := ip s + 1 in
    '(out, op) ← put_ref (out, op) off len;
    let op := op + 1 in
    let ip := ip + len + 1 in
    if ip >=? in_end - 2 then Some (Leave (mk_lzf ip op 0 (hval s) (htab s) out))
    else
      let ip := ip - 1 in
      let ip := ip - 1 in
      hval ← FRST inp ip;
      hval ← NEXT hval inp ip;
      let htab := <[IDX hval := u32 ip]> (htab s) in
      let ip := ip + 1 in
      hval ← NEXT hval inp ip;
      let htab := <[IDX hval := u32 ip]> htab in
      let ip := ip + 1 in
      Some (Next (mk_lzf ip op 0 hval htab out)).

Definition lzf_iteration (s : lzf_state) : option lzf_step :=
  hval ← NEXT (hval s) inp (ip s);
  let hslot := IDX hval in
  let ref := slot_at (htab s) hslot in
  let s := mk_lzf (ip s) (op s) (lit s) hval (<[hslot := u32 (ip s)]> (htab s)) (out s) in
  m ← match_at ref (ip s);
  match m with
  | Some off => take_match s ref off
  | None =>
    if op s >=? zlen (out s) then Some (Incompressible s)
    else s ← put_literal s; Some (Next s)
  end.

(** [while (ip < in_end - 2)]; [inr] for return 0. *)
Fixpoint compress_loop (fuel : nat) (s : lzf_state) : option (lzf_state + lzf_state) :=
  if ip s <? in_end - 2 then
    match fuel with
    | O => None
    | S fuel =>
      r ← lzf_iteration s;
      match r with
      | Next s => compress_loop fuel s
      | Leave s => Some (inl s)
      | Incompressible s => Some (inr s)
      end
    end
  else Some (inl s).

(** [while (ip < in_end)], for the bytes that are left. *)
Fixpoint flush_loop (fuel : nat) (s : lzf_state) : option lzf_state :=
  if ip s <? in_end then
    match fuel with
    | O => None
    | S fuel => s ← put_literal s; flush_loop fuel s
    end
  else Some s.

(** The value returned and the output buffer. *)
Definition lzf_compress (out_data : bytes) : option (Z * bytes) :=
  if (in_end =? 0) || (zlen out_data =? 0) then Some (0, out_data)
  else
    hval ← FRST inp 0;
    r ← compress_loop (length inp) (mk_lzf 0 1 0 hval ∅ out_data);
    match r with
    | inr s => Some (0, out s)
    | inl s =>
      if op s + 3 >? zlen (out s) then Some (0, out s)
      else
        s ← flush_loop (length inp) s;
        out ← stop_run (out s) (op s) (lit s);
        let op := op s - (if lit s =? 0 then 1 else 0) in
        Some (op, out)
    end.

End lzf.

(** ** Decompression *)

Inductive lzf_error := E2BIG | EINVAL.

Section lzf_d.
Context (inp : bytes).

(** [n] times [*op++ = *ip++] *)
Fixpoint copy_literals (n : nat) (ip : Z) (out : bytes) (op : Z) : option (Z * bytes * Z) :=
  match n with
  | O => Some (ip, out, op)
  | S n => b ← mget inp ip; out ← mstore out op [b]; copy_literals n (ip + 1) out (op + 1)
  end.

(** [n] times [*op++ = *ref++] *)
Fixpoint copy_octets (n : nat) (out : bytes) (op ref : Z) : option (bytes * Z) :=
  match n with
  | O => Some (out, op)
  | S n => b ← mget out ref; out ← mstore out op [b]; copy_octets n out (op + 1) (ref + 1)
  end.

(** The switch on [len]: octet by octet, or by memcpy for longer copies whose
    areas are disjoint. *)
Definition copy_back (out : bytes) (op ref len : Z) : option (bytes * Z) :=
  if len <=? 9 then copy_octets (Z.to_nat (len + 2)) out op ref
  else
    let len := len + 2 in
    if op >=? ref + len then src ← mload out ref len; out ← mstore out op src; Some (out, op + len)
    else copy_octets (Z.to_nat len) out op ref.

(** One control byte: ip, the output and op, or an error. *)
Definition decode_step (ip : Z) (out : bytes) (op : Z) : option (Z * bytes * Z + lzf_error) :=
  ctrl ← mget inp ip;
  let ip := ip + 1 in
  if ctrl <? 32 then
    let ctrl := ctrl + 1 in
    if op + ctrl >? zlen out then Some (inr E2BIG)
    else if ip + ctrl >? zlen inp then Some (inr EINVAL)
    else r ← copy_literals (Z.to_nat ctrl) ip out op; Some (inl r)
  else
    let len := Z.shiftr ctrl 5 in
    let ref := op - Z.shiftl (Z.land ctrl 31) 8 - 1 in
    if ip >=? zlen inp then Some (inr EINVAL)
    else
      let refer ip len :=
        b ← mget inp ip;
        let ip := ip + 1 in
        let ref := ref - b in
        if op + len + 2 >? zlen out then Some (inr E2BIG)
        else if ref <? 0 then Some (inr EINVAL)
        else '(out, op) ← copy_back out op ref len; Some (inl (ip, out, op)) in
      if len =? 7 then
        b ← mget inp ip;
        let ip := ip + 1 in
        if ip >=? zlen inp then Some (inr EINVAL) else refer ip (len + b)
      else refer ip len.

Fixpoint decompress_loop (fuel : nat) (ip : Z) (out : bytes) (op : Z) : option (Z + lzf_error) * bytes :=
  if ip <? zlen inp then
    match fuel with
    | O => (None, out)
    | S fuel =>
      match decode_step ip out op with
      | None => (None, out)
      | Some (inr e) => (Some (inr e), out)
      | Some (inl (ip, out, op)) => decompress_loop fuel ip out op
      end
    end
  else (Some (inl op), out).

(** The value returned (0 with errno on an error) and the output buffer. *)
Definition lzf_decompress (out_data : bytes) : option (Z + lzf_error) * bytes := decompress_loop (length inp) 0 out_data 0.

End lzf_d.

(** ** The format *)

(** A run of literals, or a copy of [len + 2] octets from [off + 1] back. *)
Inductive token := Lit (l : bytes) | Ref (off len : Z).

Definition enc (t : token) : bytes :=
  match t with
  | Lit l => (zlen l - 1) :: l
  | Ref off len =>
    if len <? 7 then [Z.shiftr off 8 + Z.shiftl len 5; u8 off] else [Z.shiftr off 8 + Z.shiftl 7 5; len - 7; u8 off]
  end.

Definition encs (ts : list token) : bytes := ts ≫= enc.

(** [n] octets copied one by one, so that the copy may overlap itself. *)
Fixpoint repeat_from (n : nat) (off : Z) (h : bytes) : bytes :=
  match n with
  | O => h
  | S n => repeat_from n off (h ++ [default 0 (h !! (Z.to_nat (zlen h - off - 1)))])
  end.

Definition expand (h : bytes) (t : token) : bytes :=
  match t with Lit l => h ++ l | Ref off len => repeat_from (Z.to_nat (len + 2)) off h end.

Definition expands (h : bytes) (ts : list token) : bytes := foldl expand h ts.

Definition token_ok (h : bytes) (t : token) : Prop :=
  match t with
  | Lit l => 1 <= zlen l <= 32 /\ Forall is_byte l
  | Ref off len => 0 <= off < 8192 /\ off < zlen h /\ 1 <= len <= 262
  end.

Fixpoint tokens_ok (h : bytes) (ts : list token) : Prop :=
  match ts with [] => True | t :: ts => token_ok h t /\ tokens_ok (expand h t) ts end.

(** ** Decompression of the format *)

Lemma length_repeat_from n off h : length (repeat_from n off h) = (length h + n)%nat.
Proof. revert h. induction n as [|n IH]; intros h; cbn [repeat_from]; [lia|]. rewrite IH, length_app. simpl. lia. Qed.

Lemma copy_octets_spec n h tail off : 0 <= off < zlen h -> (n <= length tail)%nat ->
  copy_octets n (h ++ tail) (zlen h) (zlen h - off - 1)
  = Some (repeat_from n off h ++ drop n tail, zlen h + Z.of_nat n).
Proof.
  revert h tail. induction n as [|n IH]; intros h tail Ho Hn; cbn [copy_octets repeat_from].
  { rewrite drop_0, Z.add_0_r. done. }
  destruct tail as [|x tail]; [simpl in Hn; lia|].
  destruct (lookup_lt_is_Some_2 h (Z.to_nat (zlen h - off - 1))) as [b Hb]; [unfold zlen in *; lia|].
  unfold mget. rewrite bool_decide_eq_true_2 by lia. rewrite lookup_app_l by (unfold zlen in *; lia). rewrite Hb.
  cbn [mbind option_bind default]. change (h ++ x :: tail) with (h ++ [x] ++ tail). rewrite mstore_app by done. cbn [mbind option_bind].
  rewrite app_assoc. specialize (IH (h ++ [b]) tail). rewrite zlen_app in IH. change (zlen [b]) with 1 in IH.
  replace (zlen h + 1 - off - 1) with (zlen h - off - 1 + 1) in IH by lia.
  rewrite IH; [|lia|simpl in Hn; lia]. cbn [drop]. do 2 f_equal. lia.
Qed.

(** A copy that does not reach its own output. *)
Lemma repeat_from_disjoint n off h : 0 <= off < zlen h -> Z.of_nat n <= off + 1 ->
  repeat_from n off h = h ++ take n (drop (Z.to_nat (zlen h - off - 1)) h).
Proof.
  intros Ho Hn. assert (forall k h', (k <= n)%nat -> h' = h ++ take (n - k) (drop (Z.to_nat (zlen h - off - 1)) h) ->
    repeat_from k off h' = h ++ take n (drop (Z.to_nat (zlen h - off - 1)) h)) as H.
  2:{ apply H; [lia|]. replace (n - n)%nat with 0%nat by lia. by rewrite take_0, app_nil_r. }
  induction k as [|k IH]; intros h' Hk ->; cbn [repeat_from].
  { by replace (n - 0)%nat with n by lia. }
  apply IH; [lia|]. rewrite <-app_assoc. f_equal.
  set (d := drop (Z.to_nat (zlen h - off - 1)) h). assert (length d = Z.to_nat (off + 1)) as Hd by (unfold d, zlen in *; rewrite length_drop; lia).
  destruct (lookup_lt_is_Some_2 d (n - S k)%nat) as [b Hb]; [lia|].
  replace (n - k)%nat with (S (n - S k)) by lia. rewrite (take_S_r _ _ b) by done. do 2 f_equal.
  rewrite zlen_app. unfold zlen in *. rewrite length_take, Hd. rewrite lookup_app_l by lia.
  unfold d in Hb. rewrite lookup_drop in Hb.
  replace (Z.to_nat _) with (Z.to_nat (Z.of_nat (length h) - off - 1) + (n - S k))%nat by lia. by rewrite Hb.
Qed.

Lemma copy_back_spec h tail off len : 0 <= off < zlen h -> 0 <= len -> len + 2 <= zlen tail ->
  copy_back (h ++ tail) (zlen h) (zlen h - off - 1) len
  = Some (repeat_from (Z.to_nat (len + 2)) off h ++ drop (Z.to_nat (len + 2)) tail, zlen h + (len + 2)).
Proof.
  intros Ho Hl Ht. assert (copy_octets (Z.to_nat (len + 2)) (h ++ tail) (zlen h) (zlen h - off - 1)
    = Some (repeat_from (Z.to_nat (len + 2)) off h ++ drop (Z.to_nat (len + 2)) tail, zlen h + (len + 2))) as E.
  { rewrite copy_octets_spec by (unfold zlen in *; lia). do 2 f_equal. lia. }
  unfold copy_back. destruct (Z.leb_spec len 9); [done|]. destruct (Z.geb_spec (zlen h) (zlen h - off - 1 + (len + 2))) as [Hge|]; [|done].
  rewrite repeat_from_disjoint by lia. set (p := Z.to_nat (zlen h - off - 1)). set (n := Z.to_nat (len + 2)).
  assert (length (take n (drop p h)) = n) as Hn by (rewrite length_take, length_drop; unfold p, n, zlen in *; lia).
  assert (mload (h ++ tail) (zlen h - off - 1) (len + 2) = Some (take n (drop p h))) as ->.
  { unfold mload. rewrite bool_decide_eq_true_2 by (rewrite zlen_app; lia). fold p n.
    rewrite drop_app_le, take_app_le by (rewrite ?length_drop; unfold p, n, zlen in *; lia). done. }
  cbn [mbind option_bind]. rewrite <-(take_drop n tail) at 1. rewrite mstore_app; [|done|].
  - cbn [mbind option_bind]. by rewrite <-app_assoc.
  - rewrite Hn, length_take. unfold n, zlen in *. lia.
Qed.

Lemma copy_literals_spec a l c h tail : length tail = length l ->
  forall rest, copy_literals (a ++ l ++ c) (length l) (zlen a) (h ++ tail ++ rest) (zlen h)
  = Some (zlen a + zlen l, h ++ l ++ rest, zlen h + zlen l).
Proof.
  revert a h tail. induction l as [|b l IH]; intros a h tail Hl rest.
  { destruct tail; [|done]. cbn. rewrite !Z.add_0_r. done. }
  destruct tail as [|x tail]; [done|]. injection Hl as Hl. cbn [length copy_literals app].
  rewrite mget_app by done. cbn [mbind option_bind]. change (h ++ x :: tail ++ rest) with (h ++ [x] ++ tail ++ rest).
  rewrite mstore_app by done. cbn [mbind option_bind]. rewrite (app_assoc h).
  specialize (IH (a ++ [b]) (h ++ [b]) tail Hl rest). rewrite !zlen_app, <-app_assoc in IH. change (zlen [b]) with 1 in IH.
  cbn [app] in IH. rewrite IH, zlen_cons, <-!app_assoc. cbn [app]. f_equal. f_equal; [f_equal|]; lia.
Qed.

(** What the first byte of a back reference says. *)
Lemma ctrl_bits off len : 0 <= off < 8192 -> 0 <= len <= 7 ->
  let ctrl := Z.shiftr off 8 + Z.shiftl len 5 in
  Z.shiftr ctrl 5 = len /\ Z.shiftl (Z.land ctrl 31) 8 + u8 off = off.
Proof.
  intros Ho Hl ctrl. subst ctrl. rewrite !Z.shiftr_div_pow2, !Z.shiftl_mul_pow2 by lia.
  change (2 ^ 8) with 256. change (2 ^ 5) with 32. assert (0 <= off / 256 < 32) as Hd by lia_div.
  rewrite Z.div_add, (Z.div_small (off / 256)) by lia. split; [lia|].
  change 31 with (2 ^ 5 - 1). rewrite land_low by lia. change (2 ^ 5) with 32. rewrite Z.mod_add, Z.mod_small by lia.
  unfold uint. change (2 ^ 8) with 256. lia_div.
Qed.

(** The output buffer: the bytes produced so far, then the old content. *)
Definition filled_with (buf h : bytes) : bytes := h ++ drop (length h) buf.

(** A run of literals. *)
Lemma decode_literals a l c h buf : 1 <= zlen l <= 32 -> zlen (h ++ l) <= zlen buf ->
  decode_step (a ++ enc (Lit l) ++ c) (zlen a) (filled_with buf h) (zlen h)
  = Some (inl (zlen (a ++ enc (Lit l)), filled_with buf (h ++ l), zlen (h ++ l))).
Proof.
  intros Hl Hfit. unfold decode_step, filled_with. cbn [enc].
  rewrite zlen_app in Hfit. cbn [app]. rewrite (mget_app a (zlen l - 1) (l ++ c) (zlen a)) by done. cbn [mbind option_bind].
  rewrite (proj2 (Z.ltb_lt (zlen l - 1) 32)) by lia. replace (zlen l - 1 + 1) with (zlen l) by lia.
  assert (length (drop (length h) buf) = length buf - length h)%nat as Hd by apply length_drop.
  rewrite (Z.gtb_ltb (zlen h + zlen l)), (proj2 (Z.ltb_ge _ _)) by (rewrite zlen_app; unfold zlen in *; lia).
  rewrite (Z.gtb_ltb (zlen a + 1 + zlen l)), (proj2 (Z.ltb_ge _ _))
    by (rewrite zlen_app, zlen_cons, zlen_app; pose proof (zlen_nonneg c); lia).
  replace (Z.to_nat (zlen l)) with (length l) by (unfold zlen; lia).
  pose proof (copy_literals_spec (a ++ [zlen l - 1]) l c h (take (length l) (drop (length h) buf))) as E.
  specialize (E ltac:(rewrite length_take; unfold zlen in *; lia) (drop (length l) (drop (length h) buf))).
  rewrite take_drop, <-app_assoc, zlen_app in E. cbn [app] in E. change (zlen [zlen l - 1]) with 1 in E. rewrite E.
  cbn [mbind option_bind]. rewrite drop_drop, length_app, (zlen_app a), zlen_cons, zlen_app, <-app_assoc. do 4 f_equal. lia.
Qed.

(** A back reference. *)
Lemma decode_reference a off len c h buf : 0 <= off < 8192 -> off < zlen h -> 1 <= len <= 262 ->
  zlen (expand h (Ref off len)) <= zlen buf ->
  decode_step (a ++ enc (Ref off len) ++ c) (zlen a) (filled_with buf h) (zlen h)
  = Some (inl (zlen (a ++ enc (Ref off len)), filled_with buf (expand h (Ref off len)), zlen (expand h (Ref off len)))).
Proof.
  intros Ho Hh Hlen Hfit. unfold decode_step, filled_with. cbn [enc expand] in *.
  pose proof (length_repeat_from (Z.to_nat (len + 2)) off h) as Hr.
  assert (zlen h + len + 2 <= zlen buf) as Hroom by (unfold zlen in *; lia).
  assert (forall ip k, k = len -> (if zlen h + k + 2 >? zlen (h ++ drop (length h) buf) then Some (inr E2BIG)
    else if zlen h - off - 1 <? 0 then Some (inr EINVAL)
    else '(out, op) ← copy_back (h ++ drop (length h) buf) (zlen h) (zlen h - off - 1) k; Some (inl (ip, out, op)))
    = Some (inl (ip, repeat_from (Z.to_nat (len + 2)) off h ++ drop (length (repeat_from (Z.to_nat (len + 2)) off h)) buf,
                 zlen (repeat_from (Z.to_nat (len + 2)) off h))) :> option (Z * bytes * Z + lzf_error)) as Hcopy.
  { intros ip k ->. rewrite Z.gtb_ltb, (proj2 (Z.ltb_ge _ _)) by (rewrite zlen_app; unfold zlen in *; rewrite length_drop; lia).
    rewrite (proj2 (Z.ltb_ge _ 0)) by lia. rewrite copy_back_spec by (unfold zlen in *; rewrite ?length_drop; lia).
    cbn [mbind option_bind]. rewrite drop_drop, Hr. unfold zlen. rewrite Hr. do 3 f_equal. lia. }
  destruct (Z.ltb_spec len 7).
  + destruct (ctrl_bits off len) as [E1 E2]; [lia|lia|]. set (ctrl := Z.shiftr off 8 + Z.shiftl len 5) in *. cbn [app].
    rewrite (mget_app a ctrl (u8 off :: c) (zlen a)) by done. cbn [mbind option_bind]. rewrite E1.
    assert (32 <= ctrl) as Hc by (unfold ctrl; rewrite Z.shiftr_div_pow2, Z.shiftl_mul_pow2 by lia; change (2 ^ 5) with 32; lia_div).
    rewrite (proj2 (Z.ltb_ge ctrl 32)) by done. rewrite Z.geb_leb, (proj2 (Z.leb_gt _ _))
      by (rewrite zlen_app, !zlen_cons; pose proof (zlen_nonneg c); lia).
    rewrite (proj2 (Z.eqb_neq len 7)) by lia.
    pose proof (mget_app (a ++ [ctrl]) (u8 off) c (zlen a + 1) ltac:(by rewrite zlen_app)) as Eg. rewrite <-app_assoc in Eg. cbn [app] in Eg.
    rewrite Eg. cbn [mbind option_bind]. replace (zlen h - Z.shiftl (Z.land ctrl 31) 8 - 1 - u8 off) with (zlen h - off - 1) by lia.
    rewrite Hcopy by done. rewrite zlen_app. change (zlen [ctrl; u8 off]) with 2. do 4 f_equal. lia.
  + destruct (ctrl_bits off 7) as [E1 E2]; [lia|lia|]. set (ctrl := Z.shiftr off 8 + Z.shiftl 7 5) in *. cbn [app].
    rewrite (mget_app a ctrl (len - 7 :: u8 off :: c) (zlen a)) by done. cbn [mbind option_bind]. rewrite E1.
    assert (32 <= ctrl) as Hc by (unfold ctrl; rewrite Z.shiftr_div_pow2 by lia; change (Z.shiftl 7 5) with 224; lia_div).
    rewrite (proj2 (Z.ltb_ge ctrl 32)) by done. pose proof (zlen_nonneg c).
    rewrite !Z.geb_leb, !(proj2 (Z.leb_gt _ _)) by (rewrite zlen_app, !zlen_cons; lia). cbn [Z.eqb Pos.eqb].
    pose proof (mget_app (a ++ [ctrl]) (len - 7) (u8 off :: c) (zlen a + 1) ltac:(by rewrite zlen_app)) as Eg. rewrite <-app_assoc in Eg. cbn [app] in Eg.
    pose proof (mget_app (a ++ [ctrl; len - 7]) (u8 off) c (zlen a + 1 + 1) ltac:(rewrite zlen_app; change (zlen [ctrl; len - 7]) with 2; lia)) as Eh.
    rewrite <-app_assoc in Eh. cbn [app] in Eh.
    rewrite Eg. cbn [mbind option_bind]. rewrite Eh. cbn [mbind option_bind].
    replace (zlen h - Z.shiftl (Z.land ctrl 31) 8 - 1 - u8 off) with (zlen h - off - 1) by lia.
    rewrite Hcopy by lia. rewrite zlen_app. change (zlen [ctrl; len - 7; u8 off]) with 3. do 4 f_equal. lia.
Qed.

Lemma decode_step_token a t c h buf : token_ok h t -> zlen (expand h t) <= zlen buf ->
  decode_step (a ++ enc t ++ c) (zlen a) (filled_with buf h) (zlen h)
  = Some (inl (zlen (a ++ enc t), filled_with buf (expand h t), zlen (expand h t))).
Proof.
  intros Ht Hfit. destruct t as [l|off len]; [apply decode_literals; [apply Ht|done]|].
  destruct Ht as (? & ? & ?). by apply decode_reference.
Qed.

Lemma enc_nonempty t : (1 <= length (enc t))%nat.
Proof. destruct t as [l|off len]; simpl; [lia|]. destruct (len <? 7); simpl; lia. Qed.

Lemma zlen_expand_ge h t : zlen h <= zlen (expand h t).
Proof.
  destruct t as [l|off len]; cbn [expand]; [rewrite zlen_app; pose proof (zlen_nonneg l); lia|].
  unfold zlen. rewrite length_repeat_from. lia.
Qed.

Lemma zlen_expands_ge ts h : zlen h <= zlen (expands h ts).
Proof.
  revert h. induction ts as [|t ts IH]; intros h; [simpl; lia|]. cbn [expands foldl].
  pose proof (zlen_expand_ge h t). specialize (IH (expand h t)). unfold expands in IH. lia.
Qed.

Lemma decompress_loop_tokens ts a h buf fuel : tokens_ok h ts -> zlen (expands h ts) <= zlen buf -> (length (encs ts) <= fuel)%nat ->
  decompress_loop (a ++ encs ts) fuel (zlen a) (filled_with buf h) (zlen h)
  = (Some (inl (zlen (expands h ts))), filled_with buf (expands h ts)).
Proof.
  revert a h fuel. induction ts as [|t ts IH]; intros a h fuel Hok Hfit Hf.
  { cbn [encs mbind list_bind expands foldl]. rewrite app_nil_r. destruct fuel; cbn [decompress_loop]; rewrite Z.ltb_irrefl; done. }
  destruct Hok as [Ht Hok]. cbn [encs mbind list_bind] in *. fold (encs ts) in *. pose proof (enc_nonempty t) as Hne.
  rewrite length_app in Hf. destruct fuel as [|fuel]; [lia|]. cbn [decompress_loop].
  rewrite (proj2 (Z.ltb_lt _ _)) by (rewrite !zlen_app; unfold zlen; lia).
  cbn [expands foldl] in *. change (foldl expand (expand h t) ts) with (expands (expand h t) ts) in *.
  pose proof (zlen_expands_ge ts (expand h t)).
  rewrite decode_step_token by (done || lia). rewrite app_assoc. apply IH; [done..|lia].
Qed.

(** What a stream of tokens decompresses to. *)
Lemma lzf_decompress_tokens ts buf : tokens_ok [] ts -> zlen (expands [] ts) <= zlen buf ->
  lzf_decompress (encs ts) buf = (Some (inl (zlen (expands [] ts))), filled_with buf (expands [] ts)).
Proof. intros Hok Hfit. unfold lzf_decompress. by apply (decompress_loop_tokens ts [] []). Qed.

(** ** Any input is decompressed inside the buffers *)

Lemma mget_in (m : bytes) p : 0 <= p < zlen m -> exists b, mget m p = Some b /\ (Forall is_byte m -> is_byte b).
Proof.
  intros Hp. unfold zlen in Hp. destruct (lookup_lt_is_Some_2 m (Z.to_nat p)) as [b Hb]; [lia|]. exists b.
  unfold mget. rewrite bool_decide_eq_true_2 by lia. split; [done|]. intros H. by eapply Forall_lookup_1.
Qed.

Lemma mstore_in (m : bytes) p l : 0 <= p -> p + zlen l <= zlen m -> exists m', mstore m p l = Some m' /\ zlen m' = zlen m.
Proof.
  intros H0 H. unfold mstore. rewrite bool_decide_eq_true_2 by done. eexists. split; [done|].
  unfold zlen in *. rewrite !length_app, length_take, length_drop. lia.
Qed.

Lemma copy_literals_in inp n ip out op : 0 <= ip -> ip + Z.of_nat n <= zlen inp -> 0 <= op -> op + Z.of_nat n <= zlen out ->
  exists out', copy_literals inp n ip out op = Some (ip + Z.of_nat n, out', op + Z.of_nat n) /\ zlen out' = zlen out.
Proof.
  revert ip out op. induction n as [|n IH]; intros ip out op Hi Hin Ho Hon; cbn [copy_literals].
  { exists out. rewrite !Z.add_0_r. done. }
  destruct (mget_in inp ip) as (b & -> & _); [lia|]. cbn [mbind option_bind].
  destruct (mstore_in out op [b]) as (out1 & -> & Hl); [lia|change (zlen [b]) with 1; lia|]. cbn [mbind option_bind].
  destruct (IH (ip + 1) out1 (op + 1)) as (out2 & -> & Hl2); [lia..|]. exists out2. split; [f_equal; f_equal; [f_equal|]; lia|lia].
Qed.

Lemma copy_octets_in n out op ref : 0 <= ref < op -> op + Z.of_nat n <= zlen out ->
  exists out', copy_octets n out op ref = Some (out', op + Z.of_nat n) /\ zlen out' = zlen out.
Proof.
  revert out op ref. induction n as [|n IH]; intros out op ref Hr Ho; cbn [copy_octets].
  { exists out. rewrite Z.add_0_r. done. }
  destruct (mget_in out ref) as (b & -> & _); [lia|]. cbn [mbind option_bind].
  destruct (mstore_in out op [b]) as (out1 & -> & Hl); [lia|change (zlen [b]) with 1; lia|]. cbn [mbind option_bind].
  destruct (IH out1 (op + 1) (ref + 1)) as (out2 & -> & Hl2); [lia..|]. exists out2. split; [f_equal; f_equal; lia|lia].
Qed.

Lemma copy_back_in out op ref len : 0 <= ref < op -> 0 <= len -> op + len + 2 <= zlen out ->
  exists out', copy_back out op ref len = Some (out', op + len + 2) /\ zlen out' = zlen out.
Proof.
  intros Hr Hl Ho. unfold copy_back.
  assert (exists out', copy_octets (Z.to_nat (len + 2)) out op ref = Some (out', op + len + 2) /\ zlen out' = zlen out) as Hoct.
  { destruct (copy_octets_in (Z.to_nat (len + 2)) out op ref) as (out' & -> & E); [lia..|]. exists out'. split; [f_equal; f_equal; lia|done]. }
  destruct (len <=? 9); [done|]. destruct (Z.geb_spec op (ref + (len + 2))) as [Hge|]; [|done].
  destruct (mload out ref (len + 2)) as [src|] eqn:El.
  2:{ unfold mload in El. rewrite bool_decide_eq_true_2 in El by lia. done. }
  apply mload_Some in El as (x & y & _ & _ & El). cbn [mbind option_bind].
  destruct (mstore_in out op src) as (out' & -> & E); [lia|lia|]. cbn [mbind option_bind]. exists out'. split; [f_equal; f_equal; lia|done].
Qed.

(** One step stays in the buffers and consumes input. *)
Definition step_in (inp : bytes) (ip : Z) (out : bytes) (op : Z) (r : option (Z * bytes * Z + lzf_error)) : Prop :=
  exists e, r = Some e /\
    match e with
    | inr _ => True
    | inl (ip', out', op') => ip < ip' <= zlen inp /\ op <= op' <= zlen out /\ zlen out' = zlen out
    end.

Lemma decode_step_in inp ip out op : Forall is_byte inp -> 0 <= ip < zlen inp -> 0 <= op <= zlen out ->
  step_in inp ip out op (decode_step inp ip out op).
Proof.
  intros Hb Hi Ho. unfold decode_step, step_in. destruct (mget_in inp ip Hi) as (ctrl & -> & Hc). specialize (Hc Hb). unfold is_byte in Hc.
  cbn [mbind option_bind]. destruct (Z.ltb_spec ctrl 32).
  - destruct (Z.gtb_spec (op + (ctrl + 1)) (zlen out)); [by eexists|].
    destruct (Z.gtb_spec (ip + 1 + (ctrl + 1)) (zlen inp)); [by eexists|].
    destruct (copy_literals_in inp (Z.to_nat (ctrl + 1)) (ip + 1) out op) as (out' & -> & E); [lia..|]. cbn [mbind option_bind].
    eexists. split; [done|]. cbn. lia.
  - assert (0 <= Z.shiftl (Z.land ctrl 31) 8) as Hs.
    { apply Z.shiftl_nonneg, Z.land_nonneg. lia. }
    assert (0 <= Z.shiftr ctrl 5) as Hl by (apply Z.shiftr_nonneg; lia).
    assert (forall ip' len, ip < ip' < zlen inp -> 0 <= len -> exists e,
      (b ← mget inp ip'; if op + len + 2 >? zlen out then Some (inr E2BIG)
        else if op - Z.shiftl (Z.land ctrl 31) 8 - 1 - b <? 0 then Some (inr EINVAL)
        else '(out, op) ← copy_back out op (op - Z.shiftl (Z.land ctrl 31) 8 - 1 - b) len; Some (inl (ip' + 1, out, op))) = Some e /\
      match e with
      | inr _ => True
      | inl (ip', out', op') => ip < ip' <= zlen inp /\ op <= op' <= zlen out /\ zlen out' = zlen out
      end) as Hrefer.
    { intros ip' len Hip Hlen. destruct (mget_in inp ip') as (b & -> & Hbb); [lia|]. specialize (Hbb Hb). unfold is_byte in Hbb. cbn [mbind option_bind].
      destruct (Z.gtb_spec (op + len + 2) (zlen out)); [by eexists|]. destruct (Z.ltb_spec (op - Z.shiftl (Z.land ctrl 31) 8 - 1 - b) 0); [by eexists|].
      destruct (copy_back_in out op (op - Z.shiftl (Z.land ctrl 31) 8 - 1 - b) len) as (out' & -> & E); [lia..|]. cbn [mbind option_bind].
      eexists. split; [done|]. cbn. lia. }
    destruct (Z.geb_spec (ip + 1) (zlen inp)); [by eexists|]. destruct (Z.shiftr ctrl 5 =? 7); [|apply Hrefer; lia].
    destruct (mget_in inp (ip + 1)) as (b & -> & Hbb); [lia|]. specialize (Hbb Hb). unfold is_byte in Hbb. cbn [mbind option_bind].
    destruct (Z.geb_spec (ip + 1 + 1) (zlen inp)); [by eexists|]. apply Hrefer; lia.
Qed.

Lemma decompress_loop_in inp fuel ip out op : Forall is_byte inp -> 0 <= ip -> 0 <= op <= zlen out -> zlen inp - ip <= Z.of_nat fuel ->
  exists r out', decompress_loop inp fuel ip out op = (Some r, out') /\ zlen out' = zlen out /\
    match r with inl n => op <= n <= zlen out | inr _ => True end.
Proof.
  intros Hb. revert ip out op. induction fuel as [|fuel IH]; intros ip out op Hi Ho Hf; cbn [decompress_loop].
  all: destruct (Z.ltb_spec ip (zlen inp)); [|exists (inl op), out; split_and!; done || lia].
  { lia. }
  destruct (decode_step_in inp ip out op Hb) as (e & -> & He); [lia|lia|]. destruct e as [[[ip' out1] op']|e].
  - destruct He as (H1 & H2 & H3). destruct (IH ip' out1 op') as (r & out2 & -> & E & Hr); [lia..|].
    exists r, out2. split; [done|]. split; [lia|]. destruct r; [lia|done].
  - by exists (inr e), out.
Qed.

(** lzf_decompress is safe on any input: whatever the bytes, also of a
    corrupt file, it terminates, reads and writes nothing outside the two
    buffers, and returns either an error or the number of bytes produced, at
    most the size of the output buffer. *)
Theorem lzf_decompress_safe inp buf : Forall is_byte inp ->
  exists r out', lzf_decompress inp buf = (Some r, out') /\ zlen out' = zlen buf /\
    match r with inl n => 0 <= n <= zlen buf | inr _ => True end.
Proof.
  intros Hb. unfold lzf_decompress. apply decompress_loop_in; [done|lia|pose proof (zlen_nonneg buf); lia|unfold zlen; lia].
Qed.

(** ** Matches *)

Section compression.
Context (garbage : Z -> Z) (inp : bytes).

(** The [n] bytes at [ref] and at [ip] are the same. *)
Definition agree (ref ip n : Z) : Prop := forall k, 0 <= k < n -> mget inp (ref + k) = mget inp (ip + k).

Lemma agree_S ref ip n : agree ref ip n -> mget inp (ref + n) = mget inp (ip + n) -> agree ref ip (n + 1).
Proof. intros H E k Hk. destruct (decide (k = n)) as [->|]; [done|]. apply H. lia. Qed.

Lemma agree_le ref ip n m : agree ref ip n -> m <= n -> agree ref ip m.
Proof. intros H Hm k Hk. apply H. lia. Qed.

Lemma unrolled_spec n ref ip len : 0 <= ref < ip -> 0 <= len -> ip + len + Z.of_nat n < zlen inp -> agree ref ip (len + 1) ->
  exists len' stop, unrolled inp n ref ip len = Some (len', stop) /\ len <= len' <= len + Z.of_nat n /\
    if stop : bool then len < len' /\ agree ref ip len' else len' = len + Z.of_nat n /\ agree ref ip (len' + 1).
Proof.
  intros Hr. revert len. induction n as [|n IH]; intros len Hl Hn Ha; cbn [unrolled].
  { exists len, false. split; [done|]. split; [lia|]. split; [lia|done]. }
  destruct (mget_in inp (ref + (len + 1))) as (r & Er & _); [lia|]. destruct (mget_in inp (ip + (len + 1))) as (i & Ei & _); [lia|].
  rewrite Er, Ei. cbn [mbind option_bind]. destruct (Z.eqb_spec r i) as [->|]; cbn [negb].
  - destruct (IH (len + 1)) as (len' & stop & -> & Hb & Hs); [lia|lia|apply agree_S; [done|by rewrite Er, Ei]|].
    exists len', stop. split; [done|]. split; [lia|]. destruct stop; [split; [lia|apply Hs]|]. split; [lia|apply Hs].
  - exists (len + 1), true. split; [done|]. split; [lia|]. split; [lia|done].
Qed.

Lemma extend_spec fuel ref ip maxlen len : 0 <= ref < ip -> 0 <= len -> ip + maxlen <= zlen inp -> agree ref ip (len + 1) ->
  maxlen - len <= Z.of_nat fuel -> (0 < fuel)%nat ->
  exists len', extend inp fuel ref ip maxlen len = Some len' /\ len < len' <= Z.max (len + 1) maxlen /\ agree ref ip len'.
Proof.
  intros Hr. revert len. induction fuel as [|fuel IH]; intros len Hl Hn Ha Hf Hf0; [lia|]. cbn [extend].
  destruct (Z.ltb_spec (len + 1) maxlen) as [Hlt|Hge]; [|exists (len + 1); split; [done|]; split; [lia|done]].
  destruct (mget_in inp (ref + (len + 1))) as (r & Er & _); [lia|]. destruct (mget_in inp (ip + (len + 1))) as (i & Ei & _); [lia|].
  rewrite Er, Ei. cbn [mbind option_bind]. destruct (Z.eqb_spec r i) as [->|]; [|exists (len + 1); split; [done|]; split; [lia|done]].
  destruct (IH (len + 1)) as (len' & -> & Hb & Ha'); [lia|lia|apply agree_S; [done|by rewrite Er, Ei]|lia|lia|].
  exists len'. split; [done|]. split; [lia|done].
Qed.

Lemma match_length_spec ref ip : 0 <= ref < ip -> ip < zlen inp - 2 -> zlen inp < 2 ^ 32 -> agree ref ip 3 ->
  exists len, match_length inp ref ip = Some len /\ 3 <= len <= 264 /\ ip + len <= zlen inp /\ agree ref ip len.
Proof.
  intros Hr Hi Hin Ha. unfold match_length. rewrite (uint_small 32) by lia. set (m0 := zlen inp - ip - 2).
  set (maxlen := if m0 >? MAX_REF then MAX_REF else m0).
  assert (1 <= maxlen <= 264 /\ maxlen <= m0) as [Hm Hm0].
  { unfold maxlen. change MAX_REF with 264. destruct (Z.gtb_spec m0 264); unfold m0 in *; lia. }
  unfold m0 in Hm0. destruct (Z.gtb_spec maxlen 16) as [Hgt|Hle].
  - destruct (unrolled_spec 16 ref ip 2) as (len & stop & -> & Hb & Hs); [lia|lia|lia|done|]. cbn [mbind option_bind]. destruct stop.
    + exists len. split; [done|]. split; [lia|]. split; [lia|apply Hs].
    + destruct Hs as [-> Ha']. destruct (extend_spec (Z.to_nat maxlen) ref ip maxlen (2 + Z.of_nat 16)) as (len & -> & Hb' & Ha''); [lia|lia|lia|done|lia|lia|].
      exists len. split; [done|]. split; [lia|]. split; [lia|done].
  - cbn [mbind option_bind]. destruct (extend_spec (Z.to_nat maxlen) ref ip maxlen 2) as (len & -> & Hb' & Ha''); [lia|lia|lia|done|lia|lia|].
    exists len. split; [done|]. split; [lia|]. split; [lia|done].
Qed.

(** Copying a match yields the input. *)
Lemma repeat_from_agree n ref ip : 0 <= ref < ip -> ip + Z.of_nat n <= zlen inp -> agree ref ip (Z.of_nat n) ->
  repeat_from n (ip - ref - 1) (take (Z.to_nat ip) inp) = take (Z.to_nat (ip + Z.of_nat n)) inp.
Proof.
  revert ref ip. induction n as [|n IH]; intros ref ip Hr Hn Ha; cbn [repeat_from]; [by rewrite Z.add_0_r|].
  assert (zlen (take (Z.to_nat ip) inp) = ip) as El by (unfold zlen in *; rewrite length_take; lia). rewrite El.
  replace (ip - (ip - ref - 1) - 1) with ref by lia. rewrite lookup_take_lt by lia.
  pose proof (Ha 0 ltac:(lia)) as E. rewrite !Z.add_0_r in E. unfold mget in E. rewrite !bool_decide_eq_true_2 in E by lia. rewrite E.
  destruct (lookup_lt_is_Some_2 inp (Z.to_nat ip)) as [b Hb]; [unfold zlen in *; lia|]. rewrite Hb. change (default 0 (Some b)) with b.
  rewrite <-(take_S_r inp (Z.to_nat ip) b) by done. replace (S (Z.to_nat ip)) with (Z.to_nat (ip + 1)) by lia.
  replace (ip - ref - 1) with (ip + 1 - (ref + 1) - 1) by lia. rewrite IH; [f_equal; lia|lia|lia|].
  intros k Hk. replace (ref + 1 + k) with (ref + (k + 1)) by lia. replace (ip + 1 + k) with (ip + (k + 1)) by lia. apply Ha. lia.
Qed.

Lemma match_at_spec ref ip : in_u 32 ref -> 0 <= ip < zlen inp - 2 -> zlen inp < 2 ^ 32 ->
  exists m, match_at inp ref ip = Some m /\
    match m with None => True | Some off => off = ip - ref - 1 /\ off < 8192 /\ 0 < ref < ip /\ agree ref ip 3 end.
Proof.
  intros Hr Hi Hin. unfold match_at. change MAX_OFF with 8192.
  destruct (Z.ltb_spec (u64 (ip - ref - 1)) 8192) as [Hoff|]; cbn [negb]; [|by exists None].
  destruct (Z.gtb_spec ref 0) as [Hpos|]; cbn [negb]; [|by exists None].
  assert (ref < ip) as Hlt.
  { destruct (decide (ref < ip)); [done|]. exfalso. revert Hoff. unfold uint.
    rewrite <-(Z.mod_unique (ip - ref - 1) (2 ^ 64) (-1) (2 ^ 64 + (ip - ref - 1))); lia. }
  rewrite uint_small by lia. rewrite uint_small in Hoff by lia.
  destruct (mget_in inp (ref + 2)) as (r2 & Er2 & _); [lia|]. destruct (mget_in inp (ip + 2)) as (i2 & Ei2 & _); [lia|].
  rewrite Er2, Ei2. cbn [mbind option_bind]. destruct (Z.eqb_spec r2 i2) as [->|]; cbn [negb]; [|by exists None].
  unfold mload. rewrite !bool_decide_eq_true_2 by lia. cbn [mbind option_bind].
  case_bool_decide as Eq; [|by exists None]. exists (Some (ip - ref - 1)). split; [done|]. split; [done|]. split; [done|]. split; [lia|].
  intros k Hk. destruct (decide (k = 2)) as [->|]; [by rewrite Er2, Ei2|].
  unfold mget. rewrite !bool_decide_eq_true_2 by lia.
  apply (f_equal (fun l => l !! Z.to_nat k)) in Eq. rewrite !lookup_take_lt, !lookup_drop in Eq by lia.
  replace (Z.to_nat (ref + k)) with (Z.to_nat ref + Z.to_nat k)%nat by lia.
  replace (Z.to_nat (ip + k)) with (Z.to_nat ip + Z.to_nat k)%nat by lia. done.
Qed.


(** ** The invariant of compression *)

Context (inp_bytes : Forall is_byte inp) (inp_len : 2 <= zlen inp < 2 ^ 32) (garbage_ok : forall i, in_u 32 (garbage i)).

Definition htab_ok (t : gmap Z Z) : Prop := forall i v, t !! i = Some v -> in_u 32 v.

(** [N] is the size of the output buffer.  The tokens [ts] are written, [L] is
    the open run of literals behind its control byte; the control byte may lie
    just outside the buffer when nothing follows it. *)
Record comp_inv (N : Z) (s : lzf_state) (ts : list token) (L : bytes) : Prop := {
  inv_out : exists R, out s = encs ts ++ R /\ (R = [] /\ L = [] \/ exists x rest, R = x :: L ++ rest);
  inv_size : zlen (out s) = N;
  inv_tokens : tokens_ok [] ts;
  inv_input : expands [] ts ++ L = take (Z.to_nat (ip s)) inp;
  inv_ip : 0 <= ip s <= zlen inp;
  inv_lit : zlen L = lit s /\ lit s < 32;
  inv_op : op s = zlen (encs ts) + 1 + lit s;
  inv_ratio : 32 * zlen (encs ts) <= 33 * (ip s - lit s);
  inv_htab : htab_ok (htab s) }.

Lemma encs_snoc ts t : encs (ts ++ [t]) = encs ts ++ enc t.
Proof. unfold encs. rewrite bind_app. cbn [mbind list_bind]. by rewrite app_nil_r. Qed.

Lemma expands_snoc h ts t : expands h (ts ++ [t]) = expand (expands h ts) t.
Proof. unfold expands. by rewrite foldl_app. Qed.

Lemma tokens_ok_snoc ts t h : tokens_ok h ts -> token_ok (expands h ts) t -> tokens_ok h (ts ++ [t]).
Proof.
  revert h. induction ts as [|u ts IH]; intros h H Ht; cbn [app tokens_ok] in *; [done|].
  destruct H as [Hu H]. split; [done|]. by apply IH.
Qed.

Lemma run_bytes ts L n : expands [] ts ++ L = take n inp -> Forall is_byte L.
Proof.
  intros E. assert (Forall is_byte (expands [] ts ++ L)) as H by (rewrite E; by apply Forall_take). by apply Forall_app in H as [_ H].
Qed.

Lemma input_length ts L n : 0 <= n <= zlen inp -> expands [] ts ++ L = take (Z.to_nat n) inp -> zlen (expands [] ts) = n - zlen L.
Proof.
  intros Hn E. apply (f_equal zlen) in E. rewrite zlen_app, zlen_take_min in E. lia.
Qed.

(** Closing the run [L]: its control byte is written. *)
Lemma close_run ts x L rest : 1 <= zlen L <= 32 ->
  stop_run (encs ts ++ x :: L ++ rest) (zlen (encs ts) + 1 + zlen L) (zlen L) = Some (encs (ts ++ [Lit L]) ++ rest).
Proof.
  intros HL. unfold stop_run. change (encs ts ++ x :: L ++ rest) with (encs ts ++ [x] ++ L ++ rest).
  rewrite mstore_app by (done || lia). rewrite encs_snoc, <-app_assoc. cbn [enc app]. rewrite uint_small by lia. done.
Qed.

Lemma literal_ok ts L n : expands [] ts ++ L = take n inp -> 1 <= zlen L <= 32 -> token_ok (expands [] ts) (Lit L).
Proof. intros E HL. split; [done|]. by eapply run_bytes. Qed.

Lemma put_literal_spec N s ts L : comp_inv N s ts L -> op s < N -> ip s < zlen inp ->
  exists s' ts' L', put_literal inp s = Some s' /\ comp_inv N s' ts' L' /\ ip s' = ip s + 1 /\
    op s' = op s + (if lit s =? 31 then 2 else 1) /\ lit s' = (if lit s =? 31 then 0 else lit s + 1).
Proof.
  intros [Hout Hsize Htok Hin Hip [HL Hlit] Hop Hratio Hht] Hroom Hlt. unfold put_literal.
  destruct (mget_in inp (ip s)) as (b & Hb & Hbyte); [lia|]. specialize (Hbyte inp_bytes).
  rewrite Hb. cbn [mbind option_bind]. pose proof (zlen_nonneg L) as HL0.
  destruct Hout as (R & Hout & HR). assert (exists x y rest, R = x :: L ++ y :: rest) as (x & y & rest & ->).
  { rewrite Hout, zlen_app in Hsize. destruct HR as [[-> ->]|(x & [|y rest] & ->)]; [rewrite zlen_nil in *; lia| |by eexists _, _, _].
    exfalso. rewrite zlen_cons, zlen_app, zlen_nil in Hsize. lia. }
  assert (put (out s, op s) b = Some (encs ts ++ x :: (L ++ [b]) ++ rest, op s + 1)) as ->.
  { cbn [put]. rewrite Hout. replace (encs ts ++ x :: L ++ y :: rest) with ((encs ts ++ x :: L) ++ [y] ++ rest) by (by rewrite <-app_assoc).
    rewrite mstore_app by (done || rewrite zlen_app, zlen_cons; lia). cbn [mbind option_bind]. unfold is_byte in Hbyte.
    rewrite uint_small by lia. by rewrite <-!app_assoc. }
  cbn [mbind option_bind].
  assert (expands [] ts ++ L ++ [b] = take (Z.to_nat (ip s + 1)) inp) as Hin'.
  { rewrite app_assoc, Hin. replace (Z.to_nat (ip s + 1)) with (S (Z.to_nat (ip s))) by lia. symmetry. apply take_S_r.
    unfold mget in Hb. by rewrite bool_decide_eq_true_2 in Hb by lia. }
  assert (zlen (L ++ [b]) = lit s + 1) as HL' by (rewrite zlen_app, zlen_cons, zlen_nil; lia).
  assert (zlen (encs ts ++ x :: (L ++ [b]) ++ rest) = N) as Hsize'.
  { rewrite <-Hsize, Hout, !zlen_app, !zlen_cons, !zlen_app, zlen_cons, zlen_nil, zlen_cons. lia. }
  change MAX_LIT with 32. destruct (Z.eqb_spec (lit s + 1) 32) as [Efull|Hpart].
  - replace (op s + 1) with (zlen (encs ts) + 1 + zlen (L ++ [b])) by lia. rewrite <-HL'. rewrite close_run by lia. cbn [mbind option_bind].
    pose proof (literal_ok ts (L ++ [b]) _ Hin' ltac:(lia)) as Hok.
    assert (zlen (encs (ts ++ [Lit (L ++ [b])])) = zlen (encs ts) + 33) as Hz.
    { rewrite encs_snoc, zlen_app. cbn [enc]. rewrite zlen_cons, HL'. lia. }
    eexists _, (ts ++ [Lit (L ++ [b])]), []. split; [done|]. split; [|cbn [ip op lit]; rewrite (proj2 (Z.eqb_eq (lit s) 31)) by lia; lia].
    split; cbn [out ip op lit htab]; try done; try lia.
    + exists rest. split; [done|]. destruct rest as [|z rest]; [by left|]. right. by exists z, rest.
    + rewrite zlen_app, Hz, <-Hsize', zlen_app, zlen_cons, zlen_app, HL'. lia.
    + by apply tokens_ok_snoc.
    + rewrite expands_snoc, app_nil_r. exact Hin'.
  - eexists _, ts, (L ++ [b]). split; [done|]. split; [|cbn [ip op lit]; rewrite (proj2 (Z.eqb_neq (lit s) 31)) by lia; lia].
    split; cbn [out ip op lit htab]; try done; try lia.
    exists (x :: (L ++ [b]) ++ rest). split; [done|]. right. by exists x, rest.
Qed.

(** Ending the open run: an empty one is undone. *)
Lemma end_run N s ts L : comp_inv N s ts L -> op s <= N -> exists ts1 R1,
  stop_run (out s) (op s) (lit s) = Some (encs ts1 ++ R1) /\ op s - (if lit s =? 0 then 1 else 0) = zlen (encs ts1) /\
  zlen (encs ts1 ++ R1) = N /\ tokens_ok [] ts1 /\ expands [] ts1 = take (Z.to_nat (ip s)) inp /\
  32 * zlen (encs ts1) <= 33 * ip s + 32.
Proof.
  intros [Hout Hsize Htok Hin Hip [HL Hlit] Hop Hratio Hht] Hroom. destruct Hout as (R & Hout & HR).
  assert (exists x rest, R = x :: L ++ rest) as (x & rest & ->).
  { rewrite Hout, zlen_app in Hsize. destruct HR as [[-> ->]|HR]; [rewrite zlen_nil in *; lia|done]. }
  rewrite Hout in *. pose proof (zlen_nonneg L). destruct (Z.eqb_spec (lit s) 0) as [E0|Hn].
  - assert (L = []) as -> by (apply zlen_0_inv; lia). exists ts, (255 :: rest). unfold stop_run. cbn [app] in *.
    change (encs ts ++ x :: rest) with (encs ts ++ [x] ++ rest). rewrite mstore_app by (done || lia). rewrite E0. cbn [app].
    split; [done|]. split; [lia|]. split; [rewrite <-Hsize, !zlen_app, !zlen_cons; done|]. split; [done|].
    rewrite app_nil_r in Hin. split; [done|lia].
  - exists (ts ++ [Lit L]), rest. rewrite Hop, <-HL. rewrite close_run by lia.
    assert (zlen (encs (ts ++ [Lit L])) = zlen (encs ts) + 1 + zlen L) as Hz.
    { rewrite encs_snoc, zlen_app. cbn [enc]. rewrite zlen_cons. lia. }
    split; [done|]. split; [lia|]. split; [rewrite zlen_app, Hz, <-Hsize, zlen_app, zlen_cons, zlen_app; lia|].
    split; [apply tokens_ok_snoc; [done|by eapply literal_ok; [|lia]]|]. split; [by rewrite expands_snoc|lia].
Qed.

Lemma put_spec E x R b : is_byte b -> put (E ++ x :: R, zlen E) b = Some (E ++ b :: R, zlen E + 1).
Proof.
  intros Hb. cbn [put]. change (E ++ x :: R) with (E ++ [x] ++ R). rewrite mstore_app by done. cbn [mbind option_bind].
  unfold is_byte in Hb. by rewrite uint_small by lia.
Qed.

Lemma put_mod E x R b : put (E ++ x :: R, zlen E) b = Some (E ++ u8 b :: R, zlen E + 1).
Proof. cbn [put]. change (E ++ x :: R) with (E ++ [x] ++ R). by rewrite mstore_app by done. Qed.

Lemma put_ref_spec E R off len : 0 <= off < 8192 -> 1 <= len <= 262 -> 4 <= zlen R -> exists x rest,
  put_ref (E ++ R, zlen E) off len = Some (E ++ enc (Ref off len) ++ x :: rest, zlen E + zlen (enc (Ref off len))) /\
  zlen (E ++ enc (Ref off len) ++ x :: rest) = zlen (E ++ R).
Proof.
  intros Ho Hl HR. destruct R as [|a [|b [|c [|d R]]]]; try (unfold zlen in HR; simpl in HR; lia).
  unfold put_ref. cbn [enc]. assert (0 <= Z.shiftr off 8 < 32) as Hs by (rewrite Z.shiftr_div_pow2 by lia; change (2 ^ 8) with 256; lia_div).
  change (Z.shiftl 7 5) with 224. destruct (Z.ltb_spec len 7) as [Hlt|Hge].
  - rewrite put_spec by (unfold is_byte; rewrite Z.shiftl_mul_pow2 by lia; change (2 ^ 5) with 32; lia). cbn [mbind option_bind].
    set (c1 := Z.shiftr off 8 + Z.shiftl len 5). pose proof (put_mod (E ++ [c1]) b (c :: d :: R) off) as Ep.
    rewrite <-!app_assoc, zlen_app in Ep. change (zlen [c1]) with 1 in Ep. cbn [app] in Ep. rewrite Ep.
    exists c, (d :: R). split; [cbn [app]; change (zlen [c1; u8 off]) with 2; do 2 f_equal; lia|]. rewrite !zlen_app, !zlen_cons, zlen_nil. lia.
  - rewrite put_spec by (unfold is_byte; lia). cbn [mbind option_bind].
    set (c1 := Z.shiftr off 8 + 224). pose proof (put_spec (E ++ [c1]) b (c :: d :: R) (len - 7) ltac:(unfold is_byte; lia)) as Ep.
    rewrite <-!app_assoc, zlen_app in Ep. change (zlen [c1]) with 1 in Ep. cbn [app] in Ep. rewrite Ep. cbn [mbind option_bind].
    pose proof (put_mod (E ++ [c1; len - 7]) c (d :: R) off) as Eq.
    rewrite <-!app_assoc, zlen_app in Eq. change (zlen [c1; len - 7]) with 2 in Eq. cbn [app] in Eq.
    replace (zlen E + 1 + 1) with (zlen E + 2) by lia. rewrite Eq.
    exists d, R. split; [cbn [app]; change (zlen [c1; len - 7; u8 off]) with 3; do 2 f_equal; lia|]. rewrite !zlen_app, !zlen_cons, zlen_nil. lia.
Qed.

(** The outcome of one iteration. *)
Definition step_ok (N : Z) (s : lzf_state) (r : option lzf_step) : Prop :=
  exists r', r = Some r' /\
    match r' with
    | Next s' => (exists ts L, comp_inv N s' ts L) /\ ip s < ip s'
    | Leave s' => (exists ts L, comp_inv N s' ts L) /\ zlen inp - 2 <= ip s'
    | Incompressible s' => zlen (out s') = N /\ 32 * N < 33 * zlen inp + 128
    end.

Lemma htab_insert_ok t i v : htab_ok t -> htab_ok (<[i := u32 v]> t).
Proof.
  intros H j w. destruct (decide (i = j)) as [->|Hn].
  - rewrite lookup_insert_eq. intros [= <-]. apply (uint_range 32). lia.
  - rewrite lookup_insert_ne by done. apply H.
Qed.

Lemma FRST_in p : 0 <= p < zlen inp - 1 -> exists v, FRST inp p = Some v.
Proof.
  intros Hp. unfold FRST. destruct (mget_in inp p) as (a & -> & _); [lia|]. destruct (mget_in inp (p + 1)) as (b & -> & _); [lia|].
  by eexists.
Qed.

Lemma NEXT_in v p : 0 <= p < zlen inp - 2 -> exists w, NEXT v inp p = Some w.
Proof. intros Hp. unfold NEXT. destruct (mget_in inp (p + 2)) as (a & -> & _); [lia|]. by eexists. Qed.

Lemma op_bound N s ts L : comp_inv N s ts L -> 32 * op s <= 33 * ip s + 32.
Proof. intros [? ? ? ? ? [? ?] Hop ? ?]. pose proof (zlen_nonneg L). lia. Qed.

Lemma take_match_spec N s ts L ref off : comp_inv N s ts L -> ip s < zlen inp - 2 ->
  off = ip s - ref - 1 -> off < 8192 -> 0 < ref < ip s -> agree ref (ip s) 3 -> step_ok N s (take_match inp s ref off).
Proof.
  intros Hinv Hlt Eoff Hoff Href Ha. pose proof (op_bound _ _ _ _ Hinv) as Hopb. unfold step_ok, take_match. rewrite (inv_size _ _ _ _ Hinv).
  set (undo := if lit s =? 0 then 1 else 0). assert (0 <= undo <= 1) as Hu by (unfold undo; destruct (lit s =? 0); lia).
  destruct ((op s + 3 + 1 >=? N) && (op s - undo + 3 + 1 >=? N)) eqn:Efit.
  { eexists. split; [done|]. split; [apply Hinv|]. lia. }
  assert (op s - undo + 4 < N) as Hroom by lia. clear Efit.
  destruct (end_run N s ts L Hinv) as (ts1 & R1 & -> & Eop & Hsize & Htok & Hin & Hratio); [lia|]. cbn [mbind option_bind].
  fold undo in Eop. rewrite Eop in *. pose proof (inv_ip _ _ _ _ Hinv) as Hip.
  destruct (match_length_spec ref (ip s)) as (len & -> & Hlen & Hend & Hagree); [lia|lia|lia|done|]. cbn [mbind option_bind].
  destruct (put_ref_spec (encs ts1) R1 off (len - 2)) as (x & rest & -> & Hsize2); [lia|lia|rewrite zlen_app in Hsize; lia|]. cbn [mbind option_bind].
  assert (zlen (expands [] ts1) = ip s) as Hzl by (rewrite Hin, zlen_take_min; lia).
  assert (tokens_ok [] (ts1 ++ [Ref off (len - 2)])) as Htok2 by (apply tokens_ok_snoc; [done|]; cbn; lia).
  assert (expands [] (ts1 ++ [Ref off (len - 2)]) = take (Z.to_nat (ip s + len)) inp) as Hin2.
  { rewrite expands_snoc. cbn [expand]. rewrite Hin, Eoff. pose proof (repeat_from_agree (Z.to_nat len) ref (ip s)) as E.
    rewrite Z2Nat.id in E by lia. replace (len - 2 + 2) with len by lia. apply E; [lia|lia|done]. }
  assert (forall h t, htab_ok t -> comp_inv N (mk_lzf (ip s + 1 + (len - 2) + 1) (zlen (encs ts1) + zlen (enc (Ref off (len - 2))) + 1) 0 h t
            (encs ts1 ++ enc (Ref off (len - 2)) ++ x :: rest)) (ts1 ++ [Ref off (len - 2)]) []) as Hnew.
  { intros h t Ht. assert (32 * zlen (enc (Ref off (len - 2))) <= 33 * len - 32) as Hz.
    { cbn [enc]. destruct (Z.ltb_spec (len - 2) 7); rewrite !zlen_cons, zlen_nil; lia. }
    split; cbn [ip op lit hval htab out]; try done.
    - exists (x :: rest). split; [by rewrite encs_snoc, <-app_assoc|]. right. by exists x, rest.
    - lia.
    - rewrite app_nil_r, Hin2. f_equal. lia.
    - lia.
    - rewrite encs_snoc, zlen_app. lia.
    - rewrite encs_snoc, zlen_app. lia. }
  destruct (Z.geb_spec (ip s + 1 + (len - 2) + 1) (zlen inp - 2)) as [Hge|Hgo].
  { eexists. split; [done|]. cbn [ip]. split; [|lia]. eexists _, _. apply Hnew. apply Hinv. }
  destruct (FRST_in (ip s + 1 + (len - 2) + 1 - 1 - 1)) as (h1 & ->); [lia|]. cbn [mbind option_bind].
  destruct (NEXT_in h1 (ip s + 1 + (len - 2) + 1 - 1 - 1)) as (h2 & ->); [lia|]. cbn [mbind option_bind].
  destruct (NEXT_in h2 (ip s + 1 + (len - 2) + 1 - 1 - 1 + 1)) as (h3 & ->); [lia|]. cbn [mbind option_bind].
  eexists. split; [done|]. cbn [ip]. split; [|lia]. eexists _, _.
  replace (ip s + 1 + (len - 2) + 1 - 1 - 1 + 1 + 1) with (ip s + 1 + (len - 2) + 1) by lia.
  apply Hnew. apply htab_insert_ok, htab_insert_ok. apply Hinv.
Qed.

Lemma slot_ok t i : htab_ok t -> in_u 32 (slot_at garbage t i).
Proof. intros H. unfold slot_at. destruct (t !! i) as [v|] eqn:E; [by apply (H i)|apply garbage_ok]. Qed.

Lemma lzf_iteration_spec N s ts L : comp_inv N s ts L -> ip s < zlen inp - 2 -> step_ok N s (lzf_iteration garbage inp s).
Proof.
  intros Hinv Hlt. pose proof (inv_ip _ _ _ _ Hinv) as Hip. pose proof (op_bound _ _ _ _ Hinv) as Hopb. unfold lzf_iteration.
  destruct (NEXT_in (hval s) (ip s)) as (h & ->); [lia|]. cbn [mbind option_bind ip op lit htab out].
  set (s1 := mk_lzf (ip s) (op s) (lit s) h (<[IDX h := u32 (ip s)]> (htab s)) (out s)).
  assert (comp_inv N s1 ts L) as Hinv1 by (destruct Hinv; split; try done; by apply htab_insert_ok).
  destruct (match_at_spec (slot_at garbage (htab s) (IDX h)) (ip s)) as (m & -> & Hm); [apply slot_ok, Hinv|lia|lia|].
  cbn [mbind option_bind]. destruct m as [off|].
  - destruct Hm as (Eoff & Hoff & Href & Ha). exact (take_match_spec N s1 ts L _ off Hinv1 Hlt Eoff Hoff Href Ha).
  - rewrite (inv_size _ _ _ _ Hinv). destruct (Z.geb_spec (op s) N) as [Hge|Hroom].
    { eexists. split; [done|]. split; [apply Hinv|lia]. }
    destruct (put_literal_spec N s1 ts L Hinv1) as (s2 & ts2 & L2 & -> & Hinv2 & Eip & _); [done|cbn [ip s1]; lia|].
    cbn [mbind option_bind]. eexists. split; [done|]. split; [by eexists _, _|]. rewrite Eip. cbn [ip s1]. lia.
Qed.

Lemma compress_loop_spec fuel N s ts L : comp_inv N s ts L -> zlen inp - ip s <= Z.of_nat fuel ->
  exists r, compress_loop garbage inp fuel s = Some r /\
    match r with
    | inl s' => (exists ts L, comp_inv N s' ts L) /\ zlen inp - 2 <= ip s'
    | inr s' => zlen (out s') = N /\ 32 * N < 33 * zlen inp + 128
    end.
Proof.
  revert s ts L. induction fuel as [|fuel IH]; intros s ts L Hinv Hf; cbn [compress_loop].
  all: destruct (Z.ltb_spec (ip s) (zlen inp - 2)) as [Hlt|Hge]; [|exists (inl s); split; [done|]; split; [by eexists _, _|lia]].
  { pose proof (inv_ip _ _ _ _ Hinv). lia. }
  destruct (lzf_iteration_spec N s ts L Hinv Hlt) as (r & -> & Hr). cbn [mbind option_bind]. destruct r as [s'|s'|s'].
  - destruct Hr as [(ts' & L' & Hinv') Hip]. apply (IH s' ts' L' Hinv'). lia.
  - by exists (inl s').
  - by exists (inr s').
Qed.

Lemma flush_loop_spec fuel N s ts L : comp_inv N s ts L -> zlen inp - ip s <= Z.of_nat fuel ->
  (zlen inp - ip s) + op s + (if 31 <? lit s + (zlen inp - ip s) then 1 else 0) <= N -> zlen inp - ip s <= 2 ->
  exists s' ts' L', flush_loop inp fuel s = Some s' /\ comp_inv N s' ts' L' /\ ip s' = zlen inp /\ op s' <= N.
Proof.
  revert s ts L. induction fuel as [|fuel IH]; intros s ts L Hinv Hf Hroom H2; cbn [flush_loop].
  all: pose proof (inv_ip _ _ _ _ Hinv) as Hip.
  all: destruct (Z.ltb_spec (ip s) (zlen inp)) as [Hlt|Hge].
  2,4: exists s, ts, L; split; [done|]; split; [done|]; split; [lia|]; destruct (31 <? lit s + (zlen inp - ip s)); lia.
  { lia. }
  destruct (put_literal_spec N s ts L Hinv) as (s1 & ts1 & L1 & -> & Hinv1 & Eip & Eop & Elit); [destruct (31 <? lit s + (zlen inp - ip s)); lia|done|].
  cbn [mbind option_bind]. pose proof (inv_lit _ _ _ _ Hinv) as [_ Hlit].
  apply (IH s1 ts1 L1 Hinv1); [lia| |lia]. rewrite Eip, Eop, Elit. revert Hroom. case_ints; lia.
Qed.

Lemma initial_inv N h out0 : zlen out0 = N -> 0 < N -> comp_inv N (mk_lzf 0 1 0 h ∅ out0) [] [].
Proof.
  intros Hs HN. split; cbn [ip op lit hval htab out]; try done.
  - exists out0. split; [done|]. right. destruct out0 as [|x rest]; [rewrite zlen_nil in Hs; lia|]. by exists x, rest.
  - lia.
Qed.

(** What compression leaves: nothing, or a stream of tokens for the input. *)
Lemma lzf_compress_spec out0 : exists n out', lzf_compress garbage inp out0 = Some (n, out') /\ zlen out' = zlen out0 /\
  (n = 0 /\ 32 * zlen out0 < 33 * zlen inp + 128 \/
   exists ts R, out' = encs ts ++ R /\ n = zlen (encs ts) /\ tokens_ok [] ts /\ expands [] ts = inp).
Proof.
  unfold lzf_compress. rewrite (proj2 (Z.eqb_neq (zlen inp) 0)) by lia. cbn [orb].
  destruct (Z.eqb_spec (zlen out0) 0) as [E0|Hne]; [eexists _, _; split; [done|]; split; [done|]; left; lia|].
  pose proof (zlen_nonneg out0). destruct (FRST_in 0) as (h & ->); [lia|]. cbn [mbind option_bind].
  destruct (compress_loop_spec (length inp) (zlen out0) _ [] [] (initial_inv (zlen out0) h out0 eq_refl ltac:(lia))) as (r & -> & Hr);
    [cbn [ip]; unfold zlen; lia|]. cbn [mbind option_bind].
  destruct r as [s|s]; [|destruct Hr as [Hs Hb]; eexists _, _; split; [done|]; split; [done|]; left; lia].
  destruct Hr as [(ts & L & Hinv) Hip]. pose proof (op_bound _ _ _ _ Hinv) as Hopb. rewrite (inv_size _ _ _ _ Hinv).
  pose proof (inv_ip _ _ _ _ Hinv) as Hipr.
  destruct (Z.gtb_spec (op s + 3) (zlen out0)) as [Hgt|Hfit].
  { eexists _, _. split; [done|]. split; [apply Hinv|]. left. lia. }
  destruct (flush_loop_spec (length inp) (zlen out0) s ts L Hinv) as (s1 & ts1 & L1 & -> & Hinv1 & Eip & Hop); [unfold zlen in *; lia| |lia|].
  { destruct (31 <? lit s + (zlen inp - ip s)); lia. }
  cbn [mbind option_bind]. destruct (end_run _ _ _ _ Hinv1 Hop) as (ts2 & R2 & -> & Eop & Hsize & Htok & Hin & _). cbn [mbind option_bind].
  eexists _, _. split; [done|]. split; [done|]. right. exists ts2, R2. split; [done|]. split; [done|]. split; [done|].
  rewrite Hin, Eip. apply take_ge. unfold zlen. lia.
Qed.
End compression.

(** C37: compression of 2 to 2^32 - 1 bytes is lossless and safe: whatever the
    uninitialised hash table holds, lzf_compress reads and writes nothing
    outside its buffers and terminates; when it returns a length, decompressing
    that many bytes of the output gives back the input, in any buffer of at
    least its size; and it always returns a length when the output buffer has
    room for the input, one byte more for every 32, and four bytes. *)
Theorem lzf_roundtrip garbage inp out0 :
  Forall is_byte inp -> 2 <= zlen inp < 2 ^ 32 -> (forall i, in_u 32 (garbage i)) ->
  exists n out', lzf_compress garbage inp out0 = Some (n, out') /\ zlen out' = zlen out0 /\ 0 <= n <= zlen out0 /\
    (33 * zlen inp + 128 <= 32 * zlen out0 -> n <> 0) /\
    (n <> 0 -> forall buf, zlen inp <= zlen buf ->
       lzf_decompress (take (Z.to_nat n) out') buf = (Some (inl (zlen inp)), inp ++ drop (length inp) buf)).
Proof.
  intros Hb Hl Hg. destruct (lzf_compress_spec garbage inp Hb Hl Hg out0) as (n & out' & E & Hs & [[-> Hsmall]|(ts & R & -> & -> & Htok & Hexp)]).
  - exists 0, out'. split; [done|]. split; [done|]. pose proof (zlen_nonneg out0). split; [lia|]. split; [lia|done].
  - eexists _, _. split; [exact E|]. split; [done|]. rewrite zlen_app in Hs. pose proof (zlen_nonneg R). pose proof (zlen_nonneg (encs ts)).
    split; [lia|]. split.
    + intros _ E0. apply zlen_0_inv in E0. destruct ts as [|t ts]; [cbn in Hexp; subst inp; rewrite zlen_nil in Hl; lia|].
      pose proof (enc_nonempty t). apply (f_equal length) in E0. cbn [encs mbind list_bind] in E0. rewrite length_app in E0. simpl in E0. lia.
    + intros _ buf Hbuf. unfold zlen at 1. rewrite Nat2Z.id, take_app_length.
      rewrite lzf_decompress_tokens by (done || by rewrite Hexp). by rewrite Hexp.
Qed.

(** The hash of the first bytes is computed before the length is looked at, so
    an input of one byte is read past its end. *)
Theorem lzf_compress_one_byte garbage b out0 : out0 <> [] -> lzf_compress garbage [b] out0 = None.
Proof. intros H. unfold lzf_compress. destruct out0; [done|]. rewrite zlen_cons. pose proof (zlen_nonneg out0). destruct (Z.eqb_spec (1 + zlen out0) 0); [lia|]. done. Qed.

Definition sample_text : bytes := str "abcabcabcabcabcabcabcabcabcabcabcabcabcabcabcxyzxyzxyz".

Lemma lzf_roundtrip_witness : exists n out', lzf_compress (fun i => i mod 7) sample_text (replicate 64 170) = Some (n, out') /\ n <> 0 /\
  lzf_decompress (take (Z.to_nat n) out') (replicate 54 0) = (Some (inl 54), sample_text).
Proof.
  destruct (lzf_roundtrip (fun i => i mod 7) sample_text (replicate 64 170)) as (n & out' & E & _ & _ & Hn & Hd).
  - refine (bool_decide_eq_true_1 _ _). vm_compute. reflexivity.
  - vm_compute. split; [discriminate|reflexivity].
  - intros i. pose proof (Z.mod_pos_bound i 7 ltac:(lia)). lia.
  - specialize (Hn ltac:(vm_compute; discriminate)). exists n, out'. split; [exact E|]. split; [exact Hn|].
    exact (Hd Hn (replicate 54 0) ltac:(vm_compute; discriminate)).
Defined.

Lemma lzf_decompress_safe_witness : exists r out', lzf_decompress [0xE0; 255; 3; 31; 1] (replicate 10 0) = (Some r, out') /\ zlen out' = 10.
Proof.
  destruct (lzf_decompress_safe [0xE0; 255; 3; 31; 1] (replicate 10 0)) as (r & out' & E & Hl & _).
  - refine (bool_decide_eq_true_1 _ _). vm_compute. reflexivity.
  - exists r, out'. split; [exact E|exact Hl].
Defined.
